(* ===== verification/_CoqProject ===== *)
-Q . S2P
Prelude.v
Errors.v
Net.v
Text.v
Effects.v
Schedule.v
Quic.v
Cid.v
Bpf.v
BpfTypes.v
CidRouting.v
Concurrency.v
Executor.v
AsyncStd.v
StaticFile.v
Config.v
Platform.v
Selector.v
Recv.v
RuntimeSockets.v
Examples.v
Listener.v
Pipeline.v
UnitTests.v
Closing.v
ServerState.v
ServerRuntime.v
Cluster.v
Stopping.v
StoppingRuntimes.v
ClosingLoops.v
Jobs.v
Serve.v
ServeSpec.v
ServeLog.v
ServeClaims.v
