(* ===== verification/Prelude.v ===== *)
(** * sfo-reuseport: a verification development

    sfo-reuseport runs TCP, UDP and QUIC-aware UDP services on several worker threads.
    Each worker owns a single-threaded executor; where the platform can balance with
    SO_REUSEPORT every worker has its own socket, else one socket is read by one
    worker and its connections or datagrams are routed to the others by a
    userspace substitute.  QUIC datagrams are routed by the worker index in the
    first two bytes of the destination connection id, in the kernel by a BPF
    program or in userspace by a parser.

    ** Files, in dependency order

    - [Prelude]: result type, machine integers as [Z] with explicit wrap-around, byte
      buffers, lemmas and the hint database [words].
    - [Errors] (src/core/error.rs): the crate's error type and its conversions.
    - [Net]: the part of std::net the crate uses, and [PacketMeta] of src/core/udp.rs.
    - [Text]: UTF-8, splitting and formatting of byte strings as [str] does them.
    - [Effects]: programs over an arbitrary world, with a log of events, and the
      rules of [wp], which all effectful components share.
    - [Schedule] (src/core/schedule.rs): the FNV-1a selection of a worker.
    - [Quic] (src/core/quic.rs, the parser): [quic_worker_index] and its declarative
      specification [Routes].
    - [Cid] (src/core/cid.rs): the connection-id generator.
    - [Bpf] (src/platform/linux.rs, the programs): the eBPF program and the classic
      filter as the source assembles them, with interpreters of the two
      instruction sets as far as the programs use them.
    - [BpfTypes]: a static checker for eBPF programs, its soundness, and that it accepts
      the program for every number of workers.
    - [CidRouting]: generated ids are routed to their worker, by the classic filter and in
      userspace.
    - [Concurrency] (src/core/concurrency.rs): the per-worker limit, one step per
      atomic operation, for any interleaving.
    - [Executor] (src/runtime/tokio.rs): the executor of a worker as a state machine.
    - [AsyncStd] (src/runtime/async_std.rs): the other runtime: executors, the local
      tasks of every thread, block_on and the thread-local current executor.
    - [StaticFile] (examples/hyper_static.rs): the static file server.
    - [Config] (src/core/config.rs): configurations, builders, validation and the
      [SocketConfig] interface.
    - [Platform] (src/platform/mod.rs and the per-target files): socket creation.
    - [Selector] (src/platform/linux.rs): loading, attaching and probing a selector.
    - [Recv] (src/core/udp.rs, src/runtime/tokio.rs, src/platform/linux.rs): the
      receive operations of runtime and routed sockets, original destinations,
      scattering.
    - [RuntimeSockets] (src/runtime/tokio.rs, async_std.rs): conversion of sockets and
      the socket functions of both runtimes, as instances of the interface of [Recv].
    - [Examples] (examples/tcp_echo.rs, udp_server.rs, udp_serve_socket.rs): command
      lines and echo handlers.
    - [Listener] (src/core/udp.rs, quic.rs, tcp.rs): the nine loops that accept,
      receive, route and dispatch.
    - [Pipeline]: a routing loop, the queues and the dispatch loops running together,
      in any interleaving.
    - [UnitTests]: the crate's own unit tests, evaluated on the model.
    - [Closing] (src/core/udp.rs, tcp.rs, quic.rs): [close] against the tasks of a running
      server, interleaved at every access to shared state.
    - [ServerState] (src/core/udp.rs, tcp.rs): what a server keeps, [close],
      [listener_socket].
    - [ServerRuntime] (src/core/server_runtime.rs): worker threads, placement of tasks.
    - [Cluster]: the executors of all workers behind those two interfaces: submitting
      to a worker and closing a server while the workers run.
    - [Stopping] (src/core/server_runtime.rs): dropping a runtime against its worker
      threads, interleaved at every message, join and turn of a worker, for every
      runtime with the interface [Workers].
    - [StoppingRuntimes] (src/runtime/tokio.rs, async_std.rs): that both runtimes have it.
    - [ClosingLoops]: the loops of [Listener] follow the graph that [Closing] keeps of them.
    - [Jobs] (the closures of src/core/udp.rs, quic.rs, tcp.rs): the tasks a server
      submits, up to the loop they start.
    - [Serve] (serve, serve_with_state, serve_socket and the add_*_listener functions
      of src/core/udp.rs, quic.rs, tcp.rs): how a server is started.
    - [ServeSpec], [ServeLog], [ServeClaims]: descriptor accounting for those
      functions, the exact log of a successful start, and the theorems.

    ** How effects are modelled

    A function that calls the system, the async runtime or a channel is a [prog]: it
    takes a world, returns a value, a new world and the events it performed.  Each
    file has a class of the calls it makes, without laws, so a theorem about every
    world covers every error and every answer; laws are stated where documented
    behaviour is used ([GetRandom], [AtomicWaker], [ClockLaws]), each with an
    instance.  Values that Rust drops at the end of a scope (descriptors, permits,
    streams, task handles) are dropped explicitly, on every path, with an event;
    the accounting theorems compare these events.  An [await] is a call that
    answers when it answers.

    Concurrency is modelled where it decides correctness: [Concurrency], [Executor],
    [AsyncStd], [Closing] and [Stopping] are step relations over all interleavings, and
    [Pipeline] takes any interleaving of the events of the loops it composes, with
    channels as bounded FIFO queues.  In the loops the flags that other threads may
    clear are questions to the world, asked where the code loads them.  While a server is being started the tasks already submitted may
    run: [Interference] is any change they make between two steps, and
    [Bystanders] says they leave the part of the state that serve writes alone,
    which [ServeClaims.task_bystanders] proves of the closures of this crate.

    ** What the groups of theorems show

    - Routing (Bpf, BpfTypes, Quic, Cid, CidRouting, Schedule): both kernel programs are
      safe, end, and are well-typed (eBPF); the classic filter agrees with the userspace
      parser on every datagram, and generated ids are routed to their worker by both; the
      eBPF program, which is loaded with a type whose data is the UDP header and whose
      result is a verdict, returns a number read off that header; the scheduler is the
      published FNV-1a over an injective encoding.
    - Limit (Concurrency): never above the maximum, a refinement of an atomic
      semaphore, no lost wake-up, bounded steps when run alone.
    - Executor, AsyncStd: which tasks the handle map holds, that a cancelled task never
      runs again, that shutdown stops everything; on async-std, that tasks stay on
      their thread, and what cancelling and submitting from other threads does.
    - Sockets (Platform, Selector, ServerState): order of set-up, no descriptor
      leaks on any path, an installed selector was probed, a kernel that gives all probes
      to one socket never passes, closing releases everything once.
    - Stopping (Stopping, StoppingRuntimes): dropping a runtime returns within a bounded
      number of steps and leaves no thread or task behind, on either runtime, and no
      later submission ever runs; on a worker's own thread it does not return.
    - Running and closing (Closing, ClosingLoops, Cluster): at every moment the handlers
      of a worker and the items queued for it are within its limit, and its queue
      within its capacity; closing comes to rest within a bounded
      number of steps, and then every loop has ended if cancelled tasks are dropped, and
      otherwise all but what waits for the outside, which includes a UDP loop that no
      wake-up reached; on tokio the tasks of a closed server stop, on whichever worker
      and however its loop runs meanwhile, and no other task is cancelled.
    - Loops (Listener): permits and connections are settled exactly once, work goes into
      the channel and under the limit of the worker it should, in order, at most once, nothing is lost while a
      worker's loop runs, nothing is handed over after an inactive check, and loops
      end once inactive.
    - End to end (Pipeline): in order and at most once from the routing loop to the
      handler, permits and connections conserved, no index out of range.
    - Starting (Jobs, ServeClaims): which worker gets which socket, limit, queue end
      and task; where every descriptor is afterwards, on every path; what a failed
      start leaves behind; that a worker's thread finds its own socket.
    - Runtime and receive operations (ServerRuntime, Recv, RuntimeSockets).
    - Examples (StaticFile, Examples): no path leaves the root, percent decoding inverts
      encoding, requests are bounded, both runtimes answer alike, echoes are exact.

    ** Bounds and fuel

    [usize] has 64 bits.  The eBPF theorems assume a worker count below 2^31 (it is
    an [i32] immediate) and the classic one below 2^32; the executor's theorems
    hold up to 2^64 - 1 submissions.  eBPF runs need 34 steps, classic ones 7, both
    proved enough.  The listener loops are unbounded: their theorems hold for every
    number of iterations, and [loops_stop_when_inactive] says when a number is
    enough.  The probe's wait has 101 iterations for 100 ms, proved enough; draining
    a socket needs one more than the datagrams pending.  Reading a request takes at
    most 8194 reads, percent decoding one iteration per byte, both proved enough.

    ** Not modelled

    Third-party code (tokio, socket2, getrandom, atomic-waker, libc macros) is an
    interface.  The kernel's verifier and its reuse-port group order are outside the
    model; that the order is the expected one is what the probe checks.  Of the kernel's
    treatment of the programs the documented part is used: the classic filter is given
    the datagram and returns a socket's index; a program of type SK_REUSEPORT is given
    the bytes from the UDP header on and returns SK_DROP or SK_PASS; shutdown of an
    unconnected UDP socket fails.  Re-exports
    and the [main] functions of the examples, which only start the library, carry no
    logic; hyper's own parsing and printing of HTTP is outside.
    Memory orderings of atomics are taken as sequentially consistent. *)

From stdpp Require Export base tactics option list gmap sets strings pretty.
From Stdlib Require Export ZArith Lia.

#[global] Open Scope Z_scope.

(** ** Results

    Rust's [Result<A, E>].  The error type comes first so that [result E] is a
    monad: [x ← r; k] is the code's [let x = r?; k]. *)
Inductive result (E A : Type) : Type :=
| Ok (a : A)
| Err (e : E).
Arguments Ok {E A} a.
Arguments Err {E A} e.

#[export] Instance result_ret {E} : MRet (result E) := fun A a => Ok a.
#[export] Instance result_bind {E} : MBind (result E) := fun A B f r =>
  match r with Ok a => f a | Err e => Err e end.
#[export] Instance result_fmap {E} : FMap (result E) := fun A B f r =>
  match r with Ok a => Ok (f a) | Err e => Err e end.

(** [Result::map_err], [Result::ok], [Result::is_ok], [Option::ok_or]. *)
Definition map_err {E F A} (f : E -> F) (r : result E A) : result F A :=
  match r with Ok a => Ok a | Err e => Err (f e) end.

Definition ok {E A} (r : result E A) : option A :=
  match r with Ok a => Some a | Err _ => None end.

Definition is_ok {E A} (r : result E A) : bool :=
  match r with Ok _ => true | Err _ => false end.

Definition ok_or {E A} (e : E) (o : option A) : result E A :=
  match o with Some a => Ok a | None => Err e end.

(** ** Machine integers

    A w-bit unsigned integer is a [Z] in [0, 2^w).  [usize] is 64 bits wide, as
    on every target for which the crate builds the reuse-port selectors. *)
Definition u8 (z : Z) : Z := z mod 2 ^ 8.
Definition u16 (z : Z) : Z := z mod 2 ^ 16.
Definition u32 (z : Z) : Z := z mod 2 ^ 32.
Definition u64 (z : Z) : Z := z mod 2 ^ 64.
Definition usize (z : Z) : Z := u64 z.

(** [x as i32] for a [usize] x: truncate to 32 bits, read as two's complement. *)
Definition i32 (z : Z) : Z :=
  let w := u32 z in if bool_decide (w < 2 ^ 31) then w else w - 2 ^ 32.

Definition is_u8 (b : Z) : Prop := 0 <= b < 2 ^ 8.
Definition is_u16 (z : Z) : Prop := 0 <= z < 2 ^ 16.
Definition is_u32 (z : Z) : Prop := 0 <= z < 2 ^ 32.
Definition is_u64 (z : Z) : Prop := 0 <= z < 2 ^ 64.
Definition is_usize (z : Z) : Prop := is_u64 z.

(** A byte buffer ([&[u8]], [Vec<u8>]) and its well-formedness. *)
Notation bytes := (list Z).
Definition bytes_ok (l : bytes) : Prop := Forall is_u8 l.

(** [v.len()] as a machine integer. *)
Definition len {A} (l : list A) : Z := Z.of_nat (length l).

(** [v.get(i)] for a machine-integer index. *)
Definition get {A} (l : list A) (i : Z) : option A := l !! Z.to_nat i.

(** [&v[a..b]] for indices already checked against the length. *)
Definition slice {A} (l : list A) (a b : Z) : list A :=
  take (Z.to_nat (b - a)) (drop (Z.to_nat a) l).

(** [vec![x; n]]. *)
Definition vec_of {A} (x : A) (n : Z) : list A := replicate (Z.to_nat n) x.

(** [dst[..n].copy_from_slice(&src[..n])], for [n] at most both lengths. *)
Definition copy_prefix {A} (n : nat) (src dst : list A) : list A :=
  take n src ++ drop n dst.

(** Two bytes in network order. *)
Definition be16 (hi lo : Z) : Z := Z.lor (Z.shiftl hi 8) lo.

#[export] Instance is_u8_dec b : Decision (is_u8 b).
Proof. unfold is_u8; apply _. Defined.
#[export] Instance bytes_ok_dec l : Decision (bytes_ok l).
Proof. unfold bytes_ok; apply _. Defined.
#[export] Instance result_eq_dec {E A} `{EqDecision E, EqDecision A} :
  EqDecision (result E A).
Proof. solve_decision. Defined.

(** ** Lemmas on words and slices *)

Create HintDb words discriminated.

Lemma u8_range z : is_u8 (u8 z).
Proof. unfold is_u8, u8. apply Z.mod_pos_bound. lia. Qed.
Lemma u16_range z : is_u16 (u16 z).
Proof. unfold is_u16, u16. apply Z.mod_pos_bound. lia. Qed.
Lemma u32_range z : is_u32 (u32 z).
Proof. unfold is_u32, u32. apply Z.mod_pos_bound. lia. Qed.
Lemma u64_range z : is_u64 (u64 z).
Proof. unfold is_u64, u64. apply Z.mod_pos_bound. lia. Qed.
Lemma usize_range z : is_usize (usize z).
Proof. apply u64_range. Qed.

Lemma u8_id z : is_u8 z -> u8 z = z.
Proof. apply Z.mod_small. Qed.
Lemma u16_id z : is_u16 z -> u16 z = z.
Proof. apply Z.mod_small. Qed.
Lemma u32_id z : is_u32 z -> u32 z = z.
Proof. apply Z.mod_small. Qed.
Lemma u64_id z : is_u64 z -> u64 z = z.
Proof. apply Z.mod_small. Qed.
Lemma i32_id z : 0 <= z < 2 ^ 31 -> i32 z = z.
Proof.
  intros Hz. unfold i32. rewrite u32_id by (unfold is_u32; lia).
  rewrite bool_decide_true; lia.
Qed.
#[export] Hint Resolve u8_range u16_range u32_range u64_range usize_range : words.

(** [hi << 8 | lo] is [256 * hi + lo] when [lo] is a byte. *)
(** Linear arithmetic with quotients and remainders. *)
Ltac div_lia := Z.to_euclidean_division_equations; lia.

Lemma be16_add hi lo : is_u8 lo -> be16 hi lo = hi * 256 + lo.
Proof.
  intros Hlo. unfold be16. pose proof (Z.add_lor_land (Z.shiftl hi 8) lo) as H.
  assert (Z.land (Z.shiftl hi 8) lo = 0) as Hz.
  { apply Z.bits_inj'. intros n Hn. rewrite Z.land_spec, Z.bits_0.
    destruct (decide (n < 8)).
    - by rewrite Z.shiftl_spec_low.
    - rewrite (Z.bits_above_log2 lo), andb_false_r; [done| unfold is_u8 in *; lia |].
      destruct (decide (lo = 0)) as [->|]; [simpl; lia|].
      assert (Z.log2 lo < 8); [|lia].
      apply Z.log2_lt_pow2; unfold is_u8 in *; lia. }
  rewrite Hz, Z.shiftl_mul_pow2 in H by lia. rewrite Z.shiftl_mul_pow2 by lia. lia.
Qed.

Lemma be16_range hi lo : is_u8 hi -> is_u8 lo -> is_u16 (be16 hi lo).
Proof. intros Hh Hl. rewrite be16_add by done. unfold is_u8, is_u16 in *. lia. Qed.

(** [u16::to_be_bytes] and back. *)
Lemma be16_split z : is_u16 z -> be16 (u8 (Z.shiftr z 8)) (u8 z) = z.
Proof.
  intros Hz. rewrite be16_add by auto with words.
  rewrite Z.shiftr_div_pow2 by lia. unfold u8, is_u16 in *.
  change (2 ^ 8) with 256 in *. change (2 ^ 16) with 65536 in *.
  pose proof (Z.div_mod z 256).
  rewrite (Z.mod_small (z / 256)); [lia|].
  split; [apply Z.div_pos|apply Z.div_lt_upper_bound]; lia.
Qed.

Lemma be16_inj a b c d :
  is_u8 b -> is_u8 d -> be16 a b = be16 c d -> a = c /\ b = d.
Proof. intros Hb Hd. rewrite !be16_add by done. unfold is_u8 in *. lia. Qed.
#[export] Hint Resolve be16_range : words.

Lemma len_nonneg {A} (l : list A) : 0 <= len l.
Proof. unfold len. lia. Qed.

Lemma get_lt_Some {A} (l : list A) i x : get l i = Some x -> 0 <= i -> i < len l.
Proof. unfold get, len. intros ?%lookup_lt_Some ?. lia. Qed.

Lemma get_in_range {A} (l : list A) i : 0 <= i < len l -> is_Some (get l i).
Proof. unfold get, len. intros ?. apply lookup_lt_is_Some_2. lia. Qed.

Lemma get_out_of_range {A} (l : list A) i : len l <= i -> get l i = None.
Proof. unfold get, len. intros ?. apply lookup_ge_None_2. lia. Qed.

Lemma get_cons_succ {A} (x : A) l i : 0 <= i -> get (x :: l) (i + 1) = get l i.
Proof. intros Hi. unfold get. by replace (Z.to_nat (i + 1)) with (S (Z.to_nat i)) by lia. Qed.

Lemma get_byte l i b : bytes_ok l -> get l i = Some b -> is_u8 b.
Proof. unfold get. apply Forall_lookup_1. Qed.

Lemma get_slice {A} (l : list A) a b i :
  0 <= a -> 0 <= i < b - a -> get (slice l a b) i = get l (a + i).
Proof.
  intros Ha Hi. unfold get, slice. rewrite lookup_take by lia.
  case_decide; [|lia]. rewrite lookup_drop. f_equal. lia.
Qed.

Lemma len_slice {A} (l : list A) a b :
  0 <= a <= b -> b <= len l -> len (slice l a b) = b - a.
Proof. intros ? Hb. unfold len, slice in *. rewrite length_take, length_drop. lia. Qed.

Lemma bytes_ok_slice l a b : bytes_ok l -> bytes_ok (slice l a b).
Proof. intros H. apply Forall_take, Forall_drop, H. Qed.

Lemma copy_prefix_length {A} n (src dst : list A) :
  (n <= length src)%nat -> (n <= length dst)%nat ->
  length (copy_prefix n src dst) = length dst.
Proof. intros ??. unfold copy_prefix. rewrite length_app, length_take, length_drop. lia. Qed.

Lemma copy_prefix_take {A} n (src dst : list A) :
  (n <= length src)%nat -> take n (copy_prefix n src dst) = take n src.
Proof. intros ?. unfold copy_prefix. rewrite take_app_le, take_take; [f_equal; lia|]. rewrite length_take. lia. Qed.

Lemma length_filter_insert {A} (P : A -> Prop) `{!forall x, Decision (P x)} (l : list A) i x y :
  l !! i = Some x ->
  (length (filter P (<[i := y]> l)) + (if decide (P x) then 1 else 0) =
   length (filter P l) + (if decide (P y) then 1 else 0))%nat.
Proof.
  revert i. induction l as [|z l IH]; intros [|i] Hi; simplify_eq/=.
  - rewrite !filter_cons. repeat case_decide; simpl; lia.
  - rewrite !filter_cons. specialize (IH i Hi). destruct (decide (P z)); simpl; lia.
Qed.

Lemma imap_pair_insert {A} (l : list A) i y : imap pair (<[i := y]> l) = <[i := (i, y)]> (imap pair l).
Proof.
  apply list_eq. intros j. rewrite list_lookup_imap. destruct (decide (i = j)) as [<-|Hne].
  - destruct (decide (i < length l)%nat) as [Hlt|Hge].
    + rewrite !list_lookup_insert_eq by (rewrite ?length_imap; lia). done.
    + rewrite !list_insert_ge by (rewrite ?length_imap; lia). by rewrite list_lookup_imap.
  - by rewrite !list_lookup_insert_ne, list_lookup_imap by done.
Qed.
