(* ===== verification/Errors.v ===== *)
(** * Errors: [src/src/core/error.rs]

    The crate's [Error] enum, the classification of [io::Error] into
    [PermissionDenied] and [Socket], [Display] and [source]. *)

From S2P Require Import Prelude.

#[local] Open Scope string_scope.

Module Io.

(** The [std::io::ErrorKind]s the crate tests or builds; every other kind the
    operating system can produce is [Other] with its number. *)
Inductive ErrorKind :=
| PermissionDenied
| NotFound
| BrokenPipe
| NotConnected
| InvalidInput
| InvalidData
| TimedOut
| WouldBlock
| UnexpectedEof
| Unsupported
| Other (n : Z).

#[global] Instance ErrorKind_eq_dec : EqDecision ErrorKind.
Proof. solve_decision. Defined.

(** [std::io::Error]: its kind and what [to_string] prints. *)
Record Error := mkError { kind : ErrorKind; message : string }.

#[global] Instance Error_eq_dec : EqDecision Error.
Proof. solve_decision. Defined.

End Io.

Notation io_result := (result Io.Error).

Inductive Error :=
| InvalidConfig (message : string)
| UnsupportedPlatformOption (message : string)
| PermissionDenied (message : string)
| SocketInitCallback (message : string)
| Socket (error : Io.Error)
| Runtime (message : string)
| Handler (message : string).

#[export] Instance Error_eq_dec : EqDecision Error.
Proof. solve_decision. Defined.

Notation crate_result := (result Error).

(** [Error::socket]: the one place where an [io::Error] becomes a crate error. *)
Definition Error_socket (error : Io.Error) : Error :=
  if bool_decide (Io.kind error = Io.PermissionDenied)
  then PermissionDenied (Io.message error)
  else Socket error.

(** [impl From<io::Error> for Error]. *)
Definition Error_from (value : Io.Error) : Error := Error_socket value.

(** [impl fmt::Display for Error]. *)
Definition Error_display (e : Error) : string :=
  match e with
  | InvalidConfig message => "invalid config: " +:+ message
  | UnsupportedPlatformOption message => "unsupported platform option: " +:+ message
  | PermissionDenied message => "permission denied: " +:+ message
  | SocketInitCallback message => "socket init callback error: " +:+ message
  | Socket error => "socket error: " +:+ Io.message error
  | Runtime message => "runtime error: " +:+ message
  | Handler message => "handler error: " +:+ message
  end.

(** [impl std::error::Error for Error]: [source]. *)
Definition Error_source (e : Error) : option Io.Error :=
  match e with
  | Socket error => Some error
  | _ => None
  end.

(** [r.map_err(Error::from)] *)
Definition from_io {A} (r : io_result A) : crate_result A := map_err Error_from r.

Lemma from_io_Ok {A} (a : A) : from_io (Ok a) = Ok a.
Proof. reflexivity. Qed.

Lemma from_io_inv {A} (r : io_result A) a : from_io r = Ok a -> r = Ok a.
Proof. destruct r; naive_solver. Qed.

(** The crate never wraps a permission failure in [Socket]. *)
Lemma Error_from_not_permission_socket e e' :
  Error_from e = Socket e' -> Io.kind e' <> Io.PermissionDenied.
Proof. unfold Error_from, Error_socket. case_bool_decide; naive_solver. Qed.

(** Two prefixes of [Error_display] that are prefixes of one message are the
    same prefix: the tags are prefix-free. *)
Definition display_tag (e : Error) : string :=
  match e with
  | InvalidConfig _ => "invalid config: "
  | UnsupportedPlatformOption _ => "unsupported platform option: "
  | PermissionDenied _ => "permission denied: "
  | SocketInitCallback _ => "socket init callback error: "
  | Socket _ => "socket error: "
  | Runtime _ => "runtime error: "
  | Handler _ => "handler error: "
  end.

Definition display_body (e : Error) : string :=
  match e with
  | InvalidConfig m | UnsupportedPlatformOption m | PermissionDenied m
  | SocketInitCallback m | Runtime m | Handler m => m
  | Socket e => Io.message e
  end.

Lemma display_split e : Error_display e = display_tag e +:+ display_body e.
Proof. by destruct e. Qed.

(** Converting an [io::Error] keeps what [Display] prints after the tag, keeps the
    underlying error reachable through [source] unless it is a permission failure,
    and chooses [PermissionDenied] exactly on that kind. *)
Lemma Error_from_spec e :
  display_body (Error_from e) = Io.message e /\
  (Error_source (Error_from e) = Some e <-> Io.kind e <> Io.PermissionDenied) /\
  ((exists m, Error_from e = PermissionDenied m) <-> Io.kind e = Io.PermissionDenied).
Proof. unfold Error_from, Error_socket. case_bool_decide; naive_solver. Qed.

(** Error conversion.  Turning an [io::Error] into the crate's error keeps the
    text, chooses [PermissionDenied] exactly for that kind, and keeps the original
    reachable through [source] in every other case; what [Display] prints is a tag
    that identifies the variant followed by that text. *)
Theorem error_conversion e :
  Error_display (Error_from e) =
    (if bool_decide (Io.kind e = Io.PermissionDenied) then "permission denied: " else "socket error: ")
      +:+ Io.message e /\
  (Error_source (Error_from e) = Some e <-> Io.kind e <> Io.PermissionDenied) /\
  ((exists m, Error_from e = PermissionDenied m) <-> Io.kind e = Io.PermissionDenied).
Proof.
  destruct (Error_from_spec e) as (Hb & Hs & Hp). split_and!; try tauto.
  unfold Error_from, Error_socket. by case_bool_decide.
Qed.
