(* ===== verification/Net.v ===== *)
(** * Addresses: the part of [std::net] the crate uses, and [PacketMeta]

    [std::net::IpAddr], [std::net::SocketAddr] and the metadata record of
    [src/src/core/udp.rs]. *)

From S2P Require Import Prelude.

(** [std::net::IpAddr], by its octets in network order. *)
Inductive IpAddr :=
| IpV4 (octets : bytes)
| IpV6 (octets : bytes).

(** [std::net::SocketAddr]. *)
Inductive SocketAddr :=
| SocketAddrV4 (ip : bytes) (port : Z)
| SocketAddrV6 (ip : bytes) (port flowinfo scope_id : Z).

#[export] Instance IpAddr_eq_dec : EqDecision IpAddr.
Proof. solve_decision. Defined.
#[export] Instance SocketAddr_eq_dec : EqDecision SocketAddr.
Proof. solve_decision. Defined.

Definition addr_ip (a : SocketAddr) : IpAddr :=
  match a with
  | SocketAddrV4 ip _ => IpV4 ip
  | SocketAddrV6 ip _ _ _ => IpV6 ip
  end.

Definition addr_port (a : SocketAddr) : Z :=
  match a with
  | SocketAddrV4 _ port => port
  | SocketAddrV6 _ port _ _ => port
  end.

Definition is_ipv4 (a : SocketAddr) : bool :=
  match a with SocketAddrV4 _ _ => true | SocketAddrV6 _ _ _ _ => false end.
Definition is_ipv6 (a : SocketAddr) : bool := negb (is_ipv4 a).

(** [SocketAddr::new(ip, port)]: flow info and scope id zero. *)
Definition SocketAddr_new (ip : IpAddr) (port : Z) : SocketAddr :=
  match ip with
  | IpV4 o => SocketAddrV4 o port
  | IpV6 o => SocketAddrV6 o port 0 0
  end.

Definition ip_octets (ip : IpAddr) : bytes :=
  match ip with IpV4 o => o | IpV6 o => o end.

(** [IpAddr::is_unspecified]: every octet is zero. *)
Definition is_unspecified (ip : IpAddr) : bool := forallb (Z.eqb 0) (ip_octets ip).

Definition ipv4_localhost : bytes := [127; 0; 0; 1].
Definition ipv6_localhost : bytes := replicate 15 0 ++ [1].

(** What the types of [std::net] guarantee of a value. *)
Definition ip_ok (ip : IpAddr) : Prop :=
  bytes_ok (ip_octets ip) /\
  length (ip_octets ip) = (match ip with IpV4 _ => 4 | IpV6 _ => 16 end)%nat.

Definition addr_ok (a : SocketAddr) : Prop := ip_ok (addr_ip a) /\ is_u16 (addr_port a).

#[export] Instance ip_ok_dec ip : Decision (ip_ok ip).
Proof. unfold ip_ok; destruct ip; apply _. Defined.
#[export] Instance is_u16_dec z : Decision (is_u16 z).
Proof. unfold is_u16; apply _. Defined.
#[export] Instance addr_ok_dec a : Decision (addr_ok a).
Proof. unfold addr_ok; apply _. Defined.

(** The fields of a packet's route key: flow info and scope id dropped. *)
Definition endpoint (a : SocketAddr) : IpAddr * Z := (addr_ip a, addr_port a).

Record PacketMeta := mkMeta {
  peer_addr : option SocketAddr;
  local_addr : option SocketAddr;
}.

#[export] Instance PacketMeta_eq_dec : EqDecision PacketMeta.
Proof. solve_decision. Defined.

(** [PacketMeta::default()]. *)
Definition PacketMeta_default : PacketMeta := mkMeta None None.

Definition meta_ok (m : PacketMeta) : Prop :=
  (forall a, peer_addr m = Some a -> addr_ok a) /\
  (forall a, local_addr m = Some a -> addr_ok a).
