(* ===== verification/Text.v ===== *)
(** * Byte strings as the examples use them

    Rust's [str] and [Vec<u8>] as lists of bytes: UTF-8 validation and lossy decoding
    with the ranges of the Unicode standard, and the functions of [str] that
    src/examples/hyper_static.rs calls ([split], [split_once], [lines],
    [split_whitespace], decimal formatting). *)

From Stdlib Require Import Ascii.
From S2P Require Import Prelude.

(** A literal. *)
Fixpoint str (s : string) : bytes :=
  match s with
  | EmptyString => []
  | String c s => Z.of_N (N_of_ascii c) :: str s
  end.

(** ** UTF-8 *)

Definition between (lo hi b : Z) : bool := (lo <=? b) && (b <=? hi).
Definition continuation (b : Z) : bool := between 0x80 0xBF b.

(** What the second byte must be, by the first, for sequences of three and four. *)
Definition second_of_3 (b0 b1 : Z) : bool :=
  if b0 =? 0xE0 then between 0xA0 0xBF b1
  else if b0 =? 0xED then between 0x80 0x9F b1
  else continuation b1.
Definition second_of_4 (b0 b1 : Z) : bool :=
  if b0 =? 0xF0 then between 0x90 0xBF b1
  else if b0 =? 0xF4 then between 0x80 0x8F b1
  else continuation b1.

(** The next character: how many bytes belong to it and whether it is complete.  An
    incomplete one takes the bytes up to the first that cannot continue it. *)
Definition next_char (l : bytes) : nat * bool :=
  match l with
  | [] => (0%nat, true)
  | b0 :: l =>
      if b0 <? 0x80 then (1%nat, true)
      else if between 0xC2 0xDF b0 then
        match l with
        | b1 :: _ => if continuation b1 then (2%nat, true) else (1%nat, false)
        | [] => (1%nat, false)
        end
      else if between 0xE0 0xEF b0 then
        match l with
        | b1 :: l =>
            if second_of_3 b0 b1 then
              match l with
              | b2 :: _ => if continuation b2 then (3%nat, true) else (2%nat, false)
              | [] => (2%nat, false)
              end
            else (1%nat, false)
        | [] => (1%nat, false)
        end
      else if between 0xF0 0xF4 b0 then
        match l with
        | b1 :: l =>
            if second_of_4 b0 b1 then
              match l with
              | b2 :: l =>
                  if continuation b2 then
                    match l with
                    | b3 :: _ => if continuation b3 then (4%nat, true) else (3%nat, false)
                    | [] => (3%nat, false)
                    end
                  else (2%nat, false)
              | [] => (2%nat, false)
              end
            else (1%nat, false)
        | [] => (1%nat, false)
        end
      else (1%nat, false)
  end.

(** [String::from_utf8] succeeds. *)
Fixpoint utf8_from (fuel : nat) (l : bytes) : bool :=
  match fuel, l with
  | _, [] => true
  | O, _ => false
  | S fuel, _ => let '(n, valid) := next_char l in valid && utf8_from fuel (drop n l)
  end.
Definition utf8_valid (l : bytes) : bool := utf8_from (length l) l.

(** U+FFFD *)
Definition replacement : bytes := [0xEF; 0xBF; 0xBD].

(** [String::from_utf8_lossy], as the list of its characters. *)
Fixpoint chars_from (fuel : nat) (l : bytes) : list bytes :=
  match fuel, l with
  | _, [] => []
  | O, _ => []
  | S fuel, _ =>
      let '(n, valid) := next_char l in
      (if valid then take n l else replacement) :: chars_from fuel (drop n l)
  end.
Definition chars_lossy (l : bytes) : list bytes := chars_from (length l) l.

(** [char::is_whitespace] (White_Space). *)
Definition is_whitespace (c : bytes) : bool :=
  match c with
  | [b] => between 0x09 0x0D b || (b =? 0x20)
  | [b0; b1] => (b0 =? 0xC2) && ((b1 =? 0x85) || (b1 =? 0xA0))
  | [b0; b1; b2] =>
      ((b0 =? 0xE1) && (b1 =? 0x9A) && (b2 =? 0x80)) ||
      ((b0 =? 0xE2) && (b1 =? 0x80) &&
         (between 0x80 0x8A b2 || (b2 =? 0xA8) || (b2 =? 0xA9) || (b2 =? 0xAF))) ||
      ((b0 =? 0xE2) && (b1 =? 0x81) && (b2 =? 0x9F)) ||
      ((b0 =? 0xE3) && (b1 =? 0x80) && (b2 =? 0x80))
  | _ => false
  end.

(** ** Splitting *)

(** [s.split(c)] for an ASCII character: always at least one piece. *)
Fixpoint split (c : Z) (l : bytes) : list bytes :=
  match l with
  | [] => [[]]
  | b :: l =>
      if b =? c then [] :: split c l
      else match split c l with
           | piece :: rest => (b :: piece) :: rest
           | [] => [[b]]
           end
  end.

(** [s.split_once(c).map_or(s, |(before, _)| before)] *)
Fixpoint before_once (c : Z) (l : bytes) : bytes :=
  match l with
  | [] => []
  | b :: l => if b =? c then [] else b :: before_once c l
  end.

(** [s.lines().next()], on characters: the text up to the first line feed, less a
    carriage return before it; nothing for the empty string. *)
Fixpoint line_from (acc : list bytes) (l : list bytes) : list bytes :=
  match l with
  | [] => rev acc
  | c :: l =>
      if bool_decide (c = [0x0A]) then
        match acc with
        | [0x0D] :: acc => rev acc
        | _ => rev acc
        end
      else line_from (c :: acc) l
  end.
Definition first_line (l : list bytes) : option (list bytes) :=
  match l with [] => None | _ => Some (line_from [] l) end.

(** [s.split_whitespace()]: the maximal runs of other characters. *)
Fixpoint words_from (current : bytes) (l : list bytes) : list bytes :=
  match l with
  | [] => match current with [] => [] | _ => [current] end
  | c :: l =>
      if is_whitespace c then
        match current with [] => words_from [] l | _ => current :: words_from [] l end
      else words_from (current ++ c) l
  end.
Definition split_whitespace (l : list bytes) : list bytes := words_from [] l.

(** [windows(n).any(|w| w == pat)] for a pattern of [n] bytes. *)
Fixpoint contains (pat l : bytes) : bool :=
  bool_decide (take (length pat) l = pat) || match l with [] => false | _ :: l => contains pat l end.

(** [format!("{n}")] *)
Definition decimal (n : Z) : bytes := str (pretty n).

(** ** Lemmas *)

Lemma split_nonempty c l : split c l <> [].
Proof. destruct l as [|b l]; simpl; [done|]. repeat case_match; done. Qed.

(** Splitting loses nothing: joining the pieces gives the string back, and no piece
    contains the separator. *)
Fixpoint join (c : Z) (ls : list bytes) : bytes :=
  match ls with
  | [] => []
  | [l] => l
  | l :: ls => l ++ c :: join c ls
  end.

Lemma split_join c l : join c (split c l) = l.
Proof.
  induction l as [|b l IH]; [done|]. simpl. pose proof (split_nonempty c l).
  destruct (Z.eqb_spec b c) as [->|].
  - destruct (split c l) eqn:E; [done|]. by rewrite <- IH.
  - destruct (split c l) as [|p [|q r]] eqn:E; [done|..]; by rewrite <- IH.
Qed.

Lemma split_no_sep c l : Forall (fun p => c ∉ p) (split c l).
Proof.
  induction l as [|b l IH]; simpl; [constructor; [set_solver|done]|].
  destruct (Z.eqb_spec b c); [constructor; [set_solver|done]|].
  destruct (split c l); [constructor; [set_solver|done]|].
  apply Forall_cons in IH as [Hp Hr]. constructor; [set_solver|done].
Qed.

Lemma contains_app pat l1 l2 : contains pat l2 = true -> contains pat (l1 ++ l2) = true.
Proof.
  intros H. induction l1 as [|b l1 IH]; [done|]. simpl. by rewrite IH, orb_true_r.
Qed.

Lemma contains_prefix pat l : take (length pat) l = pat -> contains pat l = true.
Proof. intros H. destruct l; cbn [contains]; by rewrite bool_decide_true. Qed.

Lemma contains_spec pat l : contains pat l = true <-> exists pre post, l = pre ++ pat ++ post.
Proof.
  split.
  - induction l as [|b l IH]; cbn [contains].
    + rewrite orb_false_r, bool_decide_eq_true, take_nil. intros <-. by exists [], [].
    + intros [H|H]%orb_true_iff.
      * apply bool_decide_eq_true in H. exists [], (drop (length pat) (b :: l)).
        rewrite <- H at 1. simpl. by rewrite take_drop.
      * destruct (IH H) as (pre & post & ->). by exists (b :: pre), post.
  - intros (pre & post & ->). apply contains_app, contains_prefix. by rewrite take_app_length.
Qed.

Lemma next_char_pos b l n v : next_char (b :: l) = (n, v) -> (1 <= n <= length (b :: l))%nat.
Proof. unfold next_char. intros H. repeat case_match; simplify_eq/=; lia. Qed.

Lemma before_once_spec c l : c ∉ before_once c l /\ before_once c l `prefix_of` l.
Proof.
  induction l as [|b l [IH1 IH2]]; simpl; [set_solver|].
  destruct (Z.eqb_spec b c); [split; [set_solver|apply prefix_nil]|].
  split; [set_solver|by apply prefix_cons].
Qed.

(** A string is its lossy decoding exactly when it is valid. *)
Lemma chars_from_valid fuel l :
  (length l <= fuel)%nat -> utf8_from fuel l = true -> concat (chars_from fuel l) = l.
Proof.
  revert l. induction fuel as [|fuel IH]; intros [|b l] Hf Hv; simpl in Hf; try done; try lia.
  cbn [utf8_from chars_from] in *. destruct (next_char (b :: l)) as [n v] eqn:En.
  apply andb_true_iff in Hv as [-> Hv]. cbn [concat].
  rewrite IH; [by rewrite take_drop| |done].
  apply next_char_pos in En. rewrite length_drop. simpl in *. lia.
Qed.

Lemma lossy_valid l : utf8_valid l = true -> concat (chars_lossy l) = l.
Proof. apply chars_from_valid. done. Qed.

(** ASCII is valid. *)
Lemma utf8_ascii l : Forall (fun b => b < 0x80) l -> utf8_valid l = true.
Proof.
  unfold utf8_valid. induction 1 as [|b l Hb _ IH]; [done|]. cbn [length utf8_from next_char].
  rewrite (proj2 (Z.ltb_lt b 128)) by done. exact IH.
Qed.

Example utf8_examples :
  utf8_valid (str "index.html") = true /\ utf8_valid [0xC3; 0xA9] = true /\
  utf8_valid [0xC0; 0xAF] = false /\ utf8_valid [0xED; 0xA0; 0x80] = false /\
  chars_lossy [0x41; 0xE2; 0x82; 0x42] = [[0x41]; replacement; [0x42]].
Proof. vm_compute. done. Qed.
