(* ===== verification/Effects.v ===== *)
(** * Effectful code

    Code that calls the operating system or another component is a function of the
    world it runs in: [prog W Ev A] takes the world, returns a value, the new world
    and the list of events it performed, in order.  The world answers every call, so
    a theorem about all worlds is a theorem about every behaviour of the callees.
    [wp] is the usual precondition rule for values and event lists. *)

From S2P Require Import Prelude.

Definition prog (W Ev A : Type) : Type := W -> A * W * list Ev.

Section Prog.
Context {W Ev : Type}.

#[export] Instance prog_ret : MRet (prog W Ev) := fun A a w => (a, w, []).
#[export] Instance prog_bind : MBind (prog W Ev) := fun A B k m w =>
  let '(a, w, l1) := m w in
  let '(b, w, l2) := k a w in
  (b, w, l1 ++ l2).

(** A call answered by the world: [f] is the callee, [ev] the event it leaves. *)
Definition call {A} (f : W -> A * W) (ev : A -> Ev) : prog W Ev A := fun w =>
  let '(a, w) := f w in (a, w, [ev a]).

(** A question to the world that is not logged (the clock, the environment). *)
Definition ask {A} (f : W -> A * W) : prog W Ev A := fun w =>
  let '(a, w) := f w in (a, w, []).

(** An event without an answer. *)
Definition emit (ev : Ev) : prog W Ev unit := fun w => ((), w, [ev]).

(** [let x = m?; k] when the function has effects. *)
Definition try_bind {E A B} (m : prog W Ev (result E A)) (k : A -> prog W Ev (result E B)) :
    prog W Ev (result E B) :=
  r ← m; match r with Ok a => k a | Err e => mret (Err e) end.

Definition value {A} (m : prog W Ev A) (w : W) : A := (m w).1.1.
Definition log {A} (m : prog W Ev A) (w : W) : list Ev := (m w).2.

Definition wp {A} (m : prog W Ev A) (Q : A -> list Ev -> Prop) : Prop :=
  forall w, Q (value m w) (log m w).

Lemma wp_use {A} (m : prog W Ev A) Q w : wp m Q -> Q (value m w) (log m w).
Proof. intros H. apply H. Qed.

Lemma wp_mono {A} (m : prog W Ev A) (Q R : A -> list Ev -> Prop) :
  wp m Q -> (forall a l, Q a l -> R a l) -> wp m R.
Proof. intros H HR w. apply HR, H. Qed.

Lemma wp_ret {A} (a : A) (Q : A -> list Ev -> Prop) : Q a [] -> wp (mret a) Q.
Proof. intros H w. exact H. Qed.

Lemma wp_emit ev (Q : unit -> list Ev -> Prop) : Q () [ev] -> wp (emit ev) Q.
Proof. intros H w. exact H. Qed.

Lemma wp_call {A} (f : W -> A * W) (ev : A -> Ev) Q :
  (forall a, Q a [ev a]) -> wp (call f ev) Q.
Proof. intros H w. unfold value, log, call. destruct (f w) as [a w']. apply H. Qed.

Lemma wp_ask {A} (f : W -> A * W) Q : (forall a, Q a []) -> wp (ask f) Q.
Proof. intros H w. unfold value, log, ask. destruct (f w) as [a w']. apply H. Qed.

(** The same when something is known of the answer. *)
Lemma wp_ask_known {A} (f : W -> A * W) Q : (forall w, Q (f w).1 []) -> wp (ask f) Q.
Proof. intros H w. specialize (H w). unfold value, log, ask. by destruct (f w). Qed.

Lemma wp_call_known {A} (f : W -> A * W) (ev : A -> Ev) Q :
  (forall w, Q (f w).1 [ev (f w).1]) -> wp (call f ev) Q.
Proof. intros H w. specialize (H w). unfold value, log, call. by destruct (f w). Qed.

Lemma wp_bind {A B} (m : prog W Ev A) (k : A -> prog W Ev B) Q :
  wp m (fun a l1 => wp (k a) (fun b l2 => Q b (l1 ++ l2))) -> wp (m ≫= k) Q.
Proof.
  intros H w. specialize (H w). unfold value, log, mbind, prog_bind in *.
  destruct (m w) as [[a w1] l1]. simpl in *. specialize (H w1). unfold value, log in H.
  destruct (k a w1) as [[b w2] l2]. exact H.
Qed.

Lemma wp_try {E A B} (m : prog W Ev (result E A)) (k : A -> prog W Ev (result E B)) Q :
  wp m (fun r l1 =>
    match r with
    | Ok a => wp (k a) (fun b l2 => Q b (l1 ++ l2))
    | Err e => Q (Err e) l1
    end) -> wp (try_bind m k) Q.
Proof.
  intros H. apply wp_bind. eapply wp_mono; [exact H|]. intros [a|e] l Hl; [done|].
  apply wp_ret. by rewrite app_nil_r.
Qed.

(** [(0..n).map(|_| m).collect::<Result<Vec<_>, _>>()]: stop at the first error,
    which drops what was collected. *)
Fixpoint collect {E A} (n : nat) (m : prog W Ev (result E A)) (drop_all : list A -> prog W Ev unit)
    (acc : list A) : prog W Ev (result E (list A)) :=
  match n with
  | O => mret (Ok acc)
  | S n =>
      r ← m;
      match r with
      | Ok a => collect n m drop_all (acc ++ [a])
      | Err e => _ ← drop_all acc; mret (Err e)
      end
  end.
End Prog.

Notation "x ←? m ; k" := (try_bind m (fun x => k))
  (at level 20, m at level 100, k at level 200) : stdpp_scope.

(** [r.map_err(f)] on an effectful result. *)
Definition prog_map_err {W Ev E F A} (f : E -> F) (m : prog W Ev (result E A)) :
    prog W Ev (result F A) := r ← m; mret (map_err f r).

Lemma wp_map_err {W Ev E F A} (f : E -> F) (m : prog W Ev (result E A)) Q :
  wp m (fun r l => Q (map_err f r) l) -> wp (prog_map_err f m) Q.
Proof.
  intros H. apply wp_bind. eapply wp_mono; [exact H|]. intros r l Hr.
  apply wp_ret. by rewrite app_nil_r.
Qed.

(** ** The world after a run *)

Definition final {W Ev A} (m : prog W Ev A) (w : W) : W := (m w).1.2.

Lemma final_bind {W Ev A B} (m : prog W Ev A) (k : A -> prog W Ev B) w :
  final (m ≫= k) w = final (k (value m w)) (final m w).
Proof.
  unfold final, value, mbind, prog_bind. destruct (m w) as [[a w1] l1]. simpl.
  by destruct (k a w1) as [[b w2] l2].
Qed.

Section Keeps.
Context {W Ev : Type} (R : W -> W -> Prop) `{!PreOrder R}.

(** Every run of [m] relates the worlds before and after it by [R]. *)
Definition keeps {A} (m : prog W Ev A) : Prop := forall w, R w (final m w).

Lemma keeps_ret {A} (a : A) : keeps (mret a).
Proof. intros w. reflexivity. Qed.

Lemma keeps_call {A} (f : W -> A * W) (ev : A -> Ev) :
  (forall w, R w (f w).2) -> keeps (call f ev).
Proof. intros H w. specialize (H w). unfold final, call. by destruct (f w). Qed.

Lemma keeps_ask {A} (f : W -> A * W) : (forall w, R w (f w).2) -> keeps (ask f).
Proof. intros H w. specialize (H w). unfold final, ask. by destruct (f w). Qed.

Lemma keeps_bind {A B} (m : prog W Ev A) (k : A -> prog W Ev B) :
  keeps m -> (forall a, keeps (k a)) -> keeps (m ≫= k).
Proof. intros Hm Hk w. rewrite final_bind. etransitivity; [apply Hm|apply Hk]. Qed.
End Keeps.

#[export] Hint Resolve keeps_ret keeps_bind keeps_call keeps_ask : keeps.
