(* ===== verification/Schedule.v ===== *)
(** * Worker selection: [src/src/core/schedule.rs]

    The portable substitute for the kernel's reuse-port hash: a 64-bit FNV-1a
    hash of the peer and local addresses, reduced modulo the number of workers.
    The theorems relate the code, which threads a [&mut u64] through three
    writers, to one fold over a canonical byte encoding of the metadata. *)

From S2P Require Import Prelude Errors Net.

Definition FNV_OFFSET : Z := 0xcbf29ce484222325.
Definition FNV_PRIME : Z := 0x100000001b3.

(** [*hash ^= u64::from(value); *hash = hash.wrapping_mul(FNV_PRIME);] *)
Definition write_u8 (hash value : Z) : Z := u64 (Z.lxor hash value * FNV_PRIME).

Fixpoint write_bytes (hash : Z) (bs : bytes) : Z :=
  match bs with
  | [] => hash
  | byte :: rest => write_bytes (write_u8 hash byte) rest
  end.

(** [u16::to_be_bytes]. *)
Definition to_be_bytes (value : Z) : bytes := [u8 (Z.shiftr value 8); u8 value].

Definition write_u16 (hash value : Z) : Z := write_bytes hash (to_be_bytes value).

Definition hash_socket_addr (hash : Z) (addr : option SocketAddr) : Z :=
  match addr with
  | None => write_u8 hash 0
  | Some addr =>
      let hash :=
        match addr_ip addr with
        | IpV4 ip => write_bytes (write_u8 hash 4) ip
        | IpV6 ip => write_bytes (write_u8 hash 6) ip
        end in
      write_u16 hash (addr_port addr)
  end.

Definition linux_reuseport_select (meta : PacketMeta) (workers : Z) : crate_result Z :=
  if bool_decide (workers = 0)
  then Err (InvalidConfig "worker count must be greater than zero"%string)
  else
    let hash := hash_socket_addr FNV_OFFSET (peer_addr meta) in
    let hash := hash_socket_addr hash (local_addr meta) in
    Ok (usize hash mod workers).

(** ** Range of the hash and of the selected worker *)

Lemma write_u8_range h b : is_u64 (write_u8 h b).
Proof. apply u64_range. Qed.

Lemma write_bytes_range h bs : is_u64 h -> is_u64 (write_bytes h bs).
Proof. revert h. induction bs; simpl; auto using write_u8_range. Qed.

Lemma hash_socket_addr_range h a : is_u64 (hash_socket_addr h a).
Proof.
  destruct a as [a|]; simpl; [|apply write_u8_range].
  destruct (addr_ip a); apply write_bytes_range, write_bytes_range, write_u8_range.
Qed.
Lemma FNV_OFFSET_range : is_u64 FNV_OFFSET.
Proof. unfold is_u64, FNV_OFFSET. lia. Qed.
#[export] Hint Resolve FNV_OFFSET_range write_u8_range write_bytes_range hash_socket_addr_range : words.

Lemma select_ok meta workers :
  0 < workers ->
  exists w, linux_reuseport_select meta workers = Ok w /\ 0 <= w < workers.
Proof.
  intros Hw. unfold linux_reuseport_select. rewrite bool_decide_false by lia.
  eexists; split; [done|]. by apply Z.mod_pos_bound.
Qed.

(** ** The hash as one fold over a canonical encoding *)

(** The published 64-bit FNV-1a: from the offset basis, for each octet, exclusive-or the
    octet into the state, then multiply by the prime 2^40 + 2^8 + 179 modulo 2^64. *)
Definition fnv1a_from (state : Z) (octets : bytes) : Z :=
  fold_left (fun state octet => (Z.lxor state octet * (2 ^ 40 + 2 ^ 8 + 179)) mod 2 ^ 64) octets state.
Definition fnv1a (octets : bytes) : Z := fnv1a_from 14695981039346656037 octets.

(** Test vectors of the FNV specification: the empty string, "a" and "foobar". *)
Example fnv1a_vectors :
  fnv1a [] = 0xcbf29ce484222325 /\ fnv1a [97] = 0xaf63dc4c8601ec8c /\
  fnv1a [102; 111; 111; 98; 97; 114] = 0x85944171f73967e8.
Proof. repeat split; vm_compute; reflexivity. Qed.

(** The code's writers compute it. *)
Lemma write_bytes_fnv1a h bs : write_bytes h bs = fnv1a_from h bs.
Proof. revert h. induction bs as [|b bs IH]; intros h; [done|]. apply IH. Qed.

(** An address as octets: a tag, the octets of the IP, the port in network order. *)
Definition encode_addr (a : option SocketAddr) : bytes :=
  match a with
  | None => [0]
  | Some a =>
      (match addr_ip a with IpV4 ip => 4 :: ip | IpV6 ip => 6 :: ip end) ++
      [(addr_port a / 256) mod 256; addr_port a mod 256]
  end.

Definition encode_meta (m : PacketMeta) : bytes :=
  encode_addr (peer_addr m) ++ encode_addr (local_addr m).

Lemma write_bytes_app h l1 l2 : write_bytes h (l1 ++ l2) = write_bytes (write_bytes h l1) l2.
Proof. revert h. induction l1; simpl; auto. Qed.

Lemma to_be_bytes_eq v : to_be_bytes v = [(v / 256) mod 256; v mod 256].
Proof. unfold to_be_bytes. by rewrite Z.shiftr_div_pow2. Qed.

Lemma hash_socket_addr_encode h a : hash_socket_addr h a = write_bytes h (encode_addr a).
Proof.
  destruct a as [a|]; [|done]. unfold hash_socket_addr, encode_addr, write_u16.
  rewrite <- to_be_bytes_eq, write_bytes_app. by destruct (addr_ip a).
Qed.

Lemma select_fnv1a meta workers :
  workers <> 0 ->
  linux_reuseport_select meta workers = Ok (fnv1a (encode_meta meta) mod workers).
Proof.
  intros Hw. unfold linux_reuseport_select. rewrite bool_decide_false by done.
  rewrite !hash_socket_addr_encode, <- write_bytes_app. do 2 f_equal.
  rewrite write_bytes_fnv1a. apply u64_id. change (is_u64 (fnv1a_from FNV_OFFSET (encode_meta meta))).
  rewrite <- write_bytes_fnv1a. auto with words.
Qed.

(** ** The encoding determines both endpoints *)

Lemma port_octets_inj a b : is_u16 a -> is_u16 b ->
  (a / 256) mod 256 = (b / 256) mod 256 -> a mod 256 = b mod 256 -> a = b.
Proof.
  intros Ha Hb H1 H2. rewrite <- (be16_split a), <- (be16_split b) by done.
  pose proof (to_be_bytes_eq a) as Ea. pose proof (to_be_bytes_eq b) as Eb.
  rewrite H1, H2, <- Eb in Ea. unfold to_be_bytes in Ea. by injection Ea as -> ->.
Qed.

Lemma encode_addr_prefix_inj a b (r s : bytes) :
  (forall x, a = Some x -> addr_ok x) -> (forall x, b = Some x -> addr_ok x) ->
  encode_addr a ++ r = encode_addr b ++ s ->
  (endpoint <$> a) = (endpoint <$> b) /\ r = s.
Proof.
  intros Ha Hb H.
  destruct a as [a|], b as [b|]; simpl in H.
  - destruct (Ha a eq_refl) as [[_ La] Pa], (Hb b eq_refl) as [[_ Lb] Pb].
    simpl. unfold endpoint.
    destruct (addr_ip a) as [oa|oa], (addr_ip b) as [ob|ob]; simpl in *; try discriminate;
      rewrite <- !(assoc_L (++)) in H; injection H as H;
      apply app_inj_1 in H as [-> H]; try congruence;
      injection H as H1 H2 ->;
      (assert (addr_port a = addr_port b) as -> by
        (by apply port_octets_inj)); done.
  - destruct (addr_ip a); discriminate.
  - destruct (addr_ip b); discriminate.
  - by injection H as ->.
Qed.

Lemma encode_meta_inj m1 m2 :
  meta_ok m1 -> meta_ok m2 -> encode_meta m1 = encode_meta m2 ->
  (endpoint <$> peer_addr m1) = (endpoint <$> peer_addr m2) /\
  (endpoint <$> local_addr m1) = (endpoint <$> local_addr m2).
Proof.
  intros [P1 L1] [P2 L2] H.
  apply encode_addr_prefix_inj in H as [Hp H]; [|done..].
  split; [done|].
  apply (encode_addr_prefix_inj _ _ [] []); [done..|]. by rewrite !app_nil_r.
Qed.

Lemma encode_addr_endpoint a b :
  (endpoint <$> a) = (endpoint <$> b) -> encode_addr a = encode_addr b.
Proof. destruct a, b; simpl; try discriminate; [|done]. intros [= Hi Hp]. by rewrite Hi, Hp. Qed.

(** ** Each byte permutes the hash state *)

(** The inverse of [FNV_PRIME] modulo 2^64. *)
Definition FNV_PRIME_INV : Z := 0xce965057aff6957b.

Definition unwrite_u8 (hash value : Z) : Z := Z.lxor (u64 (hash * FNV_PRIME_INV)) value.

Lemma lxor_u64 h b : is_u64 h -> is_u64 b -> is_u64 (Z.lxor h b).
Proof.
  unfold is_u64. intros Hh Hb. split; [by apply Z.lxor_nonneg; lia|].
  destruct (decide (Z.lxor h b = 0)) as [->|Hx]; [lia|].
  assert (0 <= Z.lxor h b) by (apply Z.lxor_nonneg; lia).
  apply Z.log2_lt_pow2; [lia|].
  eapply Z.le_lt_trans; [apply Z.log2_lxor; lia|].
  apply Z.max_lub_lt.
  all: match goal with |- Z.log2 ?x < 64 =>
    destruct (decide (x = 0)) as [->|]; [simpl; lia|apply Z.log2_lt_pow2; lia] end.
Qed.

Lemma unwrite_write h b : is_u64 h -> is_u8 b -> unwrite_u8 (write_u8 h b) b = h.
Proof.
  intros Hh Hb. unfold unwrite_u8, write_u8, u64.
  rewrite Z.mul_mod_idemp_l by lia. rewrite <- Z.mul_assoc.
  rewrite <- Z.mul_mod_idemp_r by lia.
  replace ((FNV_PRIME * FNV_PRIME_INV) mod 2 ^ 64) with 1 by (vm_compute; reflexivity).
  rewrite Z.mul_1_r, Z.mod_small.
  - by rewrite Z.lxor_assoc, Z.lxor_nilpotent, Z.lxor_0_r.
  - apply lxor_u64; [done|]. unfold is_u8, is_u64 in *. lia.
Qed.

Lemma write_u8_inj_state h1 h2 b :
  is_u64 h1 -> is_u64 h2 -> is_u8 b -> write_u8 h1 b = write_u8 h2 b -> h1 = h2.
Proof. intros ??? H. by rewrite <- (unwrite_write h1 b), <- (unwrite_write h2 b), H. Qed.

Lemma write_u8_inj_byte h b1 b2 :
  is_u64 h -> is_u8 b1 -> is_u8 b2 -> write_u8 h b1 = write_u8 h b2 -> b1 = b2.
Proof.
  intros Hh H1 H2 H.
  assert (Hx : unwrite_u8 (write_u8 h b1) b2 = h) by (rewrite H; by apply unwrite_write).
  assert (Hy : unwrite_u8 (write_u8 h b1) b1 = h) by (by apply unwrite_write).
  unfold unwrite_u8 in *. set (x := u64 _) in *.
  assert (E : Z.lxor x (Z.lxor x b2) = Z.lxor x (Z.lxor x b1)) by congruence.
  by rewrite <- !Z.lxor_assoc, Z.lxor_nilpotent, !Z.lxor_0_l in E.
Qed.

Lemma write_bytes_inj_state h1 h2 bs :
  is_u64 h1 -> is_u64 h2 -> bytes_ok bs ->
  write_bytes h1 bs = write_bytes h2 bs -> h1 = h2.
Proof.
  intros H1 H2 Hbs. revert h1 h2 H1 H2.
  induction Hbs as [|b bs Hb _ IH]; intros h1 h2 H1 H2 H; simpl in H; [done|].
  apply IH in H; eauto using write_u8_inj_state with words.
Qed.

(** Changing one byte of the encoding changes the hash. *)
Lemma fnv1a_one_byte l b1 b2 r :
  bytes_ok l -> bytes_ok r -> is_u8 b1 -> is_u8 b2 ->
  fnv1a (l ++ b1 :: r) = fnv1a (l ++ b2 :: r) -> b1 = b2.
Proof.
  unfold fnv1a. intros Hl Hr H1 H2 H. change 14695981039346656037 with FNV_OFFSET in H.
  rewrite <- !write_bytes_fnv1a, !write_bytes_app in H. simpl in H.
  apply write_bytes_inj_state in H; auto with words.
  apply write_u8_inj_byte in H; auto with words.
Qed.

Lemma encode_addr_bytes a : (forall x, a = Some x -> addr_ok x) -> bytes_ok (encode_addr a).
Proof.
  destruct a as [a|]; intros Ha; simpl; [|by repeat constructor].
  destruct (Ha a eq_refl) as [[Hb _] _]. unfold bytes_ok. apply Forall_app. split.
  - destruct (addr_ip a); constructor; (done || unfold is_u8; lia).
  - repeat constructor; by apply Z.mod_pos_bound.
Qed.

(** ** Claims *)

(** C35: The portable scheduler is FNV-1a.  For no workers it is an error; otherwise
    the selected worker is in range and is the published 64-bit FNV-1a hash of a
    canonical encoding of the two endpoints (a tag, the octets of the IP, the port in
    network order; a zero for a missing one), reduced modulo the number of workers.  The
    encoding is injective: it loses nothing but IPv6 flow info and scope, so the
    choice depends on the two endpoints only, and on all of them. *)
Theorem select_is_fnv1a meta workers :
  meta_ok meta -> is_usize workers ->
  (workers = 0 ->
     linux_reuseport_select meta workers =
       Err (InvalidConfig "worker count must be greater than zero"%string)) /\
  (workers <> 0 -> exists w,
     linux_reuseport_select meta workers = Ok w /\ 0 <= w < workers /\
     w = fnv1a (encode_meta meta) mod workers) /\
  (forall meta', meta_ok meta' ->
     encode_meta meta = encode_meta meta' <->
     (endpoint <$> peer_addr meta) = (endpoint <$> peer_addr meta') /\
     (endpoint <$> local_addr meta) = (endpoint <$> local_addr meta')).
Proof.
  intros Hm Hw. unfold is_usize, is_u64 in Hw. split_and!.
  - by intros ->.
  - intros Hn. eexists. split; [by apply select_fnv1a|]. split; [|done].
    apply Z.mod_pos_bound. lia.
  - intros m' Hm'. split; [by apply encode_meta_inj|]. intros [Hp Hl]. unfold encode_meta.
    by rewrite (encode_addr_endpoint _ _ Hp), (encode_addr_endpoint _ _ Hl).
Qed.

Lemma select_is_fnv1a_witness :
  let meta := mkMeta (Some (SocketAddrV4 [127; 0; 0; 1] 55000)) (Some (SocketAddrV4 [127; 0; 0; 1] 4433)) in
  linux_reuseport_select meta 4 = Ok 1 /\
  fnv1a [4; 127; 0; 0; 1; 214; 216; 4; 127; 0; 0; 1; 17; 81] mod 4 = 1.
Proof.
  intros m.
  destruct (select_is_fnv1a m 4) as (_ & Hs & _).
  - split; intros a [= <-]; by apply (bool_decide_unpack _).
  - unfold is_usize, is_u64. lia.
  - destruct Hs as (w & Hw & _ & E); [done|].
    assert (Ew : fnv1a (encode_meta m) mod 4 = 1) by (vm_compute; reflexivity).
    rewrite Ew in E. subst w. by split.
Defined.

(** The hash state is never collapsed.  Hashing an address permutes the 64-bit
    states, so two connections with the same local address collide in the full
    hash only if their peers' hashes already do; and two encodings that differ in
    exactly one byte (one octet, or one half of a port) never collide. *)
Theorem hash_discriminates :
  (forall h1 h2 a, is_u64 h1 -> is_u64 h2 -> (forall x, a = Some x -> addr_ok x) ->
     hash_socket_addr h1 a = hash_socket_addr h2 a -> h1 = h2) /\
  (forall m1 m2 l b1 b2 r, bytes_ok (l ++ b1 :: b2 :: r) -> b1 <> b2 ->
     encode_meta m1 = l ++ b1 :: r -> encode_meta m2 = l ++ b2 :: r ->
     hash_socket_addr (hash_socket_addr FNV_OFFSET (peer_addr m1)) (local_addr m1) <>
     hash_socket_addr (hash_socket_addr FNV_OFFSET (peer_addr m2)) (local_addr m2)).
Proof.
  split.
  - intros h1 h2 a H1 H2 Ha. rewrite !hash_socket_addr_encode.
    apply write_bytes_inj_state; [done..|]. by apply encode_addr_bytes.
  - intros m1 m2 l b1 b2 r Hok Hne E1 E2. rewrite !hash_socket_addr_encode, <- !write_bytes_app.
    fold (encode_meta m1) (encode_meta m2). rewrite E1, E2, !write_bytes_fnv1a. intros HE. apply Hne.
    apply Forall_app in Hok as [Hl [Hb1 [Hb2 Hr]%Forall_cons]%Forall_cons].
    by apply (fnv1a_one_byte l b1 b2 r).
Qed.
