(* ===== verification/Quic.v ===== *)
(** * QUIC packet routing: the parsing part of [src/src/core/quic.rs]

    A datagram is routed by the first two bytes of its destination connection id:
    [quic_worker_index] parses a long or short header and reduces the two-byte
    worker index modulo the number of workers; anything too short to carry one is
    dropped.  [Routes] says declaratively which datagrams are routed where. *)

From S2P Require Import Prelude.

(** [quic_worker_index_prefix] *)
Definition quic_worker_index_prefix (bs : bytes) : option Z :=
  first ← get bs 0;
  second ← get bs 1;
  Some (Z.lor (Z.shiftl first 8) second).

(** [quic_long_header_dcid] *)
Definition quic_long_header_dcid (packet : bytes) : option bytes :=
  dcid_len ← get packet 5;
  if bool_decide (dcid_len = 0) then None
  else
    let start := 6 in
    let end_ := start + dcid_len in
    if bool_decide (end_ > len packet) then None
    else Some (slice packet start end_).

(** [packet.get(1..)]: [None] only when the packet is empty. *)
Definition get_from {A} (l : list A) (i : Z) : option (list A) :=
  if bool_decide (i <= len l) then Some (drop (Z.to_nat i) l) else None.

(** [quic_worker_index] *)
Definition quic_worker_index (packet : bytes) (workers : Z) : option Z :=
  if bool_decide (workers = 0 \/ packet = []) then None
  else
    first ← get packet 0;
    if negb (Z.land first 0x80 =? 0) then
      dcid ← quic_long_header_dcid packet;
      worker_index ← quic_worker_index_prefix dcid;
      Some (worker_index mod workers)
    else
      rest ← get_from packet 1;
      worker_index ← quic_worker_index_prefix rest;
      Some (worker_index mod workers).

(** [quic_reuseport_bpf_accepts_packet] *)
Definition quic_reuseport_bpf_accepts_packet (packet : bytes) (workers : Z) : bool :=
  bool_decide (is_Some (quic_worker_index packet workers)).

(** ** Declarative specification *)

Definition long_header (first : Z) : bool := negb (Z.land first 0x80 =? 0).

(** [Routes p i]: the datagram [p] carries worker index [i]. *)
Inductive Routes (p : bytes) (i : Z) : Prop :=
| RoutesLong first n hi lo :
    get p 0 = Some first -> long_header first = true ->
    get p 5 = Some n -> 2 <= n -> 6 + n <= len p ->
    get p 6 = Some hi -> get p 7 = Some lo -> i = be16 hi lo ->
    Routes p i
| RoutesShort first hi lo :
    get p 0 = Some first -> long_header first = false ->
    get p 1 = Some hi -> get p 2 = Some lo -> i = be16 hi lo ->
    Routes p i.

Lemma index_prefix_Some bs i :
  quic_worker_index_prefix bs = Some i <->
  exists hi lo, get bs 0 = Some hi /\ get bs 1 = Some lo /\ i = be16 hi lo.
Proof.
  unfold quic_worker_index_prefix, be16.
  destruct (get bs 0), (get bs 1); simpl; naive_solver.
Qed.

Lemma long_header_dcid_Some p d :
  quic_long_header_dcid p = Some d <->
  exists n, get p 5 = Some n /\ n <> 0 /\ 6 + n <= len p /\ d = slice p 6 (6 + n).
Proof.
  unfold quic_long_header_dcid. destruct (get p 5) as [n|]; simpl; [|naive_solver].
  repeat case_bool_decide; naive_solver lia.
Qed.

Lemma get_from_1 (p : bytes) i : p <> [] -> 0 <= i ->
  exists q, get_from p 1 = Some q /\ get q i = get p (1 + i).
Proof.
  intros Hp Hi. unfold get_from.
  rewrite bool_decide_true by (destruct p; [done|unfold len; simpl; lia]).
  eexists; split; [done|]. unfold get. rewrite lookup_drop. f_equal. lia.
Qed.

Lemma get_0_nonempty (p : bytes) b : get p 0 = Some b -> p <> [].
Proof. by destruct p. Qed.

(** The parser decides [Routes]. *)
Lemma worker_index_Routes p w k :
  bytes_ok p -> w <> 0 ->
  quic_worker_index p w = Some k <-> exists i, Routes p i /\ k = i mod w.
Proof.
  intros Hok Hw. unfold quic_worker_index. case_bool_decide as E.
  { destruct E as [?| ->]; [done|]. split; [done|]. intros (i & [] & _); done. }
  destruct (get p 0) as [f|] eqn:Ef; simpl.
  2:{ split; [done|]. intros (i & [] & _); congruence. }
  fold (long_header f). destruct (long_header f) eqn:El; simpl.
  - rewrite bind_Some. split.
    + intros (d & (n & En & Hn & Hlen & ->)%long_header_dcid_Some &
             (i & (hi & lo & Hh & Hl & ->)%index_prefix_Some & [= <-])%bind_Some).
      pose proof (get_byte p 5 n Hok En) as Hnr. unfold is_u8 in Hnr.
      assert (2 <= n).
      { apply get_lt_Some in Hl; [|lia]. rewrite len_slice in Hl; lia. }
      rewrite get_slice in Hh, Hl by lia.
      eexists; split; [|done]. by eapply (RoutesLong p _ f n hi lo).
    + intros (i & [f' n hi lo Hf _ En Hn Hlen Hh Hl ->|] & ->); [|congruence].
      exists (slice p 6 (6 + n)). split.
      { apply long_header_dcid_Some. exists n. naive_solver lia. }
      apply bind_Some. exists (be16 hi lo). split; [|done].
      apply index_prefix_Some. exists hi, lo. rewrite !get_slice by lia. done.
  - destruct (get_from_1 p 0) as (q & Hq & Hq0); [naive_solver|lia|].
    destruct (get_from_1 p 1) as (q' & Hq' & Hq1); [naive_solver|lia|].
    assert (q' = q) as -> by congruence. rewrite Hq; simpl. rewrite bind_Some. split.
    + intros (i & (hi & lo & Hh & Hl & ->)%index_prefix_Some & [= <-]).
      eexists; split; [|done]. rewrite Hq0 in Hh. rewrite Hq1 in Hl.
      by eapply (RoutesShort p _ f hi lo).
    + intros (i & [|f' hi lo Hf _ Hh Hl ->] & ->); [congruence|].
      exists (be16 hi lo). split; [|done].
      apply index_prefix_Some. exists hi, lo. rewrite Hq0, Hq1. done.
Qed.

Lemma Routes_range p i : bytes_ok p -> Routes p i -> is_u16 i.
Proof. intros Hok []; subst; eauto using be16_range, get_byte. Qed.

Lemma Routes_functional p i j : Routes p i -> Routes p j -> i = j.
Proof. intros [] []; congruence. Qed.

Lemma worker_index_range p w k : 0 < w -> quic_worker_index p w = Some k -> 0 <= k < w.
Proof.
  intros Hw H. unfold quic_worker_index in H.
  repeat (case_bool_decide || case_match || simplify_option_eq); try done;
    by apply Z.mod_pos_bound.
Qed.

Lemma accepts_spec p w :
  quic_reuseport_bpf_accepts_packet p w = true <-> is_Some (quic_worker_index p w).
Proof. unfold quic_reuseport_bpf_accepts_packet. by rewrite bool_decide_eq_true. Qed.

(** ** Building datagrams that carry a given connection id *)

(** A short-header datagram: first byte without the form bit, then the id. *)
Definition short_packet (first : Z) (cid rest : bytes) : bytes := first :: cid ++ rest.

(** A long-header datagram: first byte, four version bytes, id length, id. *)
Definition long_packet (first : Z) (version cid rest : bytes) : bytes :=
  first :: version ++ len cid :: cid ++ rest.

Lemma short_packet_Routes first cid rest hi lo :
  long_header first = false -> get cid 0 = Some hi -> get cid 1 = Some lo ->
  Routes (short_packet first cid rest) (be16 hi lo).
Proof.
  intros Hf H0 H1. destruct cid as [|? [|? ?]]; try discriminate.
  by eapply (RoutesShort _ _ first hi lo).
Qed.

Lemma long_packet_Routes first version cid rest hi lo :
  long_header first = true -> length version = 4%nat ->
  get cid 0 = Some hi -> get cid 1 = Some lo ->
  Routes (long_packet first version cid rest) (be16 hi lo).
Proof.
  intros Hf Hv H0 H1. destruct cid as [|? [|? c]]; try discriminate.
  do 5 (destruct version as [|? version]; try discriminate).
  eapply (RoutesLong _ _ first _ hi lo); try done.
  - unfold len. simpl. lia.
  - unfold long_packet, len. simpl. rewrite length_app. lia.
Qed.

(** ** Claims *)

(** C32: QUIC routing.  The parser is total and decides [Routes]: a datagram is sent
    to worker [k] exactly when it carries a worker index [i] -- in the first two
    bytes of the destination connection id of a long header whose id is present in
    full, or of a short header -- and [k] is [i] modulo the number of workers, a
    valid worker.  No datagram carries two indices.  Without workers, or without
    an index, it is dropped, and the acceptance check of the kernel path agrees. *)
Theorem quic_worker_index_spec p w k :
  bytes_ok p -> is_usize w ->
  (quic_worker_index p w = Some k <-> w <> 0 /\ exists i, Routes p i /\ k = i mod w) /\
  (quic_worker_index p w = Some k -> 0 <= k < w) /\
  (forall i j, Routes p i -> Routes p j -> i = j /\ is_u16 i) /\
  (quic_reuseport_bpf_accepts_packet p w = true <-> w <> 0 /\ exists i, Routes p i).
Proof.
  intros Hok Hw. unfold is_usize, is_u64 in Hw. destruct (decide (w = 0)) as [->|Hn].
  - assert (quic_worker_index p 0 = None) as E by done. rewrite accepts_spec, E. split_and!.
    + split; [done|]. by intros [].
    + done.
    + intros i j Hi Hj. split; [by eapply Routes_functional|by eapply Routes_range].
    + split; [by intros []|]. by intros [].
  - rewrite accepts_spec. split_and!.
    + rewrite worker_index_Routes by done. naive_solver.
    + apply worker_index_range. lia.
    + intros i j Hi Hj. split; [by eapply Routes_functional|by eapply Routes_range].
    + split.
      * intros [k' Hk]. apply worker_index_Routes in Hk as (i & ? & _); eauto.
      * intros [_ [i Hi]]. exists (i mod w). apply worker_index_Routes; eauto.
Qed.

Lemma quic_worker_index_spec_witness :
  3 <> 0 /\ exists i, Routes [0x40; 1; 3; 9] i /\ 1 = i mod 3.
Proof.
  apply (quic_worker_index_spec [0x40; 1; 3; 9] 3 1); [|unfold is_usize, is_u64; lia|reflexivity].
  by apply (bool_decide_unpack _).
Defined.
