(* ===== verification/Cid.v ===== *)
(** * Connection-id generator: [src/src/core/cid.rs]

    [QuicCidGenerator] builds connection ids whose first two bytes carry the
    worker index that [Quic.quic_worker_index] reads back.  The random source is
    the third-party [getrandom] crate, an interface here. *)

From S2P Require Import Prelude Errors Quic.

(** [getrandom::fill]: overwrites a buffer in place or fails.  Documented
    behaviour used: the buffer keeps its length and holds bytes. *)
Class GetRandom := {
  fill : bytes -> bytes * result string unit;
  fill_length : forall b, length (fill b).1 = length b;
  fill_bytes : forall b, bytes_ok b -> bytes_ok (fill b).1;
}.

Module CidGenerator.

Record QuicCidGenerator := mkGen { worker_index : Z; cid_len : Z }.

#[global] Instance QuicCidGenerator_eq_dec : EqDecision QuicCidGenerator.
Proof. solve_decision. Defined.

Definition DEFAULT_CID_LEN : Z := 8.
Definition MIN_CID_LEN : Z := 8.
Definition MAX_CID_LEN : Z := 20.
Definition MAX_WORKER_INDEX : Z := 0xffff.

Definition validate_worker_index (worker_index : Z) : crate_result unit :=
  if bool_decide (worker_index <= MAX_WORKER_INDEX) then Ok ()
  else Err (InvalidConfig ("QUIC CID worker index must be between 0 and " +:+
                           pretty MAX_WORKER_INDEX)).

Definition validate_cid_len (cid_len : Z) : crate_result unit :=
  if bool_decide (MIN_CID_LEN <= cid_len <= MAX_CID_LEN) then Ok ()
  else Err (InvalidConfig ("QUIC CID length must be between " +:+ pretty MIN_CID_LEN +:+
                           " and " +:+ pretty MAX_CID_LEN +:+ " bytes")).

(** [buffer[0] = (worker_index >> 8) as u8; buffer[1] = worker_index as u8;]
    The buffer after the call and the result. *)
Definition encode_worker_index_prefix (worker_index : Z) (buffer : bytes) :
    bytes * crate_result unit :=
  match validate_worker_index worker_index with
  | Err e => (buffer, Err e)
  | Ok _ =>
      if bool_decide (len buffer < 2)
      then (buffer, Err (InvalidConfig
                           "QUIC CID buffer must contain a two-byte worker index prefix"))
      else (<[1%nat := u8 worker_index]> (<[0%nat := u8 (Z.shiftr worker_index 8)]> buffer),
            Ok ())
  end.

(** [QuicCidGenerator::new], [for_worker] and [with_cid_len]. *)
Definition new (worker_index : Z) : crate_result QuicCidGenerator :=
  _ ← validate_worker_index worker_index;
  Ok (mkGen worker_index DEFAULT_CID_LEN).

Definition for_worker (worker_index : Z) : crate_result QuicCidGenerator :=
  new worker_index.

Definition with_cid_len (self : QuicCidGenerator) (cid_len : Z) :
    crate_result QuicCidGenerator :=
  _ ← validate_cid_len cid_len;
  Ok (mkGen (worker_index self) cid_len).

Section Generate.
Context `{GetRandom}.

(** [generate_into]: the caller's buffer after the call and the result. *)
Definition generate_into (self : QuicCidGenerator) (buffer : bytes) :
    bytes * crate_result unit :=
  if bool_decide (len buffer <> cid_len self)
  then (buffer, Err (InvalidConfig
          ("QUIC CID buffer length must equal configured CID length " +:+
           pretty (cid_len self))))
  else
    match validate_cid_len (len buffer) with
    | Err e => (buffer, Err e)
    | Ok _ =>
        let '(buffer, filled) := fill buffer in
        match map_err (fun error =>
                Runtime ("QUIC CID random generation failed: " +:+ error)) filled with
        | Err e => (buffer, Err e)
        | Ok _ => encode_worker_index_prefix (worker_index self) buffer
        end
    end.

(** [generate] *)
Definition generate (self : QuicCidGenerator) : crate_result bytes :=
  let cid := vec_of 0 (cid_len self) in
  let '(cid, r) := generate_into self cid in
  _ ← r;
  Ok cid.
End Generate.

(** ** Well-formed generators *)

(** What the constructors establish; the fields are private. *)
Definition gen_ok (g : QuicCidGenerator) : Prop :=
  0 <= worker_index g <= MAX_WORKER_INDEX /\ MIN_CID_LEN <= cid_len g <= MAX_CID_LEN.

#[global] Instance gen_ok_dec g : Decision (gen_ok g).
Proof. unfold gen_ok; apply _. Defined.

Lemma validate_worker_index_Ok i :
  validate_worker_index i = Ok () <-> i <= MAX_WORKER_INDEX.
Proof. unfold validate_worker_index. case_bool_decide; naive_solver. Qed.

Lemma validate_cid_len_Ok n : validate_cid_len n = Ok () <-> MIN_CID_LEN <= n <= MAX_CID_LEN.
Proof. unfold validate_cid_len. case_bool_decide; naive_solver. Qed.

Lemma new_spec i : is_usize i ->
  match new i with
  | Ok g => gen_ok g /\ worker_index g = i /\ cid_len g = DEFAULT_CID_LEN /\ i <= MAX_WORKER_INDEX
  | Err _ => MAX_WORKER_INDEX < i
  end.
Proof.
  intros Hi. unfold new, validate_worker_index, gen_ok, is_usize, is_u64 in *.
  case_bool_decide; simpl; unfold DEFAULT_CID_LEN, MIN_CID_LEN, MAX_CID_LEN; lia.
Qed.

Lemma with_cid_len_spec g n : gen_ok g ->
  match with_cid_len g n with
  | Ok g' => gen_ok g' /\ worker_index g' = worker_index g /\ cid_len g' = n
  | Err _ => n < MIN_CID_LEN \/ MAX_CID_LEN < n
  end.
Proof.
  intros Hg. unfold with_cid_len, validate_cid_len, gen_ok in *.
  case_bool_decide; simpl; lia.
Qed.

(** ** What a generated id holds *)

Lemma encode_prefix_spec i b :
  0 <= i <= MAX_WORKER_INDEX -> 2 <= len b ->
  exists b', encode_worker_index_prefix i b = (b', Ok ()) /\ len b' = len b /\
    get b' 0 = Some (u8 (Z.shiftr i 8)) /\ get b' 1 = Some (u8 i) /\ drop 2 b' = drop 2 b.
Proof.
  intros Hi Hb. unfold encode_worker_index_prefix.
  rewrite (proj2 (validate_worker_index_Ok i)) by lia.
  rewrite bool_decide_false by lia.
  destruct b as [|? [|? b]]; unfold len in Hb; simpl in Hb; [lia..|].
  eexists; repeat split; done.
Qed.

Section GenerateSpec.
Context `{GetRandom}.

Lemma generate_into_length g b : length (generate_into g b).1 = length b.
Proof.
  unfold generate_into, encode_worker_index_prefix.
  pose proof (fill_length b) as Hl. destruct (fill b) as [b' r]; simpl in Hl.
  repeat (case_match || case_bool_decide); simpl; by rewrite ?length_insert.
Qed.

Lemma generate_into_Ok g b :
  gen_ok g -> len b = cid_len g -> (fill b).2 = Ok () ->
  exists b', generate_into g b = (b', Ok ()) /\ len b' = len b /\
    get b' 0 = Some (u8 (Z.shiftr (worker_index g) 8)) /\
    get b' 1 = Some (u8 (worker_index g)) /\ drop 2 b' = drop 2 (fill b).1.
Proof.
  intros [Hi Hc] Hb Hf. unfold generate_into. rewrite bool_decide_false by tauto.
  rewrite (proj2 (validate_cid_len_Ok (len b))) by lia.
  pose proof (fill_length b) as Hl. destruct (fill b) as [b1 r]; simpl in *. subst r. simpl.
  destruct (encode_prefix_spec (worker_index g) b1) as (b' & -> & Hlen & H0 & H1 & H2).
  - lia.
  - unfold len in *. rewrite Hl. unfold MIN_CID_LEN in Hc. lia.
  - exists b'. unfold len in *. rewrite Hl in Hlen. done.
Qed.

Lemma generate_cases g : gen_ok g ->
  match (fill (vec_of 0 (cid_len g))).2 with
  | Ok _ => exists cid, generate g = Ok cid /\ len cid = cid_len g /\
      get cid 0 = Some (u8 (Z.shiftr (worker_index g) 8)) /\
      get cid 1 = Some (u8 (worker_index g)) /\
      drop 2 cid = drop 2 (fill (vec_of 0 (cid_len g))).1
  | Err e => generate g = Err (Runtime ("QUIC CID random generation failed: " +:+ e))
  end.
Proof.
  intros Hg. pose proof Hg as [_ Hc].
  assert (Hlen : len (vec_of 0 (cid_len g)) = cid_len g).
  { unfold len, vec_of. rewrite length_replicate. unfold MIN_CID_LEN in Hc. lia. }
  destruct (fill (vec_of 0 (cid_len g))).2 as [[]|e] eqn:Ef.
  - destruct (generate_into_Ok g _ Hg Hlen Ef) as (b & Hb & Hl & H0 & H1 & H2).
    exists b. unfold generate. rewrite Hb. simpl. by rewrite Hl.
  - unfold generate, generate_into. rewrite bool_decide_false by tauto.
    rewrite (proj2 (validate_cid_len_Ok _)) by lia.
    destruct (fill _) as [b r]; simpl in *. by subst r.
Qed.

Lemma generate_prefix g cid : gen_ok g -> generate g = Ok cid ->
  exists hi lo, get cid 0 = Some hi /\ get cid 1 = Some lo /\ be16 hi lo = worker_index g.
Proof.
  intros Hg Hgen. pose proof (generate_cases g Hg) as Hc.
  destruct (fill (vec_of 0 (cid_len g))).2; [|congruence].
  destruct Hc as (c & Hc & _ & H0 & H1 & _). assert (c = cid) as -> by congruence.
  do 2 eexists. split; [done|]. split; [done|]. apply be16_split.
  destruct Hg as [Hi _]. unfold is_u16, MAX_WORKER_INDEX in *. lia.
Qed.

Lemma generate_bytes_ok g cid : gen_ok g -> generate g = Ok cid -> bytes_ok cid.
Proof.
  intros Hg. unfold generate, generate_into.
  assert (bytes_ok (fill (vec_of 0 (cid_len g))).1) as Hf.
  { apply fill_bytes. unfold vec_of. apply Forall_replicate. unfold is_u8. lia. }
  destruct (fill _) as [b r]. simpl in *.
  repeat case_bool_decide; simpl; try discriminate.
  destruct (validate_cid_len _); [|discriminate]. destruct r; simpl; [|discriminate].
  unfold encode_worker_index_prefix. destruct (validate_worker_index _); [|discriminate].
  case_bool_decide; simpl; [discriminate|]. intros [= <-].
  apply Forall_insert; [apply Forall_insert; [done|]|]; apply u8_range.
Qed.

Lemma bytes_ok_packet first (cid rest : bytes) :
  is_u8 first -> bytes_ok cid -> bytes_ok rest -> bytes_ok (short_packet first cid rest).
Proof. intros. constructor; [done|]. by apply Forall_app. Qed.

Lemma bytes_ok_long first version (cid rest : bytes) :
  is_u8 first -> bytes_ok version -> len cid < 256 -> bytes_ok cid -> bytes_ok rest ->
  bytes_ok (long_packet first version cid rest).
Proof.
  intros ? ? Hl ? ?. constructor; [done|]. apply Forall_app. split; [done|].
  constructor; [unfold is_u8; pose proof (len_nonneg cid); lia|]. by apply Forall_app.
Qed.

Lemma generate_len g cid : gen_ok g -> generate g = Ok cid -> len cid = cid_len g.
Proof.
  intros Hg Hgen. pose proof (generate_cases g Hg) as Hc.
  destruct (fill (vec_of 0 (cid_len g))).2; [|congruence].
  destruct Hc as (c & Hc & Hl & _). congruence.
Qed.

(** Connection ids come home (round trip).  Any id a well-formed generator
    produces, put in a short-header datagram or in a complete long-header datagram
    with any first byte of that form, version and payload, is routed by
    [quic_worker_index] to the generator's own worker, for every number of workers
    that includes it. *)
Theorem cid_routes_to_its_worker g cid w first version rest :
  gen_ok g -> generate g = Ok cid -> worker_index g < w ->
  is_u8 first -> bytes_ok version -> length version = 4%nat -> bytes_ok rest ->
  quic_worker_index (if long_header first then long_packet first version cid rest
                     else short_packet first cid rest) w = Some (worker_index g).
Proof.
  intros Hg Hgen Hw Hf Hv Hv4 Hr.
  destruct (generate_prefix g cid Hg Hgen) as (hi & lo & H0 & H1 & HE).
  pose proof (generate_bytes_ok g cid Hg Hgen) as Hc. pose proof (generate_len g cid Hg Hgen) as Hl.
  destruct Hg as [Hi Hcl]. unfold MIN_CID_LEN, MAX_CID_LEN in Hcl.
  assert (worker_index g = worker_index g mod w) as E by (by rewrite Z.mod_small by lia).
  destruct (long_header first) eqn:Ef; (apply worker_index_Routes; [| lia |]).
  - by apply bytes_ok_long; auto with lia.
  - exists (worker_index g). split; [|done]. rewrite <- HE. by apply long_packet_Routes.
  - by apply bytes_ok_packet.
  - exists (worker_index g). split; [|done]. rewrite <- HE. by apply short_packet_Routes.
Qed.

(** The generator's contract, on every branch.  [new] accepts exactly the indices
    up to 65535 and [with_cid_len] exactly the lengths from 8 to 20, and what they
    build is well formed.  [generate] on a well-formed generator fails only if the
    random source does, with its message; else the id has the configured length,
    its first two bytes are the index and the rest are the random bytes.
    [generate_into] never changes the length of the caller's buffer, and refuses
    a buffer of any other length untouched. *)
Theorem cid_generator_spec :
  (forall i, is_usize i ->
     match new i with
     | Ok g => gen_ok g /\ worker_index g = i /\ cid_len g = 8 /\ i <= 65535
     | Err _ => 65535 < i
     end) /\
  (forall g n, gen_ok g ->
     match with_cid_len g n with
     | Ok g' => gen_ok g' /\ worker_index g' = worker_index g /\ cid_len g' = n
     | Err _ => n < 8 \/ 20 < n
     end) /\
  (forall g, gen_ok g ->
     match (fill (vec_of 0 (cid_len g))).2 with
     | Ok _ => exists cid, generate g = Ok cid /\ len cid = cid_len g /\
         be16 (default 0 (get cid 0)) (default 0 (get cid 1)) = worker_index g /\
         drop 2 cid = drop 2 (fill (vec_of 0 (cid_len g))).1
     | Err e => generate g = Err (Runtime ("QUIC CID random generation failed: " +:+ e))
     end) /\
  (forall g b, length (generate_into g b).1 = length b /\
     (len b <> cid_len g -> (generate_into g b).1 = b /\ is_ok (generate_into g b).2 = false)).
Proof.
  split_and!.
  - apply new_spec.
  - apply with_cid_len_spec.
  - intros g Hg. pose proof (generate_cases g Hg) as Hc.
    destruct (fill (vec_of 0 (cid_len g))).2; [|done].
    destruct Hc as (cid & Hgen & Hl & H0 & H1 & Hd). exists cid.
    destruct (generate_prefix g cid Hg Hgen) as (hi & lo & E0 & E1 & HE).
    split_and!; try done. by rewrite E0, E1.
  - intros g b. split; [apply generate_into_length|]. intros Hb.
    unfold generate_into. by rewrite bool_decide_true.
Qed.
End GenerateSpec.

(** A random source that fills with sevens. *)
#[local] Instance sevens : GetRandom.
Proof.
  refine {| fill b := ((fun _ => 7) <$> b, Ok ()) |}.
  - intros b. apply length_fmap.
  - intros b _. apply Forall_fmap, Forall_true. intros x. unfold compose, is_u8. lia.
Defined.

Lemma cid_routes_to_its_worker_witness :
  quic_worker_index (long_packet 0xc0 [0; 0; 0; 1] [1; 2; 7; 7; 7; 7; 7; 7] [9]) 300 = Some 258.
Proof.
  apply (cid_routes_to_its_worker (mkGen 258 8) [1; 2; 7; 7; 7; 7; 7; 7] 300 0xc0 [0; 0; 0; 1] [9]);
    try (vm_compute; reflexivity); try (by apply (bool_decide_unpack _)).
Defined.

Lemma cid_generator_spec_witness :
  exists cid, generate (mkGen 258 9) = Ok cid /\ len cid = 9 /\
    be16 (default 0 (get cid 0)) (default 0 (get cid 1)) = 258.
Proof.
  destruct cid_generator_spec as (_ & _ & Hg & _).
  destruct (Hg (mkGen 258 9)) as (cid & ? & ? & ? & _); [by apply (bool_decide_unpack _)|eauto].
Defined.

End CidGenerator.
