(* ===== verification/Bpf.v ===== *)
(** * Reuse-port selectors: the BPF programs of [src/src/platform/linux.rs]

    The crate embeds two hand-assembled programs that the kernel runs to choose
    the worker socket of a QUIC datagram: an eBPF program and a classic BPF
    filter.  This file holds the programs as the source builds them (opcode
    bytes, packed register nibbles and jump offsets) and the part of the two
    instruction sets they use (RFC 9669 for eBPF, the BPF filter machine for the
    classic one).  Both programs are memory safe and terminate.  The classic filter,
    whose data is the datagram and whose result is the index of the socket, selects
    the same worker as the userspace parser [Quic.quic_worker_index].

    The eBPF program is written in the same way, but loaded as a program of type
    BPF_PROG_TYPE_SK_REUSEPORT.  Of that type <linux/bpf.h> documents that [data] begins
    at the UDP header and that the result is SK_DROP or SK_PASS, the socket being
    selected by the helper bpf_sk_select_reuseport, which the program does not call.
    What it computes there is stated as it is: a number read off the UDP header. *)

From S2P Require Import Prelude Quic.

(** ** eBPF *)
Module Ebpf.

Record BpfInsn := mkInsn { code : Z; dst_src : Z; off : Z; imm : Z }.

#[global] Instance BpfInsn_eq_dec : EqDecision BpfInsn.
Proof. solve_decision. Defined.

(** [bpf_insn(code, dst, src, off, imm)]: [dst_src] is [dst | (src << 4)]. *)
Definition bpf_insn (code dst src off imm : Z) : BpfInsn :=
  mkInsn code (Z.lor dst (u8 (Z.shiftl src 4))) off imm.

Definition BPF_LDX := 0x01.
Definition BPF_ALU64 := 0x07.
Definition BPF_JMP := 0x05.
Definition BPF_DW := 0x18.
Definition BPF_B := 0x10.
Definition BPF_MEM := 0x60.
Definition BPF_K := 0x00.
Definition BPF_X := 0x08.
Definition BPF_ADD := 0x00.
Definition BPF_OR := 0x40.
Definition BPF_AND := 0x50.
Definition BPF_LSH := 0x60.
Definition BPF_MOD := 0x90.
Definition BPF_MOV := 0xb0.
Definition BPF_JEQ := 0x10.
Definition BPF_JGT := 0x20.
Definition BPF_JLT := 0xa0.
Definition BPF_EXIT := 0x90.

#[local] Infix "|||" := Z.lor (at level 50, left associativity).

Definition quic_reuseport_ebpf (workers : Z) : list BpfInsn := [
  bpf_insn (BPF_ALU64 ||| BPF_MOV ||| BPF_X) 6 1 0 0;
  bpf_insn (BPF_LDX ||| BPF_DW ||| BPF_MEM) 2 6 0 0;
  bpf_insn (BPF_LDX ||| BPF_DW ||| BPF_MEM) 3 6 8 0;
  bpf_insn (BPF_ALU64 ||| BPF_MOV ||| BPF_X) 4 2 0 0;
  bpf_insn (BPF_ALU64 ||| BPF_ADD ||| BPF_K) 4 0 0 1;
  bpf_insn (BPF_JMP ||| BPF_JGT ||| BPF_X) 4 3 26 0;
  bpf_insn (BPF_LDX ||| BPF_B ||| BPF_MEM) 0 2 0 0;
  bpf_insn (BPF_ALU64 ||| BPF_AND ||| BPF_K) 0 0 0 0x80;
  bpf_insn (BPF_JMP ||| BPF_JEQ ||| BPF_K) 0 0 14 0;
  bpf_insn (BPF_ALU64 ||| BPF_MOV ||| BPF_X) 4 2 0 0;
  bpf_insn (BPF_ALU64 ||| BPF_ADD ||| BPF_K) 4 0 0 6;
  bpf_insn (BPF_JMP ||| BPF_JGT ||| BPF_X) 4 3 20 0;
  bpf_insn (BPF_LDX ||| BPF_B ||| BPF_MEM) 4 2 5 0;
  bpf_insn (BPF_JMP ||| BPF_JLT ||| BPF_K) 4 0 18 2;
  bpf_insn (BPF_ALU64 ||| BPF_MOV ||| BPF_X) 5 2 0 0;
  bpf_insn (BPF_ALU64 ||| BPF_ADD ||| BPF_K) 5 0 0 8;
  bpf_insn (BPF_JMP ||| BPF_JGT ||| BPF_X) 5 3 15 0;
  bpf_insn (BPF_LDX ||| BPF_B ||| BPF_MEM) 0 2 6 0;
  bpf_insn (BPF_ALU64 ||| BPF_LSH ||| BPF_K) 0 0 0 8;
  bpf_insn (BPF_LDX ||| BPF_B ||| BPF_MEM) 4 2 7 0;
  bpf_insn (BPF_ALU64 ||| BPF_OR ||| BPF_X) 0 4 0 0;
  bpf_insn (BPF_ALU64 ||| BPF_MOD ||| BPF_K) 0 0 0 (i32 workers);
  bpf_insn (BPF_JMP ||| BPF_EXIT) 0 0 0 0;
  bpf_insn (BPF_ALU64 ||| BPF_MOV ||| BPF_X) 4 2 0 0;
  bpf_insn (BPF_ALU64 ||| BPF_ADD ||| BPF_K) 4 0 0 3;
  bpf_insn (BPF_JMP ||| BPF_JGT ||| BPF_X) 4 3 6 0;
  bpf_insn (BPF_LDX ||| BPF_B ||| BPF_MEM) 0 2 1 0;
  bpf_insn (BPF_ALU64 ||| BPF_LSH ||| BPF_K) 0 0 0 8;
  bpf_insn (BPF_LDX ||| BPF_B ||| BPF_MEM) 4 2 2 0;
  bpf_insn (BPF_ALU64 ||| BPF_OR ||| BPF_X) 0 4 0 0;
  bpf_insn (BPF_ALU64 ||| BPF_MOD ||| BPF_K) 0 0 0 (i32 workers);
  bpf_insn (BPF_JMP ||| BPF_EXIT) 0 0 0 0;
  bpf_insn (BPF_ALU64 ||| BPF_MOV ||| BPF_K) 0 0 0 0;
  bpf_insn (BPF_JMP ||| BPF_EXIT) 0 0 0 0
].

(** *** The instruction set (RFC 9669), for the opcodes the program uses *)

Inductive operand := K | X.
Inductive alu_op := ADD | OR | AND | LSH | MOD | MOV.
Inductive jmp_op := JEQ | JGT | JLT.
Inductive width := B | DW.

Inductive insn :=
| Alu64 (op : alu_op) (src_kind : operand) (dst src : nat) (imm : Z)
| Ldx (w : width) (dst src : nat) (off : Z)
| Jmp (op : jmp_op) (src_kind : operand) (dst src : nat) (off imm : Z)
| Exit.

(** Decoding of the opcode byte: class in the low three bits; for arithmetic and
    jumps the source bit 0x08 and the operation in the high nibble; for loads the
    size in bits 0x18 and the mode in bits 0xe0. *)
Definition decode_src (code : Z) : operand :=
  if Z.land code 0x08 =? 0 then K else X.

Definition decode_alu (code : Z) : option alu_op :=
  match Z.land code 0xf0 with
  | 0x00 => Some ADD | 0x40 => Some OR | 0x50 => Some AND
  | 0x60 => Some LSH | 0x90 => Some MOD | 0xb0 => Some MOV
  | _ => None
  end.

Definition decode_jmp (code : Z) : option jmp_op :=
  match Z.land code 0xf0 with
  | 0x10 => Some JEQ | 0x20 => Some JGT | 0xa0 => Some JLT
  | _ => None
  end.

Definition decode_width (code : Z) : option width :=
  match Z.land code 0x18 with
  | 0x10 => Some B | 0x18 => Some DW
  | _ => None
  end.

Definition decode (i : BpfInsn) : option insn :=
  let dst := Z.to_nat (Z.land (dst_src i) 0xf) in
  let src := Z.to_nat (Z.shiftr (dst_src i) 4) in
  match Z.land (code i) 0x07 with
  | 0x07 => op ← decode_alu (code i);
            Some (Alu64 op (decode_src (code i)) dst src (imm i))
  | 0x01 => if Z.land (code i) 0xe0 =? 0x60
            then w ← decode_width (code i); Some (Ldx w dst src (off i))
            else None
  | 0x05 => if Z.land (code i) 0xf0 =? 0x90 then Some Exit
            else op ← decode_jmp (code i);
                 Some (Jmp op (decode_src (code i)) dst src (off i) (imm i))
  | _ => None
  end.

(** Memory the program may touch: the context [sk_reuseport_md] at [ctx], whose
    first two words are the start and end of the directly accessible bytes, and these
    bytes, here [packet]. *)
Record env := mkEnv { ctx : Z; data : Z; packet : bytes }.

Definition data_end (e : env) : Z := data e + len (packet e).

Definition load (e : env) (w : width) (a : Z) : option Z :=
  match w with
  | DW => if a =? ctx e then Some (data e)
          else if a =? ctx e + 8 then Some (data_end e) else None
  | B => if (data e <=? a) && (a <? data_end e) then get (packet e) (a - data e) else None
  end.

Definition alu (op : alu_op) (x y : Z) : Z :=
  match op with
  | ADD => u64 (x + y)
  | OR => Z.lor x y
  | AND => Z.land x y
  | LSH => u64 (Z.shiftl x (Z.land y 0x3f))
  | MOD => if y =? 0 then x else x mod y
  | MOV => y
  end.

Definition jump_taken (op : jmp_op) (x y : Z) : bool :=
  match op with
  | JEQ => x =? y
  | JGT => y <? x
  | JLT => x <? y
  end.

Record state := mkState { pc : Z; regs : list Z }.

Inductive outcome :=
| Running (s : state)
| Exited (r0 : Z)
| Fault.

Definition operand_value (r : list Z) (k : operand) (src : nat) (imm : Z) : option Z :=
  match k with
  | K => Some (u64 imm)
  | X => r !! src
  end.

Definition exec (e : env) (i : insn) (s : state) : outcome :=
  match i with
  | Exit => match regs s !! 0%nat with Some v => Exited v | None => Fault end
  | Alu64 op k dst src imm =>
      match regs s !! dst, operand_value (regs s) k src imm with
      | Some x, Some y => Running (mkState (pc s + 1) (<[dst := alu op x y]> (regs s)))
      | _, _ => Fault
      end
  | Ldx w dst src off =>
      match regs s !! src ≫= (fun a => load e w (u64 (a + off))) with
      | Some v => Running (mkState (pc s + 1) (<[dst := v]> (regs s)))
      | None => Fault
      end
  | Jmp op k dst src off imm =>
      match regs s !! dst, operand_value (regs s) k src imm with
      | Some x, Some y =>
          Running (mkState (if jump_taken op x y then pc s + 1 + off else pc s + 1) (regs s))
      | _, _ => Fault
      end
  end.

Definition step (e : env) (prog : list BpfInsn) (s : state) : outcome :=
  match get prog (pc s) ≫= decode with
  | Some i => exec e i s
  | None => Fault
  end.

Fixpoint run (fuel : nat) (e : env) (prog : list BpfInsn) (s : state) : outcome :=
  match fuel with
  | O => Running s
  | S fuel =>
      match step e prog s with
      | Running s' => run fuel e prog s'
      | o => o
      end
  end.

(** The kernel starts a program with the context in r1; r1 to r10 otherwise
    hold what the caller left there, r0 too. *)
Definition init (e : env) (junk : list Z) : state :=
  mkState 0 (<[1%nat := ctx e]> junk).

Definition env_ok (e : env) : Prop :=
  0 < ctx e /\ ctx e + 16 < 2 ^ 64 /\ 0 < data e /\ data_end e + 8 < 2 ^ 64 /\
  bytes_ok (packet e).

(** What the program computes, read off its control flow. *)
Definition ebpf_select (p : bytes) (workers : Z) : Z :=
  match get p 0 with
  | None => 0
  | Some first =>
      if long_header first then
        match get p 5, get p 6, get p 7 with
        | Some n, Some hi, Some lo => if 2 <=? n then be16 hi lo mod workers else 0
        | _, _, _ => 0
        end
      else
        match get p 1, get p 2 with
        | Some hi, Some lo => be16 hi lo mod workers
        | _, _ => 0
        end
  end.

(** *** Running the program symbolically *)

Lemma run_step fuel e prog s i s' :
  get prog (pc s) ≫= decode = Some i -> exec e i s = Running s' ->
  run (S fuel) e prog s = run fuel e prog s'.
Proof. intros Hi Hs. simpl. unfold step. by rewrite Hi, Hs. Qed.

Lemma run_exit fuel e prog s i v :
  get prog (pc s) ≫= decode = Some i -> exec e i s = Exited v ->
  run (S fuel) e prog s = Exited v.
Proof. intros Hi Hs. simpl. unfold step. by rewrite Hi, Hs. Qed.

Section Symbolic.
Context (e : env) (He : env_ok e).

Lemma load_data : load e DW (u64 (ctx e + 0)) = Some (data e).
Proof.
  destruct He as (?&?&_). rewrite u64_id by (unfold is_u64; lia).
  unfold load. by rewrite Z.add_0_r, Z.eqb_refl.
Qed.

Lemma load_data_end : load e DW (u64 (ctx e + 8)) = Some (data_end e).
Proof.
  destruct He as (?&?&_). rewrite u64_id by (unfold is_u64; lia).
  unfold load. rewrite Z.eqb_refl. destruct (Z.eqb_spec (ctx e + 8) (ctx e)); [lia|done].
Qed.

Lemma load_byte k b : 0 <= k -> get (packet e) k = Some b -> load e B (u64 (data e + k)) = Some b.
Proof.
  intros Hk Hb. pose proof (get_lt_Some _ _ _ Hb Hk) as Hlt.
  destruct He as (_&_&?&?&_). unfold data_end in *.
  rewrite u64_id by (unfold is_u64; lia). unfold load, data_end.
  replace ((data e <=? data e + k) && (data e + k <? data e + len (packet e))) with true by lia.
  by replace (data e + k - data e) with k by lia.
Qed.

(** [if data + k > data_end goto ..] is the length check [len < k]. *)
Lemma jgt_bound k : 0 <= k <= 8 ->
  jump_taken JGT (u64 (data e + u64 k)) (data_end e) = bool_decide (len (packet e) < k).
Proof.
  intros Hk. destruct He as (_&_&?&?&_). unfold data_end in *.
  pose proof (len_nonneg (packet e)).
  rewrite (u64_id k) by (unfold is_u64; lia). rewrite u64_id by (unfold is_u64; lia).
  simpl. case_bool_decide; lia.
Qed.
End Symbolic.

Lemma land_0x80_u64 b : Z.land b (u64 0x80) = Z.land b 0x80.
Proof. reflexivity. Qed.

(** [hi << 8 | lo] on 64-bit registers. *)
Lemma shift_or hi lo : is_u8 hi -> is_u8 lo ->
  alu OR (alu LSH hi (u64 8)) lo = be16 hi lo.
Proof.
  intros Hh Hl. simpl. change (Z.land (u64 8) 63) with 8. unfold be16.
  rewrite u64_id; [done|]. rewrite Z.shiftl_mul_pow2 by lia. unfold is_u8, is_u64 in *. lia.
Qed.

Lemma mod_workers x w : 0 < w < 2 ^ 31 -> alu MOD x (u64 (i32 w)) = x mod w.
Proof.
  intros Hw. rewrite i32_id by lia. rewrite u64_id by (unfold is_u64; lia). simpl.
  destruct (Z.eqb_spec w 0); [lia|done].
Qed.

(** One instruction: fetch and decode by computation, then execute. *)
Ltac fetch := cbv -[i32]; reflexivity.
Ltac ebpf_eval := cbn -[alu jump_taken load u64 Z.add].
Ltac ebpf_step := erewrite run_step; [|fetch|ebpf_eval; cbn [alu]; reflexivity].
Ltac ebpf_load lem :=
  erewrite run_step; [|fetch|ebpf_eval; rewrite lem by (done || lia); reflexivity].
Ltac ebpf_keep := erewrite run_step; [|fetch|ebpf_eval; reflexivity].
Ltac ebpf_jump lem :=
  erewrite run_step; [|fetch|ebpf_eval; rewrite lem; reflexivity].
Ltac ebpf_exit := erewrite run_exit; [|fetch|ebpf_eval; reflexivity].

Section Blocks.
Context (e : env) (He : env_ok e) (w : Z) (Hw : 0 < w < 2 ^ 31).
#[local] Abbreviation prog := (quic_reuseport_ebpf w).

(** The common exit for a datagram that carries no index: return 0. *)
Lemma block_reject fuel r0 rs : run (S (S fuel)) e prog (mkState 32 (r0 :: rs)) = Exited 0.
Proof. ebpf_step. ebpf_exit. done. Qed.

(** From the two-byte load at offsets 6 and 7 to the exit. *)
Lemma block_long fuel r0 r1 r3 r4 rs hi lo :
  get (packet e) 6 = Some hi -> get (packet e) 7 = Some lo ->
  run (6 + fuel) e prog (mkState 17 (r0 :: r1 :: data e :: r3 :: r4 :: rs)) =
  Exited (be16 hi lo mod w).
Proof.
  intros H6 H7. destruct He as (_&_&_&_&Hb). simpl Nat.add.
  ebpf_load (load_byte e He 6 hi). ebpf_keep.
  ebpf_load (load_byte e He 7 lo). ebpf_keep. ebpf_keep. ebpf_exit.
  rewrite shift_or by eauto using get_byte. by rewrite mod_workers.
Qed.

Lemma block_short fuel r0 r1 r3 r4 rs hi lo :
  get (packet e) 1 = Some hi -> get (packet e) 2 = Some lo ->
  run (6 + fuel) e prog (mkState 26 (r0 :: r1 :: data e :: r3 :: r4 :: rs)) =
  Exited (be16 hi lo mod w).
Proof.
  intros H6 H7. destruct He as (_&_&_&_&Hb). simpl Nat.add.
  ebpf_load (load_byte e He 1 hi). ebpf_keep.
  ebpf_load (load_byte e He 2 lo). ebpf_keep. ebpf_keep. ebpf_exit.
  rewrite shift_or by eauto using get_byte. by rewrite mod_workers.
Qed.

(** Long header, from the second length check. *)
Lemma block_long_header fuel r0 r1 r4 r5 rs first :
  get (packet e) 0 = Some first -> long_header first = true ->
  run (18 + fuel) e prog (mkState 9 (r0 :: r1 :: data e :: data_end e :: r4 :: r5 :: rs)) =
  Exited (ebpf_select (packet e) w).
Proof.
  intros H0 Hf. unfold ebpf_select. rewrite H0, Hf. simpl Nat.add.
  ebpf_step. ebpf_step. pose proof (jgt_bound e He 6 ltac:(lia)) as J6.
  case_bool_decide as L6.
  { ebpf_jump J6. etransitivity; [apply block_reject|].
    rewrite (get_out_of_range _ 6) by lia. by destruct (get (packet e) 5). }
  ebpf_jump J6.
  destruct (get_in_range (packet e) 5) as [n H5]; [lia|]. rewrite H5.
  ebpf_load (load_byte e He 5 n).
  assert (Hn : jump_taken JLT n (u64 2) = bool_decide (n < 2)).
  { simpl. change (u64 2) with 2. case_bool_decide; lia. }
  case_bool_decide as L2.
  { ebpf_jump Hn. etransitivity; [apply block_reject|].
    destruct (Z.leb_spec 2 n); [lia|]. by repeat case_match. }
  ebpf_jump Hn. ebpf_step. ebpf_step. pose proof (jgt_bound e He 8 ltac:(lia)) as J8.
  case_bool_decide as L8.
  { ebpf_jump J8. etransitivity; [apply block_reject|].
    rewrite (get_out_of_range _ 7) by lia. by case_match. }
  ebpf_jump J8.
  destruct (get_in_range (packet e) 6) as [hi H6]; [lia|].
  destruct (get_in_range (packet e) 7) as [lo H7]; [lia|]. rewrite H6, H7.
  destruct (Z.leb_spec 2 n); [|lia]. by eapply block_long.
Qed.

Lemma block_short_header fuel r0 r1 r4 rs first :
  get (packet e) 0 = Some first -> long_header first = false ->
  run (10 + fuel) e prog (mkState 23 (r0 :: r1 :: data e :: data_end e :: r4 :: rs)) =
  Exited (ebpf_select (packet e) w).
Proof.
  intros H0 Hf. unfold ebpf_select. rewrite H0, Hf. simpl Nat.add.
  ebpf_step. ebpf_step. pose proof (jgt_bound e He 3 ltac:(lia)) as J3.
  case_bool_decide as L3.
  { ebpf_jump J3. etransitivity; [apply block_reject|].
    rewrite (get_out_of_range _ 2) by lia. by case_match. }
  ebpf_jump J3.
  destruct (get_in_range (packet e) 1) as [hi H1]; [lia|].
  destruct (get_in_range (packet e) 2) as [lo H2]; [lia|]. rewrite H1, H2.
  by eapply block_short.
Qed.

(** The whole program: 34 steps are enough, whatever the registers held. *)
Lemma run_select fuel junk : length junk = 11%nat ->
  run (34 + fuel) e prog (init e junk) = Exited (ebpf_select (packet e) w).
Proof.
  intros Hj. do 12 (destruct junk as [|? junk]; try discriminate). clear Hj.
  unfold init. cbn -[run quic_reuseport_ebpf].
  ebpf_step. ebpf_load (load_data e He). ebpf_load (load_data_end e He).
  ebpf_step. ebpf_step. pose proof (jgt_bound e He 1 ltac:(lia)) as J1.
  case_bool_decide as L1.
  { ebpf_jump J1. etransitivity; [apply block_reject|].
    unfold ebpf_select. by rewrite get_out_of_range by lia. }
  ebpf_jump J1.
  destruct (get_in_range (packet e) 0) as [first H0].
  { pose proof (len_nonneg (packet e)). lia. }
  ebpf_load (load_byte e He 0 first). ebpf_step.
  assert (Hj : jump_taken JEQ (Z.land first (u64 128)) (u64 0) = negb (long_header first)).
  { unfold long_header. by rewrite negb_involutive. }
  destruct (long_header first) eqn:Hf; ebpf_jump Hj.
  - by eapply (block_long_header (7 + fuel)).
  - by eapply (block_short_header (15 + fuel)).
Qed.
End Blocks.

End Ebpf.

(** ** Classic BPF *)
Module Cbpf.

Record SockFilter := mkFilter { code : Z; jt : Z; jf : Z; k : Z }.

#[global] Instance SockFilter_eq_dec : EqDecision SockFilter.
Proof. solve_decision. Defined.

Definition sock_filter (code jt jf k : Z) : SockFilter := mkFilter code jt jf k.

Definition BPF_LD := 0x00.
Definition BPF_ALU := 0x04.
Definition BPF_JMP := 0x05.
Definition BPF_RET := 0x06.
Definition BPF_H := 0x08.
Definition BPF_B := 0x10.
Definition BPF_ABS := 0x20.
Definition BPF_K := 0x00.
Definition BPF_A := 0x10.
Definition BPF_JA := 0x00.
Definition BPF_JSET := 0x40.
Definition BPF_MOD := 0x90.

#[local] Infix "|||" := Z.lor (at level 50, left associativity).

Definition quic_reuseport_cbpf (workers : Z) : list SockFilter := [
  sock_filter (BPF_LD ||| BPF_B ||| BPF_ABS) 0 0 0;
  sock_filter (BPF_JMP ||| BPF_JSET ||| BPF_K) 0 2 0x80;
  sock_filter (BPF_LD ||| BPF_H ||| BPF_ABS) 0 0 6;
  sock_filter (BPF_JMP ||| BPF_JA) 0 0 1;
  sock_filter (BPF_LD ||| BPF_H ||| BPF_ABS) 0 0 1;
  sock_filter (BPF_ALU ||| BPF_MOD ||| BPF_K) 0 0 (u32 workers);
  sock_filter (BPF_RET ||| BPF_A) 0 0 0
].

(** *** The filter machine, for the opcodes the program uses *)

Inductive insn :=
| LdB (k : Z)                 (* A <- byte at k *)
| LdH (k : Z)                 (* A <- big-endian half-word at k *)
| Ja (k : Z)
| Jset (jt jf k : Z)
| ModK (k : Z)
| RetA.

Definition decode (i : SockFilter) : option insn :=
  match Z.land (code i) 0x07 with
  | 0x00 => if Z.land (code i) 0xe0 =? 0x20
            then match Z.land (code i) 0x18 with
                 | 0x10 => Some (LdB (k i))
                 | 0x08 => Some (LdH (k i))
                 | _ => None
                 end
            else None
  | 0x04 => if Z.land (code i) 0xf8 =? 0x90 then Some (ModK (k i)) else None
  | 0x05 => match Z.land (code i) 0xf8 with
            | 0x00 => Some (Ja (k i))
            | 0x40 => Some (Jset (jt i) (jf i) (k i))
            | _ => None
            end
  | 0x06 => if Z.land (code i) 0x18 =? 0x10 then Some RetA else None
  | _ => None
  end.

Inductive outcome :=
| Running (pc a : Z)
| Returned (v : Z)
| Fault.

(** A load outside the packet ends the program with 0. *)
Definition exec (p : bytes) (i : insn) (pc a : Z) : outcome :=
  match i with
  | LdB k => match get p k with Some b => Running (pc + 1) b | None => Returned 0 end
  | LdH k => match get p k, get p (k + 1) with
             | Some hi, Some lo => Running (pc + 1) (be16 hi lo)
             | _, _ => Returned 0
             end
  | Ja k => Running (pc + 1 + k) a
  | Jset jt jf k => Running (pc + 1 + (if Z.land a k =? 0 then jf else jt)) a
  | ModK k => if k =? 0 then Fault else Running (pc + 1) (a mod k)
  | RetA => Returned a
  end.

Fixpoint run (fuel : nat) (p : bytes) (prog : list SockFilter) (pc a : Z) : outcome :=
  match fuel with
  | O => Running pc a
  | S fuel =>
      match get prog pc ≫= decode with
      | None => Fault
      | Some i =>
          match exec p i pc a with
          | Running pc a => run fuel p prog pc a
          | o => o
          end
      end
  end.

Definition cbpf_select (p : bytes) (workers : Z) : Z :=
  match get p 0 with
  | None => 0
  | Some first =>
      let at_ := if long_header first then 6 else 1 in
      match get p at_, get p (at_ + 1) with
      | Some hi, Some lo => be16 hi lo mod workers
      | _, _ => 0
      end
  end.

Lemma filter_step fuel p prog pc a i pc' a' :
  get prog pc ≫= decode = Some i -> exec p i pc a = Running pc' a' ->
  run (S fuel) p prog pc a = run fuel p prog pc' a'.
Proof. intros Hi Hs. simpl. by rewrite Hi, Hs. Qed.

Lemma run_return fuel p prog pc a i v :
  get prog pc ≫= decode = Some i -> exec p i pc a = Returned v ->
  run (S fuel) p prog pc a = Returned v.
Proof. intros Hi Hs. simpl. by rewrite Hi, Hs. Qed.

Ltac fetch := cbv -[u32]; reflexivity.
Ltac half_word H1 H2 :=
  unfold exec; change (6 + 1) with 7; change (1 + 1) with 2; rewrite H1, ?H2; reflexivity.

Section Blocks.
Context (w : Z) (Hw : 0 < w < 2 ^ 32).
#[local] Abbreviation prog := (quic_reuseport_cbpf w).

Lemma block_tail fuel p a : run (2 + fuel) p prog 5 a = Returned (a mod w).
Proof.
  simpl Nat.add. erewrite filter_step; [|fetch|].
  2:{ cbn -[u32]. rewrite u32_id by (unfold is_u32; lia).
      destruct (Z.eqb_spec w 0); [lia|reflexivity]. }
  by erewrite run_return; [|fetch|cbn; reflexivity].
Qed.

Lemma filter_select fuel p a : run (7 + fuel) p prog 0 a = Returned (cbpf_select p w).
Proof.
  unfold cbpf_select. simpl Nat.add.
  destruct (get p 0) as [first|] eqn:H0.
  2:{ erewrite run_return; [done|fetch|]. cbn -[get]. by rewrite H0. }
  erewrite filter_step; [|fetch|cbn -[get]; rewrite H0; reflexivity].
  destruct (long_header first) eqn:Hf; unfold long_header in Hf;
    (erewrite filter_step; [|fetch|cbn -[Z.land Z.add]; reflexivity]).
  - destruct (Z.land first 128 =? 0) eqn:E; [done|]. cbn -[run prog get]. change (6 + 1) with 7.
    destruct (get p 6) as [hi|] eqn:H6, (get p 7) as [lo|] eqn:H7;
      try (erewrite run_return; [done|fetch|]; half_word H6 H7).
    erewrite filter_step; [|fetch|half_word H6 H7].
    erewrite filter_step; [|fetch|cbn -[Z.add]; reflexivity].
    apply (block_tail (1 + fuel)).
  - destruct (Z.land first 128 =? 0) eqn:E; [|done]. cbn -[run prog get]. change (1 + 1) with 2.
    destruct (get p 1) as [hi|] eqn:H6, (get p 2) as [lo|] eqn:H7;
      try (erewrite run_return; [done|fetch|]; half_word H6 H7).
    erewrite filter_step; [|fetch|half_word H6 H7].
    apply (block_tail (2 + fuel)).
Qed.
End Blocks.

End Cbpf.

(** ** Agreement with the userspace parser *)

Lemma Routes_cbpf p i w : Routes p i -> Cbpf.cbpf_select p w = i mod w.
Proof.
  intros [first n hi lo H0 Hf _ _ _ H6 H7 ->|first hi lo H0 Hf H1 H2 ->];
    unfold Cbpf.cbpf_select; rewrite H0, Hf.
  - change (6 + 1) with 7. by rewrite H6, H7.
  - change (1 + 1) with 2. by rewrite H1, H2.
Qed.

Lemma ebpf_select_range p w : 0 < w -> 0 <= Ebpf.ebpf_select p w < w.
Proof.
  intros Hw. unfold Ebpf.ebpf_select.
  repeat case_match; try lia; by apply Z.mod_pos_bound.
Qed.

Lemma cbpf_select_range p w : 0 < w -> 0 <= Cbpf.cbpf_select p w < w.
Proof.
  intros Hw. unfold Cbpf.cbpf_select.
  repeat case_match; try lia; by apply Z.mod_pos_bound.
Qed.

(** The result of a program: [None] if it faults or does not end. *)
Definition ebpf_returns (e : Ebpf.env) (junk : list Z) (workers : Z) : option Z :=
  match Ebpf.run 34 e (Ebpf.quic_reuseport_ebpf workers) (Ebpf.init e junk) with
  | Ebpf.Exited v => Some v
  | _ => None
  end.

(** The classic filter is given the datagram, and its result selects the socket. *)
Definition cbpf_selects (p : bytes) (workers : Z) : option Z :=
  match Cbpf.run 7 p (Cbpf.quic_reuseport_cbpf workers) 0 0 with
  | Cbpf.Returned v => Some v
  | _ => None
  end.

Lemma ebpf_returns_eq e junk w :
  Ebpf.env_ok e -> length junk = 11%nat -> 0 < w < 2 ^ 31 ->
  ebpf_returns e junk w = Some (Ebpf.ebpf_select (Ebpf.packet e) w).
Proof. intros He Hj Hw. unfold ebpf_returns. by rewrite (Ebpf.run_select e He w Hw 0). Qed.

Lemma cbpf_selects_eq p w : 0 < w < 2 ^ 32 -> cbpf_selects p w = Some (Cbpf.cbpf_select p w).
Proof. intros Hw. unfold cbpf_selects. by rewrite (Cbpf.filter_select w Hw 0). Qed.

(** The datagram [close] wakes a socket with is too short for an index: the filter sends
    it to worker 0, whichever socket it was meant for. *)
Lemma wake_up_goes_to_worker_0 w : 0 < w < 2 ^ 32 -> cbpf_selects [0] w = Some 0.
Proof. intros Hw. by rewrite cbpf_selects_eq. Qed.

(** What a worker of the kernel-selected path does with a datagram: it keeps the
    kernel's choice and re-checks the header ([quic_reuseport_bpf_accepts_packet]). *)
Definition delivered_to (selected : option Z) (p : bytes) (workers : Z) : option Z :=
  if quic_reuseport_bpf_accepts_packet p workers then selected else None.

Lemma delivered_to_eq sel p w :
  bytes_ok p -> 0 < w ->
  (forall i, Routes p i -> sel = Some (i mod w)) ->
  delivered_to sel p w = quic_worker_index p w.
Proof.
  intros Hok Hw Hsel. unfold delivered_to, quic_reuseport_bpf_accepts_packet.
  case_bool_decide as E; destruct (quic_worker_index p w) as [j|] eqn:Ej.
  - apply worker_index_Routes in Ej as (i & HR & ->); [|done|lia]. by apply Hsel.
  - by destruct E.
  - destruct E. eauto.
  - done.
Qed.

(** What the eBPF program would do with a datagram at [data]: it computes the index the
    parser names. *)
Theorem ebpf_index_at_data e junk w i :
  Ebpf.env_ok e -> length junk = 11%nat -> 0 < w < 2 ^ 31 ->
  Routes (Ebpf.packet e) i -> ebpf_returns e junk w = Some (i mod w).
Proof.
  intros He Hj Hw HR. rewrite ebpf_returns_eq by done. f_equal.
  destruct HR as [first n hi lo H0 Hf H5 Hn _ H6 H7 ->|first hi lo H0 Hf H1 H2 ->];
    unfold Ebpf.ebpf_select; rewrite H0, Hf.
  - rewrite H5, H6, H7. by destruct (Z.leb_spec 2 n); [|lia].
  - by rewrite H1, H2.
Qed.

(** ** Properties *)

(** C3: On every datagram, whatever the registers hold on entry, the
    eBPF selector ends within 34 instructions without a memory fault or an
    undecodable opcode, and returns a number below the number of workers. *)
Theorem ebpf_selector_safe e junk w :
  Ebpf.env_ok e -> length junk = 11%nat -> 0 < w < 2 ^ 31 ->
  exists v, Ebpf.run 34 e (Ebpf.quic_reuseport_ebpf w) (Ebpf.init e junk) = Ebpf.Exited v /\
            0 <= v < w.
Proof.
  intros He Hj Hw. exists (Ebpf.ebpf_select (Ebpf.packet e) w). split.
  - by apply (Ebpf.run_select e He w Hw 0).
  - apply ebpf_select_range. lia.
Qed.

Lemma ebpf_selector_safe_witness :
  let e := Ebpf.mkEnv 4096 65536 [0xe0; 0; 0; 0; 1; 4; 0; 2; 9; 9] in
  exists v, Ebpf.run 34 e (Ebpf.quic_reuseport_ebpf 4) (Ebpf.init e (replicate 11 7)) =
              Ebpf.Exited v /\ 0 <= v < 4.
Proof.
  apply (ebpf_selector_safe (Ebpf.mkEnv 4096 65536 [0xe0; 0; 0; 0; 1; 4; 0; 2; 9; 9])
           (replicate 11 7) 4); [|reflexivity|lia].
  unfold Ebpf.env_ok, Ebpf.data_end, len. simpl.
  repeat split; try lia. by apply (bool_decide_unpack _).
Defined.

(** What the program returns for the directly accessible bytes of a datagram in the
    kernel, in terms of the UDP header they begin with. *)
Definition header_value (source destination length checksum workers : Z) : Z :=
  if 2 ^ 15 <=? source
  then if 2 <=? length mod 256 then checksum mod workers else 0
  else (source mod 256 * 256 + destination / 256) mod workers.

Definition udp_header (source destination length checksum : Z) : bytes :=
  [source / 256; source mod 256; destination / 256; destination mod 256;
   length / 256; length mod 256; checksum / 256; checksum mod 256].

(** The opcode of a call of a helper. *)
Definition is_call (i : Ebpf.BpfInsn) : bool := Ebpf.code i =? 0x85.

Lemma long_header_high b : is_u8 b -> long_header b = (128 <=? b).
Proof.
  intros Hb. assert (b ∈ seqZ 0 256) as Hin by (apply elem_of_seqZ; unfold is_u8 in Hb; lia).
  assert (Forall (fun b => long_header b = (128 <=? b)) (seqZ 0 256)) as HF
    by (vm_compute; repeat constructor).
  rewrite Forall_forall in HF. by apply HF.
Qed.

(** C1: In the kernel the eBPF program does not route by connection id.  It is loaded
    with type SK_REUSEPORT, so the bytes it reads begin at the UDP header, its result is
    a verdict (0 drops, 1 passes), and a socket is selected by calling a helper.  For
    every UDP header and whatever of the payload follows, wherever the datagram is in
    memory and whatever the registers held, for any number of workers below 2^31: the
    program returns a number read off the ports, length and checksum of the UDP header,
    the same for every payload under that header; with one worker this is 0, a drop,
    for every datagram; and it calls no helper, so it never selects a socket. *)
Theorem ebpf_verdict e junk w source destination length checksum payload :
  Ebpf.env_ok e -> List.length junk = 11%nat -> 0 < w < 2 ^ 31 ->
  is_u16 source -> is_u16 destination -> is_u16 length -> is_u16 checksum ->
  Ebpf.packet e = udp_header source destination length checksum ++ payload ->
  ebpf_returns e junk w = Some (header_value source destination length checksum w) /\
  0 <= header_value source destination length checksum w < w /\
  (w = 1 -> header_value source destination length checksum w = 0) /\
  Forall (fun i => is_call i = false) (Ebpf.quic_reuseport_ebpf w).
Proof.
  intros He Hj Hw Hs Hd Hl Hc Hp.
  assert (Hr : 0 <= header_value source destination length checksum w < w).
  { unfold header_value. repeat case_match; try lia; apply Z.mod_pos_bound; lia. }
  split_and!; [|lia|lia|lia|repeat constructor].
  rewrite ebpf_returns_eq by done. f_equal. rewrite Hp. unfold Ebpf.ebpf_select, udp_header, header_value.
  unfold is_u16 in *. cbn [app]. unfold get; simpl.
  rewrite long_header_high by (unfold is_u8; div_lia).
  rewrite !be16_add by (unfold is_u8; div_lia).
  replace (128 <=? source / 256) with (2 ^ 15 <=? source) by div_lia.
  case_match; [|done]. case_match; [|done]. f_equal. div_lia.
Qed.

Lemma ebpf_verdict_witness :
  let e p := Ebpf.mkEnv 4096 65536 (udp_header 50000 4433 18 0x1235 ++ p) in
  ebpf_returns (e [0xe0; 0; 0; 0; 1; 4; 0; 2; 0xa5; 2]) (replicate 11 7) 4 = Some 1 /\
  ebpf_returns (e [0x40; 0; 3; 9]) (replicate 11 7) 4 = Some 1.
Proof.
  intros e.
  assert (He : forall p, bytes_ok p -> (List.length p <= 10)%nat -> Ebpf.env_ok (e p)).
  { intros p Hp Hl. unfold Ebpf.env_ok, Ebpf.data_end, len. simpl. repeat split; try lia.
    unfold bytes_ok. repeat (apply Forall_cons; split; [unfold is_u8; div_lia|]). exact Hp. }
  assert (Hu : forall z, 0 <= z < 65536 -> is_u16 z) by done.
  split; (refine (proj1 (ebpf_verdict _ (replicate 11 7) 4 50000 4433 18 0x1235 _ (He _ _ _) eq_refl _ _ _ _ _ eq_refl));
    [by apply (bool_decide_unpack _)|simpl; lia|lia|apply Hu; lia..]).
Defined.

(** C2: The classic BPF filter routes like the userspace parser.  It has no length
    check on the connection id: it always returns a worker index, and after the
    worker's header check routing coincides with the userspace parser. *)
Theorem cbpf_routing_equiv p w :
  bytes_ok p -> 0 < w < 2 ^ 32 ->
  (exists v, Cbpf.run 7 p (Cbpf.quic_reuseport_cbpf w) 0 0 = Cbpf.Returned v /\ 0 <= v < w) /\
  delivered_to (cbpf_selects p w) p w = quic_worker_index p w.
Proof.
  intros Hok Hw. split.
  - exists (Cbpf.cbpf_select p w). split; [by apply (Cbpf.filter_select w Hw 0)|].
    apply cbpf_select_range. lia.
  - apply delivered_to_eq; [done|lia|]. intros i HR.
    rewrite cbpf_selects_eq by done. by rewrite (Routes_cbpf _ i).
Qed.

Lemma cbpf_routing_equiv_witness :
  delivered_to (cbpf_selects [0xe0; 0; 0; 0; 1; 4; 1; 3; 9; 9] 4)
    [0xe0; 0; 0; 0; 1; 4; 1; 3; 9; 9] 4 = Some 3.
Proof.
  assert (E : quic_worker_index [0xe0; 0; 0; 0; 1; 4; 1; 3; 9; 9] 4 = Some 3) by reflexivity.
  rewrite <- E. apply cbpf_routing_equiv; [|lia]. by apply (bool_decide_unpack _).
Defined.
