(* ===== verification/BpfTypes.v ===== *)
(** * A type system for the BPF programs of [src/src/platform/linux.rs]

    What the kernel checks before it runs a program, as far as it does not depend on
    the packet: every field fits its place in the instruction, every opcode is known,
    jumps go forward and stay inside, no register is read before it is written, no
    division by zero, and the last instruction cannot fall through.  The checker is
    executable; its soundness is that a well-typed program ends within its length and
    that its result does not depend on the registers it did not initialise. *)

From S2P Require Import Prelude Bpf.

Module Typing.
Import Ebpf.

(** The registers known to be initialised, r0 to r10. *)
Abbreviation rtype := (list bool).

Definition initialised (g : rtype) (r : nat) : bool := default false (g !! r).
Definition set_reg (r : nat) (g : rtype) : rtype := <[r := true]> g.

#[local] Instance alu_op_eq_dec : EqDecision alu_op.
Proof. solve_decision. Defined.

(** On entry: the context in r1 and the frame pointer in r10. *)
Definition entry_type : rtype :=
  [false; true; false; false; false; false; false; false; false; false; true].

Definition operand_ok (g : rtype) (k : operand) (src : nat) : bool :=
  match k with K => true | X => initialised g src end.

(** The type of an instruction at [pc]: the instructions that can follow, with what is
    initialised there; [None] when it reads an uninitialised register. *)
Definition check (pc : Z) (g : rtype) (i : insn) : option (list (Z * rtype)) :=
  match i with
  | Exit => if initialised g 0 then Some [] else None
  | Alu64 op k dst src _ =>
      if operand_ok g k src && (bool_decide (op = MOV) || initialised g dst) && (dst <? 10)%nat
      then Some [(pc + 1, set_reg dst g)] else None
  | Ldx _ dst src _ =>
      if initialised g src && (dst <? 10)%nat then Some [(pc + 1, set_reg dst g)] else None
  | Jmp _ k dst src off _ =>
      if operand_ok g k src && initialised g dst && (0 <=? off)
      then Some [(pc + 1, g); (pc + 1 + off, g)] else None
  end.

(** [g] promises everything [h] asks for. *)
Definition subtype (g h : rtype) : bool := forallb (fun '(a, b) => implb b a) (zip g h).

Definition meet (g h : rtype) : rtype := zip_with andb g h.

(** One pass in program order: the type of each instruction is the meet over the
    earlier ones it can follow. *)
Fixpoint infer (n : nat) (pc : Z) (prog : list BpfInsn) (types : list (option rtype)) :
    list (option rtype) :=
  match n with
  | O => types
  | S n =>
      let types :=
        match mjoin (get types pc), get prog pc ≫= decode with
        | Some g, Some i =>
            foldr (fun '(pc', g') types =>
              alter (fun o => Some (match o with Some h => meet h g' | None => g' end))
                (Z.to_nat pc') types) types (default [] (check pc g i))
        | _, _ => types
        end in
      infer n (pc + 1) prog types
  end.

Definition types_of (prog : list BpfInsn) : list (option rtype) :=
  infer (length prog) 0 prog (<[0%nat := Some entry_type]> (replicate (length prog) None)).

(** The checker: at every reachable instruction the successors lie inside and promise
    less than is known. *)
Definition well_typed_at (prog : list BpfInsn) (types : list (option rtype)) (pc : nat) : bool :=
  match types !! pc with
  | Some (Some g) =>
      (length g =? 11)%nat &&
      match prog !! pc ≫= decode with
      | Some i =>
          match check (Z.of_nat pc) g i with
          | Some succs =>
              forallb (fun '(pc', g') =>
                match mjoin (get types pc') with
                | Some h => subtype g' h && (pc' <? len prog)
                | None => false
                end) succs
          | None => false
          end
      | None => false
      end
  | Some None => true
  | None => false
  end.

Definition well_typed (prog : list BpfInsn) : bool :=
  let types := types_of prog in
  match mjoin (get types 0) with
  | Some g => subtype entry_type g && forallb (well_typed_at prog types) (seq 0 (length prog))
  | None => false
  end.

(** The layout of [struct bpf_insn]: u8 opcode, two 4-bit registers in a byte, i16
    offset, i32 immediate. *)
Definition is_mod (i : BpfInsn) : bool :=
  bool_decide (decode_alu (code i) = Some MOD) && (Z.land (code i) 0x07 =? 0x07).

Definition shape_fits (i : BpfInsn) : bool :=
  bool_decide (is_u8 (code i)) && bool_decide (is_u8 (dst_src i)) &&
  (- 2 ^ 15 <=? off i) && (off i <? 2 ^ 15).

Definition imm_fits (i : BpfInsn) : Prop :=
  - 2 ^ 31 <= imm i < 2 ^ 31 /\ (is_mod i = true -> imm i <> 0).

Definition fields_fit (i : BpfInsn) : Prop := shape_fits i = true /\ imm_fits i.

(** ** Soundness *)

(** Two register files that agree where the type says they are initialised. *)
Definition agree (g : rtype) (r r' : list Z) : Prop :=
  length r = 11%nat /\ length r' = 11%nat /\
  forall k, initialised g k = true -> r !! k = r' !! k.

Lemma agree_subtype g h r r' :
  subtype g h = true -> length g = length h -> agree g r r' -> agree h r r'.
Proof.
  intros Hs Hl (L & L' & Ha). split_and!; [done..|]. intros k Hk. apply Ha. clear Ha.
  unfold initialised in *. revert h k Hs Hl Hk.
  induction g as [|a g IH]; intros [|b h] [|k] Hs Hl Hk; simplify_eq/=;
    apply andb_true_iff in Hs as [H1 H2]; [by destruct a|by eapply IH].
Qed.

Lemma agree_insert g r r' d v :
  length g = 11%nat -> agree g r r' -> agree (set_reg d g) (<[d := v]> r) (<[d := v]> r').
Proof.
  intros Hg (L & L' & Ha). split_and!; rewrite ?length_insert; [done..|]. intros k Hk.
  destruct (decide (d = k)) as [->|Hne].
  - destruct (decide (k < 11)%nat).
    + rewrite !list_lookup_insert_eq by lia. done.
    + rewrite !lookup_ge_None_2 by (rewrite length_insert; lia). done.
  - rewrite !list_lookup_insert_ne by done. apply Ha. unfold initialised, set_reg in *.
    by rewrite list_lookup_insert_ne in Hk.
Qed.

Lemma agree_operand g r r' k src imm :
  agree g r r' -> operand_ok g k src = true -> operand_value r k src imm = operand_value r' k src imm.
Proof. intros (_ & _ & Ha). destruct k; simpl; [done|apply Ha]. Qed.

(** Outcomes that agree: the same result, the same fault, or the same next
    instruction with agreeing registers. *)
Definition outcomes_agree (succs : list (Z * rtype)) (o o' : outcome) : Prop :=
  match o, o' with
  | Exited v, Exited v' => v = v'
  | Fault, Fault => True
  | Running s, Running s' =>
      pc s = pc s' /\ exists g, (pc s, g) ∈ succs /\ agree g (regs s) (regs s')
  | _, _ => False
  end.

Lemma lookup_both (r r' : list Z) (k : nat) :
  length r = 11%nat -> length r' = 11%nat ->
  (r !! k = None <-> r' !! k = None).
Proof. intros Hr Hr'. rewrite !lookup_ge_None. by rewrite Hr, Hr'. Qed.

Lemma exec_agree e g i p r r' succs :
  length g = 11%nat -> agree g r r' -> check p g i = Some succs ->
  outcomes_agree succs (exec e i (mkState p r)) (exec e i (mkState p r')).
Proof.
  intros Hg Ha Hc. pose proof Ha as (L & L' & Hk).
  destruct i as [op k dst src imm|w dst src off|op k dst src off imm|]; simpl in Hc.
  - destruct (operand_ok g k src && _ && _) eqn:E; simplify_eq.
    apply andb_true_iff in E as [[Ho Hd]%andb_true_iff _]. simpl.
    rewrite (agree_operand g r r') by done. destruct (operand_value r' k src imm) as [y|].
    + destruct (bool_decide (op = MOV)) eqn:Em; simpl in Hd.
      * apply bool_decide_eq_true in Em as ->.
        destruct (r !! dst) eqn:E1, (r' !! dst) eqn:E2; simpl.
        -- split; [done|]. eexists. split; [by left|]. by apply agree_insert.
        -- apply (lookup_both r r') in E2; [congruence|done..].
        -- apply (lookup_both r r') in E1; [congruence|done..].
        -- done.
      * rewrite (Hk dst Hd). destruct (r' !! dst); simpl; [|done].
        split; [done|]. eexists. split; [by left|]. by apply agree_insert.
    + by destruct (r !! dst), (r' !! dst).
  - destruct (initialised g src && _) eqn:E; simplify_eq.
    apply andb_true_iff in E as [Hs _]. simpl. rewrite (Hk src Hs).
    destruct (r' !! src ≫= _); simpl; [|done].
    split; [done|]. eexists. split; [by left|]. by apply agree_insert.
  - destruct (operand_ok g k src && _ && _) eqn:E; simplify_eq.
    apply andb_true_iff in E as [[Ho Hd]%andb_true_iff _]. simpl.
    rewrite (agree_operand g r r'), (Hk dst Hd) by done.
    destruct (r' !! dst), (operand_value r' k src imm); simpl; try done.
    split; [done|]. exists g. split; [|done]. case_match; set_solver.
  - destruct (initialised g 0) eqn:E; simplify_eq. simpl. rewrite (Hk 0%nat E). by destruct (r' !! 0%nat).
Qed.

(** Successors are later. *)
Lemma check_forward p g i succs p' g' :
  check p g i = Some succs -> (p', g') ∈ succs -> p < p' /\ (length g' = length g).
Proof.
  unfold set_reg. destruct i; simpl; intros Hc Hin;
    repeat case_match; simplify_eq; set_unfold; destruct_or?; simplify_eq/=;
    unfold set_reg; rewrite ?length_insert; split; try lia;
    repeat match goal with H : _ && _ = true |- _ => apply andb_true_iff in H as [? ?] end;
    repeat match goal with H : (_ <=? _) = true |- _ => apply Z.leb_le in H end; lia.
Qed.

Section Soundness.
Context (prog : list BpfInsn) (types : list (option rtype)).
Context (Htyped : forallb (well_typed_at prog types) (seq 0 (length prog)) = true).

Lemma typed_at p : 0 <= p < len prog -> well_typed_at prog types (Z.to_nat p) = true.
Proof.
  intros Hp. rewrite forallb_forall in Htyped. apply Htyped, in_seq. unfold len in Hp. lia.
Qed.

Lemma typed_length p g : 0 <= p < len prog -> mjoin (get types p) = Some g -> length g = 11%nat.
Proof.
  intros Hp Hg. pose proof (typed_at p Hp) as Ht. unfold well_typed_at in Ht. unfold get in Hg.
  destruct (types !! Z.to_nat p) as [[h|]|]; [|done..]. simpl in Hg. simplify_eq.
  by apply andb_true_iff in Ht as [?%Nat.eqb_eq _].
Qed.

Lemma typed_run e fuel p g r r' :
  0 <= p < len prog -> mjoin (get types p) = Some g -> agree g r r' ->
  (Z.to_nat (len prog - p) <= fuel)%nat ->
  match run fuel e prog (mkState p r), run fuel e prog (mkState p r') with
  | Exited v, Exited v' => v = v'
  | Fault, Fault => True
  | _, _ => False
  end.
Proof.
  revert p g r r'. induction fuel as [|fuel IH]; intros p g r r' Hp Hg Ha Hf; [lia|].
  pose proof (typed_at p Hp) as Ht. unfold well_typed_at in Ht.
  unfold get in Hg. destruct (types !! Z.to_nat p) as [[g0|]|]; [|done..]. simpl in Hg. simplify_eq.
  apply andb_true_iff in Ht as [Hl Ht]. apply Nat.eqb_eq in Hl.
  simpl. unfold step. unfold get. simpl.
  destruct (prog !! Z.to_nat p ≫= decode) as [i|]; [|done].
  rewrite Z2Nat.id in Ht by lia. destruct (check p g i) as [succs|] eqn:Ec; [|done].
  pose proof (exec_agree e g i p r r' succs Hl Ha Ec) as Ho.
  destruct (exec e i (mkState p r)) as [s| |], (exec e i (mkState p r')) as [s'| |]; try done.
  destruct Ho as (Hpc & g' & Hin & Hag). destruct s as [p1 r1], s' as [p2 r2]. simpl in *. subst p2.
  destruct (check_forward p g i succs p1 g' Ec Hin) as [Hlt Hlen].
  rewrite forallb_forall in Ht. apply list_elem_of_In in Hin. specialize (Ht _ Hin). simpl in Ht.
  destruct (mjoin (get types p1)) as [h|] eqn:Eh; [|done].
  apply andb_true_iff in Ht as [Hsub Hbound%Z.ltb_lt].
  assert (Hh : length h = 11%nat).
  { eapply typed_length; [|exact Eh]. lia. }
  apply (IH p1 h); [lia|done| |lia]. eapply agree_subtype; [exact Hsub|congruence|done].
Qed.
End Soundness.

Lemma agree_entry e junk junk' :
  length junk = 11%nat -> length junk' = 11%nat -> junk !! 10%nat = junk' !! 10%nat ->
  agree entry_type (regs (init e junk)) (regs (init e junk')).
Proof.
  intros L L' H10. split_and!; simpl; rewrite ?length_insert; [done..|]. intros k Hk.
  destruct (decide (k = 1%nat)) as [->|]; [by rewrite !list_lookup_insert_eq by lia|].
  rewrite !list_lookup_insert_ne by done.
  do 10 (destruct k as [|k]; [done|]). by destruct k.
Qed.

(** Type soundness: a well-typed program ends within its length, and its
    result depends on the context and the frame pointer only. *)
Theorem well_typed_sound prog e junk junk' :
  well_typed prog = true -> length junk = 11%nat -> length junk' = 11%nat ->
  junk !! 10%nat = junk' !! 10%nat ->
  match run (length prog) e prog (init e junk), run (length prog) e prog (init e junk') with
  | Exited v, Exited v' => v = v'
  | Fault, Fault => True
  | _, _ => False
  end.
Proof.
  unfold well_typed. intros Hw L L' H10.
  destruct (mjoin (get (types_of prog) 0)) as [g|] eqn:Eg; [|done].
  apply andb_true_iff in Hw as [Hs Ht].
  destruct prog as [|i0 prog'] eqn:Ep; [done|]. rewrite <- Ep in *.
  assert (Hlen : 0 < len prog) by (rewrite Ep; unfold len; simpl; lia).
  assert (Hg : length g = 11%nat).
  { exact (typed_length prog _ Ht 0 g ltac:(lia) Eg). }
  apply (typed_run prog (types_of prog) Ht e _ 0 g); [lia|done| |unfold len; lia].
  eapply agree_subtype; [exact Hs|by rewrite Hg|by apply agree_entry].
Qed.
(** *** The programs *)

Lemma ebpf_typed w : well_typed (quic_reuseport_ebpf w) = true.
Proof. cbv -[i32]. reflexivity. Qed.

Lemma i32_range z : - 2 ^ 31 <= i32 z < 2 ^ 31.
Proof. unfold i32. pose proof (u32_range z) as Hr. unfold is_u32 in Hr. case_bool_decide; lia. Qed.

Lemma i32_nonzero z : 0 < z < 2 ^ 32 -> i32 z <> 0.
Proof.
  intros Hz. unfold i32. rewrite u32_id by (unfold is_u32; lia). case_bool_decide; lia.
Qed.

Lemma ebpf_shapes w : forallb shape_fits (quic_reuseport_ebpf w) = true.
Proof. cbv -[i32]. reflexivity. Qed.

(** An immediate is the worker count or a constant that does not divide. *)
Definition imm_const (w : Z) (i : BpfInsn) : Prop :=
  imm i = i32 w \/ (- 2 ^ 31 <=? imm i) && (imm i <? 2 ^ 31) && negb (is_mod i) = true.

Lemma ebpf_imms w : Forall (imm_const w) (quic_reuseport_ebpf w).
Proof.
  repeat (apply Forall_cons; split; [first [left; reflexivity | right; vm_compute; reflexivity]|]).
  by apply Forall_nil.
Qed.

Lemma ebpf_fields_fit w : 0 < w < 2 ^ 32 -> Forall fields_fit (quic_reuseport_ebpf w).
Proof.
  intros Hw. apply Forall_forall. intros i Hi. split.
  - pose proof (ebpf_shapes w) as Hs. rewrite forallb_forall in Hs.
    by apply Hs, list_elem_of_In.
  - pose proof (ebpf_imms w) as Him. rewrite Forall_forall in Him.
    pose proof (i32_range w). pose proof (i32_nonzero w Hw).
    destruct (Him i Hi) as [E|E]; unfold imm_fits; [rewrite E; tauto|].
    apply andb_true_iff in E as [[E1%Z.leb_le E2%Z.ltb_lt]%andb_true_iff E3%negb_true_iff].
    split; [lia|]. congruence.
Qed.

(** C4: The eBPF program is well-typed for every number of workers.  Every
    instruction fits its struct and divides by a non-zero constant; the checker accepts
    the program, so on any packet and any context it ends within its 34 instructions
    and no register it did not initialise can change the worker it returns. *)
Theorem ebpf_well_typed w e junk junk' :
  0 < w < 2 ^ 32 -> length junk = 11%nat -> length junk' = 11%nat -> junk !! 10%nat = junk' !! 10%nat ->
  Forall fields_fit (quic_reuseport_ebpf w) /\ well_typed (quic_reuseport_ebpf w) = true /\
  match run 34 e (quic_reuseport_ebpf w) (init e junk), run 34 e (quic_reuseport_ebpf w) (init e junk') with
  | Exited v, Exited v' => v = v'
  | Fault, Fault => True
  | _, _ => False
  end.
Proof.
  intros Hw L L' H10. split_and!.
  - by apply ebpf_fields_fit.
  - apply ebpf_typed.
  - apply (well_typed_sound (quic_reuseport_ebpf w)); [apply ebpf_typed|done..].
Qed.

Lemma ebpf_well_typed_witness :
  exists v, run 34 (mkEnv 4096 8192 [0x40; 0; 1; 9]) (quic_reuseport_ebpf 4)
              (init (mkEnv 4096 8192 [0x40; 0; 1; 9]) (replicate 11 0)) = Exited v /\
            run 34 (mkEnv 4096 8192 [0x40; 0; 1; 9]) (quic_reuseport_ebpf 4)
              (init (mkEnv 4096 8192 [0x40; 0; 1; 9]) (replicate 10 77 ++ [0])) = Exited v.
Proof.
  destruct (ebpf_well_typed 4 (mkEnv 4096 8192 [0x40; 0; 1; 9]) (replicate 11 0) (replicate 10 77 ++ [0]))
    as (_ & _ & Hr); [lia|reflexivity..|].
  exists 1. split; vm_compute; reflexivity.
Defined.
End Typing.
