(* ===== verification/CidRouting.v ===== *)
(** * From the connection id generator to the worker: src/src/core/cid.rs, quic.rs, platform/linux.rs

    A server that makes its connection ids with the generator of [Cid] is reached again
    in both ways the datagrams of a connection are distributed by id: by the classic filter
    of [Bpf] in the kernel, followed by the check of the worker's loop, and by the
    userspace parser of [Quic]. *)

From S2P Require Import Prelude Quic Cid Bpf.
#[local] Open Scope Z_scope.
Import CidGenerator.

(** A datagram that carries the id [cid]. *)
Definition datagram (first : Z) (version cid rest : bytes) : bytes :=
  if long_header first then long_packet first version cid rest else short_packet first cid rest.

Section Routing.
Context `{GetRandom}.

(** C5: Connection ids come home (round trip).  Put any id a well-formed generator
    produces in a short-header datagram or in a complete long-header datagram, with any
    first byte of that form, version and payload.  For every number of workers that
    includes the generator's own, the userspace parser sends the datagram to that worker,
    and so does the kernel with the classic filter, followed by the check of the worker's
    loop. *)
Theorem cid_comes_home g cid w first version rest :
  gen_ok g -> generate g = Ok cid -> worker_index g < w < 2 ^ 32 ->
  is_u8 first -> bytes_ok version -> length version = 4%nat -> bytes_ok rest ->
  let p := datagram first version cid rest in
  quic_worker_index p w = Some (worker_index g) /\
  delivered_to (cbpf_selects p w) p w = Some (worker_index g).
Proof.
  intros Hg Hgen Hw Hf Hv Hv4 Hr p.
  assert (Hi : quic_worker_index p w = Some (worker_index g)).
  { apply cid_routes_to_its_worker; try done. lia. }
  assert (Hpos : 0 < w) by (destruct Hg as [Hwi _]; unfold is_u16 in *; lia).
  assert (Hp : bytes_ok p).
  { pose proof (generate_bytes_ok g cid Hg Hgen) as Hc. pose proof (generate_len g cid Hg Hgen) as Hl.
    pose proof Hg as [_ Hcl]. unfold MIN_CID_LEN, MAX_CID_LEN in Hcl.
    unfold p, datagram. destruct (long_header first); [by apply bytes_ok_long; auto with lia|].
    by apply bytes_ok_packet. }
  split; [done|]. rewrite <- Hi. apply delivered_to_eq; [done..|]. intros i HR.
  rewrite cbpf_selects_eq by lia. by rewrite (Routes_cbpf _ i).
Qed.
End Routing.

(** A random source that fills with sevens. *)
#[local] Instance sevens : GetRandom.
Proof.
  refine {| fill b := ((fun _ => 7) <$> b, Ok ()) |}.
  - intros b. apply length_fmap.
  - intros b _. apply Forall_fmap, Forall_true. intros x. unfold compose, is_u8. lia.
Defined.

Definition home_packet : bytes := datagram 0xc0 [0; 0; 0; 1] [1; 2; 7; 7; 7; 7; 7; 7] [9].

Lemma cid_comes_home_witness :
  home_packet = [0xc0; 0; 0; 0; 1; 8; 1; 2; 7; 7; 7; 7; 7; 7; 9] /\
  quic_worker_index home_packet 300 = Some 258 /\
  delivered_to (cbpf_selects home_packet 300) home_packet 300 = Some 258.
Proof.
  split; [reflexivity|].
  assert (Hgen : generate (mkGen 258 8) = Ok [1; 2; 7; 7; 7; 7; 7; 7]) by (vm_compute; reflexivity).
  assert (Hok : gen_ok (mkGen 258 8)) by by apply (bool_decide_unpack _).
  assert (Hv : bytes_ok [0; 0; 0; 1]) by by apply (bool_decide_unpack _).
  assert (Hr : bytes_ok [9]) by by apply (bool_decide_unpack _).
  assert (Hw : worker_index (mkGen 258 8) < 300 < 2 ^ 32) by (simpl; lia).
  assert (Hf : is_u8 0xc0) by (unfold is_u8; lia).
  destruct (cid_comes_home _ _ 300 0xc0 [0; 0; 0; 1] [9] Hok Hgen Hw Hf Hv eq_refl Hr) as (H1 & H2).
  split; [exact H1|exact H2].
Defined.
