(* ===== verification/Concurrency.v ===== *)
(** * Per-worker concurrency limit: [src/src/core/concurrency.rs]

    [WorkerConcurrencyLimit] is a counting semaphore on one atomic counter: an
    optimistic [try_acquire], an [acquire] future that parks its task in an
    [AtomicWaker], and a [ConcurrencyPermit] whose drop gives the permit back and
    wakes the parked task.  Threads interleave between any two atomic operations;
    each atomic operation is one step ([run_thread]), the weak compare-exchange may
    fail spuriously, and the theorems hold for every interleaving. *)

From S2P Require Import Prelude.

(** ** The waker cell

    [atomic_waker::AtomicWaker] is third-party.  Documented behaviour: [register]
    replaces the waker to notify; [wake] notifies the last registered one and
    empties the cell; both are atomic. *)
Class AtomicWaker (C : Type) := {
  waker_new : C;
  register : nat -> C -> C;
  wake : C -> option nat * C;
  registered : C -> option nat;
  registered_new : registered waker_new = None;
  registered_register : forall t c, registered (register t c) = Some t;
  wake_registered : forall c, (wake c).1 = registered c;
  registered_wake : forall c, registered (wake c).2 = None;
}.

(** One slot is an implementation. *)
#[export] Program Instance slot_waker : AtomicWaker (option nat) := {|
  waker_new := None;
  register := fun t _ => Some t;
  wake := fun c => (c, None);
  registered := fun c => c;
|}.
Solve All Obligations with done.

Module Limit.

(** [WorkerConcurrencyLimit::new]: no limit for [None] and for [Some(0)]. *)
Definition new (max : option Z) : option Z :=
  match max with
  | Some max => if bool_decide (max > 0) then Some max else None
  | None => None
  end.

(** The atomic operation a thread executes next. *)
Inductive pc :=
| Idle
(* try_acquire *)
| TryLoad
| TryCas (a : Z)
(* AcquirePermit::poll *)
| PollLoad
| PollCas (a : Z)
| PollRegister
| PollRecheck
| Pending
(* Drop for ConcurrencyPermit *)
| DropLoad
| DropCas (a : Z)
| DropWake.

#[global] Instance pc_eq_dec : EqDecision pc.
Proof. solve_decision. Defined.

(** What the environment sees of a step. *)
Inductive label :=
| Tau
| Acquired (t : nat)     (* a permit was returned *)
| Refused (t : nat)      (* try_acquire returned None *)
| Parked (t : nat)       (* poll returned Poll::Pending *)
| Released (t : nat)     (* drop gave the permit back *)
| Leaked (t : nat).      (* drop returned without giving it back *)

Section Limit.
Context {C : Type} `{AtomicWaker C} (max : Z).

(** [active] and [waiter] are the fields of [ConcurrencyState]; [held] counts the
    live [ConcurrencyPermit]s whose drop has not started, whoever owns them;
    [notified] are the tasks the waker has woken and that were not polled since. *)
Record state := mkState {
  active : Z;
  waiter : C;
  held : nat;
  notified : list nat;
  threads : list pc;
}.

Definition set_pc (t : nat) (p : pc) (s : state) : state :=
  mkState (active s) (waiter s) (held s) (notified s) (<[t := p]> (threads s)).
Definition set_active (a : Z) (s : state) : state :=
  mkState a (waiter s) (held s) (notified s) (threads s).
Definition set_held (h : nat) (s : state) : state :=
  mkState (active s) (waiter s) h (notified s) (threads s).
Definition set_waiter (c : C) (s : state) : state :=
  mkState (active s) c (held s) (notified s) (threads s).
Definition set_notified (n : list nat) (s : state) : state :=
  mkState (active s) (waiter s) (held s) n (threads s).

Definition init (n : nat) : state := mkState 0 waker_new 0 [] (replicate n Idle).

(** [while active > 0 { .. }]: the test at the head of the drop loop. *)
Definition drop_test (t : nat) (a : Z) (s : state) : label * state :=
  if bool_decide (a > 0) then (Tau, set_pc t (DropCas a) s) else (Leaked t, set_pc t Idle s).

(** A weak compare-exchange fails if the value differs, or spuriously. *)
Definition cas_fails (spurious : bool) (s : state) (a : Z) : bool :=
  spurious || negb (active s =? a).

(** The next atomic operation of thread [t]. *)
Definition run_thread (spurious : bool) (t : nat) (s : state) : option (label * state) :=
  match threads s !! t with
  | Some TryLoad =>
      Some (if bool_decide (active s >= max)
            then (Refused t, set_pc t Idle s)
            else (Tau, set_pc t (TryCas (active s)) s))
  | Some (TryCas a) =>
      Some (if cas_fails spurious s a
            then (Tau, set_pc t TryLoad s)
            else (Acquired t, set_held (S (held s)) (set_active (usize (a + 1)) (set_pc t Idle s))))
  | Some PollLoad =>
      Some (Tau, if bool_decide (active s < max)
                 then set_pc t (PollCas (active s)) s
                 else set_pc t PollRegister s)
  | Some (PollCas a) =>
      Some (if cas_fails spurious s a
            then (Tau, set_pc t PollLoad s)
            else (Acquired t, set_held (S (held s)) (set_active (usize (a + 1)) (set_pc t Idle s))))
  | Some PollRegister =>
      Some (Tau, set_waiter (register t (waiter s)) (set_pc t PollRecheck s))
  | Some PollRecheck =>
      Some (if bool_decide (active s < max)
            then (Tau, set_pc t PollLoad s)
            else (Parked t, set_pc t Pending s))
  | Some DropLoad => Some (drop_test t (active s) s)
  | Some (DropCas a) =>
      Some (if cas_fails spurious s a
            then drop_test t (active s) s
            else (Released t, set_active (usize (a - 1)) (set_pc t DropWake s)))
  | Some DropWake =>
      let '(o, c) := wake (waiter s) in
      Some (Tau, set_waiter c (set_notified (option_list o ++ notified s) (set_pc t Idle s)))
  | Some Idle | Some Pending | None => None
  end.

(** Calls: [try_acquire], the poll of an [acquire] future (a fresh one, or a
    parked one polled again), the drop of a permit, and the drop of a parked
    future (its task is cancelled). *)
Inductive action :=
| CallTry (t : nat)
| CallPoll (t : nat)
| CallDrop (t : nat)
| CancelPoll (t : nat)
| Run (spurious : bool) (t : nat).

Definition forget (t : nat) (l : list nat) : list nat := filter (fun u => u <> t) l.

Definition do_action (a : action) (s : state) : option (label * state) :=
  match a with
  | CallTry t => if decide (threads s !! t = Some Idle)
                 then Some (Tau, set_pc t TryLoad s) else None
  | CallPoll t => if decide (threads s !! t = Some Idle \/ threads s !! t = Some Pending)
                  then Some (Tau, set_notified (forget t (notified s)) (set_pc t PollLoad s))
                  else None
  | CallDrop t => if decide (threads s !! t = Some Idle /\ (0 < held s)%nat)
                  then Some (Tau, set_held (pred (held s)) (set_pc t DropLoad s)) else None
  | CancelPoll t => if decide (threads s !! t = Some Pending)
                    then Some (Tau, set_pc t Idle s) else None
  | Run spurious t => run_thread spurious t s
  end.

Definition step (s : state) (l : label) (s' : state) : Prop :=
  exists a, do_action a s = Some (l, s').

Inductive reachable (n : nat) : state -> Prop :=
| reach_init : reachable n (init n)
| reach_step s l s' : reachable n s -> step s l s' -> reachable n s'.

(** ** Invariant *)

(** Permits that are live because their drop is still before its compare-exchange. *)
Definition dropping1 (p : pc) : nat :=
  match p with DropLoad | DropCas _ => 1 | _ => 0 end.
Definition dropping (s : state) : nat := sum_list (dropping1 <$> threads s).

(** The number of [ConcurrencyPermit] values that exist. *)
Definition permits (s : state) : nat := (held s + dropping s)%nat.

Definition pc_ok (p : pc) : Prop :=
  match p with
  | TryCas a | PollCas a => 0 <= a < max
  | DropCas a => 0 < a <= max
  | _ => True
  end.

Definition inv (s : state) : Prop :=
  active s = Z.of_nat (permits s) /\ 0 <= active s <= max /\ Forall pc_ok (threads s).

Lemma sum_list_insert (l : list nat) i x y :
  l !! i = Some x -> (sum_list (<[i := y]> l) + x = sum_list l + y)%nat.
Proof.
  revert i. induction l as [|z l IH]; intros [|i]; simpl; try done.
  - intros [= ->]. lia.
  - intros Hi. specialize (IH i Hi). lia.
Qed.

Lemma dropping_set_pc s t p q :
  threads s !! t = Some p ->
  (dropping (set_pc t q s) + dropping1 p = dropping s + dropping1 q)%nat.
Proof.
  intros Ht. unfold dropping, set_pc. simpl. rewrite list_fmap_insert.
  apply sum_list_insert. by rewrite list_lookup_fmap, Ht.
Qed.

Lemma inv_init n : 0 < max -> inv (init n).
Proof.
  intros Hm. unfold inv, permits, dropping, init. simpl.
  rewrite fmap_replicate. simpl.
  assert (sum_list (replicate n 0%nat) = 0%nat) as -> by (induction n; simpl; lia).
  repeat split; try lia. by apply Forall_replicate.
Qed.

(** One thread moves from [p] to [q]: the counter must move by the change in the
    number of live permits. *)
Lemma inv_update s s' t p q :
  inv s -> threads s !! t = Some p -> threads s' = <[t := q]> (threads s) -> pc_ok q ->
  active s' - active s =
    Z.of_nat (held s') + Z.of_nat (dropping1 q) - (Z.of_nat (held s) + Z.of_nat (dropping1 p)) ->
  0 <= active s' <= max -> inv s'.
Proof.
  intros (Ha & Hb & Hf) Ht Hs Hq Hd Hb'. unfold inv. split_and!; [|lia..|].
  - pose proof (dropping_set_pc s t p q Ht) as Hp. unfold permits, dropping, set_pc in *.
    simpl in Hp. rewrite Hs. lia.
  - rewrite Hs. by apply Forall_insert.
Qed.

Lemma inv_pc s t p : inv s -> threads s !! t = Some p -> pc_ok p.
Proof. intros (_ & _ & Hf). by apply Forall_lookup_1. Qed.

(** A thread that is dropping a permit counts one: the counter is positive. *)
Lemma inv_dropping_pos s t p :
  inv s -> threads s !! t = Some p -> dropping1 p = 1%nat -> 0 < active s.
Proof.
  intros (Ha & _ & _) Ht Hp. pose proof (dropping_set_pc s t p Idle Ht) as Hd.
  unfold permits in Ha. simpl in Hd. lia.
Qed.

Lemma cas_fails_false sp s a : cas_fails sp s a = false -> active s = a.
Proof.
  unfold cas_fails. rewrite orb_false_iff, negb_false_iff, Z.eqb_eq. tauto.
Qed.

Lemma drop_test_pos t a s : 0 < a -> drop_test t a s = (Tau, set_pc t (DropCas a) s).
Proof. intros Ha. unfold drop_test. by rewrite bool_decide_true by lia. Qed.

Context (Hmax : 0 < max) (Hwidth : is_usize max).

Ltac finish Hs :=
  eapply (inv_update _ _ _ _ _ Hs); [eassumption|reflexivity|simpl; try lia; done|simpl; lia|simpl; lia].

(** The abstract counter and the concurrent code move together: [spec_step n l n']
    is the counting semaphore with [n] of [max] permits taken. *)
Inductive spec_step (n : Z) : label -> Z -> Prop :=
| spec_tau : spec_step n Tau n
| spec_acquired t : n < max -> spec_step n (Acquired t) (n + 1)
| spec_refused t : n = max -> spec_step n (Refused t) n
| spec_parked t : n = max -> spec_step n (Parked t) n
| spec_released t : 0 < n -> spec_step n (Released t) (n - 1).

#[local] Hint Constructors spec_step : core.

(** A successful compare-exchange from [a] to [a + 1], in [try_acquire] and [poll]. *)
Lemma acquire_cas_ok s t p :
  inv s -> threads s !! t = Some p -> dropping1 p = 0%nat -> active s < max ->
  let s' := set_held (S (held s)) (set_active (usize (active s + 1)) (set_pc t Idle s)) in
  inv s' /\ spec_step (active s) (Acquired t) (active s').
Proof.
  intros Hi Ht Hd Hlt. pose proof Hi as (_ & Hb & _). simpl.
  assert (Hu : usize (active s + 1) = active s + 1).
  { apply u64_id. unfold is_usize, is_u64 in *. lia. }
  split; [finish Hi|]. rewrite Hu. eauto.
Qed.

(** A successful compare-exchange from [a] to [a - 1] in the drop. *)
Lemma release_cas_ok s t :
  inv s -> threads s !! t = Some (DropCas (active s)) ->
  let s' := set_active (usize (active s - 1)) (set_pc t DropWake s) in
  inv s' /\ spec_step (active s) (Released t) (active s').
Proof.
  intros Hi Ht. pose proof (inv_dropping_pos _ _ _ Hi Ht eq_refl) as Hpos.
  pose proof Hi as (_ & Hb & _). simpl.
  assert (Hu : usize (active s - 1) = active s - 1).
  { apply u64_id. unfold is_usize, is_u64 in *. lia. }
  split; [finish Hi|]. rewrite Hu. eauto.
Qed.

Lemma run_thread_ok sp t s l s' :
  inv s -> run_thread sp t s = Some (l, s') ->
  inv s' /\ spec_step (active s) l (active s').
Proof.
  intros Hi Hr. pose proof Hi as (Ha & Hb & Hf). unfold run_thread in Hr.
  destruct (threads s !! t) as [p|] eqn:Ht; [|done].
  pose proof (inv_pc s t p Hi Ht) as Hp.
  destruct p; try done; simpl in Hp.
  - case_bool_decide; simplify_eq; (split; [finish Hi|]); simpl; auto with lia.
  - destruct (cas_fails sp s a) eqn:Hc; simplify_eq; [split; [finish Hi|simpl; auto]|].
    apply cas_fails_false in Hc as <-. by eapply acquire_cas_ok; [..|lia].
  - simplify_eq. case_bool_decide; (split; [finish Hi|]); simpl; auto.
  - destruct (cas_fails sp s a) eqn:Hc; simplify_eq; [split; [finish Hi|simpl; auto]|].
    apply cas_fails_false in Hc as <-. by eapply acquire_cas_ok; [..|lia].
  - simplify_eq. split; [finish Hi|simpl; auto].
  - case_bool_decide; simplify_eq; (split; [finish Hi|]); simpl; auto with lia.
  - pose proof (inv_dropping_pos _ _ _ Hi Ht eq_refl).
    rewrite drop_test_pos in Hr by done. simplify_eq. split; [finish Hi|simpl; auto].
  - pose proof (inv_dropping_pos _ _ _ Hi Ht eq_refl).
    destruct (cas_fails sp s a) eqn:Hc.
    + rewrite drop_test_pos in Hr by done. simplify_eq. split; [finish Hi|simpl; auto].
    + apply cas_fails_false in Hc as <-. simplify_eq. by apply release_cas_ok.
  - destruct (wake (waiter s)) as [o c]. simplify_eq. split; [finish Hi|simpl; auto].
Qed.

(** Every step keeps the invariant and is a step of the counting semaphore. *)
Lemma step_ok s l s' : inv s -> step s l s' -> inv s' /\ spec_step (active s) l (active s').
Proof.
  intros Hi [a Ha]. pose proof Hi as (Hact & Hb & _). destruct a as [t|t|t|t|sp t]; simpl in Ha.
  - case_decide; simplify_eq. split; [finish Hi|simpl; auto].
  - case_decide as Hd; simplify_eq. destruct Hd; (split; [finish Hi|simpl; auto]).
  - case_decide as Hd; simplify_eq. destruct Hd as [Ht Hh].
    split; [finish Hi|simpl; auto].
  - case_decide; simplify_eq. split; [finish Hi|simpl; auto].
  - by eapply run_thread_ok.
Qed.

Lemma limit_reachable_inv n s : reachable n s -> inv s.
Proof. induction 1 as [|s l s' _ IH Hs]; [by apply inv_init|]. by eapply step_ok. Qed.

(** ** Wake-ups

    One task per limit awaits [acquire] (the worker's listener loop); everything
    else uses [try_acquire] and drops permits. *)
Section Wakeups.
Context (listener : nat).

Definition allowed (a : action) : Prop :=
  match a with CallPoll t => t = listener | _ => True end.

Inductive reachable1 (n : nat) : state -> Prop :=
| reach1_init : reachable1 n (init n)
| reach1_step s l s' a :
    reachable1 n s -> allowed a -> do_action a s = Some (l, s') -> reachable1 n s'.

Lemma reachable1_reachable n s : reachable1 n s -> reachable n s.
Proof. induction 1; econstructor; [eassumption|]. by eexists. Qed.

Definition polling (p : pc) : bool :=
  match p with
  | PollLoad | PollCas _ | PollRegister | PollRecheck | Pending => true
  | _ => false
  end.

Definition waking (s : state) : Prop := exists t, threads s !! t = Some DropWake.

Definition will_wake (s : state) : Prop :=
  listener ∈ notified s \/ registered (waiter s) = Some listener.

Definition wake_inv (s : state) : Prop :=
  (forall t p, threads s !! t = Some p -> polling p = true -> t = listener) /\
  match threads s !! listener with
  | Some PollRecheck => will_wake s
  | Some Pending =>
      listener ∈ notified s \/
      (registered (waiter s) = Some listener /\ (active s = max \/ waking s))
  | _ => True
  end.

Lemma wake_inv_init n : wake_inv (init n).
Proof.
  split; simpl.
  - intros t p [-> _]%lookup_replicate. done.
  - destruct (replicate n Idle !! listener) as [p|] eqn:E; [|done].
    apply lookup_replicate in E as [-> _]. done.
Qed.

(** A step of another thread that leaves the waker cell alone and does not finish
    a wake-up keeps [wake_inv], provided it keeps the counter or is a release. *)
Lemma wake_inv_other s s' t p q :
  wake_inv s -> t <> listener -> threads s !! t = Some p -> p <> DropWake ->
  threads s' = <[t := q]> (threads s) -> polling q = false -> waiter s' = waiter s -> notified s' = notified s ->
  (active s' = active s \/ q = DropWake \/ active s < max) -> wake_inv s'.
Proof.
  intros [H1 H2] Htl Ht Hp Hth Hq Hw Hn Hact. split.
  - intros u r. rewrite Hth, list_lookup_insert_Some.
    intros [(<- & <- & _)|[_ Hu]] Hr; [congruence|by eapply H1].
  - rewrite Hth, list_lookup_insert_ne by done. unfold will_wake, waking in *.
    rewrite Hw, Hn, Hth.
    assert (Hlt : (t < length (threads s))%nat) by (by eapply lookup_lt_Some).
    destruct (threads s !! listener) as [[]|]; try done.
    destruct H2 as [?|[? Hor]]; [by left|]. right. split; [done|].
    destruct Hor as [Hm|[u Hu]].
    + destruct Hact as [->|[->|?]]; [by left| |lia].
      right. exists t. by apply list_lookup_insert_eq.
    + right. exists u. rewrite list_lookup_insert_ne; [done|]. congruence.
Qed.

(** The listener's own step leaves [wake_inv] to its new program counter. *)
Lemma wake_inv_self s s' p q :
  wake_inv s -> threads s !! listener = Some p -> threads s' = <[listener := q]> (threads s) ->
  match q with
  | PollRecheck => will_wake s'
  | Pending => listener ∈ notified s' \/
      (registered (waiter s') = Some listener /\ (active s' = max \/ waking s'))
  | _ => True
  end -> wake_inv s'.
Proof.
  intros [H1 _] Hp Hth Hq. split.
  - intros u r. rewrite Hth, list_lookup_insert_Some.
    intros [(<- & <- & _)|[_ Hu]] Hr; [done|by eapply H1].
  - rewrite Hth, list_lookup_insert_eq by (by eapply lookup_lt_Some). done.
Qed.

Lemma wake_collects s :
  will_wake s -> listener ∈ option_list (wake (waiter s)).1 ++ notified s.
Proof.
  intros [Hn|Hr]; apply elem_of_app; [by right|left].
  rewrite wake_registered, Hr. simpl. set_solver.
Qed.

Lemma wake_inv_wake s t :
  wake_inv s -> threads s !! t = Some DropWake ->
  wake_inv (set_waiter (wake (waiter s)).2
    (set_notified (option_list (wake (waiter s)).1 ++ notified s) (set_pc t Idle s))).
Proof.
  intros Hw Ht. destruct (decide (t = listener)) as [->|Hne].
  { by eapply wake_inv_self. }
  destruct Hw as [H1 H2]. split; simpl.
  - intros u r. rewrite list_lookup_insert_Some.
    intros [(<- & <- & _)|[_ Hu]] Hr; [done|by eapply H1].
  - rewrite list_lookup_insert_ne by done. unfold will_wake; simpl.
    destruct (threads s !! listener) as [[]|]; try done;
      left; apply wake_collects; [done|]. destruct H2 as [?|[? _]]; [by left|by right].
Qed.

Ltac self Hw := eapply (wake_inv_self _ _ _ _ Hw); [eassumption|reflexivity|try exact I].
Ltac other Hw :=
  eapply (wake_inv_other _ _ _ _ _ Hw);
    [done|eassumption|done|reflexivity..|simpl; auto].

Lemma wake_inv_run sp t s l s' :
  inv s -> wake_inv s -> run_thread sp t s = Some (l, s') -> wake_inv s'.
Proof.
  intros Hi Hw Hr. pose proof Hi as (_ & Hb & _). unfold run_thread in Hr.
  destruct (threads s !! t) as [p|] eqn:Ht; [|done].
  destruct (decide (t = listener)) as [->|Hne].
  - assert (Hl := proj2 Hw). rewrite Ht in Hl.
    destruct p; try done.
    1-4: repeat (case_bool_decide || case_match); simplify_eq; self Hw.
    + simplify_eq. self Hw. right. apply registered_register.
    + case_bool_decide; simplify_eq; self Hw. simpl.
      destruct Hl as [?|?]; [by left|right]. split; [done|left; lia].
    + unfold drop_test in Hr. case_bool_decide; simplify_eq; self Hw.
    + unfold drop_test in Hr.
      destruct (cas_fails sp s a); [case_bool_decide|]; simplify_eq; self Hw.
    + destruct (wake (waiter s)) as [o c] eqn:E. simplify_eq.
      pose proof (wake_inv_wake s listener Hw Ht) as HW. by rewrite E in HW.
  - assert (Hpoll : polling p = false).
    { destruct (polling p) eqn:E; [|done]. destruct Hne. by eapply (proj1 Hw). }
    destruct p; try done.
    + case_bool_decide; simplify_eq; other Hw.
    + pose proof (inv_pc s t _ Hi Ht) as Hp. simpl in Hp.
      destruct (cas_fails sp s a) eqn:Hc; simplify_eq; other Hw.
      apply cas_fails_false in Hc. lia.
    + unfold drop_test in Hr. case_bool_decide; simplify_eq; other Hw.
    + unfold drop_test in Hr.
      destruct (cas_fails sp s a); [case_bool_decide|]; simplify_eq; other Hw.
    + destruct (wake (waiter s)) as [o c] eqn:E. simplify_eq.
      pose proof (wake_inv_wake s t Hw Ht) as HW. by rewrite E in HW.
Qed.

Lemma wake_inv_step a s l s' :
  inv s -> wake_inv s -> allowed a -> do_action a s = Some (l, s') -> wake_inv s'.
Proof.
  intros Hi Hw Hal Ha. destruct a as [t|t|t|t|sp t]; simpl in *.
  - case_decide; simplify_eq.
    destruct (decide (t = listener)) as [->|]; [self Hw|other Hw].
  - subst t. case_decide as Hd; simplify_eq. destruct Hd; self Hw.
  - case_decide as Hd; simplify_eq. destruct Hd as [Ht _].
    destruct (decide (t = listener)) as [->|]; [self Hw|other Hw].
  - case_decide as Hd; simplify_eq.
    assert (t = listener) as -> by (by eapply (proj1 Hw)). self Hw.
  - by eapply wake_inv_run.
Qed.

Lemma reachable1_wake_inv n s : reachable1 n s -> wake_inv s.
Proof.
  induction 1 as [|s l s' a Hr IH Hal Ha]; [apply wake_inv_init|].
  eapply wake_inv_step; eauto. by eapply limit_reachable_inv, reachable1_reachable.
Qed.

(** The listener is parked, not yet woken, and no wake-up is in flight: then all
    permits are out and the cell holds the listener. *)
Lemma parked_full n s :
  reachable1 n s -> threads s !! listener = Some Pending -> listener ∉ notified s -> ~ waking s ->
  Z.of_nat (permits s) = max /\ registered (waiter s) = Some listener.
Proof.
  intros Hr Ht Hn Hw. destruct (limit_reachable_inv _ _ (reachable1_reachable _ _ Hr)) as (Ha & _ & _).
  pose proof (proj2 (reachable1_wake_inv _ _ Hr)) as HW. rewrite Ht in HW.
  destruct HW as [?|[? [?|?]]]; [done| |done]. split; [lia|done].
Qed.

(** The wake-up in flight reaches a parked listener. *)
Lemma wake_reaches n s sp t l s' :
  reachable1 n s -> threads s !! listener = Some Pending -> threads s !! t = Some DropWake ->
  run_thread sp t s = Some (l, s') -> listener ∈ notified s'.
Proof.
  intros Hr Hl Ht Hrun. unfold run_thread in Hrun. rewrite Ht in Hrun.
  destruct (wake (waiter s)) as [o c] eqn:E. simplify_eq. simpl.
  replace o with (wake (waiter s)).1 by (by rewrite E). apply wake_collects.
  pose proof (proj2 (reachable1_wake_inv _ _ Hr)) as HW. rewrite Hl in HW.
  destruct HW as [?|[? _]]; [by left|by right].
Qed.
End Wakeups.

(** ** A thread that runs alone finishes *)

Definition finished (p : pc) : bool :=
  match p with Idle | Pending => true | _ => false end.

Fixpoint solo (fuel : nat) (t : nat) (s : state) : state :=
  match fuel with
  | O => s
  | S fuel => match run_thread false t s with Some (_, s') => solo fuel t s' | None => s end
  end.

(** Atomic operations thread [t] still needs when nobody else runs. *)
Definition rank (s : state) (p : pc) : nat :=
  let load := if bool_decide (active s < max) then 2%nat else 3%nat in
  match p with
  | Idle | Pending => 0
  | DropWake => 1
  | TryLoad => 2
  | TryCas a => if bool_decide (active s = a) then 1 else 3
  | PollLoad => load
  | PollCas a => if bool_decide (active s = a) then 1 else S load
  | PollRecheck => if bool_decide (active s < max) then 3 else 1
  | PollRegister => if bool_decide (active s < max) then 4 else 2
  | DropLoad => 3
  | DropCas a => if bool_decide (active s = a) then 2 else 3
  end.

Lemma cas_fails_solo s a : cas_fails false s a = negb (bool_decide (active s = a)).
Proof. unfold cas_fails. simpl. case_bool_decide; destruct (Z.eqb_spec (active s) a); done. Qed.

(** Every operation of a thread that is not finished brings its rank down. *)
Lemma solo_step s t p :
  inv s -> threads s !! t = Some p -> finished p = false ->
  exists l s' q, run_thread false t s = Some (l, s') /\ threads s' !! t = Some q /\
                 (rank s' q < rank s p)%nat.
Proof.
  intros Hi Ht Hp. assert (Hlt : (t < length (threads s))%nat) by (by eapply lookup_lt_Some).
  unfold run_thread. rewrite Ht.
  destruct p; try done;
    try (pose proof (inv_dropping_pos _ _ _ Hi Ht eq_refl) as Hpos; rewrite drop_test_pos by done).
  all: rewrite ?cas_fails_solo.
  9: destruct (wake (waiter s)) as [o c].
  all: unfold rank at 2; repeat case_bool_decide; simpl;
    do 3 eexists; (split; [reflexivity|]); simpl;
    (split; [by apply list_lookup_insert_eq|]);
    unfold rank; simpl; repeat case_bool_decide; lia.
Qed.

Lemma solo_finishes s t p k :
  inv s -> threads s !! t = Some p -> (rank s p <= k)%nat ->
  exists q, threads (solo k t s) !! t = Some q /\ finished q = true.
Proof.
  revert s p. induction k as [|k IH]; intros s p Hi Ht Hk; simpl.
  - destruct p; simpl in Hk; repeat case_bool_decide; try lia; eauto.
  - destruct (finished p) eqn:Hp.
    + unfold run_thread. rewrite Ht. destruct p; try done; eauto.
    + destruct (solo_step s t p Hi Ht Hp) as (l & s' & q & Hr & Hq & Hlt).
      rewrite Hr. eapply (IH s' q); [|done|lia]. by eapply run_thread_ok.
Qed.

Lemma rank_le_4 s p : (rank s p <= 4)%nat.
Proof. destruct p; simpl; repeat case_bool_decide; lia. Qed.

End Limit.

Arguments reachable {C _} max n s.
Arguments reachable1 {C _} max listener n s.
Arguments step {C _} max s l s'.

(** ** Properties *)
Section Properties.
Context {C : Type} `{AtomicWaker C}.

(** C6: In every interleaving the counter equals the number of
    permits that exist and never exceeds the limit. *)
Theorem limit_never_exceeded (max : Z) (n : nat) (s : state) :
  0 < max -> is_usize max -> reachable max n s ->
  active s = Z.of_nat (permits s) /\ Z.of_nat (permits s) <= max.
Proof. intros Hm Hw Hr. destruct (limit_reachable_inv max Hm Hw n s Hr) as (Ha & Hb & _). lia. Qed.

(** C7: Every step of the concurrent code, from any reachable state,
    is a step of the counting semaphore: a permit is granted only below the limit,
    [try_acquire] refuses and [poll] parks only at the instant the limit is
    reached, a drop gives back exactly one permit and never returns without doing
    so (there is no [Leaked] step). *)
Theorem limit_refines_semaphore (max : Z) (n : nat) (s s' : state) (l : label) :
  0 < max -> is_usize max -> reachable max n s -> step max s l s' ->
  spec_step max (active s) l (active s').
Proof.
  intros Hm Hw Hr Hs. eapply step_ok; [done..| |done]. by eapply limit_reachable_inv.
Qed.

(** C8: No lost wake-up. While the listener task is parked and has not
    been woken, either a drop that already gave its permit back is about to wake
    it, and doing so does, or every permit is still out and the cell holds the
    listener, so the next drop finds it there. *)
Theorem limit_no_lost_wakeup (max : Z) (listener n : nat) (s : state) :
  0 < max -> is_usize max -> reachable1 max listener n s ->
  threads s !! listener = Some Pending -> listener ∉ notified s ->
  (exists t, threads s !! t = Some DropWake /\
     forall sp, exists s', run_thread max sp t s = Some (Tau, s') /\ listener ∈ notified s') \/
  (Z.of_nat (permits s) = max /\ registered (waiter s) = Some listener).
Proof.
  intros Hm Hw Hr Ht Hn.
  destruct (decide (Exists (eq DropWake) (threads s))) as [He|He].
  - left. apply Exists_exists in He as (p & Hp & <-).
    apply list_elem_of_lookup in Hp as [t Hd]. exists t. split; [done|].
    intros sp. destruct (run_thread max sp t s) as [[l s']|] eqn:E.
    + pose proof (wake_reaches max Hm Hw listener n s sp t l s' Hr Ht Hd E) as Hin.
      unfold run_thread in E. rewrite Hd in E. destruct (wake (waiter s)). simplify_eq. eauto.
    + unfold run_thread in E. rewrite Hd in E. by destruct (wake (waiter s)).
  - right. eapply (parked_full max Hm Hw); eauto. intros [t Hd]. apply He, Exists_exists.
    exists DropWake. split; [|done]. apply list_elem_of_lookup. eauto.
Qed.

(** The retry loops end: from any reachable state, any call in
    progress returns after at most four atomic operations of its own thread if no
    other thread runs in between. *)
Theorem limit_solo_termination (max : Z) (n t : nat) (s : state) (p : pc) :
  0 < max -> is_usize max -> reachable max n s -> threads s !! t = Some p ->
  exists q, threads (solo max 4 t s) !! t = Some q /\ finished q = true.
Proof.
  intros Hm Hw Hr Ht. eapply (solo_finishes max Hw s t p); [|done|apply rank_le_4].
  by eapply limit_reachable_inv.
Qed.
End Properties.

(** *** Concrete runs *)

Fixpoint run_actions {C} `{AtomicWaker C} (max : Z) (l : list action) (s : state) : option state :=
  match l with
  | [] => Some s
  | a :: l => match do_action max a s with
              | Some (_, s') => run_actions max l s'
              | None => None
              end
  end.

Lemma run_actions_reachable1 {C} `{AtomicWaker C} max listener n l s s' :
  reachable1 max listener n s -> Forall (allowed listener) l -> run_actions max l s = Some s' ->
  reachable1 max listener n s'.
Proof.
  intros Hr Hl. revert s Hr. induction Hl as [|a l Ha _ IH]; intros s Hr Hs; simpl in Hs.
  - by simplify_eq.
  - destruct (do_action max a s) as [[lb s1]|] eqn:E; [|done].
    eapply IH; [|done]. by econstructor.
Qed.

(** Thread 0 acquires the only permit, the listener (thread 1) parks, thread 0
    gives the permit back but has not woken it yet. *)
Definition demo : list action :=
  [CallTry 0; Run false 0; Run false 0; CallPoll 1; Run false 1; Run false 1; Run false 1;
   CallDrop 0; Run false 0; Run false 0].

Definition demo_state : state (C := option nat) := mkState 0 (Some 1%nat) 0 [] [DropWake; Pending].

Lemma demo_reachable1 : reachable1 1 1 2 demo_state.
Proof.
  apply (run_actions_reachable1 1 1 2 demo (init 2)); [constructor| |reflexivity].
  by repeat constructor.
Qed.

Lemma limit_never_exceeded_witness :
  active demo_state = Z.of_nat (permits demo_state) /\ Z.of_nat (permits demo_state) <= 1.
Proof.
  apply (limit_never_exceeded 1 2 demo_state); [lia|unfold is_usize, is_u64; lia|].
  apply (reachable1_reachable 1 1 2), demo_reachable1.
Defined.

Lemma limit_refines_semaphore_witness :
  exists s', step 1 demo_state Tau s' /\ spec_step 1 (active demo_state) Tau (active s').
Proof.
  assert (Hs : step 1 demo_state Tau (mkState 0 None 0 [1%nat] [Idle; Pending])).
  { by exists (Run false 0). }
  eexists; split; [exact Hs|].
  apply (limit_refines_semaphore 1 2 demo_state _ Tau);
    [lia|unfold is_usize, is_u64; lia| |exact Hs].
  apply (reachable1_reachable 1 1 2), demo_reachable1.
Defined.

Lemma limit_no_lost_wakeup_witness :
  (exists t, threads demo_state !! t = Some DropWake /\
     forall sp, exists s', run_thread 1 sp t demo_state = Some (Tau, s') /\ 1%nat ∈ notified s') \/
  (Z.of_nat (permits demo_state) = 1 /\ registered (waiter demo_state) = Some 1%nat).
Proof.
  apply (limit_no_lost_wakeup 1 1 2 demo_state);
    [lia|unfold is_usize, is_u64; lia|apply demo_reachable1|reflexivity|].
  apply (bool_decide_unpack _). reflexivity.
Defined.

Lemma limit_solo_termination_witness :
  exists q, threads (solo 1 4 0 demo_state) !! 0%nat = Some q /\ finished q = true.
Proof.
  apply (limit_solo_termination 1 2 0 demo_state DropWake);
    [lia|unfold is_usize, is_u64; lia| |reflexivity].
  apply (reachable1_reachable 1 1 2), demo_reachable1.
Defined.

End Limit.
