(* ===== verification/Executor.v ===== *)
(** * Worker executor (Tokio runtime): [src/src/runtime/tokio.rs]

    Each worker thread owns a [CurrentThreadExecutor]; other threads hold
    [ExecutorHandle]s that submit work over an unbounded channel.  The loop of
    [park_until_shutdown] selects over the shutdown signal, the completion channel
    and the command channel, and keeps the join handles of submitted tasks in a map
    so that they can be cancelled.

    Tokio itself is third-party: a channel is a FIFO list, [spawn_local] adds a
    task, [JoinHandle::abort] asks for a task to be dropped before its next poll,
    [select!] takes any ready branch. *)

From S2P Require Import Prelude Errors.

Module Tokio.

(** A task of the [LocalSet].  [Live polled]: not finished, polled at least once
    or not; [Aborting]: abort requested, not yet dropped; [Gone]: finished or
    dropped. *)
Inductive task_state :=
| Live (polled : bool)
| Aborting (polled : bool)
| Gone.

(** [task_id] is the id of a submitted task; [None] for a [spawn_local] one. *)
Record task := mkTask { task_id : option Z; task_st : task_state }.

(** [TaskCommand].  The boxed closure is the task that gets spawned. *)
Inductive TaskCommand :=
| Spawn (id : Z)
| Cancel (id : Z).

(** [TaskHandleInner]: a join handle is the position of its task. *)
Inductive TaskHandle :=
| Local (handle : nat)
| Remote (id : Z).

#[global] Instance task_state_eq_dec : EqDecision task_state.
Proof. solve_decision. Defined.
#[global] Instance task_eq_dec : EqDecision task.
Proof. solve_decision. Defined.
#[global] Instance TaskCommand_eq_dec : EqDecision TaskCommand.
Proof. solve_decision. Defined.

(** The phase of [park_until_shutdown]: in the loop, after the loop and the aborts
    (the local set still exists), or returned. *)
Inductive phase := Looping | Exited | Returned.

#[global] Instance phase_eq_dec : EqDecision phase.
Proof. solve_decision. Defined.

Record executor := mkExec {
  next_task_id : Z;
  commands : list TaskCommand;      (* task channel, oldest first *)
  completions : list Z;             (* completion channel, oldest first *)
  task_handles : gmap Z nat;        (* HashMap<u64, JoinHandle> *)
  tasks : list task;                (* the LocalSet, by join handle *)
  park : phase;
}.

(** [CurrentThreadExecutor::new] *)
Definition new : executor := mkExec 1 [] [] ∅ [] Looping.

Definition worker_stopped : Io.Error := Io.mkError Io.BrokenPipe "worker runtime stopped".

(** [ExecutorHandle::spawn_task]: the id is taken before the send, which fails
    once the receiver is gone. *)
Definition spawn_task (s : executor) : executor * io_result TaskHandle :=
  let id := next_task_id s in
  let s := mkExec (u64 (id + 1)) (commands s) (completions s) (task_handles s) (tasks s) (park s) in
  if bool_decide (park s = Looping)
  then (mkExec (next_task_id s) (commands s ++ [Spawn id]) (completions s)
          (task_handles s) (tasks s) (park s), Ok (Remote id))
  else (s, Err worker_stopped).

(** [JoinHandle::abort] *)
Definition abort_state (st : task_state) : task_state :=
  match st with Live p => Aborting p | st => st end.
Definition set_task (h : nat) (f : task_state -> task_state) (s : executor) : executor :=
  mkExec (next_task_id s) (commands s) (completions s) (task_handles s)
    (alter (fun t => mkTask (task_id t) (f (task_st t))) h (tasks s)) (park s).
Definition abort (h : nat) (s : executor) : executor := set_task h abort_state s.

(** [TaskHandle::cancel]: a failed send is ignored. *)
Definition cancel (h : TaskHandle) (s : executor) : executor :=
  match h with
  | Local handle => abort handle s
  | Remote id =>
      if bool_decide (park s = Looping)
      then mkExec (next_task_id s) (commands s ++ [Cancel id]) (completions s)
             (task_handles s) (tasks s) (park s)
      else s
  end.

(** [tokio::task::spawn_local]: the new task and its join handle. *)
Definition spawn_task_local (id : option Z) (s : executor) : nat * executor :=
  (length (tasks s),
   mkExec (next_task_id s) (commands s) (completions s) (task_handles s)
     (tasks s ++ [mkTask id (Live false)]) (park s)).

(** [runtime::spawn_local] *)
Definition spawn_local (s : executor) : executor * io_result TaskHandle :=
  let '(h, s) := spawn_task_local None s in (s, Ok (Local h)).

(** [CurrentThreadExecutor::spawn]: a task of the runtime itself, polled by the same
    thread and dropped with the runtime. *)
Definition spawn (s : executor) : executor * io_result TaskHandle :=
  let '(h, s) := spawn_task_local None s in (s, Ok (Local h)).

Definition set_handles (m : gmap Z nat) (s : executor) : executor :=
  mkExec (next_task_id s) (commands s) (completions s) m (tasks s) (park s).

(** [TaskCompletionGuard::drop]: ignored once the loop has dropped the receiver. *)
Definition guard_drop (id : option Z) (polled : bool) (s : executor) : executor :=
  match id with
  | Some id =>
      if polled && bool_decide (park s = Looping)
      then mkExec (next_task_id s) (commands s) (completions s ++ [id])
             (task_handles s) (tasks s) (park s)
      else s
  | None => s
  end.

(** The shutdown channel, a oneshot: the loop ends when a message or the end of the
    sender is seen, and [ShutdownSender::shutdown] consumes the sender. *)
Record shutdown_state := mkShutdown { sent : bool; sender_alive : bool }.
Definition shutdown_channel : shutdown_state := mkShutdown false true.
Definition shutdown (c : shutdown_state) : shutdown_state := mkShutdown true false.
Definition shutdown_ready (c : shutdown_state) : bool := sent c || negb (sender_alive c).

Lemma shutdown_channel_spec :
  shutdown_ready shutdown_channel = false /\ shutdown_ready (shutdown shutdown_channel) = true.
Proof. done. Qed.

(** *** The branches of [select!] *)

(** [completed_id = completion_receiver.recv()] *)
Definition on_completion (s : executor) : option executor :=
  match completions s with
  | [] => None
  | completed_id :: rest =>
      Some (mkExec (next_task_id s) (commands s) rest
              (delete completed_id (task_handles s)) (tasks s) (park s))
  end.

(** [command = task_receiver.recv()] *)
Definition on_command (s : executor) : option executor :=
  match commands s with
  | [] => None
  | command :: rest =>
      let s := mkExec (next_task_id s) rest (completions s) (task_handles s) (tasks s) (park s) in
      Some match command with
           | Spawn id =>
               let '(h, s) := spawn_task_local (Some id) s in
               set_handles (<[id := h]> (task_handles s)) s
           | Cancel id =>
               match task_handles s !! id with
               | Some h => abort h (set_handles (delete id (task_handles s)) s)
               | None => s
               end
           end
  end.

(** The loop breaks (shutdown, or a closed channel): every handle left in the map
    is aborted, and the receivers are dropped with what they still hold. *)
Definition on_shutdown (s : executor) : executor :=
  let s := foldr (fun '(_, h) s => abort h s) s (map_to_list (task_handles s)) in
  mkExec (next_task_id s) [] [] ∅ (tasks s) Exited.

(** The local set is dropped with every task in it when the function returns. *)
Definition on_return (s : executor) : executor :=
  mkExec (next_task_id s) (commands s) (completions s) (task_handles s)
    ((fun t => mkTask (task_id t) Gone) <$> tasks s) Returned.

(** *** Steps

    Calls from other threads, the loop, and the tasks the executor polls. *)
Inductive action :=
| SpawnTask
| SpawnLocal
| CancelHandle (h : TaskHandle)
| RecvCompletion
| RecvCommand
| Shutdown
| Return
| Poll (h : nat)        (* the task is polled and does not finish *)
| Complete (h : nat)    (* the task is polled and finishes *)
| Reap (h : nat).       (* a task with a pending abort is dropped *)

(** Handles that some call has returned. *)
Definition issued (h : TaskHandle) (s : executor) : bool :=
  match h with
  | Local h => match tasks s !! h with Some (mkTask None _) => true | _ => false end
  | Remote id => bool_decide (1 <= id < next_task_id s)
  end.

Definition do_action (a : action) (s : executor) : option executor :=
  match a, park s with
  | SpawnTask, _ => Some (spawn_task s).1
  | CancelHandle h, _ => if issued h s then Some (cancel h s) else None
  | SpawnLocal, Looping => Some (spawn_local s).1
  | RecvCompletion, Looping => on_completion s
  | RecvCommand, Looping => on_command s
  | Shutdown, Looping => Some (on_shutdown s)
  | Poll h, Looping =>
      match tasks s !! h with
      | Some (mkTask _ (Live _)) => Some (set_task h (fun _ => Live true) s)
      | _ => None
      end
  | Complete h, Looping =>
      match tasks s !! h with
      | Some (mkTask id (Live _)) => Some (guard_drop id true (set_task h (fun _ => Gone) s))
      | _ => None
      end
  | Reap h, Looping =>
      match tasks s !! h with
      | Some (mkTask id (Aborting p)) => Some (guard_drop id p (set_task h (fun _ => Gone) s))
      | _ => None
      end
  | Return, Exited => Some (on_return s)
  | _, _ => None
  end.

(** Runs in which the id counter does not wrap (fewer than 2^64 - 1 submissions). *)
Inductive reachable : executor -> Prop :=
| reach_new : reachable new
| reach_step s a s' :
    reachable s -> do_action a s = Some s' -> next_task_id s + 1 < 2 ^ 64 -> reachable s'.

(** ** Invariant *)

Definition spawn_id (c : TaskCommand) : option Z :=
  match c with Spawn id => Some id | Cancel _ => None end.
Definition spawn_ids (l : list TaskCommand) : list Z := omap spawn_id l.
Definition task_ids (l : list task) : list Z := omap task_id l.

Definition is_live (st : task_state) : bool :=
  match st with Live _ => true | _ => false end.

(** A [Cancel] in the channel is never followed by the [Spawn] of its id. *)
Fixpoint cancels_late (l : list TaskCommand) : Prop :=
  match l with
  | [] => True
  | Spawn _ :: l => cancels_late l
  | Cancel id :: l => id ∉ spawn_ids l /\ cancels_late l
  end.

(** Every id handed out is below the counter, and used once: by one command still
    in the channel or by one task. *)
Record ids_ok (s : executor) : Prop := {
  ids_nodup : NoDup (spawn_ids (commands s) ++ task_ids (tasks s));
  ids_range : Forall (fun id => 1 <= id < next_task_id s)
                (spawn_ids (commands s) ++ task_ids (tasks s));
  ids_cancel_range : forall id, Cancel id ∈ commands s -> 1 <= id < next_task_id s;
  ids_next : 1 <= next_task_id s;
  ids_late : cancels_late (commands s);
}.

(** The map holds exactly the submitted tasks that are live, plus finished ones
    whose completion message is still in the channel. *)
Record map_ok (s : executor) : Prop := {
  map_sound : forall id h, task_handles s !! id = Some h ->
    exists st, tasks s !! h = Some (mkTask (Some id) st) /\
               (is_live st = true \/ (st = Gone /\ id ∈ completions s));
  map_complete : forall id h st, tasks s !! h = Some (mkTask (Some id) st) ->
    is_live st = true -> task_handles s !! id = Some h;
  map_completions : forall id, id ∈ completions s ->
    exists h, tasks s !! h = Some (mkTask (Some id) Gone);
}.

Definition inv (s : executor) : Prop :=
  match park s with
  | Looping => ids_ok s /\ map_ok s
  | Exited => forall h id st, tasks s !! h = Some (mkTask (Some id) st) -> is_live st = false
  | Returned => Forall (fun t => task_st t = Gone) (tasks s)
  end.

Lemma spawn_ids_app l1 l2 : spawn_ids (l1 ++ l2) = spawn_ids l1 ++ spawn_ids l2.
Proof. apply omap_app. Qed.
Lemma task_ids_app l1 l2 : task_ids (l1 ++ l2) = task_ids l1 ++ task_ids l2.
Proof. apply omap_app. Qed.

Lemma cancels_late_spawn l id :
  cancels_late l -> (forall i, Cancel i ∈ l -> i <> id) -> cancels_late (l ++ [Spawn id]).
Proof.
  induction l as [|[i|i] l IH]; simpl; [done|..]; intros Hl Hi.
  - apply IH; [done|]. intros j Hj. apply Hi. by right.
  - destruct Hl as [Hn Hl]. split.
    + rewrite spawn_ids_app, not_elem_of_app. split; [done|]. simpl.
      rewrite list_elem_of_singleton. apply Hi. by left.
    + apply IH; [done|]. intros j Hj. apply Hi. by right.
Qed.

Lemma cancels_late_cancel l id : cancels_late l -> cancels_late (l ++ [Cancel id]).
Proof.
  induction l as [|[i|i] l IH]; simpl; [set_solver|done|]. intros [Hn Hl].
  split; [|by apply IH]. rewrite spawn_ids_app. set_solver.
Qed.

(** Changing a task's state keeps its id. *)
Lemma task_ids_alter f (h : nat) (l : list task) :
  task_ids (alter (fun t => mkTask (task_id t) (f (task_st t))) h l) = task_ids l.
Proof.
  revert h. induction l as [|t l IH]; intros [|h]; [done..|].
  specialize (IH h). unfold task_ids in *. simpl. destruct (task_id t); [f_equal|]; apply IH.
Qed.

Lemma task_lookup_alter f (h i : nat) (l : list task) id st :
  alter (fun t => mkTask (task_id t) (f (task_st t))) h l !! i = Some (mkTask id st) <->
  exists st0, l !! i = Some (mkTask id st0) /\ st = (if decide (h = i) then f st0 else st0).
Proof.
  rewrite list_lookup_alter. case_decide; subst.
  - destruct (l !! i) as [[id0 st0]|]; simpl; naive_solver.
  - naive_solver.
Qed.

Lemma task_ids_inj (l : list task) i j id st st' :
  NoDup (task_ids l) -> l !! i = Some (mkTask (Some id) st) ->
  l !! j = Some (mkTask (Some id) st') -> i = j.
Proof.
  revert i j. induction l as [|[o st0] l IH]; intros i j Hnd Hi Hj; [done|].
  assert (Hin : forall k st, l !! k = Some (mkTask (Some id) st) -> id ∈ task_ids l).
  { intros k st1 Hk. apply list_elem_of_omap. exists (mkTask (Some id) st1).
    split; [|done]. by eapply list_elem_of_lookup_2. }
  destruct i as [|i], j as [|j]; simpl in *; [done|..].
  - simplify_eq. unfold task_ids in Hnd. simpl in Hnd. apply NoDup_cons in Hnd as [Hn _].
    destruct Hn. eauto.
  - simplify_eq. unfold task_ids in Hnd. simpl in Hnd. apply NoDup_cons in Hnd as [Hn _].
    destruct Hn. eauto.
  - f_equal. eapply IH; eauto. unfold task_ids in *. simpl in Hnd.
    destruct o; simpl in Hnd; [by apply NoDup_cons in Hnd as [_ ?]|done].
Qed.

(** Operations that leave channels and counter alone keep [ids_ok]. *)
Lemma ids_ok_same s s' :
  ids_ok s -> next_task_id s' = next_task_id s -> commands s' = commands s ->
  task_ids (tasks s') = task_ids (tasks s) -> ids_ok s'.
Proof. intros [] Hn Hc Ht. split; rewrite ?Hn, ?Hc, ?Ht; done. Qed.

Lemma ids_ok_spawn_task s s' :
  ids_ok s -> next_task_id s' = next_task_id s + 1 ->
  commands s' = commands s ++ [Spawn (next_task_id s)] -> tasks s' = tasks s -> ids_ok s'.
Proof.
  intros [Hnd Hr Hc Hx Hl] Hn Hcm Ht.
  assert (Hfresh : next_task_id s ∉ spawn_ids (commands s) ++ task_ids (tasks s)).
  { intros Hin. rewrite Forall_forall in Hr. apply Hr in Hin. lia. }
  split; rewrite ?Hn, ?Hcm, ?Ht, ?spawn_ids_app; simpl.
  - rewrite <- (assoc_L (++)). simpl. rewrite <- Permutation_middle. by apply NoDup_cons.
  - rewrite <- (assoc_L (++)). simpl. rewrite <- Permutation_middle.
    constructor; [lia|]. eapply Forall_impl; [exact Hr|]. simpl. lia.
  - intros id [Hin|Hin]%elem_of_app; [apply Hc in Hin; lia|set_solver].
  - lia.
  - apply cancels_late_spawn; [done|]. intros i Hi. apply Hc in Hi. lia.
Qed.

Lemma ids_ok_cancel s s' id :
  ids_ok s -> 1 <= id < next_task_id s -> next_task_id s' = next_task_id s ->
  commands s' = commands s ++ [Cancel id] -> tasks s' = tasks s -> ids_ok s'.
Proof.
  intros [Hnd Hr Hc Hx Hl] Hid Hn Hcm Ht.
  split; rewrite ?Hn, ?Hcm, ?Ht, ?spawn_ids_app; simpl; rewrite ?app_nil_r; try done.
  - intros i [Hin|Hin]%elem_of_app; [by apply Hc|]. apply list_elem_of_singleton in Hin.
    by simplify_eq.
  - by apply cancels_late_cancel.
Qed.

(** Receiving [Spawn id] moves the id from the channel to the tasks. *)
Lemma ids_ok_recv_spawn s s' id rest :
  ids_ok s -> commands s = Spawn id :: rest -> next_task_id s' = next_task_id s ->
  commands s' = rest -> tasks s' = tasks s ++ [mkTask (Some id) (Live false)] ->
  ids_ok s' /\ id ∉ task_ids (tasks s).
Proof.
  intros [Hnd Hr Hc Hx Hl] Hcm Hn Hcm' Ht. rewrite Hcm in *.
  assert (HP : spawn_ids (commands s') ++ task_ids (tasks s') ≡ₚ
               spawn_ids (Spawn id :: rest) ++ task_ids (tasks s)).
  { rewrite Hcm', Ht, task_ids_app. simpl.
    rewrite (assoc_L (++)), (comm (++) _ [id]). done. }
  split; [split|].
  - by rewrite HP.
  - by rewrite HP, Hn.
  - rewrite Hn, Hcm'. intros i Hi. apply Hc. by right.
  - by rewrite Hn.
  - by rewrite Hcm'.
  - simpl in Hnd. apply NoDup_cons in Hnd as [Hnin _]. set_solver.
Qed.

Lemma ids_ok_recv_cancel s s' id rest :
  ids_ok s -> commands s = Cancel id :: rest -> next_task_id s' = next_task_id s ->
  commands s' = rest -> task_ids (tasks s') = task_ids (tasks s) -> ids_ok s'.
Proof.
  intros [Hnd Hr Hc Hx Hl] Hcm Hn Hcm' Ht. rewrite Hcm in *. simpl in Hl.
  split; rewrite ?Hn, ?Hcm', ?Ht; try done; [|by destruct Hl].
  intros i Hi. apply Hc. by right.
Qed.

Lemma map_ok_same s s' :
  map_ok s -> task_handles s' = task_handles s -> completions s' = completions s ->
  tasks s' = tasks s -> map_ok s'.
Proof. intros [] Hh Hc Ht. split; rewrite ?Hh, ?Hc, ?Ht; done. Qed.

(** A new task at the end of the local set. *)
Lemma lookup_snoc_task (l : list task) t h x :
  (l ++ [t]) !! h = Some x <-> l !! h = Some x \/ (h = length l /\ x = t).
Proof.
  rewrite lookup_snoc_Some. split; [|intros [Hl|[-> ->]]].
  - naive_solver.
  - left. split; [by eapply lookup_lt_Some|done].
  - by right.
Qed.

Lemma map_ok_local s s' :
  map_ok s -> task_handles s' = task_handles s -> completions s' = completions s ->
  tasks s' = tasks s ++ [mkTask None (Live false)] -> map_ok s'.
Proof.
  intros [Hs Hcm Hco] Hh Hc Ht. split; rewrite ?Hh, ?Hc, ?Ht.
  - intros id h Hid. destruct (Hs id h Hid) as (st & Hl & Hor).
    exists st. split; [|done]. apply lookup_snoc_task. by left.
  - intros id h st [Hl|[_ ?]]%lookup_snoc_task; [by eapply Hcm|done].
  - intros id Hid. destruct (Hco id Hid) as [h Hl]. exists h. apply lookup_snoc_task. by left.
Qed.

Lemma map_ok_recv_spawn s s' id :
  map_ok s -> id ∉ task_ids (tasks s) ->
  task_handles s' = <[id := length (tasks s)]> (task_handles s) ->
  completions s' = completions s ->
  tasks s' = tasks s ++ [mkTask (Some id) (Live false)] -> map_ok s'.
Proof.
  intros [Hs Hcm Hco] Hnew Hh Hc Ht.
  assert (Hne : forall i h st, tasks s !! h = Some (mkTask (Some i) st) -> i <> id).
  { intros i h st Hl ->. apply Hnew, list_elem_of_omap. exists (mkTask (Some id) st).
    split; [|done]. by eapply list_elem_of_lookup_2. }
  split; rewrite ?Hh, ?Hc, ?Ht.
  - intros i h [[-> <-]|[Hi Hl]]%lookup_insert_Some.
    + exists (Live false). split; [apply lookup_snoc_task; by right|by left].
    + destruct (Hs i h Hl) as (st & Hl' & Hor). exists st. split; [|done].
      apply lookup_snoc_task. by left.
  - intros i h st [Hl|[-> ?]]%lookup_snoc_task Hlive; simplify_eq.
    + rewrite lookup_insert_ne; [by eapply Hcm|]. apply not_eq_sym. by eapply Hne.
    + by rewrite lookup_insert_eq.
  - intros i Hi. destruct (Hco i Hi) as [h Hl]. exists h. apply lookup_snoc_task. by left.
Qed.

#[local] Abbreviation update f h l :=
  (alter (fun t => mkTask (task_id t) (f (task_st t))) h l).

(** A poll that does not finish, or anything done to a [spawn_local] task. *)
Lemma map_ok_poll s s' h id st f :
  map_ok s -> tasks s !! h = Some (mkTask id st) ->
  (id = None \/ (is_live st = true /\ is_live (f st) = true)) ->
  task_handles s' = task_handles s -> completions s' = completions s ->
  tasks s' = update f h (tasks s) -> map_ok s'.
Proof.
  intros [Hs Hcm Hco] Ht Hf Hh Hc Hts. split; rewrite ?Hh, ?Hc, ?Hts.
  - intros i k Hi. destruct (Hs i k Hi) as (st1 & Hl & Hor).
    exists (if decide (h = k) then f st1 else st1).
    split; [apply task_lookup_alter; eauto|]. case_decide; [|done]. subst k.
    assert (st1 = st) as -> by congruence. destruct Hf as [->|[? ?]]; [congruence|by left].
  - intros i k st1 (st0 & Hl & ->)%task_lookup_alter Hlive. eapply Hcm; [done|].
    case_decide; [|done]. subst k. destruct Hf as [->|[? ?]]; [congruence|].
    by assert (st0 = st) as -> by congruence.
  - intros i Hi. destruct (Hco i Hi) as [k Hk]. exists k. apply task_lookup_alter.
    exists Gone. split; [done|]. case_decide; [|done]. subst k.
    destruct Hf as [->|[Hl _]]; [congruence|]. by assert (st = Gone) as -> by congruence.
Qed.

(** A task leaves the local set: if it was live and submitted, its completion is
    in the channel. *)
Lemma map_ok_gone s s' h id st extra :
  map_ok s -> tasks s !! h = Some (mkTask id st) ->
  (forall i, i ∈ extra -> id = Some i) ->
  (forall i, id = Some i -> is_live st = true -> i ∈ extra) ->
  task_handles s' = task_handles s -> completions s' = completions s ++ extra ->
  tasks s' = update (fun _ => Gone) h (tasks s) -> map_ok s'.
Proof.
  intros [Hs Hcm Hco] Ht He1 He2 Hh Hc Hts. split; rewrite ?Hh, ?Hc, ?Hts.
  - intros i k Hi. destruct (Hs i k Hi) as (st1 & Hl & Hor).
    exists (if decide (h = k) then Gone else st1).
    split; [apply (task_lookup_alter (fun _ => Gone)); eauto|]. case_decide.
    + subst k. simplify_eq. right. split; [done|]. apply elem_of_app.
      destruct Hor as [Hlive|[_ ?]]; [right; by apply He2|by left].
    + destruct Hor as [?|[? ?]]; [by left|right; set_solver].
  - intros i k st1 (st0 & Hl & ->)%(task_lookup_alter (fun _ => Gone)) Hlive. case_decide; [done|]. by eapply Hcm.
  - intros i [Hi|Hi]%elem_of_app.
    + destruct (Hco i Hi) as [k Hk]. exists k. apply (task_lookup_alter (fun _ => Gone)).
      exists Gone. split; [done|]. by case_decide.
    + apply He1 in Hi as ->. exists h. apply (task_lookup_alter (fun _ => Gone)).
      exists st. split; [done|]. by rewrite decide_True.
Qed.

(** [Cancel id] found the handle: it leaves the map and its task is aborted. *)
Lemma map_ok_abort s s' id h :
  map_ok s -> NoDup (task_ids (tasks s)) -> task_handles s !! id = Some h ->
  task_handles s' = delete id (task_handles s) -> completions s' = completions s ->
  tasks s' = update abort_state h (tasks s) -> map_ok s'.
Proof.
  intros [Hs Hcm Hco] Hnd Hid Hh Hc Hts. destruct (Hs id h Hid) as (st & Hl & Hor).
  split; rewrite ?Hh, ?Hc, ?Hts.
  - intros i k [Hne Hi]%lookup_delete_Some. destruct (Hs i k Hi) as (st1 & Hl1 & Hor1).
    exists st1. split; [|done]. apply task_lookup_alter. exists st1. split; [done|].
    case_decide; [|done]. subst k. congruence.
  - intros i k st1 (st0 & Hl0 & ->)%task_lookup_alter Hlive. case_decide.
    + by destruct st0.
    + apply lookup_delete_Some. split; [|by eapply Hcm]. intros <-.
      assert (h = k); [|done]. by eapply task_ids_inj.
  - intros i Hi. destruct (Hco i Hi) as [k Hk]. exists k. apply task_lookup_alter.
    exists Gone. split; [done|]. by case_decide.
Qed.

(** A completion message removes the handle of a finished task. *)
Lemma map_ok_completion s s' id rest :
  map_ok s -> NoDup (task_ids (tasks s)) -> completions s = id :: rest ->
  completions s' = rest -> task_handles s' = delete id (task_handles s) ->
  tasks s' = tasks s -> map_ok s'.
Proof.
  intros [Hs Hcm Hco] Hnd Hc Hc' Hh Ht. rewrite Hc in *. split; rewrite ?Hh, ?Hc', ?Ht.
  - intros i k [Hne Hi]%lookup_delete_Some. destruct (Hs i k Hi) as (st & Hl & Hor).
    exists st. split; [done|]. set_solver.
  - intros i k st Hl Hlive. apply lookup_delete_Some. split; [|by eapply Hcm]. intros <-.
    destruct (Hco id) as [k' Hk']; [by left|].
    assert (k' = k) as -> by (by eapply task_ids_inj). by simplify_eq.
  - intros i Hi. apply Hco. by right.
Qed.

(** The exit of the loop aborts every handle of the map. *)
Lemma foldr_abort_tasks (l : list (Z * nat)) s h id st :
  tasks (foldr (fun '(_, h) s => abort h s) s l) !! h = Some (mkTask id st) ->
  exists st0, tasks s !! h = Some (mkTask id st0) /\
    (st = st0 \/ st = abort_state st0) /\ (h ∈ l.*2 -> st = abort_state st0).
Proof.
  revert st. induction l as [|[i k] l IH]; simpl; intros st Hl.
  - exists st. split; [done|]. split; [by left|]. set_solver.
  - apply task_lookup_alter in Hl as (st1 & Hl & ->).
    destruct (IH _ Hl) as (st0 & H0 & Hor & Hin). exists st0. split; [done|].
    case_decide; subst.
    + split; [right|intros _]; destruct Hor as [-> | ->]; by destruct st0.
    + split; [done|]. intros [?|?]%elem_of_cons; [congruence|by apply Hin].
Qed.

Lemma shutdown_no_live s h id st :
  map_ok s -> tasks (on_shutdown s) !! h = Some (mkTask (Some id) st) -> is_live st = false.
Proof.
  intros [Hs Hcm Hco] Hl. unfold on_shutdown in Hl. simpl in Hl.
  apply foldr_abort_tasks in Hl as (st0 & H0 & Hor & Hin).
  destruct (is_live st0) eqn:Hlive.
  - rewrite Hin; [by destruct st0|]. apply list_elem_of_fmap.
    exists (id, h). split; [done|]. apply elem_of_map_to_list. by eapply Hcm.
  - destruct Hor as [-> | ->]; by destruct st0.
Qed.

Lemma ids_ok_tasks s : ids_ok s -> NoDup (task_ids (tasks s)).
Proof. intros []. by apply NoDup_app in ids_nodup0 as (_ & _ & ?). Qed.

Lemma inv_new : inv new.
Proof.
  split; split; simpl; try done; try lia.
  - apply NoDup_nil_2.
  - by intros id ?%elem_of_nil.
  - by intros id ?%elem_of_nil.
Qed.

Lemma tasks_guard_drop id p s : tasks (guard_drop id p s) = tasks s.
Proof. by destruct id, p; simpl; repeat case_match. Qed.
Lemma park_guard_drop id p s : park (guard_drop id p s) = park s.
Proof. by destruct id, p; simpl; repeat case_match. Qed.

(** What a guard drop puts into the completion channel. *)
Definition guard_message (id : option Z) (polled : bool) : list Z :=
  match id with Some id => if polled then [id] else [] | None => [] end.

Lemma guard_drop_looping id p s : park s = Looping ->
  guard_drop id p s =
  mkExec (next_task_id s) (commands s) (completions s ++ guard_message id p)
    (task_handles s) (tasks s) (park s).
Proof.
  intros Hp. destruct s; simpl in *; subst. destruct id, p; simpl; by rewrite ?app_nil_r.
Qed.

Lemma inv_leave s h id st p :
  inv s -> park s = Looping -> tasks s !! h = Some (mkTask id st) ->
  (is_live st = true -> p = true) ->
  inv (guard_drop id p (set_task h (fun _ => Gone) s)).
Proof.
  intros Hi Hp Ht Hl. unfold inv in *. rewrite park_guard_drop. simpl. rewrite Hp in *.
  destruct Hi as [Hids Hmap]. rewrite guard_drop_looping by done. split.
  - eapply (ids_ok_same s); try done. apply (task_ids_alter (fun _ => Gone)).
  - eapply (map_ok_gone s _ h id st (guard_message id p)); try done.
    + intros i. destruct id, p; simpl; set_solver.
    + intros i -> Hlive. rewrite Hl by done. simpl. set_solver.
Qed.

Lemma inv_command s s' : inv s -> park s = Looping -> on_command s = Some s' -> inv s'.
Proof.
  intros Hi Hp Hc. unfold inv in Hi. rewrite Hp in Hi. destruct Hi as [Hids Hmap].
  unfold on_command in Hc. destruct (commands s) as [|[id|id] rest] eqn:E; simplify_eq.
  - unfold inv. simpl. rewrite Hp.
    edestruct (ids_ok_recv_spawn s) as [Hi' Hn]; [done|exact E|..]; cycle 3;
      [split; [exact Hi'|by eapply (map_ok_recv_spawn s)]|reflexivity..].
  - simpl. destruct (task_handles s !! id) as [h|] eqn:Eh; unfold inv; simpl; rewrite Hp.
    + split.
      * eapply (ids_ok_recv_cancel s); try done. apply task_ids_alter.
      * eapply (map_ok_abort s); try done. by apply ids_ok_tasks.
    + split; [by eapply (ids_ok_recv_cancel s)|by eapply (map_ok_same s)].
Qed.

Lemma inv_spawn_task s : inv s -> next_task_id s + 1 < 2 ^ 64 -> inv (spawn_task s).1.
Proof.
  intros Hi Hlt. unfold spawn_task, inv in *. simpl.
  case_bool_decide as Hp; simpl; [|by destruct (park s)]. rewrite Hp in *.
  destruct Hi as [Hids Hmap]. split; [|by eapply (map_ok_same s)].
  eapply (ids_ok_spawn_task s); try done. simpl. apply u64_id.
  destruct Hids. unfold is_u64. lia.
Qed.

Lemma inv_cancel s h : inv s -> issued h s = true -> inv (cancel h s).
Proof.
  intros Hi Hiss. unfold inv in *. destruct h as [h|id]; simpl in *.
  - destruct (tasks s !! h) as [[[]st]|] eqn:Ht; try done.
    destruct (park s).
    + destruct Hi as [Hids Hmap]. split.
      * eapply (ids_ok_same s); try done. apply task_ids_alter.
      * eapply (map_ok_poll s _ h None st abort_state); eauto.
    + intros k id st' (st0 & Hl & ->)%task_lookup_alter. case_decide; [congruence|by eapply Hi].
    + apply Forall_alter; [done|]. intros t _ Hg. simpl in *. by rewrite Hg.
  - apply bool_decide_eq_true in Hiss. case_bool_decide as Hp; [|done]. simpl. rewrite Hp in *.
    destruct Hi as [Hids Hmap].
    split; [by eapply (ids_ok_cancel s)|by eapply (map_ok_same s)].
Qed.

(** The whole executor: every call, every branch of the loop, every task step. *)
Lemma inv_step a s s' :
  inv s -> do_action a s = Some s' -> next_task_id s + 1 < 2 ^ 64 -> inv s'.
Proof.
  intros Hi Ha Hlt. unfold do_action in Ha.
  destruct (park s) eqn:Hp, a as [| |h| | | | |h|h|h]; try discriminate; simplify_eq;
    try (by apply inv_spawn_task);
    try (destruct (issued h s) eqn:Hiss; [|done]; simplify_eq; by apply inv_cancel).
  - unfold inv in *. simpl. rewrite Hp in *. destruct Hi as [Hids Hmap]. split.
    + eapply (ids_ok_same s); try done. simpl. rewrite task_ids_app. simpl. by rewrite app_nil_r.
    + by eapply (map_ok_local s).
  - unfold on_completion in Ha. destruct (completions s) as [|id rest] eqn:E; simplify_eq.
    unfold inv in *. simpl. rewrite Hp in *. destruct Hi as [Hids Hmap].
    split; [by eapply (ids_ok_same s)|].
    eapply (map_ok_completion s); try done. by apply ids_ok_tasks.
  - by eapply inv_command.
  - unfold inv in *. simpl. rewrite Hp in Hi. destruct Hi as [_ Hmap].
    intros h id st. by apply shutdown_no_live.
  - destruct (tasks s !! h) as [[id [p|p|]]|] eqn:Ht; simplify_eq.
    unfold inv in *. simpl. rewrite Hp in *. destruct Hi as [Hids Hmap]. split.
    + eapply (ids_ok_same s); try done. apply (task_ids_alter (fun _ => Live true)).
    + eapply (map_ok_poll s _ h id (Live p) (fun _ => Live true)); eauto.
  - destruct (tasks s !! h) as [[id [p|p|]]|] eqn:Ht; simplify_eq. by eapply inv_leave.
  - destruct (tasks s !! h) as [[id [p|p|]]|] eqn:Ht; simplify_eq. by eapply inv_leave.
  - unfold inv. simpl. apply Forall_fmap, Forall_true. done.
Qed.

Lemma executor_reachable_inv s : reachable s -> inv s.
Proof. induction 1; [apply inv_new|by eapply inv_step]. Qed.

(** ** Cancelled tasks stay stopped *)

Inductive steps (s : executor) : executor -> Prop :=
| steps_refl : steps s s
| steps_snoc s1 a s2 :
    steps s s1 -> do_action a s1 = Some s2 -> next_task_id s1 + 1 < 2 ^ 64 -> steps s s2.

Lemma steps_reachable s s' : reachable s -> steps s s' -> reachable s'.
Proof. intros Hr. induction 1; [done|by econstructor]. Qed.

(** No task with this id runs now, none is queued, and the id is used up. *)
Record stopped (id : Z) (s : executor) : Prop := {
  stopped_queue : id ∉ spawn_ids (commands s);
  stopped_tasks : forall h st, tasks s !! h = Some (mkTask (Some id) st) -> is_live st = false;
  stopped_used : 1 <= id < next_task_id s;
}.

(** A change of task states that never revives a task. *)
Lemma stopped_alter id s s' h f :
  stopped id s -> commands s' = commands s -> next_task_id s' = next_task_id s ->
  (forall st, tasks s !! h = Some (mkTask (Some id) st) ->
     is_live st = false -> is_live (f st) = false) ->
  tasks s' = update f h (tasks s) -> stopped id s'.
Proof.
  intros [Hq Ht Hu] Hc Hn Hf Hts. split; rewrite ?Hc, ?Hn, ?Hts; try done.
  intros k st (st0 & Hl & ->)%task_lookup_alter. specialize (Ht k st0 Hl).
  case_decide; [subst; by apply Hf|done].
Qed.

Lemma stopped_same id s s' :
  stopped id s -> commands s' = commands s -> next_task_id s' = next_task_id s ->
  tasks s' = tasks s -> stopped id s'.
Proof. intros [] Hc Hn Ht. split; rewrite ?Hc, ?Hn, ?Ht; done. Qed.

Lemma stopped_snoc_task id s s' o :
  stopped id s -> (forall i, i ∈ spawn_ids (commands s') -> i ∈ spawn_ids (commands s)) ->
  next_task_id s' = next_task_id s -> o <> Some id ->
  tasks s' = tasks s ++ [mkTask o (Live false)] -> stopped id s'.
Proof.
  intros [Hq Ht Hu] Hc Hn Ho Hts. split; rewrite ?Hn; [set_solver| |done].
  rewrite Hts. intros k st [Hl|[_ ?]]%lookup_snoc_task; [by eapply Ht|congruence].
Qed.

Lemma stopped_command id s s' : stopped id s -> on_command s = Some s' -> stopped id s'.
Proof.
  intros Hs Hc. unfold on_command in Hc.
  destruct (commands s) as [|[i|i] rest] eqn:E; simplify_eq; simpl.
  - pose proof Hs as [Hq _ _]. rewrite E in Hq. simpl in Hq.
    eapply (stopped_snoc_task id s _ (Some i)); simpl; try done; [|set_solver].
    intros j. rewrite E. simpl. set_solver.
  - assert (Hs' : stopped id (mkExec (next_task_id s) rest (completions s)
                                (task_handles s) (tasks s) (park s))).
    { destruct Hs as [Hq Ht Hu]. rewrite E in Hq. by split. }
    destruct (task_handles s !! i) as [h|]; [|done].
    eapply (stopped_alter _ _ _ h abort_state Hs'); try done. by intros [].
Qed.

Lemma stopped_shutdown id s : stopped id s -> stopped id (on_shutdown s).
Proof.
  intros [Hq Ht Hu]. unfold on_shutdown. split; simpl.
  - by intros ?%elem_of_nil.
  - intros h st (st0 & Hl & Hor & _)%foldr_abort_tasks. specialize (Ht h st0 Hl).
    destruct Hor as [-> | ->]; by destruct st0.
  - induction (map_to_list (task_handles s)) as [|[i h] l IH]; simpl; [done|]. exact IH.
Qed.

Lemma stopped_step id a s s' :
  stopped id s -> do_action a s = Some s' -> next_task_id s + 1 < 2 ^ 64 -> stopped id s'.
Proof.
  intros Hs Ha Hlt. pose proof Hs as [Hq Ht Hu]. unfold do_action in Ha.
  assert (Hspawn : stopped id (spawn_task s).1).
  { unfold spawn_task. simpl. assert (u64 (next_task_id s + 1) = next_task_id s + 1) as ->.
    { apply u64_id. unfold is_u64. lia. }
    case_bool_decide; split; simpl; rewrite ?spawn_ids_app; simpl; try done; try lia.
    rewrite not_elem_of_app, list_elem_of_singleton. split; [done|lia]. }
  assert (Hcancel : forall h, stopped id (cancel h s)).
  { intros [h|i]; simpl; [eapply (stopped_alter _ _ _ h abort_state Hs); try done; by intros []|].
    case_bool_decide; [|done]. split; simpl; try done. rewrite spawn_ids_app. simpl.
    by rewrite app_nil_r. }
  assert (Hgone : forall o p h, stopped id (guard_drop o p (set_task h (fun _ => Gone) s))).
  { intros o p h. eapply (stopped_alter _ _ _ h (fun _ => Gone) Hs); [..|by rewrite tasks_guard_drop];
      try done; destruct o, p; simpl; by repeat case_match. }
  destruct (park s) eqn:Hp, a as [| |h| | | | |h|h|h]; try discriminate; simplify_eq; try done;
    try (destruct (issued h s); [|done]; simplify_eq; by apply Hcancel);
    try (destruct (tasks s !! h) as [[o [p|p|]]|] eqn:El; simplify_eq; by apply Hgone).
  - eapply (stopped_snoc_task id s _ None); simpl; done.
  - unfold on_completion in Ha. destruct (completions s); simplify_eq. by eapply (stopped_same _ s).
  - exact (stopped_command id s s' Hs Ha).
  - by apply stopped_shutdown.
  - destruct (tasks s !! h) as [[o [p|p|]]|] eqn:El; simplify_eq.
    eapply (stopped_alter _ _ _ h (fun _ => Live true) Hs); try done.
    intros st Hst Hl. by simplify_eq.
  - split; simpl; try done. intros k st. rewrite list_lookup_fmap.
    destruct (tasks s !! k); simpl; [|done]. intros [= _ <-]. done.
Qed.

(** Receiving [Cancel id] stops the task with that id. *)
Lemma recv_cancel_stops id s s' rest :
  ids_ok s -> map_ok s -> commands s = Cancel id :: rest -> on_command s = Some s' ->
  stopped id s'.
Proof.
  intros Hids Hmap E Hc. unfold on_command in Hc. rewrite E in Hc. simplify_eq. simpl.
  pose proof Hids as [_ _ Hcr _ Hl]. rewrite E in Hcr, Hl. destruct Hl as [Hlate _].
  assert (Hu : 1 <= id < next_task_id s) by (apply Hcr; by left).
  destruct (task_handles s !! id) as [h|] eqn:Eh; split; simpl; try done.
  - intros k st (st0 & Hk & ->)%task_lookup_alter.
    destruct (map_sound s Hmap id h Eh) as (st1 & Hh & _).
    assert (h = k) as -> by (eapply task_ids_inj; [by apply ids_ok_tasks|done..]).
    rewrite decide_True by done. by destruct st0.
  - intros k st Hk. destruct (is_live st) eqn:El; [|done].
    rewrite (map_complete s Hmap id k st Hk El) in Eh. done.
Qed.

(** ** Draining the command channel *)

Fixpoint drain (n : nat) (s : executor) : option executor :=
  match n with
  | O => Some s
  | S n => match on_command s with Some s' => drain n s' | None => None end
  end.

Lemma on_command_tail c rest s : commands s = c :: rest ->
  exists s', on_command s = Some s' /\ commands s' = rest.
Proof.
  intros E. unfold on_command. rewrite E. eexists; split; [done|].
  destruct c; simpl; [done|]. by case_match.
Qed.

Lemma drain_last s l id : commands s = l ++ [Spawn id] ->
  exists s' h, drain (S (length l)) s = Some s' /\ commands s' = [] /\
    tasks s' !! h = Some (mkTask (Some id) (Live false)) /\ task_handles s' !! id = Some h.
Proof.
  revert s. induction l as [|c l IH]; intros s E.
  - simpl in E. simpl. unfold on_command. rewrite E. do 2 eexists. split; [done|]. simpl.
    split; [done|]. split; [|by apply lookup_insert_eq]. apply lookup_snoc_task. by right.
  - destruct (on_command_tail c (l ++ [Spawn id]) s E) as (s1 & H1 & E1).
    destruct (IH s1 E1) as (s' & h & Hd & Hrest). exists s', h. split; [|done].
    change (drain (S (length (c :: l))) s) with
      (match on_command s with Some s' => drain (S (length l)) s' | None => None end).
    by rewrite H1.
Qed.

Lemma reachable_looping s : reachable s -> park s = Looping -> ids_ok s /\ map_ok s.
Proof. intros Hr Hp. pose proof (executor_reachable_inv s Hr) as Hi. unfold inv in Hi. by rewrite Hp in Hi. Qed.

(** ** Cancelled tasks, from the cancel on *)

Lemma next_on_shutdown s : next_task_id (on_shutdown s) = next_task_id s.
Proof.
  unfold on_shutdown. simpl.
  induction (map_to_list (task_handles s)) as [|[i h] l IH]; simpl; [done|]. exact IH.
Qed.

Lemma on_command_park s s' : on_command s = Some s' ->
  next_task_id s' = next_task_id s /\ park s' = park s.
Proof.
  unfold on_command. destruct (commands s) as [|[id|id] rest]; intros E; simplify_eq; [done|].
  by case_match.
Qed.

(** A step that is not a receive only appends to the command channel. *)
Definition appends (s s' : executor) : Prop :=
  next_task_id s <= next_task_id s' /\ park s' = park s /\
  exists l, commands s' = commands s ++ l.

Lemma appends_same s s' :
  next_task_id s' = next_task_id s -> park s' = park s -> commands s' = commands s ->
  appends s s'.
Proof. intros Hn Hp Hc. split; [lia|]. split; [done|]. exists []. by rewrite app_nil_r. Qed.

Lemma appends_cancel h s : appends s (cancel h s).
Proof.
  destruct h as [h|id]; simpl; [by apply appends_same|].
  case_bool_decide; [|by apply appends_same]. split; simpl; [lia|]. eauto.
Qed.

Lemma appends_guard s o p h f : appends s (guard_drop o p (set_task h f s)).
Proof. destruct o; simpl; [|by apply appends_same]. case_match; by apply appends_same. Qed.

Lemma appends_spawn_task s :
  0 <= next_task_id s -> next_task_id s + 1 < 2 ^ 64 -> appends s (spawn_task s).1.
Proof.
  intros H0 Hlt. unfold spawn_task, appends. simpl. rewrite u64_id by (unfold is_u64; lia).
  case_bool_decide; simpl; (split; [lia|]); split; try done; eauto.
  exists []. by rewrite app_nil_r.
Qed.

(** What a step does to the command channel and to the counter. *)
Lemma step_channel a s s' :
  do_action a s = Some s' -> next_task_id s + 1 < 2 ^ 64 -> 0 <= next_task_id s ->
  appends s s' \/ (next_task_id s' = next_task_id s /\
                   (park s' <> Looping \/ (park s = Looping /\ on_command s = Some s'))).
Proof.
  intros Ha Hlt H0. unfold do_action in Ha.
  destruct (park s) eqn:Hp, a as [| |h| | | | |h|h|h]; try discriminate;
    try (simplify_eq; left; by apply appends_spawn_task);
    try (destruct (issued h s); simplify_eq; left; apply appends_cancel);
    try (destruct (tasks s !! h) as [[? []]|]; simplify_eq; left;
         first [apply appends_guard | by apply appends_same]).
  - simplify_eq. left. by apply appends_same.
  - unfold on_completion in Ha. destruct (completions s); simplify_eq. left. by apply appends_same.
  - right. split; [|by right]. by apply on_command_park.
  - simplify_eq. right. split; [apply next_on_shutdown|by left].
  - simplify_eq. right. split; [done|by left].
Qed.

(** The loop does not start again. *)
Lemma ended_step a s s' : do_action a s = Some s' -> park s <> Looping -> park s' <> Looping.
Proof.
  intros Ha Hp. unfold do_action in Ha.
  destruct (park s) eqn:E, a as [| |h| | | | |h|h|h]; try discriminate; try done;
    try (destruct (issued h s); simplify_eq; destruct h; simpl; rewrite ?E; simpl; by rewrite ?E);
    try (by simplify_eq);
    simplify_eq; unfold spawn_task; simpl; rewrite E; simpl; by rewrite ?E.
Qed.

Lemma ended_steps s s' : steps s s' -> park s <> Looping -> park s' <> Looping.
Proof. induction 1; [done|]. intros Hp. eapply ended_step; eauto. Qed.

(** A task that is cancelled or whose worker has ended: the command is on its way,
    or nothing with this id can run. *)
Definition doomed (id : Z) (s : executor) : Prop :=
  park s = Looping -> Cancel id ∈ commands s \/ stopped id s.

Lemma doomed_step id a s s' :
  reachable s -> doomed id s -> do_action a s = Some s' -> next_task_id s + 1 < 2 ^ 64 ->
  doomed id s'.
Proof.
  intros Hr Hd Ha Hlt Hp'.
  assert (H0 : 0 <= next_task_id s \/ park s <> Looping).
  { destruct (park s) eqn:Hp; [left|by right..].
    destruct (reachable_looping s Hr Hp) as [[_ _ _ ? _] _]. lia. }
  assert (Hps : park s = Looping).
  { destruct (decide (park s = Looping)) as [?|Hn]; [done|]. by destruct (ended_step a s s' Ha Hn). }
  destruct H0 as [H0|]; [|done]. destruct (reachable_looping s Hr Hps) as [Hids Hmap].
  destruct (Hd Hps) as [Hc|Hst]; [|right; by eapply stopped_step].
  destruct (step_channel a s s' Ha Hlt H0) as [(_ & _ & l & ->)|(_ & [?|[_ Ho]])]; [|done|].
  - left. rewrite elem_of_app. by left.
  - destruct (commands s) as [|c rest] eqn:E; [by apply elem_of_nil in Hc|].
    destruct (on_command_tail c rest s E) as (s1 & H1 & E1).
    assert (s1 = s') as -> by congruence.
    apply elem_of_cons in Hc as [<-|Hc]; [right; by eapply recv_cancel_stops|left; by rewrite E1].
Qed.

Lemma doomed_cancel id s : doomed id (cancel (Remote id) s).
Proof.
  intros Hp. simpl in *. case_bool_decide; [|done]. left. simpl. set_solver.
Qed.

Lemma doomed_steps id s s' : reachable s -> doomed id s -> steps s s' -> doomed id s'.
Proof.
  intros Hr Hd. induction 1 as [|s1 a s2 Hst IH Ha Hlt]; [done|].
  eapply doomed_step; [|exact IH|exact Ha|done]. by eapply steps_reachable.
Qed.

Lemma steps_join s1 s2 s3 : steps s1 s2 -> steps s2 s3 -> steps s1 s3.
Proof. intros H1. induction 1; [done|by econstructor]. Qed.

(** All commands queued so far can be received, which empties the channel. *)
Lemma drain_all s : park s = Looping -> next_task_id s + 1 < 2 ^ 64 ->
  exists s', drain (length (commands s)) s = Some s' /\ commands s' = [] /\ steps s s' /\
    park s' = Looping.
Proof.
  remember (commands s) as l eqn:E. revert s E. induction l as [|c l IH]; intros s E Hp Hlt.
  - exists s. simpl. repeat split; try done. constructor.
  - destruct (on_command_tail c l s (eq_sym E)) as (s1 & H1 & E1).
    destruct (on_command_park s s1 H1) as [Hn1 Hp1].
    destruct (IH s1 (eq_sym E1)) as (s' & Hd & Hc & Hs & Hps); [by rewrite Hp1|by rewrite Hn1|].
    exists s'. simpl. rewrite H1. split; [done|]. split; [done|]. split; [|done].
    eapply steps_join; [|exact Hs]. eapply (steps_snoc s s RecvCommand); [constructor| |done].
    unfold do_action. by rewrite Hp.
Qed.

(** No submitted task with this id is live, whatever happens from here on. *)
Definition dead (id : Z) (s : executor) : Prop :=
  forall s' h st, steps s s' -> tasks s' !! h = Some (mkTask (Some id) st) -> is_live st = false.

Lemma doomed_ended id s : reachable s -> doomed id s ->
  (park s = Looping -> Cancel id ∉ commands s) -> dead id s.
Proof.
  intros Hr Hd Hc s' h st Hs Hl. destruct (park s) eqn:Hp.
  1: { destruct (Hd Hp) as [Hin|Hst]; [by destruct (Hc eq_refl)|].
       assert (stopped id s') as [_ Ht _]; [|by eapply Ht].
       clear Hl. induction Hs; [done|by eapply stopped_step]. }
  all: assert (Hp' : park s' <> Looping) by (apply (ended_steps s s' Hs); by rewrite Hp).
  all: pose proof (executor_reachable_inv s' (steps_reachable _ _ Hr Hs)) as Hi; unfold inv in Hi;
    destruct (park s') eqn:E; [done|by eapply Hi|].
  all: rewrite Forall_lookup in Hi; specialize (Hi _ _ Hl); simpl in Hi; by subst.
Qed.

(** ** Properties *)

(** C27: The handle map neither loses nor leaks tasks: while the worker
    runs and every completion message has been received, it holds exactly the live
    submitted tasks, each under its own id. *)
Theorem handles_are_live_tasks s id h :
  reachable s -> park s = Looping -> completions s = [] ->
  task_handles s !! id = Some h <->
  exists polled, tasks s !! h = Some (mkTask (Some id) (Live polled)).
Proof.
  intros Hr Hp Hc. destruct (reachable_looping s Hr Hp) as [_ Hmap]. split.
  - intros Hid. destruct (map_sound s Hmap id h Hid) as (st & Hl & [Hlive|[_ Hin]]).
    + destruct st; try done. eauto.
    + rewrite Hc in Hin. by apply elem_of_nil in Hin.
  - intros [p Hl]. by eapply (map_complete s Hmap).
Qed.

(** Cancelling works: once the worker has received the cancel command
    of a task, no task with that id is live and none is queued, now and after any
    further calls, messages and task steps. *)
Theorem cancelled_task_never_runs s id rest s1 s2 :
  reachable s -> park s = Looping -> commands s = Cancel id :: rest ->
  on_command s = Some s1 -> steps s1 s2 ->
  (forall h st, tasks s2 !! h = Some (mkTask (Some id) st) -> is_live st = false) /\
  id ∉ spawn_ids (commands s2).
Proof.
  intros Hr Hp Hc H1 Hst. destruct (reachable_looping s Hr Hp) as [Hids Hmap].
  assert (Hs : stopped id s2).
  { induction Hst; [by eapply recv_cancel_stops|by eapply stopped_step]. }
  by destruct Hs.
Qed.

(** Shutdown: after the loop has ended no submitted task is live,
    and when [park_until_shutdown] has returned every task is gone. *)
Theorem shutdown_stops_tasks s :
  reachable s ->
  (park s <> Looping ->
     forall h id st, tasks s !! h = Some (mkTask (Some id) st) -> is_live st = false) /\
  (park s = Returned -> forall h t, tasks s !! h = Some t -> task_st t = Gone).
Proof.
  intros Hr. pose proof (executor_reachable_inv s Hr) as Hi. unfold inv in Hi. split.
  - intros Hp h id st Hl. destruct (park s); [done|by eapply Hi|].
    rewrite Forall_lookup in Hi. specialize (Hi _ _ Hl). simpl in Hi. by subst.
  - intros Hp h t Hl. rewrite Hp in Hi. by eapply (Forall_lookup_1 _ _ _ _ Hi).
Qed.

(** Submission: on a running worker [spawn_task] returns a fresh
    id, and receiving the commands queued so far spawns the task and registers its
    handle; on a stopped worker it fails with [BrokenPipe] and queues nothing. *)
Theorem spawn_task_spec s :
  reachable s -> next_task_id s + 1 < 2 ^ 64 ->
  match park s with
  | Looping =>
      exists id s' s'' h,
        spawn_task s = (s', Ok (Remote id)) /\
        id ∉ spawn_ids (commands s) /\ id ∉ task_ids (tasks s) /\
        drain (length (commands s')) s' = Some s'' /\
        tasks s'' !! h = Some (mkTask (Some id) (Live false)) /\ task_handles s'' !! id = Some h
  | _ => exists s', spawn_task s = (s', Err worker_stopped) /\
                    commands s' = commands s /\ tasks s' = tasks s
  end.
Proof.
  intros Hr Hlt. destruct (park s) eqn:Hp.
  2,3: unfold spawn_task; simpl; rewrite Hp; by eexists.
  destruct (reachable_looping s Hr Hp) as [[_ Hrange _ _ _] _].
  rewrite Forall_app, !Forall_forall in Hrange. destruct Hrange as [Hq Ht].
  set (s' := (spawn_task s).1).
  assert (Hs : spawn_task s = (s', Ok (Remote (next_task_id s)))).
  { unfold s', spawn_task. simpl. by rewrite Hp. }
  assert (Hc : commands s' = commands s ++ [Spawn (next_task_id s)]).
  { unfold s', spawn_task. simpl. by rewrite Hp. }
  destruct (drain_last s' (commands s) _ Hc) as (s'' & h & Hd & _ & Htask & Hh).
  exists (next_task_id s), s', s'', h. rewrite Hc, length_app, Nat.add_1_r.
  split; [done|]. split; [intros ?%Hq; lia|]. split; [intros ?%Ht; lia|]. done.
Qed.

(** *** Concrete runs *)

Fixpoint run_actions (l : list action) (s : executor) : option executor :=
  match l with
  | [] => Some s
  | a :: l => if bool_decide (next_task_id s + 1 < 2 ^ 64)
              then do_action a s ≫= run_actions l else None
  end.

Lemma run_actions_reachable l s s' : reachable s -> run_actions l s = Some s' -> reachable s'.
Proof.
  revert s. induction l as [|a l IH]; simpl; intros s Hr Hs; [by simplify_eq|].
  case_bool_decide; [|done]. destruct (do_action a s) as [s1|] eqn:E; [|done].
  eapply IH; [|done]. by econstructor.
Qed.

(** One task runs, a second is cancelled while still queued. *)
Definition demo_state : executor :=
  mkExec 3 [Cancel 2] [] (<[2 := 1%nat]> {[1 := 0%nat]})
    [mkTask (Some 1) (Live true); mkTask (Some 2) (Live false)] Looping.

Lemma demo_reachable : reachable demo_state.
Proof.
  apply (run_actions_reachable
    [SpawnTask; RecvCommand; Poll 0; SpawnTask; CancelHandle (Remote 2); RecvCommand] new).
  - constructor.
  - reflexivity.
Qed.

Lemma handles_are_live_tasks_witness :
  task_handles demo_state !! 1 = Some 0%nat <->
  exists polled, tasks demo_state !! 0%nat = Some (mkTask (Some 1) (Live polled)).
Proof. apply (handles_are_live_tasks demo_state); [apply demo_reachable|reflexivity..]. Defined.

Lemma cancelled_task_never_runs_witness :
  exists s1, on_command demo_state = Some s1 /\
    forall h st, tasks s1 !! h = Some (mkTask (Some 2) st) -> is_live st = false.
Proof.
  eexists; split; [reflexivity|].
  eapply (cancelled_task_never_runs demo_state 2 [] _ _ demo_reachable);
    [reflexivity..|apply steps_refl].
Defined.

Lemma shutdown_stops_tasks_witness :
  park (on_shutdown demo_state) = Exited /\
  forall h id st, tasks (on_shutdown demo_state) !! h = Some (mkTask (Some id) st) ->
                  is_live st = false.
Proof.
  split; [reflexivity|]. apply (shutdown_stops_tasks (on_shutdown demo_state)); [|discriminate].
  apply (run_actions_reachable [Shutdown] demo_state); [apply demo_reachable|reflexivity].
Defined.

Lemma spawn_task_spec_witness :
  exists id s' s'' h,
    spawn_task demo_state = (s', Ok (Remote id)) /\
    id ∉ spawn_ids (commands demo_state) /\ id ∉ task_ids (tasks demo_state) /\
    drain (length (commands s')) s' = Some s'' /\
    tasks s'' !! h = Some (mkTask (Some id) (Live false)) /\ task_handles s'' !! id = Some h.
Proof. apply (spawn_task_spec demo_state); [apply demo_reachable|simpl; lia]. Defined.

End Tokio.
