(* ===== verification/AsyncStd.v ===== *)
(** * Worker executor (async-std runtime): [src/src/runtime/async_std.rs]

    The alternative runtime.  A [CurrentThreadExecutor] is a shared
    [async_executor::Executor] with the thread that created it; any thread may queue
    futures on it, and a thread runs them while it is inside [block_on].  Tasks that
    are not [Send] live in the local queue of their thread
    ([async_std::task::spawn_local]); a task submitted from another thread is a
    wrapper future that, once polled, spawns the real task locally.

    The libraries are third-party: an executor is the list of its tasks, of which a
    thread in [block_on] polls any; dropping a [Task] drops its future, [detach] and
    dropping a [JoinHandle] leave it alone; the local tasks of a thread are dropped
    when the thread ends. *)

From S2P Require Import Prelude Errors.

Module AsyncStd.

(** A submitted task (the closure or the future), by the order of submission. *)
Abbreviation job := nat.
Abbreviation thread := nat.

(** What an executor task polls: the future given to [spawn], or the wrapper that
    [spawn_task] builds around a closure. *)
Inductive work := Future (j : job) | Wrapper (j : job).

Inductive exec_state := Queued | Started | Over.
Record exec_task := mkExecTask { exec_work : work; exec_st : exec_state }.

Record executor := mkExecutor { owner_thread : thread; exec_tasks : list exec_task }.

(** A task of a thread's local queue. *)
Record local_task := mkLocal { local_job : job; local_thread : thread; local_live : bool }.

(** An active [block_on]: its executor and the [previous] value it will restore. *)
Record frame := mkFrame { frame_executor : nat; previous : option nat }.

Record state := mkState {
  executors : list executor;
  current : gmap thread nat;          (* CURRENT_EXECUTOR of each thread *)
  frames : gmap thread (list frame);  (* active block_on calls, innermost first *)
  locals : list local_task;
  submitted : list nat;               (* the executor each job was given to *)
  exited : gset thread;
}.

(** [TaskHandleInner]: positions of an executor task or of a local task. *)
Inductive TaskHandle := Executor (e i : nat) | Local (k : nat).

#[global] Instance work_eq_dec : EqDecision work.
Proof. solve_decision. Defined.
#[global] Instance exec_state_eq_dec : EqDecision exec_state.
Proof. solve_decision. Defined.
#[global] Instance TaskHandle_eq_dec : EqDecision TaskHandle.
Proof. solve_decision. Defined.

Definition init : state := mkState [] ∅ ∅ [] [] ∅.

Definition work_job (w : work) : job := match w with Future j | Wrapper j => j end.

Definition stack (t : thread) (s : state) : list frame := default [] (frames s !! t).

(** ** Operations, on the thread [t] that calls them *)

(** [CurrentThreadExecutor::new] *)
Definition new (t : thread) (s : state) : nat * state :=
  (length (executors s),
   mkState (executors s ++ [mkExecutor t []]) (current s) (frames s) (locals s)
     (submitted s) (exited s)).

Definition is_owner_thread (t : thread) (e : nat) (s : state) : bool :=
  bool_decide (owner_thread <$> executors s !! e = Some t).

Definition set_executors (l : list executor) (s : state) : state :=
  mkState l (current s) (frames s) (locals s) (submitted s) (exited s).
Definition set_locals (l : list local_task) (s : state) : state :=
  mkState (executors s) (current s) (frames s) l (submitted s) (exited s).

(** [async_executor::Executor::spawn] *)
Definition push_task (w : work) (ex : executor) : executor :=
  mkExecutor (owner_thread ex) (exec_tasks ex ++ [mkExecTask w Queued]).
Definition executor_spawn (e : nat) (w : work) (s : state) : nat * state :=
  (match executors s !! e with Some ex => length (exec_tasks ex) | None => 0%nat end,
   set_executors (alter (push_task w) e (executors s)) s).

(** [CurrentThreadExecutor::spawn] *)
Definition spawn (e : nat) (w : work) (s : state) : state * io_result TaskHandle :=
  let '(i, s) := executor_spawn e w s in (s, Ok (Executor e i)).

Definition not_owner : Io.Error :=
  Io.mkError Io.InvalidInput "local task must be spawned on the executor owner thread".

(** [local_spawn_task] *)
Definition local_spawn_task (t : thread) (e : nat) (j : job) (s : state) :
    state * io_result TaskHandle :=
  if negb (is_owner_thread t e s) then (s, Err not_owner)
  else (set_locals (locals s ++ [mkLocal j t true]) s, Ok (Local (length (locals s)))).

(** [spawn_task] *)
Definition spawn_task (t : thread) (e : nat) (j : job) (s : state) :
    state * io_result TaskHandle :=
  if is_owner_thread t e s then local_spawn_task t e j s
  else spawn e (Wrapper j) s.

Definition no_current_executor : Io.Error :=
  Io.mkError Io.NotConnected "no current sfo-reuseport async-std executor on this thread".

(** [runtime::spawn_local] *)
Definition spawn_local (t : thread) (j : job) (s : state) : state * io_result TaskHandle :=
  match current s !! t with
  | Some e => local_spawn_task t e j s
  | None => (s, Err no_current_executor)
  end.

(** [block_on], up to the run of its future and from there on. *)
Definition block_on_enter (t : thread) (e : nat) (s : state) : state :=
  mkState (executors s) (<[t := e]> (current s))
    (<[t := mkFrame e (current s !! t) :: stack t s]> (frames s))
    (locals s) (submitted s) (exited s).

Definition block_on_leave (t : thread) (s : state) : option state :=
  match stack t s with
  | [] => None
  | f :: rest =>
      Some (mkState (executors s) (partial_alter (fun _ => previous f) t (current s))
              (<[t := rest]> (frames s)) (locals s) (submitted s) (exited s))
  end.

(** State changes of single tasks. *)
Definition set_exec_st (st : exec_state) (x : exec_task) : exec_task :=
  mkExecTask (exec_work x) st.
Definition alter_task (i : nat) (st : exec_state) (ex : executor) : executor :=
  mkExecutor (owner_thread ex) (alter (set_exec_st st) i (exec_tasks ex)).
Definition set_exec (e i : nat) (st : exec_state) (s : state) : state :=
  set_executors (alter (alter_task i st) e (executors s)) s.
Definition kill_local (x : local_task) : local_task :=
  mkLocal (local_job x) (local_thread x) false.
Definition end_local (k : nat) (s : state) : state :=
  set_locals (alter kill_local k (locals s)) s.

Definition get_task (e i : nat) (s : state) : option exec_task :=
  ex ← executors s !! e; exec_tasks ex !! i.

(** [TaskHandle::cancel]: dropping an executor task drops its future. *)
Definition cancel (h : TaskHandle) (s : state) : state :=
  match h with
  | Executor e i => set_exec e i Over s
  | Local k => end_local k s
  end.

(** [Drop for TaskHandle]: detached, the task goes on. *)
Definition drop_handle (h : TaskHandle) (s : state) : state := s.

(** The future of the wrapper: [let _ = executor.local_spawn_task(task());]. *)
Definition run_wrapper (t : thread) (e : nat) (j : job) (s : state) : state :=
  match local_spawn_task t e j s with
  | (s, Ok h) => drop_handle h s
  | (s, Err _) => s
  end.

(** A poll of an executor task on the thread [t]; [done]: the future finishes. *)
Definition poll_exec (t : thread) (e i : nat) (done : bool) (s : state) : option state :=
  match get_task e i s with
  | Some (mkExecTask (Wrapper j) Queued) => Some (run_wrapper t e j (set_exec e i Over s))
  | Some (mkExecTask (Future j) (Queued | Started)) =>
      Some (set_exec e i (if done then Over else Started) s)
  | _ => None
  end.

(** The end of a thread: its local tasks are dropped. *)
Definition thread_exit (t : thread) (s : state) : state :=
  mkState (executors s) (current s) (frames s)
    ((fun x => if bool_decide (local_thread x = t) then kill_local x else x) <$> locals s)
    (submitted s) ({[t]} ∪ exited s).

(** ** Steps *)

Inductive action :=
| New (t : thread)
| Enter (t : thread) (e : nat)
| Leave (t : thread)
| Spawn (t : thread) (e : nat)
| SpawnTask (t : thread) (e : nat)
| SpawnLocal (t : thread)
| Cancel (t : thread) (h : TaskHandle)
| DropHandle (t : thread) (h : TaskHandle)
| PollExec (t : thread) (e i : nat) (done : bool)
| PollLocal (t : thread) (k : nat) (done : bool)
| Exit (t : thread).

Definition thread_of (a : action) : thread :=
  match a with
  | New t | Enter t _ | Leave t | Spawn t _ | SpawnTask t _ | SpawnLocal t | Cancel t _
  | DropHandle t _ | PollExec t _ _ _ | PollLocal t _ _ | Exit t => t
  end.

(** A new job is given to executor [e]. *)
Definition submit (e : nat) (s : state) : state :=
  mkState (executors s) (current s) (frames s) (locals s) (submitted s ++ [e]) (exited s).

Definition do_action (a : action) (s : state) : option state :=
  let j := length (submitted s) in
  if bool_decide (thread_of a ∈ exited s) then None else
  match a with
  | New t => Some (new t s).2
  | Enter t e =>
      if bool_decide (e < length (executors s))%nat then Some (block_on_enter t e s) else None
  | Leave t => block_on_leave t s
  | Spawn t e =>
      if bool_decide (e < length (executors s))%nat
      then Some (spawn e (Future j) (submit e s)).1 else None
  | SpawnTask t e =>
      if bool_decide (e < length (executors s))%nat
      then Some (spawn_task t e j (submit e s)).1 else None
  | SpawnLocal t =>
      match current s !! t with
      | Some e => Some (spawn_local t j (submit e s)).1
      | None => Some (spawn_local t j s).1
      end
  | Cancel _ h => Some (cancel h s)
  | DropHandle _ h => Some (drop_handle h s)
  | PollExec t e i done =>
      match stack t s with
      | f :: _ => if bool_decide (frame_executor f = e) then poll_exec t e i done s else None
      | [] => None
      end
  | PollLocal t k done =>
      match stack t s, locals s !! k with
      | _ :: _, Some (mkLocal _ t' true) =>
          if bool_decide (t' = t) then Some (if (done : bool) then end_local k s else s) else None
      | _, _ => None
      end
  | Exit t => match stack t s with [] => Some (thread_exit t s) | _ => None end
  end.

Inductive steps (s : state) : state -> Prop :=
| steps_refl : steps s s
| steps_snoc s1 a s2 : steps s s1 -> do_action a s1 = Some s2 -> steps s s2.

Definition reachable (s : state) : Prop := steps init s.

Lemma steps_trans s1 s2 s3 : steps s1 s2 -> steps s2 s3 -> steps s1 s3.
Proof. intros H12. induction 1; [done|by econstructor]. Qed.

(** ** Where a job is *)

Inductive place := InExec (e i : nat) | InLocal (k : nat).

(** A job waits or runs in an executor, or was spawned on a thread. *)
Definition holds (s : state) (j : job) (p : place) : Prop :=
  match p with
  | InExec e i => exists w st, get_task e i s = Some (mkExecTask w st) /\ work_job w = j /\ st <> Over
  | InLocal k => exists t l, locals s !! k = Some (mkLocal j t l)
  end.

(** Handed in before, and in no place any more. *)
Definition spent (j : job) (s : state) : Prop :=
  (j < length (submitted s))%nat /\ forall p, ~ holds s j p.

(** The job never became a task of a thread. *)
Definition never_local (j : job) (s : state) : Prop :=
  forall k t l, locals s !! k <> Some (mkLocal j t l).

(** [previous] of each frame is the executor of the frame below it. *)
Fixpoint chained (l : list frame) : Prop :=
  match l with
  | [] => True
  | f :: rest => previous f = frame_executor <$> head rest /\ chained rest
  end.

(** Jobs are where they were sent, in one place. *)
Record placed (s : state) : Prop := {
  placed_exec : forall e i x, get_task e i s = Some x -> submitted s !! work_job (exec_work x) = Some e;
  placed_local : forall k j t l, locals s !! k = Some (mkLocal j t l) ->
    exists e, submitted s !! j = Some e /\ is_owner_thread t e s = true;
  placed_once : forall j p p', holds s j p -> holds s j p' -> p = p';
}.

(** [CURRENT_EXECUTOR] is the executor of the innermost [block_on]. *)
Record framed (s : state) : Prop := {
  framed_current : forall t, current s !! t = frame_executor <$> head (stack t s);
  framed_chain : forall t, chained (stack t s);
}.

Lemma get_task_push e i s e0 w x :
  get_task e i (executor_spawn e0 w s).2 = Some x <->
  get_task e i s = Some x \/
  (e = e0 /\ x = mkExecTask w Queued /\ exists ex, executors s !! e0 = Some ex /\ i = length (exec_tasks ex)).
Proof.
  unfold get_task, executor_spawn. simpl. rewrite list_lookup_alter. case_decide as He; [subst e0|].
  - destruct (executors s !! e) as [ex|]; simpl; [|naive_solver].
    rewrite lookup_app_Some. split.
    + intros [?|[? Hx]]; [by left|right]. apply list_lookup_singleton_Some in Hx as [? <-].
      split_and!; [done..|]. exists ex. split; [done|lia].
    + intros [?|(_ & -> & ex' & [= <-] & ->)]; [by left|right].
      split; [lia|]. by rewrite Nat.sub_diag.
  - split; [by left|]. intros [?|[? _]]; [done|congruence].
Qed.

Lemma get_task_set e i s e0 i0 st :
  get_task e i (set_exec e0 i0 st s) =
  if decide (e0 = e /\ i0 = i) then set_exec_st st <$> get_task e i s else get_task e i s.
Proof.
  unfold get_task, set_exec. simpl. rewrite list_lookup_alter.
  destruct (decide (e0 = e)) as [->|]; [|by rewrite decide_False by naive_solver].
  destruct (executors s !! e) as [ex|]; simpl; [|by case_decide].
  rewrite list_lookup_alter. repeat case_decide; naive_solver.
Qed.

Lemma get_task_new e i s t : get_task e i (new t s).2 = get_task e i s.
Proof.
  unfold get_task, new. simpl.
  destruct (decide (e < length (executors s))%nat) as [H|H].
  - by rewrite lookup_app_l by done.
  - rewrite (lookup_ge_None_2 (executors s)) by lia.
    destruct (decide (e = length (executors s))) as [->|].
    + by rewrite lookup_app_r, Nat.sub_diag by lia.
    + by rewrite lookup_ge_None_2 by (rewrite length_app; simpl; lia).
Qed.

(** Nothing changes the owner of an executor. *)
Lemma is_owner_alter t e s f e0 :
  (forall ex, owner_thread (f ex) = owner_thread ex) ->
  is_owner_thread t e (set_executors (alter f e0 (executors s)) s) = is_owner_thread t e s.
Proof.
  intros Hf. unfold is_owner_thread. simpl. rewrite list_lookup_alter. case_decide; [|done].
  subst. destruct (executors s !! e) as [ex|]; [|done]. simpl. by rewrite Hf.
Qed.

Lemma is_owner_spawn t e s e0 w :
  is_owner_thread t e (executor_spawn e0 w s).2 = is_owner_thread t e s.
Proof. unfold executor_spawn. simpl. by rewrite is_owner_alter. Qed.

Lemma is_owner_new t e s t0 : is_owner_thread t e s = true -> is_owner_thread t e (new t0 s).2 = true.
Proof.
  unfold is_owner_thread. rewrite !bool_decide_eq_true. simpl.
  destruct (executors s !! e) eqn:E; [|done]. by rewrite (lookup_app_l_Some _ _ _ _ E).
Qed.

Lemma placed_fresh s j p : placed s -> holds s j p -> (j < length (submitted s))%nat.
Proof.
  intros [He Hl _]. destruct p as [e i|k]; simpl.
  - intros (w & st & Hg & <- & _). apply He in Hg. by eapply lookup_lt_Some.
  - intros (t & l & Hk). apply Hl in Hk as (e & Hs & _). by eapply lookup_lt_Some.
Qed.

Lemma placed_submit e s : placed s -> placed (submit e s).
Proof.
  intros [He Hl Ho]. split; simpl.
  - intros e' i x Hg. apply lookup_app_l_Some. by apply (He e' i).
  - intros k j t l Hk. destruct (Hl k j t l Hk) as (e' & ? & ?). exists e'.
    split; [by apply lookup_app_l_Some|done].
  - exact Ho.
Qed.

(** Queueing and spawning a job that is nowhere yet. *)
Lemma placed_push e w s :
  placed s -> submitted s !! work_job w = Some e -> (forall p, ~ holds s (work_job w) p) ->
  placed (executor_spawn e w s).2.
Proof.
  intros [He Hl Ho] Hs Hn. split.
  - intros e' i x [Hg|(-> & -> & _)]%get_task_push; [by eapply He|done].
  - intros k j t l Hk. destruct (Hl k j t l Hk) as (e' & ? & ?). exists e'. split; [done|].
    by rewrite is_owner_spawn.
  - assert (Hh : forall j p, holds (executor_spawn e w s).2 j p -> holds s j p \/
       (j = work_job w /\ exists ex, executors s !! e = Some ex /\ p = InExec e (length (exec_tasks ex)))).
    { intros j [e' i|k]; [|by left].
      intros (w' & st & Hg & <- & Hst). apply get_task_push in Hg as [Hg|(-> & [= -> ->] & ex & Hex & ->)].
      - left. by exists w', st.
      - right. eauto. }
    intros j p p' [Hp|(-> & ex & Hex & ->)]%Hh [Hp'|(Hj & ex' & Hex' & ->)]%Hh.
    + by eapply Ho.
    + subst. by destruct (Hn p).
    + by destruct (Hn p').
    + by simplify_eq.
Qed.

Lemma placed_local_push t e j s :
  placed s -> submitted s !! j = Some e -> is_owner_thread t e s = true ->
  (forall p, ~ holds s j p) -> placed (set_locals (locals s ++ [mkLocal j t true]) s).
Proof.
  intros [He Hl Ho] Hs Hw Hn. split.
  - exact He.
  - intros k j' t' l [?|[_ Hx]]%lookup_app_Some; [by eapply Hl|].
    apply list_lookup_singleton_Some in Hx as [_ [= -> -> <-]]. eauto.
  - assert (Hh : forall j' p, holds (set_locals (locals s ++ [mkLocal j t true]) s) j' p ->
       holds s j' p \/ (j' = j /\ p = InLocal (length (locals s)))).
    { intros j' [e' i|k]; [by left|].
      intros (t' & l & [Hk|[Hk Hx]]%lookup_app_Some); [left; by exists t', l|right].
      apply list_lookup_singleton_Some in Hx as [? [= -> -> <-]]. split; [done|f_equal; lia]. }
    intros j' p p' [Hp|[-> ->]]%Hh [Hp'|[Hj ->]]%Hh; [by eapply Ho| | |done].
    + subst. by destruct (Hn p).
    + by destruct (Hn p').
Qed.

(** Changing states, without reviving anything. *)
Lemma holds_set_exec s e i st j p :
  (st = Over \/ forall x, get_task e i s = Some x -> exec_st x <> Over) ->
  holds (set_exec e i st s) j p -> holds s j p.
Proof.
  intros Hst. destruct p as [e' i'|k]; [|done]. intros (w & st' & Hg & Hj & Hov).
  rewrite get_task_set in Hg. case_decide as Hd; [destruct Hd as [<- <-]|by exists w, st'].
  destruct (get_task e i s) as [x|] eqn:E; [|done]. simpl in Hg. injection Hg as <- <-.
  exists (exec_work x), (exec_st x). split_and!; [by rewrite E; destruct x|done|].
  destruct Hst as [->|Hst]; [done|by apply Hst].
Qed.

(** Ending an executor task frees its job. *)
Lemma set_over_frees s e i w st p :
  placed s -> get_task e i s = Some (mkExecTask w st) -> st <> Over ->
  ~ holds (set_exec e i Over s) (work_job w) p.
Proof.
  intros Hpl Hg Hst Hp.
  assert (Hp0 := holds_set_exec s e i Over _ p (or_introl eq_refl) Hp).
  assert (p = InExec e i) as -> by (eapply (placed_once s Hpl); [done|by exists w, st]).
  destruct Hp as (w' & st' & Hg' & _ & Hn). rewrite get_task_set, decide_True, Hg in Hg' by done.
  by injection Hg' as _ <-.
Qed.

Lemma placed_set_exec s e i st :
  (st = Over \/ forall x, get_task e i s = Some x -> exec_st x <> Over) ->
  placed s -> placed (set_exec e i st s).
Proof.
  intros Hst [He Hl Ho]. split.
  - intros e' i' x. rewrite get_task_set. case_decide; [|apply He].
    destruct (get_task e' i' s) eqn:E; [|done]. intros [= <-]. by apply (He e' i' _ E).
  - intros k j t l Hk. destruct (Hl k j t l Hk) as (e' & ? & ?). exists e'. split; [done|].
    unfold set_exec. by rewrite is_owner_alter.
  - intros j p p' Hp Hp'. eapply Ho; by eapply holds_set_exec.
Qed.

Lemma holds_locals s l j p :
  (forall k x, l !! k = Some x -> exists y, locals s !! k = Some y /\
     local_job y = local_job x /\ local_thread y = local_thread x) ->
  holds (set_locals l s) j p -> holds s j p.
Proof.
  intros Hx. destruct p as [e i|k]; [done|]. intros (t & b & Hk).
  apply Hx in Hk as (y & Hy & Hj & Ht). destruct y as [j' t' b']. simpl in *. subst.
  by exists t, b'.
Qed.

Lemma placed_locals s l :
  (forall k x, l !! k = Some x -> exists y, locals s !! k = Some y /\
     local_job y = local_job x /\ local_thread y = local_thread x) ->
  placed s -> placed (set_locals l s).
Proof.
  intros Hx [He Hl Ho]. split; [exact He| |].
  - intros k j t b Hk. apply Hx in Hk as ([j' t' b'] & Hy & Hj & Ht). simpl in *. subst.
    by eapply Hl.
  - intros j p p' Hp Hp'. eapply Ho; by eapply holds_locals.
Qed.

Lemma alter_kill (s : state) k0 k x :
  alter kill_local k0 (locals s) !! k = Some x -> exists y, locals s !! k = Some y /\
     local_job y = local_job x /\ local_thread y = local_thread x.
Proof.
  rewrite list_lookup_alter. case_decide; [subst|naive_solver].
  destruct (locals s !! _); [|done]. intros [= <-]. by eexists.
Qed.

Lemma fmap_kill t (s : state) k x :
  ((fun x => if bool_decide (local_thread x = t) then kill_local x else x) <$> locals s) !! k = Some x ->
  exists y, locals s !! k = Some y /\ local_job y = local_job x /\ local_thread y = local_thread x.
Proof.
  rewrite list_lookup_fmap. destruct (locals s !! k); [|done]. intros [= <-].
  eexists. split; [done|]. by case_bool_decide.
Qed.

(** ** What one action does to the jobs *)

Definition same_jobs (l l' : list local_task) : Prop :=
  forall k x, l' !! k = Some x -> exists y, l !! k = Some y /\
    local_job y = local_job x /\ local_thread y = local_thread x.

Definition not_revived (s : state) (e i : nat) (st : exec_state) : Prop :=
  st = Over \/ forall x, get_task e i s = Some x -> exec_st x <> Over.

(** Every action is one of these; [t] is the thread that performs it. *)
Inductive effect (t : thread) (s : state) : state -> Prop :=
| eff_locals s' :
    executors s' = executors s -> submitted s' = submitted s -> exited s ⊆ exited s' ->
    same_jobs (locals s) (locals s') -> effect t s s'
| eff_submit e : effect t s (submit e s)
| eff_new : effect t s (new t s).2
| eff_push e w :
    work_job w = length (submitted s) -> effect t s (executor_spawn e w (submit e s)).2
| eff_spawn e :
    is_owner_thread t e s = true -> t ∉ exited s ->
    effect t s (set_locals (locals s ++ [mkLocal (length (submitted s)) t true]) (submit e s))
| eff_set e i st : not_revived s e i st -> effect t s (set_exec e i st s)
| eff_move e i j :
    get_task e i s = Some (mkExecTask (Wrapper j) Queued) ->
    is_owner_thread t e s = true -> t ∉ exited s ->
    effect t s (set_locals (locals s ++ [mkLocal j t true]) (set_exec e i Over s)).

Lemma same_jobs_refl l : same_jobs l l.
Proof. intros k x Hk. by exists x. Qed.
#[local] Hint Resolve same_jobs_refl : core.

Lemma is_owner_set_exec t e s e0 i st :
  is_owner_thread t e (set_exec e0 i st s) = is_owner_thread t e s.
Proof. unfold set_exec. by rewrite is_owner_alter. Qed.

Lemma spawn_task_effect t e s :
  t ∉ exited s -> effect t s (spawn_task t e (length (submitted s)) (submit e s)).1.
Proof.
  intros Ht. unfold spawn_task, local_spawn_task.
  change (is_owner_thread t e (submit e s)) with (is_owner_thread t e s).
  destruct (is_owner_thread t e s) eqn:Ho.
  - exact (eff_spawn t s e Ho Ht).
  - exact (eff_push t s e (Wrapper (length (submitted s))) eq_refl).
Qed.

Lemma poll_exec_effect t e i done s s' :
  t ∉ exited s -> poll_exec t e i done s = Some s' -> effect t s s'.
Proof.
  unfold poll_exec. intros Ht Hp. destruct (get_task e i s) as [[[j|j] []]|] eqn:Eg; simplify_eq.
  1,2: apply eff_set; right; intros x Hx; simplify_eq; done.
  unfold run_wrapper, local_spawn_task. rewrite is_owner_set_exec.
  destruct (is_owner_thread t e s) eqn:Ho.
  - exact (eff_move t s e i j Eg Ho Ht).
  - apply eff_set. by left.
Qed.

Lemma action_effect a s s' :
  placed s -> do_action a s = Some s' -> effect (thread_of a) s s'.
Proof.
  intros Hpl Ha. unfold do_action in Ha. case_bool_decide as Hx; [done|].
  destruct a as [t|t e|t|t e|t e|t|t h|t h|t e i d|t k d|t]; simpl in *.
  - simplify_eq. apply eff_new.
  - case_bool_decide; simplify_eq. by apply eff_locals.
  - unfold block_on_leave in Ha. destruct (stack t s); simplify_eq. by apply eff_locals.
  - case_bool_decide; simplify_eq. exact (eff_push t s e (Future (length (submitted s))) eq_refl).
  - case_bool_decide; simplify_eq. by apply spawn_task_effect.
  - destruct (current s !! t) as [e|] eqn:Ec; simplify_eq.
    + unfold spawn_local. simpl. rewrite Ec. unfold local_spawn_task.
      change (is_owner_thread t e (submit e s)) with (is_owner_thread t e s).
      destruct (is_owner_thread t e s) eqn:Ho; [exact (eff_spawn t s e Ho Hx)|apply eff_submit].
    + unfold spawn_local. rewrite Ec. by apply eff_locals.
  - simplify_eq. destruct h as [e i|k]; simpl; [apply eff_set; by left|].
    apply eff_locals; try done. intros k' x. apply alter_kill.
  - simplify_eq. by apply eff_locals.
  - destruct (stack t s); [done|]. case_bool_decide; [|done]. by apply (poll_exec_effect t e i d).
  - destruct (stack t s), (locals s !! k) as [[j t' []]|]; try done. case_bool_decide; simplify_eq.
    destruct d; apply eff_locals; try done. intros k' x. apply alter_kill.
  - destruct (stack t s); simplify_eq. apply eff_locals; simpl; [done..|set_solver|].
    intros k' x. apply fmap_kill.
Qed.

(** What holds a job after an effect held it before, or the job is new. *)
Lemma effect_holds t s s' j p :
  placed s -> effect t s s' -> holds s' j p ->
  (exists p', holds s j p') \/ j = length (submitted s).
Proof.
  intros Hpl He Hp. destruct He as [s' Hex Hsub _ Hl|e| |e w Hw|e Ho _|e i st Hst|e i j0 Hg Ho _].
  - left. exists p. destruct p as [e i|k]; simpl in *.
    + unfold get_task in *. by rewrite Hex in Hp.
    + destruct Hp as (t' & b & Hk). apply Hl in Hk as ([j' t'' b'] & Hk & Hj & _). simpl in *. subst. eauto.
  - left. by exists p.
  - left. exists p. destruct p as [e i|k]; [|done]. simpl in Hp. by setoid_rewrite get_task_new in Hp.
  - destruct p as [e' i|k]; [|left; by exists (InLocal k)].
    destruct Hp as (w' & st & [Hg|(-> & [= -> ->] & _)]%get_task_push & <- & Hst); [|by right].
    left. exists (InExec e' i). by exists w', st.
  - destruct p as [e' i|k]; [left; by exists (InExec e' i)|].
    destruct Hp as (t' & b & [Hk|[_ Hx]]%lookup_app_Some).
    + left. exists (InLocal k). by exists t', b.
    + apply list_lookup_singleton_Some in Hx as [_ [= -> _ _]]. by right.
  - left. exists p. by eapply holds_set_exec.
  - left. destruct p as [e' i'|k].
    + exists (InExec e' i'). eapply (holds_set_exec s e i Over); [by left|exact Hp].
    + destruct Hp as (t' & b & [Hk|[_ Hx]]%lookup_app_Some).
      * exists (InLocal k). by exists t', b.
      * apply list_lookup_singleton_Some in Hx as [_ [= -> _ _]].
        exists (InExec e i). by exists (Wrapper j), Queued.
Qed.

Lemma effect_placed t s s' : placed s -> effect t s s' -> placed s'.
Proof.
  intros Hpl He.
  assert (Hfresh : forall e p, ~ holds (submit e s) (length (submitted s)) p).
  { intros e p Hp. apply (placed_fresh s _ p Hpl) in Hp. lia. }
  assert (Hlast : forall e, submitted (submit e s) !! length (submitted s) = Some e).
  { intros e. simpl. by rewrite lookup_app_r, Nat.sub_diag by lia. }
  destruct He as [s' Hex Hsub _ Hl|e| |e w Hw|e Ho _|e i st Hst|e i j0 Hg Ho _].
  - pose proof (placed_locals s (locals s') Hl Hpl) as [He' Hl' Ho']. split.
    + intros e i x. unfold get_task. rewrite Hex, Hsub. apply He'.
    + intros k j t' b Hk. rewrite Hsub. destruct (Hl' k j t' b Hk) as (e & ? & Hown).
      exists e. split; [done|]. unfold is_owner_thread in *. by rewrite Hex.
    + intros j p p' Hp Hp'. apply (Ho' j); [destruct p|destruct p']; simpl in *; try done;
        unfold get_task in *; by rewrite Hex in *.
  - by apply placed_submit.
  - destruct Hpl as [He' Hl' Ho']. split.
    + intros e i x. rewrite get_task_new. apply He'.
    + intros k j t' b Hk. destruct (Hl' k j t' b Hk) as (e & ? & Hown). exists e.
      split; [done|]. by apply is_owner_new.
    + intros j p p' Hp Hp'. apply (Ho' j); [destruct p|destruct p']; simpl in *; try done;
        by setoid_rewrite get_task_new in Hp || setoid_rewrite get_task_new in Hp'.
  - apply placed_push; [by apply placed_submit|rewrite Hw; apply Hlast|rewrite Hw; apply Hfresh].
  - change (locals s) with (locals (submit e s)).
    apply (placed_local_push t e); [by apply placed_submit|apply Hlast|done|apply Hfresh].
  - by apply placed_set_exec.
  - assert (Hov : not_revived s e i Over) by by left.
    change (locals s) with (locals (set_exec e i Over s)).
    apply (placed_local_push t e).
    + by apply placed_set_exec.
    + exact (placed_exec s Hpl _ _ _ Hg).
    + by rewrite is_owner_set_exec.
    + intros p. by apply (set_over_frees s e i (Wrapper j0) Queued).
Qed.

Lemma effect_submitted t s s' : effect t s s' -> (length (submitted s) <= length (submitted s'))%nat.
Proof.
  destruct 1 as [s' _ Hs| | | | | |]; simpl; rewrite ?Hs, ?length_app; simpl; lia.
Qed.

(** A spent job stays spent. *)
Lemma effect_spent t s s' j : placed s -> effect t s s' -> spent j s -> spent j s'.
Proof.
  intros Hpl He [Hj Hn]. split; [pose proof (effect_submitted t s s' He); lia|].
  intros p Hp. destruct (effect_holds t s s' j p Hpl He Hp) as [[p' Hp']| ->]; [by destruct (Hn p')|lia].
Qed.

(** ** Invariants of every run *)

Lemma init_placed : placed init.
Proof. split; [done..|]. intros j [e i|k] p' Hp; destruct Hp as (? & ? & Hp); [|done]. by destruct Hp. Qed.

Lemma steps_placed s s' : placed s -> steps s s' -> placed s'.
Proof. intros Hp. induction 1; [done|]. eapply effect_placed; [done|by eapply action_effect]. Qed.

Lemma reachable_placed s : reachable s -> placed s.
Proof. apply steps_placed, init_placed. Qed.

Lemma steps_spent s s' j : placed s -> steps s s' -> spent j s -> spent j s'.
Proof.
  intros Hpl Hst Hj. induction Hst as [|s1 a s2 Hst IH Ha]; [done|].
  pose proof (steps_placed _ _ Hpl Hst) as Hpl1.
  eapply effect_spent; [done| |exact IH]. by eapply action_effect.
Qed.

(** Frames and [CURRENT_EXECUTOR] change only in [block_on]. *)
Lemma framed_same s s' :
  current s' = current s -> frames s' = frames s -> framed s -> framed s'.
Proof.
  intros Hc Hf [H1 H2]. split; intros t; unfold stack; rewrite ?Hc, Hf; [apply H1|apply H2].
Qed.

Lemma stack_insert t t' l s s' :
  frames s' = <[t := l]> (frames s) -> stack t' s' = if decide (t = t') then l else stack t' s.
Proof.
  intros Hf. unfold stack. rewrite Hf. case_decide; subst; [by rewrite lookup_insert_eq|].
  by rewrite lookup_insert_ne.
Qed.

Lemma framed_enter t e s : framed s -> framed (block_on_enter t e s).
Proof.
  intros [H1 H2]. split; intros t'; rewrite (stack_insert t _ _ s) by done; case_decide; subst; simpl.
  - by rewrite lookup_insert_eq.
  - rewrite lookup_insert_ne by done. apply H1.
  - split; [apply H1|apply H2].
  - apply H2.
Qed.

Lemma framed_leave t s s' : framed s -> block_on_leave t s = Some s' -> framed s'.
Proof.
  unfold block_on_leave. intros [H1 H2] Hl. destruct (stack t s) as [|f rest] eqn:Es; simplify_eq.
  pose proof (H2 t) as Hc. rewrite Es in Hc. destruct Hc as [Hp Hc].
  split; intros t'; rewrite (stack_insert t _ _ s) by done; case_decide; subst; simpl; try done.
  - by rewrite lookup_partial_alter_eq.
  - rewrite lookup_partial_alter_ne by done. apply H1.
Qed.

Lemma framed_step a s s' : framed s -> do_action a s = Some s' -> framed s'.
Proof.
  intros Hf Ha. unfold do_action in Ha. case_bool_decide as Hx; [done|].
  destruct a as [t|t e|t|t e|t e|t|t h|t h|t e i d|t k d|t]; simpl in *;
    try case_bool_decide; simplify_eq; try (by apply (framed_same s)).
  - by apply framed_enter.
  - by eapply framed_leave.
  - unfold spawn_task, local_spawn_task. by case_match; apply (framed_same s).
  - unfold spawn_local in Ha. destruct (current s !! t) as [e|] eqn:Ec; simplify_eq; [|done].
    simpl. rewrite Ec. unfold local_spawn_task. by case_match; apply (framed_same s).
  - by destruct h; apply (framed_same s).
  - destruct (stack t s); [done|]. case_bool_decide; [|done]. unfold poll_exec in Ha.
    destruct (get_task e i s) as [[[j|j] []]|]; simplify_eq; try (by apply (framed_same s)).
    unfold run_wrapper, local_spawn_task.
    by destruct (is_owner_thread _ _ _); apply (framed_same s).
  - destruct (stack t s), (locals s !! k) as [[j t' []]|]; try done. case_bool_decide; simplify_eq.
    by destruct d; apply (framed_same s).
  - destruct (stack t s); simplify_eq. by apply (framed_same s).
Qed.

Lemma reachable_framed s : reachable s -> framed s.
Proof.
  induction 1; [|by eapply framed_step]. split; intros t; unfold stack; simpl; by rewrite lookup_empty.
Qed.

(** A job sent to an executor whose thread has ended. *)
Record stranded (j : job) (e : nat) (t : thread) (s : state) : Prop := {
  stranded_sent : submitted s !! j = Some e;
  stranded_owner : is_owner_thread t e s = true;
  stranded_exited : t ∈ exited s;
  stranded_nowhere : never_local j s;
}.

Lemma is_owner_inj t t' e s : is_owner_thread t e s = true -> is_owner_thread t' e s = true -> t = t'.
Proof. unfold is_owner_thread. rewrite !bool_decide_eq_true. congruence. Qed.

Lemma effect_stranded t s s' j e t0 :
  placed s -> effect t s s' -> stranded j e t0 s -> stranded j e t0 s'.
Proof.
  intros Hpl He [Hs Ho Hx Hn]. pose proof (lookup_lt_Some _ _ _ Hs) as Hlt.
  destruct He as [s' Hex Hsub Hxs Hl|e0| |e0 w Hw|e0 Ho0 Ht|e0 i st Hst|e0 i j0 Hg Ho0 Ht].
  - split; [by rewrite Hsub|unfold is_owner_thread in *; by rewrite Hex|set_solver|].
    intros k t' b Hk. apply Hl in Hk as ([j' t'' b'] & Hk & Hj & _). simpl in Hj. subst. by eapply Hn.
  - split; [by apply lookup_app_l_Some|done..].
  - split; [done|by apply is_owner_new|done..].
  - split; [by apply lookup_app_l_Some| |done..]. by rewrite is_owner_spawn.
  - split; [by apply lookup_app_l_Some|done..|].
    intros k t' b [Hk|[_ Hk]]%lookup_app_Some; [by eapply Hn|].
    apply list_lookup_singleton_Some in Hk as [_ [= ? _ _]]. lia.
  - split; [done|by rewrite is_owner_set_exec|done..].
  - split; [done| |done|].
    + change (is_owner_thread t0 e (set_exec e0 i Over s) = true). by rewrite is_owner_set_exec.
    + intros k t' b [Hk|[_ Hk]]%lookup_app_Some; [by eapply Hn|].
      apply list_lookup_singleton_Some in Hk as [_ [= -> _ _]].
      pose proof (placed_exec s Hpl _ _ _ Hg) as Hs0. simpl in Hs0. simplify_eq.
      by rewrite (is_owner_inj t t0 _ s Ho0 Ho) in Ht.
Qed.

Lemma steps_stranded s s' j e t :
  placed s -> steps s s' -> stranded j e t s -> stranded j e t s'.
Proof.
  intros Hpl Hst Hj. induction Hst as [|s1 a s2 Hst IH Ha]; [done|].
  pose proof (steps_placed _ _ Hpl Hst) as Hpl1.
  eapply effect_stranded; [done| |exact IH]. by eapply action_effect.
Qed.

(** What is submitted to an executor whose thread has ended never starts. *)
Lemma strand_submission s e t :
  reachable s -> is_owner_thread t e s = true -> t ∈ exited s ->
  let j := length (submitted s) in
  forall s', steps (executor_spawn e (Wrapper j) (submit e s)).2 s' -> never_local j s'.
Proof.
  intros Hr Ho Hx j s' Hst. pose proof (reachable_placed s Hr) as Hpl.
  assert (He : effect t s (executor_spawn e (Wrapper j) (submit e s)).2) by by apply eff_push.
  eapply stranded_nowhere, (steps_stranded _ s' j e t); [by eapply effect_placed|done|].
  split; [simpl; unfold j; by rewrite lookup_app_r, Nat.sub_diag by lia|by rewrite is_owner_spawn|done|].
  intros k t' l Hk. destruct (placed_local s Hpl k j t' l Hk) as (e' & Hlt%lookup_lt_Some & _).
  unfold j in Hlt. lia.
Qed.

Lemma spent_never_local j s : spent j s -> never_local j s.
Proof. intros [_ Hn] k t b Hk. apply (Hn (InLocal k)). by exists t, b. Qed.

(** ** Shutdown channels: a bounded queue of one message *)

Record channel := mkChannel { messages : nat; sender_alive : bool }.

Definition shutdown_channel : channel := mkChannel 0 true.

(** [try_send] on a full channel is ignored; the sender is consumed. *)
Definition shutdown (c : channel) : channel := mkChannel (Nat.min 1 (messages c + 1)) false.

(** [recv] is ready: a message, or the sender is gone. *)
Definition park_returns (c : channel) : bool := (0 <? messages c)%nat || negb (sender_alive c).

(** [park_until_shutdown]: a [block_on] on this thread that returns when [recv] is
    ready, whatever it answers. *)
Definition park_until_shutdown (c : channel) (t : thread) (s : state) : option state :=
  if park_returns c then block_on_leave t s else None.

Lemma park_until_shutdown_spec :
  park_returns shutdown_channel = false /\ park_returns (shutdown shutdown_channel) = true /\
  park_returns (mkChannel 0 false) = true.
Proof. done. Qed.

(** ** Properties *)

(** C28: Every task spawned on a thread was given to an executor that this thread
    owns, so a future that is not [Send] never leaves its thread; a job is spawned
    at most once; while its wrapper waits it has not been spawned. *)
Theorem tasks_stay_on_their_thread s :
  reachable s ->
  (forall k j t l, locals s !! k = Some (mkLocal j t l) ->
     exists e, submitted s !! j = Some e /\ is_owner_thread t e s = true) /\
  (forall k k' j t t' l l', locals s !! k = Some (mkLocal j t l) ->
     locals s !! k' = Some (mkLocal j t' l') -> k = k') /\
  (forall e i j st, get_task e i s = Some (mkExecTask (Wrapper j) st) -> st <> Over ->
     submitted s !! j = Some e /\ never_local j s).
Proof.
  intros [He Hl Ho]%reachable_placed. split_and!.
  - exact Hl.
  - intros k k' j t t' l l' Hk Hk'.
    assert (InLocal k = InLocal k') as [=->]; [|done].
    apply (Ho j); [by exists t, l|by exists t', l'].
  - intros e i j st Hg Hst. split; [exact (He _ _ _ Hg)|]. intros k t l Hk.
    assert (InExec e i = InLocal k); [|done].
    apply (Ho j); [by exists (Wrapper j), st|by exists t, l].
Qed.

(** C29: What cancelling a task submitted from another thread does: while its
    wrapper waits, the task never starts, whatever happens afterwards; once the
    wrapper has run, [cancel] changes nothing, so the task it spawned goes on. *)
Theorem remote_cancel_spec s e i j st :
  reachable s -> get_task e i s = Some (mkExecTask (Wrapper j) st) ->
  (st <> Over -> forall s', steps (cancel (Executor e i) s) s' -> never_local j s') /\
  (st = Over -> forall k, locals (cancel (Executor e i) s) !! k = locals s !! k) /\
  (st = Over -> forall e' i', get_task e' i' (cancel (Executor e i) s) = get_task e' i' s).
Proof.
  intros Hr Hg. pose proof (reachable_placed s Hr) as Hpl. split_and!.
  - intros Hst s' Hs'. apply spent_never_local.
    eapply (steps_spent (cancel (Executor e i) s)); [|done|].
    + apply placed_set_exec; [by left|done].
    + split; [exact (lookup_lt_Some _ _ _ (placed_exec s Hpl _ _ _ Hg))|]. intros p.
      by apply (set_over_frees s e i (Wrapper j) st).
  - done.
  - intros -> e' i'. simpl. rewrite get_task_set. case_decide as Hd; [|done].
    destruct Hd as [<- <-]. by rewrite Hg.
Qed.

(** A submission from another thread never fails.  When a thread polls the
    wrapper, the owner starts the task and any other thread drops it for good; when the
    owner has ended, the task never starts, though the submission returned [Ok]. *)
Theorem remote_submission_outcome s t e owner :
  reachable s -> is_owner_thread owner e s = true -> t <> owner ->
  let j := length (submitted s) in
  exists s' i, spawn_task t e j (submit e s) = (s', Ok (Executor e i)) /\
    (forall t', run_wrapper t' e j (set_exec e i Over s') =
       if bool_decide (t' = owner)
       then set_locals (locals s ++ [mkLocal j owner true]) (set_exec e i Over s')
       else set_exec e i Over s') /\
    (owner ∈ exited s -> forall s'', steps s' s'' -> never_local j s'').
Proof.
  intros Hr Hown Hne j. pose proof (reachable_placed s Hr) as Hpl.
  assert (Hnot : forall t', bool_decide (t' = owner) = is_owner_thread t' e s).
  { intros t'. case_bool_decide as Ht; [by subst|].
    destruct (is_owner_thread t' e s) eqn:E; [|done]. by destruct Ht; eapply is_owner_inj. }
  set (s' := (executor_spawn e (Wrapper j) (submit e s)).2).
  set (i := (executor_spawn e (Wrapper j) (submit e s)).1).
  assert (Hs' : forall t', is_owner_thread t' e s' = is_owner_thread t' e s).
  { intros t'. unfold s'. by rewrite is_owner_spawn. }
  exists s', i. split_and!.
  - unfold spawn_task. change (is_owner_thread t e (submit e s)) with (is_owner_thread t e s).
    by rewrite <- Hnot, bool_decide_false.
  - intros t'. unfold run_wrapper, local_spawn_task.
    rewrite is_owner_set_exec, Hs', <- Hnot. case_bool_decide; by subst.
  - intros Hx s''. by apply (strand_submission s e owner).
Qed.

(** [runtime::spawn_local] uses the executor of the innermost [block_on] of the
    calling thread, through every nesting and return: without one it fails with
    [NotConnected], on an executor of another thread with [InvalidInput]. *)
Theorem spawn_local_spec s t j :
  reachable s ->
  spawn_local t j s =
    match stack t s with
    | [] => (s, Err no_current_executor)
    | f :: _ =>
        if is_owner_thread t (frame_executor f) s
        then (set_locals (locals s ++ [mkLocal j t true]) s, Ok (Local (length (locals s))))
        else (s, Err not_owner)
    end.
Proof.
  intros Hr%reachable_framed. unfold spawn_local. rewrite (framed_current s Hr).
  destruct (stack t s) as [|f rest]; [done|]. simpl. unfold local_spawn_task. by destruct is_owner_thread.
Qed.

(** *** Concrete runs *)

Fixpoint run_actions (l : list action) (s : state) : option state :=
  match l with
  | [] => Some s
  | a :: l => do_action a s ≫= run_actions l
  end.

Lemma run_actions_steps l s0 s s' : steps s0 s -> run_actions l s = Some s' -> steps s0 s'.
Proof.
  revert s. induction l as [|a l IH]; simpl; intros s Hr Hs; [by simplify_eq|].
  destruct (do_action a s) as [s1|] eqn:E; [|done].
  eapply IH; [|done]. by econstructor.
Qed.

(** Thread 0 submits two tasks to the worker of thread 1, which runs the wrapper of
    the first. *)
Definition demo_actions : list action :=
  [New 1; Enter 1 0; SpawnTask 0 0; PollExec 1 0 0 true; SpawnTask 0 0].
Definition demo : state := default init (run_actions demo_actions init).

Lemma demo_run_reachable : reachable demo.
Proof. apply (run_actions_steps demo_actions init init); [constructor|reflexivity]. Qed.

Definition demo_ended : state :=
  default init (run_actions (demo_actions ++ [Leave 1; Exit 1]) init).

Lemma demo_ended_run_reachable : reachable demo_ended.
Proof.
  apply (run_actions_steps (demo_actions ++ [Leave 1; Exit 1]) init init); [constructor|reflexivity].
Qed.

Lemma tasks_stay_on_their_thread_witness :
  locals demo !! 0%nat = Some (mkLocal 0 1 true) /\ submitted demo !! 1%nat = Some 0%nat /\
  never_local 1 demo.
Proof.
  split; [reflexivity|].
  apply (proj2 (proj2 (tasks_stay_on_their_thread demo demo_run_reachable)) 0%nat 1%nat 1%nat Queued);
    [reflexivity|discriminate].
Defined.

(** Cancelling the first task leaves it running; cancelling the second works. *)
Lemma remote_cancel_spec_witness :
  locals (cancel (Executor 0 0) demo) !! 0%nat = Some (mkLocal 0 1 true) /\
  (forall s', steps (cancel (Executor 0 1) demo) s' -> never_local 1 s').
Proof.
  split.
  - rewrite (proj1 (proj2 (remote_cancel_spec demo 0 0 0 Over demo_run_reachable eq_refl)) eq_refl).
    reflexivity.
  - apply (proj1 (remote_cancel_spec demo 0 1 1 Queued demo_run_reachable eq_refl)). discriminate.
Defined.

Lemma remote_submission_outcome_witness :
  exists s' i, spawn_task 0 0 2 (submit 0 demo_ended) = (s', Ok (Executor 0 i)) /\
    (forall s'', steps s' s'' -> never_local 2 s'').
Proof.
  destruct (remote_submission_outcome demo_ended 0 0 1 demo_ended_run_reachable) as (s' & i & H1 & _ & H3);
    [reflexivity|discriminate|].
  exists s', i. split; [exact H1|]. apply H3. vm_compute. reflexivity.
Defined.

Lemma spawn_local_spec_witness :
  (spawn_local 1 7 demo).2 = Ok (Local 1) /\ (spawn_local 0 7 demo).2 = Err no_current_executor.
Proof. rewrite !(spawn_local_spec demo) by exact demo_run_reachable. split; reflexivity. Defined.

End AsyncStd.
