(* ===== verification/StaticFile.v ===== *)
(** * The static file server: [src/examples/hyper_static.rs]

    Percent decoding, path resolution below a root directory, and the HTTP side for
    both runtimes: on tokio hyper parses requests and prints responses, on async-std
    the example reads and writes the connection itself.  The file system, the
    connection and hyper are interfaces; a path is the list of its components. *)

From S2P Require Import Prelude Errors Text Effects.

Inductive ResolveError := Forbidden | NotFound.

#[export] Instance ResolveError_eq_dec : EqDecision ResolveError.
Proof. solve_decision. Defined.

Abbreviation path := (list bytes).

(** ** Percent decoding *)

Definition from_hex (byte : Z) : result ResolveError Z :=
  if between 48 57 byte then Ok (byte - 48)
  else if between 97 102 byte then Ok (byte - 97 + 10)
  else if between 65 70 byte then Ok (byte - 65 + 10)
  else Err Forbidden.

(** The loop of [percent_decode]; [None] stands for an index out of range. *)
Fixpoint percent_loop (fuel : nat) (b : bytes) (index : Z) (decoded : bytes) :
    option (result ResolveError bytes) :=
  match fuel with
  | O => None
  | S fuel =>
      if index <? len b then
        byte ← get b index;
        if byte =? 37 then
          if len b <=? index + 2 then Some (Err Forbidden)
          else
            b1 ← get b (index + 1);
            match from_hex b1 with
            | Err e => Some (Err e)
            | Ok high =>
                b2 ← get b (index + 2);
                match from_hex b2 with
                | Err e => Some (Err e)
                | Ok low =>
                    percent_loop fuel b (index + 3) (decoded ++ [Z.lor (u8 (Z.shiftl high 4)) low])
                end
            end
        else percent_loop fuel b (index + 1) (decoded ++ [byte])
      else Some (Ok decoded)
  end.

Definition percent_decode (segment : bytes) : result ResolveError bytes :=
  match percent_loop (S (length segment)) segment 0 [] with
  | Some r => decoded ← r; if utf8_valid decoded then Ok decoded else Err Forbidden
  | None => Err Forbidden
  end.

(** ** Paths *)

(** What happens to the file system and the connection, in order. *)
Inductive event :=
| CheckedDir (p : path) (dir : bool)
| Canonicalized (p : path) (r : io_result path)
| CheckedFile (p : path) (file : bool)
| ReadFile (p : path)
| Received (b : bytes)
| WroteAll (b : bytes).

(** [has_prefix]: a component of the segment is a drive prefix or a root, which
    depends on the platform. *)
Class StaticEnv (W : Type) := {
  has_prefix : bytes -> bool;
  fs_is_dir : path -> W -> bool * W;
  fs_canonicalize : path -> W -> io_result path * W;
  fs_is_file : path -> W -> bool * W;
  fs_read : path -> W -> io_result bytes * W;
  stream_read : Z -> W -> io_result bytes * W;
  stream_write_all : bytes -> W -> io_result unit * W;
}.

(** A read returns at most as much as the buffer holds. *)
Class ReadLaws (W : Type) `{StaticEnv W} :=
  read_fits : forall n w b, 0 <= n -> (stream_read n w).1 = Ok b -> len b <= n.

Definition forbidden_segment (prefixed : bytes -> bool) (segment : bytes) : bool :=
  bool_decide (segment = str "..") || bool_decide (0 ∈ segment) || bool_decide (47 ∈ segment) ||
  bool_decide (92 ∈ segment) || prefixed segment.

(** The [for] loop of [resolve_path]. *)
Fixpoint push_segments (prefixed : bytes -> bool) (candidate : path) (raw : list bytes) :
    result ResolveError path :=
  match raw with
  | [] => Ok candidate
  | raw_segment :: rest =>
      if bool_decide (raw_segment = []) then push_segments prefixed candidate rest
      else
        segment ← percent_decode raw_segment;
        if bool_decide (segment = str ".") then push_segments prefixed candidate rest
        else if forbidden_segment prefixed segment then Err Forbidden
        else push_segments prefixed (candidate ++ [segment]) rest
  end.

(** [Path::extension]: what follows the last dot of the last component, unless the
    dot is its first character. *)
Fixpoint last_dot (l : bytes) : option (bytes * bytes) :=
  match l with
  | [] => None
  | b :: l =>
      match last_dot l with
      | Some (before, after) => Some (b :: before, after)
      | None => if b =? 46 then Some ([], l) else None
      end
  end.

Definition extension (p : path) : option bytes :=
  name ← last p;
  if bool_decide (name = str "..") then None
  else '(before, after) ← last_dot name;
       if bool_decide (before = []) then None else Some after.

Definition plain_text : bytes := str "text/plain; charset=utf-8".

Definition content_type_table : list (bytes * bytes) :=
  [(str "html", str "text/html; charset=utf-8"); (str "htm", str "text/html; charset=utf-8");
   (str "css", str "text/css; charset=utf-8"); (str "js", str "application/javascript");
   (str "json", str "application/json"); (str "png", str "image/png");
   (str "jpg", str "image/jpeg"); (str "jpeg", str "image/jpeg"); (str "gif", str "image/gif");
   (str "svg", str "image/svg+xml"); (str "txt", plain_text); (str "toml", plain_text);
   (str "md", plain_text); (str "yaml", plain_text); (str "bat", plain_text); (str "sh", plain_text)].

Definition content_type_str (p : path) : bytes :=
  match extension p with
  | Some e =>
      match list_find (fun '(k, _) => k = e) content_type_table with
      | Some (_, (_, v)) => v
      | None => str "application/octet-stream"
      end
  | None => str "application/octet-stream"
  end.

(** ** Responses *)

(** What the handlers set of a hyper response. *)
Record Response := mkResponse { status : Z; content_type : bytes; body : bytes }.

Definition text_response (status : Z) (message : bytes) : Response :=
  mkResponse status plain_text message.

Definition crlf : bytes := [13; 10].

Definition plain_response (status : Z) (reason content_type body : bytes) : bytes :=
  str "HTTP/1.1 " ++ decimal status ++ str " " ++ reason ++ crlf ++
  str "Content-Length: " ++ decimal (len body) ++ crlf ++
  str "Content-Type: " ++ content_type ++ crlf ++
  str "Connection: close" ++ crlf ++ crlf ++ body.

Section Server.
Context {W : Type} `{StaticEnv W}.
#[local] Abbreviation io A := (prog W event A).

Definition resolve_path (root : path) (uri_path : bytes) : io (result ResolveError path) :=
  match push_segments has_prefix root (split 47 uri_path) with
  | Err e => mret (Err e)
  | Ok candidate =>
      dir ← call (fs_is_dir candidate) (CheckedDir candidate);
      let candidate :=
        if (dir : bool) || bool_decide (last uri_path = Some 47)
        then candidate ++ [str "index.html"] else candidate in
      r ← call (fs_canonicalize candidate) (Canonicalized candidate);
      match r with
      | Err error =>
          mret (Err (if bool_decide (Io.kind error = Io.NotFound) then NotFound else Forbidden))
      | Ok canonical =>
          if negb (bool_decide (root `prefix_of` canonical)) then mret (Err Forbidden)
          else
            file ← call (fs_is_file canonical) (CheckedFile canonical);
            mret (if (file : bool) then Ok canonical else Err NotFound)
      end
  end.

Definition read_file (p : path) : io (io_result bytes) := call (fs_read p) (fun _ => ReadFile p).

(** [response_for_path] *)
Definition response_for_path (root : path) (uri_path : bytes) (headers_only : bool) : io Response :=
  r ← resolve_path root uri_path;
  match r with
  | Err Forbidden => mret (text_response 403 (str "forbidden"))
  | Err NotFound => mret (text_response 404 (str "not found"))
  | Ok path =>
      r ← read_file path;
      mret match r with
           | Ok bytes => mkResponse 200 (content_type_str path) (if headers_only then [] else bytes)
           | Err error =>
               if bool_decide (Io.kind error = Io.NotFound) then text_response 404 (str "not found")
               else text_response 500 (str "internal server error")
           end
  end.

(** [serve_request]: the method and the path of the URI are hyper's. *)
Definition serve_request (root : path) (request_method uri_path : bytes) : io Response :=
  if bool_decide (request_method = str "GET") then response_for_path root uri_path false
  else if bool_decide (request_method = str "HEAD") then response_for_path root uri_path true
  else mret (text_response 405 (str "method not allowed")).

(** [plain_response_for_request] *)
Definition plain_response_for_request (root : path) (request : bytes) : io bytes :=
  match first_line (chars_lossy request) with
  | None => mret (plain_response 400 (str "Bad Request") plain_text (str "bad request"))
  | Some request_line =>
      let parts := split_whitespace request_line in
      let request_method := default [] (parts !! 0%nat) in
      let path := default [] (parts !! 1%nat) in
      if negb (bool_decide (request_method = str "GET")) && negb (bool_decide (request_method = str "HEAD"))
      then mret (plain_response 405 (str "Method Not Allowed") plain_text (str "method not allowed"))
      else
        let headers_only := bool_decide (request_method = str "HEAD") in
        r ← resolve_path root (before_once 63 path);
        match r with
        | Err Forbidden => mret (plain_response 403 (str "Forbidden") plain_text (str "forbidden"))
        | Err NotFound => mret (plain_response 404 (str "Not Found") plain_text (str "not found"))
        | Ok path =>
            r ← read_file path;
            mret match r with
                 | Ok bytes =>
                     plain_response 200 (str "OK") (content_type_str path)
                       (if headers_only then [] else bytes)
                 | Err error =>
                     if bool_decide (Io.kind error = Io.NotFound)
                     then plain_response 404 (str "Not Found") plain_text (str "not found")
                     else plain_response 500 (str "Internal Server Error") plain_text
                            (str "internal server error")
                 end
        end
  end.

Definition incomplete_headers : Error := Handler "http request headers were not complete".
Definition end_of_headers : bytes := [13; 10; 13; 10].

(** The loop of [read_request]; [None] when the fuel runs out. *)
Fixpoint read_loop (fuel : nat) (request : bytes) : io (option (crate_result bytes)) :=
  match fuel with
  | O => mret None
  | S fuel =>
      if len request <=? 8192 then
        r ← call (stream_read 1024) (fun r => Received (match r with Ok b => b | Err _ => [] end));
        match r with
        | Err error => mret (Some (Err (Error_from error)))
        | Ok buffer =>
            if bool_decide (buffer = []) then mret (Some (Ok []))
            else
              let request := request ++ buffer in
              if contains end_of_headers request then mret (Some (Ok request))
              else read_loop fuel request
        end
      else mret (Some (Err incomplete_headers))
  end.

(** More iterations than the loop can take. *)
Definition read_fuel : nat := 8194.

Definition read_request : io (crate_result bytes) :=
  r ← read_loop read_fuel [];
  mret (default (Err incomplete_headers) r).

(** [canonical_root]; [display] prints a path. *)
Definition canonical_root (display : path -> string) (root : path) : io (crate_result path) :=
  r ← call (fs_canonicalize root) (Canonicalized root);
  match r with
  | Err error =>
      mret (Err (InvalidConfig
        ("static root `" +:+ display root +:+ "` is invalid: " +:+ Io.message error)))
  | Ok root =>
      dir ← call (fs_is_dir root) (CheckedDir root);
      mret (if (dir : bool) then Ok root
            else Err (InvalidConfig ("static root `" +:+ display root +:+ "` is not a directory")))
  end.

(** [write_response] *)
Definition write_response (response : bytes) : io (crate_result unit) :=
  r ← call (stream_write_all response) (fun _ => WroteAll response);
  mret (from_io r).

(** [serve_plain_connection] *)
Definition serve_plain_connection (root : path) : io (crate_result unit) :=
  request ←? read_request;
  if bool_decide (request = []) then mret (Ok ())
  else
    response ← plain_response_for_request root request;
    write_response response.
End Server.

(** ** Percent decoding: specification and inverse *)

(** Hexadecimal notation: the value of a digit is its place in the alphabet, in either
    case. *)
Definition hex_alphabet (lower : bool) : bytes :=
  if lower then str "0123456789abcdef" else str "0123456789ABCDEF".
Definition hex_value (digit value : Z) : Prop :=
  0 <= value /\ exists lower, get (hex_alphabet lower) value = Some digit.

(** What an escaped string stands for. *)
Inductive escapes : bytes -> bytes -> Prop :=
| escapes_nil : escapes [] []
| escapes_plain b s d : b <> 37 -> escapes s d -> escapes (b :: s) (b :: d)
| escapes_hex h l high low s d :
    hex_value h high -> hex_value l low -> escapes s d ->
    escapes (37 :: h :: l :: s) (high * 16 + low :: d).

(** The same as a function. *)
Fixpoint unescape (s : bytes) : result ResolveError bytes :=
  match s with
  | [] => Ok []
  | b :: s1 =>
      if b =? 37 then
        match s1 with
        | h :: l :: s3 =>
            high ← from_hex h; low ← from_hex l; d ← unescape s3; Ok (high * 16 + low :: d)
        | _ => Err Forbidden
        end
      else d ← unescape s1; Ok (b :: d)
  end.

Lemma from_hex_value b v : from_hex b = Ok v <-> hex_value b v.
Proof.
  split.
  - unfold from_hex, between. intros Hv.
    assert (b ∈ seqZ 48 55) as Hb.
    { apply elem_of_seqZ. repeat case_match; simplify_eq;
        repeat match goal with H : _ && _ = true |- _ => apply andb_true_iff in H as [?%Z.leb_le ?%Z.leb_le] end;
        lia. }
    assert (Forall (fun b => match from_hex b with
      | Ok v => (0 <=? v) && (bool_decide (get (hex_alphabet true) v = Some b) ||
                              bool_decide (get (hex_alphabet false) v = Some b))
      | Err _ => true end = true) (seqZ 48 55)) as HF by (vm_compute; repeat constructor).
    rewrite Forall_forall in HF. specialize (HF b Hb). unfold from_hex, between in HF. rewrite Hv in HF.
    apply andb_true_iff in HF as [?%Z.leb_le [?%bool_decide_eq_true|?%bool_decide_eq_true]%orb_true_iff];
      split; eauto.
  - intros (Hv & lower & Hd). assert (v ∈ seqZ 0 16) as Hin.
    { apply elem_of_seqZ. apply get_lt_Some in Hd; [|done]. unfold len in Hd. destruct lower; simpl in Hd; lia. }
    assert (Forall (fun v => forall lower, from_hex <$> get (hex_alphabet lower) v = Some (Ok v)) (seqZ 0 16)) as HF
      by (vm_compute; repeat constructor; intros []; reflexivity).
    rewrite Forall_forall in HF. specialize (HF v Hin lower). rewrite Hd in HF. by injection HF.
Qed.

Lemma from_hex_range b v : from_hex b = Ok v -> 0 <= v < 16.
Proof.
  unfold from_hex, between. repeat case_match; intros [= <-];
    repeat match goal with H : _ && _ = true |- _ => apply andb_true_iff in H as [?%Z.leb_le ?%Z.leb_le] end; lia.
Qed.

Lemma from_hex_forbidden b e : from_hex b = Err e -> e = Forbidden.
Proof. unfold from_hex. repeat case_match; congruence. Qed.

Lemma nibbles high low : 0 <= high < 16 -> 0 <= low < 16 ->
  Z.lor (u8 (Z.shiftl high 4)) low = high * 16 + low.
Proof.
  intros Hh Hl. rewrite Z.shiftl_mul_pow2 by lia. rewrite u8_id by (unfold is_u8; lia).
  assert (Hd : Z.land (high * 2 ^ 4) low = 0).
  { apply Z.bits_inj'. intros n Hn. rewrite Z.land_spec, Z.bits_0.
    destruct (decide (n < 4)); [by rewrite Z.mul_pow2_bits_low|].
    rewrite (Z.bits_above_log2 low), andb_false_r; [done|lia|].
    destruct (decide (low = 0)) as [->|]; [simpl; lia|].
    assert (Z.log2 low < 4) by (apply Z.log2_lt_pow2; lia). lia. }
  pose proof (Z.add_lor_land (high * 2 ^ 4) low). lia.
Qed.

(** Two induction principles in one: on the tail, and past an escape. *)
Lemma bytes_ind3 (P : bytes -> Prop) :
  P [] -> (forall b, P [b]) -> (forall b c, P [b; c]) ->
  (forall b c d l, P l -> P (d :: l) -> P (c :: d :: l) -> P (b :: c :: d :: l)) -> forall l, P l.
Proof.
  intros H0 H1 H2 H3.
  enough (forall l, P l /\ (forall c, P (c :: l)) /\ (forall b c, P (b :: c :: l))) as Hall
    by (intros l; apply (Hall l)).
  induction l as [|d l (Hl & Hc & Hbc)]; [done|].
  split_and!; [apply Hc|intros c; apply Hbc|]. intros b c. by apply H3.
Qed.

Lemma unescape_error s e : unescape s = Err e -> e = Forbidden.
Proof.
  induction s as [|b|b c|b c d l IH1 IH2 IH3] using bytes_ind3; simpl; [done|..].
  - by case_match; intros [= <-].
  - repeat case_match; intros [= <-]; done.
  - destruct (b =? 37).
    + destruct (from_hex c) eqn:E1; [|intros [= <-]; by eapply from_hex_forbidden].
      destruct (from_hex d) eqn:E2; [|intros [= <-]; by eapply from_hex_forbidden]. simpl.
      destruct (unescape l) eqn:E3; [done|]. intros [= <-]. by apply IH1.
    + intros Hr. apply IH3. simpl. revert Hr. by destruct (if c =? 37 then _ else _).
Qed.

Lemma unescape_escapes s d : unescape s = Ok d <-> escapes s d.
Proof.
  split.
  - revert d. induction s as [|b|b c|b c x l IH1 IH2 IH3] using bytes_ind3; intros d Hd.
    + injection Hd as <-. constructor.
    + simpl in Hd. destruct (Z.eqb_spec b 37); [done|]. injection Hd as <-. repeat constructor. done.
    + simpl in Hd. destruct (Z.eqb_spec b 37); [done|]. destruct (Z.eqb_spec c 37); [done|].
      injection Hd as <-. by repeat constructor.
    + cbn [unescape] in Hd. destruct (Z.eqb_spec b 37) as [->|Hb].
      * destruct (from_hex c) as [h|] eqn:E1; [|done]. destruct (from_hex x) as [lo|] eqn:E2; [|done].
        cbn in Hd. destruct (unescape l) as [d'|] eqn:E3; [|done]. injection Hd as <-.
        constructor; try by apply from_hex_value. auto.
      * change (d' ← unescape (c :: x :: l); Ok (b :: d')) with
          (d' ← unescape (c :: x :: l); @Ok ResolveError _ (b :: d')) in Hd.
        destruct (unescape (c :: x :: l)) as [d'|] eqn:E; [|by cbn [unescape] in E; rewrite E in Hd].
        assert (d = b :: d') as -> by (cbn [unescape] in E; rewrite E in Hd; by injection Hd).
        constructor; [done|]. by apply IH3.
  - induction 1 as [|b s d Hb _ IH|h l high low s d Hh Hl _ IH]; [done|..]; cbn [unescape].
    + rewrite (proj2 (Z.eqb_neq b 37) Hb). by rewrite IH.
    + apply from_hex_value in Hh, Hl. rewrite Z.eqb_refl, Hh, Hl. cbn. by rewrite IH.
Qed.

Lemma drop_get (b : bytes) i x : 0 <= i -> get b i = Some x ->
  drop (Z.to_nat i) b = x :: drop (Z.to_nat (i + 1)) b.
Proof.
  intros Hi Hg. unfold get in Hg. rewrite (drop_S _ _ _ Hg). f_equal. f_equal. lia.
Qed.

Lemma drop_past (b : bytes) i : len b <= i -> drop (Z.to_nat i) b = [].
Proof. intros Hi. apply drop_ge. unfold len in Hi. lia. Qed.

(** The loop never leaves the buffer and computes [unescape]. *)
Lemma percent_loop_spec fuel b index decoded :
  0 <= index <= len b -> (Z.to_nat (len b - index) < fuel)%nat ->
  percent_loop fuel b index decoded =
    Some (d ← unescape (drop (Z.to_nat index) b); Ok (decoded ++ d)).
Proof.
  revert index decoded. induction fuel as [|fuel IH]; intros index decoded Hi Hf; [lia|].
  cbn [percent_loop]. destruct (Z.ltb_spec index (len b)) as [Hlt|Hge].
  2: { rewrite drop_past by lia. simpl. by rewrite app_nil_r. }
  destruct (get_in_range b index) as [byte Hb]; [lia|]. rewrite Hb, (drop_get b index byte) by (done || lia).
  cbn [mbind option_bind unescape]. destruct (Z.eqb_spec byte 37) as [->|Hne].
  - destruct (Z.leb_spec (len b) (index + 2)) as [Hend|Hmore].
    + destruct (decide (index + 1 < len b)) as [H1|H1].
      * destruct (get_in_range b (index + 1)) as [h Hh]; [lia|].
        rewrite (drop_get b (index + 1) h), drop_past by (done || lia). done.
      * by rewrite drop_past by lia.
    + destruct (get_in_range b (index + 1)) as [h Hh]; [lia|].
      destruct (get_in_range b (index + 2)) as [l Hl]; [lia|].
      rewrite Hh, (drop_get b (index + 1) h) by (done || lia).
      replace (index + 1 + 1) with (index + 2) by lia.
      rewrite (drop_get b (index + 2) l) by (done || lia).
      replace (index + 2 + 1) with (index + 3) by lia. cbn [mbind option_bind].
      destruct (from_hex h) as [high|] eqn:E1; [|done]. rewrite Hl. cbn [mbind option_bind].
      destruct (from_hex l) as [low|] eqn:E2; [|done].
      rewrite IH by lia. rewrite nibbles by (by eapply from_hex_range). cbn.
      destruct (unescape _) as [d|]; cbn; [|done]. by rewrite <- (assoc_L (++)).
  - rewrite IH by lia. destruct (unescape _) as [d|]; cbn; [|done]. by rewrite <- (assoc_L (++)).
Qed.

Lemma percent_decode_eq s :
  percent_decode s = (d ← unescape s; if utf8_valid d then Ok d else Err Forbidden).
Proof.
  unfold percent_decode. rewrite percent_loop_spec by (unfold len; lia).
  change (Z.to_nat 0) with 0%nat. rewrite drop_0. by destruct (unescape s).
Qed.

(** A client's encoder: every byte it does not keep is escaped, in either case. *)
Definition hex_digit (lower : bool) (n : Z) : Z := default 0 (get (hex_alphabet lower) n).
Definition percent_encode (lower : bool) (keep : Z -> bool) (s : bytes) : bytes :=
  concat ((fun b => if keep b then [b]
                    else [37; hex_digit lower (b / 16); hex_digit lower (b mod 16)]) <$> s).

Lemma hex_value_digit lower n : 0 <= n < 16 -> hex_value (hex_digit lower n) n.
Proof.
  intros Hn. split; [lia|]. exists lower. unfold hex_digit.
  destruct (get_in_range (hex_alphabet lower) n) as [x Hx]; [by destruct lower|]. by rewrite Hx.
Qed.

Lemma escapes_encode lower keep s :
  keep 37 = false -> bytes_ok s -> escapes (percent_encode lower keep s) s.
Proof.
  intros Hk. unfold percent_encode. induction 1 as [|b s Hb _ IH]; simpl; [constructor|].
  destruct (keep b) eqn:E; simpl.
  - constructor; [|done]. intros ->. congruence.
  - unfold is_u8 in Hb. replace b with (b / 16 * 16 + b mod 16) at 3 by div_lia.
    constructor; [apply hex_value_digit; div_lia..|done].
Qed.

(** ** Paths *)

(** A name that could leave the directory it is looked up in, or is not one: the parent
    directory, or holding a NUL, a slash, a backslash or a drive. *)
Definition escapes_directory (prefixed : bytes -> bool) (name : bytes) : Prop :=
  name = str ".." \/ 0 ∈ name \/ 47 ∈ name \/ 92 ∈ name \/ prefixed name = true.

Definition good_segment (prefixed : bytes -> bool) (segment : bytes) : Prop :=
  segment <> [] /\ segment <> str "." /\ ~ escapes_directory prefixed segment /\
  utf8_valid segment = true.

(** What a segment of an URI stands for. *)
Definition means (raw segment : bytes) : Prop := escapes raw segment /\ utf8_valid segment = true.

(** A segment to refuse: malformed, or standing for a name of the above kind. *)
Definition refused (prefixed : bytes -> bool) (raw : bytes) : Prop :=
  raw <> [] /\ forall segment, means raw segment -> segment <> str "." /\ escapes_directory prefixed segment.

(** The names in an URI: what its segments stand for, but for the empty ones and dots. *)
Inductive names : list bytes -> list bytes -> Prop :=
| names_nil : names [] []
| names_empty raw segments : names raw segments -> names ([] :: raw) segments
| names_dot r raw segments : means r (str ".") -> names raw segments -> names (r :: raw) segments
| names_name r s raw segments : r <> [] -> means r s -> s <> str "." -> names raw segments ->
    names (r :: raw) (s :: segments).

Lemma forbidden_segment_spec prefixed s :
  forbidden_segment prefixed s = true <-> escapes_directory prefixed s.
Proof.
  unfold forbidden_segment, escapes_directory. rewrite !orb_true_iff, !bool_decide_eq_true. tauto.
Qed.

Lemma percent_decode_means raw segment : percent_decode raw = Ok segment <-> means raw segment.
Proof.
  rewrite percent_decode_eq. unfold means. rewrite <- unescape_escapes.
  destruct (unescape raw) as [d|]; simpl; [|naive_solver].
  destruct (utf8_valid d) eqn:E; naive_solver congruence.
Qed.

Lemma percent_decode_err raw e : percent_decode raw = Err e -> e = Forbidden.
Proof.
  rewrite percent_decode_eq. destruct (unescape raw) as [d|e'] eqn:E; simpl.
  - destruct (utf8_valid d); congruence.
  - intros [= <-]. by eapply unescape_error.
Qed.

Lemma means_nonempty raw segment : raw <> [] -> means raw segment -> segment <> [].
Proof. intros Hr [He _]. by destruct He. Qed.

(** The loop appends good segments to the root, or refuses. *)
Lemma push_segments_ok prefixed candidate raw p :
  push_segments prefixed candidate raw = Ok p ->
  exists segments, p = candidate ++ segments /\ names raw segments /\
    Forall (good_segment prefixed) segments.
Proof.
  revert candidate. induction raw as [|r raw IH]; intros candidate Hp; simpl in Hp.
  - injection Hp as <-. exists []. rewrite app_nil_r. by split_and!; [|constructor|].
  - case_bool_decide as Hr.
    { subst r. destruct (IH _ Hp) as (segs & ? & ? & ?). exists segs. split_and!; by try constructor. }
    destruct (percent_decode r) as [s|] eqn:Es; [|done]. apply percent_decode_means in Es. simpl in Hp.
    case_bool_decide as Hd.
    + subst s. destruct (IH candidate Hp) as (segs & ? & ? & ?). exists segs. split_and!; try done.
      by apply names_dot.
    + destruct (forbidden_segment prefixed s) eqn:Ef; [done|].
      destruct (IH _ Hp) as (segs & -> & Hs & Hg). exists (s :: segs).
      split_and!; [by rewrite <- (assoc_L (++))|by apply names_name|]. constructor; [|done].
      split_and!; [by eapply means_nonempty|done| |apply Es].
      rewrite <- forbidden_segment_spec. congruence.
Qed.

(** It refuses exactly when one of the segments is to be refused. *)
Lemma push_segments_err prefixed candidate raw e :
  push_segments prefixed candidate raw = Err e ->
  e = Forbidden /\ exists r, r ∈ raw /\ refused prefixed r.
Proof.
  revert candidate. induction raw as [|r raw IH]; intros candidate Hp; simpl in Hp; [done|].
  case_bool_decide as Hr.
  { destruct (IH _ Hp) as (-> & r' & ? & ?). split; [done|]. exists r'. split; [by right|done]. }
  destruct (percent_decode r) as [s|e'] eqn:Es; simpl in Hp.
  - case_bool_decide as Hd; [|destruct (forbidden_segment prefixed s) eqn:Ef].
    1,3: destruct (IH _ Hp) as (-> & r' & ? & ?); split; [done|]; exists r'; split; [by right|done].
    injection Hp as <-. split; [done|]. exists r. split; [by left|]. split; [done|].
    intros s' Hs'%percent_decode_means. assert (s' = s) as -> by congruence. split; [exact Hd|]. by apply forbidden_segment_spec.
  - injection Hp as <-. split; [by eapply percent_decode_err|]. exists r. split; [by left|]. split; [done|].
    intros s Hs%percent_decode_means. congruence.
Qed.

Lemma push_segments_refuses prefixed candidate raw r :
  r ∈ raw -> refused prefixed r -> push_segments prefixed candidate raw = Err Forbidden.
Proof.
  intros Hin [Hr Hbad]. destruct (push_segments prefixed candidate raw) as [p|e] eqn:E;
    [|by apply push_segments_err in E as [-> _]].
  exfalso. revert candidate E. induction raw as [|r' raw IH]; intros candidate E.
  - by apply elem_of_nil in Hin.
  - simpl in E. apply elem_of_cons in Hin as [<-|Hin].
    + rewrite bool_decide_false in E by done. destruct (percent_decode r) as [s|] eqn:Es; [|done].
      apply percent_decode_means, Hbad in Es as [Hd Hf%forbidden_segment_spec]. simpl in E.
      by rewrite bool_decide_false, Hf in E.
    + case_bool_decide; [by eapply IH|]. destruct (percent_decode r'); [|done]. simpl in E.
      case_bool_decide; [by eapply IH|]. destruct forbidden_segment; [done|by eapply IH].
Qed.

(** ** Messages *)

(** A reader of messages: the head up to the first empty line, and the rest. *)
Fixpoint split_message (l : bytes) : option (bytes * bytes) :=
  if bool_decide (take 4 l = end_of_headers) then Some ([], drop 4 l)
  else match l with
       | [] => None
       | b :: l => '(head, rest) ← split_message l; Some (b :: head, rest)
       end.

Lemma split_message_found (rest : bytes) : split_message (end_of_headers ++ rest) = Some ([], rest).
Proof. done. Qed.

(** A line without a carriage return goes to the head. *)
Lemma split_message_line (line l : bytes) :
  13 ∉ line -> split_message (line ++ l) = ('(head, rest) ← split_message l; Some (line ++ head, rest)).
Proof.
  induction line as [|b line IH]; intros Hl; [cbn [app]; by destruct (split_message l) as [[]|]|].
  cbn [app split_message]. rewrite bool_decide_false by (unfold end_of_headers; cbn; intros Heq; injection Heq; intros; subst; set_solver).
  rewrite IH by set_solver. by destruct (split_message l) as [[]|].
Qed.

(** So does the end of a line that another line follows. *)
Lemma split_message_crlf b (l : bytes) :
  b <> 13 -> split_message (crlf ++ b :: l) =
             ('(head, rest) ← split_message (b :: l); Some (crlf ++ head, rest)).
Proof.
  intros Hb. unfold crlf. cbn [app split_message].
  rewrite bool_decide_false by (unfold end_of_headers; cbn; intros Heq; injection Heq; intros; congruence).
  cbn [app split_message].
  rewrite bool_decide_false by (unfold end_of_headers; cbn; intros Heq; injection Heq; intros; congruence).
  change (split_message (b :: l)) with (split_message (b :: l)).
  destruct (split_message (b :: l)) as [[head rest]|] eqn:E; cbn [split_message] in E; by rewrite E.
Qed.

Lemma split_message_crlf_line (line l : bytes) :
  line <> [] -> 13 ∉ line ->
  split_message (crlf ++ line ++ l) =
    ('(head, rest) ← split_message l; Some (crlf ++ line ++ head, rest)).
Proof.
  destruct line as [|b line]; [done|]. intros _ Hl. rewrite <- app_comm_cons.
  rewrite split_message_crlf by set_solver. rewrite app_comm_cons, split_message_line by done.
  by destruct (split_message l) as [[]|].
Qed.

Lemma str_pretty_go (x : N) (s : string) : 13 ∉ str s -> 13 ∉ str (pretty_N_go x s).
Proof.
  revert s. induction (N.lt_wf_0 x) as [x _ IH]; intros s Hs.
  destruct (decide (x = 0%N)) as [->|Hx]; [by rewrite pretty_N_go_0|].
  rewrite pretty_N_go_step by lia. apply IH; [apply N.div_lt; lia|].
  cbn [str]. apply not_elem_of_cons. split; [|done].
  unfold pretty_N_char. by repeat case_match.
Qed.

Lemma pretty_N_no_cr (x : N) : 13 ∉ str (pretty x).
Proof.
  unfold pretty, pretty_N. destruct (decide (x = 0%N)).
  - apply (bool_decide_unpack _). by vm_compute.
  - by apply str_pretty_go, not_elem_of_nil.
Qed.

Lemma decimal_no_cr n : 0 <= n -> 13 ∉ decimal n.
Proof.
  intros Hn. unfold decimal. destruct n as [|p|p]; [|apply (pretty_N_no_cr (N.pos p))|lia].
  apply (pretty_N_no_cr 0).
Qed.

(** What a reader gets back. *)
Lemma plain_response_split status reason content_type body :
  13 ∉ reason -> 13 ∉ content_type -> 0 <= status ->
  split_message (plain_response status reason content_type body) =
    Some (str "HTTP/1.1 " ++ decimal status ++ str " " ++ reason ++ crlf ++
          str "Content-Length: " ++ decimal (len body) ++ crlf ++
          str "Content-Type: " ++ content_type ++ crlf ++
          str "Connection: close", body).
Proof.
  intros Hr Hc Hs. unfold plain_response.
  assert (H13 : forall s, bool_decide (13 ∉ str s) = true -> 13 ∉ str s)
    by (intros s; apply bool_decide_eq_true_1).
  rewrite split_message_line by (by apply H13).
  rewrite split_message_line by (by apply decimal_no_cr).
  rewrite split_message_line by (by apply H13).
  rewrite split_message_line by done.
  rewrite split_message_crlf_line by (first [done | by apply H13]).
  rewrite split_message_line by (apply decimal_no_cr, len_nonneg).
  rewrite split_message_crlf_line by (first [done | by apply H13]).
  rewrite split_message_line by done.
  rewrite split_message_crlf_line by (first [done | by apply H13]).
  rewrite (assoc_L (++) crlf crlf). change (crlf ++ crlf) with end_of_headers.
  rewrite split_message_found. cbn [mbind option_bind]. by rewrite app_nil_r.
Qed.

(** The phrases of the async-std handler for the statuses hyper is given. *)
Definition reason_of (status : Z) : bytes :=
  match status with
  | 200 => str "OK"
  | 403 => str "Forbidden"
  | 404 => str "Not Found"
  | 405 => str "Method Not Allowed"
  | _ => str "Internal Server Error"
  end.

Definition render (r : Response) : bytes :=
  plain_response (status r) (reason_of (status r)) (content_type r) (body r).

Section Claims.
Context {W : Type} `{StaticEnv W}.

(** C39: A served file lies below the root.  [resolve_path] answers [Ok p]
    only when the root is a prefix of [p], which is what the file system made of the
    root followed by the names in the URI, none of them empty, a dot, two dots or
    holding a NUL, a slash, a backslash or a drive, and when [p] is a file; and one
    segment that is malformed or stands for such a name, however it is escaped, is
    enough for [Forbidden], before the file system is asked anything. *)
Theorem resolve_path_confined root uri_path :
  wp (resolve_path root uri_path) (fun r log =>
    match r with
    | Ok p =>
        exists segments dir, names (split 47 uri_path) segments /\
          Forall (good_segment has_prefix) segments /\ root `prefix_of` p /\
          let index := if (dir : bool) || bool_decide (last uri_path = Some 47)
                       then [str "index.html"] else [] in
          log = [CheckedDir (root ++ segments) dir;
                 Canonicalized ((root ++ segments) ++ index) (Ok p); CheckedFile p true]
    | Err _ => True
    end) /\
  (forall raw, raw ∈ split 47 uri_path -> refused has_prefix raw ->
     wp (resolve_path root uri_path) (fun r log => r = Err Forbidden /\ log = [])).
Proof.
  split.
  - unfold resolve_path. destruct (push_segments _ root _) as [candidate|e] eqn:E; [|by apply wp_ret].
    apply push_segments_ok in E as (segments & -> & Hd & Hg).
    apply wp_bind, wp_call. intros dir. apply wp_bind, wp_call. intros [canonical|error]; [|by apply wp_ret].
    destruct (bool_decide (root `prefix_of` canonical)) eqn:Ep; [|by apply wp_ret].
    apply wp_bind, wp_call. intros []; apply wp_ret; [|done].
    exists segments, dir. apply bool_decide_eq_true in Ep. split_and!; [done..|].
    destruct (dir || _); simpl; by rewrite ?app_nil_r.
  - intros raw Hin Hbad. unfold resolve_path.
    rewrite (push_segments_refuses has_prefix root _ raw Hin Hbad). by apply wp_ret.
Qed.

(** The root that is served is what the file system calls canonical, and a
    directory; nothing else is accepted. *)
Theorem canonical_root_spec display root :
  wp (canonical_root display root) (fun r log =>
    match r with
    | Ok p => log = [Canonicalized root (Ok p); CheckedDir p true]
    | Err e => exists message, e = InvalidConfig message
    end).
Proof.
  apply wp_bind, wp_call. intros [p|error]; [|apply wp_ret; eauto].
  apply wp_bind, wp_call. intros []; apply wp_ret; eauto.
Qed.

(** C40: Percent decoding inverts percent encoding and accepts nothing else.
    Whatever bytes a client keeps or escapes, with digits of either case, decoding gives
    the string back; decoding succeeds exactly on strings in which every percent sign is
    followed by two hexadecimal digits, of either case, and which stand for valid UTF-8,
    answers what they stand for, and is [Forbidden] otherwise. *)
Theorem percent_decode_roundtrip lower keep s :
  keep 37 = false -> bytes_ok s -> utf8_valid s = true ->
  percent_decode (percent_encode lower keep s) = Ok s /\
  (forall raw d, percent_decode raw = Ok d <-> escapes raw d /\ utf8_valid d = true) /\
  (forall raw e, percent_decode raw = Err e -> e = Forbidden).
Proof.
  intros Hk Hs Hv.
  split_and!; [|apply percent_decode_means|apply percent_decode_err].
  apply percent_decode_means. split; [by apply escapes_encode|done].
Qed.

(** Both runtimes serve the same.  For a request line with a known method, the
    bytes the async-std handler writes are the response hyper is given for the same
    method and path, printed; and they reach the file system with the same calls. *)
Theorem runtimes_agree root request line method target rest :
  first_line (chars_lossy request) = Some line ->
  split_whitespace line = method :: target :: rest ->
  forall w, plain_response_for_request root request w =
    let '(r, w', l) := serve_request root method (before_once 63 target) w in (render r, w', l).
Proof.
  intros Hl Hp w. unfold plain_response_for_request, serve_request. rewrite Hl, Hp. cbn [lookup list_lookup default].
  assert (Hgh : str "GET" <> str "HEAD") by done.
  destruct (decide (method = str "GET")) as [->|Hget]; [|destruct (decide (method = str "HEAD")) as [->|Hhead]].
  all: rewrite ?(bool_decide_true (_ = str "GET")), ?(bool_decide_true (_ = str "HEAD")),
         ?(bool_decide_false (_ = str "GET")), ?(bool_decide_false (_ = str "HEAD")) by done.
  3: done.
  all: cbn [negb andb]; unfold response_for_path, mbind, prog_bind;
    destruct (resolve_path _ _ w) as [[[p|[]] w1] l1]; [|done..];
    unfold read_file, call; destruct (fs_read p w1) as [[b|error] w2]; simpl; [done|];
    by destruct (bool_decide (Io.kind error = Io.NotFound)).
Qed.

(** A response can be read back: its head ends at the first empty line,
    whatever the body holds, names the body's length, and what follows is the body. *)
Theorem plain_response_roundtrip r :
  13 ∉ content_type r -> 0 <= status r ->
  exists head, split_message (render r) = Some (head, body r) /\
    contains (str "Content-Length: " ++ decimal (len (body r)) ++ crlf) head = true.
Proof.
  intros Hc Hs. unfold render. rewrite plain_response_split by
    (first [done | unfold reason_of; repeat case_match; by apply (bool_decide_unpack _)]).
  eexists. split; [done|]. apply contains_spec.
  exists (str "HTTP/1.1 " ++ decimal (status r) ++ str " " ++ reason_of (status r) ++ crlf),
    (str "Content-Type: " ++ content_type r ++ crlf ++ str "Connection: close").
  by rewrite !(assoc_L (++)).
Qed.
End Claims.

(** ** Reading a request *)

Definition received (e : event) : bytes := match e with Received b => b | _ => [] end.
Definition all_received (l : list event) : bytes := concat (received <$> l).
Definition written (e : event) : list bytes := match e with WroteAll b => [b] | _ => [] end.
Definition all_written (l : list event) : list bytes := concat (written <$> l).

Lemma all_received_app l1 l2 : all_received (l1 ++ l2) = all_received l1 ++ all_received l2.
Proof. unfold all_received. by rewrite fmap_app, concat_app. Qed.
Lemma all_received_one b : all_received [Received b] = b.
Proof. apply app_nil_r. Qed.
Lemma all_received_nil : all_received [] = [].
Proof. done. Qed.
Lemma all_written_app l1 l2 : all_written (l1 ++ l2) = all_written l1 ++ all_written l2.
Proof. unfold all_written. by rewrite fmap_app, concat_app. Qed.

(** Answering takes nothing from the connection and writes nothing to it. *)
Lemma wp_plain_response_quiet {W} `{StaticEnv W} root request :
  wp (plain_response_for_request root request) (fun _ l => all_received l = [] /\ all_written l = []).
Proof.
  unfold plain_response_for_request. destruct (first_line _) as [line|]; [|by apply wp_ret].
  case_match; [by apply wp_ret|]. apply wp_bind.
  eapply (wp_mono _ (fun _ l => all_received l = [] /\ all_written l = [])).
  - unfold resolve_path. destruct (push_segments _ _ _); [|by apply wp_ret].
    apply wp_bind, wp_call. intros dir. apply wp_bind, wp_call. intros [p|e]; [|by apply wp_ret].
    case_match; [by apply wp_ret|]. apply wp_bind, wp_call. intros f. by apply wp_ret.
  - intros [p|[]] l [Hr Hw]; [|apply wp_ret; by rewrite app_nil_r..].
    apply wp_bind, wp_call. intros b. apply wp_ret.
    by rewrite !all_received_app, !all_written_app, Hr, Hw.
Qed.

Section Reading.
Context {W : Type} `{ReadLaws W}.

(** What [read_request] answers, given what came over the connection. *)
Definition request_answer (input : bytes) (r : crate_result bytes) : Prop :=
  match r with
  | Ok request =>
      request = [] \/ (request = input /\ contains end_of_headers request = true)
  | Err e => (e = incomplete_headers /\ 8192 < len input) \/ exists error, e = Error_from error
  end.

Lemma wp_read_loop fuel request :
  len request <= 9216 -> (Z.to_nat (8193 - len request) < fuel)%nat ->
  wp (read_loop fuel request) (fun r log =>
    exists res, r = Some res /\ all_written log = [] /\
      len (request ++ all_received log) <= 9216 /\ request_answer (request ++ all_received log) res).
Proof.
  revert request. induction fuel as [|fuel IH]; intros request Hl Hf; [lia|]. cbn [read_loop].
  destruct (Z.leb_spec (len request) 8192) as [Hle|Hgt].
  2: { apply wp_ret. eexists. split; [done|]. rewrite all_received_nil, app_nil_r.
       split_and!; [done|done|]. left. split; [done|lia]. }
  apply wp_bind, wp_call_known. intros w. pose proof (read_fits 1024 w) as Hfit.
  destruct (stream_read 1024 w).1 as [buffer|error].
  2: { apply wp_ret. eexists. split; [done|]. rewrite app_nil_r, all_received_one, app_nil_r.
       split_and!; [done|done|]. right. eauto. }
  specialize (Hfit buffer ltac:(lia) eq_refl). assert (Hlen : len (request ++ buffer) = len request + len buffer).
  { unfold len. rewrite length_app. lia. }
  case_bool_decide as Hb.
  { subst. apply wp_ret. eexists. split; [done|]. rewrite app_nil_r, all_received_one, app_nil_r.
    split_and!; [done|done|]. by left. }
  assert (Hpos : 0 < len buffer) by (destruct buffer; [done|unfold len; simpl; lia]).
  destruct (contains end_of_headers (request ++ buffer)) eqn:Ec.
  - apply wp_ret. eexists. split; [done|]. rewrite app_nil_r, all_received_one.
    split_and!; [done|lia|]. by right.
  - eapply wp_mono; [apply IH; lia|]. intros r log (res & -> & Hw & Hlen' & Ha).
    exists res. rewrite all_written_app, all_received_app, Hw, all_received_one, !(assoc_L (++)).
    by split_and!.
Qed.

(** Reading a request ends and is bounded.  Whatever the connection
    delivers, and however it is cut into pieces, [read_request] ends after at most 8194
    reads, having taken at most 9216 bytes; it answers the empty request at the end of
    the stream, or everything received, which then holds the empty line, and reports
    incomplete headers only past 8192 bytes; and the connection is answered at most
    once, only after a complete request. *)
Theorem requests_are_bounded root :
  wp (read_loop read_fuel []) (fun r log => exists res, r = Some res /\
    len (all_received log) <= 9216 /\ request_answer (all_received log) res) /\
  wp (serve_plain_connection root) (fun r log =>
    len (all_received log) <= 9216 /\
    (all_written log = [] \/
     exists response, all_written log = [response] /\
       contains end_of_headers (all_received log) = true)).
Proof.
  assert (Hloop : wp (read_loop read_fuel []) (fun r log => exists res, r = Some res /\
    all_written log = [] /\ len (all_received log) <= 9216 /\ request_answer (all_received log) res)).
  { apply (wp_read_loop read_fuel []); [by vm_compute|]. apply Nat.ltb_lt. by vm_compute. }
  split.
  - eapply wp_mono; [exact Hloop|].
    intros r log (res & -> & _ & Hl & Ha). by exists res.
  - apply wp_try, wp_bind. eapply wp_mono; [exact Hloop|].
    intros r log (res & -> & Hw & Hl & Ha). apply wp_ret. simpl. rewrite app_nil_r.
    destruct res as [request|e]; [|by auto]. case_bool_decide as Hr.
    { apply wp_ret. rewrite app_nil_r. auto. }
    destruct Ha as [|[-> Hc]]; [done|].
    apply wp_bind. eapply wp_mono; [apply wp_plain_response_quiet|]. intros response log' [Hr' Hw'].
    apply wp_bind, wp_call. intros r'. apply wp_ret.
    rewrite !all_received_app, !all_written_app, Hw, Hw', Hr'. simpl. rewrite app_nil_r.
    split; [done|]. right. eauto.
Qed.
End Reading.

(** ** A concrete server: one directory, every other path is a file holding "hi" *)

Definition demo_request : bytes := str "HEAD /a%20b.html?x=1 HTTP/1.1" ++ end_of_headers.

#[local] Instance demo_env : StaticEnv unit := {|
  has_prefix s := bool_decide (take 1 s = [47]);
  fs_is_dir p w := (bool_decide (p = [str "srv"]), w);
  fs_canonicalize p w := (Ok p, w);
  fs_is_file _ w := (true, w);
  fs_read _ w := (Ok (str "hi"), w);
  stream_read n w := (Ok (take (Z.to_nat n) demo_request), w);
  stream_write_all _ w := (Ok (), w);
|}.

#[local] Instance demo_laws : ReadLaws unit.
Proof. intros n w b Hn [= <-]. unfold len. rewrite length_take. lia. Qed.

Lemma resolve_path_confined_witness :
  value (resolve_path [str "srv"] (str "/a%20b.html")) () = Ok [str "srv"; str "a b.html"] /\
  log (resolve_path [str "srv"] (str "/x/%2e%2e/etc")) () = [].
Proof.
  split; [vm_compute; reflexivity|].
  destruct (resolve_path_confined (W := unit) [str "srv"] (str "/x/%2e%2e/etc")) as [_ Hbad].
  refine (proj2 (Hbad (str "%2e%2e") _ _ ())).
  - apply (bool_decide_unpack _). vm_compute. exact I.
  - split; [discriminate|]. intros s Hs%percent_decode_means.
    assert (percent_decode (str "%2e%2e") = Ok (str "..")) as E by (vm_compute; reflexivity).
    rewrite E in Hs. injection Hs as <-. split; [discriminate|by left].
Defined.

Lemma percent_decode_roundtrip_witness :
  percent_encode true (fun b => negb (b =? 37) && negb (b =? 47)) (str "50% a/b") = str "50%25 a%2fb" /\
  percent_decode (percent_encode true (fun b => negb (b =? 37) && negb (b =? 47)) (str "50% a/b")) =
    Ok (str "50% a/b") /\
  percent_decode (str "%4") = Err Forbidden.
Proof.
  split; [reflexivity|]. split; [|vm_compute; reflexivity].
  refine (proj1 (percent_decode_roundtrip true (fun b => negb (b =? 37) && negb (b =? 47)) (str "50% a/b") _ _ _));
    [reflexivity|apply (bool_decide_unpack _); vm_compute; exact I|vm_compute; reflexivity].
Defined.

Definition demo_line : list bytes := (fun b : Z => [b]) <$> str "HEAD /a%20b.html?x=1 HTTP/1.1".

Lemma demo_line_first : first_line (chars_lossy demo_request) = Some demo_line.
Proof. vm_compute. reflexivity. Qed.
Lemma demo_line_words :
  split_whitespace demo_line = str "HEAD" :: str "/a%20b.html?x=1" :: [str "HTTP/1.1"].
Proof. vm_compute. reflexivity. Qed.

Lemma runtimes_agree_witness :
  (plain_response_for_request [str "srv"] demo_request ()).1.1 =
    plain_response 200 (str "OK") (str "text/html; charset=utf-8") [].
Proof.
  rewrite (runtimes_agree [str "srv"] demo_request demo_line (str "HEAD") (str "/a%20b.html?x=1")
    [str "HTTP/1.1"] demo_line_first demo_line_words ()).
  vm_compute. reflexivity.
Defined.

Lemma plain_response_roundtrip_witness :
  exists head, split_message (render (mkResponse 200 plain_text (crlf ++ crlf))) = Some (head, crlf ++ crlf).
Proof.
  destruct (plain_response_roundtrip (mkResponse 200 plain_text (crlf ++ crlf))) as (head & Hh & _).
  - apply (bool_decide_unpack _). vm_compute. exact I.
  - simpl. lia.
  - exists head. exact Hh.
Defined.

Lemma requests_are_bounded_witness :
  len (all_received (log (read_loop (W := unit) read_fuel []) ())) <= 9216.
Proof.
  destruct (requests_are_bounded (W := unit) [str "srv"]) as [Hr _].
  destruct (Hr ()) as (res & _ & Hl & _). exact Hl.
Defined.

(** A HEAD response announces a length of zero although the file is not empty, and an
    error response to HEAD carries its body. *)
Example head_responses :
  value (plain_response_for_request [str "srv"] (str "HEAD /a.txt HTTP/1.1" ++ end_of_headers)) () =
    plain_response 200 (str "OK") plain_text [] /\
  value (plain_response_for_request [str "srv"] (str "GET /a.txt HTTP/1.1" ++ end_of_headers)) () =
    plain_response 200 (str "OK") plain_text (str "hi") /\
  value (plain_response_for_request [str "srv"] (str "HEAD /.. HTTP/1.1" ++ end_of_headers)) () =
    plain_response 403 (str "Forbidden") plain_text (str "forbidden").
Proof. vm_compute. done. Qed.
