(* ===== verification/Config.v ===== *)
(** * Configuration: [src/src/core/config.rs]

    Service and runtime configurations, their builders and their validation, and
    the [SocketConfig] interface through which the platform layer reads either
    service configuration. *)

From S2P Require Import Prelude Errors Net.

Inductive TransparentMode := Disabled | Required | BestEffort.

Record SocketOptions := mkOptions {
  reuse_address : bool;
  ipv4_transparent : TransparentMode;
  ipv6_transparent : TransparentMode;
}.

Inductive WorkerCount := DefaultWorkers | Fixed (n : Z).

#[export] Instance TransparentMode_eq_dec : EqDecision TransparentMode.
Proof. solve_decision. Defined.
#[export] Instance SocketOptions_eq_dec : EqDecision SocketOptions.
Proof. solve_decision. Defined.
#[export] Instance WorkerCount_eq_dec : EqDecision WorkerCount.
Proof. solve_decision. Defined.

(** [SocketOptions::default()] *)
Definition SocketOptions_default : SocketOptions := mkOptions true Disabled Disabled.

Definition DEFAULT_ROUTED_PACKET_CHANNEL_CAPACITY : Z := 4096.

(** The trait [SocketConfig]: what the platform layer needs of a configuration. *)
Class SocketConfig (CB Cfg : Type) := {
  bind_addr : Cfg -> SocketAddr;
  socket_options : Cfg -> SocketOptions;
  socket_init_callback : Cfg -> option CB;
}.

Module Tcp.
Section Tcp.
Context {CB : Type}.

Record TcpServiceConfig := mkConfig {
  cfg_bind_addr : SocketAddr;
  cfg_socket_options : SocketOptions;
  cfg_socket_init_callback : option CB;
  cfg_max_concurrency_per_worker : option Z;
}.

Definition new (bind_addr : SocketAddr) : TcpServiceConfig :=
  mkConfig bind_addr SocketOptions_default None None.

Definition with_socket_options (self : TcpServiceConfig) (o : SocketOptions) :=
  mkConfig (cfg_bind_addr self) o (cfg_socket_init_callback self)
    (cfg_max_concurrency_per_worker self).
Definition with_socket_init_callback (self : TcpServiceConfig) (callback : CB) :=
  mkConfig (cfg_bind_addr self) (cfg_socket_options self) (Some callback)
    (cfg_max_concurrency_per_worker self).
Definition without_socket_init_callback (self : TcpServiceConfig) :=
  mkConfig (cfg_bind_addr self) (cfg_socket_options self) None
    (cfg_max_concurrency_per_worker self).
Definition with_max_concurrency_per_worker (self : TcpServiceConfig) (max : Z) :=
  mkConfig (cfg_bind_addr self) (cfg_socket_options self) (cfg_socket_init_callback self)
    (Some max).

Definition validate (self : TcpServiceConfig) : crate_result unit := Ok ().
End Tcp.
Arguments TcpServiceConfig CB : clear implicits.

#[global] Instance socket_config {CB} : SocketConfig CB (TcpServiceConfig CB) := {|
  bind_addr := cfg_bind_addr;
  socket_options := cfg_socket_options;
  socket_init_callback := cfg_socket_init_callback;
|}.
End Tcp.

Module Udp.
Section Udp.
Context {CB : Type}.

Record UdpServiceConfig := mkConfig {
  cfg_bind_addr : SocketAddr;
  cfg_socket_options : SocketOptions;
  cfg_socket_init_callback : option CB;
  cfg_max_concurrency_per_worker : option Z;
  routed_packet_channel_capacity : Z;
}.

Definition new (bind_addr : SocketAddr) : UdpServiceConfig :=
  mkConfig bind_addr SocketOptions_default None None DEFAULT_ROUTED_PACKET_CHANNEL_CAPACITY.

Definition with_socket_options (self : UdpServiceConfig) (o : SocketOptions) :=
  mkConfig (cfg_bind_addr self) o (cfg_socket_init_callback self)
    (cfg_max_concurrency_per_worker self) (routed_packet_channel_capacity self).
Definition with_socket_init_callback (self : UdpServiceConfig) (callback : CB) :=
  mkConfig (cfg_bind_addr self) (cfg_socket_options self) (Some callback)
    (cfg_max_concurrency_per_worker self) (routed_packet_channel_capacity self).
Definition without_socket_init_callback (self : UdpServiceConfig) :=
  mkConfig (cfg_bind_addr self) (cfg_socket_options self) None
    (cfg_max_concurrency_per_worker self) (routed_packet_channel_capacity self).
Definition with_max_concurrency_per_worker (self : UdpServiceConfig) (max : Z) :=
  mkConfig (cfg_bind_addr self) (cfg_socket_options self) (cfg_socket_init_callback self)
    (Some max) (routed_packet_channel_capacity self).
(** Windows only. *)
Definition with_routed_packet_channel_capacity (self : UdpServiceConfig) (capacity : Z) :=
  mkConfig (cfg_bind_addr self) (cfg_socket_options self) (cfg_socket_init_callback self)
    (cfg_max_concurrency_per_worker self) capacity.
(** [worker_config.bind_addr = addr] *)
Definition with_bind_addr (self : UdpServiceConfig) (addr : SocketAddr) :=
  mkConfig addr (cfg_socket_options self) (cfg_socket_init_callback self)
    (cfg_max_concurrency_per_worker self) (routed_packet_channel_capacity self).

Definition validate_routed_packet_channel_capacity (self : UdpServiceConfig) : crate_result unit :=
  if bool_decide (routed_packet_channel_capacity self = 0)
  then Err (InvalidConfig "routed packet channel capacity must be greater than zero")
  else Ok ().

Definition validate (self : UdpServiceConfig) : crate_result unit :=
  validate_routed_packet_channel_capacity self.
End Udp.
Arguments UdpServiceConfig CB : clear implicits.

#[global] Instance socket_config {CB} : SocketConfig CB (UdpServiceConfig CB) := {|
  bind_addr := cfg_bind_addr;
  socket_options := cfg_socket_options;
  socket_init_callback := cfg_socket_init_callback;
|}.
End Udp.

Module Server.
Record ServerRuntimeConfig := mkConfig { workers : WorkerCount }.

Definition default : ServerRuntimeConfig := mkConfig DefaultWorkers.
Definition new : ServerRuntimeConfig := default.
Definition with_workers (self : ServerRuntimeConfig) (workers : Z) : ServerRuntimeConfig :=
  mkConfig (Fixed workers).

Definition validate (self : ServerRuntimeConfig) : crate_result unit :=
  if bool_decide (workers self = Fixed 0)
  then Err (InvalidConfig "worker count must be greater than zero")
  else Ok ().
End Server.

(** [uses_transparent_receive] of [src/src/core/udp.rs]; [supported] is
    [cfg!(all(target_os = "linux", feature = "runtime-tokio"))]. *)
Definition uses_transparent_receive {CB} (supported : bool) (config : Udp.UdpServiceConfig CB) : bool :=
  supported &&
  match ipv4_transparent (Udp.cfg_socket_options config),
        ipv6_transparent (Udp.cfg_socket_options config) with
  | Required, _ | BestEffort, _ => true
  | _, Required | _, BestEffort => true
  | _, _ => false
  end.

Lemma udp_validate_Ok {CB} (c : Udp.UdpServiceConfig CB) :
  Udp.validate c = Ok () <-> Udp.routed_packet_channel_capacity c <> 0.
Proof.
  unfold Udp.validate, Udp.validate_routed_packet_channel_capacity. case_bool_decide; naive_solver.
Qed.
