(* ===== verification/Platform.v ===== *)
(** * Socket creation: [src/src/platform/mod.rs], [linux.rs], [bsd.rs], [windows.rs], [unix.rs]

    How a listening socket is made: which system calls, in which order, what each
    error becomes, and which descriptors stay open.  The operating system is an
    interface that answers every call arbitrarily; descriptors are dropped where the
    Rust value that owns them goes out of scope. *)

From S2P Require Import Prelude Errors Net Effects Config Bpf.

Notation fd := Z (only parsing).

(** [cfg(target_os)] and [cfg(feature)] of the build. *)
Inductive target := Linux | Android | Bsd | Windows.
Inductive runtime_feature := RuntimeTokio | RuntimeAsyncStd.

#[export] Instance target_eq_dec : EqDecision target.
Proof. solve_decision. Defined.
#[export] Instance runtime_feature_eq_dec : EqDecision runtime_feature.
Proof. solve_decision. Defined.

(** Constants of [libc] the transparent options use. *)
Definition SOL_IP : Z := 0.
Definition IP_ORIGDSTADDR : Z := 20.
Definition IP_FREEBIND : Z := 15.
Definition SOL_IPV6 : Z := 41.
Definition IPV6_RECVORIGDSTADDR : Z := 74.
Definition IPV6_FREEBIND : Z := 78.

(** Operations on an open socket, as they appear in the event log. *)
Inductive sock_op :=
| InitCallback (s : fd)
| SetReuseAddress (s : fd) (on : bool)
| SetReusePort (s : fd) (on : bool)
| SetTransparentV4 (s : fd) (on : bool)
| SetTransparentV6 (s : fd) (on : bool)
| SetOptInt (s : fd) (level name value : Z)
| Bind (s : fd) (addr : SocketAddr)
| Listen (s : fd) (backlog : Z)
| SetNonblocking (s : fd) (on : bool)
| GetLocalAddr (s : fd)
| LoadEbpf (program : list Ebpf.BpfInsn)
| AttachEbpf (s program_fd : fd)
| AttachCbpf (s : fd) (filter : list Cbpf.SockFilter)
| SendTo (s : fd) (data : bytes) (target : SocketAddr)
| RecvFrom (s : fd) (data : bytes).

#[export] Instance sock_op_eq_dec : EqDecision sock_op.
Proof. solve_decision. Defined.

Inductive sock_type := STREAM | DGRAM.

(** [Opened]/[Closed]: a descriptor was created or its owner dropped; [Did op ok]:
    the operation was performed and succeeded or not. *)
Inductive sys_event :=
| Opened (s : fd)
| OpenFailed
| Closed (s : fd)
| Did (op : sock_op) (ok : bool).

(** The calls of [socket2], [std::net] and [libc] made while binding, and the
    user's callback.  No law is assumed. *)
Class Os (W CB : Type) := {
  os_socket : SocketAddr -> sock_type -> W -> io_result fd * W;
  os_set_reuse_address : fd -> bool -> W -> io_result unit * W;
  os_set_reuse_port : fd -> bool -> W -> io_result unit * W;
  os_set_ip_transparent_v4 : fd -> bool -> W -> io_result unit * W;
  os_set_ip_transparent_v6 : fd -> bool -> W -> io_result unit * W;
  os_setsockopt : fd -> Z -> Z -> Z -> W -> (Z * Io.Error) * W;
  os_bind : fd -> SocketAddr -> W -> io_result unit * W;
  os_listen : fd -> Z -> W -> io_result unit * W;
  os_set_nonblocking : fd -> bool -> W -> io_result unit * W;
  os_local_addr : fd -> W -> io_result SocketAddr * W;
  os_close : fd -> W -> unit * W;
  os_init_callback : CB -> fd -> W -> crate_result unit * W;
}.

Record PlatformCapabilities := mkCaps {
  reuse_port_balancing : bool;
  quic_reuseport_bpf : bool;
}.

(** [imp::supports_reuse_port_balancing], [imp::supports_quic_reuseport_bpf] *)
Definition supports_reuse_port_balancing (t : target) : bool :=
  match t with Linux | Android | Bsd => true | Windows => false end.
Definition supports_quic_reuseport_bpf (t : target) : bool :=
  match t with Linux => true | Android | Bsd | Windows => false end.

Definition capabilities (t : target) : PlatformCapabilities :=
  mkCaps (supports_reuse_port_balancing t) (supports_quic_reuseport_bpf t).

Section Platform.
Context {W CB : Type} `{Os W CB} (t : target).

#[local] Abbreviation io A := (prog W sys_event A).
#[local] Abbreviation op f o := (call f (fun r => Did o (is_ok r))).

Definition drop_socket (s : fd) : io unit := call (os_close s) (fun _ => Closed s).

(** [map_err(Error::from)] *)
Definition from_io {A} (m : io (io_result A)) : io (crate_result A) := prog_map_err Error_from m.

(** A socket owned by a local variable: an early return drops it. *)
Definition owning {A} (s : fd) (m : io (crate_result A)) : io (crate_result A) :=
  r ← m;
  match r with
  | Ok a => mret (Ok a)
  | Err e => _ ← drop_socket s; mret (Err e)
  end.

Definition socket_new (addr : SocketAddr) (ty : sock_type) : io (io_result fd) :=
  call (os_socket addr ty) (fun r => match r with Ok s => Opened s | Err _ => OpenFailed end).

(** *** Options *)

(** [set_socket_opt_int]: zero is success, else the last OS error. *)
Definition set_socket_opt_int (s : fd) (level name value : Z) : io (io_result unit) :=
  call (fun w => let '((result, last_error), w) := os_setsockopt s level name value w in
                 (if result =? 0 then Ok () else Err last_error, w))
       (fun r => Did (SetOptInt s level name value) (is_ok r)).

(** [apply_ipv4_transparent] and [apply_ipv6_transparent] of [linux.rs]. *)
Definition apply_ipv4_transparent {Cfg} `{SocketConfig CB Cfg} (s : fd) (config : Cfg) :
    io (crate_result unit) :=
  match ipv4_transparent (socket_options config) with
  | Disabled => mret (Ok ())
  | BestEffort =>
      if negb (is_ipv4 (bind_addr config)) then mret (Ok ())
      else
        _ ← op (os_set_ip_transparent_v4 s true) (SetTransparentV4 s true);
        _ ← set_socket_opt_int s SOL_IP IP_ORIGDSTADDR 1;
        _ ← set_socket_opt_int s SOL_IP IP_FREEBIND 1;
        mret (Ok ())
  | Required =>
      if negb (is_ipv4 (bind_addr config))
      then mret (Err (UnsupportedPlatformOption "ipv4 transparent requires an IPv4 bind address"))
      else
        _ ←? from_io (op (os_set_ip_transparent_v4 s true) (SetTransparentV4 s true));
        _ ←? from_io (set_socket_opt_int s SOL_IP IP_ORIGDSTADDR 1);
        from_io (set_socket_opt_int s SOL_IP IP_FREEBIND 1)
  end.

Definition apply_ipv6_transparent {Cfg} `{SocketConfig CB Cfg} (s : fd) (config : Cfg) :
    io (crate_result unit) :=
  match ipv6_transparent (socket_options config) with
  | Disabled => mret (Ok ())
  | BestEffort =>
      if negb (is_ipv6 (bind_addr config)) then mret (Ok ())
      else
        _ ← op (os_set_ip_transparent_v6 s true) (SetTransparentV6 s true);
        _ ← set_socket_opt_int s SOL_IPV6 IPV6_RECVORIGDSTADDR 1;
        _ ← set_socket_opt_int s SOL_IPV6 IPV6_FREEBIND 1;
        mret (Ok ())
  | Required =>
      if negb (is_ipv6 (bind_addr config))
      then mret (Err (UnsupportedPlatformOption "ipv6 transparent requires an IPv6 bind address"))
      else
        _ ←? from_io (op (os_set_ip_transparent_v6 s true) (SetTransparentV6 s true));
        _ ←? from_io (set_socket_opt_int s SOL_IPV6 IPV6_RECVORIGDSTADDR 1);
        from_io (set_socket_opt_int s SOL_IPV6 IPV6_FREEBIND 1)
  end.

(** [imp::apply_transparent]: Linux and Android; the BSDs and Windows. *)
Definition apply_transparent_linux {Cfg} `{SocketConfig CB Cfg} (s : fd) (config : Cfg) :
    io (crate_result unit) :=
  _ ←? apply_ipv4_transparent s config;
  _ ←? apply_ipv6_transparent s config;
  mret (Ok ()).

Definition apply_transparent_unsupported {Cfg} `{SocketConfig CB Cfg} (config : Cfg) :
    crate_result unit :=
  match ipv4_transparent (socket_options config), ipv6_transparent (socket_options config) with
  | Required, _ | _, Required =>
      Err (UnsupportedPlatformOption "transparent sockets are only supported on Linux targets")
  | _, _ => Ok ()
  end.

Definition apply_transparent {Cfg} `{SocketConfig CB Cfg} (s : fd) (config : Cfg) :
    io (crate_result unit) :=
  match t with
  | Linux | Android => apply_transparent_linux s config
  | Bsd | Windows => mret (apply_transparent_unsupported config)
  end.

(** [imp::set_reuse_port]: [unix::set_reuse_port], nothing on Windows. *)
Definition set_reuse_port (s : fd) : io (crate_result unit) :=
  match t with
  | Linux | Android | Bsd => from_io (op (os_set_reuse_port s true) (SetReusePort s true))
  | Windows => mret (Ok ())
  end.

(** [apply_common_options] and [apply_socket_init_callback] of [mod.rs]. *)
Definition apply_common_options {Cfg} `{SocketConfig CB Cfg} (s : fd) (config : Cfg) :
    io (crate_result unit) :=
  let on := reuse_address (socket_options config) in
  _ ←? from_io (op (os_set_reuse_address s on) (SetReuseAddress s on));
  _ ←? set_reuse_port s;
  _ ←? apply_transparent s config;
  mret (Ok ()).

Definition apply_socket_init_callback {Cfg} `{SocketConfig CB Cfg} (s : fd) (config : Cfg) :
    io (crate_result unit) :=
  match socket_init_callback config with
  | Some callback =>
      _ ←? prog_map_err (fun error => SocketInitCallback (Error_display error))
             (op (os_init_callback callback s) (InitCallback s));
      mret (Ok ())
  | None => mret (Ok ())
  end.

(** *** Binding *)

Definition bind_tcp (config : Tcp.TcpServiceConfig CB) : io (crate_result fd) :=
  s ←? from_io (socket_new (bind_addr config) STREAM);
  owning s
    (_ ←? apply_socket_init_callback s config;
     _ ←? apply_common_options s config;
     _ ←? from_io (op (os_bind s (bind_addr config)) (Bind s (bind_addr config)));
     _ ←? from_io (op (os_listen s 1024) (Listen s 1024));
     _ ←? from_io (op (os_set_nonblocking s true) (SetNonblocking s true));
     mret (Ok s)).

Definition bind_udp (config : Udp.UdpServiceConfig CB) : io (crate_result fd) :=
  s ←? from_io (socket_new (bind_addr config) DGRAM);
  owning s
    (_ ←? apply_socket_init_callback s config;
     _ ←? apply_common_options s config;
     _ ←? from_io (op (os_bind s (bind_addr config)) (Bind s (bind_addr config)));
     _ ←? from_io (op (os_set_nonblocking s true) (SetNonblocking s true));
     mret (Ok s)).

(** Dropping a [Vec] of sockets drops its elements in order. *)
Fixpoint drop_all (l : list fd) : io unit :=
  match l with
  | [] => mret ()
  | s :: l => _ ← drop_socket s; drop_all l
  end.

Definition bind_tcp_workers (config : Tcp.TcpServiceConfig CB) (workers : Z) :
    io (crate_result (list fd)) :=
  if reuse_port_balancing (capabilities t)
  then collect (Z.to_nat workers) (bind_tcp config) drop_all []
  else s ←? bind_tcp config; mret (Ok [s]).

Definition bind_udp_workers (config : Udp.UdpServiceConfig CB) (workers : Z) :
    io (crate_result (list fd)) :=
  if reuse_port_balancing (capabilities t)
  then collect (Z.to_nat workers) (bind_udp config) drop_all []
  else s ←? bind_udp config; mret (Ok [s]).

End Platform.

(** ** Descriptor accounting *)

Definition opened1 (e : sys_event) : option fd := match e with Opened s => Some s | _ => None end.
Definition closed1 (e : sys_event) : option fd := match e with Closed s => Some s | _ => None end.
Definition opened (l : list sys_event) : list fd := omap opened1 l.
Definition closed (l : list sys_event) : list fd := omap closed1 l.

(** The descriptors opened are those closed plus the ones handed to the caller. *)
Definition balanced (l : list sys_event) (live : list fd) : Prop := opened l ≡ₚ closed l ++ live.

(** No descriptor is opened or closed. *)
Definition quiet (l : list sys_event) : Prop := opened l = [] /\ closed l = [].

Lemma opened_app l1 l2 : opened (l1 ++ l2) = opened l1 ++ opened l2.
Proof. apply omap_app. Qed.
Lemma closed_app l1 l2 : closed (l1 ++ l2) = closed l1 ++ closed l2.
Proof. apply omap_app. Qed.

Lemma quiet_nil : quiet [].
Proof. done. Qed.
Lemma quiet_did o b : quiet [Did o b].
Proof. done. Qed.
Lemma quiet_app l1 l2 : quiet l1 -> quiet l2 -> quiet (l1 ++ l2).
Proof. intros [O1 C1] [O2 C2]. split; rewrite ?opened_app, ?closed_app; by rewrite ?O1, ?O2, ?C1, ?C2. Qed.

Create HintDb quiet discriminated.
#[export] Hint Resolve quiet_nil quiet_did quiet_app : quiet.

Lemma balanced_quiet l : quiet l -> balanced l [].
Proof. intros [Ho Hc]. unfold balanced. by rewrite Ho, Hc. Qed.

(** Successful results of a list of sockets, or nothing. *)
Definition live {E A} (r : result E (list A)) : list A :=
  match r with Ok l => l | Err _ => [] end.
Definition live1 {E A} (r : result E A) : list A :=
  match r with Ok s => [s] | Err _ => [] end.

(** One rule of the calculus. *)
Ltac wp_step :=
  first [ apply wp_try | apply wp_map_err | apply wp_bind | apply wp_call | apply wp_ret
        | apply wp_emit | apply wp_ask ].

Section Accounting.
Context {W CB : Type} `{Os W CB} (t : target).
#[local] Abbreviation io A := (prog W sys_event A).

(** A program whose events open and close nothing. *)
Definition wp_quiet {A} (m : io A) : Prop := wp m (fun _ l => quiet l).

Lemma quiet_ret {A} (a : A) : wp_quiet (mret a).
Proof. by apply wp_ret. Qed.
Lemma quiet_op {A} (f : W -> A * W) (o : A -> sock_op) b : wp_quiet (call f (fun r => Did (o r) (b r))).
Proof. by apply wp_call. Qed.
Lemma quiet_bind {A B} (m : io A) (k : A -> io B) :
  wp_quiet m -> (forall a, wp_quiet (k a)) -> wp_quiet (m ≫= k).
Proof.
  intros Hm Hk. apply wp_bind. eapply wp_mono; [exact Hm|]. intros a l Hl.
  eapply wp_mono; [apply Hk|]. intros b l' Hl'. auto with quiet.
Qed.
Lemma quiet_map_err {E F A} (f : E -> F) (m : io (result E A)) :
  wp_quiet m -> wp_quiet (prog_map_err f m).
Proof. intros Hm. apply quiet_bind; [done|]. intros r. apply quiet_ret. Qed.
Lemma quiet_try {E A B} (m : io (result E A)) (k : A -> io (result E B)) :
  wp_quiet m -> (forall a, wp_quiet (k a)) -> wp_quiet (m ≫= (fun r =>
    match r with Ok a => k a | Err e => mret (Err e) end)).
Proof. intros Hm Hk. apply quiet_bind; [done|]. intros [a|e]; [apply Hk|apply quiet_ret]. Qed.

Ltac quiet_solve :=
  repeat (intros; first
    [ apply quiet_ret | apply quiet_op | apply quiet_map_err | apply quiet_try | apply quiet_bind ]).

Lemma quiet_apply_transparent {Cfg} `{SocketConfig CB Cfg} s (config : Cfg) :
  wp_quiet (apply_transparent t s config).
Proof.
  unfold apply_transparent, apply_transparent_linux, apply_ipv4_transparent,
    apply_ipv6_transparent, from_io, set_socket_opt_int.
  destruct t; try apply quiet_ret;
    (apply quiet_try; [|intros; apply quiet_try; [|intros; apply quiet_ret]]);
    repeat case_match; quiet_solve.
Qed.

Lemma quiet_common_options {Cfg} `{SocketConfig CB Cfg} s (config : Cfg) :
  wp_quiet (apply_common_options t s config).
Proof.
  unfold apply_common_options, set_reuse_port, from_io.
  apply quiet_try; [quiet_solve|]. intros _. apply quiet_try.
  { destruct t; quiet_solve. }
  intros _. apply quiet_try; [apply quiet_apply_transparent|]. intros; apply quiet_ret.
Qed.

Lemma quiet_init_callback {Cfg} `{SocketConfig CB Cfg} s (config : Cfg) :
  wp_quiet (apply_socket_init_callback s config).
Proof. unfold apply_socket_init_callback. case_match; quiet_solve. Qed.

(** What making one socket leaves: nothing was opened, or one socket was opened,
    configured, and returned or closed. *)
Definition single (r : crate_result fd) (l : list sys_event) : Prop :=
  (l = [OpenFailed] /\ exists e, r = Err e) \/
  exists s l', quiet l' /\
    match r with
    | Ok s' => s' = s /\ l = Opened s :: l'
    | Err _ => l = Opened s :: l' ++ [Closed s]
    end.

Lemma wp_owning addr ty (body : fd -> io (crate_result fd)) :
  (forall s, wp (body s) (fun r l => quiet l /\ forall s', r = Ok s' -> s' = s)) ->
  wp (try_bind (from_io (socket_new addr ty)) (fun s => owning s (body s))) single.
Proof.
  intros Hb. unfold from_io, socket_new, owning, drop_socket.
  wp_step. wp_step. wp_step. intros [s|e]; simpl; [|left; eauto].
  wp_step. eapply wp_mono; [apply Hb|]. intros [s'|e] l [Hl Hs].
  - wp_step. right. exists s, l. rewrite app_nil_r, (Hs s') by done. done.
  - wp_step. wp_step. intros []. wp_step. right. exists s, l. by rewrite app_nil_r.
Qed.

Lemma single_balanced r l : single r l -> balanced l (live1 r).
Proof.
  intros [[-> [e ->]]|(s & l' & [Ho Hc] & Hr)]; [by apply balanced_quiet|].
  unfold balanced. destruct r as [s'|e].
  - destruct Hr as [-> ->]. simpl. unfold opened, closed in *. simpl. by rewrite Ho, Hc.
  - rewrite Hr. simpl. change (opened (Opened s :: l' ++ [Closed s])) with (s :: opened (l' ++ [Closed s])).
    change (closed (Opened s :: l' ++ [Closed s])) with (closed (l' ++ [Closed s])).
    rewrite opened_app, closed_app, Ho, Hc. done.
Qed.
Ltac single_body :=
  intros s; eapply wp_try, wp_mono; [apply quiet_init_callback|];
  intros [[]|e] l0 H0; [|by split];
  eapply wp_try, wp_mono; [apply quiet_common_options|];
  intros [[]|e] l1 H1; [|split; [auto with quiet|done]];
  unfold from_io;
  repeat (wp_step; wp_step; wp_step; intros [[]|?]; simpl; [|split; [auto with quiet|done]]);
  wp_step; (split; [auto 10 with quiet|congruence]).

Lemma bind_udp_single config : wp (bind_udp t config) single.
Proof. apply wp_owning. single_body. Qed.

Lemma bind_tcp_single config : wp (bind_tcp t config) single.
Proof. apply wp_owning. single_body. Qed.

Lemma drop_all_log (l : list fd) : wp (W := W) (drop_all l) (fun _ ev => ev = Closed <$> l).
Proof.
  induction l as [|s l IH]; simpl; [by apply wp_ret|].
  wp_step. apply wp_call. intros []. eapply wp_mono; [exact IH|]. by intros _ ? ->.
Qed.

Lemma opened_Closed l : opened (Closed <$> l) = [].
Proof. by induction l. Qed.
Lemma closed_Closed l : closed (Closed <$> l) = l.
Proof. induction l; simpl; [done|]. unfold closed in *. simpl. by f_equal. Qed.

(** Collecting sockets: all of them, or none left open. *)
Lemma wp_collect n (m : io (crate_result fd)) acc :
  wp m single ->
  wp (collect n m drop_all acc) (fun r l =>
    opened l ++ acc ≡ₚ closed l ++ live r /\
    (forall v, r = Ok v -> length v = (length acc + n)%nat /\ acc `prefix_of` v)).
Proof.
  intros Hm. revert acc. induction n as [|n IH]; intros acc; simpl.
  - apply wp_ret. split; [done|]. intros v [= <-]. split; [lia|done].
  - wp_step. eapply wp_mono; [exact Hm|]. intros [s|e] l0 H0%single_balanced;
      unfold balanced in H0; simpl in H0.
    + eapply wp_mono; [apply IH|]. intros r l1 [H1 Hlen].
      rewrite opened_app, closed_app. split.
      * rewrite H0, <- (assoc_L (++) (closed l0) _ (live r)), <- H1. solve_Permutation.
      * intros v Hv. apply Hlen in Hv as [Hv Hp]. rewrite length_app in Hv. simpl in Hv.
        split; [lia|]. etrans; [|exact Hp]. by exists [s].
    + wp_step. eapply wp_mono; [apply drop_all_log|]. intros [] l1 ->. apply wp_ret.
      rewrite app_nil_r, opened_app, closed_app, opened_Closed, closed_Closed, app_nil_r.
      split; [|done]. rewrite H0. simpl. by rewrite !app_nil_r.
Qed.

End Accounting.

(** ** Order of the set-up *)

Section Order.
Context {W CB : Type} `{Os W CB} (t : target).
#[local] Abbreviation io A := (prog W sys_event A).
Context {Cfg : Type} `{SocketConfig CB Cfg}.

(** The transparent options a configuration asks for on this target. *)
Definition transparent_ops_v4 (s : fd) (config : Cfg) : list sock_op :=
  if bool_decide (ipv4_transparent (socket_options config) <> Disabled) && is_ipv4 (bind_addr config)
  then [SetTransparentV4 s true; SetOptInt s SOL_IP IP_ORIGDSTADDR 1; SetOptInt s SOL_IP IP_FREEBIND 1]
  else [].
Definition transparent_ops_v6 (s : fd) (config : Cfg) : list sock_op :=
  if bool_decide (ipv6_transparent (socket_options config) <> Disabled) && is_ipv6 (bind_addr config)
  then [SetTransparentV6 s true; SetOptInt s SOL_IPV6 IPV6_RECVORIGDSTADDR 1;
        SetOptInt s SOL_IPV6 IPV6_FREEBIND 1]
  else [].

(** The operation was performed; it succeeded if the mode requires it. *)
Definition performed (mode : TransparentMode) (o : sock_op) (e : sys_event) : Prop :=
  exists b, e = Did o b /\ (mode = Required -> b = true).

Definition transparent_log (s : fd) (config : Cfg) (l : list sys_event) : Prop :=
  match t with
  | Linux | Android =>
      (ipv4_transparent (socket_options config) = Required -> is_ipv4 (bind_addr config) = true) /\
      (ipv6_transparent (socket_options config) = Required -> is_ipv6 (bind_addr config) = true) /\
      exists l4 l6, l = l4 ++ l6 /\
        Forall2 (performed (ipv4_transparent (socket_options config))) (transparent_ops_v4 s config) l4 /\
        Forall2 (performed (ipv6_transparent (socket_options config))) (transparent_ops_v6 s config) l6
  | Bsd | Windows =>
      ipv4_transparent (socket_options config) <> Required /\
      ipv6_transparent (socket_options config) <> Required /\ l = []
  end.

Definition callback_log (s : fd) (config : Cfg) : list sys_event :=
  match socket_init_callback config with Some _ => [Did (InitCallback s) true] | None => [] end.

Definition reuse_port_log (s : fd) : list sys_event :=
  match t with Windows => [] | _ => [Did (SetReusePort s true) true] end.

(** Everything up to the bind, when it succeeds. *)
Definition setup_log (s : fd) (config : Cfg) (l : list sys_event) : Prop :=
  exists tr, transparent_log s config tr /\
    l = callback_log s config ++
        [Did (SetReuseAddress s (reuse_address (socket_options config))) true] ++
        reuse_port_log s ++ tr.

Ltac wp_go :=
  repeat first
    [ progress intros | wp_step
    | match goal with
      | |- context [map_err _ ?r] => is_var r; destruct r as [[]|]
      | H : map_err _ ?r = Ok _ |- _ => is_var r; destruct r as [[]|]
      end
    | progress simpl ].

Lemma performed_intro mode o b : (mode = Required -> b = true) -> performed mode o (Did o b).
Proof. intros. by exists b. Qed.
#[local] Hint Resolve performed_intro : core.

Lemma apply_ipv4_log s config :
  wp (apply_ipv4_transparent s config) (fun r l => r = Ok () ->
    (ipv4_transparent (socket_options config) = Required -> is_ipv4 (bind_addr config) = true) /\
    Forall2 (performed (ipv4_transparent (socket_options config))) (transparent_ops_v4 s config) l).
Proof.
  unfold apply_ipv4_transparent, transparent_ops_v4, set_socket_opt_int, from_io.
  destruct (ipv4_transparent (socket_options config)) eqn:E; simpl;
    [by apply wp_ret| |]; (destruct (is_ipv4 (bind_addr config)); simpl; [|by apply wp_ret]);
    wp_go; try done; (split; [done|]); repeat constructor; by apply performed_intro.
Qed.

Lemma apply_ipv6_log s config :
  wp (apply_ipv6_transparent s config) (fun r l => r = Ok () ->
    (ipv6_transparent (socket_options config) = Required -> is_ipv6 (bind_addr config) = true) /\
    Forall2 (performed (ipv6_transparent (socket_options config))) (transparent_ops_v6 s config) l).
Proof.
  unfold apply_ipv6_transparent, transparent_ops_v6, set_socket_opt_int, from_io.
  destruct (ipv6_transparent (socket_options config)) eqn:E; simpl;
    [by apply wp_ret| |]; (destruct (is_ipv6 (bind_addr config)); simpl; [|by apply wp_ret]);
    wp_go; try done; (split; [done|]); repeat constructor; by apply performed_intro.
Qed.

(** What a program's events are when it succeeds. *)
Definition on_ok {A} (m : io (crate_result A)) (Q : A -> list sys_event -> Prop) : Prop :=
  wp m (fun r l => forall a, r = Ok a -> Q a l).

Lemma on_ok_try {A B} (m : io (crate_result A)) (k : A -> io (crate_result B)) P Q :
  on_ok m P -> (forall a l1, P a l1 -> on_ok (k a) (fun b l2 => Q b (l1 ++ l2))) ->
  on_ok (try_bind m k) Q.
Proof.
  intros Hm Hk. apply wp_try. eapply wp_mono; [exact Hm|]. intros [a|e] l Hl; [|done].
  by apply Hk, Hl.
Qed.

Lemma on_ok_ret {A} (a : A) Q : Q a [] -> on_ok (mret (Ok a)) Q.
Proof. intros HQ. apply wp_ret. by intros a' [= <-]. Qed.

Lemma on_ok_op {A} (f : W -> io_result A * W) o :
  on_ok (from_io (call f (fun r => Did o (is_ok r)))) (fun _ l => l = [Did o true]).
Proof. apply wp_map_err, wp_call. intros [a|e]; simpl; [done|discriminate]. Qed.

Lemma on_ok_mono {A} (m : io (crate_result A)) P Q :
  on_ok m P -> (forall a l, P a l -> Q a l) -> on_ok m Q.
Proof. intros Hm HQ. eapply wp_mono; [exact Hm|]. eauto. Qed.

Lemma apply_transparent_log s config :
  on_ok (apply_transparent t s config) (fun _ l => transparent_log s config l).
Proof.
  unfold apply_transparent, transparent_log, apply_transparent_linux.
  destruct t; try (apply wp_ret; intros []; unfold apply_transparent_unsupported;
    destruct (ipv4_transparent _), (ipv6_transparent _); done).
  all: wp_step; eapply wp_mono; [apply apply_ipv4_log|]; intros [[]|e] l4 H4; [|done];
    wp_step; eapply wp_mono; [apply apply_ipv6_log|]; intros [[]|e] l6 H6; [|done];
    wp_step; intros _ _; destruct H4, H6; try done;
    split_and!; try done; exists l4, l6; rewrite app_nil_r; eauto.
Qed.

Lemma set_reuse_port_log s : on_ok (set_reuse_port t s) (fun _ l => l = reuse_port_log s).
Proof. unfold set_reuse_port, reuse_port_log. destruct t; try apply on_ok_op. by apply wp_ret. Qed.

Lemma init_callback_log s config :
  on_ok (apply_socket_init_callback s config) (fun _ l => l = callback_log s config).
Proof.
  unfold apply_socket_init_callback, callback_log. case_match; [|by apply on_ok_ret].
  eapply (on_ok_try _ _ (fun _ l => l = [Did (InitCallback s) true])).
  - apply wp_map_err, wp_call. intros [a|e]; simpl; [done|discriminate].
  - intros _ l ->. by apply on_ok_ret.
Qed.

Lemma common_options_log s config :
  on_ok (apply_common_options t s config) (fun _ l => exists tr, transparent_log s config tr /\
    l = [Did (SetReuseAddress s (reuse_address (socket_options config))) true] ++
        reuse_port_log s ++ tr).
Proof.
  eapply on_ok_try; [apply on_ok_op|]. intros _ l0 ->.
  eapply on_ok_try; [apply set_reuse_port_log|]. intros _ l1 ->.
  eapply on_ok_try; [apply apply_transparent_log|]. intros [] tr Htr.
  apply on_ok_ret. exists tr. by rewrite app_nil_r.
Qed.

(** The whole set-up in front of a continuation. *)
Lemma setup_then {A} s config (k : io (crate_result A)) Q :
  on_ok k Q ->
  on_ok (try_bind (apply_socket_init_callback s config)
          (fun _ => try_bind (apply_common_options t s config) (fun _ => k)))
    (fun a l => exists l1 l2, setup_log s config l1 /\ Q a l2 /\ l = l1 ++ l2).
Proof.
  intros Hk. eapply on_ok_try; [apply init_callback_log|]. intros _ l0 ->.
  eapply on_ok_try; [apply common_options_log|]. intros [] l1 (tr & Htr & Hl1).
  eapply on_ok_mono; [exact Hk|]. intros a l2 Hl2.
  exists (callback_log s config ++ l1), l2. split; [exists tr; by rewrite Hl1|]. split; [done|].
  by rewrite <- (assoc_L (++)).
Qed.

(** A socket that is opened, set up by [body] and returned. *)
Lemma open_then addr ty (body : fd -> io (crate_result fd)) Q :
  (forall s, on_ok (body s) (fun s' l => Q s l /\ s' = s)) ->
  on_ok (try_bind (from_io (socket_new addr ty)) (fun s => owning s (body s)))
    (fun s l => exists l', l = Opened s :: l' /\ Q s l').
Proof.
  intros Hb. apply wp_try, wp_map_err, wp_call. intros [s|e]; simpl; [|discriminate].
  apply wp_bind. eapply wp_mono; [apply Hb|]. intros [s'|e] l Hl.
  - apply wp_ret. intros a [= ->]. destruct (Hl a) as [HQ ->]; [done|].
    exists l. by rewrite app_nil_r.
  - apply wp_bind, wp_call. intros []. apply wp_ret. discriminate.
Qed.
End Order.

Section Claims.
Context {W CB : Type} `{Os W CB} (t : target).

Lemma bind_udp_log (config : Udp.UdpServiceConfig CB) :
  on_ok (bind_udp t config) (fun s l => exists l', l = Opened s :: l' /\
    exists l1 l2, setup_log t s config l1 /\
      l2 = [Did (Bind s (bind_addr config)) true; Did (SetNonblocking s true) true] /\
      l' = l1 ++ l2).
Proof.
  apply open_then. intros s. eapply on_ok_mono.
  - apply (setup_then t s config _ (fun s' l2 => s' = s /\
      l2 = [Did (Bind s (bind_addr config)) true; Did (SetNonblocking s true) true])).
    eapply on_ok_try; [apply on_ok_op|]. intros _ l0 ->.
    eapply on_ok_try; [apply on_ok_op|]. intros _ l1 ->. by apply on_ok_ret.
  - intros s' l (l1 & l2 & ? & [-> ->] & ->). eauto 6.
Qed.

Lemma bind_tcp_log (config : Tcp.TcpServiceConfig CB) :
  on_ok (bind_tcp t config) (fun s l => exists l', l = Opened s :: l' /\
    exists l1 l2, setup_log t s config l1 /\
      l2 = [Did (Bind s (bind_addr config)) true; Did (Listen s 1024) true;
            Did (SetNonblocking s true) true] /\
      l' = l1 ++ l2).
Proof.
  apply open_then. intros s. eapply on_ok_mono.
  - apply (setup_then t s config _ (fun s' l2 => s' = s /\
      l2 = [Did (Bind s (bind_addr config)) true; Did (Listen s 1024) true;
            Did (SetNonblocking s true) true])).
    eapply on_ok_try; [apply on_ok_op|]. intros _ l0 ->.
    eapply on_ok_try; [apply on_ok_op|]. intros _ l1 ->.
    eapply on_ok_try; [apply on_ok_op|]. intros _ l2 ->. by apply on_ok_ret.
  - intros s' l (l1 & l2 & ? & [-> ->] & ->). eauto 6.
Qed.
(** UDP socket set-up order.  When [bind_udp] succeeds, what was done to the
    descriptor is exactly: open, the user's callback (if any), SO_REUSEADDR as
    configured, SO_REUSEPORT (not on Windows), the requested transparent options
    (each required one successfully), bind to the configured address, non-blocking;
    nothing else and nothing in another order.  In particular a [Required]
    transparent mode is never silently ignored. *)
Theorem bind_udp_order (config : Udp.UdpServiceConfig CB) w s :
  value (bind_udp t config) w = Ok s ->
  exists tr, transparent_log t s config tr /\
    log (bind_udp t config) w =
      [Opened s] ++ callback_log s config ++
      [Did (SetReuseAddress s (reuse_address (socket_options config))) true] ++
      reuse_port_log t s ++ tr ++
      [Did (Bind s (bind_addr config)) true; Did (SetNonblocking s true) true].
Proof.
  intros Hs. destruct (bind_udp_log config w s Hs) as (l' & -> & l1 & l2 & (tr & Htr & ->) & -> & ->).
  exists tr. split; [done|]. by rewrite <- !(assoc_L (++)).
Qed.

(** TCP socket set-up order, as for UDP, with [listen(1024)] between the bind
    and the switch to non-blocking mode. *)
Theorem bind_tcp_order (config : Tcp.TcpServiceConfig CB) w s :
  value (bind_tcp t config) w = Ok s ->
  exists tr, transparent_log t s config tr /\
    log (bind_tcp t config) w =
      [Opened s] ++ callback_log s config ++
      [Did (SetReuseAddress s (reuse_address (socket_options config))) true] ++
      reuse_port_log t s ++ tr ++
      [Did (Bind s (bind_addr config)) true; Did (Listen s 1024) true;
       Did (SetNonblocking s true) true].
Proof.
  intros Hs. destruct (bind_tcp_log config w s Hs) as (l' & -> & l1 & l2 & (tr & Htr & ->) & -> & ->).
  exists tr. split; [done|]. by rewrite <- !(assoc_L (++)).
Qed.

(** Workers' sockets, from the one-socket specification. *)
Lemma workers_no_leak (m : prog W sys_event (crate_result fd)) n :
  wp m single ->
  wp (if reuse_port_balancing (capabilities t) then collect n m drop_all []
      else try_bind m (fun s => mret (Ok [s])))
    (fun r l => balanced l (live r) /\
      forall v, r = Ok v -> length v = if reuse_port_balancing (capabilities t) then n else 1%nat).
Proof.
  intros Hm. case_match.
  - eapply wp_mono; [by apply wp_collect|]. intros r l [Hb Hn]. rewrite app_nil_r in Hb.
    split; [done|]. intros v Hv. by apply Hn.
  - apply wp_try. eapply wp_mono; [exact Hm|]. intros [s|e] l Hl%single_balanced; [|done].
    apply wp_ret. rewrite app_nil_r. split; [done|]. by intros v [= <-].
Qed.

(** C33: No descriptor leaks while the sockets of the workers are made.  Whatever the
    system answers and whichever call fails, the descriptors opened by
    [bind_udp_workers] and [bind_tcp_workers] are exactly those closed again plus
    those returned; on success there is one socket per worker where the platform
    balances, and one in all where it does not. *)
Theorem bind_workers_no_leak workers w :
  (forall config : Udp.UdpServiceConfig CB,
    balanced (log (bind_udp_workers t config workers) w)
             (live (value (bind_udp_workers t config workers) w)) /\
    forall v, value (bind_udp_workers t config workers) w = Ok v ->
      length v = if reuse_port_balancing (capabilities t) then Z.to_nat workers else 1%nat) /\
  (forall config : Tcp.TcpServiceConfig CB,
    balanced (log (bind_tcp_workers t config workers) w)
             (live (value (bind_tcp_workers t config workers) w)) /\
    forall v, value (bind_tcp_workers t config workers) w = Ok v ->
      length v = if reuse_port_balancing (capabilities t) then Z.to_nat workers else 1%nat).
Proof.
  split; intros config.
  - apply (workers_no_leak (bind_udp t config)), bind_udp_single.
  - apply (workers_no_leak (bind_tcp t config)), bind_tcp_single.
Qed.
End Claims.

(** A system that grants everything and numbers descriptors from the world. *)
#[local] Instance granting : Os Z unit := {|
  os_socket _ _ w := (Ok w, w + 1);
  os_set_reuse_address _ _ w := (Ok (), w);
  os_set_reuse_port _ _ w := (Ok (), w);
  os_set_ip_transparent_v4 _ _ w := (Ok (), w);
  os_set_ip_transparent_v6 _ _ w := (Ok (), w);
  os_setsockopt _ _ _ _ w := ((0, Io.mkError Io.TimedOut EmptyString), w);
  os_bind _ _ w := (Ok (), w);
  os_listen _ _ w := (Ok (), w);
  os_set_nonblocking _ _ w := (Ok (), w);
  os_local_addr _ w := (Ok (SocketAddrV4 [127; 0; 0; 1] 53), w);
  os_close _ w := ((), w);
  os_init_callback _ _ w := (Ok (), w);
|}.

Definition example_addr : SocketAddr := SocketAddrV4 [127; 0; 0; 1] 53.

Lemma bind_udp_order_witness :
  exists tr, transparent_log Linux 3 (Udp.with_socket_init_callback (Udp.new example_addr) ()) tr /\
    log (bind_udp Linux (Udp.with_socket_init_callback (Udp.new example_addr) ())) 3 =
      [Opened 3] ++ [Did (InitCallback 3) true] ++ [Did (SetReuseAddress 3 true) true] ++
      [Did (SetReusePort 3 true) true] ++ tr ++
      [Did (Bind 3 example_addr) true; Did (SetNonblocking 3 true) true].
Proof.
  exact (bind_udp_order Linux (Udp.with_socket_init_callback (Udp.new example_addr) ()) 3 3 eq_refl).
Defined.

Lemma bind_tcp_order_witness :
  exists tr, transparent_log Windows 3 (Tcp.new (CB := unit) example_addr) tr /\
    log (bind_tcp Windows (Tcp.new (CB := unit) example_addr)) 3 =
      [Opened 3] ++ [] ++ [Did (SetReuseAddress 3 true) true] ++ [] ++ tr ++
      [Did (Bind 3 example_addr) true; Did (Listen 3 1024) true; Did (SetNonblocking 3 true) true].
Proof. exact (bind_tcp_order Windows (Tcp.new (CB := unit) example_addr) 3 3 eq_refl). Defined.
