(* ===== verification/Selector.v ===== *)
(** * Installing a reuse-port selector: [src/src/platform/linux.rs], lines 212 to 376 and 523 to 685

    [bind_quic_udp_reuseport_workers] binds one socket per worker, attaches the
    eBPF program of [Bpf.v] or else the classic filter, probes that datagram [i]
    really reaches socket [i], and gives up with [Ok(None)] otherwise.  The
    clock, the environment and the additional system calls are an interface. *)

From S2P Require Import Prelude Errors Net Effects Config Quic Bpf Platform.

(** [cfg(target_arch)] *)
Inductive arch := X86_64 | Aarch64 | Riscv64 | Arm | Powerpc64 | S390x | OtherArch.

Definition sys_bpf_number (a : arch) : option Z :=
  match a with
  | X86_64 => Some 321
  | Aarch64 => Some 280
  | Riscv64 => Some 280
  | Arm => Some 386
  | Powerpc64 => Some 361
  | S390x => Some 351
  | OtherArch => None
  end.

(** [BpfProgLoadAttr], the two pointers by what they point to; the fields
    [BpfProgLoadAttr::default()] leaves zero. *)
Record BpfProgLoadAttr := mkAttr {
  prog_type : Z;
  insn_cnt : Z;
  insns : list Ebpf.BpfInsn;
  license : bytes;
  log_level : Z;
  log_size : Z;
  log_buf : Z;
  kern_version : Z;
  prog_flags : Z;
  prog_name : bytes;
  prog_ifindex : Z;
  expected_attach_type : Z;
}.

Record SockFprog := mkFprog { fprog_len : Z; filter : list Cbpf.SockFilter }.

Definition BPF_PROG_LOAD : Z := 5.
Definition BPF_PROG_TYPE_SK_REUSEPORT : Z := 21.
Definition LICENSE : bytes := [71; 80; 76; 0].
Definition SOL_SOCKET : Z := 1.
Definition SO_ATTACH_REUSEPORT_CBPF : Z := 51.
Definition SO_ATTACH_REUSEPORT_EBPF : Z := 52.

(** The calls made here and not in [Platform.v].  [Z * Io.Error] is a C return
    value with what [io::Error::last_os_error()] would then read. *)
Class SelectorOs (W : Type) := {
  os_disable_quic_bpf : W -> bool * W;
  os_bpf : Z -> Z -> BpfProgLoadAttr -> W -> (Z * Io.Error) * W;
  os_attach_ebpf : fd -> Z -> Z -> fd -> W -> (Z * Io.Error) * W;
  os_attach_cbpf : fd -> Z -> Z -> SockFprog -> W -> (Z * Io.Error) * W;
  os_udp_bind : SocketAddr -> W -> io_result fd * W;
  os_send_to : fd -> bytes -> SocketAddr -> W -> io_result Z * W;
  os_recv_from : fd -> Z -> W -> io_result bytes * W;
  os_now : W -> Z * W;
  os_sleep : Z -> W -> unit * W;
}.

Section Selector.
Context {W CB : Type} `{Os W CB} `{SelectorOs W} (a : arch) (drain_fuel : nat).

#[local] Abbreviation io A := (prog W sys_event A).
#[local] Abbreviation op f o := (call f (fun r => Did o (is_ok r))).

(** A C call: zero (or a non-negative number) is success. *)
Definition c_result (f : W -> (Z * Io.Error) * W) (w : W) : io_result unit * W :=
  let '((ret, e), w) := f w in (if ret =? 0 then Ok () else Err e, w).
Definition c_fd (f : W -> (Z * Io.Error) * W) (w : W) : io_result Z * W :=
  let '((ret, e), w) := f w in (if 0 <=? ret then Ok (i32 ret) else Err e, w).

(** [load_quic_reuseport_ebpf] *)
Definition load_quic_reuseport_ebpf (workers : Z) : io (crate_result fd) :=
  match sys_bpf_number a with
  | None =>
      mret (Err (UnsupportedPlatformOption
                   "bpf syscall number is not defined for this target architecture"))
  | Some sys_bpf =>
      let program := Ebpf.quic_reuseport_ebpf workers in
      let attr := mkAttr BPF_PROG_TYPE_SK_REUSEPORT (u32 (len program)) program LICENSE
                    0 0 0 0 0 (replicate 16 0) 0 0 in
      r ←? from_io (op (c_fd (os_bpf sys_bpf BPF_PROG_LOAD attr)) (LoadEbpf program));
      _ ← emit (Opened r);
      mret (Ok r)
  end.

(** [attach_quic_reuseport_ebpf]: the program's descriptor is closed whether or not
    the kernel took it. *)
Definition attach_quic_reuseport_ebpf (s : fd) (workers : Z) : io (crate_result unit) :=
  program_fd ←? load_quic_reuseport_ebpf workers;
  result ← op (c_result (os_attach_ebpf s SOL_SOCKET SO_ATTACH_REUSEPORT_EBPF program_fd))
              (AttachEbpf s program_fd);
  _ ← drop_socket program_fd;
  mret (map_err Error_from result).

(** [attach_quic_reuseport_cbpf] *)
Definition attach_quic_reuseport_cbpf (s : fd) (workers : Z) : io (crate_result unit) :=
  let filter := Cbpf.quic_reuseport_cbpf workers in
  let program := mkFprog (u16 (len filter)) filter in
  from_io (op (c_result (os_attach_cbpf s SOL_SOCKET SO_ATTACH_REUSEPORT_CBPF program))
              (AttachCbpf s filter)).

(** *** The probe *)

(** [quic_reuseport_probe_packet] *)
Definition quic_reuseport_probe_packet (expected_socket : Z) : bytes :=
  let worker_index := u16 expected_socket in
  let high := Z.shiftr worker_index 8 in
  let low := u8 worker_index in
  [0xe0; 0; 0; 0; 1; 4; high; low; 0xa5; low].

(** [routable_probe_addr] *)
Definition routable_probe_addr (addr : SocketAddr) : SocketAddr :=
  if negb (is_unspecified (addr_ip addr)) then addr
  else
    match addr with
    | SocketAddrV4 _ port => SocketAddr_new (IpV4 ipv4_localhost) port
    | SocketAddrV6 _ port _ _ => SocketAddr_new (IpV6 ipv6_localhost) port
    end.

(** [socket.recv_from(&mut buffer)] with a buffer of sixteen bytes. *)
Definition recv_from (s : fd) : io (io_result bytes) :=
  call (os_recv_from s 16) (fun r => Did (RecvFrom s (default [] (ok r))) (is_ok r)).

Definition would_block (e : Io.Error) : bool := bool_decide (Io.kind e = Io.WouldBlock).

(** The [for] loop over the sockets: [None] when all of them would block. *)
Fixpoint poll_sockets (sockets : list fd) (index expected_socket : Z) (probe_packet : bytes) :
    io (option (io_result unit)) :=
  match sockets with
  | [] => mret None
  | s :: sockets =>
      r ← recv_from s;
      match r with
      | Ok data =>
          mret (Some (
            if bool_decide (data = probe_packet) then
              if bool_decide (index = expected_socket) then Ok ()
              else Err (Io.mkError Io.InvalidData
                     "QUIC reuse-port selector probe routed to unexpected worker")
            else Err (Io.mkError Io.InvalidData
                   "QUIC reuse-port selector probe received unexpected packet")))
      | Err e =>
          if would_block e then poll_sockets sockets (index + 1) expected_socket probe_packet
          else mret (Some (Err e))
      end
  end.

(** The [while Instant::now() < deadline] loop; time in milliseconds.  [None] when
    the fuel runs out. *)
Fixpoint wait_loop (fuel : nat) (deadline : Z) (sockets : list fd) (expected_socket : Z)
    (probe_packet : bytes) : io (option (io_result unit)) :=
  match fuel with
  | O => mret None
  | S fuel =>
      now ← ask os_now;
      if now <? deadline then
        r ← poll_sockets sockets 0 expected_socket probe_packet;
        match r with
        | Some r => mret (Some r)
        | None => _ ← ask (os_sleep 1); wait_loop fuel deadline sockets expected_socket probe_packet
        end
      else mret (Some (Err (Io.mkError Io.TimedOut "QUIC reuse-port selector probe timed out")))
  end.

Definition PROBE_MILLIS : Z := 100.

(** Every iteration sleeps a millisecond, so the deadline of 100 ms is passed after
    at most 100 of them and one more test: [wait_loop_enough]. *)
Definition WAIT_FUEL : nat := 101.

(** [quic_reuseport_selector_wait_for_probe]; running out of fuel is a value of
    its own kind that the code never produces. *)
Definition no_result : Io.Error := Io.mkError (Io.Other 0) "no result within the fuel".

Definition quic_reuseport_selector_wait_for_probe (sockets : list fd) (expected_socket : Z)
    (probe_packet : bytes) : io (io_result unit) :=
  now ← ask os_now;
  r ← wait_loop WAIT_FUEL (now + PROBE_MILLIS) sockets expected_socket probe_packet;
  mret (default (Err no_result) r).

(** [quic_reuseport_selector_drain_probe_packets]: the inner [loop], then the
    [for]. *)
Fixpoint drain_loop (fuel : nat) (s : fd) : io (option (io_result unit)) :=
  match fuel with
  | O => mret None
  | S fuel =>
      r ← recv_from s;
      match r with
      | Ok _ => drain_loop fuel s
      | Err e => if would_block e then mret (Some (Ok ())) else mret (Some (Err e))
      end
  end.

Definition drain_socket (s : fd) : io (io_result unit) :=
  r ← drain_loop drain_fuel s; mret (default (Err no_result) r).

Fixpoint quic_reuseport_selector_drain_probe_packets (sockets : list fd) : io (io_result unit) :=
  match sockets with
  | [] => mret (Ok ())
  | s :: sockets =>
      _ ←? drain_socket s;
      quic_reuseport_selector_drain_probe_packets sockets
  end.

(** [for socket in sockets { socket.set_nonblocking(true)?; }] *)
Fixpoint all_nonblocking (sockets : list fd) : io (io_result unit) :=
  match sockets with
  | [] => mret (Ok ())
  | s :: sockets =>
      _ ←? op (os_set_nonblocking s true) (SetNonblocking s true);
      all_nonblocking sockets
  end.

(** [for expected_socket in 0..sockets.len() { .. }], from [expected_socket] on. *)
Fixpoint send_probes (n : nat) (sender : fd) (target : SocketAddr) (sockets : list fd)
    (expected_socket : Z) : io (io_result unit) :=
  match n with
  | O => mret (Ok ())
  | S n =>
      let probe_packet := quic_reuseport_probe_packet expected_socket in
      _ ←? op (os_send_to sender probe_packet target) (SendTo sender probe_packet target);
      _ ←? quic_reuseport_selector_wait_for_probe sockets expected_socket probe_packet;
      send_probes n sender target sockets (expected_socket + 1)
  end.

(** [quic_reuseport_selector_routes_probe]; the sender is dropped on return. *)
Definition quic_reuseport_selector_routes_probe (sockets : list fd) (bind_addr : SocketAddr) :
    io (io_result unit) :=
  let target := routable_probe_addr bind_addr in
  sender ←? call (os_udp_bind (if is_ipv4 target then SocketAddrV4 ipv4_localhost 0
                               else SocketAddrV6 ipv6_localhost 0 0 0))
              (fun r => match r with Ok s => Opened s | Err _ => OpenFailed end);
  r ← (if bool_decide (sockets = [] \/ len sockets > 65535 + 1)
       then mret (Err (Io.mkError Io.InvalidInput
                         "worker count must fit the QUIC CID worker index prefix"))
       else
         _ ←? all_nonblocking sockets;
         _ ←? send_probes (length sockets) sender target sockets 0;
         _ ←? quic_reuseport_selector_drain_probe_packets sockets;
         mret (Ok ()));
  _ ← drop_socket sender;
  mret r.

(** [attach_ebpf(..).is_ok() || attach_cbpf(..).is_ok()], short-circuiting. *)
Definition attach_selector (s : fd) (workers : Z) : io bool :=
  e ← attach_quic_reuseport_ebpf s workers;
  if is_ok e then mret true
  else c ← attach_quic_reuseport_cbpf s workers; mret (is_ok c).

(** [bind_quic_udp_reuseport_workers] for Linux. *)
Definition bind_quic_udp_reuseport_workers (config : Udp.UdpServiceConfig CB) (workers : Z) :
    io (crate_result (option (list fd))) :=
  disabled ← ask os_disable_quic_bpf;
  if (disabled : bool) then mret (Ok None)
  else if bool_decide (workers = 0)
  then mret (Err (InvalidConfig "worker count must be greater than zero"))
  else
    first ← bind_udp Linux config;
    match first with
    | Err _ => mret (Ok None)
    | Ok first =>
        addr ← from_io (op (os_local_addr first) (GetLocalAddr first));
        match addr with
        | Err e => _ ← drop_socket first; mret (Err e)
        | Ok bind_addr =>
            sockets ← collect (pred (Z.to_nat workers))
                        (bind_udp Linux (Udp.with_bind_addr config bind_addr)) drop_all [first];
            match sockets with
            | Err _ => mret (Ok None)
            | Ok sockets =>
                attached ← attach_selector first workers;
                routed ← (if (attached : bool)
                          then p ← quic_reuseport_selector_routes_probe sockets bind_addr;
                               mret (is_ok p)
                          else mret false);
                if (routed : bool) then mret (Ok (Some sockets))
                else _ ← drop_all sockets; mret (Ok None)
            end
        end
    end.
End Selector.

(** ** Descriptors *)

Section Accounting.
Context {W CB : Type} `{Os W CB} `{SelectorOs W} (a : arch) (drain_fuel : nat).
#[local] Abbreviation io A := (prog W sys_event A).

Lemma quiet_ask {A} (f : W -> A * W) : wp_quiet (W := W) (ask f).
Proof. by apply wp_ask. Qed.

Lemma quiet_recv_from s : wp_quiet (recv_from s).
Proof. apply (quiet_op _ (fun r => RecvFrom s (default [] (ok r)))). Qed.

Lemma quiet_poll_sockets sockets index expected p : wp_quiet (poll_sockets sockets index expected p).
Proof.
  revert index. induction sockets as [|s sockets IH]; intros index; simpl; [apply quiet_ret|].
  apply quiet_bind; [apply quiet_recv_from|]. intros [d|e]; [apply quiet_ret|].
  case_match; [apply IH|apply quiet_ret].
Qed.

Lemma quiet_wait_loop fuel deadline sockets expected p :
  wp_quiet (wait_loop fuel deadline sockets expected p).
Proof.
  induction fuel as [|fuel IH]; simpl; [apply quiet_ret|].
  apply quiet_bind; [apply quiet_ask|]. intros now. case_match; [|apply quiet_ret].
  apply quiet_bind; [apply quiet_poll_sockets|]. intros [r|]; [apply quiet_ret|].
  apply quiet_bind; [apply quiet_ask|done].
Qed.

Lemma quiet_wait_for_probe sockets expected p :
  wp_quiet (quic_reuseport_selector_wait_for_probe sockets expected p).
Proof.
  apply quiet_bind; [apply quiet_ask|]. intros now.
  apply quiet_bind; [apply quiet_wait_loop|]. intros r. apply quiet_ret.
Qed.

Lemma quiet_drain sockets :
  wp_quiet (quic_reuseport_selector_drain_probe_packets drain_fuel sockets).
Proof.
  induction sockets as [|s sockets IH]; [apply quiet_ret|]. apply quiet_try; [|done].
  apply quiet_bind; [|intros; apply quiet_ret].
  clear IH. induction drain_fuel as [|fuel IHf]; simpl; [apply quiet_ret|].
  apply quiet_bind; [apply quiet_recv_from|]. intros [d|e]; [done|]. case_match; apply quiet_ret.
Qed.

Lemma quiet_all_nonblocking sockets : wp_quiet (all_nonblocking sockets).
Proof.
  induction sockets as [|s sockets IH]; [apply quiet_ret|].
  apply quiet_try; [apply (quiet_op _ (fun _ => SetNonblocking s true))|done].
Qed.

Lemma quiet_send_probes n sender target sockets i :
  wp_quiet (send_probes n sender target sockets i).
Proof.
  revert i. induction n as [|n IH]; intros i; [apply quiet_ret|].
  apply quiet_try; [apply (quiet_op _ (fun _ => SendTo _ _ _))|]. intros _.
  apply quiet_try; [apply quiet_wait_for_probe|]. intros _. apply IH.
Qed.

Lemma quiet_probe_body sender target sockets :
  wp_quiet (_ ←? all_nonblocking sockets;
            _ ←? send_probes (length sockets) sender target sockets 0;
            _ ←? quic_reuseport_selector_drain_probe_packets drain_fuel sockets;
            mret (Ok ())).
Proof.
  apply quiet_try; [apply quiet_all_nonblocking|]. intros _.
  apply quiet_try; [apply quiet_send_probes|]. intros _.
  apply quiet_try; [apply quiet_drain|]. intros _. apply quiet_ret.
Qed.

Lemma balanced_app l1 l2 live : balanced l1 [] -> balanced l2 live -> balanced (l1 ++ l2) live.
Proof.
  unfold balanced. rewrite app_nil_r, opened_app, closed_app. intros -> ->.
  by rewrite (assoc_L (++)).
Qed.

(** Opened, used, closed. *)
Lemma balanced_bracket s l : quiet l -> balanced ([Opened s] ++ l ++ [Closed s]) [].
Proof.
  intros [Ho Hc]. unfold balanced. rewrite !opened_app, !closed_app, Ho, Hc. done.
Qed.

Lemma probe_balanced sockets addr :
  wp (quic_reuseport_selector_routes_probe drain_fuel sockets addr) (fun _ l => balanced l []).
Proof.
  apply wp_try, wp_call. intros [s|e]; [|by apply balanced_quiet].
  apply wp_bind. eapply wp_mono.
  - instantiate (1 := fun _ l => quiet l). case_bool_decide; [by apply wp_ret|].
    apply quiet_probe_body.
  - intros r l Hl. apply wp_bind, wp_call. intros []. apply wp_ret. rewrite app_nil_r.
    by apply balanced_bracket.
Qed.

Lemma attach_selector_balanced s workers :
  wp (attach_selector a s workers) (fun _ l => balanced l []).
Proof.
  apply wp_bind. eapply wp_mono with (Q := fun _ l => balanced l []).
  - apply wp_try. unfold load_quic_reuseport_ebpf. case_match; [|apply wp_ret, balanced_quiet, quiet_nil].
    apply wp_try, wp_map_err, wp_call. intros [p|e]; [|by apply balanced_quiet]. simpl.
    apply wp_bind, wp_emit, wp_ret. simpl. apply wp_bind, wp_call. intros r.
    apply wp_bind, wp_call. intros []. apply wp_ret. unfold balanced. reflexivity.
  - intros e l Hl. case_match.
    + apply wp_ret. by rewrite app_nil_r.
    + apply wp_bind, wp_map_err, wp_call. intros r. apply wp_ret. rewrite app_nil_r.
      apply balanced_app; [done|by apply balanced_quiet].
Qed.
End Accounting.

(** ** What an installation does *)

Section Install.
Context {W CB : Type} `{Os W CB} `{SelectorOs W} (a : arch) (drain_fuel : nat).
#[local] Abbreviation io A := (prog W sys_event A).

(** The selector was attached to [s]: the eBPF program if the kernel takes it, else
    the classic filter. *)
Definition attached_with (s : fd) (workers : Z) (l : list sys_event) : Prop :=
  (exists p, Did (AttachEbpf s p) true ∈ l /\ Did (LoadEbpf (Ebpf.quic_reuseport_ebpf workers)) true ∈ l /\
     forall s' f b, Did (AttachCbpf s' f) b ∉ l) \/
  ((forall s' p, Did (AttachEbpf s' p) true ∉ l) /\
     Did (AttachCbpf s (Cbpf.quic_reuseport_cbpf workers)) true ∈ l).

(** Probe [i] was received on socket [i], for all sockets. *)
Definition probes_received (sockets : list fd) (l : list sys_event) : Prop :=
  forall i s, get sockets i = Some s -> 0 <= i ->
    Did (RecvFrom s (quic_reuseport_probe_packet i)) true ∈ l.

Lemma attach_selector_spec s workers :
  wp (attach_selector a s workers) (fun r l => r = true -> attached_with s workers l).
Proof.
  apply wp_bind. apply wp_try. unfold load_quic_reuseport_ebpf. case_match.
  - apply wp_try, wp_map_err, wp_call. intros [p|e]; simpl.
    + apply wp_bind, wp_emit, wp_ret. apply wp_bind, wp_call. intros [[]|e];
        apply wp_bind, wp_call; intros []; apply wp_ret; simpl.
      * apply wp_ret. intros _. left. exists p. set_solver.
      * apply wp_bind, wp_map_err, wp_call. intros [[]|e']; apply wp_ret; [|done].
        intros _. right. set_solver.
    + apply wp_bind, wp_map_err, wp_call. intros [[]|e']; apply wp_ret; [|done].
      intros _. right. set_solver.
  - apply wp_ret. apply wp_bind, wp_map_err, wp_call. intros [[]|e']; apply wp_ret; [|done].
    intros _. right. set_solver.
Qed.

Lemma poll_sockets_spec sockets index expected p :
  wp (poll_sockets sockets index expected p) (fun r l => r = Some (Ok ()) ->
    exists s, get sockets (expected - index) = Some s /\ index <= expected /\
      Did (RecvFrom s p) true ∈ l).
Proof.
  revert index. induction sockets as [|s sockets IH]; intros index; simpl; [by apply wp_ret|].
  apply wp_bind, wp_call. intros [d|e]; simpl.
  - apply wp_ret. repeat case_bool_decide; subst; intros [=].
    exists s. rewrite Z.sub_diag. split; [done|]. split; [lia|]. set_solver.
  - destruct (would_block e); [|by apply wp_ret]. eapply wp_mono; [apply IH|].
    intros r l Hr Hok. destruct (Hr Hok) as (s' & Hs & Hle & Hin). exists s'.
    split; [|split; [lia|set_solver]]. rewrite <- Hs.
    replace (expected - index) with ((expected - (index + 1)) + 1) by lia.
    apply get_cons_succ. lia.
Qed.

Lemma wait_loop_spec fuel deadline sockets expected p :
  wp (wait_loop fuel deadline sockets expected p) (fun r l => r = Some (Ok ()) ->
    exists s, get sockets expected = Some s /\ 0 <= expected /\ Did (RecvFrom s p) true ∈ l).
Proof.
  induction fuel as [|fuel IH]; simpl; [by apply wp_ret|].
  apply wp_bind, wp_ask. intros now. case_match; [|by apply wp_ret].
  apply wp_bind. eapply wp_mono; [apply poll_sockets_spec|].
  intros [r|] l Hr; simpl.
  - apply wp_ret. intros [= ->]. rewrite app_nil_r. destruct Hr as (s & Hs & ? & ?); [done|].
    rewrite Z.sub_0_r in Hs. eauto.
  - apply wp_bind, wp_ask. intros []. simpl. eapply wp_mono; [exact IH|].
    intros r l' Hr' Hok. destruct (Hr' Hok) as (s & ? & ? & ?). exists s. set_solver.
Qed.

Lemma wait_for_probe_spec sockets expected p :
  wp (quic_reuseport_selector_wait_for_probe sockets expected p) (fun r l => r = Ok () ->
    exists s, get sockets expected = Some s /\ 0 <= expected /\ Did (RecvFrom s p) true ∈ l).
Proof.
  apply wp_bind, wp_ask. intros now. apply wp_bind.
  eapply wp_mono; [apply wait_loop_spec|]. intros [r|] l Hr; apply wp_ret; [|done].
  simpl. intros ->. rewrite app_nil_r. by apply Hr.
Qed.

Lemma send_probes_spec n sender target sockets i :
  wp (send_probes n sender target sockets i) (fun r l => r = Ok () ->
    forall j s, i <= j < i + Z.of_nat n -> get sockets j = Some s ->
      Did (RecvFrom s (quic_reuseport_probe_packet j)) true ∈ l).
Proof.
  revert i. induction n as [|n IH]; intros i; [apply wp_ret; lia|].
  apply wp_try, wp_call. intros [z|e]; simpl; [|done].
  apply wp_try. eapply wp_mono; [apply wait_for_probe_spec|]. intros [[]|e] l Hl; [|done].
  destruct Hl as (s0 & Hs0 & _ & Hin); [done|]. eapply wp_mono; [apply IH|].
  intros r l' Hr Hok j s Hj Hs. destruct (decide (j = i)) as [->|].
  - rewrite Hs in Hs0. injection Hs0 as ->. set_solver.
  - specialize (Hr Hok j s ltac:(lia) Hs). set_solver.
Qed.

Lemma probe_spec sockets addr :
  wp (quic_reuseport_selector_routes_probe drain_fuel sockets addr) (fun r l => r = Ok () ->
    sockets <> [] /\ len sockets <= 65536 /\ probes_received sockets l).
Proof.
  apply wp_try, wp_call. intros [sender|e]; [|done]. apply wp_bind.
  case_bool_decide as Hn.
  { apply wp_ret. apply wp_bind, wp_call. intros []. by apply wp_ret. }
  apply wp_try. eapply wp_mono; [apply quiet_all_nonblocking|]. intros [[]|e] l0 _.
  2: { apply wp_bind, wp_call. intros []. by apply wp_ret. }
  apply wp_try. eapply wp_mono; [apply send_probes_spec|]. intros [[]|e] l1 H1.
  2: { apply wp_bind, wp_call. intros []. by apply wp_ret. }
  apply wp_try. eapply wp_mono; [apply quiet_drain|]. intros [[]|e] l2 _;
    [apply wp_ret|]; (apply wp_bind, wp_call; intros []; apply wp_ret); [|done].
  intros _. split; [tauto|]. split; [lia|]. intros i s Hs Hi.
  assert (Did (RecvFrom s (quic_reuseport_probe_packet i)) true ∈ l1); [|set_solver].
  apply H1; [done| |done]. apply get_lt_Some in Hs; [|done]. unfold len in Hs. lia.
Qed.

(** The runs of [bind_quic_udp_reuseport_workers], by how they end. *)
Inductive install_run (workers : Z) : crate_result (option (list fd)) -> list sys_event -> Prop :=
| RunDisabled : install_run workers (Ok None) []
| RunNoWorkers :
    workers = 0 ->
    install_run workers (Err (InvalidConfig "worker count must be greater than zero")) []
| RunFirstFailed e l : single (Err e) l -> install_run workers (Ok None) l
| RunNoLocalAddr s e l :
    single (Ok s) l ->
    install_run workers (Err e) (l ++ [Did (GetLocalAddr s) false] ++ [Closed s])
| RunRestFailed s l l1 :
    single (Ok s) l -> opened l1 ++ [s] ≡ₚ closed l1 ->
    install_run workers (Ok None) (l ++ [Did (GetLocalAddr s) true] ++ l1)
| RunGivenUp s l l1 l2 l3 v :
    single (Ok s) l -> opened l1 ++ [s] ≡ₚ closed l1 ++ v ->
    balanced l2 [] -> balanced l3 [] ->
    install_run workers (Ok None)
      (l ++ [Did (GetLocalAddr s) true] ++ l1 ++ l2 ++ l3 ++ (Closed <$> v))
| RunInstalled s l l1 l2 l3 v :
    single (Ok s) l -> opened l1 ++ [s] ≡ₚ closed l1 ++ v ->
    len v = workers -> get v 0 = Some s -> len v <= 65536 ->
    balanced l2 [] -> balanced l3 [] ->
    attached_with s workers l2 -> probes_received v l3 ->
    install_run workers (Ok (Some v)) (l ++ [Did (GetLocalAddr s) true] ++ l1 ++ l2 ++ l3).

(** The part of the function after the sockets are bound. *)
Lemma install_tail workers s l l1 v :
  single (Ok s) l -> opened l1 ++ [s] ≡ₚ closed l1 ++ v ->
  len v = workers -> get v 0 = Some s -> forall addr,
  wp (attached ← attach_selector a s workers;
      routed ← (if (attached : bool)
                then p ← quic_reuseport_selector_routes_probe drain_fuel v addr; mret (is_ok p)
                else mret false);
      if (routed : bool) then mret (Ok (Some v)) else _ ← drop_all v; mret (Ok None))
    (fun r l' => install_run workers r (l ++ [Did (GetLocalAddr s) true] ++ l1 ++ l')).
Proof.
  intros Hs Hl1 Hlen Hv addr. apply wp_bind. intros w0.
  pose proof (attach_selector_balanced a s workers w0) as Hb.
  pose proof (attach_selector_spec s workers w0) as Ha. simpl in Hb, Ha.
  revert Hb Ha. generalize (value (attach_selector a s workers) w0),
    (log (attach_selector a s workers) w0). intros [] l2 Hb Ha.
  - apply wp_bind, wp_bind. intros w1.
    pose proof (probe_balanced drain_fuel v addr w1) as Hb3.
    pose proof (probe_spec v addr w1) as H3. simpl in Hb3, H3. revert Hb3 H3.
    generalize (value (quic_reuseport_selector_routes_probe drain_fuel v addr) w1),
      (log (quic_reuseport_selector_routes_probe drain_fuel v addr) w1).
    intros [[]|e] l3 Hb3 H3; apply wp_ret; simpl.
    + apply wp_ret. rewrite !app_nil_r. destruct H3 as (_ & ? & ?); [done|].
      apply RunInstalled; auto.
    + apply wp_bind. eapply wp_mono; [apply drop_all_log|]. intros [] l4 ->. apply wp_ret.
      rewrite !app_nil_r. by apply RunGivenUp.
  - apply wp_bind, wp_ret. apply wp_bind. eapply wp_mono; [apply drop_all_log|].
    intros [] l4 ->. apply wp_ret. rewrite app_nil_r, app_nil_l.
    change (l2 ++ (Closed <$> v)) with (l2 ++ [] ++ (Closed <$> v)).
    apply RunGivenUp; try done. by apply balanced_quiet.
Qed.

Lemma install_cases config workers : 0 <= workers ->
  wp (bind_quic_udp_reuseport_workers a drain_fuel config workers) (install_run workers).
Proof.
  intros Hw. apply wp_bind, wp_ask. intros [].
  { apply wp_ret, RunDisabled. }
  case_bool_decide; [by apply wp_ret, RunNoWorkers|].
  apply wp_bind. eapply wp_mono; [apply bind_udp_single|]. intros [s|e] l Hl.
  2: { apply wp_ret. rewrite app_nil_r, app_nil_l. by eapply RunFirstFailed. }
  apply wp_bind, wp_map_err, wp_call. intros [addr|e]; simpl.
  2: { apply wp_bind, wp_call. intros []. apply wp_ret. by apply RunNoLocalAddr. }
  apply wp_bind. eapply wp_mono; [apply wp_collect, bind_udp_single|].
  intros [v|e] l1 [Hl1 Hv]; simpl in *.
  - destruct (Hv v) as [Hn [v' ->]]; [done|]. rewrite length_app in Hn. simpl in Hn.
    eapply wp_mono; [apply (install_tail workers s l l1 ([s] ++ v')); try done|].
    + unfold len. simpl. lia.
    + intros r l'. by rewrite <- ?(assoc_L (++)).
  - apply wp_ret. rewrite app_nil_r. apply RunRestFailed; [done|]. by rewrite app_nil_r in Hl1.
Qed.
End Install.

(** ** The probe packet *)

Lemma probe_packet_bytes i : 0 <= i < 65536 ->
  quic_reuseport_probe_packet i = [0xe0; 0; 0; 0; 1; 4; i / 256; i mod 256; 0xa5; i mod 256].
Proof.
  intros Hi. unfold quic_reuseport_probe_packet, u16, u8.
  rewrite Z.shiftr_div_pow2 by lia. by rewrite (Z.mod_small i) by lia.
Qed.

Lemma probe_packet_Routes i : 0 <= i < 65536 -> Routes (quic_reuseport_probe_packet i) i.
Proof.
  intros Hi. rewrite probe_packet_bytes by done.
  apply (RoutesLong _ _ 0xe0 4 (i / 256) (i mod 256)); try done.
  rewrite be16_add by (unfold is_u8; div_lia). div_lia.
Qed.

Lemma probe_packet_bytes_ok i : 0 <= i < 65536 -> bytes_ok (quic_reuseport_probe_packet i).
Proof.
  intros Hi. rewrite probe_packet_bytes by done. unfold bytes_ok, is_u8.
  repeat constructor; div_lia.
Qed.

(** The probe tests the selector.  For every worker of up to 65536 the probe
    datagram carries exactly that worker's index: the userspace parser and the classic
    filter send it to socket [i]; it fits the sixteen-byte buffer it is received in, and
    two workers' probes differ.  So a kernel that runs the classic filter passes. *)
Theorem probe_packet_routes i w :
  0 <= i < w -> w <= 65536 ->
  quic_worker_index (quic_reuseport_probe_packet i) w = Some i /\
  cbpf_selects (quic_reuseport_probe_packet i) w = Some i /\
  len (quic_reuseport_probe_packet i) <= 16 /\
  (forall j, 0 <= j < w -> quic_reuseport_probe_packet j = quic_reuseport_probe_packet i -> j = i).
Proof.
  intros Hi Hw. pose proof (probe_packet_Routes i ltac:(lia)) as HR.
  split_and!.
  - apply worker_index_Routes; [apply probe_packet_bytes_ok; lia|lia|].
    exists i. split; [done|]. by rewrite Z.mod_small by lia.
  - rewrite cbpf_selects_eq by lia. rewrite (Routes_cbpf _ i) by done. by rewrite Z.mod_small by lia.
  - done.
  - intros j Hj. rewrite !probe_packet_bytes by lia. intros [= Hd Hm]. div_lia.
Qed.

Lemma probe_packet_routes_witness :
  quic_worker_index (quic_reuseport_probe_packet 258) 300 = Some 258 /\
  cbpf_selects (quic_reuseport_probe_packet 258) 300 = Some 258.
Proof. destruct (probe_packet_routes 258 300) as (? & ? & _); [lia|lia|auto]. Defined.

(** ** Claims about the installation *)

Section Claims.
Context {W CB : Type} `{Os W CB} `{SelectorOs W} (a : arch) (drain_fuel : nat).

(** The sockets a result hands to the caller. *)
Definition installed (r : crate_result (option (list fd))) : list fd :=
  match r with Ok (Some v) => v | _ => [] end.

Lemma balanced_trans l1 l2 m v :
  balanced l1 m -> opened l2 ++ m ≡ₚ closed l2 ++ v -> balanced (l1 ++ l2) v.
Proof.
  unfold balanced. rewrite opened_app, closed_app. intros -> E.
  transitivity (closed l1 ++ (opened l2 ++ m)); [solve_Permutation|]. rewrite E. solve_Permutation.
Qed.

Lemma balanced_keep l v : balanced l [] -> opened l ++ v ≡ₚ closed l ++ v.
Proof. unfold balanced. rewrite app_nil_r. by intros ->. Qed.

Lemma balanced_close l v : balanced l v -> balanced (l ++ (Closed <$> v)) [].
Proof.
  intros Hl. eapply balanced_trans; [exact Hl|]. by rewrite opened_Closed, closed_Closed, app_nil_r.
Qed.

Lemma balanced_chain l0 o b l1 l2 l3 s v :
  balanced l0 [s] -> opened l1 ++ [s] ≡ₚ closed l1 ++ v -> balanced l2 [] -> balanced l3 [] ->
  balanced (l0 ++ [Did o b] ++ l1 ++ l2 ++ l3) v.
Proof.
  intros B0 B1 B2 B3. eapply balanced_trans; [exact B0|].
  rewrite !opened_app, !closed_app. unfold balanced in B2, B3. rewrite app_nil_r in B2, B3.
  rewrite B2, B3. simpl. transitivity ((opened l1 ++ [s]) ++ closed l2 ++ closed l3);
    [solve_Permutation|]. rewrite B1. solve_Permutation.
Qed.

Lemma install_run_balanced workers r l : install_run workers r l -> balanced l (installed r).
Proof.
  intros [|?|e l0 Hs|s e l0 Hs|s l0 l1 Hs Hl1|s l0 l1 l2 l3 v Hs Hl1 H2 H3
         |s l0 l1 l2 l3 v Hs Hl1 _ _ _ H2 H3]; try (apply balanced_quiet, quiet_nil);
    apply single_balanced in Hs; simpl in *; [done| | | |].
  - by eapply balanced_trans.
  - eapply balanced_trans; [exact Hs|]. simpl. by rewrite app_nil_r.
  - pose proof (balanced_close _ _ (balanced_chain _ (GetLocalAddr s) true _ _ _ _ _ Hs Hl1 H2 H3)) as Hc.
    by rewrite <- !(assoc_L (++)) in Hc.
  - exact (balanced_chain _ (GetLocalAddr s) true _ _ _ _ _ Hs Hl1 H2 H3).
Qed.

(** C18: Installing a selector never leaks a descriptor.  Whatever the kernel answers,
    the descriptors opened by [bind_quic_udp_reuseport_workers] -- worker sockets,
    the loaded program, the probe's sender -- are exactly those closed again plus
    the sockets returned; when it gives up nothing stays open. *)
Theorem quic_install_no_leak (config : Udp.UdpServiceConfig CB) workers w :
  0 <= workers ->
  balanced (log (bind_quic_udp_reuseport_workers a drain_fuel config workers) w)
    (installed (value (bind_quic_udp_reuseport_workers a drain_fuel config workers) w)).
Proof. intros Hw. by apply install_run_balanced with workers, (install_cases a drain_fuel). Qed.

(** C17: A selector that is reported installed works.  When
    [bind_quic_udp_reuseport_workers] returns sockets there is one per worker, a
    selector built for that number was attached to the first of them (the eBPF
    program, or the classic filter after the eBPF program was refused), and
    afterwards the probe datagram of every worker [i] was received on socket [i]. *)
Theorem quic_install_sound (config : Udp.UdpServiceConfig CB) workers w v :
  0 <= workers ->
  value (bind_quic_udp_reuseport_workers a drain_fuel config workers) w = Ok (Some v) ->
  0 < len v <= 65536 /\ len v = workers /\
  exists s bound attaching probing,
    log (bind_quic_udp_reuseport_workers a drain_fuel config workers) w =
      bound ++ attaching ++ probing /\
    get v 0 = Some s /\ attached_with s workers attaching /\ probes_received v probing.
Proof.
  intros Hw Hv. pose proof (install_cases a drain_fuel config workers Hw w) as Hr.
  simpl in Hr. rewrite Hv in Hr. remember (Ok (Some v)) as r eqn:Er.
  destruct Hr as [| | | | | |s l l1 l2 l3 v' _ _ Hlen Hfst Hmax _ _ Ha Hp]; try discriminate.
  injection Er as ->. split_and!; try done.
  - apply get_lt_Some in Hfst; lia.
  - exists s, (l ++ [Did (GetLocalAddr s) true] ++ l1), l2, l3. by rewrite <- !(assoc_L (++)).
Qed.

(** Everything but a misconfiguration falls back.  The only errors
    [bind_quic_udp_reuseport_workers] returns are for zero workers and for a bound
    first socket whose address cannot be read; a failed bind, an unsupported or
    refused program and a failed probe all give [Ok(None)], and with it the
    caller's simulated listener. *)
Theorem quic_install_errors (config : Udp.UdpServiceConfig CB) workers w e :
  0 <= workers ->
  value (bind_quic_udp_reuseport_workers a drain_fuel config workers) w = Err e ->
  (workers = 0 /\ e = InvalidConfig "worker count must be greater than zero" /\
   log (bind_quic_udp_reuseport_workers a drain_fuel config workers) w = []) \/
  (exists s, Did (GetLocalAddr s) false ∈
             log (bind_quic_udp_reuseport_workers a drain_fuel config workers) w).
Proof.
  intros Hw He. pose proof (install_cases a drain_fuel config workers Hw w) as Hr.
  simpl in Hr. rewrite He in Hr. remember (Err e) as r eqn:Er.
  destruct Hr as [| | |s e' l| | |]; try discriminate; injection Er as <-; [by left|].
  right. exists s. set_solver.
Qed.
(** A kernel that gives all probes to one socket never passes: with more than one
    worker no installation succeeds if every datagram received during it was received
    on the same socket. *)
Theorem one_socket_never_passes (config : Udp.UdpServiceConfig CB) workers w h v :
  1 < workers ->
  (forall s d, Did (RecvFrom s d) true ∈ log (bind_quic_udp_reuseport_workers a drain_fuel config workers) w ->
     s = h) ->
  value (bind_quic_udp_reuseport_workers a drain_fuel config workers) w = Ok (Some v) -> ~ NoDup v.
Proof.
  intros Hw Hone Hv Hnd. pose proof (install_cases a drain_fuel config workers ltac:(lia) w) as Hr.
  simpl in Hr. rewrite Hv in Hr. remember (Ok (Some v)) as r eqn:Er. remember (log _ w) as l0 eqn:El.
  destruct Hr as [| | | | | |s l l1 l2 l3 v' _ _ Hlen Hfst Hmax _ _ Ha Hp]; try discriminate.
  injection Er as ->. destruct (get_in_range v 0) as [s0 G0]; [lia|].
  destruct (get_in_range v 1) as [s1 G1]; [lia|].
  assert (Hs : forall i si, 0 <= i -> get v i = Some si -> si = h).
  { intros i si Hi Hg. apply (Hone si (quic_reuseport_probe_packet i)). rewrite !elem_of_app.
    do 4 right. by apply Hp. }
  rewrite (Hs 0 s0) in G0 by (done || lia). rewrite (Hs 1 s1) in G1 by (done || lia).
  by pose proof (NoDup_lookup v _ _ h Hnd G0 G1).
Qed.
End Claims.

(** ** Termination of the probe's loops *)

(** The world after a program. *)
Definition world {W Ev A} (m : prog W Ev A) (w : W) : W := (m w).1.2.

(** What the standard library documents of the clock: [Instant] never goes back and
    [thread::sleep] sleeps at least as long as asked. *)
Class ClockLaws (W : Type) `{SelectorOs W} := {
  clock : W -> Z;
  now_reads w : (os_now w).1 = clock w;
  now_monotone w : clock w <= clock (os_now w).2;
  sleep_advances n w : clock w + n <= clock (os_sleep n w).2;
  recv_monotone s n w : clock w <= clock (os_recv_from s n w).2;
}.

Section Termination.
Context {W : Type} `{ClockLaws W}.

Lemma poll_sockets_clock sockets index expected p (w : W) :
  clock w <= clock (world (poll_sockets sockets index expected p) w).
Proof.
  revert index w. induction sockets as [|s sockets IH]; intros index w; simpl.
  - unfold world. simpl. lia.
  - pose proof (recv_monotone s 16 w) as Hr.
    unfold world, recv_from, call, mbind, prog_bind in *.
    destruct (os_recv_from s 16 w) as [[d|e] w1]; simpl in *; [lia|].
    destruct (would_block e); [|simpl; lia]. specialize (IH (index + 1) w1).
    destruct (poll_sockets sockets (index + 1) expected p w1) as [[r w2] l2]. simpl in *. lia.
Qed.

(** As many iterations as milliseconds are left are enough. *)
Lemma wait_loop_enough fuel deadline sockets expected p (w : W) :
  Z.max 0 (deadline - clock w) < Z.of_nat fuel ->
  is_Some (value (wait_loop fuel deadline sockets expected p) w).
Proof.
  revert w. induction fuel as [|fuel IH]; intros w Hf; simpl; [lia|].
  pose proof (now_reads w) as Hn. pose proof (now_monotone w) as Hm.
  unfold value, ask, mbind, prog_bind in *. destruct (os_now w) as [now w1]. simpl in *. subst now.
  destruct (Z.ltb_spec (clock w) deadline); [|by eexists].
  pose proof (poll_sockets_clock sockets 0 expected p w1) as Hp. unfold world in Hp.
  destruct (poll_sockets sockets 0 expected p w1) as [[[r|] w2] l2]; simpl in *; [by eexists|].
  pose proof (sleep_advances 1 w2) as Hs. destruct (os_sleep 1 w2) as [[] w3]; simpl in *.
  specialize (IH w3 ltac:(lia)).
  by destruct (wait_loop fuel deadline sockets expected p w3) as [[r w4] l4].
Qed.

(** Draining stops when nothing is pending. *)
Lemma drain_loop_enough (pending : W -> nat) s fuel (w : W) :
  (forall n w d w', os_recv_from s n w = (Ok d, w') -> (pending w' < pending w)%nat) ->
  (pending w < fuel)%nat -> is_Some (value (drain_loop fuel s) w).
Proof.
  intros Hrecv. revert w. induction fuel as [|fuel IH]; intros w Hf; simpl; [lia|].
  specialize (Hrecv 16 w). unfold value, recv_from, call, mbind, prog_bind in *.
  destruct (os_recv_from s 16 w) as [[d|e] w1]; simpl in *.
  - specialize (Hrecv d w1 eq_refl). specialize (IH w1 ltac:(lia)).
    by destruct (drain_loop fuel s w1) as [[r w2] l2].
  - destruct (would_block e); by eexists.
Qed.

(** The probe's loops end.  With a clock that never goes back and a sleep of at
    least the requested millisecond, the wait for a probe returns within its 100 ms
    deadline, whatever arrives on the sockets; and draining a socket returns once
    more receives were made than datagrams were pending. *)
Theorem probe_loops_terminate sockets expected p (w : W) :
  is_Some (value (wait_loop WAIT_FUEL (clock w + PROBE_MILLIS) sockets expected p) w) /\
  forall (pending : W -> nat) s,
    (forall n w d w', os_recv_from s n w = (Ok d, w') -> (pending w' < pending w)%nat) ->
    is_Some (value (drain_loop (S (pending w)) s) w).
Proof.
  split.
  - apply wait_loop_enough. unfold PROBE_MILLIS, WAIT_FUEL. lia.
  - intros pending s Hr. apply (drain_loop_enough pending); [done|lia].
Qed.
End Termination.

(** ** A concrete kernel *)

(** A group of bound sockets, the datagrams queued on each, a clock, whether the
    eBPF program is accepted, and the selection function of the attached program. *)
Record kernel := mkKernel {
  k_next : Z;
  k_group : list fd;
  k_queue : list (fd * bytes);
  k_now : Z;
  k_takes_ebpf : bool;
  k_select : bytes -> option Z;
}.

Definition k_update (w : kernel) (next : Z) (group : list fd) (queue : list (fd * bytes)) (now : Z) :=
  mkKernel next group queue now (k_takes_ebpf w) (k_select w).

(** Take the first datagram queued on [s]. *)
Fixpoint take_queued (s : fd) (q : list (fd * bytes)) : option (bytes * list (fd * bytes)) :=
  match q with
  | [] => None
  | (s', d) :: q =>
      if s =? s' then Some (d, q)
      else match take_queued s q with Some (d', q') => Some (d', (s', d) :: q') | None => None end
  end.

Definition blocked : Io.Error := Io.mkError Io.WouldBlock EmptyString.

#[local] Instance kernel_os : Os kernel unit := {|
  os_socket _ _ w := (Ok (k_next w), k_update w (k_next w + 1) (k_group w) (k_queue w) (k_now w));
  os_set_reuse_address _ _ w := (Ok (), w);
  os_set_reuse_port _ _ w := (Ok (), w);
  os_set_ip_transparent_v4 _ _ w := (Ok (), w);
  os_set_ip_transparent_v6 _ _ w := (Ok (), w);
  os_setsockopt _ _ _ _ w := ((0, blocked), w);
  os_bind s _ w := (Ok (), k_update w (k_next w) (k_group w ++ [s]) (k_queue w) (k_now w));
  os_listen _ _ w := (Ok (), w);
  os_set_nonblocking _ _ w := (Ok (), w);
  os_local_addr _ w := (Ok (SocketAddrV4 [0; 0; 0; 0] 4433), w);
  os_close _ w := ((), w);
  os_init_callback _ _ w := (Ok (), w);
|}.

#[local] Instance kernel_selector : SelectorOs kernel := {|
  os_disable_quic_bpf w := (false, w);
  os_bpf _ _ _ w := ((k_next w, blocked), k_update w (k_next w + 1) (k_group w) (k_queue w) (k_now w));
  os_attach_ebpf _ _ _ _ w := ((if k_takes_ebpf w then 0 else -1, blocked), w);
  os_attach_cbpf _ _ _ _ w := ((0, blocked), w);
  os_udp_bind _ w := (Ok (k_next w), k_update w (k_next w + 1) (k_group w) (k_queue w) (k_now w));
  os_send_to _ d _ w :=
    (Ok (len d), match k_select w d ≫= get (k_group w) with
                 | Some s => k_update w (k_next w) (k_group w) (k_queue w ++ [(s, d)]) (k_now w)
                 | None => w
                 end);
  os_recv_from s n w :=
    match take_queued s (k_queue w) with
    | Some (d, q) => (Ok (take (Z.to_nat n) d), k_update w (k_next w) (k_group w) q (k_now w))
    | None => (Err blocked, w)
    end;
  os_now w := (k_now w, w);
  os_sleep n w := ((), k_update w (k_next w) (k_group w) (k_queue w) (k_now w + Z.max 0 n));
|}.

#[local] Instance kernel_clock : ClockLaws kernel.
Proof.
  refine {| clock := k_now |}; try done.
  - intros n w. simpl. lia.
  - intros s n w. simpl. destruct (take_queued s (k_queue w)) as [[d q]|]; simpl; lia.
Defined.

(** A kernel that routes with the classic filter for three workers, refusing eBPF;
    and one that takes the eBPF program but delivers everything to the first socket. *)
Definition good_kernel : kernel := mkKernel 3 [] [] 0 false (fun p => cbpf_selects p 3).
Definition broken_kernel : kernel := mkKernel 3 [] [] 0 true (fun _ => Some 0).

(** A kernel that runs the eBPF program as <linux/bpf.h> documents it: on the UDP header,
    passing a datagram only if the result is SK_PASS, one.  No socket was selected then,
    so the kernel takes one by the hash of the addresses, the same for every probe; here
    the first.  The checksum is given. *)
Definition documented_select (checksum : bytes -> Z) (workers : Z) (p : bytes) : option Z :=
  match ebpf_returns (Ebpf.mkEnv 4096 65536 (udp_header 50000 4433 (8 + len p) (checksum p) ++ p))
          (replicate 11 0) workers with
  | Some 1 => Some 0
  | _ => None
  end.
Definition documented_kernel (checksum : bytes -> Z) (workers : Z) : kernel :=
  mkKernel 3 [] [] 0 true (documented_select checksum workers).

Definition any_addr : SocketAddr := SocketAddrV4 [0; 0; 0; 0] 0.

Lemma quic_install_no_leak_witness :
  balanced (log (bind_quic_udp_reuseport_workers X86_64 8 (Udp.new any_addr) 3) broken_kernel) [].
Proof. exact (quic_install_no_leak X86_64 8 (Udp.new any_addr) 3 broken_kernel ltac:(lia)). Defined.

Lemma quic_install_sound_witness :
  exists s bound attaching probing,
    log (bind_quic_udp_reuseport_workers X86_64 8 (Udp.new any_addr) 3) good_kernel =
      bound ++ attaching ++ probing /\
    get [3; 4; 5] 0 = Some s /\ attached_with s 3 attaching /\ probes_received [3; 4; 5] probing.
Proof.
  apply (quic_install_sound X86_64 8 (Udp.new any_addr) 3 good_kernel [3; 4; 5]); [lia|].
  vm_compute. reflexivity.
Defined.

Lemma quic_install_errors_witness :
  (0 = 0 /\ InvalidConfig "worker count must be greater than zero" =
            InvalidConfig "worker count must be greater than zero" /\
   log (bind_quic_udp_reuseport_workers X86_64 8 (Udp.new any_addr) 0) good_kernel = []) \/
  (exists s, Did (GetLocalAddr s) false ∈
             log (bind_quic_udp_reuseport_workers X86_64 8 (Udp.new any_addr) 0) good_kernel).
Proof.
  apply (quic_install_errors X86_64 8 (Udp.new any_addr) 0 good_kernel); [lia|].
  vm_compute. reflexivity.
Defined.

Lemma probe_loops_terminate_witness :
  is_Some (value (wait_loop WAIT_FUEL (clock good_kernel + PROBE_MILLIS) [3; 4] 1 [1]) good_kernel).
Proof. exact (proj1 (probe_loops_terminate [3; 4] 1 [1] good_kernel)). Defined.

(** Is there an attempt to attach the classic filter? *)
Definition tried_cbpf (e : sys_event) : bool :=
  match e with Did (AttachCbpf _ _) _ => true | _ => false end.

(** The classic filter is tried only when attaching the eBPF program fails, not
    when the probe fails: whenever the eBPF program is attached, no attach of the
    classic filter follows, and on a kernel that takes the program but routes
    wrongly the installation gives up without trying it. *)
Theorem cbpf_not_tried_after_failed_probe :
  (forall {W CB} `{Os W CB} `{SelectorOs W} a s workers (w : W) s' p,
     Did (AttachEbpf s' p) true ∈ log (attach_selector a s workers) w ->
     existsb tried_cbpf (log (attach_selector a s workers) w) = false) /\
  value (bind_quic_udp_reuseport_workers X86_64 8 (Udp.new any_addr) 3) broken_kernel = Ok None /\
  existsb tried_cbpf
    (log (bind_quic_udp_reuseport_workers X86_64 8 (Udp.new any_addr) 3) broken_kernel) = false.
Proof.
  split; [|split; vm_compute; reflexivity].
  intros W CB ? ? a s workers w s' p. revert w.
  enough (wp (attach_selector a s workers) (fun _ l =>
    Did (AttachEbpf s' p) true ∈ l -> existsb tried_cbpf l = false)) as Hwp by exact Hwp.
  apply wp_bind, wp_try. unfold load_quic_reuseport_ebpf. case_match.
  - apply wp_try, wp_map_err, wp_call. intros [q|e]; simpl.
    + apply wp_bind, wp_emit, wp_ret. apply wp_bind, wp_call. intros [[]|e];
        apply wp_bind, wp_call; intros []; apply wp_ret; simpl; [by apply wp_ret|].
      apply wp_bind, wp_map_err, wp_call. intros r. apply wp_ret. set_solver.
    + apply wp_bind, wp_map_err, wp_call. intros r. apply wp_ret. set_solver.
  - apply wp_ret. apply wp_bind, wp_map_err, wp_call. intros r. apply wp_ret. set_solver.
Qed.

(** On such a kernel the installation gives up, whether the verdicts pass the probes or
    drop them, with several workers or one, and does not try the classic filter that
    would have worked. *)
Example documented_kernel_gives_up :
  let install k n := bind_quic_udp_reuseport_workers X86_64 8 (Udp.new any_addr) n k in
  Forall (fun '(checksum, n) =>
    let k := documented_kernel (fun _ => checksum) n in
    value (fun _ => install k n) k = Ok None /\ existsb tried_cbpf (log (fun _ => install k n) k) = false)
    [(1, 3); (2, 3); (77, 1)] /\
  value (fun _ => install good_kernel 3) good_kernel = Ok (Some [3; 4; 5]).
Proof. split; [repeat constructor|]; vm_compute; reflexivity. Qed.
