(* ===== verification/Recv.v ===== *)
(** * Receiving datagrams: sockets of [src/src/core/udp.rs] and [src/src/runtime/tokio.rs], original destinations of [src/src/platform/linux.rs]

    [UdpSocket] is a runtime socket or a routed one, fed by a channel; both offer
    the same receive and send operations.  With transparent sockets the local
    address of a datagram is read from the control messages of [recvmsg].  The
    runtime's sockets, the channels and [recvmsg] answer arbitrarily. *)

From S2P Require Import Prelude Errors Net Effects Schedule.

(** ** Socket addresses as the kernel writes them *)

Definition AF_INET : Z := 2.
Definition AF_INET6 : Z := 10.
Definition SOCKADDR_STORAGE_SIZE : nat := 128.
Definition SOCKADDR_IN_SIZE : nat := 16.
Definition SOCKADDR_IN6_SIZE : nat := 28.

Definition SOL_IP : Z := 0.
Definition IP_ORIGDSTADDR : Z := 20.
Definition SOL_IPV6 : Z := 41.
Definition IPV6_RECVORIGDSTADDR : Z := 74.

(** Byte [i] of a structure of known size. *)
Definition byte_at (s : bytes) (i : Z) : Z := default 0 (get s i).

(** [addr.ss_family], a native-endian [u16]. *)
Definition ss_family (little_endian : bool) (addr : bytes) : Z :=
  if little_endian then be16 (byte_at addr 1) (byte_at addr 0)
  else be16 (byte_at addr 0) (byte_at addr 1).

(** [u16::from_be(addr.sin_port)]: the port in network order at offset 2 of both
    structures. *)
Definition sin_port (addr : bytes) : Z := be16 (byte_at addr 2) (byte_at addr 3).

(** [sockaddr_storage_to_socket_addr]: [sin_addr] at offset 4, [sin6_addr] at 8. *)
Definition sockaddr_storage_to_socket_addr (little_endian : bool) (addr : bytes) :
    io_result SocketAddr :=
  let family := ss_family little_endian addr in
  if family =? AF_INET then Ok (SocketAddr_new (IpV4 (slice addr 4 8)) (sin_port addr))
  else if family =? AF_INET6 then Ok (SocketAddr_new (IpV6 (slice addr 8 24)) (sin_port addr))
  else Err (Io.mkError Io.InvalidData
              ("unsupported socket address family " +:+ pretty family)).

(** A control message as [CMSG_FIRSTHDR] and [CMSG_NXTHDR] enumerate them; the
    data is what lies at [CMSG_DATA]. *)
Record cmsghdr := mkCmsg { cmsg_level : Z; cmsg_type : Z; cmsg_data : bytes }.

(** [copy_nonoverlapping] of [n] bytes into a zeroed [sockaddr_storage]. *)
Definition storage_from (n : nat) (data : bytes) : bytes :=
  copy_prefix n data (replicate SOCKADDR_STORAGE_SIZE 0).

(** [original_destination_addr] *)
Fixpoint original_destination_addr (messages : list cmsghdr) : option bytes :=
  match messages with
  | [] => None
  | header :: rest =>
      if bool_decide (cmsg_level header = SOL_IP /\ cmsg_type header = IP_ORIGDSTADDR)
      then Some (storage_from SOCKADDR_IN_SIZE (cmsg_data header))
      else if bool_decide (cmsg_level header = SOL_IPV6 /\ cmsg_type header = IPV6_RECVORIGDSTADDR)
      then Some (storage_from SOCKADDR_IN6_SIZE (cmsg_data header))
      else original_destination_addr rest
  end.

(** What [recvmsg] filled in: the length, the buffer, the source address, the
    control messages. *)
Record message := mkMessage {
  msg_len : Z;
  msg_buffer : bytes;
  msg_name : bytes;
  msg_control : list cmsghdr;
}.

Inductive poll (A : Type) := Ready (a : A) | Pending.
Arguments Ready {A} a.
Arguments Pending {A}.

Record RoutedPacket := mkPacket { payload : bytes; packet_peer : SocketAddr }.

(** Sockets are named by their number; a routed socket has the number of its
    sending socket and the number of its channel. *)
Record RoutedUdpSocket := mkRouted { sender : Z; receiver : Z; routed_local_addr : SocketAddr }.

Inductive UdpSocketInner := RuntimeSocket (socket : Z) | Routed (socket : RoutedUdpSocket).

(** The operations of the async runtime, the channels and the system used here.
    A receive returns its result and the buffer it wrote to. *)
Class SocketEnv (W : Type) := {
  rt_recv_from : Z -> bytes -> W -> (io_result (Z * SocketAddr) * bytes) * W;
  rt_poll_recv_from : Z -> bytes -> W -> (poll (io_result (Z * SocketAddr)) * bytes) * W;
  rt_send_to : Z -> bytes -> SocketAddr -> W -> io_result Z * W;
  rt_try_send_to : Z -> bytes -> SocketAddr -> W -> io_result Z * W;
  rt_poll_send_ready : Z -> W -> poll (io_result unit) * W;
  rt_local_addr : Z -> W -> io_result SocketAddr * W;
  std_send_to : Z -> bytes -> SocketAddr -> W -> io_result Z * W;
  channel_recv : Z -> W -> option RoutedPacket * W;
  channel_poll_recv : Z -> W -> poll (option RoutedPacket) * W;
  libc_recvmsg : Z -> bytes -> W -> io_result message * W;
}.

(** ** Scattering a datagram over several buffers *)

(** [scatter_datagram], from [offset] on. *)
Fixpoint scatter_from (offset : nat) (payload : bytes) (buffers : list bytes) : list bytes :=
  match buffers with
  | [] => []
  | buffer :: rest =>
      if bool_decide (length payload <= offset)%nat then buffers
      else
        let copy_len := Nat.min (length payload - offset) (length buffer) in
        copy_prefix copy_len (drop offset payload) buffer ::
        scatter_from (offset + copy_len) payload rest
  end.

Definition scatter_datagram (payload : bytes) (buffers : list bytes) : list bytes :=
  scatter_from 0 payload buffers.

Section Ops.
Context {W Ev : Type} `{SocketEnv W} (little_endian : bool).
#[local] Abbreviation io A := (prog W Ev A).

(** ** [recvmsg] with the original destination *)

(** [recv_udp_original_dst_raw] *)
Definition recv_udp_original_dst_raw (socket : Z) (buffer : bytes) (fallback_local_addr : SocketAddr) :
    io (io_result (Z * SocketAddr * SocketAddr) * bytes) :=
  r ← ask (libc_recvmsg socket buffer);
  match r with
  | Err e => mret (Err e, buffer)
  | Ok message =>
      mret (destination ← match original_destination_addr (msg_control message) with
                          | Some destination => sockaddr_storage_to_socket_addr little_endian destination
                          | None => Ok fallback_local_addr
                          end;
            source ← sockaddr_storage_to_socket_addr little_endian (msg_name message);
            Ok (msg_len message, source, destination),
            msg_buffer message)
  end.

(** [recv_udp_original_dst]: Linux with tokio, where [async_io] runs the raw
    receive when the socket is readable; everything else. *)
Definition recv_udp_original_dst (supported : bool) (socket : Z) (buffer : bytes)
    (fallback_local_addr : SocketAddr) : io (io_result (Z * SocketAddr * SocketAddr * bytes)) :=
  if supported then
    r ← recv_udp_original_dst_raw socket buffer fallback_local_addr;
    mret ('(len, peer_addr, local_addr) ← r.1; Ok (len, peer_addr, local_addr, r.2))
  else mret (Err (Io.mkError Io.Unsupported
    "UDP original destination receive is unsupported by the selected platform or runtime")).

(** ** Runtime wrappers ([runtime/tokio.rs]) *)

Definition udp_recv_from (socket : Z) (buffer : bytes) : io (io_result (Z * SocketAddr * bytes)) :=
  r ← ask (rt_recv_from socket buffer);
  mret ('(len, peer_addr) ← r.1; Ok (len, peer_addr, r.2)).

Definition udp_poll_recv_from_vectored (socket : Z) (buffers : list bytes) :
    io (poll (io_result (Z * SocketAddr)) * list bytes) :=
  r ← ask (rt_poll_recv_from socket (vec_of 0 65536));
  match r with
  | (Pending, _) => mret (Pending, buffers)
  | (Ready (Err e), _) => mret (Ready (Err e), buffers)
  | (Ready (Ok (len, peer_addr)), buffer) =>
      mret (Ready (Ok (len, peer_addr)), scatter_datagram (slice buffer 0 len) buffers)
  end.

(** ** [RoutedUdpSocket] *)

Definition routed_closed : Io.Error := Io.mkError Io.UnexpectedEof "routed UDP socket closed".

Definition recv_packet (self : RoutedUdpSocket) : io (io_result RoutedPacket) :=
  p ← ask (channel_recv (receiver self));
  mret (ok_or routed_closed p).

(** [let len = payload.len().min(buffer.len()); buffer[..len].copy_from_slice(&payload[..len])] *)
Definition copied (p : RoutedPacket) (buffer : bytes) : nat :=
  Nat.min (length (payload p)) (length buffer).
Definition fill_from (p : RoutedPacket) (buffer : bytes) : bytes :=
  copy_prefix (copied p buffer) (payload p) buffer.

Definition recv_from_slice (self : RoutedUdpSocket) (buffer : bytes) :
    io (io_result (Z * SocketAddr) * bytes) :=
  packet ← recv_packet self;
  match packet with
  | Ok packet => mret (Ok (Z.of_nat (copied packet buffer), packet_peer packet), fill_from packet buffer)
  | Err e => mret (Err e, buffer)
  end.

Definition routed_recv_from_vec (self : RoutedUdpSocket) (buffer : bytes) :
    io (io_result (Z * SocketAddr * bytes)) :=
  packet ←? recv_packet self;
  mret (Ok (Z.of_nat (copied packet buffer), packet_peer packet, fill_from packet buffer)).

Definition poll_recv_packet (self : RoutedUdpSocket) : io (poll (io_result RoutedPacket)) :=
  p ← ask (channel_poll_recv (receiver self));
  mret (match p with
        | Ready p => Ready (ok_or routed_closed p)
        | Pending => Pending
        end).

Definition poll_recv_from_slice (self : RoutedUdpSocket) (buffer : bytes) :
    io (poll (io_result (Z * SocketAddr)) * bytes) :=
  packet ← poll_recv_packet self;
  match packet with
  | Pending => mret (Pending, buffer)
  | Ready (Ok packet) =>
      mret (Ready (Ok (Z.of_nat (copied packet buffer), packet_peer packet)), fill_from packet buffer)
  | Ready (Err e) => mret (Ready (Err e), buffer)
  end.

Definition routed_poll_recv_from_vectored (self : RoutedUdpSocket) (buffers : list bytes) :
    io (poll (io_result (Z * SocketAddr)) * list bytes) :=
  packet ← poll_recv_packet self;
  match packet with
  | Pending => mret (Pending, buffers)
  | Ready (Ok packet) =>
      mret (Ready (Ok (len (payload packet), packet_peer packet)),
            scatter_datagram (payload packet) buffers)
  | Ready (Err e) => mret (Ready (Err e), buffers)
  end.

(** ** [UdpSocket] *)

Definition recv_from (self : UdpSocketInner) (buffer : bytes) :
    io (crate_result (Z * SocketAddr) * bytes) :=
  match self with
  | RuntimeSocket socket => r ← ask (rt_recv_from socket buffer); mret (map_err Error_from r.1, r.2)
  | Routed socket => r ← recv_from_slice socket buffer; mret (map_err Error_from r.1, r.2)
  end.

Definition send_to (self : UdpSocketInner) (buffer : bytes) (target : SocketAddr) :
    io (crate_result Z) :=
  match self with
  | RuntimeSocket socket => prog_map_err Error_from (ask (rt_send_to socket buffer target))
  | Routed socket => prog_map_err Error_from (ask (std_send_to (sender socket) buffer target))
  end.

Definition socket_local_addr (self : UdpSocketInner) : io (crate_result SocketAddr) :=
  match self with
  | RuntimeSocket socket => prog_map_err Error_from (ask (rt_local_addr socket))
  | Routed socket => mret (Ok (routed_local_addr socket))
  end.

Definition try_send_to (self : UdpSocketInner) (buffer : bytes) (target : SocketAddr) :
    io (io_result Z) :=
  match self with
  | RuntimeSocket socket => ask (rt_try_send_to socket buffer target)
  | Routed socket => ask (std_send_to (sender socket) buffer target)
  end.

Definition poll_send_ready (self : UdpSocketInner) : io (poll (io_result unit)) :=
  match self with
  | RuntimeSocket socket => ask (rt_poll_send_ready socket)
  | Routed _ => mret (Ready (Ok ()))
  end.

Definition poll_recv_from (self : UdpSocketInner) (buffer : bytes) :
    io (poll (io_result (Z * SocketAddr)) * bytes) :=
  match self with
  | RuntimeSocket socket => ask (rt_poll_recv_from socket buffer)
  | Routed socket => poll_recv_from_slice socket buffer
  end.

Definition poll_recv_from_vectored (self : UdpSocketInner) (buffers : list bytes) :
    io (poll (io_result (Z * SocketAddr)) * list bytes) :=
  match self with
  | RuntimeSocket socket => udp_poll_recv_from_vectored socket buffers
  | Routed socket => routed_poll_recv_from_vectored socket buffers
  end.

Definition recv_from_vec (self : UdpSocketInner) (buffer : bytes) :
    io (crate_result (Z * SocketAddr * bytes)) :=
  match self with
  | RuntimeSocket socket => prog_map_err Error_from (udp_recv_from socket buffer)
  | Routed socket => prog_map_err Error_from (routed_recv_from_vec socket buffer)
  end.

(** [recv_packet_with_local_addr]; [supported] as in [recv_udp_original_dst]. *)
Definition recv_packet_with_local_addr (supported : bool) (self : UdpSocketInner) (buffer : bytes)
    (transparent_receive : bool) : io (crate_result (Z * SocketAddr * SocketAddr * bytes)) :=
  let plain :=
    r ←? recv_from_vec self buffer;
    let '(len, peer_addr, buffer) := r in
    local_addr ←? socket_local_addr self;
    mret (Ok (len, peer_addr, local_addr, buffer)) in
  match self with
  | RuntimeSocket socket =>
      if transparent_receive then
        fallback_local_addr ←? socket_local_addr self;
        prog_map_err Error_from (recv_udp_original_dst supported socket buffer fallback_local_addr)
      else plain
  | Routed _ => plain
  end.
End Ops.

(** ** Lemmas *)

Lemma scatter_from_lengths offset p bs : length <$> scatter_from offset p bs = length <$> bs.
Proof.
  revert offset. induction bs as [|b bs IH]; intros offset; simpl; [done|].
  case_bool_decide; [done|]. simpl. rewrite IH. f_equal.
  apply copy_prefix_length; rewrite ?length_drop; lia.
Qed.

Lemma copy_prefix_nil {A} (src dst : list A) : copy_prefix 0 src dst = dst.
Proof. unfold copy_prefix. by rewrite drop_0. Qed.

(** Copying into the first buffer and then the rest is copying into both. *)
Lemma copy_prefix_app {A} (n : nat) (src d1 d2 : list A) :
  (n <= length src)%nat ->
  copy_prefix (Nat.min n (length d1)) src d1 ++
    copy_prefix (n - length d1) (drop (length d1) src) d2 =
  copy_prefix n src (d1 ++ d2).
Proof.
  intros Hn. unfold copy_prefix. rewrite drop_app.
  destruct (decide (n <= length d1)%nat).
  - rewrite Nat.min_l by done. replace (n - length d1)%nat with 0%nat by lia.
    rewrite take_0, drop_0. by rewrite <- !(assoc_L (++)).
  - rewrite Nat.min_r by lia. rewrite (drop_ge d1 (length d1)) by lia.
    rewrite (drop_ge d1 n) by lia. rewrite app_nil_r, app_nil_l, (assoc_L (++)). f_equal.
    rewrite take_take_drop. f_equal. lia.
Qed.

Lemma scatter_from_concat offset p bs :
  concat (scatter_from offset p bs) =
  copy_prefix (Nat.min (length p - offset) (length (concat bs))) (drop offset p) (concat bs).
Proof.
  revert offset. induction bs as [|b bs IH]; intros offset; simpl.
  - by rewrite Nat.min_0_r.
  - case_bool_decide as Ho.
    + replace (length p - offset)%nat with 0%nat by lia. simpl. by rewrite copy_prefix_nil.
    + simpl. rewrite IH, <- drop_drop, length_app.
      rewrite <- copy_prefix_app by (rewrite length_drop; lia).
      f_equal; [f_equal; lia|].
      destruct (decide (length p - offset <= length b)%nat).
      * replace (Nat.min (length p - (offset + Nat.min (length p - offset) (length b)))
                   (length (concat bs))) with 0%nat by lia.
        replace (Nat.min (length p - offset) (length b + length (concat bs)) - length b)%nat
          with 0%nat by lia.
        by rewrite !copy_prefix_nil.
      * replace (Nat.min (length p - offset) (length b)) with (length b) by lia. f_equal. lia.
Qed.

Lemma family_bytes le (f : Z) rest : 0 <= f < 256 ->
  ss_family le ((if (le : bool) then [f; 0] else [0; f]) ++ rest) = f.
Proof. intros Hf. destruct le; unfold ss_family, byte_at; simpl; unfold be16; by rewrite Z.shiftl_0_l, Z.lor_0_l. Qed.

(** ** What the kernel writes for an address *)

Definition encode_sockaddr (little_endian : bool) (a : SocketAddr) (flowinfo scope : bytes) : bytes :=
  match a with
  | SocketAddrV4 ip port =>
      (if little_endian then [AF_INET; 0] else [0; AF_INET]) ++ to_be_bytes port ++ ip ++
      replicate 120 0
  | SocketAddrV6 ip port _ _ =>
      (if little_endian then [AF_INET6; 0] else [0; AF_INET6]) ++ to_be_bytes port ++ flowinfo ++ ip ++
      scope ++ replicate 100 0
  end.

Lemma slice_mid {A} (l m r : list A) a b :
  Z.of_nat (length l) = a -> Z.of_nat (length m) = b - a -> slice (l ++ m ++ r) a b = m.
Proof.
  intros Hl Hm. unfold slice. rewrite drop_app_length' by lia. by rewrite take_app_length' by lia.
Qed.

Lemma encode_sockaddr_parse le a flowinfo scope rest :
  addr_ok a -> length flowinfo = 4%nat ->
  sockaddr_storage_to_socket_addr le (encode_sockaddr le a flowinfo scope ++ rest) =
    Ok (SocketAddr_new (addr_ip a) (addr_port a)).
Proof.
  intros [[_ Hip] Hport] Hf. unfold sockaddr_storage_to_socket_addr, encode_sockaddr.
  destruct a as [ip port|ip port fl sc]; simpl in Hip, Hport.
  all: rewrite <- !(assoc_L (++)), family_bytes by (unfold AF_INET, AF_INET6; lia).
  - change (AF_INET =? AF_INET) with true. cbv iota. unfold SocketAddr_new, addr_ip, addr_port.
    f_equal. f_equal.
    + rewrite (assoc_L (++)). apply slice_mid; [by destruct le|lia].
    + destruct le; unfold sin_port, byte_at; simpl; by apply be16_split.
  - change (AF_INET6 =? AF_INET) with false. change (AF_INET6 =? AF_INET6) with true. cbv iota.
    unfold SocketAddr_new, addr_ip, addr_port. f_equal. f_equal.
    + rewrite (assoc_L (++) (to_be_bytes port)), (assoc_L (++) (if le then _ else _)).
      apply slice_mid; [rewrite !length_app, Hf; by destruct le|lia].
    + destruct le; unfold sin_port, byte_at; simpl; by apply be16_split.
Qed.

Lemma storage_from_sockaddr le a flowinfo scope junk :
  addr_ok a -> length flowinfo = 4%nat -> length scope = 4%nat ->
  storage_from (if is_ipv4 a then SOCKADDR_IN_SIZE else SOCKADDR_IN6_SIZE)
    (take (if is_ipv4 a then SOCKADDR_IN_SIZE else SOCKADDR_IN6_SIZE)
       (encode_sockaddr le a flowinfo scope) ++ junk) = encode_sockaddr le a flowinfo scope.
Proof.
  intros [[_ Hip] _] Hf Hs. unfold storage_from, copy_prefix, encode_sockaddr.
  destruct a as [ip port|ip port fl sc]; simpl in Hip; cbn [is_ipv4].
  - do 5 (destruct ip as [|? ip]; try discriminate). by destruct le.
  - do 17 (destruct ip as [|? ip]; try discriminate).
    do 5 (destruct flowinfo as [|? flowinfo]; try discriminate).
    do 5 (destruct scope as [|? scope]; try discriminate). by destruct le.
Qed.

(** ** Claims *)

(** Flow info and scope of an IPv6 address are not kept. *)
Definition strip (a : SocketAddr) : SocketAddr := SocketAddr_new (addr_ip a) (addr_port a).

Definition is_origdst (c : cmsghdr) : bool :=
  bool_decide (cmsg_level c = SOL_IP /\ cmsg_type c = IP_ORIGDSTADDR) ||
  bool_decide (cmsg_level c = SOL_IPV6 /\ cmsg_type c = IPV6_RECVORIGDSTADDR).

(** The control message the kernel attaches for destination [dst]. *)
Definition origdst_cmsg (le : bool) (dst : SocketAddr) (flowinfo scope junk : bytes) : cmsghdr :=
  if is_ipv4 dst
  then mkCmsg SOL_IP IP_ORIGDSTADDR
         (take SOCKADDR_IN_SIZE (encode_sockaddr le dst flowinfo scope) ++ junk)
  else mkCmsg SOL_IPV6 IPV6_RECVORIGDSTADDR
         (take SOCKADDR_IN6_SIZE (encode_sockaddr le dst flowinfo scope) ++ junk).

Lemma original_destination_none l :
  forallb (fun c => negb (is_origdst c)) l = true -> original_destination_addr l = None.
Proof.
  induction l as [|c l IH]; simpl; [done|]. unfold is_origdst.
  repeat case_bool_decide; simpl; try discriminate. done.
Qed.

Lemma original_destination_app pre l :
  forallb (fun c => negb (is_origdst c)) pre = true ->
  original_destination_addr (pre ++ l) = original_destination_addr l.
Proof.
  induction pre as [|c pre IH]; simpl; [done|]. unfold is_origdst.
  repeat case_bool_decide; simpl; try discriminate. done.
Qed.

Lemma original_destination_first le dst flowinfo scope junk post :
  addr_ok dst -> length flowinfo = 4%nat -> length scope = 4%nat ->
  original_destination_addr (origdst_cmsg le dst flowinfo scope junk :: post) =
  Some (encode_sockaddr le dst flowinfo scope).
Proof.
  intros Hd Hf Hs. rewrite <- (storage_from_sockaddr le dst flowinfo scope junk) by done.
  unfold origdst_cmsg. by destruct (is_ipv4 dst).
Qed.

(** Addresses read from the kernel.  Reading back the [sockaddr] the kernel
    writes for an IPv4 or IPv6 endpoint, on either byte order, gives its address
    and port (flow info and scope are zeroed); every other family is an
    [InvalidData] error. *)
Theorem sockaddr_roundtrip le a flowinfo scope :
  addr_ok a -> length flowinfo = 4%nat ->
  sockaddr_storage_to_socket_addr le (encode_sockaddr le a flowinfo scope) = Ok (strip a) /\
  (forall s, ss_family le s <> AF_INET -> ss_family le s <> AF_INET6 ->
     exists msg, sockaddr_storage_to_socket_addr le s = Err (Io.mkError Io.InvalidData msg)).
Proof.
  intros Ha Hf. split.
  - rewrite <- (app_nil_r (encode_sockaddr _ _ _ _)). by apply encode_sockaddr_parse.
  - intros s H1 H2. unfold sockaddr_storage_to_socket_addr.
    rewrite (proj2 (Z.eqb_neq _ _) H1), (proj2 (Z.eqb_neq _ _) H2). eauto.
Qed.

Lemma sockaddr_roundtrip_witness :
  sockaddr_storage_to_socket_addr true
    (encode_sockaddr true (SocketAddrV4 [10; 1; 2; 3] 4433) [0; 0; 0; 0] []) =
  Ok (SocketAddrV4 [10; 1; 2; 3] 4433).
Proof.
  apply (sockaddr_roundtrip true (SocketAddrV4 [10; 1; 2; 3] 4433) [0; 0; 0; 0] []);
    [by apply (bool_decide_unpack _)|reflexivity].
Defined.

(** C38: The original destination is what the handler sees.  Whatever other control
    messages come with a datagram, a transparent receive reports the length and
    the payload [recvmsg] delivered, the sender's address, and as local address
    the first original destination the kernel attached -- the socket's own address
    exactly when it attached none. *)
Theorem original_destination_received {W} `{SocketEnv W} {Ev} le socket buffer fallback w w' m src fl sc :
  libc_recvmsg socket buffer w = (Ok m, w') ->
  msg_name m = encode_sockaddr le src fl sc -> addr_ok src -> length fl = 4%nat ->
  let r := value (Ev := Ev) (recv_udp_original_dst le true socket buffer fallback) w in
  (forallb (fun c => negb (is_origdst c)) (msg_control m) = true ->
     r = Ok (msg_len m, strip src, fallback, msg_buffer m)) /\
  (forall pre post dst fl' sc' junk,
     msg_control m = pre ++ origdst_cmsg le dst fl' sc' junk :: post ->
     forallb (fun c => negb (is_origdst c)) pre = true ->
     addr_ok dst -> length fl' = 4%nat -> length sc' = 4%nat ->
     r = Ok (msg_len m, strip src, strip dst, msg_buffer m)).
Proof.
  intros Hm Hn Hsrc Hfl. simpl.
  assert (Hs : sockaddr_storage_to_socket_addr le (msg_name m) = Ok (strip src)).
  { rewrite Hn, <- (app_nil_r (encode_sockaddr _ _ _ _)). by apply encode_sockaddr_parse. }
  unfold recv_udp_original_dst, recv_udp_original_dst_raw, value, ask, mbind, prog_bind.
  rewrite Hm. simpl. split.
  - intros Hc. rewrite (original_destination_none _ Hc). simpl. by rewrite Hs.
  - intros pre post dst fl' sc' junk Hc Hpre Hd Hf' Hs'.
    rewrite Hc, original_destination_app, original_destination_first by done.
    rewrite <- (app_nil_r (encode_sockaddr le dst fl' sc')), encode_sockaddr_parse by done.
    simpl. by rewrite Hs.
Qed.

(** Scattering keeps the datagram.  [scatter_datagram] never resizes a buffer,
    and read in order the buffers hold the datagram, cut to their total size, and
    then whatever they held before. *)
Theorem scatter_datagram_spec payload buffers :
  length <$> scatter_datagram payload buffers = length <$> buffers /\
  concat (scatter_datagram payload buffers) =
    take (length (concat buffers)) payload ++ drop (length payload) (concat buffers).
Proof.
  split; [apply scatter_from_lengths|].
  unfold scatter_datagram. rewrite scatter_from_concat, Nat.sub_0_r, drop_0. unfold copy_prefix.
  destruct (decide (length payload <= length (concat buffers))%nat).
  - rewrite Nat.min_l by done. by rewrite !take_ge by lia.
  - rewrite Nat.min_r by lia. by rewrite !drop_ge by lia.
Qed.

(** A routed socket receives like a datagram socket.  [recv_from],
    [recv_from_vec] and a ready [poll_recv_from] report the same sender and the
    same number of bytes, the datagram cut to the buffer; the buffer keeps its
    length, starts with those bytes and is unchanged after them.  When the
    router is gone all three fail with [UnexpectedEof] and no byte is written. *)
Theorem routed_receive {W} `{SocketEnv W} {Ev} (s : RoutedUdpSocket) buffer w w' (p : option RoutedPacket) :
  channel_recv (receiver s) w = (p, w') -> channel_poll_recv (receiver s) w = (Ready p, w') ->
  let closed := Error_from (Io.mkError Io.UnexpectedEof "routed UDP socket closed") in
  match p with
  | Some p =>
      let n := Nat.min (length (payload p)) (length buffer) in
      exists b, length b = length buffer /\ take n b = take n (payload p) /\ drop n b = drop n buffer /\
        value (Ev := Ev) (recv_from (Routed s) buffer) w = (Ok (Z.of_nat n, packet_peer p), b) /\
        value (Ev := Ev) (recv_from_vec (Routed s) buffer) w = Ok (Z.of_nat n, packet_peer p, b) /\
        value (Ev := Ev) (poll_recv_from (Routed s) buffer) w = (Ready (Ok (Z.of_nat n, packet_peer p)), b)
  | None =>
      value (Ev := Ev) (recv_from (Routed s) buffer) w = (Err closed, buffer) /\
      value (Ev := Ev) (recv_from_vec (Routed s) buffer) w = Err closed /\
      value (Ev := Ev) (poll_recv_from (Routed s) buffer) w =
        (Ready (Err (Io.mkError Io.UnexpectedEof "routed UDP socket closed")), buffer)
  end.
Proof.
  intros Hr Hp. unfold recv_from, recv_from_vec, poll_recv_from, recv_from_slice,
    routed_recv_from_vec, poll_recv_from_slice, recv_packet, poll_recv_packet, prog_map_err,
    try_bind, value, ask, mbind, prog_bind.
  rewrite Hr, Hp. destruct p as [p|]; simpl; [|done].
  exists (fill_from p buffer). unfold fill_from, copied. split_and!; try done.
  - apply copy_prefix_length; lia.
  - apply copy_prefix_take. lia.
  - unfold copy_prefix. apply drop_app_length'. rewrite length_take. lia.
Qed.

(** A world with one datagram waiting everywhere. *)
Definition example_packet : RoutedPacket := mkPacket [1; 2; 3; 4] (SocketAddrV4 [10; 0; 0; 9] 700).
Definition example_message : message :=
  mkMessage 2 [7; 8] (encode_sockaddr true (SocketAddrV4 [10; 0; 0; 9] 700) [] [])
    [mkCmsg 1 1 []; origdst_cmsg true (SocketAddrV4 [192; 0; 2; 1] 53) [0; 0; 0; 0] [0; 0; 0; 0] []].

#[local] Instance one_datagram : SocketEnv unit := {|
  rt_recv_from _ b w := ((Ok (0, packet_peer example_packet), b), w);
  rt_poll_recv_from _ b w := ((Pending, b), w);
  rt_send_to _ b _ w := (Ok (len b), w);
  rt_try_send_to _ b _ w := (Ok (len b), w);
  rt_poll_send_ready _ w := (Ready (Ok ()), w);
  rt_local_addr _ w := (Ok (SocketAddrV4 [0; 0; 0; 0] 53), w);
  std_send_to _ b _ w := (Ok (len b), w);
  channel_recv _ w := (Some example_packet, w);
  channel_poll_recv _ w := (Ready (Some example_packet), w);
  libc_recvmsg _ _ w := (Ok example_message, w);
|}.

Lemma original_destination_received_witness :
  value (Ev := unit) (recv_udp_original_dst true true 3 [0; 0] (SocketAddrV4 [0; 0; 0; 0] 53)) () =
  Ok (2, SocketAddrV4 [10; 0; 0; 9] 700, SocketAddrV4 [192; 0; 2; 1] 53, [7; 8]).
Proof.
  pose proof (original_destination_received (Ev := unit) true 3 [0; 0] (SocketAddrV4 [0; 0; 0; 0] 53)
    () () example_message (SocketAddrV4 [10; 0; 0; 9] 700) [0; 0; 0; 0] [0; 0; 0; 0]
    eq_refl eq_refl ltac:(by apply (bool_decide_unpack _)) eq_refl) as [_ Hd].
  exact (Hd [mkCmsg 1 1 []] [] (SocketAddrV4 [192; 0; 2; 1] 53) [0; 0; 0; 0] [0; 0; 0; 0] []
    eq_refl eq_refl ltac:(by apply (bool_decide_unpack _)) eq_refl eq_refl).
Defined.

Lemma routed_receive_witness :
  exists b, value (Ev := unit) (recv_from (Routed (mkRouted 1 2 (SocketAddrV4 [0; 0; 0; 0] 53))) [9; 9]) () =
    (Ok (2, packet_peer example_packet), b) /\ take 2 b = [1; 2].
Proof.
  destruct (@routed_receive unit one_datagram unit (mkRouted 1 2 (SocketAddrV4 [0; 0; 0; 0] 53)) [9; 9] () ()
    (Some example_packet) eq_refl eq_refl) as (b & _ & Ht & _ & Hr & _). exists b. auto.
Defined.
