(* ===== verification/RuntimeSockets.v ===== *)
(** * Sockets of the two runtimes: [src/src/runtime/tokio.rs], [async_std.rs]

    The functions with which the rest of the crate turns a standard socket into one
    of the async runtime and reads and writes it.  The runtimes' own sockets are an
    interface; from it each runtime module defines a [SocketEnv], the interface
    [UdpSocket] of [Recv] is written against, so the theorems of [Recv] hold for
    both. *)

From S2P Require Import Prelude Errors Net Effects Recv.

(** The operations of tokio's or async-std's sockets, of the channel of a routed
    socket and of the standard sockets.  [try_current] answers the message of the
    error when there is no runtime; a [ReadBuf] receive answers what it filled. *)
Class RuntimeApi (W : Type) := {
  set_nonblocking : Z -> W -> io_result unit * W;
  try_current : W -> result string unit * W;
  tcp_from_std : Z -> W -> io_result Z * W;
  stream_from_std : Z -> W -> io_result Z * W;
  udp_from_std : Z -> W -> io_result Z * W;
  api_recv_from : Z -> bytes -> W -> (io_result (Z * SocketAddr) * bytes) * W;
  api_send_to : Z -> bytes -> SocketAddr -> W -> io_result Z * W;
  api_try_send_to : Z -> bytes -> SocketAddr -> W -> io_result Z * W;
  api_poll_send_ready : Z -> W -> poll (io_result unit) * W;
  api_poll_recv_from : Z -> nat -> W -> (poll (io_result SocketAddr) * bytes) * W;
  api_local_addr : Z -> W -> io_result SocketAddr * W;
  api_std_send_to : Z -> bytes -> SocketAddr -> W -> io_result Z * W;
  api_channel_recv : Z -> W -> option RoutedPacket * W;
  api_channel_poll_recv : Z -> W -> poll (option RoutedPacket) * W;
  api_recvmsg : Z -> bytes -> W -> io_result message * W;
}.

(** A [ReadBuf] never holds more than its capacity. *)
Class ReadBufLaws (W : Type) `{RuntimeApi W} :=
  filled_fits : forall s n w, (length (api_poll_recv_from s n w).1.2 <= n)%nat.

(** What happens to a descriptor: it becomes non-blocking, goes into a runtime
    socket, or is closed when its owner is dropped. *)
Inductive convert_event := NonBlocking (s : Z) | Converted (s : Z) | Closed (s : Z).

#[export] Instance convert_event_eq_dec : EqDecision convert_event.
Proof. solve_decision. Defined.

Section Convert.
Context {W : Type} `{RuntimeApi W}.
#[local] Abbreviation io A := (prog W convert_event A).

(** [f(socket)?] for a function that takes the socket: it is closed on error. *)
Definition consume (f : Z -> W -> io_result Z * W) (s : Z) : io (io_result Z) :=
  r ← ask (f s);
  match r with
  | Ok a => _ ← emit (Converted s); mret (Ok a)
  | Err e => _ ← emit (Closed s); mret (Err e)
  end.

(** [socket.set_nonblocking(true)?], after which the function still owns it. *)
Definition make_nonblocking (s : Z) (k : io (io_result Z)) : io (io_result Z) :=
  r ← ask (set_nonblocking s);
  match r with
  | Ok _ => _ ← emit (NonBlocking s); k
  | Err e => _ ← emit (Closed s); mret (Err e)
  end.

(** async-std's conversions are infallible: they wrap the descriptor. *)
Definition wrap (s : Z) : io (io_result Z) := _ ← emit (Converted s); mret (Ok s).
End Convert.

(** ** [runtime/tokio.rs] *)

Module TokioRt.
Section Functions.
Context {W : Type} `{RuntimeApi W}.
#[local] Abbreviation io A := (prog W convert_event A).

Definition tcp_listener_from_std (listener : Z) : io (io_result Z) :=
  make_nonblocking listener (consume tcp_from_std listener).

Definition tcp_stream_from_std (stream : Z) : io (io_result Z) :=
  make_nonblocking stream (consume stream_from_std stream).

Definition udp_socket_from_std (socket : Z) : io (io_result Z) :=
  make_nonblocking socket (
    r ← ask try_current;
    match r with
    | Ok _ => consume udp_from_std socket
    | Err error => _ ← emit (Closed socket); mret (Err (Io.mkError Io.NotConnected error))
    end).

Definition udp_recv_from_slice := api_recv_from.
Definition udp_send_to := api_send_to.
Definition udp_try_send_to := api_try_send_to.
Definition udp_poll_send_ready := api_poll_send_ready.

(** [udp_poll_recv_from_slice]: the [ReadBuf] writes into the buffer. *)
Definition udp_poll_recv_from_slice (socket : Z) (buffer : bytes) (w : W) :
    (poll (io_result (Z * SocketAddr)) * bytes) * W :=
  let '(r, filled, w) := api_poll_recv_from socket (length buffer) w in
  let buffer := copy_prefix (length filled) filled buffer in
  (match r with
   | Ready result => Ready (addr ← result; Ok (len filled, addr))
   | Pending => Pending
   end, buffer, w).

Definition sockets : SocketEnv W := {|
  rt_recv_from := udp_recv_from_slice;
  rt_poll_recv_from := udp_poll_recv_from_slice;
  rt_send_to := udp_send_to;
  rt_try_send_to := udp_try_send_to;
  rt_poll_send_ready := udp_poll_send_ready;
  rt_local_addr := api_local_addr;
  std_send_to := api_std_send_to;
  channel_recv := api_channel_recv;
  channel_poll_recv := api_channel_poll_recv;
  libc_recvmsg := api_recvmsg;
|}.
End Functions.
End TokioRt.

(** ** [runtime/async_std.rs] *)

Definition no_try_send : Io.Error := Io.mkError Io.Unsupported
  "async-std UDP socket does not expose nonblocking send readiness".
Definition no_poll_recv : Io.Error := Io.mkError Io.Unsupported
  "async-std UDP socket does not expose poll-based recv readiness".

Module AsyncStdRt.
Section Functions.
Context {W : Type} `{RuntimeApi W}.
#[local] Abbreviation io A := (prog W convert_event A).

Definition tcp_listener_from_std (listener : Z) : io (io_result Z) :=
  make_nonblocking listener (wrap listener).

Definition tcp_stream_from_std (stream : Z) : io (io_result Z) :=
  make_nonblocking stream (wrap stream).

Definition udp_socket_from_std (socket : Z) : io (io_result Z) :=
  make_nonblocking socket (wrap socket).

Definition udp_recv_from_slice := api_recv_from.
Definition udp_send_to := api_send_to.

Definition udp_try_send_to (_ : Z) (_ : bytes) (_ : SocketAddr) (w : W) : io_result Z * W :=
  (Err no_try_send, w).

Definition udp_poll_send_ready (_ : Z) (w : W) : poll (io_result unit) * W := (Ready (Ok ()), w).

Definition udp_poll_recv_from_slice (_ : Z) (buffer : bytes) (w : W) :
    (poll (io_result (Z * SocketAddr)) * bytes) * W :=
  (Ready (Err no_poll_recv), buffer, w).

Definition udp_poll_recv_from_vectored {Ev} (_ : Z) (buffers : list bytes) :
    prog W Ev (poll (io_result (Z * SocketAddr)) * list bytes) :=
  mret (Ready (Err no_poll_recv), buffers).

Definition sockets : SocketEnv W := {|
  rt_recv_from := udp_recv_from_slice;
  rt_poll_recv_from := udp_poll_recv_from_slice;
  rt_send_to := udp_send_to;
  rt_try_send_to := udp_try_send_to;
  rt_poll_send_ready := udp_poll_send_ready;
  rt_local_addr := api_local_addr;
  std_send_to := api_std_send_to;
  channel_recv := api_channel_recv;
  channel_poll_recv := api_channel_poll_recv;
  libc_recvmsg := api_recvmsg;
|}.
End Functions.
End AsyncStdRt.

(** ** Conversions *)

Section Conversions.
Context {W : Type} `{RuntimeApi W}.

(** What the events of a conversion say of the descriptor [s]. *)
Definition converts (s : Z) (r : io_result Z) (l : list convert_event) : Prop :=
  match r with
  | Ok _ => l = [NonBlocking s; Converted s]
  | Err _ => l = [Closed s] \/ l = [NonBlocking s; Closed s]
  end.

Lemma wp_consume (f : Z -> W -> io_result Z * W) s (Q : io_result Z -> list convert_event -> Prop) :
  (forall a, Q (Ok a) [Converted s]) -> (forall e, Q (Err e) [Closed s]) -> wp (consume f s) Q.
Proof.
  intros HO HE. apply wp_bind, wp_ask. intros [a|e]; apply wp_bind, wp_emit, wp_ret; [apply HO|apply HE].
Qed.

Lemma wp_make_nonblocking s (k : prog W convert_event (io_result Z)) :
  wp k (fun r l => match r with Ok _ => l = [Converted s] | Err _ => l = [Closed s] end) ->
  wp (make_nonblocking s k) (converts s).
Proof.
  intros Hk. apply wp_bind, wp_ask. intros [[]|e].
  - apply wp_bind, wp_emit. eapply wp_mono; [exact Hk|]. intros [a|e] l ->; [done|by right].
  - apply wp_bind, wp_emit, wp_ret. by left.
Qed.

(** Conversion into a runtime socket: whatever the system answers, a
    socket is handed to the runtime only after it was made non-blocking, and a failed
    conversion has closed it exactly once; tokio's UDP conversion outside a runtime is
    [NotConnected] and never reaches the runtime. *)
Theorem conversions_own_descriptor s :
  wp (TokioRt.tcp_listener_from_std s) (converts s) /\
  wp (TokioRt.tcp_stream_from_std s) (converts s) /\
  wp (TokioRt.udp_socket_from_std s) (converts s) /\
  wp (AsyncStdRt.tcp_listener_from_std s) (converts s) /\
  wp (AsyncStdRt.tcp_stream_from_std s) (converts s) /\
  wp (AsyncStdRt.udp_socket_from_std s) (converts s).
Proof.
  assert (Hw : wp (W := W) (wrap s) (fun r l =>
    match r with Ok _ => l = [Converted s] | Err _ => l = [Closed s] end)).
  { apply wp_bind, wp_emit, wp_ret. done. }
  split_and!; apply wp_make_nonblocking; try exact Hw; try by apply wp_consume.
  apply wp_bind, wp_ask. intros [[]|e]; [by apply wp_consume|].
  apply wp_bind, wp_emit, wp_ret. done.
Qed.

End Conversions.

(** ** Properties *)

Lemma copy_filled_length (filled buffer : bytes) :
  (length filled <= length buffer)%nat ->
  length (copy_prefix (length filled) filled buffer) = length buffer.
Proof. intros Hl. by apply copy_prefix_length. Qed.

(** The poll-based operations of [UdpSocket].  On tokio a
    receive reports the bytes the runtime filled, which fit, and leaves the rest of
    the buffer alone.  On async-std a runtime socket cannot receive or send this way:
    both operations fail with [Unsupported] and touch nothing, while
    [poll_send_ready] always reports readiness; a routed socket behaves the same on
    both runtimes. *)
Theorem poll_operations {W} `{ReadBufLaws W} {Ev} s buffer buffers target w :
  (match value (Ev := Ev) (@poll_recv_from W Ev TokioRt.sockets (RuntimeSocket s) buffer) w with
   | (Ready (Ok (n, _)), buffer') =>
       0 <= n <= len buffer /\ length buffer' = length buffer /\
       drop (Z.to_nat n) buffer' = drop (Z.to_nat n) buffer
   | (_, buffer') => length buffer' = length buffer
   end) /\
  @poll_recv_from W Ev AsyncStdRt.sockets (RuntimeSocket s) buffer w =
    (Ready (Err no_poll_recv), buffer, w, []) /\
  @poll_recv_from_vectored W Ev AsyncStdRt.sockets (RuntimeSocket s) buffers w =
    AsyncStdRt.udp_poll_recv_from_vectored s buffers w /\
  @try_send_to W Ev AsyncStdRt.sockets (RuntimeSocket s) buffer target w = (Err no_try_send, w, []) /\
  @poll_send_ready W Ev AsyncStdRt.sockets (RuntimeSocket s) w = (Ready (Ok ()), w, []) /\
  (forall r, @poll_recv_from W Ev AsyncStdRt.sockets (Routed r) buffer w =
             @poll_recv_from W Ev TokioRt.sockets (Routed r) buffer w /\
             @poll_recv_from_vectored W Ev AsyncStdRt.sockets (Routed r) buffers w =
             @poll_recv_from_vectored W Ev TokioRt.sockets (Routed r) buffers w /\
             @try_send_to W Ev AsyncStdRt.sockets (Routed r) buffer target w =
             @try_send_to W Ev TokioRt.sockets (Routed r) buffer target w).
Proof.
  split_and!; try done.
  unfold value, poll_recv_from, ask, rt_poll_recv_from, TokioRt.sockets, TokioRt.udp_poll_recv_from_slice.
  pose proof (filled_fits s (length buffer) w) as Hf.
  destruct (api_poll_recv_from s (length buffer) w) as [[[[a|e]|] filled] w']; simpl in *;
    [|by apply copy_filled_length..].
  split_and!; [apply len_nonneg|unfold len; lia|by apply copy_filled_length|].
  unfold len. rewrite Nat2Z.id. unfold copy_prefix.
  by rewrite take_ge, drop_app_length by done.
Qed.

(** ** A concrete runtime: nothing fails, three bytes are waiting *)

#[export] Instance example_api : RuntimeApi unit := {|
  set_nonblocking _ w := (Ok (), w);
  try_current w := (Ok (), w);
  tcp_from_std s w := (Ok s, w);
  stream_from_std s w := (Ok s, w);
  udp_from_std s w := (Ok s, w);
  api_recv_from _ b w := ((Ok (0, SocketAddr_new (IpV4 [127; 0; 0; 1]) 9), b), w);
  api_send_to _ b _ w := (Ok (len b), w);
  api_try_send_to _ b _ w := (Ok (len b), w);
  api_poll_send_ready _ w := (Ready (Ok ()), w);
  api_poll_recv_from _ n w := ((Ready (Ok (SocketAddr_new (IpV4 [127; 0; 0; 1]) 9)), take n [1; 2; 3]), w);
  api_local_addr _ w := (Ok (SocketAddr_new (IpV4 [127; 0; 0; 1]) 80), w);
  api_std_send_to _ b _ w := (Ok (len b), w);
  api_channel_recv _ w := (None, w);
  api_channel_poll_recv _ w := (Pending, w);
  api_recvmsg _ _ w := (Err (Io.mkError Io.WouldBlock ""), w);
|}.

#[export] Instance example_api_laws : ReadBufLaws unit.
Proof. intros s n w. simpl. rewrite length_take. lia. Qed.

Lemma poll_operations_witness :
  @poll_recv_from unit unit TokioRt.sockets (RuntimeSocket 7) [9; 9; 9; 9] () =
    (Ready (Ok (3, SocketAddr_new (IpV4 [127; 0; 0; 1]) 9)), [1; 2; 3; 9], (), []) /\
  @try_send_to unit unit AsyncStdRt.sockets (RuntimeSocket 7) [1]
    (SocketAddr_new (IpV4 [127; 0; 0; 1]) 9) () = (Err no_try_send, (), []).
Proof.
  split; [reflexivity|].
  apply (poll_operations (W := unit) (Ev := unit) 7 [1] [] (SocketAddr_new (IpV4 [127; 0; 0; 1]) 9) ()).
Defined.
