(* ===== verification/Examples.v ===== *)
(** * The echo examples: [src/examples/tcp_echo.rs], [udp_server.rs], [udp_serve_socket.rs]

    The command line of the examples and the handlers they give to the library: the
    TCP echo for both runtimes, the UDP handler that answers a datagram, and the loop
    that owns a worker's UDP socket. *)

From S2P Require Import Prelude Errors Net Text Effects Recv.

#[local] Open Scope string_scope.
#[local] Open Scope Z_scope.
#[local] Open Scope list_scope.

(** ** Command lines *)

(** A parsed command line, or the process has printed its usage and ended. *)
Inductive parsed (A : Type) := Parsed (r : crate_result A) | Help.
Arguments Parsed {A} r.
Arguments Help {A}.

(** [usize::from_str]: an optional plus sign and decimal digits. *)
Definition empty_int : string := "cannot parse integer from empty string".
Definition invalid_digit : string := "invalid digit found in string".
Definition too_large : string := "number too large to fit in target type".

Fixpoint parse_digits (acc : Z) (l : bytes) : result string Z :=
  match l with
  | [] => Ok acc
  | b :: l =>
      if between 48 57 b then
        let next := acc * 10 + (b - 48) in
        if next <? 2 ^ 64 then parse_digits next l else Err too_large
      else Err invalid_digit
  end.

Definition parse_usize (s : string) : result string Z :=
  match str s with
  | [] => Err empty_int
  | [43] | [45] => Err invalid_digit
  | 43 :: l => parse_digits 0 l
  | l => parse_digits 0 l
  end.

Section Args.
(** [SocketAddr::from_str], with the text of its error. *)
Variable parse_addr : string -> result string SocketAddr.

Definition quoted (flag value error : string) : Error :=
  InvalidConfig ("invalid " +:+ flag +:+ " value `" +:+ value +:+ "`: " +:+ error).

Definition unknown_argument (arg : string) : Error :=
  InvalidConfig ("unknown argument `" +:+ arg +:+ "`; use --help").

(** The loop of [Args::parse] in udp_server.rs. *)
Fixpoint parse_udp_args (args : list string) (addr : SocketAddr) (workers : Z) :
    parsed (SocketAddr * Z) :=
  match args with
  | [] => Parsed (Ok (addr, workers))
  | arg :: args =>
      if bool_decide (arg = "--addr") then
        match args with
        | [] => Parsed (Err (InvalidConfig "--addr requires a socket address"))
        | value :: args =>
            match parse_addr value with
            | Ok addr => parse_udp_args args addr workers
            | Err error => Parsed (Err (quoted "--addr" value error))
            end
        end
      else if bool_decide (arg = "--workers") then
        match args with
        | [] => Parsed (Err (InvalidConfig "--workers requires a positive integer"))
        | value :: args =>
            match parse_usize value with
            | Ok workers =>
                if workers =? 0
                then Parsed (Err (InvalidConfig "--workers must be greater than zero"))
                else parse_udp_args args addr workers
            | Err error => Parsed (Err (quoted "--workers" value error))
            end
        end
      else if bool_decide (arg = "--help") || bool_decide (arg = "-h") then Help
      else Parsed (Err (unknown_argument arg))
  end.

Definition with_default (default_addr : string) (k : SocketAddr -> parsed (SocketAddr * Z)) :
    parsed (SocketAddr * Z) :=
  match parse_addr default_addr with
  | Ok addr => k addr
  | Err error => Parsed (Err (InvalidConfig ("invalid default address: " +:+ error)))
  end.

(** [Args::parse] of udp_server.rs and udp_serve_socket.rs. *)
Definition udp_server_args (args : list string) : parsed (SocketAddr * Z) :=
  with_default "127.0.0.1:7001" (fun addr => parse_udp_args args addr 4).
Definition udp_serve_socket_args (args : list string) : parsed (SocketAddr * Z) :=
  with_default "127.0.0.1:7002" (fun addr => parse_udp_args args addr 4).

(** The loop of [Args::parse] in hyper_static.rs. *)
Fixpoint parse_static_args (args : list string) (addr : SocketAddr) (root : string) :
    parsed (SocketAddr * string) :=
  match args with
  | [] => Parsed (Ok (addr, root))
  | arg :: args =>
      if bool_decide (arg = "--addr") then
        match args with
        | [] => Parsed (Err (InvalidConfig "--addr requires a socket address"))
        | value :: args =>
            match parse_addr value with
            | Ok addr => parse_static_args args addr root
            | Err error => Parsed (Err (quoted "--addr" value error))
            end
        end
      else if bool_decide (arg = "--root") then
        match args with
        | [] => Parsed (Err (InvalidConfig "--root requires a directory path"))
        | value :: args => parse_static_args args addr value
        end
      else if bool_decide (arg = "--help") || bool_decide (arg = "-h") then Help
      else Parsed (Err (unknown_argument arg))
  end.

(** [Args::parse] of hyper_static.rs; [current_dir] is what the system answers. *)
Definition static_args (current_dir : io_result string) (args : list string) :
    parsed (SocketAddr * string) :=
  match parse_addr "127.0.0.1:8080" with
  | Err error => Parsed (Err (InvalidConfig ("invalid default address: " +:+ error)))
  | Ok addr =>
      match current_dir with
      | Err error => Parsed (Err (Error_from error))
      | Ok root => parse_static_args args addr root
      end
  end.
End Args.

(** ** TCP echo *)

Inductive tcp_event := Read (b : bytes) | Wrote (b : bytes).

Class TcpEnv (W : Type) := {
  tcp_readable : W -> io_result unit * W;
  tcp_writable : W -> io_result unit * W;
  tcp_try_read : Z -> W -> io_result bytes * W;
  tcp_try_write : bytes -> W -> io_result Z * W;
  tcp_read : Z -> W -> io_result bytes * W;
  tcp_write_all : bytes -> W -> io_result unit * W;
}.

(** A write takes a part of the bytes it is given. *)
Class TcpLaws (W : Type) `{TcpEnv W} :=
  write_part : forall b w n, (tcp_try_write b w).1 = Ok n -> 0 <= n <= len b.

Definition would_block (e : Io.Error) : bool := bool_decide (Io.kind e = Io.WouldBlock).

Section TcpEcho.
Context {W : Type} `{TcpEnv W}.
#[local] Abbreviation io A := (prog W tcp_event A).

(** [write_all] (tokio); [None]: still waiting when the fuel runs out. *)
Fixpoint write_all (fuel : nat) (b : bytes) : io (option (crate_result unit)) :=
  match fuel with
  | O => mret None
  | S fuel =>
      if bool_decide (b = []) then mret (Some (Ok ()))
      else
        r ← ask tcp_writable;
        match r with
        | Err e => mret (Some (Err (Error_from e)))
        | Ok _ =>
            r ← call (tcp_try_write b) (fun r =>
                  Wrote (match r with Ok n => take (Z.to_nat n) b | Err _ => [] end));
            match r with
            | Ok n =>
                if n =? 0
                then mret (Some (Err (Runtime "tcp stream closed before all bytes were written")))
                else write_all fuel (drop (Z.to_nat n) b)
            | Err error =>
                if would_block error then write_all fuel b
                else mret (Some (Err (Error_from error)))
            end
        end
  end.

(** [echo_connection] (tokio) *)
Fixpoint echo_connection (fuel : nat) : io (option (crate_result unit)) :=
  match fuel with
  | O => mret None
  | S fuel =>
      r ← ask tcp_readable;
      match r with
      | Err e => mret (Some (Err (Error_from e)))
      | Ok _ =>
          r ← call (tcp_try_read 4096) (fun r => Read (match r with Ok b => b | Err _ => [] end));
          match r with
          | Ok b =>
              if bool_decide (b = []) then mret (Some (Ok ()))
              else
                r ← write_all fuel b;
                match r with
                | Some (Ok _) => echo_connection fuel
                | r => mret r
                end
          | Err error =>
              if would_block error then echo_connection fuel
              else mret (Some (Err (Error_from error)))
          end
      end
  end.

(** [echo_connection] (async-std), whose [write_all] is the library's. *)
Fixpoint echo_connection_async_std (fuel : nat) : io (option (crate_result unit)) :=
  match fuel with
  | O => mret None
  | S fuel =>
      r ← call (tcp_read 4096) (fun r => Read (match r with Ok b => b | Err _ => [] end));
      match r with
      | Err e => mret (Some (Err (Error_from e)))
      | Ok b =>
          if bool_decide (b = []) then mret (Some (Ok ()))
          else
            r ← call (tcp_write_all b) (fun r => Wrote (if is_ok r then b else []));
            match r with
            | Err e => mret (Some (Err (Error_from e)))
            | Ok _ => echo_connection_async_std fuel
            end
      end
  end.
End TcpEcho.

(** ** UDP echo *)

Inductive udp_event :=
| Datagram (payload : bytes) (peer : SocketAddr)
| Reply (payload : bytes) (peer : SocketAddr) (ok : bool).

Section UdpEcho.
Context {W : Type} `{SocketEnv W}.
#[local] Abbreviation io A := (prog W udp_event A).

(** [socket.send_to(payload, peer).await], noting the attempt. *)
Definition reply (socket : UdpSocketInner) (payload : bytes) (peer : SocketAddr) : io (crate_result Z) :=
  r ← send_to socket payload peer;
  _ ← emit (Reply payload peer (is_ok r));
  mret r.

(** [send_echo] and the handler of udp_server.rs *)
Definition send_echo (socket : UdpSocketInner) (payload : bytes) (peer : SocketAddr) :
    io (crate_result unit) :=
  _ ←? reply socket payload peer; mret (Ok ()).

Definition udp_echo_handler (socket : UdpSocketInner) (meta : PacketMeta) (payload : bytes) :
    io (crate_result unit) :=
  match peer_addr meta with
  | None => mret (Ok ())
  | Some peer_addr => send_echo socket payload peer_addr
  end.

(** [serve_socket_echo] of udp_serve_socket.rs: one buffer for every datagram. *)
Fixpoint echo_loop (fuel : nat) (socket : UdpSocketInner) (buffer : bytes) :
    io (option (crate_result unit)) :=
  match fuel with
  | O => mret None
  | S fuel =>
      r ← recv_from socket buffer;
      match r with
      | (Err e, _) => mret (Some (Err e))
      | (Ok (len, peer_addr), buffer) =>
          _ ← emit (Datagram (slice buffer 0 len) peer_addr);
          r ← reply socket (slice buffer 0 len) peer_addr;
          match r with
          | Err e => mret (Some (Err e))
          | Ok _ => echo_loop fuel socket buffer
          end
      end
  end.

Definition serve_socket_echo (fuel : nat) (socket : UdpSocketInner) : io (option (crate_result unit)) :=
  r ← socket_local_addr socket;
  match r with
  | Err e => mret (Some (Err e))
  | Ok _ => echo_loop fuel socket (vec_of 0 2048)
  end.
End UdpEcho.

(** ** Lemmas *)

Definition read_bytes (e : tcp_event) : bytes := match e with Read b => b | Wrote _ => [] end.
Definition written_bytes (e : tcp_event) : bytes := match e with Wrote b => b | Read _ => [] end.
Definition input (l : list tcp_event) : bytes := concat (read_bytes <$> l).
Definition output (l : list tcp_event) : bytes := concat (written_bytes <$> l).

Lemma input_app l1 l2 : input (l1 ++ l2) = input l1 ++ input l2.
Proof. unfold input. by rewrite fmap_app, concat_app. Qed.
Lemma output_app l1 l2 : output (l1 ++ l2) = output l1 ++ output l2.
Proof. unfold output. by rewrite fmap_app, concat_app. Qed.

Lemma input_wrote b : input [Wrote b] = [].
Proof. done. Qed.
Lemma output_wrote b : output [Wrote b] = b.
Proof. apply app_nil_r. Qed.
Lemma input_read b : input [Read b] = b.
Proof. apply app_nil_r. Qed.
Lemma output_read b : output [Read b] = [].
Proof. done. Qed.

Ltac io_simpl := rewrite ?app_nil_l, ?app_nil_r, ?input_app, ?output_app, ?input_wrote, ?output_wrote,
  ?input_read, ?output_read, ?app_nil_l, ?app_nil_r.

(** What an echo has done when it answers [r]: it wrote back a prefix of what it read,
    all of it when it ended well. *)
Definition echoed (r : option (crate_result unit)) (l : list tcp_event) : Prop :=
  output l `prefix_of` input l /\ (r = Some (Ok ()) -> output l = input l).

Section TcpProofs.
Context {W : Type} `{TcpLaws W}.

Lemma wp_write_all fuel b :
  wp (write_all fuel b) (fun r l => input l = [] /\ output l `prefix_of` b /\
    (r = Some (Ok ()) -> output l = b)).
Proof.
  revert b. induction fuel as [|fuel IH]; intros b; cbn [write_all].
  { apply wp_ret. split_and!; [done|apply prefix_nil|done]. }
  case_bool_decide as Hb; [subst; by apply wp_ret|].
  apply wp_bind, wp_ask. intros [[]|e]; [|apply wp_ret; split_and!; [done|apply prefix_nil|done]].
  apply wp_bind, wp_call_known. intros w. pose proof (write_part b w) as Hn.
  destruct (tcp_try_write b w).1 as [n|error].
  - specialize (Hn n eq_refl). destruct (Z.eqb_spec n 0) as [->|Hz].
    + apply wp_ret. split_and!; [done|apply prefix_nil|done].
    + eapply wp_mono; [apply IH|]. intros r l (Hi & Hp & Hr).
      io_simpl. rewrite Hi. split_and!; [done| |].
      * rewrite <- (take_drop (Z.to_nat n) b) at 2. by apply prefix_app.
      * intros Hok. rewrite (Hr Hok). apply take_drop.
  - destruct (would_block error).
    + eapply wp_mono; [apply IH|]. intros r l (Hi & Hp & Hr).
      io_simpl. rewrite Hi. by split_and!.
    + apply wp_ret. split_and!; [done|apply prefix_nil|done].
Qed.

Lemma echoed_app b r l1 l2 :
  input l1 = b -> output l1 = b -> echoed r l2 -> echoed r (l1 ++ l2).
Proof.
  intros Hi Ho [Hp Hr]. unfold echoed. rewrite input_app, output_app, Hi, Ho.
  split; [by apply prefix_app|]. intros Hok. by rewrite Hr.
Qed.

Lemma echoed_nil r : echoed r [].
Proof. done. Qed.

Lemma wp_echo_connection fuel : wp (echo_connection fuel) echoed.
Proof.
  induction fuel as [|fuel IH]; cbn [echo_connection]; [by apply wp_ret|].
  apply wp_bind, wp_ask. intros [[]|e]; [|by apply wp_ret].
  apply wp_bind, wp_call. intros [b|error].
  - case_bool_decide as Hb; [subst; by apply wp_ret|]. apply wp_bind.
    eapply wp_mono; [apply wp_write_all|]. intros r l (Hi & Hp & Hr).
    destruct r as [[[]|e]|].
    + eapply wp_mono; [exact IH|]. intros r l' He. rewrite app_nil_l.
      rewrite (assoc_L (++)). apply (echoed_app b); [..|done].
      * io_simpl. rewrite Hi. by io_simpl.
      * io_simpl. by apply Hr.
    + apply wp_ret. split; [|done]. io_simpl. rewrite Hi. by io_simpl.
    + apply wp_ret. split; [|done]. io_simpl. rewrite Hi. by io_simpl.
  - destruct (would_block error); [|by apply wp_ret].
    eapply wp_mono; [exact IH|]. intros r l He. by apply (echoed_app []).
Qed.

Lemma wp_echo_async_std fuel : wp (echo_connection_async_std fuel) echoed.
Proof.
  induction fuel as [|fuel IH]; cbn [echo_connection_async_std]; [by apply wp_ret|].
  apply wp_bind, wp_call. intros [b|error]; [|by apply wp_ret].
  case_bool_decide as Hb; [subst; by apply wp_ret|]. apply wp_bind, wp_call. intros [[]|e].
  - eapply wp_mono; [exact IH|]. intros r l He. rewrite (assoc_L (++)).
    apply (echoed_app b); [..|done]; by io_simpl.
  - apply wp_ret. split; [|done]. apply prefix_nil.
Qed.
End TcpProofs.

(** ** Properties *)

(** The TCP examples echo.  On both runtimes, for every way the stream
    cuts reads and writes and whatever fails, the bytes written are a prefix of the
    bytes read, and all of them when the connection ended without an error. *)
Theorem tcp_echo_spec {W} `{TcpLaws W} fuel (w : W) :
  echoed (value (echo_connection fuel) w) (log (echo_connection fuel) w) /\
  echoed (value (echo_connection_async_std fuel) w) (log (echo_connection_async_std fuel) w).
Proof. split; [apply wp_echo_connection|apply wp_echo_async_std]. Qed.

(** Datagrams received, and answered. *)
Definition datagrams (e : udp_event) : list (bytes * SocketAddr) :=
  match e with Datagram p a => [(p, a)] | _ => [] end.
Definition replies (e : udp_event) : list (bytes * SocketAddr) :=
  match e with Reply p a _ => [(p, a)] | _ => [] end.

Lemma wp_send_to_quiet {W} `{SocketEnv W} socket payload peer (Q : crate_result Z -> list udp_event -> Prop) :
  (forall r, Q r []) -> wp (send_to socket payload peer) Q.
Proof. intros HQ. destruct socket; apply wp_map_err, wp_ask; intros r; apply HQ. Qed.

Lemma wp_recv_from_quiet {W} `{SocketEnv W} socket buffer
    (Q : crate_result (Z * SocketAddr) * bytes -> list udp_event -> Prop) :
  (forall r, Q r []) -> wp (recv_from socket buffer) Q.
Proof.
  intros HQ. destruct socket as [s|s]; simpl.
  - apply wp_bind, wp_ask. intros r. apply wp_ret, HQ.
  - apply wp_bind. unfold recv_from_slice, recv_packet.
    apply wp_bind, wp_bind, wp_ask. intros [p|]; apply wp_ret, wp_ret, wp_ret, HQ.
Qed.

(** The UDP examples answer every datagram once, to its sender, with its
    payload, in order: the loop of udp_serve_socket.rs goes on until a receive or a send
    fails, and the handler of udp_server.rs answers exactly the datagrams that have a
    sender. *)
Theorem udp_echo_spec {W} `{SocketEnv W} :
  (forall fuel socket buffer, wp (echo_loop fuel socket buffer) (fun r l =>
     concat (datagrams <$> l) = concat (replies <$> l) /\ r <> Some (Ok ()))) /\
  (forall socket meta payload, wp (udp_echo_handler socket meta payload) (fun r l =>
     concat (replies <$> l) = match peer_addr meta with Some a => [(payload, a)] | None => [] end)).
Proof.
  split.
  - induction fuel as [|fuel IH]; intros socket buffer; cbn [echo_loop]; [by apply wp_ret|].
    apply wp_bind, wp_recv_from_quiet. intros [[[n peer]|e] buffer']; [|by apply wp_ret].
    apply wp_bind, wp_emit, wp_bind, wp_bind, wp_send_to_quiet. intros r.
    apply wp_bind, wp_emit, wp_ret. destruct r as [m|e]; [|by apply wp_ret].
    eapply wp_mono; [apply IH|]. intros r l [Hl Hr]. split; [|done]. simpl. f_equal. exact Hl.
  - intros socket meta payload. unfold udp_echo_handler. destruct (peer_addr meta); [|by apply wp_ret].
    apply wp_try, wp_bind, wp_send_to_quiet. intros r. apply wp_bind, wp_emit, wp_ret.
    destruct r; [by apply wp_ret|done].
Qed.

(** What a command line sets holds: a worker count is positive and fits a [usize],
    and the last value given for an option is the one used. *)
Lemma parse_digits_range acc l n :
  0 <= acc < 2 ^ 64 -> parse_digits acc l = Ok n -> acc <= n < 2 ^ 64.
Proof.
  revert acc. induction l as [|b l IH]; intros acc Ha Hp; simpl in Hp; [simplify_eq; lia|].
  destruct (between 48 57 b) eqn:Eb; [|done].
  apply andb_true_iff in Eb as [H1%Z.leb_le H2%Z.leb_le].
  destruct (Z.ltb_spec (acc * 10 + (b - 48)) (2 ^ 64)); [|done].
  apply IH in Hp; lia.
Qed.

Lemma parse_usize_range s n : parse_usize s = Ok n -> is_usize n.
Proof.
  unfold parse_usize, is_usize, is_u64. intros Hp.
  repeat case_match; try done; apply parse_digits_range in Hp; lia.
Qed.

(** One option of the command line, and what follows. *)
Lemma parse_udp_args_ok parse_addr n args addr workers r :
  (length args <= n)%nat -> 0 < workers -> is_usize workers ->
  parse_udp_args parse_addr args addr workers = Parsed (Ok r) -> 0 < r.2 /\ is_usize r.2.
Proof.
  revert args addr workers. induction n as [|n IH]; intros args addr workers Hl Hw Hu Hp.
  { destruct args; [|simpl in Hl; lia]. simpl in Hp. by simplify_eq. }
  destruct args as [|arg args]; simpl in Hp; [by simplify_eq|]. simpl in Hl.
  case_bool_decide.
  - destruct args as [|value args]; [done|]. destruct (parse_addr value); [|done].
    simpl in Hl. eapply (IH args); [lia|done..].
  - case_bool_decide.
    + destruct args as [|value args]; [done|]. destruct (parse_usize value) as [k|] eqn:Ek; [|done].
      destruct (Z.eqb_spec k 0); [done|]. apply parse_usize_range in Ek. simpl in Hl.
      eapply (IH args addr k); [lia| |done..]. unfold is_usize, is_u64 in Ek. lia.
    + by destruct (_ || _).
Qed.

(** The echo servers never start without a worker: a parsed command line holds
    a positive number of workers that fits a [usize]. *)
Theorem udp_args_spec parse_addr args r :
  udp_server_args parse_addr args = Parsed (Ok r) \/
  udp_serve_socket_args parse_addr args = Parsed (Ok r) -> 0 < r.2 /\ is_usize r.2.
Proof.
  assert (H4 : is_usize 4) by (unfold is_usize, is_u64; lia).
  unfold udp_server_args, udp_serve_socket_args, with_default.
  intros [Hp|Hp]; destruct (parse_addr _); try done;
    by eapply (parse_udp_args_ok _ (length args)); [reflexivity| |exact H4|exact Hp].
Qed.

(** ** Concrete runs *)

(** A stream that takes two bytes at a time and ends after one read. *)
#[local] Instance demo_tcp : TcpEnv nat := {|
  tcp_readable w := (Ok (), w);
  tcp_writable w := (Ok (), w);
  tcp_try_read n w := match w with O => (Ok [], w) | S w => (Ok (take (Z.to_nat n) [1; 2; 3]), w) end;
  tcp_try_write b w := (Ok (Z.of_nat (Nat.min 2 (length b))), w);
  tcp_read n w := match w with O => (Ok [], w) | S w => (Ok (take (Z.to_nat n) [1; 2; 3]), w) end;
  tcp_write_all _ w := (Ok (), w);
|}.

#[local] Instance demo_tcp_laws : TcpLaws nat.
Proof.
  intros b w n Hn. assert (n = Z.of_nat (Nat.min 2 (length b))) as -> by (by injection Hn).
  unfold len. lia.
Qed.

Lemma tcp_echo_spec_witness :
  log (echo_connection 9) 1%nat = [Read [1; 2; 3]; Wrote [1; 2]; Wrote [3]; Read []] /\
  output (log (echo_connection 9) 1%nat) `prefix_of` input (log (echo_connection 9) 1%nat).
Proof. split; [vm_compute; reflexivity|]. apply (tcp_echo_spec 9 1%nat). Defined.

Lemma udp_args_spec_witness :
  exists r, udp_server_args (fun _ => Ok (SocketAddrV4 [127; 0; 0; 1] 7001)) ["--workers"; "8"] =
    Parsed (Ok r) /\ 0 < r.2.
Proof.
  exists (SocketAddrV4 [127; 0; 0; 1] 7001, 8). split; [vm_compute; reflexivity|].
  apply (udp_args_spec (fun _ => Ok (SocketAddrV4 [127; 0; 0; 1] 7001)) ["--workers"; "8"]).
  left. vm_compute. reflexivity.
Defined.
