(* ===== verification/Listener.v ===== *)
(** * Listener and dispatch loops: [src/src/core/udp.rs], [quic.rs], [tcp.rs]

    The loops that accept connections or receive datagrams and hand them to
    handlers: the native loops (one per worker, taking a permit before they
    receive), the simulated ones (one loop that routes to the workers' queues),
    the socket-only router, and the workers' dispatch loops.  One iteration of
    each [while] loop is a program over a world that answers every call -- flags
    that other threads may clear at any moment, permits, sockets, channels -- and
    a loop is its iteration repeated until it breaks. *)

From S2P Require Import Prelude Errors Net Effects Schedule Quic Recv.

(** A permit, a stream, a limit, a channel end and a worker's state are named by
    numbers. *)
Record UdpWorkItem := mkUdpWork {
  work_socket : UdpSocketInner;
  work_meta : PacketMeta;
  work_payload : bytes;
  work_permit : Z;
}.

Record TcpWorkItem := mkTcpWork { work_stream : Z; tcp_permit : Z }.

(** What the loops do, in order.  [Got] and [Accepted] are successful receives;
    [Spawned] is an attempt to start a handler with the worker's state, [Sent] an
    attempt to queue work in the channel of a sender. *)
Inductive event :=
| Checked (active : bool)
| Acquired (limit permit : Z)
| Refused
| Released (permit : Z)
| Got (payload : bytes) (meta : PacketMeta)
| RecvFailed
| Accepted (stream : Z) (peer : SocketAddr)
| StreamClosed (stream : Z)
| SpawnedUdp (state : Z) (work : UdpWorkItem) (ok : bool)
| SpawnedTcp (state : Z) (work : TcpWorkItem) (ok : bool)
| SentUdp (sender : Z) (work : UdpWorkItem) (ok : bool)
| SentTcp (sender : Z) (work : TcpWorkItem) (ok : bool)
| SentRouted (sender : Z) (packet : RoutedPacket) (ok : bool)
| TookUdp (work : UdpWorkItem)
| TookTcp (work : TcpWorkItem).

Class ListenerEnv (W : Type) := {
  env_runtime_active : W -> bool * W;
  env_server_active : W -> bool * W;
  env_acquire : Z -> W -> Z * W;
  env_try_acquire : Z -> W -> option Z * W;
  env_release : Z -> W -> unit * W;
  env_accept : Z -> W -> io_result (Z * SocketAddr) * W;
  env_close_stream : Z -> W -> unit * W;
  env_spawn_udp : Z -> UdpWorkItem -> W -> io_result unit * W;
  env_spawn_tcp : Z -> TcpWorkItem -> W -> io_result unit * W;
  env_send_udp : Z -> UdpWorkItem -> W -> result unit unit * W;
  env_send_tcp : Z -> TcpWorkItem -> W -> result unit unit * W;
  env_send_routed : Z -> RoutedPacket -> W -> result unit unit * W;
  env_recv_udp : Z -> W -> option UdpWorkItem * W;
  env_recv_tcp : Z -> W -> option TcpWorkItem * W;
}.

(** How an iteration ends: [continue] (or the end of the body) with the loop's
    buffer, or [break]. *)
Inductive ctl (S : Type) := Continue (s : S) | Break.
Arguments Continue {S} s.
Arguments Break {S}.

(** [while]: [false] when the fuel runs out first. *)
Fixpoint run_loop {W Ev S} (fuel : nat) (body : S -> prog W Ev (ctl S)) (s : S) : prog W Ev bool :=
  match fuel with
  | O => mret false
  | S fuel =>
      c ← body s;
      match c with
      | Continue s => run_loop fuel body s
      | Break => mret true
      end
  end.

(** [vec![0_u8; 65_536]] *)
Definition new_buffer : bytes := vec_of 0 65536.

Section Loops.
Context {W : Type} `{SocketEnv W} `{ListenerEnv W} (little_endian supported : bool).
#[local] Abbreviation io A := (prog W event A).

(** [is_active]: the second flag is read only if the first is set. *)
Definition is_active : io bool :=
  runtime ← ask env_runtime_active;
  b ← (if (runtime : bool) then ask env_server_active else mret false);
  _ ← emit (Checked b);
  mret b.

Definition server_active : io bool :=
  b ← ask env_server_active;
  _ ← emit (Checked b);
  mret b.

Definition acquire (limit : Z) : io Z := call (env_acquire limit) (Acquired limit).
Definition try_acquire (limit : Z) : io (option Z) :=
  call (env_try_acquire limit) (fun p => match p with Some p => Acquired limit p | None => Refused end).
Definition drop_permit (permit : Z) : io unit := call (env_release permit) (fun _ => Released permit).
Definition drop_stream (stream : Z) : io unit :=
  call (env_close_stream stream) (fun _ => StreamClosed stream).

(** [spawn_udp_handler_with_state]: the task owns the permit, so if it cannot be
    started the permit is dropped with it. *)
Definition spawn_udp_handler_with_state (worker_state : Z) (work : UdpWorkItem) :
    io (crate_result unit) :=
  r ← call (env_spawn_udp worker_state work) (fun r => SpawnedUdp worker_state work (is_ok r));
  match r with
  | Ok _ => mret (Ok ())
  | Err e => _ ← drop_permit (work_permit work); mret (Err (Error_from e))
  end.

Definition spawn_tcp_handler_with_state (state : Z) (work : TcpWorkItem) : io (crate_result unit) :=
  r ← call (env_spawn_tcp state work) (fun r => SpawnedTcp state work (is_ok r));
  match r with
  | Ok _ => mret (Ok ())
  | Err e =>
      _ ← drop_permit (tcp_permit work);
      _ ← drop_stream (work_stream work);
      mret (Err (Error_from e))
  end.

(** [send_udp_work], [send_tcp_work]: a refused item is dropped with its permit. *)
Definition send_udp_work (sender : Z) (work : UdpWorkItem) : io bool :=
  r ← call (env_send_udp sender work) (fun r => SentUdp sender work (is_ok r));
  match r with
  | Ok _ => mret true
  | Err _ => _ ← drop_permit (work_permit work); mret false
  end.

Definition send_tcp_work (sender : Z) (work : TcpWorkItem) : io bool :=
  r ← call (env_send_tcp sender work) (fun r => SentTcp sender work (is_ok r));
  match r with
  | Ok _ => mret true
  | Err _ =>
      _ ← drop_stream (work_stream work);
      _ ← drop_permit (tcp_permit work);
      mret false
  end.

Definition send_routed_packet (sender : Z) (packet : RoutedPacket) : io bool :=
  r ← call (env_send_routed sender packet) (fun r => SentRouted sender packet (is_ok r));
  mret (is_ok r).

(** After a failed receive: a fresh buffer if still active, else stop. *)
Definition retry : io (ctl bytes) :=
  active ← is_active;
  mret (if (active : bool) then Continue new_buffer else Break).

(** ** UDP *)

(** [udp_listener_loop_with_state], one iteration. *)
Definition udp_listener_iteration (socket : UdpSocketInner) (limit : Z) (transparent_receive : bool)
    (worker_state : Z) (buffer : bytes) : io (ctl bytes) :=
  active ← is_active;
  if negb active then mret Break
  else
    permit ← acquire limit;
    active ← is_active;
    if negb active then _ ← drop_permit permit; mret Break
    else
      r ← recv_packet_with_local_addr little_endian supported socket buffer transparent_receive;
      match r with
      | Err _ =>
          _ ← emit RecvFailed;
          c ← retry;
          _ ← drop_permit permit;
          mret c
      | Ok (len, peer_addr, local_addr, buffer) =>
          let payload := slice buffer 0 len in
          let meta := mkMeta (Some peer_addr) (Some local_addr) in
          _ ← emit (Got payload meta);
          active ← is_active;
          if negb active then _ ← drop_permit permit; mret Break
          else
            r ← spawn_udp_handler_with_state worker_state (mkUdpWork socket meta payload permit);
            mret (if is_ok r then Continue buffer else Break)
      end.

(** [simulated_udp_listener_loop], one iteration. *)
Definition simulated_udp_iteration (socket : UdpSocketInner) (worker_count : Z)
    (senders limits : list Z) (transparent_receive : bool) (buffer : bytes) : io (ctl bytes) :=
  active ← is_active;
  if negb active then mret Break
  else
    r ← recv_packet_with_local_addr little_endian supported socket buffer transparent_receive;
    match r with
    | Err _ => _ ← emit RecvFailed; retry
    | Ok (len, peer_addr, local_addr, buffer) =>
        let payload := slice buffer 0 len in
        let meta := mkMeta (Some peer_addr) (Some local_addr) in
        _ ← emit (Got payload meta);
        active ← is_active;
        if negb active then mret Break
        else
          match linux_reuseport_select meta worker_count with
          | Err _ => mret Break
          | Ok worker_id =>
              match get limits worker_id with
              | None => mret Break
              | Some limit =>
                  permit ← try_acquire limit;
                  match permit with
                  | None => mret (Continue buffer)
                  | Some permit =>
                      match get senders worker_id with
                      | None => _ ← drop_permit permit; mret Break
                      | Some sender =>
                          sent ← send_udp_work sender (mkUdpWork socket meta payload permit);
                          mret (if (sent : bool) then Continue buffer else Break)
                      end
                  end
              end
          end
    end.

(** [dispatch_socket_only_packets], one iteration.  [route_packet] is the caller's
    closure. *)
Definition socket_only_iteration (socket : UdpSocketInner) (fallback_local_addr : SocketAddr)
    (worker_count : Z) (route_packet : bytes -> PacketMeta -> Z -> option Z) (senders : list Z)
    (transparent_receive : bool) (buffer : bytes) : io (ctl bytes) :=
  active ← server_active;
  if negb active then mret Break
  else
    r ← recv_packet_with_local_addr little_endian supported socket buffer transparent_receive;
    match r with
    | Err _ =>
        _ ← emit RecvFailed;
        active ← server_active;
        mret (if (active : bool) then Continue new_buffer else Break)
    | Ok (len, peer_addr, local_addr, buffer) =>
        let payload := slice buffer 0 len in
        let meta := mkMeta (Some peer_addr)
                      (Some (if transparent_receive then local_addr else fallback_local_addr)) in
        _ ← emit (Got payload meta);
        match route_packet payload meta worker_count with
        | None => mret (Continue buffer)
        | Some worker_id =>
            match get senders worker_id with
            | None => mret Break
            | Some sender =>
                sent ← send_routed_packet sender (mkPacket payload peer_addr);
                mret (if (sent : bool) then Continue buffer else Break)
            end
        end
    end.

(** [udp_state_dispatch_loop], one iteration. *)
Definition udp_dispatch_iteration (receiver worker_state : Z) (_ : unit) : io (ctl unit) :=
  active ← server_active;
  if negb active then mret Break
  else
    work ← ask (env_recv_udp receiver);
    match work with
    | None => mret Break
    | Some work =>
        _ ← emit (TookUdp work);
        active ← server_active;
        if negb active then _ ← drop_permit (work_permit work); mret Break
        else
          r ← spawn_udp_handler_with_state worker_state work;
          mret (if is_ok r then Continue () else Break)
    end.

(** ** QUIC *)

(** [socket.local_addr().ok()] *)
Definition local_addr_ok (socket : UdpSocketInner) : io (option SocketAddr) :=
  r ← socket_local_addr socket; mret (ok r).

(** [quic_routed_udp_listener_loop], one iteration. *)
Definition quic_routed_iteration (socket : UdpSocketInner) (worker_count : Z)
    (senders limits : list Z) (buffer : bytes) : io (ctl bytes) :=
  active ← is_active;
  if negb active then mret Break
  else
    r ← recv_from_vec socket buffer;
    match r with
    | Err _ => _ ← emit RecvFailed; retry
    | Ok (len, peer_addr, buffer) =>
        let payload := slice buffer 0 len in
        _ ← emit (Got payload (mkMeta (Some peer_addr) None));
        active ← is_active;
        if negb active then mret Break
        else
          match quic_worker_index payload worker_count with
          | None => mret (Continue buffer)
          | Some worker_id =>
              local_addr ← local_addr_ok socket;
              let meta := mkMeta (Some peer_addr) local_addr in
              match get limits worker_id with
              | None => mret Break
              | Some limit =>
                  permit ← try_acquire limit;
                  match permit with
                  | None => mret (Continue buffer)
                  | Some permit =>
                      match get senders worker_id with
                      | None => _ ← drop_permit permit; mret Break
                      | Some sender =>
                          sent ← send_udp_work sender (mkUdpWork socket meta payload permit);
                          mret (if (sent : bool) then Continue buffer else Break)
                      end
                  end
              end
          end
    end.

(** [quic_reuseport_bpf_listener_loop_with_state], one iteration. *)
Definition quic_bpf_iteration (socket : UdpSocketInner) (worker_count limit worker_state : Z)
    (buffer : bytes) : io (ctl bytes) :=
  active ← is_active;
  if negb active then mret Break
  else
    permit ← acquire limit;
    active ← is_active;
    if negb active then _ ← drop_permit permit; mret Break
    else
      r ← recv_from_vec socket buffer;
      match r with
      | Err _ =>
          _ ← emit RecvFailed;
          c ← retry;
          _ ← drop_permit permit;
          mret c
      | Ok (len, peer_addr, buffer) =>
          let payload := slice buffer 0 len in
          _ ← emit (Got payload (mkMeta (Some peer_addr) None));
          active ← is_active;
          if negb active then _ ← drop_permit permit; mret Break
          else if negb (quic_reuseport_bpf_accepts_packet payload worker_count)
          then _ ← drop_permit permit; mret (Continue buffer)
          else
            local_addr ← local_addr_ok socket;
            let meta := mkMeta (Some peer_addr) local_addr in
            r ← spawn_udp_handler_with_state worker_state (mkUdpWork socket meta payload permit);
            mret (if is_ok r then Continue buffer else Break)
      end.

(** ** TCP *)

Definition accept (listener : Z) : io (io_result (Z * SocketAddr)) :=
  call (env_accept listener) (fun r =>
    match r with Ok (stream, peer) => Accepted stream peer | Err _ => RecvFailed end).

(** [select_simulated_tcp_worker]: worker 0 runs the accept loop; with more than
    one worker it gets no connections. *)
Definition select_simulated_tcp_worker (meta : PacketMeta) (worker_count : Z) : crate_result Z :=
  if worker_count <=? 1 then linux_reuseport_select meta worker_count
  else worker_id ← linux_reuseport_select meta (worker_count - 1); Ok (worker_id + 1).

(** [tcp_listener_loop_with_state], one iteration. *)
Definition tcp_listener_iteration (listener limit worker_state : Z) (_ : unit) : io (ctl unit) :=
  active ← is_active;
  if negb active then mret Break
  else
    permit ← acquire limit;
    active ← is_active;
    if negb active then _ ← drop_permit permit; mret Break
    else
      r ← accept listener;
      match r with
      | Err _ => _ ← drop_permit permit; mret Break
      | Ok (stream, _) =>
          active ← is_active;
          if negb active then _ ← drop_stream stream; _ ← drop_permit permit; mret Break
          else
            r ← spawn_tcp_handler_with_state worker_state (mkTcpWork stream permit);
            mret (if is_ok r then Continue () else Break)
      end.

(** [simulated_tcp_accept_loop], one iteration. *)
Definition simulated_tcp_iteration (listener worker_count : Z) (local_addr : SocketAddr)
    (senders limits : list Z) (_ : unit) : io (ctl unit) :=
  active ← is_active;
  if negb active then mret Break
  else
    r ← accept listener;
    match r with
    | Err _ => mret Break
    | Ok (stream, peer_addr) =>
        active ← is_active;
        if negb active then _ ← drop_stream stream; mret Break
        else
          let meta := mkMeta (Some peer_addr) (Some local_addr) in
          match select_simulated_tcp_worker meta worker_count with
          | Err _ => _ ← drop_stream stream; mret Break
          | Ok worker_id =>
              match get limits worker_id with
              | None => _ ← drop_stream stream; mret Break
              | Some limit =>
                  permit ← try_acquire limit;
                  match permit with
                  | None => _ ← drop_stream stream; mret (Continue ())
                  | Some permit =>
                      match get senders worker_id with
                      | None => _ ← drop_permit permit; _ ← drop_stream stream; mret Break
                      | Some sender =>
                          sent ← send_tcp_work sender (mkTcpWork stream permit);
                          mret (if (sent : bool) then Continue () else Break)
                      end
                  end
              end
          end
    end.

(** [tcp_state_dispatch_loop], one iteration. *)
Definition tcp_dispatch_iteration (receiver worker_state : Z) (_ : unit) : io (ctl unit) :=
  active ← server_active;
  if negb active then mret Break
  else
    work ← ask (env_recv_tcp receiver);
    match work with
    | None => mret Break
    | Some work =>
        _ ← emit (TookTcp work);
        active ← server_active;
        if negb active then _ ← drop_stream (work_stream work); _ ← drop_permit (tcp_permit work); mret Break
        else
          r ← spawn_tcp_handler_with_state worker_state work;
          mret (if is_ok r then Continue () else Break)
    end.

(** *** The loops *)

Definition udp_listener_loop_with_state fuel socket limit transparent_receive worker_state :=
  run_loop fuel (udp_listener_iteration socket limit transparent_receive worker_state) new_buffer.
Definition simulated_udp_listener_loop fuel socket worker_count senders limits transparent_receive :=
  run_loop fuel (simulated_udp_iteration socket worker_count senders limits transparent_receive) new_buffer.
Definition dispatch_socket_only_packets fuel socket fallback worker_count route senders transparent_receive :=
  run_loop fuel (socket_only_iteration socket fallback worker_count route senders transparent_receive) new_buffer.
Definition udp_state_dispatch_loop fuel receiver worker_state :=
  run_loop fuel (udp_dispatch_iteration receiver worker_state) ().
Definition quic_routed_udp_listener_loop fuel socket worker_count senders limits :=
  run_loop fuel (quic_routed_iteration socket worker_count senders limits) new_buffer.
Definition quic_reuseport_bpf_listener_loop_with_state fuel socket worker_count limit worker_state :=
  run_loop fuel (quic_bpf_iteration socket worker_count limit worker_state) new_buffer.
Definition tcp_listener_loop_with_state fuel listener limit worker_state :=
  run_loop fuel (tcp_listener_iteration listener limit worker_state) ().
Definition simulated_tcp_accept_loop fuel listener worker_count local_addr senders limits :=
  run_loop fuel (simulated_tcp_iteration listener worker_count local_addr senders limits) ().
Definition tcp_state_dispatch_loop fuel receiver worker_state :=
  run_loop fuel (tcp_dispatch_iteration receiver worker_state) ().
End Loops.

(** ** Every loop of the crate *)

Inductive listener_loop :=
| NativeUdp (socket : UdpSocketInner) (limit : Z) (transparent : bool) (worker_state : Z)
| SimulatedUdp (socket : UdpSocketInner) (worker_count : Z) (senders limits : list Z) (transparent : bool)
| SocketOnly (socket : UdpSocketInner) (fallback : SocketAddr) (worker_count : Z)
    (route_packet : bytes -> PacketMeta -> Z -> option Z) (senders : list Z) (transparent : bool)
| UdpDispatch (receiver worker_state : Z)
| QuicRouted (socket : UdpSocketInner) (worker_count : Z) (senders limits : list Z)
| QuicBpf (socket : UdpSocketInner) (worker_count limit worker_state : Z)
| NativeTcp (listener limit worker_state : Z)
| SimulatedTcp (listener worker_count : Z) (local_addr : SocketAddr) (senders limits : list Z)
| TcpDispatch (receiver worker_state : Z).

Definition run_listener {W} `{SocketEnv W} `{ListenerEnv W} (le supported : bool) (fuel : nat)
    (l : listener_loop) : prog W event bool :=
  match l with
  | NativeUdp socket limit tr st => udp_listener_loop_with_state le supported fuel socket limit tr st
  | SimulatedUdp socket n senders limits tr =>
      simulated_udp_listener_loop le supported fuel socket n senders limits tr
  | SocketOnly socket fallback n route senders tr =>
      dispatch_socket_only_packets le supported fuel socket fallback n route senders tr
  | UdpDispatch receiver st => udp_state_dispatch_loop fuel receiver st
  | QuicRouted socket n senders limits => quic_routed_udp_listener_loop fuel socket n senders limits
  | QuicBpf socket n limit st => quic_reuseport_bpf_listener_loop_with_state fuel socket n limit st
  | NativeTcp listener limit st => tcp_listener_loop_with_state fuel listener limit st
  | SimulatedTcp listener n addr senders limits =>
      simulated_tcp_accept_loop fuel listener n addr senders limits
  | TcpDispatch receiver st => tcp_state_dispatch_loop fuel receiver st
  end.

(** ** Reading the log *)

(** Permits and streams taken and given away. *)
Definition permit_in (e : event) : list Z :=
  match e with
  | Acquired _ p => [p]
  | TookUdp w => [work_permit w]
  | TookTcp w => [tcp_permit w]
  | _ => []
  end.
Definition permit_out (e : event) : list Z :=
  match e with
  | Released p => [p]
  | SpawnedUdp _ w true | SentUdp _ w true => [work_permit w]
  | SpawnedTcp _ w true | SentTcp _ w true => [tcp_permit w]
  | _ => []
  end.
Definition stream_in (e : event) : list Z :=
  match e with Accepted s _ => [s] | TookTcp w => [work_stream w] | _ => [] end.
Definition stream_out (e : event) : list Z :=
  match e with
  | StreamClosed s => [s]
  | SpawnedTcp _ w true | SentTcp _ w true => [work_stream w]
  | _ => []
  end.

(** Datagrams received, and those given to a handler or a queue. *)
Definition got (e : event) : list (bytes * option SocketAddr) :=
  match e with
  | Got p m => [(p, peer_addr m)]
  | TookUdp w => [(work_payload w, peer_addr (work_meta w))]
  | _ => []
  end.
Definition handed (e : event) : list (bytes * option SocketAddr) :=
  match e with
  | SpawnedUdp _ w true | SentUdp _ w true => [(work_payload w, peer_addr (work_meta w))]
  | SentRouted _ p true => [(payload p, Some (packet_peer p))]
  | _ => []
  end.

Definition all {A} (f : event -> list A) (l : list event) : list A := concat (f <$> l).

(** Work is handed over only while the last check of the flags succeeded. *)
Fixpoint guarded (last : bool) (l : list event) : bool :=
  match l with
  | [] => true
  | Checked b :: l => guarded b l
  | (SpawnedUdp _ _ _ | SpawnedTcp _ _ _ | SentUdp _ _ _ | SentTcp _ _ _ | SentRouted _ _ _) :: l =>
      last && guarded last l
  | _ :: l => guarded last l
  end.

#[export] Instance event_checked_dec e : Decision (Checked true = e).
Proof. destruct e as [[]| | | | | | | | | | | | | |]; try (by right); by left. Defined.

Definition active_checks (l : list event) : nat := length (filter (eq (Checked true)) l).

Lemma all_app {A} (f : event -> list A) l1 l2 : all f (l1 ++ l2) = all f l1 ++ all f l2.
Proof. unfold all. by rewrite fmap_app, concat_app. Qed.

Lemma guarded_app l1 l2 :
  (forall b, guarded b l1 = true) -> (forall b, guarded b l2 = true) ->
  forall b, guarded b (l1 ++ l2) = true.
Proof.
  intros H1 H2 b. specialize (H1 b). revert b H1.
  induction l1 as [|e l1 IH]; intros b H1; simpl in *; [apply H2|].
  destruct e; auto; apply andb_true_iff in H1 as [-> ?]; simpl; auto.
Qed.

Lemma active_checks_app l1 l2 :
  active_checks (l1 ++ l2) = (active_checks l1 + active_checks l2)%nat.
Proof. unfold active_checks. by rewrite filter_app, length_app. Qed.

(** What holds of the events of one iteration of any loop. *)
Record sound_events (l : list event) : Prop := mkSound {
  permits_settled : all permit_in l ≡ₚ all permit_out l;
  streams_settled : all stream_in l ≡ₚ all stream_out l;
  handed_in_order : all handed l `sublist_of` all got l;
  handed_guarded : forall b, guarded b l = true;
}.

Lemma sound_nil : sound_events [].
Proof. by split. Qed.

Lemma sound_app l1 l2 : sound_events l1 -> sound_events l2 -> sound_events (l1 ++ l2).
Proof.
  intros [P1 S1 H1 G1] [P2 S2 H2 G2]. split; rewrite ?all_app.
  - by rewrite P1, P2.
  - by rewrite S1, S2.
  - by apply sublist_app.
  - by apply guarded_app.
Qed.

Definition sound_iteration {W S} (body : S -> prog W event (ctl S)) : Prop :=
  forall s, wp (body s) (fun c l => sound_events l /\
    (forall s', c = Continue s' -> (1 <= active_checks l)%nat)).

(** The loop rule: what holds of every iteration and is closed under concatenation
    holds of the whole loop. *)
Lemma wp_run_loop {W S} (P : list event -> Prop) (Stop : list event -> Prop) fuel
    (body : S -> prog W event (ctl S)) s :
  P [] -> (forall l1 l2, P l1 -> P l2 -> P (l1 ++ l2)) -> (forall l1 l2, P l1 -> Stop l2 -> Stop (l1 ++ l2)) ->
  (forall s, wp (body s) (fun c l =>
     match c with Continue _ => P l /\ (1 <= active_checks l)%nat | Break => Stop l end)) ->
  wp (run_loop fuel body s) (fun finished l =>
    if (finished : bool) then Stop l else P l /\ (fuel <= active_checks l)%nat).
Proof.
  intros Hnil Happ Hstop Hbody. revert s. induction fuel as [|fuel IH]; intros s; simpl.
  - apply wp_ret. split; [done|lia].
  - apply wp_bind. eapply wp_mono; [apply Hbody|]. intros [s'|] l Hl.
    + eapply wp_mono; [apply IH|]. intros [] l' Hl'; destruct Hl; auto.
      destruct Hl'. rewrite active_checks_app. split; [auto|lia].
    + apply wp_ret. by rewrite app_nil_r.
Qed.

Lemma run_loop_sound {W S} fuel (body : S -> prog W event (ctl S)) s :
  sound_iteration body ->
  wp (run_loop fuel body s) (fun finished l => sound_events l /\
    (finished = false -> (fuel <= active_checks l)%nat)).
Proof.
  intros Hb. eapply wp_mono.
  - apply (wp_run_loop sound_events sound_events); eauto using sound_nil, sound_app.
    intros s'. eapply wp_mono; [apply Hb|]. intros [s''|] l [Hl Hc]; eauto.
  - intros [] l Hl; [done|]. by destruct Hl.
Qed.

(** ** Each iteration is sound *)

Section Iterations.
Context {W : Type} `{SocketEnv W} `{ListenerEnv W} (le supported : bool).

(** A program that performs no event of its own. *)
Definition silent {A} (m : prog W event A) : Prop := forall Q, (forall a, Q a []) -> wp m Q.

Lemma silent_ret {A} (a : A) : silent (mret a).
Proof. intros Q HQ. by apply wp_ret. Qed.
Lemma silent_ask {A} (f : W -> A * W) : silent (ask f).
Proof. intros Q HQ. by apply wp_ask. Qed.
Lemma silent_bind {A B} (m : prog W event A) (k : A -> prog W event B) :
  silent m -> (forall a, silent (k a)) -> silent (m ≫= k).
Proof. intros Hm Hk Q HQ. apply wp_bind, Hm. intros a. apply Hk. intros b. apply HQ. Qed.
Lemma silent_try {E A B} (m : prog W event (result E A)) (k : A -> prog W event (result E B)) :
  silent m -> (forall a, silent (k a)) -> silent (try_bind m k).
Proof. intros Hm Hk. apply silent_bind; [done|]. intros [a|e]; [apply Hk|apply silent_ret]. Qed.
Lemma silent_map_err {E F A} (f : E -> F) (m : prog W event (result E A)) :
  silent m -> silent (prog_map_err f m).
Proof. intros Hm. apply silent_bind; [done|]. intros. apply silent_ret. Qed.

Ltac silent_solve :=
  repeat first [ apply silent_ret | apply silent_ask | apply silent_map_err | apply silent_try
               | apply silent_bind | progress intros ].

Lemma silent_local_addr s : silent (socket_local_addr s).
Proof. destruct s; simpl; silent_solve. Qed.
Lemma silent_recv_from_vec s b : silent (recv_from_vec s b).
Proof.
  destruct s; unfold recv_from_vec, udp_recv_from, routed_recv_from_vec, recv_packet; silent_solve.
Qed.
Lemma silent_recv_original supp s b f : silent (recv_udp_original_dst le supp s b f).
Proof.
  unfold recv_udp_original_dst, recv_udp_original_dst_raw. destruct supp; silent_solve.
  case_match; silent_solve.
Qed.
Lemma silent_recv_packet s b t : silent (recv_packet_with_local_addr le supported s b t).
Proof.
  unfold recv_packet_with_local_addr. destruct s; [destruct t|].
  - apply silent_try; [apply silent_local_addr|]. intros a. apply silent_map_err, silent_recv_original.
  - apply silent_try; [apply silent_recv_from_vec|]. intros [[? ?] ?].
    apply silent_try; [apply silent_local_addr|]. intros. apply silent_ret.
  - apply silent_try; [apply silent_recv_from_vec|]. intros [[? ?] ?].
    apply silent_try; [apply silent_local_addr|]. intros. apply silent_ret.
Qed.
Lemma silent_local_addr_ok s : silent (local_addr_ok s).
Proof. apply silent_bind; [apply silent_local_addr|]. intros. apply silent_ret. Qed.

Lemma wp_is_active (Q : bool -> list event -> Prop) :
  (forall b, Q b [Checked b]) -> wp is_active Q.
Proof.
  intros HQ. apply wp_bind, wp_ask. intros []; apply wp_bind; [apply wp_ask; intros b|apply wp_ret];
    apply wp_bind, wp_emit, wp_ret; apply HQ.
Qed.
Lemma wp_server_active (Q : bool -> list event -> Prop) :
  (forall b, Q b [Checked b]) -> wp server_active Q.
Proof. intros HQ. apply wp_bind, wp_ask. intros b. apply wp_bind, wp_emit, wp_ret, HQ. Qed.
End Iterations.

(** Symbolic execution of an iteration. *)
Ltac iter_step :=
  first
    [ apply wp_is_active | apply wp_server_active
    | apply silent_recv_packet | apply silent_recv_from_vec | apply silent_local_addr_ok
    | apply wp_bind | apply wp_call | apply wp_ret | apply wp_emit | apply wp_ask
    | progress intros ].
Ltac iter_case :=
  match goal with
  | |- wp (if negb ?b then _ else _) _ => destruct b eqn:?; cbn [negb]
  | |- wp (match ?x with _ => _ end) _ => destruct x eqn:?
  end.
Ltac iter_unfold :=
  unfold udp_listener_iteration, simulated_udp_iteration, socket_only_iteration,
    udp_dispatch_iteration, quic_routed_iteration, quic_bpf_iteration, tcp_listener_iteration,
    simulated_tcp_iteration, tcp_dispatch_iteration, spawn_udp_handler_with_state,
    spawn_tcp_handler_with_state, send_udp_work, send_tcp_work, send_routed_packet, retry,
    acquire, try_acquire, drop_permit, drop_stream, accept.
Ltac iter_run := repeat first [ iter_step | iter_case ].
Ltac sound_solve1 :=
  split;
    [ split; unfold all; simpl;
      [ try reflexivity; solve_Permutation | try reflexivity; solve_Permutation
      | first [reflexivity | apply sublist_nil_l] | by intros [] ]
    | intros; unfold active_checks; simpl; repeat case_match; simpl in *; try lia; discriminate ].
Ltac sound_solve :=
  try match goal with |- context [is_ok ?r] => is_var r; destruct r end; sound_solve1.

Section Sound.
Context {W : Type} `{SocketEnv W} `{ListenerEnv W} (le supported : bool).

Lemma udp_listener_sound socket limit tr st :
  sound_iteration (udp_listener_iteration le supported socket limit tr st).
Proof. intros buffer. iter_unfold. iter_run; sound_solve. Qed.

Lemma simulated_udp_sound socket n senders limits tr :
  sound_iteration (simulated_udp_iteration le supported socket n senders limits tr).
Proof. intros buffer. iter_unfold. iter_run; sound_solve. Qed.

Lemma socket_only_sound socket fallback n route senders tr :
  sound_iteration (socket_only_iteration le supported socket fallback n route senders tr).
Proof. intros buffer. iter_unfold. iter_run; sound_solve. Qed.

Lemma udp_dispatch_sound receiver st : sound_iteration (udp_dispatch_iteration receiver st).
Proof. intros u. iter_unfold. iter_run; sound_solve. Qed.

Lemma quic_routed_sound socket n senders limits :
  sound_iteration (quic_routed_iteration socket n senders limits).
Proof. intros buffer. iter_unfold. iter_run; sound_solve. Qed.

Lemma quic_bpf_sound socket n limit st : sound_iteration (quic_bpf_iteration socket n limit st).
Proof. intros buffer. iter_unfold. iter_run; sound_solve. Qed.

Lemma tcp_listener_sound listener limit st :
  sound_iteration (tcp_listener_iteration listener limit st).
Proof. intros u. iter_unfold. iter_run; sound_solve. Qed.

Lemma simulated_tcp_sound listener n addr senders limits :
  sound_iteration (simulated_tcp_iteration listener n addr senders limits).
Proof. intros u. iter_unfold. iter_run; sound_solve. Qed.

Lemma tcp_dispatch_sound receiver st : sound_iteration (tcp_dispatch_iteration receiver st).
Proof. intros u. iter_unfold. iter_run; sound_solve. Qed.

Lemma run_listener_sound fuel l :
  wp (run_listener le supported fuel l) (fun finished log => sound_events log /\
    (finished = false -> (fuel <= active_checks log)%nat)).
Proof.
  destruct l; apply run_loop_sound.
  - apply udp_listener_sound.
  - apply simulated_udp_sound.
  - apply socket_only_sound.
  - apply udp_dispatch_sound.
  - apply quic_routed_sound.
  - apply quic_bpf_sound.
  - apply tcp_listener_sound.
  - apply simulated_tcp_sound.
  - apply tcp_dispatch_sound.
Qed.
End Sound.

(** ** Where the simulated loops send work *)

(** An item is sent to the right place: in the channel, and under the limit, of the
    worker chosen for it, and it is one that was received. *)
Definition routed_right (l : listener_loop) (log : list event) (e : event) : Prop :=
  match l, e with
  | SimulatedUdp _ n senders limits _, SentUdp sender w _ =>
      exists k limit, linux_reuseport_select (work_meta w) n = Ok k /\
        get senders k = Some sender /\ get limits k = Some limit /\
        Got (work_payload w) (work_meta w) ∈ log /\ Acquired limit (work_permit w) ∈ log
  | QuicRouted _ n senders limits, SentUdp sender w _ =>
      exists k limit, quic_worker_index (work_payload w) n = Some k /\
        get senders k = Some sender /\ get limits k = Some limit /\
        Got (work_payload w) (mkMeta (peer_addr (work_meta w)) None) ∈ log /\
        Acquired limit (work_permit w) ∈ log
  | SocketOnly _ _ n route senders _, SentRouted sender p _ =>
      exists k meta, route (payload p) meta n = Some k /\ get senders k = Some sender /\
        peer_addr meta = Some (packet_peer p) /\ Got (payload p) meta ∈ log
  | SimulatedTcp _ n addr senders limits, SentTcp sender w _ =>
      exists k limit peer, select_simulated_tcp_worker (mkMeta (Some peer) (Some addr)) n = Ok k /\
        get senders k = Some sender /\ get limits k = Some limit /\
        Accepted (work_stream w) peer ∈ log /\ Acquired limit (tcp_permit w) ∈ log
  | _, _ => True
  end.

Lemma routed_right_mono l log log' e : log ⊆ log' -> routed_right l log e -> routed_right l log' e.
Proof.
  intros Hs. assert (Hi : forall x, x ∈ log -> x ∈ log') by exact Hs. clear Hs.
  unfold routed_right. destruct l, e; naive_solver.
Qed.

(** The log of a loop, or of a part of it. *)
Definition all_routed (l : listener_loop) (log : list event) : Prop := Forall (routed_right l log) log.

Lemma all_routed_app l l1 l2 : all_routed l l1 -> all_routed l l2 -> all_routed l (l1 ++ l2).
Proof.
  intros H1 H2. apply Forall_app. split; [eapply Forall_impl; [exact H1|]|eapply Forall_impl; [exact H2|]];
    intros e; apply routed_right_mono; set_solver.
Qed.

Section Routing.
Context {W : Type} `{SocketEnv W} `{ListenerEnv W} (le supported : bool).

Ltac member := rewrite ?elem_of_cons; tauto.
Ltac routed_solve :=
  unfold all_routed; simpl; repeat (apply Forall_cons; split); try apply Forall_nil; try exact I;
  simpl; repeat eexists; first [eassumption|reflexivity|member].

(** One iteration of each routing loop. *)
Lemma routed_iterations l :
  match l with
  | SimulatedUdp s n senders limits tr =>
      forall b, wp (simulated_udp_iteration le supported s n senders limits tr b)
        (fun _ log => all_routed l log)
  | QuicRouted s n senders limits =>
      forall b, wp (quic_routed_iteration s n senders limits b) (fun _ log => all_routed l log)
  | SocketOnly s f n route senders tr =>
      forall b, wp (socket_only_iteration le supported s f n route senders tr b)
        (fun _ log => all_routed l log)
  | SimulatedTcp s n addr senders limits =>
      forall u, wp (simulated_tcp_iteration s n addr senders limits u) (fun _ log => all_routed l log)
  | _ => True
  end.
Proof. destruct l; try done; intros b0; iter_unfold; iter_run; routed_solve. Qed.
End Routing.

Lemma run_loop_all {W S} (P : list event -> Prop) fuel (body : S -> prog W event (ctl S)) s :
  P [] -> (forall l1 l2, P l1 -> P l2 -> P (l1 ++ l2)) ->
  (forall s, wp (body s) (fun _ l => P l)) -> wp (run_loop fuel body s) (fun _ l => P l).
Proof.
  intros Hnil Happ Hbody. revert s. induction fuel as [|fuel IH]; intros s; simpl; [by apply wp_ret|].
  apply wp_bind. eapply wp_mono; [apply Hbody|]. intros [s'|] l Hl.
  - eapply wp_mono; [apply IH|]. auto.
  - apply wp_ret. by rewrite app_nil_r.
Qed.

Lemma run_listener_routed {W} `{SocketEnv W} `{ListenerEnv W} le supported fuel l (w : W) :
  all_routed l (log (run_listener le supported fuel l) w).
Proof.
  pose proof (routed_iterations le supported l) as Hi.
  destruct l; try (by apply Forall_true); refine (run_loop_all (all_routed _) fuel _ _ _ _ Hi w);
    first [apply Forall_nil; exact I|apply all_routed_app].
Qed.

(** ** What the workers' own loops lose *)

(** The datagrams a worker's loop is meant to deliver. *)
Definition deliverable (l : listener_loop) (d : bytes * option SocketAddr) : bool :=
  match l with
  | QuicBpf _ n _ _ => quic_reuseport_bpf_accepts_packet d.1 n
  | _ => true
  end.

Definition is_worker_loop (l : listener_loop) : bool :=
  match l with NativeUdp _ _ _ _ | UdpDispatch _ _ | QuicBpf _ _ _ _ => true | _ => false end.

Definition delivered (l : listener_loop) (log : list event) : Prop :=
  List.filter (deliverable l) (all got log) = all handed log.

Lemma delivered_app l l1 l2 : delivered l l1 -> delivered l l2 -> delivered l (l1 ++ l2).
Proof. unfold delivered. rewrite !all_app, List.filter_app. congruence. Qed.

(** ... but for at most one, the last. *)
Definition delivered_but_last (l : listener_loop) (log : list event) : Prop :=
  exists rest, (length rest <= 1)%nat /\
    List.filter (deliverable l) (all got log) = all handed log ++ rest.

Lemma delivered_but_last_app l l1 l2 :
  delivered l l1 -> delivered_but_last l l2 -> delivered_but_last l (l1 ++ l2).
Proof.
  intros H1 (rest & Hr & H2). exists rest. split; [done|].
  rewrite !all_app, List.filter_app, H2, H1. by rewrite (assoc_L (++)).
Qed.

Section Delivery.
Context {W : Type} `{SocketEnv W} `{ListenerEnv W} (le supported : bool).

Ltac delivery_solve :=
  simpl; try match goal with |- context [if ?b then Continue _ else Break] => destruct b end;
  unfold delivered_but_last, delivered, all, deliverable, active_checks; simpl;
  repeat match goal with E : quic_reuseport_bpf_accepts_packet _ _ = _ |- _ => rewrite E; clear E end;
  try match goal with |- context [quic_reuseport_bpf_accepts_packet ?p ?n] =>
    destruct (quic_reuseport_bpf_accepts_packet p n) end;
  first [ split; [reflexivity|simpl; lia] | exists []; split; [simpl; lia|reflexivity]
        | eexists [_]; split; [simpl; lia|reflexivity] ].

Lemma worker_iterations l :
  match l with
  | NativeUdp s limit tr st =>
      forall b, wp (udp_listener_iteration le supported s limit tr st b) (fun c log =>
        match c with Continue _ => delivered l log /\ (1 <= active_checks log)%nat
                   | Break => delivered_but_last l log end)
  | UdpDispatch r st =>
      forall u, wp (udp_dispatch_iteration r st u) (fun c log =>
        match c with Continue _ => delivered l log /\ (1 <= active_checks log)%nat
                   | Break => delivered_but_last l log end)
  | QuicBpf s n limit st =>
      forall b, wp (quic_bpf_iteration s n limit st b) (fun c log =>
        match c with Continue _ => delivered l log /\ (1 <= active_checks log)%nat
                   | Break => delivered_but_last l log end)
  | _ => True
  end.
Proof. destruct l; try done; intros b0; iter_unfold; iter_run; delivery_solve. Qed.
End Delivery.

(** ** Claims *)

Section Claims.
Context {W : Type} `{SocketEnv W} `{ListenerEnv W} (le supported : bool).

(** C9: Permits and connections are never lost or duplicated.  In every listener and
    dispatch loop, after any number of iterations and whatever the sockets,
    channels, flags and limits answer: each permit taken from a limit (or from a
    queue) was either released or moved, once, into a started handler or a queued
    work item; each accepted connection was either closed or moved, once, likewise. *)
Theorem loops_settle_work fuel l (w : W) :
  let log := log (run_listener le supported fuel l) w in
  all permit_in log ≡ₚ all permit_out log /\ all stream_in log ≡ₚ all stream_out log.
Proof. destruct (run_listener_sound le supported fuel l w) as [[] _]. by split. Qed.

(** Datagrams are handed over in order, at most once, and unchanged: what the
    loop gave to handlers, queues or routed sockets is a subsequence of what it
    received, payload and sender; and it gave nothing after a check of the active
    flags had failed. *)
Theorem loops_hand_over_in_order fuel l (w : W) :
  let log := log (run_listener le supported fuel l) w in
  all handed log `sublist_of` all got log /\ guarded false log = true.
Proof. destruct (run_listener_sound le supported fuel l w) as [[] _]. by split. Qed.

(** Closing stops the loops.  A loop goes on for another iteration only after
    it has seen the active flags set: if it has not ended after [fuel] iterations
    it saw them set at least [fuel] times, so once the server or the runtime is
    stopped it ends within the iteration it is in. *)
Theorem loops_stop_when_inactive fuel l (w : W) :
  (active_checks (log (run_listener le supported fuel l) w) < fuel)%nat ->
  value (run_listener le supported fuel l) w = true.
Proof.
  intros Hlt. destruct (run_listener_sound le supported fuel l w) as [_ Hf].
  destruct (value _ w); [done|]. specialize (Hf eq_refl). simpl in Hf. lia.
Qed.


(** C11: A worker's own loop loses nothing while it runs.  The native UDP loop, the
    dispatch loop and the QUIC loop behind the kernel selector start a handler for
    every datagram they receive (for QUIC, every one that carries a worker index),
    in order; when a loop ends, at most the one datagram it was holding, received
    just before the server closed or as its handler could not be started, is not
    delivered. *)
Theorem worker_loops_deliver fuel l (w : W) :
  is_worker_loop l = true ->
  let log := log (run_listener le supported fuel l) w in
  if value (run_listener le supported fuel l) w then delivered_but_last l log else delivered l log.
Proof.
  intros Hl. pose proof (worker_iterations le supported l) as Hi.
  assert (wp (run_listener le supported fuel l) (fun finished l' =>
    if (finished : bool) then delivered_but_last l l'
    else delivered l l' /\ (fuel <= active_checks l')%nat)) as Hwp.
  { destruct l; try discriminate Hl;
      (apply (wp_run_loop (delivered _) (delivered_but_last _));
        [done|apply delivered_app|apply delivered_but_last_app|exact Hi]). }
  specialize (Hwp w). simpl. destruct (value _ w); tauto.
Qed.

(** The accept loop's worker is spared.  For two or more workers the simulated
    TCP loop's selection is in range and never worker 0, which runs the loop
    itself; for one worker it is worker 0, and for none an error. *)
Theorem simulated_tcp_selection meta n :
  0 <= n ->
  match select_simulated_tcp_worker meta n with
  | Ok k => 0 < n /\ (n = 1 -> k = 0) /\ (1 < n -> 1 <= k < n)
  | Err e => n = 0 /\ e = InvalidConfig "worker count must be greater than zero"
  end.
Proof.
  intros Hn. unfold select_simulated_tcp_worker. destruct (Z.leb_spec n 1).
  - destruct (decide (n = 0)) as [->|]; [done|].
    destruct (select_ok meta n) as (k & -> & Hk); [lia|]. lia.
  - destruct (select_ok meta (n - 1)) as (k & -> & Hk); [lia|]. simpl. lia.
Qed.
End Claims.

(** A world in which every flag is set for the first [w] questions, a datagram is
    always waiting, and nothing else fails. *)
#[local] Instance countdown_sockets : SocketEnv Z := {|
  rt_recv_from _ _ w := ((Ok (3, SocketAddrV4 [10; 0; 0; 9] 700), [0x40; 0; 1; 0]), w);
  rt_poll_recv_from _ b w := ((Pending, b), w);
  rt_send_to _ b _ w := (Ok (len b), w);
  rt_try_send_to _ b _ w := (Ok (len b), w);
  rt_poll_send_ready _ w := (Ready (Ok ()), w);
  rt_local_addr _ w := (Ok (SocketAddrV4 [0; 0; 0; 0] 53), w);
  std_send_to _ b _ w := (Ok (len b), w);
  channel_recv _ w := (None, w);
  channel_poll_recv _ w := (Pending, w);
  libc_recvmsg _ _ w := (Err (Io.mkError Io.WouldBlock EmptyString), w);
|}.

#[local] Instance countdown_env : ListenerEnv Z := {|
  env_runtime_active w := (0 <? w, w - 1);
  env_server_active w := (0 <? w, w - 1);
  env_acquire _ w := (w, w);
  env_try_acquire _ w := (Some w, w);
  env_release _ w := ((), w);
  env_accept _ w := (Ok (w, SocketAddrV4 [10; 0; 0; 9] 700), w);
  env_close_stream _ w := ((), w);
  env_spawn_udp _ _ w := (Ok (), w);
  env_spawn_tcp _ _ w := (Ok (), w);
  env_send_udp _ _ w := (Ok (), w);
  env_send_tcp _ _ w := (Ok (), w);
  env_send_routed _ _ w := (Ok (), w);
  env_recv_udp _ w := (None, w);
  env_recv_tcp _ w := (None, w);
|}.

(** Two datagrams are delivered before the flags are cleared. *)
Example two_delivered :
  length (all handed (log (run_listener true false 9 (QuicBpf (RuntimeSocket 3) 2 0 1)) 12)) = 2%nat /\
  value (run_listener true false 9 (QuicBpf (RuntimeSocket 3) 2 0 1)) 12 = true.
Proof. vm_compute. done. Qed.


Lemma loops_stop_when_inactive_witness :
  value (run_listener true false 9 (NativeTcp 3 0 1)) 12 = true.
Proof.
  apply (loops_stop_when_inactive true false 9 (NativeTcp 3 0 1) 12). vm_compute. lia.
Defined.

Lemma worker_loops_deliver_witness :
  delivered (QuicBpf (RuntimeSocket 3) 2 0 1)
    (log (run_listener true false 2 (QuicBpf (RuntimeSocket 3) 2 0 1)) 12).
Proof. exact (worker_loops_deliver true false 2 (QuicBpf (RuntimeSocket 3) 2 0 1) 12 eq_refl). Defined.

Lemma simulated_tcp_selection_witness :
  exists k, select_simulated_tcp_worker (mkMeta None None) 4 = Ok k /\ 1 <= k < 4.
Proof.
  pose proof (simulated_tcp_selection (mkMeta None None) 4 ltac:(lia)) as Hs.
  destruct (select_simulated_tcp_worker (mkMeta None None) 4) as [k|e]; [|lia].
  exists k. split; [done|]. apply Hs. lia.
Defined.

(** A kernel-selected QUIC worker does not check that a datagram is its own.  The
    acceptance check of the loop depends on the datagram and the number of workers
    only: it accepts exactly the datagrams that carry some worker index, and the
    loop of worker 0 starts a handler for a datagram whose connection id names
    worker 1. *)
Theorem quic_worker_accepts_other_workers_packets :
  (forall p n, quic_reuseport_bpf_accepts_packet p n = true <-> is_Some (quic_worker_index p n)) /\
  quic_worker_index [0x40; 0; 1] 2 = Some 1 /\
  all handed (log (run_listener true false 1 (QuicBpf (RuntimeSocket 3) 2 0 0)) 12) =
    [([0x40; 0; 1], Some (SocketAddrV4 [10; 0; 0; 9] 700))].
Proof. split; [apply accepts_spec|]. split; vm_compute; reflexivity. Qed.
