(* ===== verification/Pipeline.v ===== *)
(** * The userspace substitute end to end: routing loop, queues, dispatch loops

    [Listener] proves the routing loops and the workers' dispatch loops one by one.
    Here they run together: a trace is any interleaving of the log of one routing
    loop ([simulated_udp_listener_loop], [quic_routed_udp_listener_loop],
    [simulated_tcp_accept_loop]) with the logs of the workers' dispatch loops, in
    which the channels of src/core/udp.rs and tcp.rs behave as bounded FIFO queues.
    Each loop still runs in a world of its own choosing. *)

From S2P Require Import Prelude Errors Net Effects Schedule Quic Recv Listener.

(** What travels through a queue. *)
Inductive item := UdpItem (w : UdpWorkItem) | TcpItem (w : TcpWorkItem).

(** What reaches the server from outside. *)
Inductive datum := Dgram (payload : bytes) (peer : option SocketAddr) | Conn (stream : Z).

Definition datum_of (i : item) : datum :=
  match i with
  | UdpItem w => Dgram (work_payload w) (peer_addr (work_meta w))
  | TcpItem w => Conn (work_stream w)
  end.

Definition permit_of (i : item) : Z :=
  match i with UdpItem w => work_permit w | TcpItem w => tcp_permit w end.

(** ** Reading the logs *)

(** Queued in channel [c]: a channel is named by its sender and its receiver alike. *)
Definition sent_to (c : Z) (e : event) : list item :=
  match e with
  | SentUdp c' w true => if c' =? c then [UdpItem w] else []
  | SentTcp c' w true => if c' =? c then [TcpItem w] else []
  | _ => []
  end.

(** Taken from the own queue, and given to a handler. *)
Definition took (e : event) : list item :=
  match e with TookUdp w => [UdpItem w] | TookTcp w => [TcpItem w] | _ => [] end.
Definition handled (e : event) : list item :=
  match e with
  | SpawnedUdp _ w true => [UdpItem w]
  | SpawnedTcp _ w true => [TcpItem w]
  | _ => []
  end.

(** Received by the routing loop [l] and routed to worker [k]. *)
Definition routed_to (l : listener_loop) (k : Z) (e : event) : list datum :=
  match l, e with
  | SimulatedUdp _ n _ _ _, Got p m =>
      if bool_decide (linux_reuseport_select m n = Ok k) then [Dgram p (peer_addr m)] else []
  | QuicRouted _ n _ _, Got p m =>
      if bool_decide (quic_worker_index p n = Some k) then [Dgram p (peer_addr m)] else []
  | SimulatedTcp _ n addr _ _, Accepted s peer =>
      if bool_decide (select_simulated_tcp_worker (mkMeta (Some peer) (Some addr)) n = Ok k)
      then [Conn s] else []
  | _, _ => []
  end.

(** The routing loops that feed dispatch loops, and these. *)
Definition is_router (l : listener_loop) : bool :=
  match l with
  | SimulatedUdp _ _ _ _ _ | QuicRouted _ _ _ _ | SimulatedTcp _ _ _ _ _ => true
  | _ => false
  end.
Definition is_dispatcher (l : listener_loop) : bool :=
  match l with UdpDispatch _ _ | TcpDispatch _ _ => true | _ => false end.

Definition worker_count_of (l : listener_loop) : Z :=
  match l with
  | SimulatedUdp _ n _ _ _ | QuicRouted _ n _ _ | SimulatedTcp _ n _ _ _ => n
  | SocketOnly _ _ n _ _ _ => n
  | _ => 0
  end.

(** The channels a routing loop sends to, by worker, and the one a dispatch loop
    receives from. *)
Definition senders_of (l : listener_loop) : list Z :=
  match l with
  | SimulatedUdp _ _ senders _ _ | QuicRouted _ _ senders _ | SimulatedTcp _ _ _ senders _ => senders
  | SocketOnly _ _ _ _ senders _ => senders
  | _ => []
  end.
Definition receiver_of (l : listener_loop) : Z :=
  match l with UdpDispatch r _ | TcpDispatch r _ => r | _ => 0 end.

(** ** Traces and channels *)

Inductive party := Router | Worker (k : Z).

#[export] Instance party_eq_dec : EqDecision party.
Proof. solve_decision. Defined.

Abbreviation trace := (list (party * event)).

(** The events of one party. *)
Definition proj (p : party) (tr : trace) : list event :=
  snd <$> filter (fun pe => pe.1 = p) tr.

Abbreviation queues := (Z -> list item).
Definition set_queue (k : Z) (l : list item) (q : queues) : queues :=
  fun k' => if k' =? k then l else q k'.

(** Bounded FIFO channels of [capacity] items; worker [k]'s loop receives from channel
    [receiver k].  A successful send finds room, a receive takes the oldest item,
    nothing else touches a queue. *)
Inductive channel_step (capacity : nat) (receiver : Z -> Z) : queues -> party * event -> queues -> Prop :=
| step_sent q e c i :
    sent_to c e = [i] -> (length (q c) < capacity)%nat ->
    channel_step capacity receiver q (Router, e) (set_queue c (q c ++ [i]) q)
| step_took q e k i rest :
    took e = [i] -> q (receiver k) = i :: rest ->
    channel_step capacity receiver q (Worker k, e) (set_queue (receiver k) rest q)
| step_router q e :
    (forall c, sent_to c e = []) -> channel_step capacity receiver q (Router, e) q
| step_worker q e k : took e = [] -> channel_step capacity receiver q (Worker k, e) q.

Inductive channel_run (capacity : nat) (receiver : Z -> Z) : queues -> trace -> queues -> Prop :=
| run_nil q : channel_run capacity receiver q [] q
| run_cons q pe q1 tr q2 :
    channel_step capacity receiver q pe q1 -> channel_run capacity receiver q1 tr q2 ->
    channel_run capacity receiver q (pe :: tr) q2.

Definition empty_queues : queues := fun _ => [].

Lemma proj_cons p p' e tr : proj p ((p', e) :: tr) = if decide (p' = p) then e :: proj p tr else proj p tr.
Proof. unfold proj. rewrite filter_cons. simpl. by case_decide. Qed.

Lemma all_cons {A} (f : event -> list A) e l : all f (e :: l) = f e ++ all f l.
Proof. done. Qed.

Lemma sent_to_other e c c' i : sent_to c e = [i] -> c' <> c -> sent_to c' e = [].
Proof.
  intros Hi Hne. destruct e as [| | | | | | | | | |c1 w []|c1 w []| | |]; simpl in *; try done;
    destruct (Z.eqb_spec c1 c); simplify_eq; by destruct (Z.eqb_spec c c').
Qed.

(** What was sent is what was taken and what waits, if no two workers receive from
    the same channel. *)
Lemma channel_run_fifo capacity receiver q tr q' :
  (forall k k', receiver k = receiver k' -> k = k') ->
  channel_run capacity receiver q tr q' ->
  forall k, q (receiver k) ++ all (sent_to (receiver k)) (proj Router tr) =
            all took (proj (Worker k) tr) ++ q' (receiver k).
Proof.
  intros Hinj. induction 1 as [q|q pe q1 tr q2 Hs _ IH]; intros k; [by rewrite app_nil_r|].
  specialize (IH k).
  destruct Hs as [q e c i Hi _|q e k0 i rest Hi Hq|q e He|q e k0 He]; rewrite !proj_cons;
    unfold set_queue in IH.
  - rewrite decide_True, decide_False, all_cons by done.
    revert IH; destruct (Z.eqb_spec (receiver k) c) as [<-|Hne]; intros IH.
    + rewrite Hi. by rewrite <- (assoc_L (++)) in IH.
    + by rewrite (sent_to_other e c (receiver k) i) by done.
  - rewrite decide_False by done.
    revert IH; destruct (Z.eqb_spec (receiver k) (receiver k0)) as [<-%Hinj|Hne]; intros IH.
    + rewrite decide_True, all_cons, Hi, Hq by done. simpl. by rewrite IH.
    + by rewrite decide_False by congruence.
  - by rewrite decide_True, decide_False, all_cons, He by done.
  - rewrite decide_False by done. case_decide; [by rewrite all_cons, He|done].
Qed.

Lemma channel_run_bounded capacity receiver q tr q' :
  channel_run capacity receiver q tr q' -> (forall c, (length (q c) <= capacity)%nat) ->
  forall c, (length (q' c) <= capacity)%nat.
Proof.
  induction 1 as [q|q pe q1 tr q2 Hs _ IH]; intros Hq; [done|]. apply IH. clear IH.
  intros c. destruct Hs as [q e c0 i _ Hl|q e k0 i rest _ Hq0| |]; unfold set_queue; try done;
    match goal with |- context [?a =? ?b] => destruct (Z.eqb_spec a b) as [->|] end; try done.
  - rewrite length_app. simpl. lia.
  - specialize (Hq (receiver k0)). rewrite Hq0 in Hq. simpl in Hq. lia.
Qed.

(** ** The workers a router names exist *)

Lemma select_range meta n k : 0 <= n -> linux_reuseport_select meta n = Ok k -> 0 <= k < n.
Proof.
  intros Hn Hs. destruct (decide (n = 0)) as [->|]; [done|].
  destruct (select_ok meta n) as (k' & E & Hk); [lia|]. congruence.
Qed.

Lemma tcp_select_range meta n k : 0 <= n -> select_simulated_tcp_worker meta n = Ok k -> 0 <= k < n.
Proof.
  intros Hn. unfold select_simulated_tcp_worker. destruct (Z.leb_spec n 1); [by apply select_range|].
  destruct (select_ok meta (n - 1)) as (k' & -> & Hk); [lia|]. simpl. intros [= <-]. lia.
Qed.

Lemma tcp_select_ok meta n : 0 < n -> exists k, select_simulated_tcp_worker meta n = Ok k.
Proof.
  intros Hn. unfold select_simulated_tcp_worker. destruct (Z.leb_spec n 1).
  - destruct (select_ok meta n Hn) as (k & -> & _). eauto.
  - destruct (select_ok meta (n - 1)) as (k & -> & _); [lia|]. by eexists.
Qed.

Lemma quic_index_range p n k : 0 <= n -> quic_worker_index p n = Some k -> 0 <= k < n.
Proof.
  intros Hn. destruct (decide (n = 0)) as [->|]; [done|]. apply worker_index_range. lia.
Qed.

(** ** Single loops *)

Section Parts.
Context {W : Type} `{SocketEnv W} `{ListenerEnv W} (le supported : bool).

(** What a routing loop queues in channel [c] it received for worker [k], in this order. *)
Definition queued_in_order (l : listener_loop) (k c : Z) (log : list event) : Prop :=
  (datum_of <$> all (sent_to c) log) `sublist_of` all (routed_to l k) log.

Lemma queued_app l k c l1 l2 :
  queued_in_order l k c l1 -> queued_in_order l k c l2 -> queued_in_order l k c (l1 ++ l2).
Proof. intros H1 H2. unfold queued_in_order. rewrite !all_app, fmap_app. by apply sublist_app. Qed.

(** Channel [c] is nobody's but worker [k]'s. *)
Definition channel_only_of (l : listener_loop) (k c : Z) : Prop :=
  forall k', 0 <= k' < worker_count_of l -> get (senders_of l) k' = Some c -> k' = k.

Ltac in_range :=
  match goal with
  | Hs : linux_reuseport_select _ _ = Ok _ |- _ => eapply select_range; eassumption
  | Hs : quic_worker_index _ _ = Some _ |- _ => eapply quic_index_range; eassumption
  | Hs : select_simulated_tcp_worker _ _ = Ok _ |- _ => eapply tcp_select_range; eassumption
  end.
Ltac queued_solve :=
  unfold queued_in_order, all; simpl;
  try match goal with |- context [?a =? ?c] => destruct (Z.eqb_spec a c); subst; simpl end;
  first [ apply sublist_nil_l
        | match goal with
          | Ho : channel_only_of _ ?k ?c, Hg : get _ ?k' = Some ?c |- _ =>
              assert (k' = k) by (apply Ho; [in_range|exact Hg]); subst k'
          end; rewrite bool_decide_true by (simpl in *; assumption || congruence); reflexivity ].

Lemma queued_iterations l k c :
  0 <= worker_count_of l -> channel_only_of l k c ->
  match l with
  | SimulatedUdp s n senders limits tr =>
      forall b, wp (simulated_udp_iteration le supported s n senders limits tr b)
        (fun _ log => queued_in_order l k c log)
  | QuicRouted s n senders limits =>
      forall b, wp (quic_routed_iteration s n senders limits b) (fun _ log => queued_in_order l k c log)
  | SimulatedTcp s n addr senders limits =>
      forall u, wp (simulated_tcp_iteration s n addr senders limits u)
        (fun _ log => queued_in_order l k c log)
  | _ => True
  end.
Proof.
  intros Hn Ho. destruct l; try done; cbn [worker_count_of] in Hn; intros b0; iter_unfold; iter_run;
    try match goal with |- context [is_ok ?r] => is_var r; destruct r end; queued_solve.
Qed.

Lemma router_queues fuel l k c w :
  is_router l = true -> 0 <= worker_count_of l -> channel_only_of l k c ->
  queued_in_order l k c (log (run_listener le supported fuel l) w).
Proof.
  intros Hl Hn Ho. pose proof (queued_iterations l k c Hn Ho) as Hi.
  destruct l; try discriminate Hl; refine (run_loop_all (queued_in_order _ k c) fuel _ _ _ _ Hi w);
    first [apply sublist_nil_l|apply queued_app].
Qed.

(** A dispatch loop starts a handler for everything it takes, in order, but for at
    most the last item. *)
Definition dispatched_all (log : list event) : Prop := all took log = all handled log.
Definition dispatched_but_last (log : list event) : Prop :=
  exists rest, (length rest <= 1)%nat /\ all took log = all handled log ++ rest.

Ltac dispatch_solve :=
  simpl; try match goal with |- context [is_ok ?r] => is_var r; destruct r end; simpl;
  unfold dispatched_all, dispatched_but_last, all, active_checks; simpl;
  first [ split; [reflexivity|simpl; lia] | exists []; split; [simpl; lia|reflexivity]
        | eexists [_]; split; [simpl; lia|reflexivity] ].

Lemma dispatch_iterations l :
  match l with
  | UdpDispatch r st =>
      forall u, wp (udp_dispatch_iteration r st u) (fun c log =>
        match c with Continue _ => dispatched_all log /\ (1 <= active_checks log)%nat
                   | Break => dispatched_but_last log end)
  | TcpDispatch r st =>
      forall u, wp (tcp_dispatch_iteration r st u) (fun c log =>
        match c with Continue _ => dispatched_all log /\ (1 <= active_checks log)%nat
                   | Break => dispatched_but_last log end)
  | _ => True
  end.
Proof. destruct l; try done; intros b0; iter_unfold; iter_run; dispatch_solve. Qed.

Lemma dispatcher_handles fuel l w :
  is_dispatcher l = true ->
  let log := log (run_listener le supported fuel l) w in
  exists rest, (length rest <= 1)%nat /\ all took log = all handled log ++ rest /\
    (value (run_listener le supported fuel l) w = false -> rest = []).
Proof.
  intros Hl. pose proof (dispatch_iterations l) as Hi.
  assert (wp (run_listener le supported fuel l) (fun finished l' =>
    if (finished : bool) then dispatched_but_last l'
    else dispatched_all l' /\ (fuel <= active_checks l')%nat)) as Hwp.
  { destruct l; try discriminate Hl;
      (apply (wp_run_loop dispatched_all dispatched_but_last); [done|..|exact Hi]).
    1,3: intros l1 l2 H1 H2; unfold dispatched_all in *; rewrite !all_app; congruence.
    all: intros l1 l2 H1 (rest & Hr & H2); exists rest; split; [done|];
      rewrite !all_app, H1, H2; by rewrite (assoc_L (++)). }
  specialize (Hwp w). simpl. destruct (value _ w).
  - destruct Hwp as (rest & ? & ?). by exists rest.
  - destruct Hwp as [Hd _]. exists []. rewrite app_nil_r. split; [simpl; lia|done].
Qed.
End Parts.

(** ** Resources *)

Definition sent_any (e : event) : option (Z * item) :=
  match e with
  | SentUdp k w true => Some (k, UdpItem w)
  | SentTcp k w true => Some (k, TcpItem w)
  | _ => None
  end.

(** Routing loops take nothing from a queue and start no handler; dispatch loops
    take nothing from outside and queue nothing. *)
Definition router_event (e : event) : bool :=
  match e with
  | SpawnedUdp _ _ _ | SpawnedTcp _ _ _ | TookUdp _ | TookTcp _ => false
  | _ => true
  end.
Definition dispatcher_event (e : event) : bool :=
  match e with
  | Acquired _ _ | Accepted _ _ => false
  | _ => true
  end.

Definition released (e : event) : list Z := match e with Released p => [p] | _ => [] end.
Definition closed (e : event) : list Z := match e with StreamClosed s => [s] | _ => [] end.
Definition permits_of (i : item) : list Z := [permit_of i].
Definition streams_of (i : item) : list Z :=
  match i with TcpItem w => [work_stream w] | UdpItem _ => [] end.

Lemma concat_app_perm {A} (f g : Z -> list A) ks :
  concat ((fun k => f k ++ g k) <$> ks) ≡ₚ concat (f <$> ks) ++ concat (g <$> ks).
Proof.
  induction ks as [|k ks IH]; simpl; [done|]. rewrite IH. solve_Permutation.
Qed.

Lemma concat_indicator {A} (l : list A) k ks :
  NoDup ks -> k ∈ ks -> concat ((fun k' => if k =? k' then l else []) <$> ks) ≡ₚ l.
Proof.
  assert (Hno : forall ks, k ∉ ks -> concat ((fun k' => if k =? k' then l else []) <$> ks) = []).
  { clear. induction ks as [|k' ks IH]; intros Hk; simpl; [done|].
    destruct (Z.eqb_spec k k') as [->|]; [set_solver|]. apply IH. set_solver. }
  induction 1 as [|k' ks Hk' _ IH]; intros Hin; [by apply elem_of_nil in Hin|]. simpl.
  destruct (Z.eqb_spec k k') as [->|Hne].
  - by rewrite Hno, app_nil_r.
  - apply IH. set_solver.
Qed.

(** Everything a router gives away is dropped or queued for one of its workers. *)
Lemma router_gives (out drop : event -> list Z) (owns : item -> list Z) ks log :
  (forall e, router_event e = true ->
     out e = drop e ++ match sent_any e with Some (_, i) => owns i | None => [] end) ->
  NoDup ks -> Forall (fun e => router_event e = true) log ->
  (forall e k i, e ∈ log -> sent_any e = Some (k, i) -> k ∈ ks) ->
  all out log ≡ₚ all drop log ++ concat ((fun k => all (sent_to k) log ≫= owns) <$> ks).
Proof.
  intros Hout Hnd Hev Hks. induction log as [|e log IH].
  - simpl. enough (concat ((fun _ => []) <$> ks) = []) as ->; [done|].
    clear. by induction ks.
  - apply Forall_cons in Hev as [He Hev]. rewrite !all_cons, Hout by done.
    rewrite IH; [|done|intros; eapply Hks; [by right|done]].
    assert (Hx : concat ((fun k => all (sent_to k) (e :: log) ≫= owns) <$> ks) ≡ₚ
      match sent_any e with Some (_, i) => owns i | None => [] end ++
      concat ((fun k => all (sent_to k) log ≫= owns) <$> ks)).
    { transitivity (concat ((fun k => (sent_to k e ≫= owns) ++
        (all (sent_to k) log ≫= owns)) <$> ks)).
      { apply Permutation_refl', f_equal, list_fmap_ext. intros _ k _. by rewrite all_cons, bind_app. }
      rewrite concat_app_perm. apply Permutation_app; [|done].
      destruct (sent_any e) as [[k i]|] eqn:Es.
      - rewrite <- (concat_indicator (owns i) k ks Hnd) by (eapply Hks; [by left|done]).
        apply Permutation_refl', f_equal, list_fmap_ext. intros _ k' _.
        destruct e as [| | | | | | | | | |k1 w []|k1 w []| | |]; simplify_eq/=;
          destruct (Z.eqb_spec k k'); simpl; by rewrite ?app_nil_r.
      - rewrite (list_fmap_ext _ (fun _ => []) ks); [clear; by induction ks|].
        intros _ k' _. by destruct e as [| | | | | | | | | |k1 w []|k1 w []| | |]. }
    rewrite Hx. solve_Permutation.
Qed.

Ltac kinds_solve := repeat first [ apply Forall_nil; exact I | apply Forall_cons; split; [reflexivity|] ].

(** What a dispatch loop takes in is what it takes from its queue. *)
Lemma took_resources log :
  Forall (fun e => dispatcher_event e = true) log ->
  all permit_in log = all took log ≫= permits_of /\ all stream_in log = all took log ≫= streams_of.
Proof.
  induction 1 as [|e log He _ [IHp IHs]]; [done|]. rewrite !all_cons, !bind_app, IHp, IHs.
  by destruct e.
Qed.

Lemma permit_out_split e :
  router_event e = true ->
  permit_out e = released e ++ match sent_any e with Some (_, i) => permits_of i | None => [] end.
Proof. by destruct e as [| | | | | | | | | |k w []|k w []| | |]. Qed.

Lemma stream_out_split e :
  router_event e = true ->
  stream_out e = closed e ++ match sent_any e with Some (_, i) => streams_of i | None => [] end.
Proof. by destruct e as [| | | | | | | | | |k w []|k w []| | |]. Qed.

Lemma concat_fmap_perm (f g : Z -> list Z) ks :
  (forall k, f k ≡ₚ g k) -> concat (f <$> ks) ≡ₚ concat (g <$> ks).
Proof. intros Hfg. induction ks as [|k ks IH]; simpl; [done|]. by rewrite Hfg, IH. Qed.

Section Kinds.
Context {W : Type} `{SocketEnv W} `{ListenerEnv W} (le supported : bool).

Lemma router_events fuel l w :
  is_router l = true ->
  Forall (fun e => router_event e = true) (log (run_listener le supported fuel l) w).
Proof.
  intros Hl. destruct l; try discriminate Hl;
    refine (run_loop_all (Forall (fun e => router_event e = true)) fuel _ _ _ _ _ w);
    try (by apply Forall_nil); try (by intros; apply Forall_app);
    intros b0; iter_unfold; iter_run; kinds_solve.
Qed.

Lemma dispatcher_events fuel l w :
  is_dispatcher l = true ->
  Forall (fun e => dispatcher_event e = true) (log (run_listener le supported fuel l) w).
Proof.
  intros Hl. destruct l; try discriminate Hl;
    refine (run_loop_all (Forall (fun e => dispatcher_event e = true)) fuel _ _ _ _ _ w);
    try (by apply Forall_nil); try (by intros; apply Forall_app);
    intros b0; iter_unfold; iter_run; kinds_solve.
Qed.
End Kinds.

Section Range.
Context {W : Type} `{SocketEnv W} `{ListenerEnv W} (le supported : bool).

(** Only TCP loops queue connections, only UDP loops datagrams. *)
Definition router_sends (l : listener_loop) (e : event) : bool :=
  match l, e with
  | SimulatedTcp _ _ _ _ _, SentUdp _ _ _ => false
  | (SimulatedUdp _ _ _ _ _ | QuicRouted _ _ _ _), SentTcp _ _ _ => false
  | _, _ => true
  end.

Lemma router_sends_kind fuel l w :
  is_router l = true ->
  Forall (fun e => router_sends l e = true) (log (run_listener le supported fuel l) w).
Proof.
  intros Hl. destruct l as [|s n senders limits tr| | |s n senders limits| | |s n addr senders limits|];
    try discriminate Hl.
  - refine (run_loop_all (Forall (fun e => router_sends (SimulatedUdp s n senders limits tr) e = true))
      fuel _ _ _ _ _ w); [by apply Forall_nil|by intros; apply Forall_app|].
    intros b0; iter_unfold; iter_run; kinds_solve.
  - refine (run_loop_all (Forall (fun e => router_sends (QuicRouted s n senders limits) e = true))
      fuel _ _ _ _ _ w); [by apply Forall_nil|by intros; apply Forall_app|].
    intros b0; iter_unfold; iter_run; kinds_solve.
  - refine (run_loop_all (Forall (fun e => router_sends (SimulatedTcp s n addr senders limits) e = true))
      fuel _ _ _ _ _ w); [by apply Forall_nil|by intros; apply Forall_app|].
    intros b0; iter_unfold; iter_run; kinds_solve.
Qed.

(** Every item goes into the channel of a worker that exists. *)
Lemma sent_in_range fuel l w e c i :
  is_router l = true -> 0 <= worker_count_of l ->
  e ∈ log (run_listener le supported fuel l) w -> sent_any e = Some (c, i) ->
  exists k, 0 <= k < worker_count_of l /\ get (senders_of l) k = Some c.
Proof.
  intros Hl Hn Hin Hs. pose proof (run_listener_routed le supported fuel l w) as Hr.
  pose proof (router_sends_kind fuel l w Hl) as Hk.
  unfold all_routed in Hr. rewrite Forall_forall in Hr, Hk. specialize (Hk e Hin). specialize (Hr e Hin).
  destruct l; try discriminate Hl;
    cbn [routed_right router_sends worker_count_of senders_of] in *;
    destruct e as [| | | | | | | | | |c1 w1 []|c1 w1 []| | |]; try discriminate;
    injection Hs as <- <-.
  - destruct Hr as (k & limit & Hs & Hg & _). exists k. split; [exact (select_range _ _ _ Hn Hs)|done].
  - destruct Hr as (k & limit & Hs & Hg & _). exists k. split; [exact (quic_index_range _ _ _ Hn Hs)|done].
  - destruct Hr as (k & limit & peer & Hs & Hg & _). exists k.
    split; [exact (tcp_select_range _ _ _ Hn Hs)|done].
Qed.

(** ** Why a routing loop ends *)

(** One queue and one limit per worker, as serve makes them; [route_packet] names
    workers that exist. *)
Definition well_sized (l : listener_loop) : Prop :=
  match l with
  | SimulatedUdp _ n senders limits _ | QuicRouted _ n senders limits
  | SimulatedTcp _ n _ senders limits => 0 < n /\ len senders = n /\ len limits = n
  | SocketOnly _ _ n route senders _ =>
      0 < n /\ len senders = n /\ forall p m k, route p m n = Some k -> 0 <= k < n
  | _ => False
  end.

Definition end_reason (l : listener_loop) (e : event) : bool :=
  match e with
  | Checked false | SentUdp _ _ false | SentTcp _ _ false | SentRouted _ _ false => true
  | RecvFailed => match l with SimulatedTcp _ _ _ _ _ => true | _ => false end
  | _ => false
  end.

Definition ends_for_reason (l : listener_loop) (log : list event) : Prop :=
  existsb (end_reason l) log = true.

Lemma get_None_range {A} (l : list A) n k : len l = n -> 0 <= k < n -> get l k = None -> False.
Proof. intros <- Hk. destruct (get_in_range l k Hk) as [x ->]. done. Qed.

Ltac ends_solve :=
  simpl; try match goal with |- context [is_ok ?r] => is_var r; destruct r end; simpl;
  try match goal with |- context [if ?b then Continue _ else Break] => destruct b end; simpl;
  try exact I; try reflexivity;
  exfalso;
  match goal with
  | Hs : linux_reuseport_select ?m ?n = Err _, Hpos : 0 < ?n |- _ =>
      destruct (select_ok m n Hpos) as (? & ? & _); congruence
  | Hs : select_simulated_tcp_worker ?m ?n = Err _, Hpos : 0 < ?n |- _ =>
      destruct (tcp_select_ok m n Hpos); congruence
  | Hg : get _ _ = None |- _ =>
      refine (get_None_range _ _ _ _ _ Hg); [eassumption|];
      first [ eapply select_range; [|eassumption]; lia
            | eapply quic_index_range; [|eassumption]; lia
            | eapply tcp_select_range; [|eassumption]; lia
            | eauto ]
  end.

Lemma ends_iterations l :
  well_sized l ->
  match l with
  | SimulatedUdp s n senders limits tr =>
      forall b, wp (simulated_udp_iteration le supported s n senders limits tr b)
        (fun c log => match c with Continue _ => True | Break => ends_for_reason l log end)
  | QuicRouted s n senders limits =>
      forall b, wp (quic_routed_iteration s n senders limits b)
        (fun c log => match c with Continue _ => True | Break => ends_for_reason l log end)
  | SocketOnly s f n route senders tr =>
      forall b, wp (socket_only_iteration le supported s f n route senders tr b)
        (fun c log => match c with Continue _ => True | Break => ends_for_reason l log end)
  | SimulatedTcp s n addr senders limits =>
      forall u, wp (simulated_tcp_iteration s n addr senders limits u)
        (fun c log => match c with Continue _ => True | Break => ends_for_reason l log end)
  | _ => False
  end.
Proof.
  intros Hw. destruct l; try exact Hw; destruct Hw as (Hpos & Hs & Hw);
    intros b0; iter_unfold; iter_run; ends_solve.
Qed.

Lemma run_loop_end {S} (Stop : list event -> Prop) fuel (body : S -> prog W event (ctl S)) s :
  (forall l1 l2, Stop l2 -> Stop (l1 ++ l2)) ->
  (forall s, wp (body s) (fun c l => match c with Continue _ => True | Break => Stop l end)) ->
  wp (run_loop fuel body s) (fun finished l => finished = true -> Stop l).
Proof.
  intros Happ Hbody. revert s. induction fuel as [|fuel IH]; intros s; simpl; [by apply wp_ret|].
  apply wp_bind. eapply wp_mono; [apply Hbody|]. intros [s'|] l Hl.
  - eapply wp_mono; [apply IH|]. auto.
  - apply wp_ret. by rewrite app_nil_r.
Qed.
End Range.

(** ** Properties *)

Section Claims.
Context {W : Type} `{SocketEnv W} `{ListenerEnv W} (le supported : bool).

(** A routing loop [l] and the workers' dispatch loops [d], each in its own world and
    for as many iterations as it has done so far.  The router's senders are those of the
    workers' channels, in order, and no two loops share a receiver, which Rust's
    channels do not let them. *)
Record composed (l : listener_loop) (fuel : nat) (w : W) (d : Z -> listener_loop)
    (fuels : Z -> nat) (ws : Z -> W) (tr : trace) : Prop := {
  composed_senders : senders_of l = (fun k => receiver_of (d k)) <$> seqZ 0 (worker_count_of l);
  composed_own : forall k k', receiver_of (d k) = receiver_of (d k') -> k = k';
  composed_router : proj Router tr = log (run_listener le supported fuel l) w;
  composed_worker : forall k, proj (Worker k) tr = log (run_listener le supported (fuels k) (d k)) (ws k);
}.

Lemma composed_channel l fuel w d fuels ws tr k :
  composed l fuel w d fuels ws tr -> channel_only_of l k (receiver_of (d k)).
Proof.
  intros [Hs Ho _ _] k' Hk' Hg. unfold get in Hg. rewrite Hs, list_lookup_fmap, lookup_seqZ_lt in Hg by lia.
  apply Ho. injection Hg as <-. do 2 f_equal. lia.
Qed.

(** C12: End to end, the userspace substitute delivers in order and at most once.  In
    any interleaving of a routing loop with the workers' dispatch loops over bounded
    channels, one per worker, what worker [k] has handled, then at most one item it
    holds when its loop has ended, then what waits in its channel, is a subsequence of
    what was received and routed to [k] -- the same payloads and connections, in the
    order of arrival -- and no channel exceeds its capacity. *)
Theorem pipeline_delivers l fuel w d fuels ws tr capacity q k :
  is_router l = true -> 0 <= worker_count_of l -> (forall k, is_dispatcher (d k) = true) ->
  composed l fuel w d fuels ws tr ->
  channel_run capacity (fun k => receiver_of (d k)) empty_queues tr q ->
  exists held, (length held <= 1)%nat /\
    (value (run_listener le supported (fuels k) (d k)) (ws k) = false -> held = []) /\
    (datum_of <$> all handled (proj (Worker k) tr) ++ held ++ q (receiver_of (d k)))
      `sublist_of` all (routed_to l k) (proj Router tr) /\
    (length (q (receiver_of (d k))) <= capacity)%nat.
Proof.
  intros Hl Hn Hd Hcomp Hc. pose proof (composed_channel _ _ _ _ _ _ _ k Hcomp) as Ho.
  destruct Hcomp as [_ Hown Hr Hw]. pose proof (channel_run_fifo _ _ _ _ _ Hown Hc k) as Hf. simpl in Hf.
  destruct (dispatcher_handles le supported (fuels k) (d k) (ws k) (Hd k)) as (held & Hh & Ht & Hne).
  exists held. split_and!; [done|done| |].
  - rewrite Hw in Hf |- *. rewrite Ht, <- (assoc_L (++)) in Hf. rewrite <- Hf, Hr.
    by apply (router_queues le supported).
  - eapply channel_run_bounded; [exact Hc|]. simpl. lia.
Qed.

(** C13: End to end, permits and connections are conserved.  Every permit the routing
    loop took from a worker's limit is, exactly once, released, owned by a handler
    that was started, or waiting in a worker's channel; every accepted connection is
    closed, owned by a handler, or waiting. *)
Theorem pipeline_conserves l fuel w d fuels ws tr capacity q :
  is_router l = true -> 0 <= worker_count_of l -> (forall k, is_dispatcher (d k) = true) ->
  composed l fuel w d fuels ws tr ->
  channel_run capacity (fun k => receiver_of (d k)) empty_queues tr q ->
  let workers := seqZ 0 (worker_count_of l) in
  all permit_in (proj Router tr) ≡ₚ all released (proj Router tr) ++
    concat ((fun k => all permit_out (proj (Worker k) tr) ++ (q (receiver_of (d k)) ≫= permits_of)) <$> workers) /\
  all stream_in (proj Router tr) ≡ₚ all closed (proj Router tr) ++
    concat ((fun k => all stream_out (proj (Worker k) tr) ++ (q (receiver_of (d k)) ≫= streams_of)) <$> workers).
Proof.
  intros Hl Hn Hd [Hsd Hown Hr Hw] Hc workers.
  assert (Hcs : forall e c i, e ∈ proj Router tr -> sent_any e = Some (c, i) -> c ∈ senders_of l).
  { intros e c i Hin Hs. rewrite Hr in Hin.
    destruct (sent_in_range le supported fuel l w e c i Hl Hn Hin Hs) as (k & _ & Hg).
    by apply list_elem_of_lookup_2 in Hg. }
  assert (Hnd : NoDup (senders_of l)).
  { rewrite Hsd. apply NoDup_fmap_2; [intros k k'; apply Hown|apply NoDup_seqZ]. }
  pose proof (router_events le supported fuel l w Hl) as Hev. rewrite <- Hr in Hev.
  destruct (run_listener_sound le supported fuel l w) as [[Hp Hs _ _] _]. rewrite <- Hr in Hp, Hs.
  assert (Hsettle : forall k, all permit_in (proj (Worker k) tr) ≡ₚ all permit_out (proj (Worker k) tr) /\
                              all stream_in (proj (Worker k) tr) ≡ₚ all stream_out (proj (Worker k) tr)).
  { intros k. rewrite Hw. by destruct (run_listener_sound le supported (fuels k) (d k) (ws k)) as [[] _]. }
  assert (Htook : forall k, all permit_in (proj (Worker k) tr) = all took (proj (Worker k) tr) ≫= permits_of /\
                            all stream_in (proj (Worker k) tr) = all took (proj (Worker k) tr) ≫= streams_of).
  { intros k. rewrite Hw.
    pose proof (dispatcher_events le supported (fuels k) (d k) (ws k) (Hd k)) as Hde.
    by apply took_resources. }
  split.
  - rewrite Hp, (router_gives permit_out released permits_of (senders_of l)) by
      (first [done | apply permit_out_split]).
    apply Permutation_app; [done|]. rewrite Hsd, <- list_fmap_compose. apply concat_fmap_perm. intros k.
    unfold compose. pose proof (channel_run_fifo _ _ _ _ _ Hown Hc k) as Hf. simpl in Hf.
    rewrite Hf, bind_app. apply Permutation_app; [|done].
    destruct (Htook k) as [<- _]. apply Hsettle.
  - rewrite Hs, (router_gives stream_out closed streams_of (senders_of l)) by
      (first [done | apply stream_out_split]).
    apply Permutation_app; [done|]. rewrite Hsd, <- list_fmap_compose. apply concat_fmap_perm. intros k.
    unfold compose. pose proof (channel_run_fifo _ _ _ _ _ Hown Hc k) as Hf. simpl in Hf.
    rewrite Hf, bind_app. apply Permutation_app; [|done].
    destruct (Htook k) as [_ <-]. apply Hsettle.
Qed.

(** C14: A routing loop never indexes past the workers.  With one queue and one limit per
    worker, which is how serve builds them, a routing loop sends only to workers that
    exist, and it ends only because it saw an inactive server, a worker refused the
    item, or (TCP) accepting failed. *)
Theorem routing_loops_in_bounds l fuel w :
  well_sized l ->
  let log := log (run_listener le supported fuel l) w in
  (forall e c i, e ∈ log -> sent_any e = Some (c, i) -> is_router l = true ->
     exists k, 0 <= k < worker_count_of l /\ get (senders_of l) k = Some c) /\
  (value (run_listener le supported fuel l) w = true -> existsb (end_reason l) log = true).
Proof.
  intros Hw. simpl. split.
  - intros e c i Hin Hs Hl. eapply sent_in_range; try done.
    destruct l; try done; simpl in *; lia.
  - pose proof (ends_iterations le supported l Hw) as Hi.
    assert (Happ : forall l1 l2, ends_for_reason l l2 -> ends_for_reason l (l1 ++ l2)).
    { unfold ends_for_reason. intros l1 l2 Hl. by rewrite existsb_app, Hl, orb_true_r. }
    destruct l; try done; exact (run_loop_end _ fuel _ _ Happ Hi w).
Qed.
End Claims.

(** ** A concrete run: one datagram, two workers *)

(** The flags are set for the first questions; a datagram is always waiting; the own
    queue holds the given items. *)
#[local] Instance demo_sockets : SocketEnv (Z * list UdpWorkItem) := {|
  rt_recv_from _ _ w := ((Ok (3, SocketAddrV4 [10; 0; 0; 9] 700), [0x40; 0; 1; 0]), w);
  rt_poll_recv_from _ b w := ((Pending, b), w);
  rt_send_to _ b _ w := (Ok (len b), w);
  rt_try_send_to _ b _ w := (Ok (len b), w);
  rt_poll_send_ready _ w := (Ready (Ok ()), w);
  rt_local_addr _ w := (Ok (SocketAddrV4 [0; 0; 0; 0] 53), w);
  std_send_to _ b _ w := (Ok (len b), w);
  channel_recv _ w := (None, w);
  channel_poll_recv _ w := (Pending, w);
  libc_recvmsg _ _ w := (Err (Io.mkError Io.WouldBlock EmptyString), w);
|}.

#[local] Instance demo_env : ListenerEnv (Z * list UdpWorkItem) := {|
  env_runtime_active w := (0 <? w.1, (w.1 - 1, w.2));
  env_server_active w := (0 <? w.1, (w.1 - 1, w.2));
  env_acquire _ w := (7, w);
  env_try_acquire _ w := (Some 7, w);
  env_release _ w := ((), w);
  env_accept _ w := (Ok (9, SocketAddrV4 [10; 0; 0; 9] 700), w);
  env_close_stream _ w := ((), w);
  env_spawn_udp _ _ w := (Ok (), w);
  env_spawn_tcp _ _ w := (Ok (), w);
  env_send_udp _ _ w := (Ok (), w);
  env_send_tcp _ _ w := (Ok (), w);
  env_send_routed _ _ w := (Ok (), w);
  env_recv_udp _ w := match w.2 with i :: l => (Some i, (w.1, l)) | [] => (None, w) end;
  env_recv_tcp _ w := (None, w);
|}.

Definition demo_router : listener_loop := QuicRouted (RuntimeSocket 3) 2 [10; 11] [20; 21].
Definition demo_dispatcher (k : Z) : listener_loop := UdpDispatch (10 + k) k.
Definition demo_item : UdpWorkItem :=
  mkUdpWork (RuntimeSocket 3)
    (mkMeta (Some (SocketAddrV4 [10; 0; 0; 9] 700)) (Some (SocketAddrV4 [0; 0; 0; 0] 53)))
    [0x40; 0; 1] 7.
Definition demo_fuels (k : Z) : nat := if k =? 1 then 1 else 0.
Definition demo_world (k : Z) : Z * list UdpWorkItem := (9, [demo_item]).

(** The router queues the datagram for worker 1, which starts a handler. *)
Definition demo_trace : trace :=
  [(Router, Checked true);
   (Router, Got [0x40; 0; 1] (mkMeta (Some (SocketAddrV4 [10; 0; 0; 9] 700)) None));
   (Router, Checked true); (Router, Acquired 21 7); (Worker 1, Checked true);
   (Router, SentUdp 11 demo_item true);
   (Worker 1, TookUdp demo_item); (Worker 1, Checked true); (Worker 1, SpawnedUdp 1 demo_item true)].

Lemma demo_composed :
  composed true false demo_router 1 (9, []) demo_dispatcher demo_fuels demo_world demo_trace.
Proof.
  split; [reflexivity|simpl; lia|vm_compute; reflexivity|]. intros k. destruct (decide (k = 1)) as [->|Hk].
  - vm_compute. reflexivity.
  - unfold demo_fuels. rewrite (proj2 (Z.eqb_neq k 1) Hk). unfold demo_trace.
    rewrite !proj_cons, !(decide_False (P := Worker 1 = Worker k)) by congruence. done.
Qed.

Lemma demo_channel : channel_run 4 (fun k => receiver_of (demo_dispatcher k)) empty_queues demo_trace
  (set_queue 11 [] (set_queue 11 [UdpItem demo_item] empty_queues)).
Proof.
  do 5 (eapply run_cons; [by (apply step_router || apply step_worker)|]).
  eapply run_cons; [apply (step_sent 4 _ _ _ 11 (UdpItem demo_item)); [done|simpl; lia]|].
  eapply run_cons; [by apply (step_took 4 _ _ _ 1 (UdpItem demo_item) [])|].
  do 2 (eapply run_cons; [by apply step_worker|]). apply run_nil.
Qed.

Lemma pipeline_delivers_witness :
  exists held, [Dgram [0x40; 0; 1] (Some (SocketAddrV4 [10; 0; 0; 9] 700))] ++ held
    `sublist_of` all (routed_to demo_router 1) (proj Router demo_trace).
Proof.
  destruct (pipeline_delivers true false demo_router 1 (9, []) demo_dispatcher demo_fuels demo_world
    demo_trace 4 _ 1 eq_refl ltac:(simpl; lia) (fun _ => eq_refl) demo_composed demo_channel) as (held & _ & _ & Hs & _).
  exists (datum_of <$> held). revert Hs. rewrite !fmap_app, app_nil_r. intros Hs. exact Hs.
Defined.

Lemma pipeline_conserves_witness :
  all permit_in (proj Router demo_trace) ≡ₚ all released (proj Router demo_trace) ++ [7].
Proof.
  destruct (pipeline_conserves true false demo_router 1 (9, []) demo_dispatcher demo_fuels demo_world
    demo_trace 4 _ eq_refl ltac:(simpl; lia) (fun _ => eq_refl) demo_composed demo_channel) as [Hp _].
  exact Hp.
Defined.

Lemma routing_loops_in_bounds_witness :
  value (run_listener true false 9 demo_router) (2, []) = true /\
  existsb (end_reason demo_router) (log (run_listener true false 9 demo_router) (2, [])) = true.
Proof.
  split; [vm_compute; reflexivity|].
  apply (routing_loops_in_bounds true false demo_router 9 (2, [])); [split; [|split]; vm_compute; reflexivity|].
  vm_compute. reflexivity.
Defined.
