(* ===== verification/UnitTests.v ===== *)
(** * The crate's own unit tests, on the model

    The assertions of the [#[cfg(test)]] modules of src/src/core/quic.rs, schedule.rs,
    udp.rs and platform/linux.rs, with the same inputs, evaluated on the definitions of
    this development. *)

From S2P Require Import Prelude Errors Net Schedule Quic Bpf Recv Selector.

(** [core/quic.rs] *)
Example quic_long_header_uses_two_byte_worker_index_prefix :
  quic_worker_index [0xe0; 0; 0; 0; 1; 4; 0; 2; 9; 9] 4 = Some 2.
Proof. reflexivity. Qed.

Example quic_long_header_uses_full_16_bit_worker_index_prefix :
  quic_worker_index [0xe0; 0; 0; 0; 1; 4; 0x01; 0x03; 9; 9] 4 = Some 3.
Proof. reflexivity. Qed.

Example quic_initial_uses_two_byte_worker_index_prefix :
  quic_worker_index [0xc0; 0; 0; 0; 1; 8; 0; 2; 6; 5; 4; 3; 2; 1] 4 = Some 2.
Proof. reflexivity. Qed.

Example quic_zero_rtt_uses_two_byte_worker_index_prefix :
  quic_worker_index [0xd0; 0; 0; 0; 1; 8; 0; 3; 5; 7; 9; 11; 13; 15] 4 = Some 3.
Proof. reflexivity. Qed.

Example quic_short_header_uses_two_byte_worker_index_prefix :
  quic_worker_index [0x40; 0; 3; 2; 3] 4 = Some 3.
Proof. reflexivity. Qed.

Example quic_short_header_uses_full_16_bit_worker_index_prefix :
  quic_worker_index [0x40; 0x01; 0x03; 2; 3] 4 = Some 3.
Proof. reflexivity. Qed.

Example quic_route_key_rejects_empty_or_truncated_dcid :
  Forall (fun p => quic_worker_index p 4 = None)
    [[]; [0xc0; 0; 0; 0; 1; 0]; [0xc0; 0; 0; 0; 1; 1; 1]; [0xc0; 0; 0; 0; 1; 4; 1];
     [0xc0; 0; 0; 0; 1; 8; 1; 2; 3; 4; 5; 6; 7]; [0x40]; [0x40; 0x80]].
Proof. repeat constructor. Qed.

Example quic_reuseport_bpf_path_trusts_kernel_worker_selection :
  quic_worker_index [0xe0; 0; 0; 0; 1; 4; 0; 2; 9; 9] 4 = Some 2 /\
  quic_reuseport_bpf_accepts_packet [0xe0; 0; 0; 0; 1; 4; 0; 2; 9; 9] 4 = true.
Proof. split; reflexivity. Qed.

(** [core/schedule.rs] *)
Example linux_reuseport_select_is_stable_for_fixed_metadata :
  linux_reuseport_select (mkMeta (Some (SocketAddrV4 [127; 0; 0; 1] 55000))
                                 (Some (SocketAddrV4 [127; 0; 0; 1] 4433))) 4 = Ok 1.
Proof. vm_compute. reflexivity. Qed.

Example linux_reuseport_select_rejects_zero_workers :
  exists message, linux_reuseport_select (mkMeta None None) 0 = Err (InvalidConfig message).
Proof. by eexists. Qed.

(** [core/udp.rs] *)
Example routed_socket_quinn_poll_recv_vectored_scatters_datagram :
  scatter_datagram [97; 98; 99; 100; 101; 102] [[0; 0]; [0; 0; 0; 0]] = [[97; 98]; [99; 100; 101; 102]].
Proof. reflexivity. Qed.

(** [platform/linux.rs] *)
Example quic_reuseport_cbpf_instruction_shape_is_covered :
  let filter := Cbpf.quic_reuseport_cbpf 4 in
  length filter = 7%nat /\
  filter !! 0%nat = Some (Cbpf.sock_filter (Z.lor (Z.lor 0x00 0x10) 0x20) 0 0 0) /\
  filter !! 1%nat = Some (Cbpf.sock_filter (Z.lor (Z.lor 0x05 0x40) 0x00) 0 2 0x80) /\
  filter !! 2%nat = Some (Cbpf.sock_filter (Z.lor (Z.lor 0x00 0x08) 0x20) 0 0 6) /\
  filter !! 4%nat = Some (Cbpf.sock_filter (Z.lor (Z.lor 0x00 0x08) 0x20) 0 0 1) /\
  filter !! 5%nat = Some (Cbpf.sock_filter (Z.lor (Z.lor 0x04 0x90) 0x00) 0 0 4) /\
  filter !! 6%nat = Some (Cbpf.sock_filter (Z.lor 0x06 0x10) 0 0 0).
Proof. vm_compute. done. Qed.

Example quic_reuseport_ebpf_instruction_shape_is_covered :
  let program := Ebpf.quic_reuseport_ebpf 4 in
  length program = 34%nat /\
  program !! 0%nat = Some (Ebpf.bpf_insn (Z.lor (Z.lor 0x07 0xb0) 0x08) 6 1 0 0) /\
  program !! 8%nat = Some (Ebpf.bpf_insn (Z.lor (Z.lor 0x05 0x10) 0x00) 0 0 14 0) /\
  program !! 17%nat = Some (Ebpf.bpf_insn (Z.lor (Z.lor 0x01 0x10) 0x60) 0 2 6 0) /\
  program !! 21%nat = Some (Ebpf.bpf_insn (Z.lor (Z.lor 0x07 0x90) 0x00) 0 0 0 4) /\
  program !! 26%nat = Some (Ebpf.bpf_insn (Z.lor (Z.lor 0x01 0x10) 0x60) 0 2 1 0) /\
  program !! 30%nat = Some (Ebpf.bpf_insn (Z.lor (Z.lor 0x07 0x90) 0x00) 0 0 0 4) /\
  program !! 33%nat = Some (Ebpf.bpf_insn (Z.lor 0x05 0x90) 0 0 0 0).
Proof. vm_compute. done. Qed.

Example quic_reuseport_probe_uses_fixed_two_byte_selector :
  let packet := quic_reuseport_probe_packet 3 in
  packet !! 0%nat = Some 0xe0 /\ packet !! 5%nat = Some 4 /\
  be16 (default 0 (packet !! 6%nat)) (default 0 (packet !! 7%nat)) mod 4 = 3.
Proof. vm_compute. done. Qed.
