(* ===== verification/Closing.v ===== *)
(** * Closing a running server: [close] of src/src/core/udp.rs and tcp.rs against the loops

    [ServerState] says what one call of [close] does, [Listener] what one loop does in a
    world that clears its flags at will.  Here they run together: the tasks of one
    server, from the registration of their socket to the end of their loop, any
    number of concurrent [close] calls (a server handle can be cloned), and the rest of
    the system, interleaved at every access to shared state.  The shared state is
    the two flags, the socket registries behind their mutexes, the listener
    sockets, the bounded queues between a routing loop and the workers, and the
    permits of the workers.  Payloads and addresses are left to [Listener]; here a
    datagram is an answer a receive can give.

    No code panics while it holds one of these mutexes, so they are not poisoned. *)

From S2P Require Import Prelude.
#[local] Open Scope nat_scope.

(** ** Tasks *)

(** What [serve] submits, for [n] workers: one listener per worker (with native
    balancing); a dispatch loop per worker and, last, one routing loop; or, for
    [serve_socket] without balancing, the user's callbacks and one routing loop. *)
Inductive deployment := NativeUdp | NativeTcp | RoutedUdp | RoutedTcp | RoutedCallbacks.

Inductive kind :=
| Listener       (* udp_listener_loop_with_state, quic_reuseport_bpf_.., tcp_listener_.. *)
| Router         (* simulated_udp_listener_loop, quic_routed_.., simulated_tcp_accept_loop *)
| SocketRouter   (* dispatch_socket_only_packets *)
| Dispatcher     (* udp_state_dispatch_loop, tcp_state_dispatch_loop *)
| Callback.      (* the user's future *)

(** Where a task is: in [register_listener_socket] (its four calls that can fail or
    wait), at the conversion of its socket, or at a point of its loop. *)
Inductive pc :=
| CloneThread | ClonePool | InsertThread | PushPool
| Convert
| Check                    (* the condition of the [while] *)
| Acquire | CheckPermit    (* a native listener: the permit, the check after it *)
| Receive                  (* recv, accept, or the receive from the own queue *)
| CheckError | CheckReceived
| Route | Offer (k : nat)  (* a routing loop: choosing a worker, sending to it *)
| Spawn
| Ended.

(** Where a call of [close] is.  [Pool] is the registry [sockets], [Extra] is
    [close_sockets]. *)
Inductive registry := Pool | Extra.
Inductive close_pc :=
| Store
| Lock (r : registry) | Wake (r : registry) (rest : list nat) | Shut (r : registry)
| ClearThreads | CancelTasks | DropCallbacks
| Returned.

#[export] Instance deployment_eq_dec : EqDecision deployment.
Proof. solve_decision. Defined.
#[export] Instance kind_eq_dec : EqDecision kind.
Proof. solve_decision. Defined.
#[export] Instance pc_eq_dec : EqDecision pc.
Proof. solve_decision. Defined.
#[export] Instance registry_eq_dec : EqDecision registry.
Proof. solve_decision. Defined.
#[export] Instance close_pc_eq_dec : EqDecision close_pc.
Proof. solve_decision. Defined.

(** A socket is numbered by the task that owns it; clones share what they refer to,
    so a registry holds these numbers.  [shut]: [shutdown] was called on it; [inbox]: what the next
    receives on a socket will answer, [true] for a datagram or connection;
    [queues]: the items in the channel of each worker; [handlers]: the handlers
    running on each worker, each with its permit; [started]: handlers started. *)
Record server := mkServer {
  runtime_active : bool;
  server_active : bool;
  sockets : list nat;
  close_sockets : list nat;
  owner : registry -> option nat;
  thread_sockets : gmap nat nat;
  shut : gset nat;
  inbox : list (list bool);
  queues : list nat;
  handlers : list nat;
  started : nat;
  tasks : list pc;
  closers : list close_pc;
  cancelled : bool;
}.

(** The shape of the server: deployment, workers, permits per worker ([None]:
    unlimited), capacity of a queue. *)
Section Server.
Context (d : deployment) (n : nat) (max : option nat) (capacity : nat).

Definition is_tcp : bool := match d with NativeTcp | RoutedTcp => true | _ => false end.

(** The task at a position of [tasks], and its worker. *)
Definition kind_of (i : nat) : kind :=
  match d with
  | NativeUdp | NativeTcp => Listener
  | RoutedUdp | RoutedTcp => if decide (i < n) then Dispatcher else Router
  | RoutedCallbacks => if decide (i < n) then Callback else SocketRouter
  end.
Definition worker_of (i : nat) : nat := if decide (i < n) then i else 0.

Definition task_count : nat := match d with NativeUdp | NativeTcp => n | _ => S n end.

(** Where a submitted task begins. *)
Definition start_pc (i : nat) : pc :=
  match kind_of i with
  | Listener | Router => if is_tcp then Convert else CloneThread
  | SocketRouter => Convert
  | Dispatcher | Callback => Check
  end.

(** A server as [serve] leaves it, with [c] calls of [close] to come. *)
Definition start (c : nat) : server := {|
  runtime_active := true; server_active := true;
  sockets := []; close_sockets := match d with RoutedCallbacks => [n] | _ => [] end;
  owner := fun _ => None;
  thread_sockets := ∅; shut := ∅;
  inbox := replicate task_count [];
  queues := replicate n 0; handlers := replicate n 0; started := 0;
  tasks := start_pc <$> seq 0 task_count;
  closers := replicate c Store;
  cancelled := false;
|}.

(** ** Updates *)

Definition set_pc (i : nat) (p : pc) (s : server) : server :=
  mkServer (runtime_active s) (server_active s) (sockets s) (close_sockets s) (owner s)
    (thread_sockets s) (shut s) (inbox s) (queues s) (handlers s) (started s)
    (<[i := p]> (tasks s)) (closers s) (cancelled s).
Definition set_inbox (i : nat) (l : list bool) (s : server) : server :=
  mkServer (runtime_active s) (server_active s) (sockets s) (close_sockets s) (owner s)
    (thread_sockets s) (shut s) (<[i := l]> (inbox s)) (queues s) (handlers s) (started s)
    (tasks s) (closers s) (cancelled s).
Definition set_queue (k q : nat) (s : server) : server :=
  mkServer (runtime_active s) (server_active s) (sockets s) (close_sockets s) (owner s)
    (thread_sockets s) (shut s) (inbox s) (<[k := q]> (queues s)) (handlers s) (started s)
    (tasks s) (closers s) (cancelled s).
Definition set_handlers (k h : nat) (s : server) : server :=
  mkServer (runtime_active s) (server_active s) (sockets s) (close_sockets s) (owner s)
    (thread_sockets s) (shut s) (inbox s) (queues s) (<[k := h]> (handlers s)) (started s)
    (tasks s) (closers s) (cancelled s).
Definition count_start (s : server) : server :=
  mkServer (runtime_active s) (server_active s) (sockets s) (close_sockets s) (owner s)
    (thread_sockets s) (shut s) (inbox s) (queues s) (handlers s) (S (started s))
    (tasks s) (closers s) (cancelled s).
Definition set_flags (r a : bool) (s : server) : server :=
  mkServer r a (sockets s) (close_sockets s) (owner s)
    (thread_sockets s) (shut s) (inbox s) (queues s) (handlers s) (started s)
    (tasks s) (closers s) (cancelled s).
Definition registered (r : registry) (s : server) : list nat :=
  match r with Pool => sockets s | Extra => close_sockets s end.
Definition set_registered (r : registry) (l : list nat) (s : server) : server :=
  mkServer (runtime_active s) (server_active s)
    (match r with Pool => l | Extra => sockets s end)
    (match r with Pool => close_sockets s | Extra => l end) (owner s)
    (thread_sockets s) (shut s) (inbox s) (queues s) (handlers s) (started s)
    (tasks s) (closers s) (cancelled s).
Definition set_owner (r : registry) (o : option nat) (s : server) : server :=
  mkServer (runtime_active s) (server_active s) (sockets s) (close_sockets s)
    (fun r' => if decide (r' = r) then o else owner s r')
    (thread_sockets s) (shut s) (inbox s) (queues s) (handlers s) (started s)
    (tasks s) (closers s) (cancelled s).
Definition set_threads (m : gmap nat nat) (s : server) : server :=
  mkServer (runtime_active s) (server_active s) (sockets s) (close_sockets s) (owner s)
    m (shut s) (inbox s) (queues s) (handlers s) (started s)
    (tasks s) (closers s) (cancelled s).
Definition add_shut (x : nat) (s : server) : server :=
  mkServer (runtime_active s) (server_active s) (sockets s) (close_sockets s) (owner s)
    (thread_sockets s) ({[x]} ∪ shut s) (inbox s) (queues s) (handlers s) (started s)
    (tasks s) (closers s) (cancelled s).
Definition set_closer (j : nat) (p : close_pc) (s : server) : server :=
  mkServer (runtime_active s) (server_active s) (sockets s) (close_sockets s) (owner s)
    (thread_sockets s) (shut s) (inbox s) (queues s) (handlers s) (started s)
    (tasks s) (<[j := p]> (closers s)) (cancelled s).
Definition set_cancelled (s : server) : server :=
  mkServer (runtime_active s) (server_active s) (sockets s) (close_sockets s) (owner s)
    (thread_sockets s) (shut s) (inbox s) (queues s) (handlers s) (started s)
    (tasks s) (closers s) true.

(** ** Shared state as the tasks see it *)

(** [is_active]: both flags only ever change to [false], so that reading them one
    after the other answers what they were together at one moment. *)
Definition is_active (s : server) : bool := runtime_active s && server_active s.

(** The condition a loop checks. *)
Definition goes_on (i : nat) (s : server) : bool :=
  match kind_of i with
  | Dispatcher | SocketRouter => server_active s
  | _ => is_active s
  end.

Definition queue_of (k : nat) (s : server) : nat := default 0 (queues s !! k).
Definition handlers_of (k : nat) (s : server) : nat := default 0 (handlers s !! k).
Definition inbox_of (i : nat) (s : server) : list bool := default [] (inbox s !! i).

(** A task at [p] that holds a permit of worker [k], itself or inside the item it
    has taken or is about to send. *)
Definition holds (i : nat) (p : pc) (k : nat) : bool :=
  match kind_of i, p with
  | Listener, (CheckPermit | Receive | CheckError | CheckReceived | Spawn) => bool_decide (worker_of i = k)
  | Dispatcher, (CheckReceived | Spawn) => bool_decide (worker_of i = k)
  | Router, Offer k' => bool_decide (k' = k)
  | _, _ => false
  end.

(** The permits of worker [k] in use: by running handlers, by the items in its
    queue, by tasks. *)
Definition in_use (k : nat) (s : server) : nat :=
  handlers_of k s + queue_of k s + length (filter (fun ip => holds ip.1 ip.2 k = true) (imap pair (tasks s))).

Definition free (k : nat) (s : server) : bool :=
  match max with Some m => bool_decide (in_use k s < m) | None => true end.

(** The receiver of worker [k]'s queue exists; its sender, in the routing loop, does. *)
Definition receiver_alive (k : nat) (s : server) : bool :=
  match tasks s !! k with Some Ended => false | Some _ => true | None => false end.
Definition sender_alive (s : server) : bool := receiver_alive n s.

(** A task ends: what it held is dropped, with what its queue still holds. *)
Definition finish (i : nat) (s : server) : server :=
  let s := set_pc i Ended s in
  match kind_of i with Dispatcher | Callback => set_queue i 0 s | _ => s end.

(** ** Steps *)

(** What the rest of the system decides at a step: an answer ([Go] or [Fail]), that a
    datagram is not for this server ([Skip]), the worker chosen, or the socket a wake-up
    datagram arrives at ([To]). *)
Inductive choice := Go | Fail | Skip | To (k : nat).

Definition is_go (c : choice) : bool := match c with Go => true | _ => false end.

(** [register_listener_socket], then the conversion of the socket. *)
Definition register_step (c : choice) (i : nat) (p : pc) (s : server) : option server :=
  match p with
  | CloneThread => Some (if is_go c then set_pc i ClonePool s else finish i s)
  | ClonePool => Some (if is_go c then set_pc i InsertThread s else finish i s)
  | InsertThread => Some (set_pc i PushPool (set_threads (<[worker_of i := i]> (thread_sockets s)) s))
  | PushPool =>
      match owner s Pool with
      | None => Some (set_pc i Convert (set_registered Pool (sockets s ++ [i]) s))
      | Some _ => None
      end
  | Convert => Some (if is_go c then set_pc i Check s else finish i s)
  | _ => None
  end.

(** The answer of a receive or accept: what arrived first, or none yet.  The sockets are
    non-blocking and unconnected, and [shutdown] of an unconnected UDP socket fails with
    ENOTCONN: it answers no receive. *)
Definition receive (i : nat) (s : server) : option (bool * server) :=
  match inbox_of i s with
  | b :: l => Some (b, set_inbox i l s)
  | [] => None
  end.

(** [spawn_udp_handler_with_state], [spawn_tcp_handler_with_state] *)
Definition spawn_step (c : choice) (i : nat) (s : server) : server :=
  if is_go c
  then set_pc i Check (count_start (set_handlers (worker_of i) (S (handlers_of (worker_of i) s)) s))
  else finish i s.

(** [udp_listener_loop_with_state], [quic_reuseport_bpf_listener_loop_with_state] (which
    may skip a datagram) and [tcp_listener_loop_with_state]. *)
Definition listener_step (c : choice) (i : nat) (p : pc) (s : server) : option server :=
  match p with
  | Check => Some (if goes_on i s then set_pc i Acquire s else finish i s)
  | Acquire => if free (worker_of i) s then Some (set_pc i CheckPermit s) else None
  | CheckPermit => Some (if goes_on i s then set_pc i Receive s else finish i s)
  | Receive =>
      match receive i s with
      | Some (true, s) => Some (set_pc i CheckReceived s)
      | Some (false, s) => Some (if is_tcp then finish i s else set_pc i CheckError s)
      | None => None
      end
  | CheckError => Some (if goes_on i s then set_pc i Check s else finish i s)
  | CheckReceived =>
      Some (if goes_on i s
            then match c with Skip => set_pc i (if is_tcp then Spawn else Check) s | _ => set_pc i Spawn s end
            else finish i s)
  | Spawn => Some (spawn_step c i s)
  | _ => register_step c i p s
  end.

(** [simulated_udp_listener_loop], [quic_routed_udp_listener_loop] and
    [simulated_tcp_accept_loop]; [dispatch_socket_only_packets] looks at its flag only
    at the head of the loop and after an error, and takes no permit. *)
Definition router_step (c : choice) (i : nat) (p : pc) (s : server) : option server :=
  match p with
  | Check => Some (if goes_on i s then set_pc i Receive s else finish i s)
  | Receive =>
      match receive i s with
      | Some (true, s) =>
          Some (set_pc i (match kind_of i with SocketRouter => Route | _ => CheckReceived end) s)
      | Some (false, s) => Some (if is_tcp then finish i s else set_pc i CheckError s)
      | None => None
      end
  | CheckError => Some (if goes_on i s then set_pc i Check s else finish i s)
  | CheckReceived => Some (if goes_on i s then set_pc i Route s else finish i s)
  | Route =>
      Some match c with
           | To k =>
               if decide (k < n) then
                 match kind_of i with
                 | SocketRouter => set_pc i (Offer k) s
                 | _ => if free k s then set_pc i (Offer k) s else set_pc i Check s
                 end
               else finish i s
           | Skip => set_pc i Check s
           | _ => finish i s
           end
  | Offer k =>
      if receiver_alive k s then
        if decide (queue_of k s < capacity)
        then Some (set_pc i Check (set_queue k (S (queue_of k s)) s))
        else None
      else Some (finish i s)
  | _ => register_step c i p s
  end.

(** [udp_state_dispatch_loop], [tcp_state_dispatch_loop] *)
Definition dispatch_step (c : choice) (i : nat) (p : pc) (s : server) : option server :=
  match p with
  | Check => Some (if goes_on i s then set_pc i Receive s else finish i s)
  | Receive =>
      match queue_of i s with
      | S q => Some (set_pc i CheckReceived (set_queue i q s))
      | O => if sender_alive s then None else Some (finish i s)
      end
  | CheckReceived => Some (if goes_on i s then set_pc i Spawn s else finish i s)
  | Spawn => Some (spawn_step c i s)
  | _ => None
  end.

Definition task_step (c : choice) (i : nat) (s : server) : option server :=
  match tasks s !! i with
  | None | Some Ended => None
  | Some p =>
      match kind_of i with
      | Listener => listener_step c i p s
      | Router | SocketRouter => router_step c i p s
      | Dispatcher => dispatch_step c i p s
      | Callback => None
      end
  end.

(** [UdpServerState::close], [TcpServerState::close] *)
Definition close_step (c : choice) (j : nat) (s : server) : option server :=
  match closers s !! j with
  | Some Store =>
      Some (set_closer j (if is_tcp then CancelTasks else Lock Pool)
              (set_flags (runtime_active s) false s))
  | Some (Lock r) =>
      match owner s r with
      | None => Some (set_closer j (Wake r (registered r s)) (set_owner r (Some j) s))
      | Some _ => None
      end
  | Some (Wake r []) => Some (set_closer j (Shut r) s)
  | Some (Wake r (_ :: rest)) =>
      let s := set_closer j (Wake r rest) s in
      Some match c with To i => set_inbox i (inbox_of i s ++ [true]) s | _ => s end
  | Some (Shut r) =>
      match registered r s with
      | x :: l => Some (add_shut x (set_registered r l s))
      | [] => Some (set_closer j (match r with Pool => Lock Extra | Extra => ClearThreads end)
                      (set_owner r None s))
      end
  | Some ClearThreads => Some (set_closer j CancelTasks (set_threads ∅ s))
  | Some CancelTasks =>
      Some (set_closer j (if is_tcp then Returned else DropCallbacks) (set_cancelled s))
  | Some DropCallbacks => Some (set_closer j Returned s)
  | Some Returned | None => None
  end.

(** What happens outside: something arrives at a socket, a handler ends, the runtime
    stops, a cancelled task is dropped where it waits, a callback reads or ends. *)
Inductive happening :=
| Arrives (i : nat) (b : bool)
| HandlerEnds (k : nat)
| RuntimeStops
| Dropped (i : nat)
| CallbackReads (k : nat)
| CallbackEnds (k : nat).

Definition suspended (i : nat) (p : pc) : bool :=
  match p with
  | Acquire | Receive | Offer _ => true
  | _ => bool_decide (p = start_pc i)
  end.

Definition happens (h : happening) (s : server) : option server :=
  match h with
  | Arrives i b => Some (set_inbox i (inbox_of i s ++ [b]) s)
  | HandlerEnds k =>
      match handlers_of k s with S h => Some (set_handlers k h s) | O => None end
  | RuntimeStops => Some (set_flags false (server_active s) s)
  | Dropped i =>
      match tasks s !! i with
      | Some p =>
          if suspended i p && (cancelled s || negb (runtime_active s)) &&
             negb (bool_decide (kind_of i = Callback))
          then Some (finish i s) else None
      | None => None
      end
  | CallbackReads k =>
      if decide (kind_of k = Callback) then
        match queue_of k s with S q => Some (set_queue k q s) | O => None end
      else None
  | CallbackEnds k =>
      if decide (kind_of k = Callback) then Some (finish k s) else None
  end.

Inductive action := Task (c : choice) (i : nat) | Close (c : choice) (j : nat) | World (h : happening).

Definition do_action (a : action) (s : server) : option server :=
  match a with
  | Task c i => task_step c i s
  | Close c j => close_step c j s
  | World h => happens h s
  end.

Fixpoint run (l : list action) (s : server) : option server :=
  match l with
  | [] => Some s
  | a :: l => do_action a s ≫= run l
  end.

Lemma run_app l1 l2 s : run (l1 ++ l2) s = run l1 s ≫= run l2.
Proof.
  revert s. induction l1 as [|a l1 IH]; intros s; simpl; [done|]. destruct (do_action a s); simpl; [apply IH|done].
Qed.

Inductive reachable (c : nat) : server -> Prop :=
| reach_start : reachable c (start c)
| reach_step s a s' : reachable c s -> do_action a s = Some s' -> reachable c s'.

Lemma run_reachable c l s s' : reachable c s -> run l s = Some s' -> reachable c s'.
Proof.
  revert s. induction l as [|a l IH]; simpl; intros s Hr Hs; [by simplify_eq|].
  destruct (do_action a s) as [s1|] eqn:E; [|done]. eapply IH; [|exact Hs]. by econstructor.
Qed.

(** ** What a step of a task changes *)

(** The points of a task after its socket is in the registry, and the points of a
    loop after its flags were seen set. *)
Definition pushed (p : pc) : bool :=
  match p with CloneThread | ClonePool | InsertThread | PushPool | Ended => false | _ => true end.
Definition looping (p : pc) : bool := pushed p && negb (bool_decide (p = Convert \/ p = Check)).

(** The points that tasks of each kind go through. *)
Definition legal (i : nat) (p : pc) : bool :=
  match kind_of i, p with
  | _, Ended => true
  | Listener, (CloneThread | ClonePool | InsertThread | PushPool)
  | Router, (CloneThread | ClonePool | InsertThread | PushPool) => negb is_tcp
  | Listener, (Route | Offer _) => false
  | Listener, CheckError | Router, CheckError => negb is_tcp
  | Listener, _ => true
  | Router, (Convert | Check | Receive | CheckReceived | Route) => true
  | SocketRouter, (Convert | Check | Receive | CheckError | Route) => true
  | Router, Offer k | SocketRouter, Offer k => bool_decide (k < n)
  | Dispatcher, (Check | Receive | CheckReceived | Spawn) => true
  | Callback, Check => true
  | _, _ => false
  end.

(** Once the server's flag is cleared, how many steps a task has left at most, and
    how many handlers it can still start. *)
Definition rank (p : pc) : nat :=
  match p with
  | Ended => 0
  | Check | CheckPermit | CheckError | CheckReceived => 1
  | Convert | Acquire | Spawn | Offer _ => 2
  | PushPool | Route => 3
  | InsertThread | Receive => 4
  | ClonePool => 5
  | CloneThread => 6
  end.
Definition pending (p : pc) : nat := match p with Spawn => 1 | _ => 0 end.

(** Whether a task will still enter its socket into the registry. *)
Definition to_push (p : pc) : nat :=
  match p with CloneThread | ClonePool | InsertThread | PushPool => 1 | _ => 0 end.

Record task_effect (i : nat) (p p' : pc) (s s' : server) : Prop := {
  te_tasks : tasks s' = <[i := p']> (tasks s);
  te_server : server_active s' = server_active s;
  te_runtime : runtime_active s' = runtime_active s;
  te_closers : closers s' = closers s;
  te_owner : owner s' = owner s;
  te_shut : shut s' = shut s;
  te_cancelled : cancelled s' = cancelled s;
  te_extra : close_sockets s' = close_sockets s;
  te_pool : sockets s' = sockets s ++ (if decide (p = PushPool) then [i] else []);
  te_to_push : to_push p' + (if decide (p = PushPool) then 1 else 0) <= to_push p;
  te_pushed : pushed p' = true -> pushed p = true \/ p = PushPool;
  te_looping : looping p' = true -> looping p = true \/ goes_on i s = true;
  te_legal : legal i p = true -> legal i p' = true;
  te_receive : goes_on i s = false -> p' <> Receive;
  te_rank : goes_on i s = false -> rank p' < rank p;
  te_started : goes_on i s = false -> started s' + pending p' <= started s + pending p;
}.

Lemma finish_effect i p s : p <> Ended -> p <> PushPool -> task_effect i p Ended s (finish i s).
Proof.
  intros Hp Hq. unfold finish. destruct (kind_of i) eqn:K; split; simpl;
    rewrite ?decide_False, ?app_nil_r by done; try done; try lia;
    first [by intros _; unfold legal; rewrite K|intros _; destruct p; simpl; lia || done].
Qed.

(** Moving on after an update that only touches inboxes, queues and permits. *)
Definition same_shared (s s1 : server) : Prop :=
  tasks s1 = tasks s /\ server_active s1 = server_active s /\ runtime_active s1 = runtime_active s /\
  closers s1 = closers s /\ owner s1 = owner s /\ shut s1 = shut s /\
  close_sockets s1 = close_sockets s /\ sockets s1 = sockets s /\ started s1 = started s /\
  cancelled s1 = cancelled s.

Lemma receive_same i s b s1 : receive i s = Some (b, s1) -> same_shared s s1.
Proof.
  unfold receive. destruct (inbox_of i s); intros; simplify_eq; done.
Qed.

Lemma goes_on_same i s s1 : same_shared s s1 -> goes_on i s1 = goes_on i s.
Proof.
  intros (_ & H1 & H2 & _). unfold goes_on, is_active. by rewrite H1, H2.
Qed.

Lemma effect_after i p p' s s1 s' :
  same_shared s s1 -> task_effect i p p' s1 s' -> task_effect i p p' s s'.
Proof.
  intros Hs []. pose proof (goes_on_same i _ _ Hs) as Hg.
  destruct Hs as (E1 & E2 & E3 & E4 & E5 & E6 & E7 & E8 & E9 & E10).
  rewrite Hg in *. split; congruence || (rewrite <- ?E9; done).
Qed.

(** An edge of the control flow: what [set_pc] needs to be an effect. *)
Lemma set_pc_effect i p p' s :
  p <> PushPool ->
  to_push p' <= to_push p ->
  (pushed p' = true -> pushed p = true) ->
  (looping p' = true -> looping p = true \/ goes_on i s = true) ->
  (legal i p = true -> legal i p' = true) ->
  (goes_on i s = false -> p' <> Receive /\ rank p' < rank p /\ pending p' <= pending p) ->
  task_effect i p p' s (set_pc i p' s).
Proof.
  intros Hp Hto Hpu Hl Hle Hr.
  split; simpl; rewrite ?decide_False, ?app_nil_r, ?Nat.add_0_r by done; try done; auto.
  - intros Hg. by apply Hr.
  - intros Hg. by apply Hr.
  - intros Hg. destruct (Hr Hg) as (_ & _ & ?). lia.
Qed.

(** Solves [exists p', task_effect i p p' s s'] where [s'] is a known edge. *)
Ltac edge K :=
  lazymatch goal with
  | |- exists p', task_effect _ _ p' _ (finish _ _) => eexists; by apply finish_effect
  | |- exists p', task_effect _ _ p' _ (set_pc _ _ _) =>
      eexists; apply set_pc_effect; [done|..]; simpl; unfold legal; rewrite ?K; simpl;
      try done; intros; try (split; [done|split; lia]); try (by rewrite bool_decide_true); auto; congruence
  end.

Lemma register_effect c i p s s' : p <> Ended -> kind_of i <> Dispatcher -> kind_of i <> Callback ->
  register_step c i p s = Some s' -> exists p', task_effect i p p' s s'.
Proof.
  intros Hp Hd Hc. unfold register_step. destruct p; try done; intros E.
  - destruct (is_go c), (kind_of i) eqn:K; simplify_eq; edge K.
  - destruct (is_go c), (kind_of i) eqn:K; simplify_eq; edge K.
  - exists PushPool. simplify_eq. split; simpl; rewrite ?app_nil_r; try done.
    intros. lia.
  - destruct (owner s Pool) eqn:Eo; simplify_eq. exists Convert. split; simpl; try done; auto.
    unfold legal. by destruct (kind_of i).
  - destruct (is_go c), (kind_of i) eqn:K; simplify_eq; edge K.
Qed.

Lemma spawn_effect c i s : exists p', task_effect i Spawn p' s (spawn_step c i s).
Proof.
  unfold spawn_step. destruct (is_go c); [|eexists; by apply finish_effect].
  exists Check. split; simpl; rewrite ?app_nil_r; try done; try (intros; lia).
  unfold legal. by destruct (kind_of i).
Qed.

Lemma listener_effect c i p s s' : p <> Ended -> kind_of i = Listener ->
  listener_step c i p s = Some s' -> exists p', task_effect i p p' s s'.
Proof.
  intros Hp K. destruct p; simpl; try done; intros E;
    try (eapply (register_effect c); [done|by rewrite K..|exact E]).
  - destruct (goes_on i s) eqn:G; simplify_eq; edge K.
  - destruct (free (worker_of i) s); simplify_eq; edge K.
  - destruct (goes_on i s) eqn:G; simplify_eq; edge K.
  - destruct (receive i s) as [[[] s1]|] eqn:R; simplify_eq; apply receive_same in R.
    + assert (exists p', task_effect i Receive p' s1 (set_pc i CheckReceived s1)) as [p' He] by edge K.
      exists p'. by eapply effect_after; [|exact He].
    + destruct is_tcp eqn:T.
      * exists Ended. eapply effect_after; [done|]. by apply finish_effect.
      * assert (exists p', task_effect i Receive p' s1 (set_pc i CheckError s1)) as [p' He].
        { eexists; apply set_pc_effect; [done|..]; simpl; unfold legal; rewrite ?K, ?T; try done;
            auto; intros; (split; [done|split; lia]). }
        exists p'. by eapply effect_after; [|exact He].
  - destruct (goes_on i s) eqn:G; simplify_eq; edge K.
  - destruct (goes_on i s) eqn:G; [|simplify_eq; edge K]. destruct c; try (simplify_eq; edge K).
    destruct is_tcp; simplify_eq; edge K.
  - simplify_eq. apply spawn_effect.
Qed.

Lemma router_effect c i p s s' : p <> Ended -> kind_of i = Router \/ kind_of i = SocketRouter ->
  (legal i p = true) ->
  router_step c i p s = Some s' -> exists p', task_effect i p p' s s'.
Proof.
  intros Hp K Hlegal. destruct p; simpl; try done; intros E;
    try (eapply (register_effect c); [done|destruct K as [K|K]; by rewrite K..|exact E]);
    try (by unfold legal in Hlegal; destruct K as [K|K]; rewrite K in Hlegal).
  - destruct (goes_on i s) eqn:G, K as [K|K]; simplify_eq; edge K.
  - destruct (receive i s) as [[[] s1]|] eqn:R; simplify_eq; apply receive_same in R.
    + destruct K as [K|K]; rewrite K.
      * assert (exists p', task_effect i Receive p' s1 (set_pc i CheckReceived s1)) as [p' He] by edge K.
        exists p'. by eapply effect_after; [|exact He].
      * assert (exists p', task_effect i Receive p' s1 (set_pc i Route s1)) as [p' He] by edge K.
        exists p'. by eapply effect_after; [|exact He].
    + destruct is_tcp eqn:T.
      * exists Ended. eapply effect_after; [done|]. by apply finish_effect.
      * assert (exists p', task_effect i Receive p' s1 (set_pc i CheckError s1)) as [p' He].
        { destruct K as [K|K]; eexists; apply set_pc_effect; [done|..]; simpl; unfold legal;
            rewrite ?K, ?T; try done; auto; intros; (split; [done|split; lia]). }
        exists p'. by eapply effect_after; [|exact He].
  - destruct (goes_on i s) eqn:G, K as [K|K]; simplify_eq; edge K.
  - destruct (goes_on i s) eqn:G, K as [K|K]; simplify_eq; edge K.
  - injection E as <-. destruct c; try (destruct K as [K|K]; edge K). case_decide.
    + destruct K as [K|K]; rewrite K; [destruct (free k s)|]; edge K.
    + destruct K as [K|K]; edge K.
  - destruct (receiver_alive k s); [case_decide|]; simplify_eq; [|destruct K as [K|K]; edge K].
    assert (exists p', task_effect i (Offer k) p' (set_queue k (S (queue_of k s)) s)
      (set_pc i Check (set_queue k (S (queue_of k s)) s))) as [p' He] by (destruct K as [K|K]; edge K).
    exists p'. by eapply effect_after; [|exact He].
Qed.

Lemma dispatch_effect c i p s s' : p <> Ended -> kind_of i = Dispatcher ->
  dispatch_step c i p s = Some s' -> exists p', task_effect i p p' s s'.
Proof.
  intros Hp K. destruct p; simpl; try done; intros E.
  - destruct (goes_on i s) eqn:G; simplify_eq; edge K.
  - destruct (queue_of i s) as [|q]; [destruct (sender_alive s); simplify_eq; edge K|].
    injection E as <-.
    assert (exists p', task_effect i Receive p' (set_queue i q s)
      (set_pc i CheckReceived (set_queue i q s))) as [p' He] by edge K.
    exists p'. by eapply effect_after; [|exact He].
  - destruct (goes_on i s) eqn:G; simplify_eq; edge K.
  - simplify_eq. apply spawn_effect.
Qed.

Lemma task_step_effect c i s s' :
  task_step c i s = Some s' -> (forall p, tasks s !! i = Some p -> legal i p = true) ->
  exists p p', tasks s !! i = Some p /\ p <> Ended /\ task_effect i p p' s s'.
Proof.
  intros E Hl. unfold task_step in E. destruct (tasks s !! i) as [p|] eqn:Hi; [|done].
  specialize (Hl p eq_refl). assert (Hp : p <> Ended) by (by intros ->). exists p.
  assert (exists p', task_effect i p p' s s') as [p' He]; [|eauto].
  destruct (kind_of i) eqn:K, p; try done;
    first [by eapply listener_effect|eapply (router_effect c); eauto; fail|by eapply dispatch_effect].
Qed.

(** ** Invariant *)

(** The registry the socket of a task is entered into. *)
Definition home (i : nat) : option registry :=
  match kind_of i with
  | Listener | Router => if is_tcp then None else Some Pool
  | SocketRouter => Some Extra
  | _ => None
  end.

(** A call of [close] that has emptied registry [r]. *)
Definition past (r : registry) (q : close_pc) : bool :=
  match q, r with
  | (ClearThreads | CancelTasks | DropCallbacks | Returned), _ => true
  | (Lock Extra | Wake Extra _ | Shut Extra), Pool => true
  | _, _ => false
  end.

(** A call of [close] that holds the mutex of [r]. *)
Definition inside (r : registry) (q : close_pc) : bool :=
  match q with Wake r' _ | Shut r' => bool_decide (r' = r) | _ => false end.

Record inv (s : server) : Prop := {
  inv_count : length (tasks s) = task_count;
  inv_legal : forall i p, tasks s !! i = Some p -> legal i p = true;
  inv_flag : forall j q, closers s !! j = Some q -> q <> Store -> server_active s = false;
  (* a socket that was entered is still in its registry, or was shut down *)
  inv_entered : forall i p r, tasks s !! i = Some p -> home i = Some r ->
    r = Extra \/ pushed p = true -> i ∈ registered r s \/ i ∈ shut s;
  (* a loop that saw its flags set and still goes on after the registry was
     emptied has a socket that was shut down *)
  inv_looping : forall i p r j q, tasks s !! i = Some p -> home i = Some r -> looping p = true ->
    closers s !! j = Some q -> past r q = true -> i ∈ shut s;
  (* the owner of a registry's mutex is the call inside its critical section *)
  inv_owner : forall r j,
    owner s r = Some j <-> exists q, closers s !! j = Some q /\ inside r q = true;
}.

Lemma goes_on_server i s : goes_on i s = true -> server_active s = true.
Proof. unfold goes_on, is_active. by destruct (kind_of i), (runtime_active s). Qed.

Lemma past_not_store r q : past r q = true -> q <> Store.
Proof. by intros H ->. Qed.

(** Steps that leave flags, closers and shut-down sockets alone and only add to
    the registries. *)
Lemma inv_tasks s s' :
  inv s -> length (tasks s') = length (tasks s) ->
  server_active s' = server_active s -> closers s' = closers s -> owner s' = owner s ->
  shut s' = shut s -> (forall r, registered r s ⊆ registered r s') ->
  (forall i p', tasks s' !! i = Some p' -> exists p, tasks s !! i = Some p /\
     (legal i p = true -> legal i p' = true) /\
     (pushed p' = true -> pushed p = true \/ i ∈ sockets s') /\
     (looping p' = true -> looping p = true \/ server_active s = true)) ->
  inv s'.
Proof.
  intros [Hn Hl Hf He Hlo Ho] En Ea Ec Eo Es Er Ht.
  split; rewrite ?En, ?Ea, ?Ec, ?Eo, ?Es; try done.
  - intros i p' Hi. destruct (Ht i p' Hi) as (p & Hp & Hle & _). eauto.
  - intros i p' r Hi Hh Hr. destruct (Ht i p' Hi) as (p & Hp & _ & Hpu & _).
    assert (r = Extra \/ pushed p = true \/ i ∈ sockets s' /\ r = Pool) as [H|[H|[H Heq]]].
    { destruct r; [|by left]. destruct Hr as [?|Hr]; [done|]. destruct (Hpu Hr); auto. }
    + destruct (He i p r Hp Hh (or_introl H)); [left; by apply Er|by right].
    + destruct (He i p r Hp Hh (or_intror H)); [left; by apply Er|by right].
    + subst r. by left.
  - intros i p' r j q Hi Hh Hlp Hj Hpa. destruct (Ht i p' Hi) as (p & Hp & _ & _ & Hlo').
    destruct (Hlo' Hlp) as [H|H]; [by eapply Hlo|].
    by rewrite (Hf j q Hj (past_not_store _ _ Hpa)) in H.
Qed.

Lemma inv_task_step c i s s' : inv s -> task_step c i s = Some s' -> inv s'.
Proof.
  intros Hi E. destruct (task_step_effect c i s s' E) as (p & p' & Hp & _ & He).
  { intros p Hp. by eapply inv_legal. }
  destruct He. assert (Hlt : i < length (tasks s)) by (by eapply lookup_lt_Some).
  eapply (inv_tasks s); try done.
  - by rewrite te_tasks0, length_insert.
  - intros []; simpl; [rewrite te_pool0; set_solver|by rewrite te_extra0].
  - intros k q Hk. rewrite te_tasks0 in Hk.
    destruct (decide (i = k)) as [<-|Hne].
    + rewrite list_lookup_insert_eq in Hk by done. simplify_eq. exists p. split; [done|].
      split; [done|]. split.
      * intros Hpu. destruct (te_pushed0 Hpu) as [?| ->]; [by left|right].
        rewrite te_pool0, decide_True by done. set_solver.
      * intros Hlo. destruct (te_looping0 Hlo) as [?|Hg]; [by left|right]. by eapply goes_on_server.
    + rewrite list_lookup_insert_ne in Hk by done. exists q. auto.
Qed.

Lemma inv_finish i s : inv s -> inv (finish i s).
Proof.
  intros Hi.
  assert (E : tasks (finish i s) = <[i := Ended]> (tasks s) /\
    server_active (finish i s) = server_active s /\ closers (finish i s) = closers s /\
    owner (finish i s) = owner s /\ shut (finish i s) = shut s /\
    (forall r, registered r (finish i s) = registered r s)).
  { unfold finish. by destruct (kind_of i). }
  destruct E as (Et & Ea & Ec & Eo & Es & Er).
  eapply (inv_tasks s); try done.
  - by rewrite Et, length_insert.
  - intros r. by rewrite Er.
  - intros k q Hk. rewrite Et in Hk. apply list_lookup_insert_Some in Hk as [(<- & <- & Hlt)|[_ Hk]].
    + destruct (lookup_lt_is_Some_2 _ _ Hlt) as [p Hp]. exists p. split; [done|].
      split; [|done]. intros _. unfold legal. by destruct (kind_of i).
    + exists q. auto.
Qed.

Lemma inv_happens h s s' : inv s -> happens h s = Some s' -> inv s'.
Proof.
  intros Hi. assert (Hsame : forall s', tasks s' = tasks s -> server_active s' = server_active s ->
    closers s' = closers s -> owner s' = owner s -> shut s' = shut s ->
    (forall r, registered r s' = registered r s) -> inv s').
  { intros s1 Et Ea Ec Eo Es Er. eapply (inv_tasks s); try done; [by rewrite Et|intros r; by rewrite Er|].
    intros i p. rewrite Et. intros Hp. exists p. auto. }
  destruct h as [i b|k| |i|k|k]; simpl; intros E.
  - simplify_eq. by apply Hsame.
  - destruct (handlers_of k s); simplify_eq. by apply Hsame.
  - simplify_eq. by apply Hsame.
  - destruct (tasks s !! i) as [p|]; [|done]. case_match; simplify_eq. by apply inv_finish.
  - case_decide; [|done]. destruct (queue_of k s); simplify_eq. by apply Hsame.
  - case_decide; simplify_eq. by apply inv_finish.
Qed.

(** A step of a [close] call: the tasks stay where they are. *)
Lemma inv_closer j q0 q s s' :
  inv s -> closers s !! j = Some q0 -> closers s' = <[j := q]> (closers s) ->
  tasks s' = tasks s -> server_active s' = false ->
  (forall r i, i ∈ registered r s \/ i ∈ shut s -> i ∈ registered r s' \/ i ∈ shut s') ->
  shut s ⊆ shut s' ->
  (forall r, past r q = true -> past r q0 = true \/ registered r s' = [] \/ is_tcp = true) ->
  (forall r, owner s' r = (if decide (inside r q = inside r q0) then owner s r
                           else if inside r q then Some j else None)) ->
  (forall r, inside r q = true -> inside r q0 = false -> owner s r = None) ->
  inv s'.
Proof.
  intros [Hn Hl Hf He Hlo Ho] Hj Ec Et Ea Hreg Hsh Hpast Hown Hfree.
  assert (Hlt : j < length (closers s)) by (by eapply lookup_lt_Some).
  assert (Hj' : closers s' !! j = Some q) by (by rewrite Ec, list_lookup_insert_eq).
  assert (Hk' : forall k, k <> j -> closers s' !! k = closers s !! k).
  { intros k Hk. by rewrite Ec, list_lookup_insert_ne. }
  split; rewrite ?Et, ?Ea; try done.
  - intros i p r Hp Hh Hr. apply Hreg. by eapply He.
  - intros i p r k q' Hp Hh Hlp Hk Hpa. destruct (decide (k = j)) as [->|Hne].
    + rewrite Hj' in Hk. simplify_eq. destruct (Hpast r Hpa) as [H|[H|H]].
      * apply Hsh. by eapply Hlo.
      * assert (Hpu : pushed p = true) by (unfold looping in Hlp; by destruct (pushed p)).
        destruct (Hreg r i (He i p r Hp Hh (or_intror Hpu))) as [Hin|]; [|done].
        rewrite H in Hin. by apply elem_of_nil in Hin.
      * unfold home, kind_of, is_tcp in *. destruct d; try done; by repeat case_decide.
    + rewrite Hk' in Hk by done. apply Hsh. by eapply Hlo.
  - intros r k. rewrite Hown.
    assert (Hoj : owner s r = Some j <-> inside r q0 = true).
    { rewrite Ho, Hj. split; [by intros (? & [= <-] & ?)|eauto]. }
    destruct (decide (k = j)) as [->|Hne].
    + transitivity (inside r q = true); [|rewrite Hj'; split; [eauto|by intros (? & [= <-] & ?)]].
      case_decide as Hd; [by rewrite Hd|]. by destruct (inside r q).
    + rewrite Hk' by done. case_decide as Hd; [apply Ho|]. rewrite <- Ho.
      split; [destruct (inside r q); congruence|]. intros Hin. exfalso.
      destruct (inside r q) eqn:I, (inside r q0) eqn:I0; try done.
      * by rewrite (Hfree r I I0) in Hin.
      * rewrite (proj2 Hoj eq_refl) in Hin. congruence.
Qed.

Ltac closer Hf :=
  simpl; try done; try (by eapply Hf); intros;
  repeat match goal with r : registry |- _ => destruct r end;
  simpl in *; try done; auto; try congruence; try (by destruct is_tcp); try (destruct is_tcp; by auto).

Lemma inv_close_step c j s s' : inv s -> close_step c j s = Some s' -> inv s'.
Proof.
  intros Hi E. pose proof Hi as [_ _ Hf _ _ Ho]. unfold close_step in E.
  destruct (closers s !! j) as [q0|] eqn:Hj; [|done].
  destruct q0 as [|r|r [|x rest]|r| | | |]; simplify_eq.
  - eapply (inv_closer j Store (if is_tcp then CancelTasks else Lock Pool) s); closer Hf.
  - destruct (owner s r) eqn:Eo; simplify_eq.
    eapply (inv_closer j (Lock r) (Wake r (registered r s)) s); closer Hf.
  - eapply (inv_closer j (Wake r []) (Shut r) s); closer Hf.
  - eapply (inv_closer j (Wake r (x :: rest)) (Wake r rest) s); destruct c; closer Hf.
  - destruct (registered r s) as [|x l] eqn:El; simplify_eq.
    + eapply (inv_closer j (Shut r) (match r with Pool => Lock Extra | Extra => ClearThreads end) s);
        closer Hf.
    + apply (inv_closer j (Shut r) (Shut r) s); try done.
      * simpl. by rewrite list_insert_id.
      * by eapply Hf.
      * intros r' i [Hin|Hin]; [|by right; apply elem_of_union_r].
        destruct (decide (r' = r)) as [->|Hne]; [|left; by destruct r, r'].
        rewrite El, elem_of_cons in Hin. destruct Hin as [->|Hin].
        -- right. by apply elem_of_union_l, elem_of_singleton.
        -- left. by destruct r.
      * simpl. apply union_subseteq_r.
      * auto.
      * intros r'. by rewrite decide_True.
      * congruence.
  - eapply (inv_closer j ClearThreads CancelTasks s); closer Hf.
  - eapply (inv_closer j CancelTasks (if is_tcp then Returned else DropCallbacks) s); closer Hf.
  - eapply (inv_closer j DropCallbacks Returned s); closer Hf.
Qed.

Lemma inv_start c : inv (start c).
Proof.
  split; simpl.
  - by rewrite length_fmap, length_seq.
  - intros i p. rewrite list_lookup_fmap. destruct (seq 0 task_count !! i) eqn:E; [|done].
    apply lookup_seq in E as [-> _]. simpl. intros [= <-].
    unfold start_pc, legal, kind_of, is_tcp. destruct d; try done; by case_decide.
  - intros j q Hq%lookup_replicate_1. by destruct Hq as [-> _].
  - intros i p r. rewrite list_lookup_fmap. destruct (seq 0 task_count !! i) eqn:E; [|done].
    apply lookup_seq in E as [-> Hlt]. simpl. intros [= <-].
    unfold start_pc, home, kind_of, is_tcp, task_count, registered, start in *. simpl.
    destruct d; try done; try case_decide; try done.
    + intros [= <-] [?|?]; done.
    + intros [= <-] [?|?]; done.
    + intros [= <-] _. left. assert (i = n) as -> by lia. by apply list_elem_of_singleton.
  - intros i p r j q _ _ _ Hq%lookup_replicate_1. by destruct Hq as [-> _], r.
  - intros r j. split; [done|]. intros (q & Hq%lookup_replicate_1 & Hin). by destruct Hq as [-> _].
Qed.

Lemma action_inv a s s' : inv s -> do_action a s = Some s' -> inv s'.
Proof. destruct a; [apply inv_task_step|apply inv_close_step|apply inv_happens]. Qed.

Lemma reachable_inv c s : reachable c s -> inv s.
Proof. induction 1; [apply inv_start|by eapply action_inv]. Qed.

(** ** Nobody can move *)

(** No task and no [close] call has a step left. *)
Definition quiet (s : server) : Prop :=
  (forall c i, task_step c i s = None) /\ (forall c j, close_step c j s = None).

Lemma quiet_owner s r : inv s -> quiet s -> owner s r = None.
Proof.
  intros Hi [_ Hq]. destruct (owner s r) as [j|] eqn:Ho; [|done]. exfalso.
  apply (inv_owner s Hi) in Ho as (q & Hj & Hin). specialize (Hq Go j).
  unfold close_step in Hq. rewrite Hj in Hq. destruct q as [|r'|r' [|x rest]|r'| | | |]; try done.
  by destruct (registered r' s).
Qed.

Lemma receive_waits i s : receive i s = None -> inbox_of i s = [].
Proof. unfold receive. by destruct (inbox_of i s). Qed.

(** A [close] call that has returned woke and shut down the socket of every loop that
    still goes on. *)
Lemma closed_sockets_are_shut s i p r :
  inv s -> Returned ∈ closers s -> tasks s !! i = Some p -> looping p = true -> home i = Some r ->
  i ∈ shut s.
Proof.
  intros Hi [j Hj]%list_elem_of_lookup Hp Hl Hh.
  by eapply (inv_looping s Hi i p r j).
Qed.

Lemma quiet_register s i p : inv s -> quiet s ->
  match p with CloneThread | ClonePool | InsertThread | PushPool | Convert => True | _ => False end ->
  register_step Go i p s <> None.
Proof.
  intros Hi Hq. pose proof (quiet_owner s Pool Hi Hq) as Ho. destruct p; simpl; try done.
  by rewrite Ho.
Qed.

Lemma quiet_listener s i p : inv s -> quiet s -> Returned ∈ closers s ->
  tasks s !! i = Some p -> kind_of i = Listener ->
  p = Ended \/ (p = Acquire /\ free (worker_of i) s = false) \/
  (p = Receive /\ inbox_of i s = []).
Proof.
  intros Hi Hq Hr Hp K. pose proof (proj1 Hq Go i) as Hs. unfold task_step in Hs. rewrite Hp, K in Hs.
  pose proof (inv_legal s Hi i p Hp) as Hl. unfold legal in Hl. rewrite K in Hl.
  pose proof (quiet_register s i p Hi Hq) as Hreg.
  destruct p; try done; try (by destruct (Hreg I)); try (by left); simpl in Hs.
  - right; left. by destruct (free (worker_of i) s).
  - destruct (receive i s) as [[[] s1]|] eqn:R; try (by destruct is_tcp). apply receive_waits in R. by right; right.
Qed.

Lemma quiet_router s i p : 0 < capacity -> inv s -> quiet s -> Returned ∈ closers s ->
  tasks s !! i = Some p -> kind_of i = Router \/ kind_of i = SocketRouter ->
  p = Ended \/ (p = Receive /\ inbox_of i s = []) \/
  (exists k, k < n /\ p = Offer k /\ receiver_alive k s = true /\ capacity <= queue_of k s).
Proof.
  intros Hcap Hi Hq Hr Hp K. pose proof (proj1 Hq Go i) as Hs. unfold task_step in Hs. rewrite Hp in Hs.
  assert (Hs' : p = Ended \/ router_step Go i p s = None)
    by (destruct K as [K|K]; rewrite K in Hs; destruct p; auto).
  destruct Hs' as [->|Hs']; [by left|]. clear Hs.
  pose proof (inv_legal s Hi i p Hp) as Hl. unfold legal in Hl.
  pose proof (quiet_register s i p Hi Hq) as Hreg.
  destruct p; try done; try (by destruct (Hreg I)); try (by left);
    try (by destruct K as [K|K]; rewrite K in Hl); simpl in Hs'.
  - destruct (receive i s) as [[[] s1]|] eqn:R; try (by destruct is_tcp). apply receive_waits in R. by right; left.
  - right; right. exists k. destruct (receiver_alive k s) eqn:Ha; [|done].
    case_decide; [done|]. split_and!; try done; [|lia].
    destruct K as [K|K]; rewrite K in Hl; by apply bool_decide_eq_true in Hl.
Qed.

Lemma quiet_dispatcher s i p : inv s -> quiet s ->
  tasks s !! i = Some p -> kind_of i = Dispatcher ->
  p = Ended \/ (p = Receive /\ queue_of i s = 0 /\ sender_alive s = true).
Proof.
  intros Hi Hq Hp K. pose proof (proj1 Hq Go i) as Hs. unfold task_step in Hs. rewrite Hp, K in Hs.
  pose proof (inv_legal s Hi i p Hp) as Hl. unfold legal in Hl. rewrite K in Hl.
  destruct p; try done; try (by left); simpl in Hs.
  right. destruct (queue_of i s); [|done]. by destruct (sender_alive s).
Qed.

Lemma receiver_alive_task k s : receiver_alive k s = true ->
  exists p, tasks s !! k = Some p /\ p <> Ended.
Proof.
  unfold receiver_alive. destruct (tasks s !! k) as [p|]; [|done]. intros H. exists p.
  split; [done|]. by intros ->.
Qed.

(** A native listener that waits for a permit waits for running handlers: it is
    alone on its worker, and there are no queues. *)
Definition native : bool := match d with NativeUdp | NativeTcp => true | _ => false end.

Lemma native_kind i : native = true -> kind_of i = Listener.
Proof. unfold native, kind_of. by destruct d. Qed.

Lemma native_queues c s : native = true -> reachable c s -> queues s = replicate n 0.
Proof.
  intros Hn. induction 1 as [|s a s' Hr IH Ha]; [done|]. rewrite <- IH. clear Hr IH.
  assert (K : forall i, kind_of i = Listener) by (intros; by apply native_kind).
  assert (Hfin : forall i s, queues (finish i s) = queues s) by (intros; unfold finish; by rewrite K).
  assert (Hrec : forall i s b s1, receive i s = Some (b, s1) -> queues s1 = queues s).
  { intros i s0 b s1. unfold receive. destruct (inbox_of i s0); intros; by simplify_eq. }
  destruct a as [c0 i|c0 j|h]; simpl in Ha.
  - unfold task_step in Ha. destruct (tasks s !! i) as [p|]; [|done]. rewrite K in Ha.
    destruct p; simpl in Ha; repeat case_match; simplify_eq; simpl; rewrite ?Hfin; try done;
      try (by eapply Hrec); unfold spawn_step; case_match; by rewrite ?Hfin.
  - unfold close_step in Ha. repeat case_match; by simplify_eq.
  - destruct h; simpl in Ha; rewrite ?K in Ha; repeat case_match; simplify_eq; by rewrite ?Hfin.
Qed.

Lemma native_alone s i : native = true -> inv s -> tasks s !! i = Some Acquire ->
  filter (fun ip : nat * pc => holds ip.1 ip.2 (worker_of i) = true) (imap pair (tasks s)) = [].
Proof.
  intros Hn Hi Hp. destruct (filter _ _) as [|x l] eqn:E; [done|]. exfalso.
  assert (Hx : x ∈ filter (fun ip : nat * pc => holds ip.1 ip.2 (worker_of i) = true) (imap pair (tasks s)))
    by (rewrite E; by left).
  apply list_elem_of_filter in Hx as [Hh [k Hk]%list_elem_of_lookup].
  rewrite list_lookup_imap in Hk. destruct (tasks s !! k) as [p|] eqn:Hkp; simpl in Hk; [|done].
  injection Hk as <-. simpl in Hh. unfold holds in Hh. rewrite (native_kind k Hn) in Hh.
  assert (Hlt : forall k p, tasks s !! k = Some p -> k < n).
  { intros k0 p0 Hk0. apply lookup_lt_Some in Hk0. rewrite (inv_count s Hi) in Hk0.
    unfold task_count, native in *. by destruct d. }
  pose proof (Hlt k p Hkp). pose proof (Hlt i _ Hp).
  assert (k = i) as ->; [|simplify_eq; done].
  unfold worker_of in Hh. rewrite !decide_True in Hh by done.
  destruct p; try done; by apply bool_decide_eq_true in Hh.
Qed.

(** What a task can still wait for when a [close] call has returned and nobody inside
    the server can move. *)
Inductive waits (s : server) (i : nat) : pc -> Prop :=
(* a native listener: a permit, all of which are with running handlers *)
| waits_permit m : native = true -> max = Some m -> m <= handlers_of (worker_of i) s -> waits s i Acquire
(* a connection or a datagram: nothing is left to receive on the own socket, which on
   UDP [close] has sent a wake-up to; a dispatch loop, for the loop that feeds it *)
| waits_socket : kind_of i <> Dispatcher -> inbox_of i s = [] ->
    (is_tcp = false -> i ∈ shut s) -> waits s i Receive
| waits_router : kind_of i = Dispatcher -> queue_of i s = 0 ->
    tasks s !! n = Some Receive -> inbox_of n s = [] -> waits s i Receive
(* [serve_socket] without balancing: a callback that does not read its full queue *)
| waits_callback k : d = RoutedCallbacks -> capacity <= queue_of k s -> receiver_alive k s = true ->
    waits s i (Offer k)
| waits_user p : kind_of i = Callback -> waits s i p.

Lemma waits_on_socket s i r :
  inv s -> Returned ∈ closers s -> tasks s !! i = Some Receive -> kind_of i <> Dispatcher ->
  (is_tcp = false -> home i = Some r) -> inbox_of i s = [] -> waits s i Receive.
Proof.
  intros Hi Hr Hp K Hh Hin. apply waits_socket; [done..|]. intros T.
  by apply (closed_sockets_are_shut s i Receive r); auto.
Qed.

Lemma quiet_waits c s i p :
  0 < capacity -> reachable c s -> Returned ∈ closers s -> quiet s ->
  tasks s !! i = Some p -> p = Ended \/ waits s i p.
Proof.
  intros Hcap Hreach Hr Hq Hp. pose proof (reachable_inv c s Hreach) as Hi.
  destruct (kind_of i) eqn:K.
  - destruct (quiet_listener s i p Hi Hq Hr Hp K) as [?|[[-> Hf]|(-> & Hin)]]; [by left|right|right].
    + assert (Hn : native = true) by (unfold native, kind_of in *; destruct d; try done; by case_decide).
      unfold free in Hf. destruct max as [m|] eqn:Em; [|done]. apply bool_decide_eq_false in Hf.
      apply (waits_permit s i m); try done. unfold in_use, queue_of in Hf.
      rewrite (native_alone s i Hn Hi Hp), (native_queues c s Hn Hreach) in Hf.
      assert (Hz : default 0 (replicate n 0 !! worker_of i) = 0).
      { destruct (replicate n 0 !! worker_of i) eqn:E; [|done]. by apply lookup_replicate_1 in E as [-> _]. }
      rewrite Hz in Hf. simpl in Hf. lia.
    + apply (waits_on_socket s i Pool); try done; unfold home; rewrite K; [done|]. by intros ->.
  - destruct (quiet_router s i p Hcap Hi Hq Hr Hp (or_introl K)) as [?|[(-> & Hin)|(k & Hk & -> & Ha & Hfull)]];
      [by left|right|].
    + apply (waits_on_socket s i Pool); try done; unfold home; rewrite K; [done|]. by intros ->.
    + exfalso. destruct (receiver_alive_task k s Ha) as (pk & Hpk & Hne).
      assert (Kk : kind_of k = Dispatcher).
      { unfold kind_of in *. destruct d; try done; try (by case_decide); by rewrite decide_True. }
      destruct (quiet_dispatcher s k pk Hi Hq Hpk Kk) as [?|(_ & Hz & _)]; [done|lia].
  - destruct (quiet_router s i p Hcap Hi Hq Hr Hp (or_intror K)) as [?|[(-> & Hin)|(k & Hk & -> & Ha & Hfull)]];
      [by left|right|right].
    + apply (waits_on_socket s i Extra); try done; unfold home; by rewrite K.
    + apply waits_callback; try done. unfold kind_of in K. destruct d; try done; by case_decide.
  - destruct (quiet_dispatcher s i p Hi Hq Hp K) as [?|(-> & Hz & Ha)]; [by left|].
    right. destruct (receiver_alive_task n s Ha) as (pn & Hpn & Hne).
    assert (Kn : kind_of n = Router).
    { unfold kind_of in *. destruct d; try done; try (by rewrite decide_False by lia); exfalso; by case_decide. }
    destruct (quiet_router s n pn Hcap Hi Hq Hr Hpn (or_introl Kn)) as [?|[(-> & Hin)|(k & Hk & -> & Hak & Hfull)]];
      [done|by apply waits_router|].
    exfalso. destruct (receiver_alive_task k s Hak) as (pk & Hpk & Hnek).
    assert (Kk : kind_of k = Dispatcher).
    { unfold kind_of in *. destruct d; try done; try (by rewrite decide_True); exfalso; by case_decide. }
    destruct (quiet_dispatcher s k pk Hi Hq Hpk Kk) as [?|(_ & Hz' & _)]; [done|lia].
  - right. by apply waits_user.
Qed.

(** A loop whose socket something reached after the flag was cleared does not come
    back to wait for it. *)
Definition stirred (i : nat) (s : server) : Prop :=
  server_active s = false /\ (tasks s !! i = Some Receive -> inbox_of i s <> []).

Lemma inbox_grows i k b s : inbox_of i s <> [] -> inbox_of i (set_inbox k (inbox_of k s ++ [b]) s) <> [].
Proof.
  intros Hi. unfold inbox_of in *. simpl. destruct (decide (k = i)) as [->|Hne].
  - destruct (inbox s !! i) as [l|] eqn:Es; [|done].
    rewrite list_lookup_insert_eq by (by eapply lookup_lt_Some). simpl. by destruct l.
  - by rewrite list_lookup_insert_ne.
Qed.

Lemma finish_fields i s :
  tasks (finish i s) = <[i := Ended]> (tasks s) /\ sockets (finish i s) = sockets s /\
  close_sockets (finish i s) = close_sockets s /\ closers (finish i s) = closers s /\
  started (finish i s) = started s /\ server_active (finish i s) = server_active s.
Proof. unfold finish. by destruct (kind_of i). Qed.

Lemma finish_inbox k i s : inbox_of k (finish i s) = inbox_of k s.
Proof. unfold finish. by destruct (kind_of i). Qed.

Lemma inbox_other i k l s : k <> i -> inbox_of k (set_inbox i l s) = inbox_of k s.
Proof. intros Hne. unfold inbox_of. simpl. by rewrite list_lookup_insert_ne. Qed.

Lemma task_inbox c i k s s' : task_step c i s = Some s' -> k <> i -> inbox_of k s' = inbox_of k s.
Proof.
  intros E Hne. unfold task_step, listener_step, router_step, dispatch_step, register_step, spawn_step,
    receive in E.
  repeat case_match; simplify_eq; rewrite ?finish_inbox; try done; exact (inbox_other i k _ s Hne).
Qed.

(** Receives are the only steps that lead to a receive with the flag cleared: none. *)
Lemma stirred_step i a s s' : inv s -> stirred i s -> do_action a s = Some s' -> stirred i s'.
Proof.
  intros Hi [Ha Hr] E. destruct a as [c k|c j|h]; simpl in E.
  - destruct (task_step_effect c k s s' E) as (p & p' & Hp & _ & []); [intros; by eapply inv_legal|].
    split; [congruence|]. rewrite te_tasks0. destruct (decide (k = i)) as [->|Hne].
    + rewrite list_lookup_insert_eq by (by eapply lookup_lt_Some). intros [= Hrec]. destruct te_receive0; [|done].
      destruct (goes_on i s) eqn:G; [|done]. apply goes_on_server in G. congruence.
    + rewrite list_lookup_insert_ne by done. rewrite (task_inbox c k i s s' E) by done. exact Hr.
  - unfold close_step in E. repeat case_match; simplify_eq; split; try done; simpl; intros Ht;
      try (by apply Hr); apply (inbox_grows i); by apply Hr.
  - destruct h as [k b|k| |k|k|k]; simpl in E; repeat case_match; simplify_eq;
      try (split; [done|]; exact Hr).
    + split; [done|]. intros Ht. apply (inbox_grows i). by apply Hr.
    + destruct (finish_fields k s) as (Et & _ & _ & _ & _ & Es). split; [congruence|].
      rewrite Et, finish_inbox. intros [(_ & ? & _)|[_ Ht]]%list_lookup_insert_Some; [done|by apply Hr].
    + destruct (finish_fields k s) as (Et & _ & _ & _ & _ & Es). split; [congruence|].
      rewrite Et, finish_inbox. intros [(_ & ? & _)|[_ Ht]]%list_lookup_insert_Some; [done|by apply Hr].
Qed.

Lemma stirred_run i l s s' : inv s -> stirred i s -> run l s = Some s' -> stirred i s'.
Proof.
  revert s. induction l as [|a l IH]; simpl; intros s Hi Hs E; [by simplify_eq|].
  destruct (do_action a s) as [s1|] eqn:E1; [|done].
  eapply IH; [by eapply action_inv|by eapply stirred_step|exact E].
Qed.

Lemma elem_of_insert_inv {A} (x y : A) (j : nat) (l : list A) : x ∈ <[j := y]> l -> x = y \/ x ∈ l.
Proof.
  intros [k Hk]%list_elem_of_lookup. apply list_lookup_insert_Some in Hk as [(_ & <- & _)|[_ Hk]]; [by left|].
  right. by eapply list_elem_of_lookup_2.
Qed.

(** A [close] call that has returned has cancelled the tasks. *)
Lemma returned_cancelled c s :
  reachable c s -> Returned ∈ closers s \/ DropCallbacks ∈ closers s -> cancelled s = true.
Proof.
  induction 1 as [|s a s' Hreach IH E].
  - simpl. intros [H|H]; apply elem_of_replicate in H as [? _]; done.
  - pose proof (reachable_inv c s Hreach) as Hi. destruct a as [c0 k|c0 j|h]; simpl in E.
    + destruct (task_step_effect c0 k s s' E) as (p & p' & Hp & _ & []); [intros; by eapply inv_legal|].
      by rewrite te_closers0, te_cancelled0.
    + assert (Hup : cancelled s = true -> cancelled s' = true)
        by (unfold close_step in E; repeat case_match; by simplify_eq).
      unfold close_step in E. repeat case_match; simplify_eq; try done; simpl in *;
        intros [H'|H']; apply elem_of_insert_inv in H' as [?|?]; try done; auto;
        apply IH; right; by eapply list_elem_of_lookup_2.
    + assert (cancelled s' = cancelled s /\ closers s' = closers s) as [-> ->]; [|done].
      assert (Hf : forall k, cancelled (finish k s) = cancelled s /\ closers (finish k s) = closers s)
        by (intros k; unfold finish; by destruct (kind_of k)).
      destruct h; simpl in E; repeat case_match; simplify_eq; by try apply Hf.
Qed.

(** C19: Closing ends the loops.  Take a server in any deployment, at any moment at which
    some call of [close] has returned, whatever was interleaved with it.  When nothing
    inside the server can move any more, then
    - without counting on tasks being cancelled: every task has ended, except for what
      waits for the outside: a native listener whose permits are all with running
      handlers; a loop with nothing to receive on its socket, to which on UDP [close] sent
      a wake-up, and a dispatch loop fed by such a loop; and on [serve_socket] the user's
      callbacks, or a routing loop before a callback that does not read;
    - a loop does not wait for its socket if anything, such as the wake-up, has reached it
      since the flag was cleared;
    - if the runtime drops the tasks that were cancelled, as the tokio executor does, every
      task has ended but for the user's callbacks. *)
Theorem close_ends_every_loop c s i p :
  0 < capacity -> reachable c s -> Returned ∈ closers s -> quiet s -> tasks s !! i = Some p ->
  (p = Ended \/ waits s i p) /\
  (forall s0 l, reachable c s0 -> server_active s0 = false -> inbox_of i s0 <> [] -> run l s0 = Some s ->
     kind_of i <> Dispatcher -> p <> Receive) /\
  ((forall k, happens (Dropped k) s = None) -> p = Ended \/ kind_of i = Callback).
Proof.
  intros Hcap Hreach Hr Hq Hp. pose proof (quiet_waits c s i p Hcap Hreach Hr Hq Hp) as Hw.
  split_and!; [done|..].
  - intros s0 l H0 Ha Hin Hrun K ->. destruct Hw as [?|Hw]; [done|].
    destruct (stirred_run i l s0 s) as [_ Hs]; [by eapply reachable_inv|by split|done|].
    specialize (Hs Hp). inversion Hw as [|? He| | |? Hc]; try done.
    pose proof (reachable_inv c s Hreach) as Hi. pose proof (inv_legal s Hi i _ Hp) as Hl.
    unfold legal in Hl. by rewrite Hc in Hl.
  - intros Hd. destruct Hw as [?|Hw]; [by left|right]. specialize (Hd i). simpl in Hd. rewrite Hp in Hd.
    assert (Hc : cancelled s = true) by (eapply returned_cancelled; eauto). rewrite Hc in Hd. simpl in Hd.
    destruct (decide (kind_of i = Callback)) as [|K]; [done|].
    rewrite (bool_decide_false (kind_of i = Callback)) in Hd by done.
    destruct Hw; try done.
Qed.

(** ** Counting steps *)

Lemma sum_insert {A} (f : A -> nat) i x y l : l !! i = Some x ->
  sum_list_with f (<[i := y]> l) + f x = sum_list_with f l + f y.
Proof.
  revert i. induction l as [|z l IH]; intros [|i] Hi; simplify_eq/=; [lia|].
  specialize (IH i Hi). lia.
Qed.

Lemma sum_bound {A} (f : A -> nat) b l : (forall x, f x <= b) -> sum_list_with f l <= b * length l.
Proof. intros Hf. induction l as [|x l IH]; simpl; [lia|]. specialize (Hf x). lia. Qed.

(** How many steps a call of [close] has left at most, but for emptying registries. *)
Definition close_rank (q : close_pc) : nat :=
  let most := S task_count in
  match q with
  | Store => 10 + 2 * most
  | Lock Pool => 9 + 2 * most
  | Wake Pool rest => 8 + most + length rest
  | Shut Pool => 7 + most
  | Lock Extra => 6 + most
  | Wake Extra rest => 5 + length rest
  | Shut Extra => 4
  | ClearThreads => 3
  | CancelTasks => 2
  | DropCallbacks => 1
  | Returned => 0
  end.

Definition measure (s : server) : nat :=
  2 * sum_list_with rank (tasks s) + length (sockets s) + length (close_sockets s) +
  sum_list_with close_rank (closers s).

(** Registries stay small: each task enters its socket at most once. *)
Definition small (c : nat) (s : server) : Prop :=
  length (sockets s) + sum_list_with to_push (tasks s) <= task_count /\
  length (close_sockets s) <= 1 /\ length (closers s) = c /\
  Forall (fun q => close_rank q <= 2 * task_count + 12) (closers s).

Lemma small_start c : small c (start c).
Proof.
  split_and!; simpl.
  - assert (H := sum_bound to_push 1 (start_pc <$> seq 0 task_count)).
    rewrite length_fmap, length_seq, Nat.mul_1_l in H. apply H. intros []; simpl; lia.
  - unfold start. simpl. destruct d; simpl; lia.
  - apply length_replicate.
  - apply Forall_replicate. simpl. lia.
Qed.

(** What happens outside leaves the tasks alone or ends one. *)
Lemma happens_fields h s s' : happens h s = Some s' ->
  (tasks s' = tasks s \/ exists i, tasks s' = <[i := Ended]> (tasks s)) /\
  sockets s' = sockets s /\ close_sockets s' = close_sockets s /\ closers s' = closers s /\
  started s' = started s /\ server_active s' = server_active s.
Proof.
  destruct h as [i b|k| |i|k|k]; simpl; intros E; repeat case_match; simplify_eq; simpl; eauto 10;
    match goal with |- context [finish ?i s] => pose proof (finish_fields i s) end; naive_solver.
Qed.

Lemma sum_ended (f : pc -> nat) i l : f Ended = 0 -> sum_list_with f (<[i := Ended]> l) <= sum_list_with f l.
Proof.
  intros Hf. destruct (l !! i) as [p|] eqn:Hi.
  - pose proof (sum_insert f i p Ended l Hi). lia.
  - rewrite list_insert_ge; [done|by apply lookup_ge_None_1].
Qed.

Lemma happens_sum (f : pc -> nat) h s s' : f Ended = 0 -> happens h s = Some s' ->
  sum_list_with f (tasks s') <= sum_list_with f (tasks s).
Proof.
  intros Hf (Ht & _)%happens_fields. destruct Ht as [->|[i ->]]; [done|by apply sum_ended].
Qed.

(** A step of a [close] call. *)
Lemma close_fields c j s s' : close_step c j s = Some s' ->
  tasks s' = tasks s /\ started s' = started s /\
  (server_active s = false -> server_active s' = false) /\ length (closers s') = length (closers s) /\
  length (sockets s') <= length (sockets s) /\ length (close_sockets s') <= length (close_sockets s).
Proof.
  unfold close_step. intros E. repeat case_match; simplify_eq; simpl; rewrite ?length_insert;
    try done.
  match goal with H : registered ?r s = _ |- _ => destruct r; simpl in *; rewrite H; simpl; auto 10 with lia end.
Qed.

Lemma close_effect c j s s' : close_step c j s = Some s' ->
  length (sockets s) <= task_count -> length (close_sockets s) <= 1 ->
  exists q q', closers s !! j = Some q /\ closers s' = <[j := q']> (closers s) /\
    close_rank q' + length (sockets s') + length (close_sockets s') <
    close_rank q + length (sockets s) + length (close_sockets s) /\ close_rank q' <= close_rank q.
Proof.
  intros E Hs Hc. unfold close_step in E. destruct (closers s !! j) as [q|] eqn:Hj; [|done].
  exists q. destruct q as [|r|r [|x rest]|r| | | |]; simplify_eq; simpl.
  - eexists; split_and!; try done; destruct is_tcp; simpl; lia.
  - destruct (owner s r); simplify_eq.
    exists (Wake r (registered r s)). split_and!; try done; destruct r; simpl; lia.
  - exists (Shut r). split_and!; try done; destruct r; simpl; lia.
  - exists (Wake r rest). split; [done|]. split; [by destruct c|]. split; destruct r, c; simpl; lia.
  - destruct (registered r s) as [|x l] eqn:El; simplify_eq; simpl.
    + exists (match r with Pool => Lock Extra | Extra => ClearThreads end).
      split_and!; try done; destruct r; simpl; lia.
    + exists (Shut r). rewrite list_insert_id by done. split; [done|]. split; [done|].
      destruct r; simpl in *; rewrite El; simpl; lia.
  - exists CancelTasks. split_and!; try done; simpl; lia.
  - exists (if is_tcp then Returned else DropCallbacks). split_and!; try done; destruct is_tcp; simpl; lia.
  - exists Returned. split_and!; try done; simpl; lia.
Qed.

Lemma small_step c a s s' : inv s -> small c s -> do_action a s = Some s' -> small c s'.
Proof.
  intros Hi (Hs & He & Hc & Hf) E. destruct a as [c0 i|c0 j|h]; simpl in E.
  - destruct (task_step_effect c0 i s s' E) as (p & p' & Hp & _ & []); [intros; by eapply inv_legal|].
    pose proof (sum_insert to_push i p p' (tasks s) Hp). unfold small.
    rewrite te_tasks0, te_pool0, te_extra0, te_closers0, length_app. split_and!; try done.
    case_decide; simpl in *; lia.
  - destruct (close_fields c0 j s s' E) as (Ht & _ & _ & Hn & Hl & Hl').
    destruct (close_effect c0 j s s' E) as (q & q' & Hq & Ecl & _ & Hle); [lia..|].
    unfold small. rewrite Ht, Hn. split_and!; try lia. rewrite Ecl.
    apply Forall_insert; [done|]. rewrite Forall_lookup in Hf. specialize (Hf j q Hq). simpl in *. lia.
  - pose proof (happens_sum to_push h s s' eq_refl E). apply happens_fields in E as (_ & E1 & E2 & E3 & _).
    unfold small. rewrite E1, E2, E3. split_and!; try lia. done.
Qed.

Lemma reachable_small c s : reachable c s -> small c s.
Proof.
  induction 1 as [|s a s' Hr IH Ha]; [apply small_start|].
  eapply small_step; [by eapply reachable_inv|done..].
Qed.

(** The steps of tasks and of [close] calls. *)
Definition inner (a : action) : nat := match a with World _ => 0 | _ => 1 end.

Lemma action_measure c a s s' : inv s -> small c s -> server_active s = false -> do_action a s = Some s' ->
  server_active s' = false /\ measure s' + inner a <= measure s /\
  started s' + sum_list_with pending (tasks s') <= started s + sum_list_with pending (tasks s).
Proof.
  intros Hi (Hs & He & _) Ha E. destruct a as [c0 i|c0 j|h]; simpl in E.
  - destruct (task_step_effect c0 i s s' E) as (p & p' & Hp & _ & []); [intros; by eapply inv_legal|].
    assert (Hg : goes_on i s = false).
    { destruct (goes_on i s) eqn:G; [|done]. apply goes_on_server in G. congruence. }
    pose proof (sum_insert rank i p p' (tasks s) Hp). pose proof (sum_insert pending i p p' (tasks s) Hp).
    specialize (te_rank0 Hg). specialize (te_started0 Hg). unfold measure.
    rewrite te_tasks0, te_pool0, te_extra0, te_closers0, te_server0, length_app. split; [done|].
    case_decide; simpl; lia.
  - destruct (close_fields c0 j s s' E) as (Ht & Hst & Hf & _).
    destruct (close_effect c0 j s s' E) as (q & q' & Hq & Ecl & Hlt & _); [lia..|].
    pose proof (sum_insert close_rank j q q' (closers s) Hq).
    unfold measure. rewrite Ht, Hst, Ecl. simpl. split; [auto|]. lia.
  - pose proof (happens_sum rank h s s' eq_refl E). pose proof (happens_sum pending h s s' eq_refl E).
    apply happens_fields in E as (_ & E1 & E2 & E3 & E4 & E5). unfold measure. rewrite E1, E2, E3, E4, E5.
    simpl. split; [done|]. lia.
Qed.

Lemma run_measure c l s s' : reachable c s -> server_active s = false -> run l s = Some s' ->
  measure s' + sum_list_with inner l <= measure s /\
  started s' + sum_list_with pending (tasks s') <= started s + sum_list_with pending (tasks s).
Proof.
  revert s. induction l as [|a l IH]; simpl; intros s Hr Ha E; [simplify_eq; lia|].
  destruct (do_action a s) as [s1|] eqn:E1; [|done].
  destruct (action_measure c a s s1) as (Ha1 & Hm & Hst);
    [by eapply reachable_inv|by apply reachable_small|done..|].
  destruct (IH s1) as [Hm' Hst']; [by econstructor|done..|]. lia.
Qed.

Lemma measure_bound c s : inv s -> small c s ->
  measure s <= 13 * task_count + 1 + c * (2 * task_count + 12).
Proof.
  intros Hi (Hs & He & Hc & Hf). unfold measure. rewrite <- Hc.
  assert (Hr := sum_bound rank 6 (tasks s)). rewrite (inv_count s Hi) in Hr.
  assert (H6 : forall p, rank p <= 6) by (intros []; simpl; lia). specialize (Hr H6).
  assert (Hq : sum_list_with close_rank (closers s) <= length (closers s) * (2 * task_count + 12)).
  { clear Hc. induction Hf as [|q l Hq _ IH]; simpl; lia. }
  lia.
Qed.

(** ** A call of [close] on its own *)

(** From [s] to [s'] by steps of call [j] only. *)
Definition alone (j : nat) (s s' : server) : Prop :=
  exists k, run (replicate k (Close Go j)) s = Some s'.

Lemma alone_refl j s : alone j s s.
Proof. by exists 0. Qed.

Lemma alone_step j s s1 s' : close_step Go j s = Some s1 -> alone j s1 s' -> alone j s s'.
Proof. intros E [k Hk]. exists (S k). simpl. by rewrite E. Qed.

(** Everything but the registry [r], its mutex, the shut-down sockets and the
    position of the call. *)
Definition but_registry (r : registry) (j : nat) (s s' : server) : Prop :=
  tasks s' = tasks s /\ server_active s' = server_active s /\ thread_sockets s' = thread_sockets s /\
  (forall r', r' <> r -> registered r' s' = registered r' s /\ owner s' r' = owner s r') /\
  length (closers s') = length (closers s) /\ (forall k, k <> j -> closers s' !! k = closers s !! k).

Lemma alone_wake r j rest s s' :
  closers s !! j = Some (Wake r rest) -> alone j (set_closer j (Shut r) s) s' -> alone j s s'.
Proof.
  revert s. induction rest as [|x rest IH]; intros s Hj H.
  - eapply alone_step; [|exact H]. unfold close_step. by rewrite Hj.
  - assert (Hlt : j < length (closers s)) by (by eapply lookup_lt_Some).
    apply (alone_step j s (set_closer j (Wake r rest) s)); [unfold close_step; by rewrite Hj|].
    apply IH; [simpl; by rewrite list_lookup_insert_eq|].
    replace (set_closer j (Shut r) (set_closer j (Wake r rest) s)) with (set_closer j (Shut r) s); [done|].
    unfold set_closer. simpl. by rewrite list_insert_insert_eq.
Qed.

Definition emptied (r : registry) (j : nat) (q : close_pc) (s s' : server) : Prop :=
  closers s' !! j = Some q /\ registered r s' = [] /\ owner s' r = None /\
  shut s' = shut s ∪ list_to_set (registered r s) /\ but_registry r j s s'.

Lemma alone_shut r j l s :
  registered r s = l -> closers s !! j = Some (Shut r) ->
  exists s', alone j s s' /\ emptied r j (match r with Pool => Lock Extra | Extra => ClearThreads end) s s'.
Proof.
  revert s. induction l as [|x l IH]; intros s El Hj.
  - eexists. split; [eapply alone_step; [unfold close_step; by rewrite Hj, El|apply alone_refl]|].
    assert (Hlt : j < length (closers s)) by (by eapply lookup_lt_Some).
    unfold emptied, but_registry. split_and!; simpl; rewrite ?list_lookup_insert_eq, ?length_insert; try done.
    + by rewrite decide_True.
    + rewrite El. simpl. by rewrite union_empty_r_L.
    + intros r' Hne. split; [by destruct r'|by rewrite decide_False].
    + intros k Hk. by rewrite list_lookup_insert_ne.
  - destruct (IH (add_shut x (set_registered r l s))) as (s' & Ha & Hc & He & Ho & Hs & Ht & Hf & Hth & Hr & Hn & Hk);
      [by destruct r|done|].
    exists s'. split; [eapply alone_step; [unfold close_step; by rewrite Hj, El|exact Ha]|].
    unfold emptied, but_registry. split_and!; try done.
    + rewrite Hs, El. destruct r; simpl; set_solver.
    + intros r' Hne. destruct (Hr r' Hne) as [E1 E2]. split; [|done]. rewrite E1. by destruct r, r'.
Qed.

Lemma alone_registry r j s :
  owner s r = None -> closers s !! j = Some (Lock r) ->
  exists s', alone j s s' /\ emptied r j (match r with Pool => Lock Extra | Extra => ClearThreads end) s s'.
Proof.
  intros Ho Hj. assert (Hlt : j < length (closers s)) by (by eapply lookup_lt_Some).
  set (s1 := set_closer j (Wake r (registered r s)) (set_owner r (Some j) s)).
  destruct (alone_shut r j (registered r s) (set_closer j (Shut r) s1)) as (s' & Ha & Hc & He & Ho' & Hs & Ht & Hf & Hth & Hr & Hn & Hk);
    [by destruct r|simpl; rewrite list_lookup_insert_eq; [done|by rewrite length_insert]|].
  exists s'. split.
  - eapply alone_step; [unfold close_step; by rewrite Hj, Ho|].
    eapply alone_wake; [simpl; by rewrite list_lookup_insert_eq|exact Ha].
  - unfold emptied, but_registry. split_and!; try done.
    + intros r' Hne. destruct (Hr r' Hne) as [E1 E2]. rewrite E1, E2. split; [by destruct r'|].
      simpl. by rewrite decide_False.
    + rewrite Hn. simpl. by rewrite !length_insert.
    + intros k Hne. rewrite Hk by done. simpl. by rewrite !list_lookup_insert_ne.
Qed.

(** Uninterrupted, a call of [UdpServerState::close] returns, and does to the shared
    state what [ServerState.close_releases_everything] says of the function. *)
Theorem close_alone s j :
  is_tcp = false -> closers s !! j = Some Store -> owner s Pool = None -> owner s Extra = None ->
  exists s', alone j s s' /\ closers s' !! j = Some Returned /\ server_active s' = false /\
    sockets s' = [] /\ close_sockets s' = [] /\ thread_sockets s' = ∅ /\ tasks s' = tasks s /\
    shut s' = shut s ∪ list_to_set (sockets s) ∪ list_to_set (close_sockets s).
Proof.
  intros T Hj Hp He. assert (Hlt : j < length (closers s)) by (by eapply lookup_lt_Some).
  set (s1 := set_closer j (Lock Pool) (set_flags (runtime_active s) false s)).
  destruct (alone_registry Pool j s1) as (s2 & A2 & C2 & E2 & _ & S2 & T2 & F2 & _ & R2 & N2 & _);
    [done|simpl; by rewrite list_lookup_insert_eq|].
  destruct (R2 Extra) as [X2 O2]; [done|].
  destruct (alone_registry Extra j s2) as (s3 & A3 & C3 & E3 & _ & S3 & T3 & F3 & _ & R3 & N3 & _);
    [by rewrite O2|done|].
  destruct (R3 Pool) as [X3 _]; [done|]. simpl in *.
  assert (Hlt3 : j < length (closers s3)) by (rewrite N3, N2; simpl; by rewrite length_insert).
  set (s4 := set_closer j CancelTasks (set_threads ∅ s3)).
  set (s5 := set_closer j DropCallbacks (set_cancelled s4)).
  assert (A4 : alone j s3 (set_closer j Returned s5)).
  { eapply (alone_step j s3 s4); [unfold close_step; by rewrite C3|].
    eapply (alone_step j s4 s5); [unfold close_step; simpl; rewrite list_lookup_insert_eq by done; by rewrite T|].
    eapply alone_step; [|apply alone_refl]. unfold close_step. simpl.
    by rewrite list_lookup_insert_eq by (by rewrite length_insert). }
  exists (set_closer j Returned s5). split.
  - eapply (alone_step j s s1); [unfold close_step; by rewrite Hj, T|].
    destruct A2 as [k2 A2], A3 as [k3 A3], A4 as [k4 A4]. exists (k2 + (k3 + k4)).
    rewrite !replicate_add, run_app, A2. simpl. by rewrite run_app, A3.
  - split_and!; simpl; try done.
    + rewrite list_lookup_insert_eq; [done|]. by rewrite !length_insert.
    + by rewrite F3, F2.
    + by rewrite X3.
    + by rewrite T3, T2.
    + rewrite S3, S2, X2. simpl. done.
Qed.

(** C20: Closing comes to rest.  From any moment at which a call of [close] has begun, in
    every run, with whatever else happens outside, the tasks of the server and all [c]
    calls of [close] together take at most a fixed number of steps, so that after
    finitely many nothing inside can move; and each loop starts at most one more
    handler, one it had already decided to start. *)
Theorem closing_comes_to_rest c s l s' j q :
  reachable c s -> closers s !! j = Some q -> q <> Store -> run l s = Some s' ->
  sum_list_with inner l <= 13 * task_count + 1 + c * (2 * task_count + 12) /\
  started s' <= started s + sum_list_with pending (tasks s).
Proof.
  intros Hr Hj Hq E. pose proof (reachable_inv c s Hr) as Hi.
  destruct (run_measure c l s s' Hr (inv_flag s Hi j q Hj Hq) E) as [Hm Hst].
  pose proof (measure_bound c s Hi (reachable_small c s Hr)). lia.
Qed.
End Server.

(** ** Handlers within the limit *)

Section Permits.
Context (d : deployment) (n : nat) (max : option nat) (capacity : nat).

(** The permits of worker [k] that tasks hold. *)
Definition held (k : nat) (l : list pc) : nat :=
  length (filter (fun ip : nat * pc => holds d n ip.1 ip.2 k = true) (imap pair l)).

Definition unit_of (b : bool) : nat := if b then 1 else 0.

Lemma held_insert k l i p p' : l !! i = Some p ->
  held k (<[i := p']> l) + unit_of (holds d n i p k) = held k l + unit_of (holds d n i p' k).
Proof.
  intros Hi. unfold held. rewrite imap_pair_insert.
  pose proof (length_filter_insert (fun ip : nat * pc => holds d n ip.1 ip.2 k = true) (imap pair l) i (i, p) (i, p')) as H.
  simpl in H. rewrite list_lookup_imap, Hi in H. specialize (H eq_refl). unfold unit_of.
  destruct (holds d n i p k), (holds d n i p' k); simpl in *; lia.
Qed.

Lemma in_use_held k s : in_use d n k s = handlers_of k s + queue_of k s + held k (tasks s).
Proof. done. Qed.

(** A task moves from [p] to [p'] after an update of queues and handlers. *)
Lemma in_use_move k i p p' s s1 extra :
  tasks s !! i = Some p -> tasks s1 = tasks s ->
  handlers_of k s1 + queue_of k s1 + unit_of (holds d n i p' k) <=
    handlers_of k s + queue_of k s + unit_of (holds d n i p k) + extra ->
  in_use d n k (set_pc i p' s1) <= in_use d n k s + extra.
Proof.
  intros Hi Ht Hle. rewrite !in_use_held. simpl. rewrite Ht.
  pose proof (held_insert k (tasks s) i p p' Hi).
  change (handlers_of k (set_pc i p' s1)) with (handlers_of k s1).
  change (queue_of k (set_pc i p' s1)) with (queue_of k s1). lia.
Qed.

Lemma default_insert (l : list nat) j k v :
  default 0 (<[j := v]> l !! k) <= (if decide (j = k) then v else default 0 (l !! k)).
Proof.
  case_decide; subst.
  - destruct (decide (k < length l)).
    + by rewrite list_lookup_insert_eq.
    + rewrite list_insert_ge by lia. rewrite (lookup_ge_None_2 l k) by lia. simpl. lia.
  - by rewrite list_lookup_insert_ne.
Qed.

Lemma queue_set j v k s : queue_of k (set_queue j v s) <= (if decide (j = k) then v else queue_of k s).
Proof. apply default_insert. Qed.
Lemma handlers_set j v k s :
  handlers_of k (set_handlers j v s) <= (if decide (j = k) then v else handlers_of k s).
Proof. apply default_insert. Qed.

Lemma holds_ended i k : holds d n i Ended k = false.
Proof. unfold holds. by destruct (kind_of d n i). Qed.

Lemma in_use_finish k i p s s1 :
  tasks s !! i = Some p -> tasks s1 = tasks s -> handlers_of k s1 = handlers_of k s ->
  queue_of k s1 = queue_of k s ->
  in_use d n k (finish d n i s1) <= in_use d n k s.
Proof.
  intros Hi Ht Hh Hq.
  assert (H : in_use d n k (set_pc i Ended s1) <= in_use d n k s + 0).
  { eapply in_use_move; [done..|]. rewrite Hh, Hq, holds_ended. simpl. lia. }
  assert (Hset : in_use d n k (set_queue i 0 (set_pc i Ended s1)) <= in_use d n k (set_pc i Ended s1)).
  { rewrite !in_use_held. pose proof (queue_set i 0 k (set_pc i Ended s1)).
    change (handlers_of k (set_queue i 0 (set_pc i Ended s1))) with (handlers_of k (set_pc i Ended s1)).
    change (tasks (set_queue i 0 (set_pc i Ended s1))) with (tasks (set_pc i Ended s1)).
    case_decide; simpl in *; lia. }
  unfold finish. destruct (kind_of d n i); lia.
Qed.

(** A task that moves without touching queues or handlers, and takes no permit. *)
Lemma in_use_step k i p p' s s1 :
  tasks s !! i = Some p -> tasks s1 = tasks s -> handlers_of k s1 = handlers_of k s ->
  queue_of k s1 = queue_of k s -> (holds d n i p' k = true -> holds d n i p k = true) ->
  in_use d n k (set_pc i p' s1) <= in_use d n k s.
Proof.
  intros Hp H1 H2 H3 H4.
  assert (in_use d n k (set_pc i p' s1) <= in_use d n k s + 0); [|lia].
  eapply in_use_move; [done..|]. rewrite H2, H3. unfold unit_of.
  destruct (holds d n i p' k); [rewrite H4 by done; lia|lia].
Qed.

(** A permit is only free below the limit. *)
Definition limited (m : nat) (s : server) : Prop :=
  forall k, free d n max k s = true -> in_use d n k s < m.

Lemma max_limited m s : max = Some m -> limited m s.
Proof. intros Hm k Hf. unfold free in Hf. rewrite Hm in Hf. by apply bool_decide_eq_true in Hf. Qed.

(** A task that takes a permit of worker [k'], one being free. *)
Lemma in_use_take m k k' i p p' s :
  limited m s -> tasks s !! i = Some p -> free d n max k' s = true ->
  (holds d n i p' k = true -> k' = k) -> in_use d n k s <= m ->
  in_use d n k (set_pc i p' s) <= m.
Proof.
  intros Hm Hp Hf Hh Hle. apply Hm in Hf.
  destruct (holds d n i p' k) eqn:E.
  - rewrite <- (Hh eq_refl) in *.
    assert (in_use d n k' (set_pc i p' s) <= in_use d n k' s + 1); [|lia].
    eapply in_use_move; [done..|]. unfold unit_of. repeat case_match; lia.
  - etrans; [|exact Hle]. eapply in_use_step; [done..|]. by rewrite E.
Qed.

Lemma receive_counts i s b s1 k : receive i s = Some (b, s1) ->
  tasks s1 = tasks s /\ handlers_of k s1 = handlers_of k s /\ queue_of k s1 = queue_of k s.
Proof. unfold receive. destruct (inbox_of i s); intros; simplify_eq; done. Qed.

(** Closes the steps that keep the count: an end, or a move that takes no permit. *)
Ltac keeps K :=
  lazymatch goal with
  | |- in_use _ _ _ (finish _ _ _ _) <= _ => by eapply in_use_finish
  | |- in_use _ _ _ (set_pc _ _ _) <= _ =>
      eapply in_use_step; [done..|]; unfold holds; rewrite ?K; done
  end.

Lemma register_in_use k c i p s s' : tasks s !! i = Some p ->
  register_step d n c i p s = Some s' -> in_use d n k s' <= in_use d n k s.
Proof.
  intros Hp. unfold register_step. destruct p; try done; intros E.
  all: repeat case_match; simplify_eq.
  all: destruct (kind_of d n i) eqn:K; keeps K.
Qed.

Lemma spawn_in_use k c i s : tasks s !! i = Some Spawn ->
  kind_of d n i = Listener \/ kind_of d n i = Dispatcher ->
  in_use d n k (spawn_step d n c i s) <= in_use d n k s.
Proof.
  intros Hp HK. unfold spawn_step. destruct (is_go c); [|by eapply in_use_finish].
  set (w := worker_of n i).
  set (s1 := count_start (set_handlers w (S (handlers_of w s)) s)).
  assert (in_use d n k (set_pc i Check s1) <= in_use d n k s + 0); [|lia].
  assert (Hh : handlers_of k s1 <= if decide (w = k) then S (handlers_of w s) else handlers_of k s)
    by apply (handlers_set w (S (handlers_of w s)) k s).
  eapply in_use_move; [done..|]. change (queue_of k s1) with (queue_of k s).
  unfold holds, unit_of. fold w. destruct HK as [HK|HK]; rewrite HK.
  all: destruct (decide (w = k)) as [->|Hne];
    [rewrite bool_decide_true by done|rewrite bool_decide_false by done]; lia.
Qed.

Lemma listener_in_use m k c i p s s' :
  limited m s -> kind_of d n i = Listener -> tasks s !! i = Some p -> in_use d n k s <= m ->
  listener_step d n max c i p s = Some s' -> in_use d n k s' <= m.
Proof.
  intros Hm K Hp Hle. destruct p; simpl; try done; intros E;
    try (etrans; [eapply (register_in_use k c); [exact Hp|exact E]|exact Hle]).
  - destruct (goes_on d n i s); simplify_eq; (etrans; [|exact Hle]); keeps K.
  - destruct (free d n max (worker_of n i) s) eqn:F; simplify_eq.
    eapply in_use_take; [done..| |done]. unfold holds. rewrite K. by intros ?%bool_decide_eq_true.
  - destruct (goes_on d n i s); simplify_eq; (etrans; [|exact Hle]); keeps K.
  - destruct (receive i s) as [[b s1]|] eqn:R; [|done].
    destruct (receive_counts _ _ _ _ k R) as (H1 & H2 & H3). etrans; [|exact Hle].
    destruct b; [|destruct (is_tcp d)]; simplify_eq; keeps K.
  - destruct (goes_on d n i s); simplify_eq; (etrans; [|exact Hle]); keeps K.
  - etrans; [|exact Hle]. destruct (goes_on d n i s); [destruct c; [..|]|]; simplify_eq;
      try (destruct (is_tcp d)); keeps K.
  - simplify_eq. etrans; [|exact Hle]. apply spawn_in_use; auto.
Qed.

Lemma router_in_use m k c i p s s' :
  limited m s -> kind_of d n i = Router -> tasks s !! i = Some p -> in_use d n k s <= m ->
  router_step d n max capacity c i p s = Some s' -> in_use d n k s' <= m.
Proof.
  intros Hm K Hp Hle. destruct p; simpl; try done; intros E;
    try (etrans; [eapply (register_in_use k c); [exact Hp|exact E]|exact Hle]).
  - destruct (goes_on d n i s); simplify_eq; (etrans; [|exact Hle]); keeps K.
  - destruct (receive i s) as [[b s1]|] eqn:R; [|done]. rewrite K in E.
    destruct (receive_counts _ _ _ _ k R) as (H1 & H2 & H3). etrans; [|exact Hle].
    destruct b; [|destruct (is_tcp d)]; simplify_eq; keeps K.
  - destruct (goes_on d n i s); simplify_eq; (etrans; [|exact Hle]); keeps K.
  - destruct (goes_on d n i s); simplify_eq; (etrans; [|exact Hle]); keeps K.
  - injection E as <-. destruct c as [| | |k']; try (etrans; [|exact Hle]; keeps K).
    case_decide; [|etrans; [|exact Hle]; keeps K]. rewrite K.
    destruct (free d n max k' s) eqn:F; [|etrans; [|exact Hle]; keeps K].
    eapply in_use_take; [done..| |done]. unfold holds. rewrite K. by intros ?%bool_decide_eq_true.
  - destruct (receiver_alive _ s); [case_decide|]; simplify_eq; (etrans; [|exact Hle]); [|keeps K].
    assert (in_use d n k (set_pc i Check (set_queue k0 (S (queue_of k0 s)) s)) <= in_use d n k s + 0);
      [|lia].
    eapply in_use_move; [done..|]. pose proof (queue_set k0 (S (queue_of k0 s)) k s) as Hq.
    change (handlers_of k (set_queue k0 (S (queue_of k0 s)) s)) with (handlers_of k s).
    unfold holds, unit_of. rewrite K. destruct (decide (k0 = k)) as [->|Hne];
      [rewrite bool_decide_true by done|rewrite bool_decide_false by done]; lia.
Qed.

Lemma dispatch_in_use m k c i p s s' :
  kind_of d n i = Dispatcher -> tasks s !! i = Some p -> in_use d n k s <= m ->
  dispatch_step d n c i p s = Some s' -> in_use d n k s' <= m.
Proof.
  intros K Hp Hle. destruct p; simpl; try done; intros E; (etrans; [|exact Hle]).
  - destruct (goes_on d n i s); simplify_eq; keeps K.
  - destruct (queue_of i s) as [|q] eqn:Q; [destruct (sender_alive n s); simplify_eq; keeps K|].
    injection E as <-.
    assert (in_use d n k (set_pc i CheckReceived (set_queue i q s)) <= in_use d n k s + 0); [|lia].
    eapply in_use_move; [done..|]. pose proof (queue_set i q k s) as Hq.
    change (handlers_of k (set_queue i q s)) with (handlers_of k s).
    assert (Hw : worker_of n i = i).
    { unfold worker_of. unfold kind_of in K. by destruct d, (decide (i < n)). }
    unfold holds, unit_of. rewrite K, Hw. destruct (decide (i = k)) as [->|Hne];
      [rewrite bool_decide_true by done|rewrite bool_decide_false by done]; lia.
  - destruct (goes_on d n i s); simplify_eq; keeps K.
  - simplify_eq. apply spawn_in_use; auto.
Qed.

(** A task step keeps the permits of a worker within the limit. *)
Lemma task_in_use m k c i s s' :
  d <> RoutedCallbacks -> max = Some m -> in_use d n k s <= m ->
  task_step d n max capacity c i s = Some s' -> in_use d n k s' <= m.
Proof.
  intros Hd Hm%(max_limited m s) Hle E. unfold task_step in E. destruct (tasks s !! i) as [p|] eqn:Hp; [|done].
  destruct (kind_of d n i) eqn:K; destruct p; try done;
    try (by eapply listener_in_use); try (by eapply router_in_use); try (by eapply dispatch_in_use);
    exfalso; revert K; unfold kind_of; clear -Hd; destruct d; try done; by case_decide.
Qed.

(** So does everything else: [close] touches no permit, and a handler that ends or a
    task that is dropped gives up what it holds. *)
Lemma close_in_use k c j s s' : close_step d c j s = Some s' -> in_use d n k s' = in_use d n k s.
Proof. unfold close_step. intros E. repeat (case_match; simplify_eq; try done). Qed.

Lemma happens_in_use k h s s' :
  d <> RoutedCallbacks -> happens d n h s = Some s' -> in_use d n k s' <= in_use d n k s.
Proof.
  intros Hd. assert (Hk : forall i, kind_of d n i <> Callback).
  { intros i. unfold kind_of. destruct d; try done; by case_decide. }
  destruct h; simpl; intros E.
  - by simplify_eq.
  - destruct (handlers_of k0 s) as [|h] eqn:H; simplify_eq. rewrite !in_use_held.
    pose proof (handlers_set k0 h k s) as Hh. change (queue_of k (set_handlers k0 h s)) with (queue_of k s).
    change (tasks (set_handlers k0 h s)) with (tasks s). case_decide; subst; lia.
  - by simplify_eq.
  - destruct (tasks s !! i) as [p|] eqn:Hp; [|done]. case_match; [|done]. simplify_eq.
    by eapply in_use_finish.
  - by rewrite decide_False in E.
  - by rewrite decide_False in E.
Qed.

Lemma start_holds_nothing i k : holds d n i (start_pc d n i) k = false.
Proof. unfold holds, start_pc. by destruct (kind_of d n i), (is_tcp d). Qed.

Lemma replicate_default k : default 0 (replicate n 0 !! k) = 0.
Proof. destruct (replicate n 0 !! k) eqn:E; [|done]. by apply lookup_replicate in E as [-> _]. Qed.

Lemma in_use_start k c : in_use d n k (start d n c) = 0.
Proof.
  rewrite in_use_held. unfold handlers_of, queue_of. simpl. rewrite !replicate_default. simpl.
  unfold held. destruct (filter _ _) as [|ip l] eqn:Hl; [done|]. exfalso.
  assert (Hip : ip ∈ ip :: l) by left. rewrite <- Hl in Hip.
  apply list_elem_of_filter in Hip as [Hh [j Hj]%list_elem_of_lookup].
  rewrite list_lookup_imap, list_lookup_fmap in Hj.
  destruct (seq 0 (task_count d n) !! j) eqn:Hs; simplify_eq/=.
  apply lookup_seq in Hs as [-> _]. by rewrite start_holds_nothing in Hh.
Qed.

(** The permits of a worker in use never exceed the limit. *)
Lemma limit_kept m c s k :
  d <> RoutedCallbacks -> max = Some m -> reachable d n max capacity c s -> in_use d n k s <= m.
Proof.
  intros Hd Hm Hr. induction Hr as [|s a s' _ IH E].
  - rewrite in_use_start. lia.
  - destruct a; simpl in E.
    + by eapply task_in_use.
    + by rewrite (close_in_use _ _ _ _ _ E).
    + etrans; [by eapply happens_in_use|done].
Qed.
(** Only a routing loop fills a queue, and only up to its capacity. *)
Lemma finish_queue k i s : queue_of k (finish d n i s) <= queue_of k s.
Proof.
  unfold finish. pose proof (queue_set i 0 k (set_pc i Ended s)) as H.
  change (queue_of k (set_pc i Ended s)) with (queue_of k s) in H.
  destruct (kind_of d n i); try done; case_decide; lia.
Qed.

Ltac queue_kept :=
  lazymatch goal with
  | H : receive _ _ = Some (_, _) |- queue_of ?k _ <= _ =>
      apply (receive_counts _ _ _ _ k) in H as (_ & _ & H)
  | |- _ => idtac
  end;
  lazymatch goal with
  | |- queue_of ?k (finish _ _ ?i _) <= _ => etrans; [apply finish_queue|]; congruence || lia
  | |- queue_of ?k (set_pc _ _ (set_queue ?j ?q ?s)) <= _ =>
      etrans; [apply (queue_set j q k s)|]; destruct (decide (j = k)); subst; lia
  | |- queue_of ?k (set_pc _ _ ?s) <= _ => change (queue_of k s <= capacity); congruence || lia
  end.

Lemma task_queue k c i s s' : (forall j, queue_of j s <= capacity) ->
  task_step d n max capacity c i s = Some s' -> queue_of k s' <= capacity.
Proof.
  intros Hall. pose proof (Hall k) as Hq.
  unfold task_step, listener_step, router_step, dispatch_step, register_step, spawn_step.
  intros E. repeat case_match; simplify_eq; try done; queue_kept.
Qed.

Lemma queue_kept c s : reachable d n max capacity c s -> forall k, queue_of k s <= capacity.
Proof.
  induction 1 as [|s a s' _ IH E]; intros k.
  - unfold queue_of. simpl. rewrite replicate_default. lia.
  - pose proof (IH k). destruct a; simpl in E.
    + by eapply task_queue.
    + unfold close_step in E. repeat case_match; simplify_eq; done.
    + destruct h; simpl in E; repeat case_match; simplify_eq; try done.
      * etrans; [apply finish_queue|done].
      * etrans; [apply (queue_set k0)|]. destruct (decide (k0 = k)); subst; lia.
      * etrans; [apply finish_queue|done].
Qed.
End Permits.

(** C21: The concurrency limit and the queue capacity hold for the whole running
    server.  Whatever the interleaving of its tasks, of handlers that start and end, of
    calls of [close] and of the world, and however a permit travels -- taken by a
    listener before it receives, or by the routing loop and sent with the item through
    the worker's queue -- a queue never holds more items than its capacity, and on
    every worker of a server with handlers the running handlers and the items waiting
    for it together never exceed the limit. *)
Theorem handlers_within_limit d n max capacity c s k :
  reachable d n max capacity c s ->
  queue_of k s <= capacity /\
  (d <> RoutedCallbacks -> forall m, max = Some m -> handlers_of k s + queue_of k s <= m).
Proof.
  intros Hr. split; [by eapply queue_kept|]. intros Hd m Hm.
  pose proof (limit_kept d n max capacity m c s k Hd Hm Hr) as Hle.
  rewrite in_use_held in Hle. lia.
Qed.

(** ** Concrete runs *)

(** A UDP or QUIC server without kernel balancing, one worker: a datagram is routed and
    handled, [close] runs while the routing loop waits, and everything ends. *)
Definition routed_run : list action :=
  (Task Go <$> [1; 1; 1; 1; 1; 1; 0]) ++ [World (Arrives 1 true)] ++
  [Task Go 1; Task Go 1; Task (To 0) 1; Task Go 1; Task Go 0; Task Go 0; Task Go 0; Task Go 1] ++
  replicate 12 (Close (To 1) 0) ++ [Task Go 1; Task Go 1; Task Go 0].

Definition routed_end : option server := run RoutedUdp 1 (Some 2) 8 routed_run (start RoutedUdp 1 1).

Definition summary (s : server) : list pc * list close_pc * nat * list nat * bool :=
  (tasks s, closers s, started s, sockets s, bool_decide (1 ∈ shut s)).

Example routed_end_summary :
  summary <$> routed_end = Some ([Ended; Ended], [Returned], 1, [], true).
Proof. vm_compute. reflexivity. Qed.

(** A listener task that begins to register its socket while [close] runs enters it
    into registries that were emptied already: its loop ends at its first check, but
    the two clones stay open until the server itself is dropped. *)
Definition late_registration : option server :=
  run NativeUdp 1 None 8 (replicate 10 (Close Go 0) ++ replicate 6 (Task Go 0)) (start NativeUdp 1 1).

Example late_registration_summary :
  summary <$> late_registration = Some ([Ended], [Returned], 0, [0], false) /\
  thread_sockets <$> late_registration = Some {[0 := 0]}.
Proof. split; vm_compute; reflexivity. Qed.

(** A loop that has checked its flags starts its handler after [close] has returned. *)
Definition accept_one : list action :=
  [World (Arrives 0 true)] ++ replicate 6 (Task Go 0) ++ replicate 2 (Close Go 0).

Example handler_after_close :
  summary <$> run NativeTcp 1 None 8 accept_one (start NativeTcp 1 1) =
    Some ([Spawn], [Returned], 0, [], false) /\
  summary <$> run NativeTcp 1 None 8 (accept_one ++ [Task Go 0]) (start NativeTcp 1 1) =
    Some ([Check], [Returned], 1, [], false).
Proof. split; vm_compute; reflexivity. Qed.

(** Unless its task is cancelled, a TCP accept loop outlives [close]: it waits, and keeps
    its socket, until somebody connects. *)
Definition accepting : server :=
  default (start NativeTcp 1 1)
    (run NativeTcp 1 None 8 (replicate 4 (Task Go 0) ++ replicate 2 (Close Go 0)) (start NativeTcp 1 1)).

Ltac quiet_solve :=
  split; [intros c i; destruct i as [|[|i]]; destruct c; vm_compute; reflexivity
         |intros c j; destruct j as [|j]; vm_compute; reflexivity].

Lemma accept_outlives_close :
  quiet NativeTcp 1 None 8 accepting /\ closers accepting = [Returned] /\ tasks accepting = [Receive].
Proof. split; [quiet_solve|]. split; vm_compute; reflexivity. Qed.

Definition routed_final : server := default (start RoutedUdp 1 1) routed_end.

Lemma routed_end_some : routed_end = Some routed_final.
Proof.
  unfold routed_final.
  assert (H : match routed_end with Some _ => true | None => false end = true) by (vm_compute; reflexivity).
  by destruct routed_end.
Qed.

Lemma routed_final_reached : reachable RoutedUdp 1 (Some 2) 8 1 routed_final.
Proof.
  apply (run_reachable RoutedUdp 1 (Some 2) 8 1 routed_run (start RoutedUdp 1 1)); [constructor|].
  rewrite <- routed_end_some. unfold routed_end. reflexivity.
Qed.

(** Two workers on one port: both wake-ups arrive at the socket of worker 0 -- the kernel
    chooses the socket -- and the loop of worker 1 waits on after [close] has returned,
    unless its task is dropped. *)
Definition elsewhere_run : list action :=
  replicate 8 (Task Go 0) ++ replicate 8 (Task Go 1) ++ replicate 14 (Close (To 0) 0) ++
  replicate 2 (Task Go 0).
Definition elsewhere : server :=
  default (start NativeUdp 2 1) (run NativeUdp 2 None 8 elsewhere_run (start NativeUdp 2 1)).

Lemma elsewhere_reached : reachable NativeUdp 2 None 8 1 elsewhere.
Proof.
  apply (run_reachable NativeUdp 2 None 8 1 elsewhere_run (start NativeUdp 2 1)); [constructor|].
  vm_compute. reflexivity.
Qed.

Lemma wake_ups_elsewhere :
  quiet NativeUdp 2 None 8 elsewhere /\ closers elsewhere = [Returned] /\
  tasks elsewhere = [Ended; Receive].
Proof. split; [quiet_solve|]. split; vm_compute; reflexivity. Qed.

Lemma close_ends_every_loop_witness :
  waits NativeUdp 2 None 8 elsewhere 1 Receive /\
  tasks routed_final = [Ended; Ended] /\
  forall i p, tasks routed_final !! i = Some p -> p = Ended \/ kind_of RoutedUdp 1 i = Callback.
Proof.
  split; [|split; [vm_compute; reflexivity|]].
  - destruct wake_ups_elsewhere as (Hq & Hc & Ht).
    destruct (close_ends_every_loop NativeUdp 2 None 8 1 elsewhere 1 Receive) as ([He|Hw] & _);
      [lia|exact elsewhere_reached|rewrite Hc; by left|exact Hq|by rewrite Ht|discriminate He|exact Hw].
  - intros i p Hp.
    destruct (close_ends_every_loop RoutedUdp 1 (Some 2) 8 1 routed_final i p) as (_ & _ & Hd);
      [lia|exact routed_final_reached|vm_compute; by left|clear; quiet_solve|exact Hp|].
    apply Hd. intros [|[|k]]; vm_compute; reflexivity.
Defined.

Definition begun : server :=
  set_closer 0 (Lock Pool) (set_flags true false (start NativeUdp 2 1)).
Definition begun_run : list action := replicate 9 (Close Go 0) ++ replicate 6 (Task Go 1).
Definition rested : server := default begun (run NativeUdp 2 None 8 begun_run begun).

Lemma closing_comes_to_rest_witness :
  sum_list_with inner begun_run <= 43 /\ started rested <= 0 /\ tasks rested = [CloneThread; Ended].
Proof.
  assert (H : sum_list_with inner begun_run <= 43 /\ started rested <= 0).
  { apply (closing_comes_to_rest NativeUdp 2 None 8 1 begun begun_run rested 0 (Lock Pool)).
    - apply (run_reachable NativeUdp 2 None 8 1 [Close Go 0] (start NativeUdp 2 1)); [constructor|].
      unfold begun. reflexivity.
    - reflexivity.
    - discriminate.
    - vm_compute. reflexivity. }
  destruct H as [H1 H2]. split; [exact H1|]. split; [exact H2|]. vm_compute. reflexivity.
Defined.

(** Two datagrams for a worker with one permit: the second is dropped while the handler
    of the first runs, and routed once it has ended. *)
Definition busy_run : list action :=
  (Task Go <$> [1; 1; 1; 1; 1; 1; 0]) ++ [World (Arrives 1 true); World (Arrives 1 true)] ++
  [Task Go 1; Task Go 1; Task (To 0) 1; Task Go 1; Task Go 0; Task Go 0; Task Go 0] ++
  [Task Go 1; Task Go 1; Task Go 1; Task (To 0) 1].
Definition again_run : list action :=
  [World (HandlerEnds 0); World (Arrives 1 true)] ++
  [Task Go 1; Task Go 1; Task Go 1; Task (To 0) 1; Task Go 1].
Definition busy : server := default (start RoutedUdp 1 1) (run RoutedUdp 1 (Some 1) 8 busy_run (start RoutedUdp 1 1)).
Definition again : server := default busy (run RoutedUdp 1 (Some 1) 8 again_run busy).

Lemma handlers_within_limit_witness :
  (tasks busy = [Check; Check] /\ handlers_of 0 busy = 1 /\ queue_of 0 busy = 0) /\
  (handlers_of 0 again = 0 /\ queue_of 0 again = 1) /\
  queue_of 0 again <= 8 /\ handlers_of 0 again + queue_of 0 again <= 1.
Proof.
  split; [by vm_compute|]. split; [by vm_compute|].
  assert (Hr : reachable RoutedUdp 1 (Some 1) 8 1 again).
  { apply (run_reachable RoutedUdp 1 (Some 1) 8 1 (busy_run ++ again_run) (start RoutedUdp 1 1));
      [constructor|vm_compute; reflexivity]. }
  destruct (handlers_within_limit RoutedUdp 1 (Some 1) 8 1 again 0 Hr) as [Hq Hl].
  split; [exact Hq|]. apply Hl; [discriminate|reflexivity].
Defined.
