(* ===== verification/ServerState.v ===== *)
(** * The state of a server: [UdpServerState] of [src/src/core/udp.rs], [TcpServerState] of [tcp.rs]

    What a server keeps so that it can be closed and hand out its sockets: the
    active flag, task handles, clones of its listener sockets in three registries,
    and a counter.  The registries are mutexes that may be poisoned.  The events
    record what happens to descriptors and tasks. *)

From S2P Require Import Prelude Errors Net Effects Recv.
From stdpp Require Import gmap fin_maps.
#[local] Open Scope Z_scope.

Notation fd := Z (only parsing).

(** [std::sync::Mutex<T>]: [lock] fails when a thread panicked holding it. *)
Record Mutex (A : Type) := mkMutex { poisoned : bool; data : A }.
Arguments mkMutex {A} poisoned data.
Arguments poisoned {A} m.
Arguments data {A} m.

Definition lock {A} (m : Mutex A) : option A := if poisoned m then None else Some (data m).
Definition set_data {A} (m : Mutex A) (a : A) : Mutex A := mkMutex (poisoned m) a.

Record UdpServerState := mkState {
  active : bool;
  tasks : Mutex (list Z);
  callback_tasks : Mutex (list Z);
  sockets : Mutex (list fd);
  close_sockets : Mutex (list fd);
  thread_sockets : Mutex (gmap Z fd);
  next_socket : Z;
}.

Inductive state_event :=
| Woken (s : fd) (target : SocketAddr) (ok : bool)
| ShutdownBoth (s : fd)
| Cloned (s s' : fd)
| Closed (s : fd)
| HandedOut (s : fd)
| Cancelled (task : Z)
| TaskDropped (task : Z).

Class StateEnv (W : Type) := {
  st_local_addr : fd -> W -> io_result SocketAddr * W;
  st_bind : SocketAddr -> W -> io_result fd * W;
  st_send_to : fd -> bytes -> SocketAddr -> W -> io_result Z * W;
  st_shutdown : fd -> W -> io_result unit * W;
  st_try_clone : fd -> W -> io_result fd * W;
  st_close : fd -> W -> unit * W;
  st_cancel : Z -> W -> unit * W;
  st_drop_task : Z -> W -> unit * W;
  st_from_std : fd -> W -> io_result Z * W;
  st_time_seed : W -> Z * W;
}.

Definition new : UdpServerState :=
  mkState true (mkMutex false []) (mkMutex false []) (mkMutex false []) (mkMutex false [])
    (mkMutex false ∅) 0.

(** The target of [wake_udp_socket]: a socket bound to every address is woken on
    the loopback one. *)
Definition wake_target (local_addr : SocketAddr) : SocketAddr :=
  if is_unspecified (addr_ip local_addr)
  then SocketAddr_new (match addr_ip local_addr with
                       | IpV4 _ => IpV4 ipv4_localhost
                       | IpV6 _ => IpV6 ipv6_localhost
                       end) (addr_port local_addr)
  else local_addr.

Definition wake_bind_addr (target : SocketAddr) : SocketAddr :=
  if is_ipv4 target then SocketAddrV4 ipv4_localhost 0 else SocketAddrV6 ipv6_localhost 0 0 0.

Section State.
Context {W : Type} `{StateEnv W}.
#[local] Abbreviation io A := (prog W state_event A).

Definition close_fd (s : fd) : io unit := call (st_close s) (fun _ => Closed s).

(** [wake_udp_socket]; the temporary sender is dropped at once and never leaves
    the function. *)
Definition wake_udp_socket (s : fd) : io unit :=
  a ← ask (st_local_addr s);
  match a with
  | Err _ => mret ()
  | Ok local_addr =>
      let target := wake_target local_addr in
      sender ← ask (st_bind (wake_bind_addr target));
      match sender with
      | Err _ => mret ()
      | Ok sender =>
          _ ← call (st_send_to sender [0] target) (fun r => Woken s target (is_ok r));
          ask (st_close sender)
      end
  end.

(** [for x in v { f(x) }] *)
Fixpoint for_each {A} (f : A -> io unit) (v : list A) : io unit :=
  match v with
  | [] => mret ()
  | x :: v => _ ← f x; for_each f v
  end.

(** One socket of [sockets.drain(..)]: shut down, then dropped. *)
Definition shutdown_socket (s : fd) : io unit :=
  _ ← call (st_shutdown s) (fun _ => ShutdownBoth s);
  close_fd s.

(** The two [if let Ok(mut sockets) = ..lock()] blocks of [close]. *)
Definition close_registry (m : Mutex (list fd)) : io (Mutex (list fd)) :=
  match lock m with
  | None => mret m
  | Some v =>
      _ ← for_each wake_udp_socket v;
      _ ← for_each shutdown_socket v;
      mret (set_data m [])
  end.

Definition clear_threads (m : Mutex (gmap Z fd)) : io (Mutex (gmap Z fd)) :=
  match lock m with
  | None => mret m
  | Some map => _ ← for_each close_fd (map_to_list map).*2; mret (set_data m ∅)
  end.

Definition cancel_tasks (m : Mutex (list Z)) : io (Mutex (list Z)) :=
  match lock m with
  | None => mret m
  | Some v => _ ← for_each (fun t => call (st_cancel t) (fun _ => Cancelled t)) v; mret (set_data m [])
  end.

(** [tasks.clear()]: the handles are dropped, which leaves the tasks running. *)
Definition drop_tasks (m : Mutex (list Z)) : io (Mutex (list Z)) :=
  match lock m with
  | None => mret m
  | Some v => _ ← for_each (fun t => call (st_drop_task t) (fun _ => TaskDropped t)) v; mret (set_data m [])
  end.

(** [UdpServerState::close] *)
Definition close (st : UdpServerState) : io UdpServerState :=
  so ← close_registry (sockets st);
  cs ← close_registry (close_sockets st);
  th ← clear_threads (thread_sockets st);
  ta ← cancel_tasks (tasks st);
  ca ← drop_tasks (callback_tasks st);
  mret (mkState false ta ca so cs th (next_socket st)).

(** [register_task], [register_callback_task]: on a poisoned lock the handle is
    dropped. *)
Definition push_task (m : Mutex (list Z)) (t : Z) (message : string) :
    io (Mutex (list Z) * crate_result unit) :=
  match lock m with
  | None => _ ← call (st_drop_task t) (fun _ => TaskDropped t); mret (m, Err (Runtime message))
  | Some v => mret (set_data m (v ++ [t]), Ok ())
  end.

Definition register_task (st : UdpServerState) (t : Z) : io (UdpServerState * crate_result unit) :=
  r ← push_task (tasks st) t "udp task registry lock poisoned";
  mret (mkState (active st) r.1 (callback_tasks st) (sockets st) (close_sockets st)
          (thread_sockets st) (next_socket st), r.2).

Definition register_callback_task (st : UdpServerState) (t : Z) :
    io (UdpServerState * crate_result unit) :=
  r ← push_task (callback_tasks st) t "udp callback task registry lock poisoned";
  mret (mkState (active st) (tasks st) r.1 (sockets st) (close_sockets st)
          (thread_sockets st) (next_socket st), r.2).

Definition try_clone (s : fd) : io (crate_result fd) :=
  r ← ask (st_try_clone s);
  match r with
  | Ok s' => _ ← emit (Cloned s s'); mret (Ok s')
  | Err e => mret (Err (Error_from e))
  end.

Definition socket_lock_error : Error := Runtime "server socket registry lock poisoned".

(** [sockets[index]] out of range panics; this stands for the panic, which
    [listener_socket_spec] shows never happens. *)
Definition panicked : Error := Handler "index out of bounds".

(** [register_listener_socket], called on thread [thread]. *)
Definition register_listener_socket (st : UdpServerState) (thread : Z) (s : fd) :
    io (UdpServerState * crate_result unit) :=
  thread_socket ← try_clone s;
  match thread_socket with
  | Err e => mret (st, Err e)
  | Ok thread_socket =>
      pool_socket ← try_clone s;
      match pool_socket with
      | Err e => _ ← close_fd thread_socket; mret (st, Err e)
      | Ok pool_socket =>
          match lock (thread_sockets st) with
          | None => _ ← close_fd pool_socket; _ ← close_fd thread_socket; mret (st, Err socket_lock_error)
          | Some map =>
              _ ← (match map !! thread with Some old => close_fd old | None => mret () end);
              let st := mkState (active st) (tasks st) (callback_tasks st) (sockets st)
                          (close_sockets st) (set_data (thread_sockets st) (<[thread := thread_socket]> map))
                          (next_socket st) in
              match lock (sockets st) with
              | None => _ ← close_fd pool_socket; mret (st, Err socket_lock_error)
              | Some v =>
                  mret (mkState (active st) (tasks st) (callback_tasks st)
                          (set_data (sockets st) (v ++ [pool_socket])) (close_sockets st)
                          (thread_sockets st) (next_socket st), Ok ())
              end
          end
      end
  end.

(** [register_close_socket] *)
Definition register_close_socket (st : UdpServerState) (s : fd) :
    io (UdpServerState * crate_result unit) :=
  match lock (close_sockets st) with
  | None => mret (st, Err socket_lock_error)
  | Some v =>
      s' ← try_clone s;
      match s' with
      | Err e => mret (st, Err e)
      | Ok s' =>
          mret (mkState (active st) (tasks st) (callback_tasks st) (sockets st)
                  (set_data (close_sockets st) (v ++ [s'])) (thread_sockets st) (next_socket st), Ok ())
      end
  end.

(** [runtime::udp_socket_from_std(socket).map(UdpSocket::from_runtime)] *)
Definition into_runtime (s : fd) : io (crate_result UdpSocketInner) :=
  r ← ask (st_from_std s);
  match r with
  | Ok socket => _ ← emit (HandedOut s); mret (Ok (RuntimeSocket socket))
  | Err e => _ ← close_fd s; mret (Err (Error_from e))
  end.

(** [listener_socket]: the calling thread's socket, else one of the pool. *)
Definition listener_socket (st : UdpServerState) (thread : Z) :
    io (UdpServerState * crate_result UdpSocketInner) :=
  if negb (active st) then mret (st, Err (Runtime "server is closed"))
  else
    match lock (thread_sockets st) with
    | None => mret (st, Err socket_lock_error)
    | Some map =>
        match map !! thread with
        | Some s =>
            c ← try_clone s;
            match c with
            | Err e => mret (st, Err e)
            | Ok s' => r ← into_runtime s'; mret (st, r)
            end
        | None =>
            match lock (sockets st) with
            | None => mret (st, Err socket_lock_error)
            | Some [] => mret (st, Err (Runtime "server has no listener socket"))
            | Some v =>
                time ← ask st_time_seed;
                let seed := Z.lxor (next_socket st) time in
                let st := mkState (active st) (tasks st) (callback_tasks st) (sockets st)
                            (close_sockets st) (thread_sockets st) (usize (next_socket st + 1)) in
                match get v (seed mod len v) with
                | None => mret (st, Err panicked)
                | Some s =>
                    c ← try_clone s;
                    match c with
                    | Err e => mret (st, Err e)
                    | Ok s' => r ← into_runtime s'; mret (st, r)
                    end
                end
            end
        end
    end.
End State.

(** ** Descriptors held by the registries *)

Definition held (st : UdpServerState) : list fd :=
  data (sockets st) ++ data (close_sockets st) ++ (map_to_list (data (thread_sockets st))).*2.

Definition cloned1 (e : state_event) : list fd := match e with Cloned _ s' => [s'] | _ => [] end.
Definition closed1 (e : state_event) : list fd := match e with Closed s => [s] | _ => [] end.
Definition shut1 (e : state_event) : list fd := match e with ShutdownBoth s => [s] | _ => [] end.
Definition cancelled1 (e : state_event) : list Z := match e with Cancelled t => [t] | _ => [] end.
Definition dropped1 (e : state_event) : list Z := match e with TaskDropped t => [t] | _ => [] end.

Definition each {A} (f : state_event -> list A) (l : list state_event) : list A := concat (f <$> l).

Arguments each {A} f l : simpl never.

Lemma each_nil {A} (f : state_event -> list A) : each f [] = [].
Proof. done. Qed.

Lemma each_app {A} (f : state_event -> list A) l1 l2 : each f (l1 ++ l2) = each f l1 ++ each f l2.
Proof. unfold each. by rewrite fmap_app, concat_app. Qed.

Lemma each_cons {A} (f : state_event -> list A) e l : each f (e :: l) = f e ++ each f l.
Proof. done. Qed.

Lemma each_fmap_none {A B} (f : state_event -> list A) (g : B -> state_event) v :
  (forall x, f (g x) = []) -> each f (g <$> v) = [].
Proof.
  intros E. induction v as [|x v IH]; [done|]. by rewrite fmap_cons, each_cons, E, IH.
Qed.
Lemma each_fmap_id {B} (f : state_event -> list B) (g : B -> state_event) v :
  (forall x, f (g x) = [x]) -> each f (g <$> v) = v.
Proof.
  intros E. induction v as [|x v IH]; [done|]. by rewrite fmap_cons, each_cons, E, IH.
Qed.

Lemma concat_singleton {A} (v : list A) : concat ((fun x => [x]) <$> v) = v.
Proof. induction v as [|x v IH]; [done|]. rewrite fmap_cons. simpl. by rewrite IH. Qed.
Lemma concat_none {A B} (v : list A) : concat ((fun _ => @nil B) <$> v) = [].
Proof. by induction v. Qed.

(** Nothing is left open: the registries are empty. *)
Definition emptied (st : UdpServerState) : Prop :=
  active st = false /\ data (tasks st) = [] /\ data (callback_tasks st) = [] /\ held st = [].

Definition no_poison (st : UdpServerState) : bool :=
  negb (poisoned (tasks st)) && negb (poisoned (callback_tasks st)) && negb (poisoned (sockets st)) &&
  negb (poisoned (close_sockets st)) && negb (poisoned (thread_sockets st)).

Section Close.
Context {W : Type} `{StateEnv W}.
#[local] Abbreviation io A := (prog W state_event A).

(** Events of a loop over a list, when each step leaves a known list. *)
Lemma wp_for_each {A} (f : A -> io unit) (P : A -> list state_event -> Prop) v Q :
  (forall x, wp (f x) (fun _ l => P x l)) ->
  (forall ls, Forall2 P v ls -> Q () (concat ls)) -> wp (for_each f v) Q.
Proof.
  intros Hf. revert Q. induction v as [|x v IH]; intros Q HQ; simpl.
  - apply wp_ret. by apply (HQ []).
  - apply wp_bind. eapply wp_mono; [apply Hf|]. intros [] l Hl. apply IH. intros ls Hls.
    apply (HQ (l :: ls)). by constructor.
Qed.

(** The events of waking a socket: a wake-up or nothing. *)
Definition wakes (s : fd) (l : list state_event) : Prop :=
  l = [] \/ exists target ok, l = [Woken s target ok].

Lemma wake_log s : wp (wake_udp_socket s) (fun _ l => wakes s l).
Proof.
  unfold wake_udp_socket. apply wp_bind, wp_ask. intros [a|e]; [|by apply wp_ret; left].
  apply wp_bind, wp_ask. intros [sd|e]; [|by apply wp_ret; left].
  apply wp_bind, wp_call. intros r. apply wp_ask. intros []. right. eauto.
Qed.

Lemma shutdown_log s : wp (shutdown_socket s) (fun _ l => l = [ShutdownBoth s; Closed s]).
Proof. apply wp_bind, wp_call. intros r. by apply wp_call. Qed.

(** Only wake-ups in these events. *)
Definition only_wakes (l : list state_event) : Prop :=
  Forall (fun e => match e with Woken _ _ _ => True | _ => False end) l.

Lemma only_wakes_each {A} (f : state_event -> list A) l :
  (forall s t ok, f (Woken s t ok) = []) -> only_wakes l -> each f l = [].
Proof.
  intros Hf. induction 1 as [|e l He _ IH]; [done|]. destruct e; try done.
  by rewrite each_cons, Hf, IH.
Qed.

Lemma wakes_only v ls : Forall2 wakes v ls -> only_wakes (concat ls).
Proof.
  induction 1 as [|s l v ls Hl _ IH]; simpl; [constructor|]. apply Forall_app. split; [|done].
  destruct Hl as [->|(t & ok & ->)]; repeat constructor.
Qed.

(** The events of closing one registry. *)
Definition registry_log (m : Mutex (list fd)) (l : list state_event) : Prop :=
  exists wk, Forall2 wakes (data m) wk /\ l = concat wk ++ concat ((fun s => [ShutdownBoth s; Closed s]) <$> data m).

Lemma forall2_eq {A B} (g : A -> B) v ls : Forall2 (fun x l => l = g x) v ls -> ls = g <$> v.
Proof. induction 1 as [|x l v ls -> _ IH]; [done|]. by rewrite fmap_cons, IH. Qed.

Lemma close_registry_log m : poisoned m = false ->
  wp (close_registry m) (fun m' l => m' = set_data m [] /\ registry_log m l).
Proof.
  intros Hp. unfold close_registry, lock. rewrite Hp. apply wp_bind.
  eapply wp_for_each; [apply wake_log|]. intros wk Hwk. apply wp_bind.
  eapply wp_for_each; [apply shutdown_log|]. intros ls Hls%forall2_eq. apply wp_ret.
  split; [done|]. exists wk. split; [done|]. by rewrite app_nil_r, Hls.
Qed.

Lemma for_each_emits {A} (f : A -> io unit) (g : A -> state_event) v :
  (forall x, wp (f x) (fun _ l => l = [g x])) -> wp (for_each f v) (fun _ l => l = g <$> v).
Proof.
  intros Hf. eapply wp_for_each; [apply Hf|]. intros ls Hls%(forall2_eq (fun x => [g x])). subst ls.
  induction v as [|x v IH]; [done|]. rewrite !fmap_cons. simpl. by rewrite IH.
Qed.

Lemma clear_threads_log m : poisoned m = false ->
  wp (clear_threads m) (fun m' l => m' = set_data m ∅ /\ l = Closed <$> (map_to_list (data m)).*2).
Proof.
  intros Hp. unfold clear_threads, lock. rewrite Hp. apply wp_bind.
  eapply wp_mono; [apply (for_each_emits _ Closed)|].
  - intros x. by apply wp_call.
  - intros [] l ->. apply wp_ret. by rewrite app_nil_r.
Qed.

Lemma cancel_tasks_log m : poisoned m = false ->
  wp (cancel_tasks m) (fun m' l => m' = set_data m [] /\ l = Cancelled <$> data m).
Proof.
  intros Hp. unfold cancel_tasks, lock. rewrite Hp. apply wp_bind.
  eapply wp_mono; [apply (for_each_emits _ Cancelled)|].
  - intros x. by apply wp_call.
  - intros [] l ->. apply wp_ret. by rewrite app_nil_r.
Qed.

Lemma drop_tasks_log m : poisoned m = false ->
  wp (drop_tasks m) (fun m' l => m' = set_data m [] /\ l = TaskDropped <$> data m).
Proof.
  intros Hp. unfold drop_tasks, lock. rewrite Hp. apply wp_bind.
  eapply wp_mono; [apply (for_each_emits _ TaskDropped)|].
  - intros x. by apply wp_call.
  - intros [] l ->. apply wp_ret. by rewrite app_nil_r.
Qed.

Lemma close_log st : no_poison st = true ->
  wp (close st) (fun st' l => emptied st' /\ no_poison st' = true /\
    exists l1 l2, registry_log (sockets st) l1 /\ registry_log (close_sockets st) l2 /\
      l = l1 ++ l2 ++ (Closed <$> (map_to_list (data (thread_sockets st))).*2) ++
          (Cancelled <$> data (tasks st)) ++ (TaskDropped <$> data (callback_tasks st))).
Proof.
  unfold no_poison. rewrite !andb_true_iff, !negb_true_iff. intros [[[[Ht Hc] Hs] Hcs] Hth].
  apply wp_bind. eapply wp_mono; [by apply close_registry_log|]. intros m1 l1 [-> H1].
  apply wp_bind. eapply wp_mono; [by apply close_registry_log|]. intros m2 l2 [-> H2].
  apply wp_bind. eapply wp_mono; [by apply clear_threads_log|]. intros m3 l3 [-> ->].
  apply wp_bind. eapply wp_mono; [by apply cancel_tasks_log|]. intros m4 l4 [-> ->].
  apply wp_bind. eapply wp_mono; [by apply drop_tasks_log|]. intros m5 l5 [-> ->].
  apply wp_ret. split; [by unfold emptied, held; simpl; rewrite map_to_list_empty|].
  split; [by simpl; rewrite Ht, Hc, Hs, Hcs, Hth|]. exists l1, l2. by rewrite app_nil_r.
Qed.
End Close.

Section Registries.
Context {W : Type} `{StateEnv W}.
#[local] Abbreviation io A := (prog W state_event A).

Definition vals (m : gmap Z fd) : list fd := (map_to_list m).*2.

Lemma vals_insert (m : gmap Z fd) k v :
  default [] (fmap (fun s => [s]) (m !! k)) ++ vals (<[k := v]> m) ≡ₚ v :: vals m.
Proof.
  unfold vals. destruct (m !! k) as [old|] eqn:E; simpl.
  - rewrite <- insert_delete_eq, map_to_list_insert by apply lookup_delete_eq.
    rewrite <- (map_to_list_delete m k old E). simpl. constructor.
  - by rewrite map_to_list_insert.
Qed.

Definition handed1 (e : state_event) : list fd := match e with HandedOut s => [s] | _ => [] end.

(** Descriptors created plus those held before are those closed, those handed to
    the caller and those held after. *)
Definition accounted (st : UdpServerState) (st' : UdpServerState) (l : list state_event) : Prop :=
  each cloned1 l ++ held st ≡ₚ each closed1 l ++ each handed1 l ++ held st'.

Lemma into_runtime_cases s :
  wp (into_runtime (W := W) s) (fun r l =>
    l = [HandedOut s] /\ (exists n, r = Ok (RuntimeSocket n)) \/ l = [Closed s] /\ exists e, r = Err e).
Proof.
  apply wp_bind, wp_ask. intros [n|e].
  - apply wp_bind, wp_emit, wp_ret. left. eauto.
  - apply wp_bind, wp_call. intros []. apply wp_ret. right. eauto.
Qed.

Lemma try_clone_cases s :
  wp (try_clone (W := W) s) (fun r l =>
    match r with Ok s' => l = [Cloned s s'] | Err _ => l = [] end).
Proof.
  apply wp_bind, wp_ask. intros [s'|e]; [|by apply wp_ret]. by apply wp_bind, wp_emit, wp_ret.
Qed.

Lemma register_listener_accounted st thread s :
  wp (register_listener_socket (W := W) st thread s) (fun r l => accounted st r.1 l).
Proof.
  unfold register_listener_socket, accounted.
  apply wp_bind. eapply wp_mono; [apply try_clone_cases|]. intros [ts|e] l ->; [|by apply wp_ret].
  apply wp_bind. eapply wp_mono; [apply try_clone_cases|]. intros [ps|e] l ->.
  2: { apply wp_bind, wp_call. intros []. apply wp_ret. done. }
  destruct (lock (thread_sockets st)) as [map|] eqn:Eth.
  2: { apply wp_bind, wp_call. intros []. apply wp_bind, wp_call. intros []. apply wp_ret.
       unfold each. simpl. solve_Permutation. }
  assert (map = data (thread_sockets st)) as ->.
  { unfold lock in Eth. destruct (poisoned (thread_sockets st)); congruence. }
  pose proof (vals_insert (data (thread_sockets st)) thread ts) as Hv. unfold vals in Hv.
  apply wp_bind.
  apply wp_mono with (Q := fun _ l => each cloned1 l = [] /\ each handed1 l = [] /\
    each closed1 l = default [] ((fun x => [x]) <$> data (thread_sockets st) !! thread)).
  { destruct (data (thread_sockets st) !! thread); [by apply wp_call|by apply wp_ret]. }
  intros [] l (Ec & Eh & Ecl). cbn [sockets]. destruct (lock (sockets st)) as [v|] eqn:Es.
  - assert (v = data (sockets st)) as ->.
    { unfold lock in Es. destruct (poisoned (sockets st)); congruence. }
    apply wp_ret. rewrite !each_app, Ec, Eh, Ecl. unfold held. simpl.
    revert Hv. generalize (default [] ((fun x => [x]) <$> data (thread_sockets st) !! thread)).
    intros d Hv. rewrite ?app_nil_r.
    transitivity (data (sockets st) ++ [ps] ++ data (close_sockets st) ++
      (d ++ (map_to_list (<[thread := ts]> (data (thread_sockets st)))).*2)); [|solve_Permutation].
    rewrite Hv. solve_Permutation.
  - apply wp_bind, wp_call. intros []. apply wp_ret.
    rewrite !each_app, Ec, Eh, Ecl. unfold held. simpl.
    revert Hv. generalize (default [] ((fun x => [x]) <$> data (thread_sockets st) !! thread)).
    intros d Hv. rewrite ?app_nil_r.
    transitivity (data (sockets st) ++ [ps] ++ data (close_sockets st) ++
      (d ++ (map_to_list (<[thread := ts]> (data (thread_sockets st)))).*2)); [|solve_Permutation].
    rewrite Hv. solve_Permutation.
Qed.

Lemma register_close_accounted st s :
  wp (register_close_socket (W := W) st s) (fun r l => accounted st r.1 l).
Proof.
  unfold register_close_socket, accounted.
  destruct (lock (close_sockets st)) as [v|] eqn:Es; [|by apply wp_ret].
  assert (v = data (close_sockets st)) as ->.
  { unfold lock in Es. destruct (poisoned (close_sockets st)); congruence. }
  apply wp_bind. eapply wp_mono; [apply try_clone_cases|]. intros [s'|e] l ->; apply wp_ret; [|done].
  unfold each, held. simpl. solve_Permutation.
Qed.

(** A clone handed to the caller, or closed. *)
Lemma clone_out_accounted st s :
  wp (c ← try_clone (W := W) s;
      match c with
      | Err e => mret (st, Err e)
      | Ok s' => r ← into_runtime s'; mret (st, r)
      end) (fun r l => accounted st r.1 l /\ r.1 = st).
Proof.
  apply wp_bind. eapply wp_mono; [apply try_clone_cases|]. intros [s'|e] l ->.
  2: { apply wp_ret. split; [|done]. unfold accounted. reflexivity. }
  apply wp_bind. eapply wp_mono; [apply into_runtime_cases|].
  intros r l [[-> _]|[-> _]]; apply wp_ret; (split; [|done]); unfold accounted; reflexivity.
Qed.

Lemma listener_socket_accounted st thread :
  wp (listener_socket (W := W) st thread) (fun r l => accounted st r.1 l).
Proof.
  assert (forall st' : UdpServerState, held st' = held st -> accounted st st' []) as Hnil.
  { intros st' E. unfold accounted. rewrite E. reflexivity. }
  unfold listener_socket. destruct (negb (active st)); [by apply wp_ret, Hnil|].
  destruct (lock (thread_sockets st)) as [map|]; [|by apply wp_ret, Hnil].
  destruct (map !! thread) as [s|].
  { eapply wp_mono; [apply clone_out_accounted|]. by intros r l []. }
  destruct (lock (sockets st)) as [[|s0 v]|]; try (by apply wp_ret, Hnil).
  apply wp_bind, wp_ask. intros time.
  destruct (get (s0 :: v) _) as [s|]; [|by apply wp_ret, Hnil].
  eapply wp_mono; [apply clone_out_accounted|]. intros r l [Ha _]. exact Ha.
Qed.
End Registries.

(** ** Claims *)

Section Claims.
Context {W : Type} `{StateEnv W}.

Lemma each_concat {A B} (f : state_event -> list A) (g : B -> list state_event) (h : B -> list A) v :
  (forall x, each f (g x) = h x) -> each f (concat (g <$> v)) = concat (h <$> v).
Proof.
  intros E. induction v as [|x v IH]; [done|]. rewrite !fmap_cons. cbn [concat].
  by rewrite each_app, E, IH.
Qed.

Lemma registry_log_each {A} (f : state_event -> list A) (h : fd -> list A) m l :
  (forall s t ok, f (Woken s t ok) = []) -> (forall s, each f [ShutdownBoth s; Closed s] = h s) ->
  registry_log m l -> each f l = concat (h <$> data m).
Proof.
  intros Hw Hh (wk & Hwk & ->). rewrite each_app, only_wakes_each; [|done|by eapply wakes_only].
  by apply each_concat.
Qed.

Lemma registry_log_empty m l : data m = [] -> registry_log m l -> l = [].
Proof. intros Hm (wk & Hwk & ->). rewrite Hm in *. by inv Hwk. Qed.

(** C34: Closing a server releases everything, once.  Unless a lock is poisoned,
    [close] clears the active flag and empties every registry; it shuts down each
    listener socket exactly once and in order, closes every descriptor the
    registries held exactly once, cancels every listener task exactly once, and
    drops the callback tasks without cancelling them.  Closing again does nothing. *)
Theorem close_releases_everything st (w w2 : W) :
  no_poison st = true ->
  let st' := value (close st) w in
  let l := log (close st) w in
  emptied st' /\
  each shut1 l = data (sockets st) ++ data (close_sockets st) /\
  each closed1 l = held st /\
  each cancelled1 l = data (tasks st) /\ each dropped1 l = data (callback_tasks st) /\
  log (close st') w2 = [] /\ emptied (value (close st') w2).
Proof.
  intros Hp. destruct (close_log st Hp w) as (He & Hp' & l1 & l2 & H1 & H2 & Hl). simpl in *.
  destruct (close_log _ Hp' w2) as (He2 & _ & k1 & k2 & K1 & K2 & Hl2). simpl in *.
  rewrite Hl, Hl2, !each_app. unfold held.
  rewrite !(registry_log_each shut1 (fun s => [s]) _ _ ltac:(done) ltac:(done) H1),
    !(registry_log_each shut1 (fun s => [s]) _ _ ltac:(done) ltac:(done) H2),
    !(registry_log_each closed1 (fun s => [s]) _ _ ltac:(done) ltac:(done) H1),
    !(registry_log_each closed1 (fun s => [s]) _ _ ltac:(done) ltac:(done) H2),
    !(registry_log_each cancelled1 (fun s => []) _ _ ltac:(done) ltac:(done) H1),
    !(registry_log_each cancelled1 (fun s => []) _ _ ltac:(done) ltac:(done) H2),
    !(registry_log_each dropped1 (fun s => []) _ _ ltac:(done) ltac:(done) H1),
    !(registry_log_each dropped1 (fun s => []) _ _ ltac:(done) ltac:(done) H2).
  rewrite !concat_singleton, !concat_none.
  rewrite (each_fmap_none shut1 Closed), (each_fmap_none shut1 Cancelled),
    (each_fmap_none shut1 TaskDropped), (each_fmap_id closed1 Closed), (each_fmap_none closed1 Cancelled),
    (each_fmap_none closed1 TaskDropped), (each_fmap_none cancelled1 Closed),
    (each_fmap_id cancelled1 Cancelled), (each_fmap_none cancelled1 TaskDropped),
    (each_fmap_none dropped1 Closed), (each_fmap_none dropped1 Cancelled),
    (each_fmap_id dropped1 TaskDropped) by done.
  rewrite !app_nil_r, !app_nil_l. split_and!; try done.
  destruct He as (_ & Ht & Hc & Hh). unfold held in Hh.
  apply app_eq_nil in Hh as [Hs [Hcs Hth]%app_eq_nil].
  rewrite (registry_log_empty _ _ Hs K1), (registry_log_empty _ _ Hcs K2), Hth, Ht, Hc. done.
Qed.

(** No descriptor is lost in the registries.  Whichever clone or lock fails,
    after [register_listener_socket], [register_close_socket] and
    [listener_socket] the clones made plus what the registries held are exactly
    what was closed, what was handed to the caller and what they hold now; a
    thread's earlier socket is closed when it is replaced. *)
Theorem registries_account_for_descriptors st thread s (w : W) :
  accounted st (value (register_listener_socket st thread s) w).1
    (log (register_listener_socket st thread s) w) /\
  accounted st (value (register_close_socket st s) w).1 (log (register_close_socket st s) w) /\
  accounted st (value (listener_socket st thread) w).1 (log (listener_socket st thread) w).
Proof.
  split; [apply register_listener_accounted|].
  split; [apply register_close_accounted|apply listener_socket_accounted].
Qed.

Lemma clone_out_spec (st : UdpServerState) s :
  wp (W := W) (c ← try_clone s;
      match c with
      | Err e => mret (st, Err e)
      | Ok s' => r ← into_runtime s'; mret (st, r)
      end) (fun r l => r.1 = st /\ r.2 <> Err panicked /\ forall s' c, Cloned s' c ∈ l -> s' = s).
Proof.
  assert (forall e, Error_from e <> panicked) as Hne.
  { intros e. unfold Error_from, Error_socket, panicked. by case_bool_decide. }
  apply wp_bind, wp_bind, wp_ask. intros [s'|e].
  - apply wp_bind, wp_emit, wp_ret. apply wp_bind, wp_bind, wp_ask. intros [n|e].
    + apply wp_bind, wp_emit, wp_ret, wp_ret. set_solver.
    + apply wp_bind, wp_call. intros []. apply wp_ret, wp_ret. simpl.
      split; [done|]. split; [intros [= E]; by apply (Hne e)|set_solver].
  - apply wp_ret, wp_ret. simpl. split; [done|]. split; [intros [= E]; by apply (Hne e)|set_solver].
Qed.

(** What [listener_socket] may return and do on thread [thread]. *)
Definition listener_result (st : UdpServerState) (thread : Z)
    (r : UdpServerState * crate_result UdpSocketInner) (l : list state_event) : Prop :=
  r.2 <> Err panicked /\
  (active st = false -> r = (st, Err (Runtime "server is closed")) /\ l = []) /\
  (active st = true ->
    match data (thread_sockets st) !! thread with
    | Some s => r.1 = st /\ forall s' c, Cloned s' c ∈ l -> s' = s
    | None =>
        match data (sockets st) with
        | [] => r = (st, Err (Runtime "server has no listener socket"))
        | v => next_socket r.1 = usize (next_socket st + 1) /\ forall s' c, Cloned s' c ∈ l -> s' ∈ v
        end
    end).

(** [listener_socket] on every branch.  A closed server gives an error and clones
    nothing; a thread that registered a socket gets a clone of that one; any
    other thread gets a clone of a socket of the pool -- the index is always in
    range -- and the counter advances; with an empty pool it is an error. *)
Theorem listener_socket_spec st thread (w : W) :
  no_poison st = true ->
  listener_result st thread (value (listener_socket st thread) w) (log (listener_socket st thread) w).
Proof.
  unfold no_poison. rewrite !andb_true_iff, !negb_true_iff. intros [[[_ Hs] _] Hth].
  apply (wp_use _ (listener_result st thread)).
  unfold listener_socket, listener_result, lock. rewrite Hs, Hth.
  destruct (active st) eqn:Ea; simpl; [|apply wp_ret; naive_solver].
  destruct (data (thread_sockets st) !! thread) as [s|] eqn:Et.
  { eapply wp_mono; [apply clone_out_spec|]. intros r l (? & ? & ?). split_and!; naive_solver. }
  destruct (data (sockets st)) as [|s0 v] eqn:Ev; [apply wp_ret; naive_solver|].
  apply wp_bind, wp_ask. intros time.
  destruct (get (s0 :: v) _) as [s|] eqn:Eg.
  - eapply wp_mono; [apply clone_out_spec|]. intros r l (Er & ? & Hc).
    split; [done|]. split; [done|]. intros _. rewrite Er. split; [done|].
    intros s' c Hin. apply Hc in Hin as ->. by apply list_elem_of_lookup_2 in Eg.
  - exfalso. destruct (get_in_range (s0 :: v) (Z.lxor (next_socket st) time mod len (s0 :: v)));
      [|congruence]. apply Z.mod_pos_bound. unfold len. simpl. lia.
Qed.
End Claims.

(** ** [TcpServerState] *)
Module TcpState.
Record TcpServerState := mkTcpState { tcp_active : bool; tcp_tasks : Mutex (list Z) }.

Definition tcp_new : TcpServerState := mkTcpState true (mkMutex false []).

Section Tcp.
Context {W : Type} `{StateEnv W}.

Definition tcp_register_task (st : TcpServerState) (t : Z) :
    prog W state_event (TcpServerState * crate_result unit) :=
  r ← push_task (tcp_tasks st) t "tcp task registry lock poisoned";
  mret (mkTcpState (tcp_active st) r.1, r.2).

Definition tcp_close (st : TcpServerState) : prog W state_event TcpServerState :=
  ta ← cancel_tasks (tcp_tasks st);
  mret (mkTcpState false ta).

(** Register tasks one by one, then close. *)
Fixpoint register_all (st : TcpServerState) (ts : list Z) : prog W state_event TcpServerState :=
  match ts with
  | [] => mret st
  | t :: ts => r ← tcp_register_task st t; register_all r.1 ts
  end.

Lemma register_all_log st ts : poisoned (tcp_tasks st) = false ->
  wp (register_all st ts) (fun st' l => l = [] /\ poisoned (tcp_tasks st') = false /\
    data (tcp_tasks st') = data (tcp_tasks st) ++ ts).
Proof.
  revert st. induction ts as [|t ts IH]; intros st Hp; simpl.
  - apply wp_ret. by rewrite app_nil_r.
  - apply wp_bind. unfold tcp_register_task, push_task, lock. rewrite Hp.
    apply wp_bind, wp_ret, wp_ret. eapply wp_mono; [by apply IH|]. simpl.
    intros st' l (-> & Hp' & ->). by rewrite <- (assoc_L (++)).
Qed.

(** A TCP server cancels exactly its own tasks: after any tasks were registered,
    [close] clears the flag, cancels each of them once in order, and forgets them. *)
Theorem tcp_close_cancels_tasks ts (w : W) :
  let m := st ← register_all tcp_new ts; tcp_close st in
  tcp_active (value m w) = false /\ data (tcp_tasks (value m w)) = [] /\
  log m w = Cancelled <$> ts.
Proof.
  apply (wp_use (st ← register_all tcp_new ts; tcp_close st)
    (fun st l => tcp_active st = false /\ data (tcp_tasks st) = [] /\ l = Cancelled <$> ts)).
  apply wp_bind. eapply wp_mono; [by apply register_all_log|]. intros st l (-> & Hp & Hd).
  apply wp_bind. eapply wp_mono; [by apply cancel_tasks_log|]. intros m l [-> ->]. apply wp_ret.
  split; [done|]. split; [done|]. by rewrite app_nil_r, Hd.
Qed.
End Tcp.
End TcpState.

(** A world that grants everything and numbers new descriptors. *)
#[local] Instance granting_state : StateEnv Z := {|
  st_local_addr _ w := (Ok (SocketAddrV4 [0; 0; 0; 0] 53), w);
  st_bind _ w := (Ok w, w + 1);
  st_send_to _ b _ w := (Ok (len b), w);
  st_shutdown _ w := (Ok (), w);
  st_try_clone _ w := (Ok w, w + 1);
  st_close _ w := ((), w);
  st_cancel _ w := ((), w);
  st_drop_task _ w := ((), w);
  st_from_std s w := (Ok s, w);
  st_time_seed w := (123456789, w);
|}.

Definition example_state : UdpServerState :=
  mkState true (mkMutex false [1; 2]) (mkMutex false [3]) (mkMutex false [10; 11]) (mkMutex false [12])
    (mkMutex false (<[7 := 13]> ∅)) 5.

Lemma close_releases_everything_witness :
  each shut1 (log (close example_state) 20) = [10; 11; 12] /\
  each cancelled1 (log (close example_state) 20) = [1; 2].
Proof.
  destruct (close_releases_everything example_state 20 0 eq_refl) as (_ & ? & _ & ? & _). auto.
Defined.

Lemma listener_socket_spec_witness :
  listener_result example_state 8 (value (listener_socket example_state 8) 20)
    (log (listener_socket example_state 8) 20).
Proof. exact (listener_socket_spec example_state 8 20 eq_refl). Defined.
