(* ===== verification/ServerRuntime.v ===== *)
(** * The server runtime: [src/src/core/server_runtime.rs]

    Worker threads, each with its executor, and the submission of tasks to them.
    Starting a thread, its executor's mailbox and the identity of the calling
    thread are an interface; the executor behind the mailbox is [Executor.v]. *)

From S2P Require Import Prelude Errors Effects Config.

(** [WorkerHandle]: its executor, the thread that owns it, and whether its shutdown
    sender and join handle are still there. *)
Record WorkerHandle := mkWorker {
  executor : Z;
  owner_thread : Z;
  has_shutdown : bool;
  has_join : bool;
}.

Record ServerRuntimeInner := mkInner {
  workers : list WorkerHandle;
  active : bool;
  next_worker : Z;
}.

Inductive runtime_event :=
| Started (name : string) (executor : Z)
| StartFailed (name : string)
| ShutdownSent (executor : Z)
| Joined (executor : Z)
| Submitted (executor : Z) (ok : bool)
| Deactivated.

Class RuntimeEnv (W : Type) := {
  rt_num_cpus : W -> Z * W;
  (** [thread::Builder::spawn]: the new thread, which owns its executor. *)
  rt_spawn_thread : string -> W -> io_result Z * W;
  (** The executor the thread sends back; [None] if it ended without one. *)
  rt_receive_executor : Z -> W -> option Z * W;
  rt_shutdown : Z -> W -> unit * W;
  rt_join : Z -> W -> unit * W;
  rt_spawn_task : Z -> W -> io_result Z * W;
}.

Section Runtime.
Context {W : Type} `{RuntimeEnv W}.
#[local] Abbreviation io A := (prog W runtime_event A).

(** [start_worker] *)
Definition start_worker (name : string) : io (io_result WorkerHandle) :=
  thread ← ask (rt_spawn_thread name);
  match thread with
  | Err e => _ ← emit (StartFailed name); mret (Err e)
  | Ok thread =>
      executor ← ask (rt_receive_executor thread);
      match executor with
      | None =>
          _ ← emit (StartFailed name);
          mret (Err (Io.mkError Io.BrokenPipe "worker runtime stopped"))
      | Some executor => _ ← emit (Started name executor); mret (Ok (mkWorker executor thread true true))
      end
  end.

(** [Drop for WorkerHandle] *)
Definition drop_worker (self : WorkerHandle) : io unit :=
  _ ← (if has_shutdown self then call (rt_shutdown (executor self)) (fun _ => ShutdownSent (executor self))
       else mret ());
  if has_join self then call (rt_join (executor self)) (fun _ => Joined (executor self)) else mret ().

Fixpoint drop_workers (v : list WorkerHandle) : io unit :=
  match v with
  | [] => mret ()
  | x :: v => _ ← drop_worker x; drop_workers v
  end.

(** [Drop for ServerRuntimeInner], then its fields. *)
Definition drop_runtime (self : ServerRuntimeInner) : io ServerRuntimeInner :=
  _ ← emit Deactivated;
  _ ← drop_workers (workers self);
  mret (mkInner [] false (next_worker self)).

Definition worker_name (worker_id : nat) : string :=
  "sfo-reuseport-worker-" +:+ pretty (Z.of_nat worker_id).

(** [for worker_id in 0..count { workers.push(start_worker(..)?) }]: [n] still to
    start; an error drops the workers already started. *)
Fixpoint start_workers (n worker_id : nat) (acc : list WorkerHandle) :
    io (crate_result (list WorkerHandle)) :=
  match n with
  | O => mret (Ok acc)
  | S n =>
      r ← prog_map_err Error_from (start_worker (worker_name worker_id));
      match r with
      | Ok worker => start_workers n (S worker_id) (acc ++ [worker])
      | Err e => _ ← drop_workers acc; mret (Err e)
      end
  end.

(** [ServerRuntime::start] *)
Definition start (config : Server.ServerRuntimeConfig) : io (crate_result ServerRuntimeInner) :=
  match Server.validate config with
  | Err e => mret (Err e)
  | Ok _ =>
      count ← (match Server.workers config with
               | DefaultWorkers => n ← ask rt_num_cpus; mret (Z.max n 1)
               | Fixed workers => mret workers
               end);
      workers ←? start_workers (Z.to_nat count) 0 [];
      mret (Ok (mkInner workers true 0))
  end.

Definition worker_count (self : ServerRuntimeInner) : Z := len (workers self).

Definition worker_executors (self : ServerRuntimeInner) : list Z := executor <$> workers self.

Definition ensure_running (self : ServerRuntimeInner) : crate_result unit :=
  if active self then Ok () else Err (Runtime "server runtime is stopped").

Definition worker (self : ServerRuntimeInner) (worker_id : Z) : crate_result WorkerHandle :=
  ok_or (InvalidConfig "worker index is out of range") (get (workers self) worker_id).

(** [is_owner_thread] of a worker, and [current_worker_id]: the first such. *)
Definition is_owner_thread (current : Z) (self : WorkerHandle) : bool := current =? owner_thread self.

Definition current_worker_id (self : ServerRuntimeInner) (current : Z) : option Z :=
  Z.of_nat <$> (fst <$> list_find (fun x => is_owner_thread current x = true) (workers self)).

(** [random_worker_id]: [fetch_add(1) % worker_count]. *)
Definition random_worker_id (self : ServerRuntimeInner) : ServerRuntimeInner * crate_result Z :=
  match ensure_running self with
  | Err e => (self, Err e)
  | Ok _ =>
      if bool_decide (worker_count self = 0)
      then (self, Err (Runtime "server runtime has no worker threads"))
      else (mkInner (workers self) (active self) (usize (next_worker self + 1)),
            Ok (next_worker self mod worker_count self))
  end.

(** [submit_to_executor], [submit_to_worker] *)
Definition submit_to_executor (executor : Z) : io (crate_result Z) :=
  prog_map_err Error_from
    (call (rt_spawn_task executor) (fun r => Submitted executor (is_ok r))).

Definition submit_to_worker (self : ServerRuntimeInner) (worker_id : Z) : io (crate_result Z) :=
  match worker self worker_id with
  | Err e => mret (Err e)
  | Ok w => submit_to_executor (executor w)
  end.

(** [spawn_task], called on thread [current]. *)
Definition spawn_task (self : ServerRuntimeInner) (current : Z) :
    io (ServerRuntimeInner * crate_result Z) :=
  match ensure_running self with
  | Err e => mret (self, Err e)
  | Ok _ =>
      match current_worker_id self current with
      | Some worker_id => r ← submit_to_worker self worker_id; mret (self, r)
      | None =>
          let '(self, worker_id) := random_worker_id self in
          match worker_id with
          | Err e => mret (self, Err e)
          | Ok worker_id => r ← submit_to_worker self worker_id; mret (self, r)
          end
      end
  end.
End Runtime.

(** ** Round robin *)

(** [n] successive draws. *)
Fixpoint draws (n : nat) (self : ServerRuntimeInner) : list (crate_result Z) :=
  match n with
  | O => []
  | S n => let '(self, r) := random_worker_id self in r :: draws n self
  end.

Lemma draws_spec k self :
  active self = true -> 0 < worker_count self -> 0 <= next_worker self ->
  next_worker self + Z.of_nat k <= 2 ^ 64 ->
  draws k self = (fun i => Ok (i mod worker_count self)) <$> seqZ (next_worker self) (Z.of_nat k).
Proof.
  revert self. induction k as [|k IH]; intros self Ha Hn H0 Hk; [done|].
  simpl draws. unfold random_worker_id, ensure_running. rewrite Ha, bool_decide_false by lia.
  rewrite seqZ_cons by lia. rewrite fmap_cons. f_equal.
  destruct k as [|k]; [done|].
  assert (usize (next_worker self + 1) = next_worker self + 1) as E.
  { apply u64_id. unfold is_u64. lia. }
  rewrite E, IH; try done; cbn [next_worker]; try lia.
  replace (Z.pred (Z.of_nat (S (S k)))) with (Z.of_nat (S k)) by lia. done.
Qed.

(** [n] consecutive numbers modulo [n] are all the residues. *)
Lemma seqZ_mod_Permutation a n : 0 < n ->
  (fun i => i mod n) <$> seqZ a n ≡ₚ seqZ 0 n.
Proof.
  intros Hn. apply NoDup_Permutation.
  - apply NoDup_fmap_2_strong; [|apply NoDup_seqZ]. intros x y Hx Hy E.
    apply elem_of_seqZ in Hx, Hy. pose proof (Z.div_mod x n). pose proof (Z.div_mod y n).
    assert (x / n - y / n = 0) by nia. nia.
  - apply NoDup_seqZ.
  - intros x. rewrite list_elem_of_fmap. split.
    + intros (i & -> & _). apply elem_of_seqZ. pose proof (Z.mod_pos_bound i n Hn). lia.
    + intros Hx%elem_of_seqZ. exists (a + (x - a) mod n).
      pose proof (Z.mod_pos_bound (x - a) n Hn). split; [|apply elem_of_seqZ; lia].
      rewrite Zplus_mod_idemp_r. replace (a + (x - a)) with x by lia. by rewrite Z.mod_small by lia.
Qed.

(** ** Starting and dropping *)

Definition dropped_log (v : list WorkerHandle) : list runtime_event :=
  concat ((fun x => [ShutdownSent (executor x); Joined (executor x)]) <$> v).

(** Names and executors of workers started from [i] on. *)
Definition started_log (i : nat) (v : list WorkerHandle) : list runtime_event :=
  imap (fun k x => Started (worker_name (i + k)) (executor x)) v.

Lemma started_log_cons i x v :
  started_log i (x :: v) = Started (worker_name i) (executor x) :: started_log (S i) v.
Proof.
  unfold started_log. rewrite imap_cons. f_equal; [by rewrite Nat.add_0_r|].
  apply imap_ext. intros k y _. simpl. by rewrite Nat.add_succ_r.
Qed.

Definition fresh_worker (x : WorkerHandle) : Prop := has_shutdown x = true /\ has_join x = true.

Section Start.
Context {W : Type} `{RuntimeEnv W}.

Lemma drop_workers_log v : Forall fresh_worker v ->
  wp (W := W) (drop_workers v) (fun _ l => l = dropped_log v).
Proof.
  induction 1 as [|x v [Hs Hj] _ IH]; simpl; [by apply wp_ret|].
  apply wp_bind. unfold drop_worker. rewrite Hs, Hj. apply wp_bind, wp_call. intros [].
  apply wp_call. intros []. eapply wp_mono; [exact IH|]. by intros [] l ->.
Qed.

(** All the workers in order, or those started dropped again. *)
Definition start_outcome (n i : nat) (acc : list WorkerHandle)
    (r : crate_result (list WorkerHandle)) (l : list runtime_event) : Prop :=
  match r with
  | Ok v => exists v', v = acc ++ v' /\ length v' = n /\ l = started_log i v' /\ Forall fresh_worker v'
  | Err _ => exists v', (length v' < n)%nat /\
      l = started_log i v' ++ [StartFailed (worker_name (i + length v'))] ++ dropped_log (acc ++ v')
  end.

Lemma start_worker_cases name :
  wp (W := W) (start_worker name) (fun r l =>
    match r with
    | Ok x => l = [Started name (executor x)] /\ fresh_worker x
    | Err _ => l = [StartFailed name]
    end).
Proof.
  apply wp_bind, wp_ask. intros [th|e]; [|by apply wp_bind, wp_emit, wp_ret].
  apply wp_bind, wp_ask. intros [ex|]; by apply wp_bind, wp_emit, wp_ret.
Qed.

Lemma start_workers_spec n i acc : Forall fresh_worker acc ->
  wp (W := W) (start_workers n i acc) (start_outcome n i acc).
Proof.
  revert i acc. induction n as [|n IH]; intros i acc Hacc; simpl.
  - apply wp_ret. exists []. by rewrite app_nil_r.
  - apply wp_bind, wp_map_err. eapply wp_mono; [apply start_worker_cases|].
    intros [x|e] l; simpl.
    + intros [-> Hx]. eapply wp_mono; [apply IH, Forall_app; split; [done|by constructor]|].
      intros [v|e] l Hl; simpl in Hl |- *.
      * destruct Hl as (v' & -> & Hn & -> & Hv). exists (x :: v').
        rewrite <- (assoc_L (++)), started_log_cons.
        split_and!; [done|simpl; lia|done|by constructor].
      * destruct Hl as (v' & Hn & ->). exists (x :: v'). split; [simpl; lia|].
        rewrite <- (assoc_L (++) acc), started_log_cons. simpl. by rewrite Nat.add_succ_r.
    + intros ->. apply wp_bind. eapply wp_mono; [by apply drop_workers_log|]. intros [] l ->.
      apply wp_ret. exists []. split; [simpl; lia|]. by rewrite !app_nil_r, Nat.add_0_r.
Qed.
End Start.

(** ** Claims *)

Section Claims.
Context {W : Type} `{RuntimeEnv W}.

(** Round robin is fair.  As long as the counter does not wrap, any [n]
    consecutive choices of a running runtime with [n] workers pick every worker
    exactly once; every single choice is in range. *)
Theorem round_robin_fair self :
  active self = true -> 0 < worker_count self -> 0 <= next_worker self ->
  next_worker self + worker_count self <= 2 ^ 64 ->
  draws (length (workers self)) self ≡ₚ Ok <$> seqZ 0 (worker_count self).
Proof.
  intros Ha Hn H0 Hmax. rewrite draws_spec by done.
  rewrite <- (seqZ_mod_Permutation (next_worker self) (worker_count self) Hn).
  by rewrite <- list_fmap_compose.
Qed.

(** How many workers a configuration asks for. *)
Definition wanted (config : Server.ServerRuntimeConfig) (cpus : Z) : Z :=
  match Server.workers config with DefaultWorkers => Z.max cpus 1 | Fixed n => n end.

(** C37: Starting is all or nothing.  [start] refuses a fixed count of zero before
    any thread exists.  Otherwise it starts the configured number of workers (at
    least one, one per processor by default), named in order, and returns a
    running runtime; or, when a thread cannot be started, every worker already
    started is shut down and joined, in order, before the error is returned. *)
Theorem start_all_or_nothing config (w : W) :
  (Server.workers config = Fixed 0 ->
     value (start config) w = Err (InvalidConfig "worker count must be greater than zero") /\
     log (start config) w = []) /\
  (Server.workers config <> Fixed 0 -> exists cpus,
    match value (start config) w with
    | Ok rt =>
        worker_count rt = Z.max 0 (wanted config cpus) /\ active rt = true /\ next_worker rt = 0 /\
        log (start config) w = started_log 0 (workers rt)
    | Err _ => exists v, len v < wanted config cpus /\
        log (start config) w =
          started_log 0 v ++ [StartFailed (worker_name (length v))] ++ dropped_log v
    end).
Proof.
  split.
  - intros E. unfold start, Server.validate. by rewrite bool_decide_true.
  - intros E. apply (wp_use (start config) (fun r l => exists cpus,
      match r with
      | Ok rt => worker_count rt = Z.max 0 (wanted config cpus) /\ active rt = true /\
          next_worker rt = 0 /\ l = started_log 0 (workers rt)
      | Err _ => exists v, len v < wanted config cpus /\
          l = started_log 0 v ++ [StartFailed (worker_name (length v))] ++ dropped_log v
      end)).
    unfold start, Server.validate. rewrite bool_decide_false by done.
    apply wp_bind. eapply wp_mono with (Q := fun c l => l = [] /\ exists cpus, c = wanted config cpus).
    { unfold wanted. destruct (Server.workers config).
      - apply wp_bind, wp_ask. intros n. apply wp_ret. eauto.
      - apply wp_ret. split; [done|]. by exists 0. }
    intros c l [-> [cpus ->]]. apply wp_try. eapply wp_mono; [by apply start_workers_spec|].
    intros [v|e] l Hl; simpl in Hl.
    + destruct Hl as (v' & -> & Hlen & -> & _). apply wp_ret. exists cpus. simpl.
      rewrite app_nil_r. unfold worker_count, len. simpl. split_and!; try done. lia.
    + destruct Hl as (v' & Hlen & ->). exists cpus, v'. split; [unfold len; lia|done].
Qed.

Lemma current_worker_id_Some self current i :
  current_worker_id self current = Some i ->
  exists x, get (workers self) i = Some x /\ owner_thread x = current.
Proof.
  unfold current_worker_id. destruct (list_find _ _) as [[n x]|] eqn:E; [|done].
  intros [= <-]. apply list_find_Some in E as (Hn & Ho & _). exists x.
  unfold get. rewrite Nat2Z.id. split; [done|].
  unfold is_owner_thread in Ho. by apply Z.eqb_eq in Ho.
Qed.

Lemma submit_log self i x : get (workers self) i = Some x ->
  wp (W := W) (submit_to_worker self i) (fun _ l => exists ok, l = [Submitted (executor x) ok]).
Proof.
  intros E. unfold submit_to_worker, worker. rewrite E. apply wp_map_err, wp_call. eauto.
Qed.

(** Where a task submitted from thread [current] goes. *)
Definition placement (self : ServerRuntimeInner) (current : Z)
    (r : ServerRuntimeInner * crate_result Z) (l : list runtime_event) : Prop :=
  (active self = false -> r = (self, Err (Runtime "server runtime is stopped")) /\ l = []) /\
  (active self = true ->
    match current_worker_id self current with
    | Some i => exists x ok, get (workers self) i = Some x /\ owner_thread x = current /\
        r.1 = self /\ l = [Submitted (executor x) ok]
    | None =>
        (workers self = [] -> r = (self, Err (Runtime "server runtime has no worker threads")) /\ l = []) /\
        (workers self <> [] -> exists x ok,
           get (workers self) (next_worker self mod worker_count self) = Some x /\
           next_worker r.1 = usize (next_worker self + 1) /\ l = [Submitted (executor x) ok])
    end).

(** Where a spawned task runs.  On a stopped runtime [spawn_task] fails and
    submits nothing.  Called on a worker's own thread the task goes to that
    worker's executor and the round-robin counter is untouched; called anywhere
    else it goes to the executor of worker [next mod n] and the counter advances
    (wrapping at 64 bits).  A runtime without workers reports an error. *)
Theorem spawn_task_placement self current (w : W) :
  placement self current (value (spawn_task self current) w) (log (spawn_task self current) w).
Proof.
  apply (wp_use (spawn_task self current) (placement self current)).
  unfold spawn_task, placement, random_worker_id, ensure_running.
  destruct (active self); [|by apply wp_ret].
  destruct (current_worker_id self current) as [i|] eqn:Ei.
  - destruct (current_worker_id_Some _ _ _ Ei) as (x & Hx & Ho). apply wp_bind.
    eapply wp_mono; [by apply submit_log|]. intros r l [ok ->]. apply wp_ret.
    split; [done|]. intros _. exists x, ok. done.
  - case_bool_decide as Hn.
    + apply wp_ret. split; [done|]. intros _. split; [done|]. intros Hne. exfalso. apply Hne.
      unfold worker_count, len in Hn. by apply length_zero_iff_nil; lia.
    + assert (0 < worker_count self) as Hpos.
      { unfold worker_count in *. pose proof (len_nonneg (workers self)). lia. }
      destruct (get_in_range (workers self) (next_worker self mod worker_count self)) as [x Hx];
        [by apply Z.mod_pos_bound|].
      apply wp_bind. eapply wp_mono; [by apply (submit_log (mkInner _ _ _) _ x)|].
      intros r l [ok ->]. apply wp_ret. split; [done|]. intros _. split.
      * intros E. unfold worker_count in Hpos. by rewrite E in Hpos.
      * intros _. exists x, ok. done.
Qed.
End Claims.

(** A world that starts threads, numbering them, and takes every task. *)
#[local] Instance willing : RuntimeEnv Z := {|
  rt_num_cpus w := (2, w);
  rt_spawn_thread _ w := (Ok w, w + 1);
  rt_receive_executor t w := (Some (100 + t), w);
  rt_shutdown _ w := ((), w);
  rt_join _ w := ((), w);
  rt_spawn_task _ w := (Ok 0, w);
|}.

Lemma round_robin_fair_witness :
  draws 3 (mkInner [mkWorker 1 1 true true; mkWorker 2 2 true true; mkWorker 3 3 true true] true 7) ≡ₚ
  Ok <$> seqZ 0 3.
Proof.
  apply (round_robin_fair (mkInner [mkWorker 1 1 true true; mkWorker 2 2 true true; mkWorker 3 3 true true] true 7));
    unfold worker_count, len; simpl; lia || reflexivity.
Defined.
