(* ===== verification/Cluster.v ===== *)
(** * Servers on running workers

    The tokio executors of the workers ([Executor]) behind the calls a server makes: the
    submission of tasks ([ServerRuntime]) and the cancelling of their handles by
    [close] ([ServerState]).  Each call of the calling thread is a point at which the
    workers take any turns: messages received, tasks polled, completed or dropped,
    other threads submitting and cancelling, shutdown.  The rest of the system,
    which answers the calls and picks those turns, is a parameter. *)

From S2P Require Import Prelude Errors Net Effects Executor ServerRuntime ServerState.
#[local] Open Scope Z_scope.

(** [executors]: one per worker; [handles]: the task handles given out so far, with
    the worker whose channel they hold. *)
Record cluster (O : Type) := mkCluster {
  os : O;
  executors : list Tokio.executor;
  handles : list (nat * Tokio.TaskHandle);
}.
Arguments mkCluster {O} os executors handles.
Arguments os {O} c.
Arguments executors {O} c.
Arguments handles {O} c.

(** A turn of one worker; turns it cannot take now are skipped, and so are those
    that would use up the 2^64 task ids. *)
Definition ids_left (s : Tokio.executor) : bool := bool_decide (Tokio.next_task_id s + 1 < 2 ^ 64).
Definition worker_turn (a : Tokio.action) (s : Tokio.executor) : Tokio.executor :=
  match Tokio.do_action a s with
  | Some s' => if ids_left s && ids_left s' then s' else s
  | None => s
  end.

Fixpoint run_turns (l : list (nat * Tokio.action)) (ex : list Tokio.executor) : list Tokio.executor :=
  match l with
  | [] => ex
  | (k, a) :: l => run_turns l (alter (worker_turn a) k ex)
  end.

Section Cluster.
Context {O : Type} {SE : StateEnv O} {RE : RuntimeEnv O} (turns : O -> list (nat * Tokio.action)).

(** A call answered by the rest of the system, while the workers take turns. *)
Definition answer {A} (f : O -> A * O) (w : cluster O) : A * cluster O :=
  let '(a, o) := f (os w) in (a, mkCluster o (run_turns (turns o) (executors w)) (handles w)).

(** [ExecutorHandle::spawn_task] on a worker's handle. *)
Definition spawn_on (executor : Z) (w : cluster O) : io_result Z * cluster O :=
  let w := (answer (rt_spawn_task executor) w).2 in
  match get (executors w) executor with
  | None => (Err Tokio.worker_stopped, w)
  | Some s =>
      let '(s', r) := Tokio.spawn_task s in
      let ex := <[Z.to_nat executor := s']> (executors w) in
      match r with
      | Ok h => (Ok (len (handles w)), mkCluster (os w) ex (handles w ++ [(Z.to_nat executor, h)]))
      | Err e => (Err e, mkCluster (os w) ex (handles w))
      end
  end.

(** [TaskHandle::cancel] *)
Definition cancel_handle (t : Z) (w : cluster O) : cluster O :=
  match get (handles w) t with
  | Some (k, h) => mkCluster (os w) (alter (Tokio.cancel h) k (executors w)) (handles w)
  | None => w
  end.

#[export] Instance cluster_state : StateEnv (cluster O) := {|
  st_local_addr s := answer (st_local_addr s);
  st_bind a := answer (st_bind a);
  st_send_to s b a := answer (st_send_to s b a);
  st_shutdown s := answer (st_shutdown s);
  st_try_clone s := answer (st_try_clone s);
  st_close s := answer (st_close s);
  st_cancel t w := let '(_, w) := answer (st_cancel t) w in ((), cancel_handle t w);
  st_drop_task t := answer (st_drop_task t);
  st_from_std s := answer (st_from_std s);
  st_time_seed := answer st_time_seed;
|}.

#[export] Instance cluster_runtime : RuntimeEnv (cluster O) := {|
  rt_num_cpus := answer rt_num_cpus;
  rt_spawn_thread name := answer (rt_spawn_thread name);
  rt_receive_executor t := answer (rt_receive_executor t);
  rt_shutdown e := answer (rt_shutdown e);
  rt_join e := answer (rt_join e);
  rt_spawn_task := spawn_on;
|}.

(** Clusters the runtime can get into: workers started, then any turns, submissions
    and cancels, short of using up the ids of an executor. *)
Inductive reachable : cluster O -> Prop :=
| reach_start o n : reachable (mkCluster o (replicate n Tokio.new) [])
| reach_answer {A} (f : O -> A * O) w : reachable w -> reachable (answer f w).2
| reach_spawn e w : reachable w -> Forall (fun s => ids_left s = true) (executors (spawn_on e w).2) ->
    reachable (spawn_on e w).2
| reach_cancel t w : reachable w -> reachable (cancel_handle t w).

(** ** Invariant *)

Definition worker_ok (s : Tokio.executor) : Prop := Tokio.reachable s /\ ids_left s = true.

(** A handle names a task that was submitted to its worker. *)
Definition handle_ok (ex : list Tokio.executor) (x : nat * Tokio.TaskHandle) : Prop :=
  exists id s, x.2 = Tokio.Remote id /\ ex !! x.1 = Some s /\ 1 <= id < Tokio.next_task_id s.

Definition cluster_ok (w : cluster O) : Prop :=
  Forall worker_ok (executors w) /\ Forall (handle_ok (executors w)) (handles w).

(** What other threads and the workers can do to a cluster that is not a
    submission through its handles. *)
Definition evolves (w w' : cluster O) : Prop :=
  cluster_ok w ->
  cluster_ok w' /\ handles w' = handles w /\ Forall2 Tokio.steps (executors w) (executors w').

Lemma ids_left_true s : ids_left s = true <-> Tokio.next_task_id s + 1 < 2 ^ 64.
Proof. apply bool_decide_eq_true. Qed.

Lemma worker_next s : Tokio.reachable s -> 1 <= Tokio.next_task_id s.
Proof.
  induction 1 as [|s a s' Hr IH Ha Hlt]; [done|].
  destruct (Tokio.step_channel a s s' Ha Hlt) as [[? _]|[-> _]]; lia.
Qed.

Lemma steps_next s s' : Tokio.reachable s -> Tokio.steps s s' ->
  Tokio.next_task_id s <= Tokio.next_task_id s'.
Proof.
  intros Hr. induction 1 as [|s1 a s2 Hst IH Ha Hlt]; [lia|].
  pose proof (worker_next s1 (Tokio.steps_reachable _ _ Hr Hst)).
  destruct (Tokio.step_channel a s1 s2 Ha Hlt) as [[? _]|[-> _]]; lia.
Qed.

#[local] Instance steps_refl : Reflexive Tokio.steps.
Proof. intros s. constructor. Qed.
#[local] Instance steps_tr : Transitive Tokio.steps.
Proof. intros s1 s2 s3. apply Tokio.steps_join. Qed.

Lemma evolves_workers w w' :
  (cluster_ok w -> handles w' = handles w /\
     Forall2 Tokio.steps (executors w) (executors w') /\
     Forall (fun s => ids_left s = true) (executors w')) ->
  evolves w w'.
Proof.
  intros H Hok. pose proof Hok as [Hw Hh]. destruct (H Hok) as (Hhs & Hst & Hids). split; [|done].
  rewrite Forall_lookup in Hw, Hids. split.
  - apply Forall_lookup. intros k s' Hk. split; [|by eapply Hids].
    destruct (Forall2_lookup_r _ _ _ _ _ Hst Hk) as (s & Hs & Hss).
    eapply Tokio.steps_reachable; [|done]. by apply (Hw k s Hs).
  - rewrite Hhs. eapply Forall_impl; [exact Hh|]. intros [k h] (id & s & Hid & Hs & Hr).
    destruct (Forall2_lookup_l _ _ _ _ _ Hst Hs) as (s' & Hs' & Hss). exists id, s'.
    pose proof (steps_next s s' (proj1 (Hw k s Hs)) Hss). split; [done|]. split; [done|]. lia.
Qed.

#[local] Instance evolves_preorder : PreOrder evolves.
Proof.
  split.
  - intros w Hok. split; [done|]. by split.
  - intros w1 w2 w3 H12 H23 H1. destruct (H12 H1) as (H2 & Hh2 & Hs2).
    destruct (H23 H2) as (H3 & Hh3 & Hs3). split; [done|]. split; [congruence|].
    by transitivity (executors w2).
Qed.

(** ** Every call evolves the cluster *)

Lemma turn_steps a s : ids_left s = true ->
  Tokio.steps s (worker_turn a s) /\ ids_left (worker_turn a s) = true.
Proof.
  intros Hs. unfold worker_turn. destruct (Tokio.do_action a s) as [s'|] eqn:Ha; [|done].
  rewrite Hs. simpl. destruct (ids_left s') eqn:Hs'; [|done]. split; [|done].
  eapply (Tokio.steps_snoc s s a); [constructor|done|]. by apply ids_left_true.
Qed.

(** Changing one worker by steps. *)
Lemma alter_steps (f : Tokio.executor -> Tokio.executor) k ex :
  Forall (fun s => ids_left s = true) ex ->
  (forall s, ex !! k = Some s -> ids_left s = true ->
     Tokio.steps s (f s) /\ ids_left (f s) = true) ->
  Forall2 Tokio.steps ex (alter f k ex) /\ Forall (fun s => ids_left s = true) (alter f k ex).
Proof.
  intros Hids Hf. rewrite Forall_lookup in Hids. split.
  - apply Forall2_same_length_lookup. split; [by rewrite length_alter|]. intros i x y Hx.
    rewrite list_lookup_alter. case_decide; subst; rewrite Hx; simpl; intros [= <-]; [|done].
    apply Hf; eauto.
  - apply Forall_lookup. intros i y. rewrite list_lookup_alter. case_decide; subst; [|by apply Hids].
    destruct (ex !! i) as [x|] eqn:Hx; simpl; [|done]. intros [= <-]. apply Hf; eauto.
Qed.

Lemma run_turns_steps l ex :
  Forall (fun s => ids_left s = true) ex ->
  Forall2 Tokio.steps ex (run_turns l ex) /\ Forall (fun s => ids_left s = true) (run_turns l ex).
Proof.
  revert ex. induction l as [|[k a] l IH]; intros ex Hids; simpl; [by split|].
  destruct (alter_steps (worker_turn a) k ex Hids) as [H1 H2]; [by intros; apply turn_steps|].
  destruct (IH _ H2) as [H3 H4]. split; [by etransitivity|done].
Qed.

Lemma worker_ids ex : Forall worker_ok ex -> Forall (fun s => ids_left s = true) ex.
Proof. intros H. eapply Forall_impl; [exact H|]. by intros s []. Qed.

Lemma answer_evolves {A} (f : O -> A * O) w : evolves w (answer f w).2.
Proof.
  apply evolves_workers. intros [Hw _]. unfold answer. destruct (f (os w)) as [a o]. simpl.
  split; [done|]. by apply run_turns_steps, worker_ids.
Qed.

(** Cancelling through a handle is a step of its worker. *)
Lemma cancel_evolves t w : evolves w (cancel_handle t w).
Proof.
  unfold cancel_handle. destruct (get (handles w) t) as [[k h]|] eqn:Hg; [|done].
  apply evolves_workers. intros [Hw Hh]. simpl. split; [done|].
  apply alter_steps; [by apply worker_ids|]. intros s Hs Hids.
  rewrite Forall_lookup in Hh. destruct (Hh _ _ Hg) as (id & s0 & Hid & Hs0 & Hr).
  simpl in *. simplify_eq. split.
  - eapply (Tokio.steps_snoc s s (Tokio.CancelHandle (Tokio.Remote id))); [constructor| |].
    + unfold Tokio.do_action. rewrite (bool_decide_true _ Hr : Tokio.issued (Tokio.Remote id) s = true).
      by destruct (Tokio.park s).
    + by apply ids_left_true.
  - unfold ids_left in *. simpl. by case_match.
Qed.

Lemma spawn_ok e w : cluster_ok w ->
  Forall (fun s => ids_left s = true) (executors (spawn_on e w).2) -> cluster_ok (spawn_on e w).2.
Proof.
  intros Hok. unfold spawn_on. destruct (answer_evolves (rt_spawn_task e) w Hok) as (Hok1 & _ & _).
  generalize dependent ((answer (rt_spawn_task e) w).2). clear w Hok. intros w Hok.
  destruct (get (executors w) e) as [s|] eqn:Hg; [|done]. unfold get in Hg.
  destruct (Tokio.spawn_task s) as [s' r] eqn:Esp. pose proof Hok as [Hw Hh].
  assert (Hs : worker_ok s) by (rewrite Forall_lookup in Hw; by eapply Hw).
  assert (Hstep : Tokio.steps s s').
  { eapply (Tokio.steps_snoc s s Tokio.SpawnTask); [constructor| |].
    - unfold Tokio.do_action. rewrite Esp. by destruct (Tokio.park s).
    - apply ids_left_true, Hs. }
  assert (Hlt : (Z.to_nat e < length (executors w))%nat) by (by eapply lookup_lt_Some).
  intros Hids. assert (Hev : evolves w (mkCluster (os w) (<[Z.to_nat e:=s']> (executors w)) (handles w))).
  { apply evolves_workers. intros _. simpl. split; [done|]. split; [|by destruct r].
    apply Forall2_same_length_lookup. split; [by rewrite length_insert|]. intros i x y Hx Hy.
    apply list_lookup_insert_Some in Hy as [(<- & <- & _)|[_ Hy]]; simplify_eq; done. }
  destruct (Hev Hok) as ([Hw' Hh'] & _ & _). simpl in *. destruct r as [h|]; [|by split].
  split; [done|]. simpl. apply Forall_app. split; [done|]. apply Forall_singleton.
  unfold Tokio.spawn_task in Esp. simpl in Esp. pose proof (worker_next s (proj1 Hs)).
  assert (u64 (Tokio.next_task_id s + 1) = Tokio.next_task_id s + 1) as Eu.
  { apply u64_id. pose proof (proj1 (ids_left_true s) (proj2 Hs)). unfold is_u64. lia. }
  rewrite Eu in Esp. case_bool_decide; simplify_eq. eexists _, _. split; [done|].
  split; [by apply list_lookup_insert_eq|]. simpl. lia.
Qed.

Lemma reachable_ok w : reachable w -> cluster_ok w.
Proof.
  induction 1 as [o n|A f w _ IH|e w _ IH Hids|t w _ IH].
  - split; [|constructor]. apply Forall_replicate. split; [constructor|done].
  - by apply answer_evolves.
  - by apply spawn_ok.
  - by apply cancel_evolves.
Qed.

(** ** Closing a server *)

Section Close.
Context (R : cluster O -> cluster O -> Prop) `{!PreOrder R}.
Hypothesis R_answer : forall {A} (f : O -> A * O) w, R w (answer f w).2.

Lemma for_each_keeps {A} (f : A -> prog (cluster O) state_event unit) v :
  (forall x, keeps R (f x)) -> keeps R (for_each f v).
Proof.
  intros Hf. induction v as [|x v IH]; simpl; [by apply keeps_ret|]. by apply keeps_bind.
Qed.

Lemma call_answer_keeps {A} (f : O -> A * O) (ev : A -> state_event) : keeps R (call (answer f) ev).
Proof. apply keeps_call. apply R_answer. Qed.

Lemma ask_answer_keeps {A} (f : O -> A * O) : keeps R (ask (Ev := state_event) (answer f)).
Proof. apply keeps_ask. apply R_answer. Qed.

Lemma wake_keeps s : keeps R (wake_udp_socket s).
Proof.
  apply keeps_bind; [apply _|apply ask_answer_keeps|]. intros [a|]; [|apply keeps_ret, _].
  apply keeps_bind; [apply _|apply ask_answer_keeps|]. intros [sd|]; [|apply keeps_ret, _].
  apply keeps_bind; [apply _|apply call_answer_keeps|]. intros _. apply ask_answer_keeps.
Qed.

Lemma close_registry_keeps m : keeps R (close_registry m).
Proof.
  unfold close_registry. destruct (lock m); [|apply keeps_ret, _].
  apply keeps_bind; [apply _|apply for_each_keeps, wake_keeps|]. intros _.
  apply keeps_bind; [apply _|apply for_each_keeps|intros _; apply keeps_ret, _].
  intros s. apply keeps_bind; [apply _|apply call_answer_keeps|]. intros _. apply call_answer_keeps.
Qed.

Lemma clear_threads_keeps m : keeps R (clear_threads m).
Proof.
  unfold clear_threads. destruct (lock m); [|apply keeps_ret, _].
  apply keeps_bind; [apply _|apply for_each_keeps|intros _; apply keeps_ret, _].
  intros s. apply call_answer_keeps.
Qed.

Lemma drop_tasks_keeps m : keeps R (drop_tasks m).
Proof.
  unfold drop_tasks. destruct (lock m); [|apply keeps_ret, _].
  apply keeps_bind; [apply _|apply for_each_keeps|intros _; apply keeps_ret, _].
  intros s. apply call_answer_keeps.
Qed.

(** [close] is cancelling between two parts that only ask for answers. *)
Lemma close_splits st w : exists w1 w2,
  R w w1 /\ w2 = final (cancel_tasks (tasks st)) w1 /\ R w2 (final (close st) w).
Proof.
  unfold close. do 4 (rewrite final_bind). set (w3 := final (clear_threads _) _). exists w3. eexists.
  split; [|split; [reflexivity|]].
  - etransitivity; [apply close_registry_keeps|]. etransitivity; [apply close_registry_keeps|].
    apply clear_threads_keeps.
  - rewrite final_bind. apply drop_tasks_keeps.
Qed.
End Close.

(** One iteration of the loop of [cancel_tasks]. *)
Lemma final_cancel t w :
  final (call (st_cancel t) (fun _ : unit => Cancelled t)) w =
  cancel_handle t (answer (st_cancel t) w).2.
Proof. unfold final, call. simpl. by destruct (answer (st_cancel t) w). Qed.

Lemma cancel_tasks_keeps m : keeps evolves (cancel_tasks m).
Proof.
  unfold cancel_tasks. destruct (lock m); [|apply keeps_ret, _].
  apply keeps_bind; [apply _| |intros _; apply keeps_ret, _].
  apply for_each_keeps; [apply _|]. intros t w. rewrite final_cancel.
  etransitivity; [apply (answer_evolves (st_cancel t))|apply cancel_evolves].
Qed.

(** The task [id] of worker [k] is doomed. *)
Definition doomed_at (k : nat) (id : Z) (w : cluster O) : Prop :=
  exists s, executors w !! k = Some s /\ Tokio.doomed id s.

Lemma doomed_evolves k id w w' : cluster_ok w -> doomed_at k id w -> evolves w w' -> doomed_at k id w'.
Proof.
  intros Hok (s & Hs & Hd) Hev. destruct (Hev Hok) as (_ & _ & Hst). destruct Hok as [Hw _].
  destruct (Forall2_lookup_l _ _ _ _ _ Hst Hs) as (s' & Hs' & Hss). exists s'. split; [done|].
  rewrite Forall_lookup in Hw. destruct (Hw k s Hs). by eapply Tokio.doomed_steps.
Qed.

Lemma cancel_dooms t k id w : cluster_ok w -> get (handles w) t = Some (k, Tokio.Remote id) ->
  doomed_at k id (cancel_handle t w).
Proof.
  intros [_ Hh] Hg. unfold cancel_handle. rewrite Hg. rewrite Forall_lookup in Hh.
  destruct (Hh _ _ Hg) as (id' & s & Hid & Hs & _). simpl in *. simplify_eq.
  eexists. simpl. rewrite list_lookup_alter, decide_True, Hs by done. split; [done|].
  apply Tokio.doomed_cancel.
Qed.

Lemma cancel_tasks_dooms m t k id w :
  cluster_ok w -> poisoned m = false -> t ∈ data m ->
  get (handles w) t = Some (k, Tokio.Remote id) -> doomed_at k id (final (cancel_tasks m) w).
Proof.
  intros Hok Hp Ht Hg. unfold cancel_tasks, lock. rewrite Hp, final_bind.
  change (final (mret _) ?w) with w. revert w Hok Hg.
  set (f := fun t => call (st_cancel t) (fun _ : unit => Cancelled t)).
  assert (Hf : forall t, keeps evolves (f t)).
  { intros x. pose proof (cancel_tasks_keeps (mkMutex false [x])) as H. intros w. specialize (H w).
    unfold cancel_tasks in H. simpl in H. rewrite !final_bind in H. exact H. }
  induction (data m) as [|x v IH]; [by apply elem_of_nil in Ht|]. intros w Hok Hg. simpl.
  rewrite final_bind. apply elem_of_cons in Ht as [<-|Ht].
  - eapply (doomed_evolves _ _ (final (f t) w)).
    + by apply Hf.
    + unfold f. rewrite final_cancel.
      destruct (answer_evolves (st_cancel t) w Hok) as (Hok1 & Hh1 & _).
      apply cancel_dooms; [done|]. by rewrite Hh1.
    + apply for_each_keeps; [apply _|done].
  - destruct (Hf x w Hok) as (Hok1 & Hh1 & _). apply IH; [done..|]. by rewrite Hh1.
Qed.

(** Worker [k] gives the task [id] up: once the worker has received the commands that
    are in its channel, at any later time, or has left its loop, no task with this
    id is live, then and ever after. *)
Definition gives_up (k : nat) (id : Z) (w : cluster O) : Prop :=
  exists s, executors w !! k = Some s /\
    forall s1, Tokio.steps s s1 -> ids_left s1 = true ->
      match Tokio.park s1 with
      | Tokio.Looping =>
          exists s2, Tokio.drain (length (Tokio.commands s1)) s1 = Some s2 /\ Tokio.dead id s2
      | _ => Tokio.dead id s1
      end.

Lemma doomed_gives_up k id w : cluster_ok w -> doomed_at k id w -> gives_up k id w.
Proof.
  intros [Hw _] (s & Hs & Hd). exists s. split; [done|]. intros s1 H1 Hids.
  rewrite Forall_lookup in Hw. destruct (Hw k s Hs) as [Hr _].
  pose proof (Tokio.doomed_steps id s s1 Hr Hd H1) as Hd1.
  pose proof (Tokio.steps_reachable s s1 Hr H1) as Hr1.
  destruct (Tokio.park s1) eqn:Hp.
  2,3: by apply Tokio.doomed_ended; [..|by rewrite Hp].
  destruct (Tokio.drain_all s1 Hp) as (s2 & Hdr & Hc & H2 & _); [by apply ids_left_true|].
  exists s2. split; [done|]. apply Tokio.doomed_ended.
  - by eapply Tokio.steps_reachable.
  - by eapply Tokio.doomed_steps.
  - intros _. rewrite Hc. apply not_elem_of_nil.
Qed.

(** ** What [close] leaves in the command channels *)

(** The commands that cancelling the handles [ts] sends to worker [k]. *)
Definition cancels_of (k : nat) (hs : list (nat * Tokio.TaskHandle)) (ts : list Z) :
    list Tokio.TaskCommand :=
  omap (fun t => match get hs t with
                 | Some (k', Tokio.Remote id) => if decide (k' = k) then Some (Tokio.Cancel id) else None
                 | _ => None
                 end) ts.

Definition queue (k : nat) (w : cluster O) : option (list Tokio.TaskCommand) :=
  Tokio.commands <$> executors w !! k.

(** Every worker is in its loop and every handle is a submission's. *)
Definition all_looping (w : cluster O) : Prop :=
  Forall (fun s => Tokio.park s = Tokio.Looping) (executors w) /\
  Forall (fun x => exists id, x.2 = Tokio.Remote id) (handles w).

Definition same_workers (w w' : cluster O) : Prop :=
  executors w' = executors w /\ handles w' = handles w.

#[local] Instance same_workers_preorder : PreOrder same_workers.
Proof. split; [by intros w|]. intros w1 w2 w3 [E1 E2] [E3 E4]. split; congruence. Qed.

Lemma quiet_answer {A} (f : O -> A * O) w :
  (forall o, turns o = []) -> same_workers w (answer f w).2.
Proof. intros Hq. unfold answer. destruct (f (os w)). by rewrite Hq. Qed.

Lemma cancel_handle_queue t k w l : all_looping w -> queue k w = Some l ->
  all_looping (cancel_handle t w) /\ handles (cancel_handle t w) = handles w /\
  queue k (cancel_handle t w) = Some (l ++ cancels_of k (handles w) [t]).
Proof.
  intros [Hp Hh] Hq. unfold cancel_handle, cancels_of. simpl.
  destruct (get (handles w) t) as [[k' h]|] eqn:Hg; [|by rewrite app_nil_r].
  rewrite Forall_lookup in Hh. destruct (Hh _ _ Hg) as [id Hid]. simpl in Hid. subst h.
  split; [split; [|by apply Forall_lookup]|split; [done|]].
  - simpl. apply Forall_lookup. intros i y. rewrite list_lookup_alter.
    rewrite Forall_lookup in Hp. case_decide; subst; [|by apply Hp].
    destruct (executors w !! i) as [s|] eqn:Hs; simpl; [|done]. intros [= <-].
    by rewrite (Hp i s Hs).
  - unfold queue in *. simpl. rewrite list_lookup_alter. rewrite Forall_lookup in Hp.
    destruct (executors w !! k) as [s|] eqn:Hs; simpl in Hq; [|done]. injection Hq as <-.
    destruct (decide (k' = k)) as [->|]; simpl; [|by rewrite app_nil_r].
    rewrite Hs. simpl. by rewrite bool_decide_true by (by eapply Hp).
Qed.

Lemma cancel_tasks_queue m k w l :
  (forall o, turns o = []) -> all_looping w -> poisoned m = false -> queue k w = Some l ->
  queue k (final (cancel_tasks m) w) = Some (l ++ cancels_of k (handles w) (data m)).
Proof.
  intros Hquiet Hl Hp Hq. unfold cancel_tasks, lock. rewrite Hp, final_bind.
  change (final (mret _) ?w) with w. revert w l Hl Hq.
  induction (data m) as [|x v IH]; intros w l Hl Hq; [by rewrite app_nil_r|].
  cbn [for_each].
  rewrite final_bind, final_cancel.
  assert (Ha : same_workers w (answer (st_cancel x) w).2) by by apply quiet_answer.
  set (w1 := (answer (st_cancel x) w).2) in *. destruct Ha as [E1 E2].
  destruct (cancel_handle_queue x k w1 l) as (Hl2 & Hh2 & Hq2).
  { unfold all_looping. by rewrite E1, E2. }
  { unfold queue. by rewrite E1. }
  rewrite (IH _ _ Hl2 Hq2), Hh2, E2. f_equal. rewrite <- (assoc_L (++)). f_equal.
  unfold cancels_of. rewrite <- omap_app. done.
Qed.

(** ** Properties *)

(** C23: On the tokio runtime, closing a server stops its tasks.  Whatever the workers do
    while [close] runs, the worker of each task registered with the server, UDP or TCP, gives the
    task up: once it has received the commands in its channel, at any later time, or
    has left its loop, no task with that id is live, then and ever after.  (The executors
    here are those of [Executor]; what cancelling from another thread does on async-std
    is [AsyncStd.remote_cancel_spec].) *)
Theorem close_stops_server_tasks w t k h :
  reachable w -> get (handles w) t = Some (k, h) ->
  exists id, h = Tokio.Remote id /\
    (forall st, poisoned (tasks st) = false -> t ∈ data (tasks st) ->
       gives_up k id (final (close st) w)) /\
    (forall st, poisoned (TcpState.tcp_tasks st) = false -> t ∈ data (TcpState.tcp_tasks st) ->
       gives_up k id (final (TcpState.tcp_close st) w)).
Proof.
  intros Hr Hg. pose proof (reachable_ok w Hr) as Hok. pose proof Hok as [_ Hh].
  rewrite Forall_lookup in Hh. destruct (Hh _ _ Hg) as (id & s & Hid & _). simpl in Hid. subst h.
  exists id.
  split; [done|]. split; intros st Hp Ht.
  - destruct (close_splits evolves (@answer_evolves) st w) as (w1 & w2 & H1 & -> & H2).
    destruct (H1 Hok) as (Hok1 & Hh1 & _).
    destruct (cancel_tasks_keeps (tasks st) w1 Hok1) as (Hok2 & _).
    destruct (H2 Hok2) as (Hok3 & _). apply doomed_gives_up; [done|].
    eapply doomed_evolves; [exact Hok2| |exact H2].
    eapply cancel_tasks_dooms; [done..|]. by rewrite Hh1.
  - unfold TcpState.tcp_close. rewrite final_bind.
    destruct (cancel_tasks_keeps (TcpState.tcp_tasks st) w Hok) as (Hok1 & _).
    apply doomed_gives_up; [done|]. by eapply cancel_tasks_dooms.
Qed.

(** Closing a server touches no other task: when the workers take no turns
    meanwhile, [close] appends to each worker's channel the cancels of the server's
    own tasks on it, in the order of registration, and nothing else; callback
    tasks and the tasks of other servers are left alone. *)
Theorem close_sends_only_its_cancels st w k l :
  (forall o, turns o = []) -> all_looping w -> poisoned (tasks st) = false -> queue k w = Some l ->
  queue k (final (close st) w) = Some (l ++ cancels_of k (handles w) (data (tasks st))).
Proof.
  intros Hquiet Hl Hp Hq.
  destruct (close_splits same_workers) with (st := st) (w := w) as (w1 & w2 & [E1 E2] & -> & [E3 E4]).
  { intros. by apply quiet_answer. }
  unfold queue, all_looping in *. rewrite E3, <- E1, <- E2 in *. by apply cancel_tasks_queue.
Qed.
End Cluster.

(** *** A concrete run: two workers, three tasks *)

#[local] Instance demo_os : StateEnv Z := {|
  st_local_addr _ w := (Ok (SocketAddrV4 [0; 0; 0; 0] 53), w + 1);
  st_bind _ w := (Ok w, w + 1);
  st_send_to _ b _ w := (Ok (len b), w + 1);
  st_shutdown _ w := (Ok (), w + 1);
  st_try_clone _ w := (Ok w, w + 1);
  st_close _ w := ((), w + 1);
  st_cancel _ w := ((), w + 1);
  st_drop_task _ w := ((), w + 1);
  st_from_std s w := (Ok s, w + 1);
  st_time_seed w := (123456789, w + 1);
|}.

#[local] Instance demo_rt : RuntimeEnv Z := {|
  rt_num_cpus w := (2, w + 1);
  rt_spawn_thread _ w := (Ok w, w + 1);
  rt_receive_executor t w := (Some t, w + 1);
  rt_shutdown _ w := ((), w + 1);
  rt_join _ w := ((), w + 1);
  rt_spawn_task _ w := (Ok w, w + 1);
|}.

(** Worker 0 receives a command at every call, worker 1 at every third. *)
Definition demo_turns (o : Z) : list (nat * Tokio.action) :=
  (0%nat, Tokio.RecvCommand) ::
  if bool_decide (o mod 3 = 0) then [(1%nat, Tokio.RecvCommand)] else [].

Definition demo_runtime : ServerRuntimeInner :=
  mkInner [mkWorker 0 100 true true; mkWorker 1 101 true true] true 0.

Definition submit (worker_id : Z) (w : cluster Z) : cluster Z :=
  final (@submit_to_worker _ (cluster_runtime demo_turns) demo_runtime worker_id) w.

Definition demo_cluster : cluster Z :=
  submit 1 (submit 0 (submit 1 (mkCluster 0 (replicate 2 Tokio.new) []))).

Lemma submit_reachable worker_id w :
  reachable demo_turns w -> worker_id = 0 \/ worker_id = 1 ->
  Forall (fun s => ids_left s = true) (executors (submit worker_id w)) ->
  reachable demo_turns (submit worker_id w).
Proof.
  intros Hr Hw Hids.
  assert (E : submit worker_id w = (spawn_on demo_turns worker_id w).2).
  { unfold submit, submit_to_worker, worker, get.
    destruct Hw as [-> | ->]; simpl; unfold submit_to_executor, prog_map_err; simpl;
      rewrite final_bind; unfold final, call; simpl; by destruct (spawn_on _ _ w). }
  rewrite E in *. by apply reach_spawn.
Qed.

Lemma close_stops_server_tasks_witness :
  cancels_of 1 (handles demo_cluster) [0; 1; 2] = [Tokio.Cancel 1; Tokio.Cancel 2] /\
  gives_up 1 2 (final (@close _ (cluster_state demo_turns)
    (mkState true (mkMutex false [0; 1; 2]) (mkMutex false []) (mkMutex false [10])
       (mkMutex false [11]) (mkMutex false ∅) 0)) demo_cluster).
Proof.
  split; [reflexivity|].
  destruct (close_stops_server_tasks demo_turns demo_cluster 2 1 (Tokio.Remote 2))
    as (id & [= <-] & H & _).
  - unfold demo_cluster. apply submit_reachable; [..|by repeat constructor]; [|by right].
    apply submit_reachable; [..|by repeat constructor]; [|by left].
    apply submit_reachable; [..|by repeat constructor]; [|by right]. apply reach_start.
  - reflexivity.
  - apply H; [reflexivity|]. simpl. set_solver.
Defined.

Lemma close_sends_only_its_cancels_example :
  queue 1 (final (@close _ (cluster_state (fun _ => []))
    (mkState true (mkMutex false [0; 2]) (mkMutex false [1]) (mkMutex false [10])
       (mkMutex false []) (mkMutex false ∅) 0))
    (mkCluster 0 [Tokio.demo_state; Tokio.demo_state]
       [(1%nat, Tokio.Remote 1); (1%nat, Tokio.Remote 2); (0%nat, Tokio.Remote 2)]))
  = Some [Tokio.Cancel 2; Tokio.Cancel 1].
Proof. reflexivity. Qed.
