(* ===== verification/Stopping.v ===== *)
(** * Dropping the runtime: src/src/core/server_runtime.rs against the worker threads

    [ServerRuntime] says which messages the destructor of a runtime sends and which
    threads it joins; [Executor] and [AsyncStd] what the worker threads do.  Here they
    run together: the thread that drops the last handle, the worker threads, and other
    threads that submit and cancel meanwhile, interleaved at every message, join and
    turn of a worker.  A join waits until the thread has ended; a worker leaves
    [park_until_shutdown] only when its shutdown channel is ready.  The destructor may
    also run on a worker, in a task that owns the last handle: that worker then does
    nothing else meanwhile.

    What the destructor needs of a runtime is the class [Workers] with the laws
    [WorkersOk]; [StoppingRuntimes] has the instances for both runtimes. *)

From S2P Require Import Prelude Errors Effects ServerRuntime.
#[local] Open Scope Z_scope.

(** ** What a runtime provides *)

(** Where a worker's thread is: in [park_until_shutdown], on its way out of it, ended. *)
Inductive stage := Serving | Leaving | Ended.

#[export] Instance stage_eq_dec : EqDecision stage.
Proof. solve_decision. Defined.

Definition stage_rank (g : stage) : nat := match g with Serving => 2 | Leaving => 1 | Ended => 0 end.

(** The workers of a runtime as a whole ([X]), the turns they take and the calls other
    threads make ([A]), and their shutdown channels ([Sg]). *)
Class Workers (X A Sg : Type) := {
  stage_of : Z -> X -> stage;
  (** Everything but the two steps below. *)
  turn : A -> X -> option X;
  (** Whether the thread of this worker takes the turn. *)
  takes : Z -> A -> bool;
  (** The worker sees its channel ready; then its thread returns. *)
  leave : Z -> X -> option X;
  thread_returns : Z -> X -> option X;
  channel : Sg;
  shutdown : Sg -> Sg;
  ready : Sg -> bool;
}.

Class WorkersOk {X A Sg : Type} (W : Workers X A Sg) (es : list Z) (ok : X -> Prop) : Prop := {
  turn_ok a x x' : ok x -> turn a x = Some x' ->
    ok x' /\ forall e, e ∈ es -> stage_of e x' = stage_of e x;
  leave_ok e x x' : ok x -> e ∈ es -> leave e x = Some x' ->
    ok x' /\ stage_of e x = Serving /\ stage_of e x' = Leaving /\
    forall e', e' ∈ es -> (stage_rank (stage_of e' x') <= stage_rank (stage_of e' x))%nat;
  return_ok e x x' : ok x -> e ∈ es -> thread_returns e x = Some x' ->
    ok x' /\ stage_of e x = Leaving /\ stage_of e x' = Ended /\
    forall e', e' ∈ es -> (stage_rank (stage_of e' x') <= stage_rank (stage_of e' x))%nat;
  can_leave e x : ok x -> e ∈ es -> stage_of e x = Serving -> is_Some (leave e x);
  can_return e x : ok x -> e ∈ es -> stage_of e x = Leaving -> is_Some (thread_returns e x);
  ready_shutdown c : ready (shutdown c) = true;
}.

(** What the destructors of [ServerRuntimeInner] and its [WorkerHandle]s do, in order. *)
Definition drop_events (rt : ServerRuntimeInner) : list runtime_event :=
  Deactivated :: dropped_log (workers rt).

Lemma drop_runtime_events {W} `{RuntimeEnv W} rt : Forall fresh_worker (workers rt) ->
  wp (W := W) (drop_runtime rt) (fun _ l => l = drop_events rt).
Proof.
  intros Hf. apply wp_bind, wp_emit. apply wp_bind. eapply wp_mono; [by apply drop_workers_log|].
  intros [] l ->. apply wp_ret. by rewrite app_nil_r.
Qed.

Lemma dropped_log_length v : length (dropped_log v) = (2 * length v)%nat.
Proof.
  unfold dropped_log. induction v as [|x v IH]; [done|].
  rewrite fmap_cons. cbn [concat]. rewrite length_app, IH. cbn [length]. lia.
Qed.

Lemma elem_of_dropped_log ev v :
  ev ∈ dropped_log v <-> exists x, x ∈ v /\ (ev = ShutdownSent (executor x) \/ ev = Joined (executor x)).
Proof.
  unfold dropped_log. induction v as [|x v IH].
  - split; [by intros ?%elem_of_nil|]. by intros (x & ?%elem_of_nil & _).
  - rewrite fmap_cons. cbn [concat]. rewrite elem_of_app, IH, !elem_of_cons. set_solver.
Qed.

(** A thread is joined after it was sent its message. *)
Lemma sent_before_joined rt e done l : done ++ Joined e :: l = drop_events rt -> ShutdownSent e ∈ done.
Proof.
  unfold drop_events. destruct done as [|d done]; simpl; [done|]. intros [= -> E]. right. revert done E.
  induction (workers rt) as [|x v IH]; intros done E; [by destruct done|].
  unfold dropped_log in E. simpl in E. destruct done as [|d1 [|d2 done]]; simplify_eq/=; [by left|].
  right. right. by apply IH.
Qed.

(** ** The system *)

(** The workers, their channels by executor, the flag of the runtime; what the
    destructor has still to do; whether it panicked. *)
Record system (X Sg : Type) := mkSystem {
  live : X;
  signals : gmap Z Sg;
  flag : bool;
  todo : list runtime_event;
  panicked : bool;
}.
Arguments mkSystem {X Sg} live signals flag todo panicked.
Arguments live {X Sg} s.
Arguments signals {X Sg} s.
Arguments flag {X Sg} s.
Arguments todo {X Sg} s.
Arguments panicked {X Sg} s.

(** [here]: the worker whose thread runs the destructor, if one does;
    [self_join_panics]: whether joining the own thread panics, as it may, or blocks. *)
Section Stopping.
Context {X A Sg : Type} (W : Workers X A Sg) (here : option Z) (self_join_panics : bool).
#[local] Abbreviation sys := (system X Sg).

Definition set_live (x : X) (s : sys) : sys :=
  mkSystem x (signals s) (flag s) (todo s) (panicked s).

(** The thread of worker [e] is inside the destructor. *)
Definition busy (e : Z) (s : sys) : bool :=
  bool_decide (here = Some e) && match todo s with [] => false | _ => true end.

Definition turn_step (a : A) (s : sys) : option sys :=
  if match here with Some e => takes e a && busy e s | None => false end then None
  else (fun x => set_live x s) <$> turn a (live s).

Definition leave_step (e : Z) (s : sys) : option sys :=
  match signals s !! e with
  | Some c =>
      if ready c && negb (busy e s) then (fun x => set_live x s) <$> leave e (live s) else None
  | None => None
  end.

Definition return_step (e : Z) (s : sys) : option sys :=
  match signals s !! e with
  | Some _ => if negb (busy e s) then (fun x => set_live x s) <$> thread_returns e (live s) else None
  | None => None
  end.

(** The next thing the destructor does. *)
Definition drop_step (s : sys) : option sys :=
  match todo s with
  | [] => None
  | Deactivated :: l => Some (mkSystem (live s) (signals s) false l (panicked s))
  | ShutdownSent e :: l =>
      Some (mkSystem (live s) (alter shutdown e (signals s)) (flag s) l (panicked s))
  | Joined e :: l =>
      if bool_decide (here = Some e) then
        if self_join_panics then Some (mkSystem (live s) (signals s) (flag s) l true) else None
      else if bool_decide (stage_of e (live s) = Ended)
      then Some (mkSystem (live s) (signals s) (flag s) l (panicked s)) else None
  | _ :: l => Some (mkSystem (live s) (signals s) (flag s) l (panicked s))
  end.

Inductive event := Turn (a : A) | Leave (e : Z) | Return (e : Z) | Drop.

Definition do_event (a : event) (s : sys) : option sys :=
  match a with
  | Turn a => turn_step a s
  | Leave e => leave_step e s
  | Return e => return_step e s
  | Drop => drop_step s
  end.

Fixpoint run (l : list event) (s : sys) : option sys :=
  match l with
  | [] => Some s
  | a :: l => do_event a s ≫= run l
  end.

(** The steps that dropping is about: those of the destructor, a worker that leaves its
    loop, a worker's thread that returns. *)
Definition ending (a : event) : bool := match a with Turn _ => false | _ => true end.
Definition endings (l : list event) : nat := length (filter (fun a => ending a = true) l).

(** The last handle of a running runtime is dropped. *)
Definition begin (rt : ServerRuntimeInner) (x : X) : sys :=
  mkSystem x (list_to_map ((fun w => (executor w, channel)) <$> workers rt)) (active rt)
    (drop_events rt) false.

(** ** Invariant *)

Context (rt : ServerRuntimeInner) (ok : X -> Prop).
#[local] Abbreviation es := (executor <$> workers rt).
Context `{!WorkersOk W es ok}.

(** What holds once the destructor has done [ev]. *)
Definition done_ok (s : sys) (ev : runtime_event) : Prop :=
  match ev with
  | Deactivated => flag s = false
  | ShutdownSent e => forall c, signals s !! e = Some c -> ready c = true
  | Joined e =>
      if bool_decide (here = Some e) then self_join_panics = true /\ panicked s = true
      else stage_of e (live s) = Ended
  | _ => True
  end.

Record inv (s : sys) : Prop := {
  inv_live : ok (live s);
  inv_signals : forall e, e ∈ es <-> is_Some (signals s !! e);
  inv_todo : exists done, done ++ todo s = drop_events rt /\ Forall (done_ok s) done;
}.

(** A step of the workers: no stage goes back. *)
Definition advances (s : sys) (x : X) : Prop :=
  ok x /\ forall e, e ∈ es -> (stage_rank (stage_of e x) <= stage_rank (stage_of e (live s)))%nat.

Lemma in_drop_events e done l : done ++ l = drop_events rt -> Joined e ∈ done -> e ∈ es.
Proof.
  intros E He. assert (Hin : Joined e ∈ drop_events rt) by (rewrite <- E; set_solver).
  apply elem_of_cons in Hin as [|(x & Hx & [|[= ->]])%elem_of_dropped_log]; try done.
  by apply list_elem_of_fmap_2.
Qed.

Lemma inv_advances s x : inv s -> advances s x -> inv (set_live x s).
Proof.
  intros [Ho Hs (dn & Hd & Hok)] [Hx Hst]. split; [done|done|]. exists dn. split; [done|].
  rewrite Forall_forall in Hok |- *. intros ev Hev. specialize (Hok ev Hev).
  destruct ev as [| |e|e| |]; try done. simpl in *. case_bool_decide; [done|].
  specialize (Hst e (in_drop_events e dn _ Hd Hev)). rewrite Hok in Hst. simpl in Hst.
  destruct (stage_of e x); simpl in Hst; [lia..|done].
Qed.

Lemma turn_advances a s s' : inv s -> turn_step a s = Some s' ->
  exists x, s' = set_live x s /\ advances s x.
Proof.
  intros Hi. unfold turn_step. destruct (match here with Some _ => _ | None => _ end); [done|].
  intros (x & Hx & ->)%fmap_Some. exists x. split; [done|].
  destruct (turn_ok _ _ _ (inv_live s Hi) Hx) as [Hok Heq]. split; [done|]. intros e He. by rewrite Heq.
Qed.

(** The two steps by which a worker ends, with what they change. *)
Definition ends (e : Z) (s s' : sys) : Prop :=
  exists x, s' = set_live x s /\ advances s x /\ e ∈ es /\
    (stage_rank (stage_of e x) < stage_rank (stage_of e (live s)))%nat.

Lemma leave_ends e s s' : inv s -> leave_step e s = Some s' -> ends e s s'.
Proof.
  intros Hi. unfold leave_step. destruct (signals s !! e) as [c|] eqn:Hc; [|done].
  destruct (ready c && negb (busy e s)); [|done]. intros (x & Hx & ->)%fmap_Some.
  assert (He : e ∈ es) by (apply (inv_signals s Hi); by rewrite Hc).
  destruct (leave_ok _ _ _ (inv_live s Hi) He Hx) as (Hok & H1 & H2 & Hle).
  exists x. rewrite H1, H2. split_and!; try done. simpl. lia.
Qed.

Lemma return_ends e s s' : inv s -> return_step e s = Some s' -> ends e s s'.
Proof.
  intros Hi. unfold return_step. destruct (signals s !! e) as [c|] eqn:Hc; [|done].
  destruct (negb (busy e s)); [|done]. intros (x & Hx & ->)%fmap_Some.
  assert (He : e ∈ es) by (apply (inv_signals s Hi); by rewrite Hc).
  destruct (return_ok _ _ _ (inv_live s Hi) He Hx) as (Hok & H1 & H2 & Hle).
  exists x. rewrite H1, H2. split_and!; try done. simpl. lia.
Qed.

(** The destructor does the first thing it has to do. *)
Lemma inv_did s s' ev l :
  inv s -> todo s = ev :: l -> todo s' = l -> live s' = live s -> done_ok s' ev ->
  (forall ev', done_ok s ev' -> done_ok s' ev') ->
  (forall e, is_Some (signals s !! e) <-> is_Some (signals s' !! e)) -> inv s'.
Proof.
  intros [Ho Hs (dn & Hd & Hok)] Htd Htd' Hl Hev Hmono Hdom. split.
  - by rewrite Hl.
  - intros e. by rewrite Hs.
  - exists (dn ++ [ev]). rewrite Htd'. rewrite Htd in Hd. split; [by rewrite <- (assoc_L (++))|].
    apply Forall_app. split; [|by apply Forall_singleton]. by eapply Forall_impl.
Qed.

Lemma inv_drop s s' : inv s -> drop_step s = Some s' -> inv s'.
Proof.
  intros Hi. unfold drop_step. destruct (todo s) as [|ev l] eqn:Htd; [done|].
  destruct ev as [| |e|e| |]; intros E.
  3: { simplify_eq. eapply inv_did; [exact Hi|exact Htd|done|done|..]; simpl.
    - intros c. rewrite lookup_alter, decide_True by done.
      intros (c0 & _ & ->)%fmap_Some. by eapply ready_shutdown.
    - intros [| |e'|e'| |]; simpl; try done. intros Hd c. rewrite lookup_alter.
      case_decide; subst; [|apply Hd]. intros (c0 & _ & ->)%fmap_Some. by eapply ready_shutdown.
    - intros e'. rewrite lookup_alter. case_decide; subst; [|done]. by rewrite fmap_is_Some. }
  3: { case_bool_decide as Hh.
    - destruct self_join_panics eqn:Hp; [|done]. simplify_eq.
      eapply inv_did; [exact Hi|exact Htd|done|done|..]; simpl; try done.
      + by rewrite bool_decide_true, Hp.
      + intros [| |e0|e0| |]; simpl; try done. case_bool_decide; [by intros []|done].
    - case_bool_decide; [|done]. simplify_eq.
      eapply inv_did; [exact Hi|exact Htd|done|done|..]; simpl; try done.
      by rewrite bool_decide_false. }
  all: simplify_eq; eapply inv_did; [exact Hi|exact Htd|done|done|..]; simpl; try done.
  intros [| |e'|e'| |]; simpl; done.
Qed.

Lemma inv_event a s s' : inv s -> do_event a s = Some s' -> inv s'.
Proof.
  intros Hi. destruct a as [a|e|e|]; simpl; intros E.
  - destruct (turn_advances a s s' Hi E) as (x & -> & Hx). by apply inv_advances.
  - destruct (leave_ends e s s' Hi E) as (x & -> & Hx & _). by apply inv_advances.
  - destruct (return_ends e s s' Hi E) as (x & -> & Hx & _). by apply inv_advances.
  - by eapply inv_drop.
Qed.

Lemma inv_run l s s' : inv s -> run l s = Some s' -> inv s'.
Proof.
  revert s. induction l as [|a l IH]; simpl; intros s Hi E; [by simplify_eq|].
  destruct (do_event a s) as [s1|] eqn:E1; [|done]. eapply IH; [|exact E]. by eapply inv_event.
Qed.

Lemma inv_begin x : ok x -> inv (begin rt x).
Proof.
  intros Hx. split; [done| |by exists []]. intros e. simpl. clear WorkersOk0.
  induction (workers rt) as [|w v IH]; simpl.
  - rewrite lookup_empty. split; [by intros ?%elem_of_nil|by intros []].
  - rewrite elem_of_cons, lookup_insert. case_decide as Hw; [subst; split; [by eexists|by left]|].
    rewrite <- IH. split; [by intros [|]|by right].
Qed.

(** ** How many steps are left *)

Definition phases_left (s : sys) : nat := sum_list_with (fun e => stage_rank (stage_of e (live s))) es.
Definition steps_left (s : sys) : nat := length (todo s) + phases_left s.

Lemma sum_mono (f g : Z -> nat) l : (forall e, e ∈ l -> f e <= g e)%nat ->
  (sum_list_with f l <= sum_list_with g l)%nat.
Proof.
  induction l as [|e l IH]; intros H; simpl; [done|].
  pose proof (H e ltac:(by left)). pose proof (IH ltac:(intros; apply H; by right)). lia.
Qed.

Lemma sum_less (f g : Z -> nat) l e : e ∈ l -> (forall e, e ∈ l -> f e <= g e)%nat -> (f e < g e)%nat ->
  (sum_list_with f l < sum_list_with g l)%nat.
Proof.
  intros Hin H Hlt. induction Hin as [x l|x y l Hin IH]; simpl.
  - pose proof (sum_mono f g l ltac:(intros; apply H; by right)). lia.
  - pose proof (H y ltac:(by left)). pose proof (IH ltac:(intros; apply H; by right)). lia.
Qed.

Lemma advances_left s x : advances s x -> (steps_left (set_live x s) <= steps_left s)%nat.
Proof.
  intros [_ H]. unfold steps_left, phases_left. simpl.
  pose proof (sum_mono (fun e => stage_rank (stage_of e x)) _ es H). lia.
Qed.

Lemma ends_left e s s' : ends e s s' -> (1 + steps_left s' <= steps_left s)%nat.
Proof.
  intros (x & -> & [_ H] & He & Hlt). unfold steps_left, phases_left. simpl.
  pose proof (sum_less (fun e => stage_rank (stage_of e x)) _ es e He H Hlt). lia.
Qed.

Lemma drop_left s s' : drop_step s = Some s' -> (1 + steps_left s' <= steps_left s)%nat.
Proof.
  unfold drop_step, steps_left, phases_left. destruct (todo s) as [|ev l]; [done|]. intros E.
  assert (Hp : todo s' = l /\ live s' = live s).
  { destruct ev; repeat case_match; by simplify_eq/=. }
  destruct Hp as [-> ->]. simpl. lia.
Qed.

Lemma run_left l s s' : inv s -> run l s = Some s' -> (endings l + steps_left s' <= steps_left s)%nat.
Proof.
  revert s. induction l as [|a l IH]; simpl; intros s Hi E; [by simplify_eq|].
  destruct (do_event a s) as [s1|] eqn:E1; [|done].
  specialize (IH s1 (inv_event a s s1 Hi E1) E). unfold endings in *. rewrite filter_cons.
  destruct a as [a|e|e|]; simpl in E1;
    [rewrite decide_False by done|rewrite decide_True by done; simpl..].
  - destruct (turn_advances a s s1 Hi E1) as (x & -> & Hx). pose proof (advances_left s x Hx). lia.
  - pose proof (ends_left e s s1 (leave_ends e s s1 Hi E1)). lia.
  - pose proof (ends_left e s s1 (return_ends e s s1 Hi E1)). lia.
  - pose proof (drop_left s s1 E1). lia.
Qed.

Lemma left_begin x : (steps_left (begin rt x) <= 4 * length (workers rt) + 1)%nat.
Proof.
  unfold steps_left, phases_left. simpl. rewrite dropped_log_length.
  assert (sum_list_with (fun e => stage_rank (stage_of e x)) es <= 2 * length (workers rt))%nat; [|lia].
  clear WorkersOk0. induction (workers rt) as [|w v IH]; [done|]. rewrite fmap_cons. cbn [sum_list_with length].
  assert (stage_rank (stage_of (executor w) x) <= 2)%nat by (destruct (stage_of _ x); simpl; lia). lia.
Qed.

(** ** Something can always move *)

Lemma something_moves s : (forall e, here = Some e -> e ∉ es) -> inv s -> todo s <> [] ->
  exists a, ending a = true /\ is_Some (do_event a s).
Proof.
  intros Hh Hi Hne. pose proof Hi as [Ho Hs (dn & Hd & Hok)].
  destruct (todo s) as [|ev l] eqn:Htd; [done|].
  assert (Hdrop : is_Some (drop_step s) \/ exists e, ev = Joined e).
  { unfold drop_step. rewrite Htd. destruct ev; eauto. }
  destruct Hdrop as [?|[e ->]]; [by exists Drop|].
  assert (Hin : e ∈ es).
  { apply (in_drop_events e (dn ++ [Joined e]) l); [by rewrite <- (assoc_L (++))|set_solver]. }
  assert (Hnot : here <> Some e) by (intros He; by apply (Hh e)).
  destruct (proj1 (Hs e) Hin) as [c Hc].
  assert (Hr : ready c = true).
  { rewrite Forall_forall in Hok. by apply (Hok _ (sent_before_joined rt e dn l Hd)). }
  destruct (stage_of e (live s)) eqn:Hst.
  - exists (Leave e). split; [done|]. simpl. unfold leave_step, busy.
    rewrite Hc, Hr, (bool_decide_false _ Hnot). simpl. apply fmap_is_Some. by eapply can_leave.
  - exists (Return e). split; [done|]. simpl. unfold return_step, busy.
    rewrite Hc, (bool_decide_false _ Hnot). simpl. apply fmap_is_Some. by eapply can_return.
  - exists Drop. split; [done|]. simpl. unfold drop_step.
    rewrite Htd, (bool_decide_false _ Hnot), bool_decide_true by done. by eexists.
Qed.

(** ** What is left when the destructor has ended *)

Lemma all_done s ev : inv s -> todo s = [] -> ev ∈ drop_events rt -> done_ok s ev.
Proof.
  intros [_ _ (dn & Hd & Hok)] Htd Hev. rewrite Htd, app_nil_r in Hd. subst dn.
  rewrite Forall_forall in Hok. by apply Hok.
Qed.

Lemma joined_in x : x ∈ workers rt -> Joined (executor x) ∈ drop_events rt.
Proof. intros Hx. right. apply elem_of_dropped_log. eauto. Qed.

Lemma all_ended s x : inv s -> todo s = [] -> x ∈ workers rt -> here <> Some (executor x) ->
  stage_of (executor x) (live s) = Ended.
Proof.
  intros Hi Htd Hx Hh. pose proof (all_done s _ Hi Htd (joined_in x Hx)) as Hj. simpl in Hj.
  by rewrite bool_decide_false in Hj.
Qed.
End Stopping.

(** ** For every runtime *)

(** Dropping on a thread that is no worker: how long it takes, that it never blocks for
    good, and where the workers are afterwards. *)
Lemma dropping_ends {X A Sg} (W : Workers X A Sg) rt ok `{!WorkersOk W (executor <$> workers rt) ok}
    here p x l s :
  ok x -> (forall e, here = Some e -> e ∉ executor <$> workers rt) ->
  run W here p l (begin W rt x) = Some s ->
  (endings l <= 4 * length (workers rt) + 1)%nat /\
  (todo s <> [] -> exists a, ending a = true /\ is_Some (do_event W here p a s)) /\
  ok (live s) /\
  (todo s = [] -> flag s = false /\ forall x, x ∈ workers rt -> stage_of (executor x) (live s) = Ended).
Proof.
  intros Hx Hh Hl. pose proof (inv_begin W here p rt ok x Hx) as Hb.
  pose proof (inv_run W here p rt ok l _ s Hb Hl) as Hi. split_and!.
  - pose proof (run_left W here p rt ok l _ s Hb Hl). pose proof (left_begin W rt x). lia.
  - by eapply something_moves.
  - apply Hi.
  - intros Htd. split; [by apply (all_done W here p rt ok s Deactivated Hi Htd); left|].
    intros y Hy. eapply all_ended; try done. intros He. apply (Hh _ He). by apply list_elem_of_fmap_2.
Qed.

(** C26: The other case: a task that owns the last handle ends, so that its worker runs the
    destructor.  That worker joins itself: the destructor blocks for good, or it
    panics, in which case the other workers are stopped all the same. *)
Theorem dropping_on_a_worker {X A Sg} (W : Workers X A Sg) rt ok
    `{!WorkersOk W (executor <$> workers rt) ok} e p x l s :
  ok x -> e ∈ executor <$> workers rt -> run W (Some e) p l (begin W rt x) = Some s -> todo s = [] ->
  p = true /\ panicked s = true /\
  forall x, x ∈ workers rt -> executor x <> e -> stage_of (executor x) (live s) = Ended.
Proof.
  intros Hx He Hl Htd. pose proof (inv_begin W (Some e) p rt ok x Hx) as Hb.
  pose proof (inv_run W (Some e) p rt ok l _ s Hb Hl) as Hi.
  apply list_elem_of_fmap in He as (y & -> & Hy).
  pose proof (all_done W _ p rt ok s _ Hi Htd (joined_in rt y Hy)) as Hj. simpl in Hj.
  rewrite bool_decide_true in Hj by done. destruct Hj as [Hp Hpan]. split_and!; [done..|].
  intros z Hz Hne. eapply all_ended; try done. congruence.
Qed.
