(* ===== verification/StoppingRuntimes.v ===== *)
(** * Dropping a runtime on tokio and on async-std

    The instances of the interface of [Stopping]: the executors of [Executor], each on
    a thread of its own, and the one state of all threads of [AsyncStd]. *)

From S2P Require Import Prelude Errors Effects Executor AsyncStd ServerRuntime Cluster Stopping.
#[local] Open Scope Z_scope.

(** ** tokio *)

Module OnTokio.

(** The executors of the workers. *)
Abbreviation threads := (gmap Z Tokio.executor).

Definition stage_at (e : Z) (x : threads) : stage :=
  match Tokio.park <$> x !! e with
  | Some Tokio.Looping => Serving
  | Some Tokio.Exited => Leaving
  | _ => Ended
  end.

(** A step of executor [e]; task ids do not run out. *)
Definition step_at (e : Z) (a : Tokio.action) (x : threads) : option threads :=
  match x !! e with
  | None => None
  | Some s =>
      match Tokio.do_action a s with
      | Some s' => if ids_left s' then Some (<[e := s']> x) else None
      | None => None
      end
  end.

(** What the worker's own thread does, as opposed to the calls of other threads. *)
Definition of_thread (a : Tokio.action) : bool :=
  match a with Tokio.SpawnTask | Tokio.CancelHandle _ => false | _ => true end.

Definition other_step (ea : Z * Tokio.action) (x : threads) : option threads :=
  match ea.2 with
  | Tokio.Shutdown | Tokio.Return => None
  | a => step_at ea.1 a x
  end.

(** [park_until_shutdown]: the branch of the shutdown channel, and what follows the loop. *)
#[global] Instance tokio : Workers threads (Z * Tokio.action) Tokio.shutdown_state := {|
  stage_of := stage_at;
  turn := other_step;
  takes e ea := bool_decide (ea.1 = e) && of_thread ea.2;
  leave e := step_at e Tokio.Shutdown;
  thread_returns e := step_at e Tokio.Return;
  channel := Tokio.shutdown_channel;
  shutdown := Tokio.shutdown;
  ready := Tokio.shutdown_ready;
|}.

(** The threads are those of the workers [es], in states they can get into. *)
Definition threads_ok (es : list Z) (x : threads) : Prop :=
  (forall e, e ∈ es <-> is_Some (x !! e)) /\
  (forall e s, x !! e = Some s -> Tokio.reachable s /\ ids_left s = true).

Lemma park_step a s s' : Tokio.do_action a s = Some s' ->
  match a with
  | Tokio.Shutdown => Tokio.park s = Tokio.Looping /\ Tokio.park s' = Tokio.Exited
  | Tokio.Return => Tokio.park s = Tokio.Exited /\ Tokio.park s' = Tokio.Returned
  | _ => Tokio.park s' = Tokio.park s
  end.
Proof.
  unfold Tokio.do_action, Tokio.on_completion, Tokio.on_command, Tokio.guard_drop,
    Tokio.spawn_task, Tokio.cancel.
  destruct a, (Tokio.park s) eqn:E; simpl; intros H;
    repeat case_match; simplify_eq/=; done.
Qed.

Lemma step_at_cases e a x x' : step_at e a x = Some x' ->
  exists s s', x !! e = Some s /\ Tokio.do_action a s = Some s' /\ ids_left s' = true /\ x' = <[e := s']> x.
Proof.
  unfold step_at. destruct (x !! e) as [s|]; [|done]. destruct (Tokio.do_action a s) as [s'|] eqn:E; [|done].
  destruct (ids_left s') eqn:Hi; intros; simplify_eq. by exists s, s'.
Qed.

Lemma step_at_ok es e a x x' : threads_ok es x -> step_at e a x = Some x' -> threads_ok es x'.
Proof.
  intros [Hd Hok] (s & s' & Hs & Ha & Hi & ->)%step_at_cases. split.
  - intros e'. rewrite Hd, lookup_insert. case_decide; subst; [|done]. rewrite Hs. by split; eauto.
  - intros e' s0. rewrite lookup_insert. case_decide; subst; [|apply Hok]. intros [= <-]. split; [|done].
    destruct (Hok _ _ Hs) as [Hr Hids]. eapply Tokio.reach_step; [done..|].
    by apply bool_decide_eq_true in Hids.
Qed.

Lemma stage_step e a x x' e' : step_at e a x = Some x' ->
  exists s s', x !! e = Some s /\ Tokio.do_action a s = Some s' /\
    stage_at e' x' = if decide (e = e') then stage_at e {[ e := s' ]} else stage_at e' x.
Proof.
  intros (s & s' & Hs & Ha & _ & ->)%step_at_cases. exists s, s'. split_and!; [done..|].
  unfold stage_at. rewrite lookup_insert. by case_decide; subst; rewrite ?lookup_singleton_eq.
Qed.

#[global] Instance tokio_ok es : WorkersOk tokio es (threads_ok es).
Proof.
  assert (Hend : forall a e x x' g g', step_at e a x = Some x' ->
    (forall s s', Tokio.do_action a s = Some s' ->
       stage_at e {[ e := s ]} = g /\ stage_at e {[ e := s' ]} = g') ->
    (stage_rank g' < stage_rank g)%nat ->
    stage_at e x = g /\ stage_at e x' = g' /\
    forall e', e' ∈ es -> (stage_rank (stage_at e' x') <= stage_rank (stage_at e' x))%nat).
  { intros a e x x' g g' Hx Hg Hlt.
    assert (Hsame : forall s, x !! e = Some s -> stage_at e {[ e := s ]} = stage_at e x).
    { intros s Hs. unfold stage_at. by rewrite lookup_singleton_eq, Hs. }
    destruct (stage_step e a x x' e Hx) as (s & s' & Hs & Ha & He). rewrite decide_True in He by done.
    destruct (Hg s s' Ha) as [<- <-]. rewrite (Hsame s Hs) in *. split_and!; [done..|].
    intros e' _. destruct (stage_step e a x x' e' Hx) as (s0 & s0' & Hs0 & Ha0 & He').
    rewrite He'. case_decide; subst; [|done]. simplify_eq. lia. }
  split; simpl.
  - intros [e a] x x' Hok Hx. unfold other_step in Hx. simpl in Hx.
    assert (Ha : a <> Tokio.Shutdown /\ a <> Tokio.Return /\ step_at e a x = Some x') by by destruct a.
    destruct Ha as (Hn1 & Hn2 & Ha). split; [by eapply step_at_ok|]. intros e' _.
    destruct (stage_step e a x x' e' Ha) as (s & s' & Hs & Hstep & ->). case_decide; subst; [|done].
    unfold stage_at. rewrite lookup_singleton_eq, Hs. simpl. apply park_step in Hstep.
    destruct a; try done; by rewrite Hstep.
  - intros e x x' Hok _ Hx. split; [by eapply step_at_ok|].
    eapply Hend; [exact Hx| |simpl; lia]. intros s s' [H1 H2]%park_step.
    unfold stage_at. rewrite !lookup_singleton_eq. simpl. by rewrite H1, H2.
  - intros e x x' Hok _ Hx. split; [by eapply step_at_ok|].
    eapply Hend; [exact Hx| |simpl; lia]. intros s s' [H1 H2]%park_step.
    unfold stage_at. rewrite !lookup_singleton_eq. simpl. by rewrite H1, H2.
  - intros e x [Hd Hok] He Hst. destruct (proj1 (Hd e) He) as [s Hs]. destruct (Hok e s Hs) as [_ Hids].
    unfold stage_at in Hst. rewrite Hs in Hst. simpl in Hst. destruct (Tokio.park s) eqn:Hp; try done.
    unfold step_at, Tokio.do_action. rewrite Hs, Hp.
    assert (Hx : ids_left (Tokio.on_shutdown s) = true); [|rewrite Hx; by eexists].
    unfold ids_left in *. rewrite <- Hids. f_equal. unfold Tokio.on_shutdown. simpl. f_equal. f_equal.
    induction (map_to_list (Tokio.task_handles s)) as [|[id h] l IH]; simpl; [done|]. exact IH.
  - intros e x [Hd Hok] He Hst. destruct (proj1 (Hd e) He) as [s Hs]. destruct (Hok e s Hs) as [_ Hids].
    unfold stage_at in Hst. rewrite Hs in Hst. simpl in Hst. destruct (Tokio.park s) eqn:Hp; try done.
    unfold step_at, Tokio.do_action. rewrite Hs, Hp.
    assert (Hx : ids_left (Tokio.on_return s) = true) by done. rewrite Hx. by eexists.
  - done.
Qed.

(** The thread has returned, its tasks are gone, and it takes no more. *)
Definition stopped (e : Z) (x : threads) : Prop :=
  exists s, x !! e = Some s /\ Tokio.park s = Tokio.Returned /\
    Forall (fun t => Tokio.task_st t = Tokio.Gone) (Tokio.tasks s) /\
    (Tokio.spawn_task s).2 = Err Tokio.worker_stopped.

Lemma ended_returned es e x : threads_ok es x -> e ∈ es -> stage_at e x = Ended -> stopped e x.
Proof.
  intros [Hd Hok] He Hst. destruct (proj1 (Hd e) He) as [s Hs]. destruct (Hok e s Hs) as [Hr _].
  unfold stage_at in Hst. rewrite Hs in Hst. simpl in Hst. destruct (Tokio.park s) eqn:Hp; try done.
  exists s. split_and!; [done..| |].
  - pose proof (Tokio.executor_reachable_inv _ Hr) as Hv. unfold Tokio.inv in Hv. by rewrite Hp in Hv.
  - unfold Tokio.spawn_task. simpl. by rewrite Hp.
Qed.
End OnTokio.

(** ** async-std *)

Module OnAsyncStd.
Import AsyncStd.

(** What an action leaves alone: which threads have ended, and what they are blocked on. *)
Lemma action_exited a s s' : do_action a s = Some s' ->
  exited s' = match a with Exit t => {[t]} ∪ exited s | _ => exited s end.
Proof.
  unfold do_action. case_bool_decide; [done|].
  destruct a as [t|t e|t|t e|t e|t|t h|t h|t e i d|t k d|t]; simpl;
    unfold block_on_leave, spawn_task, local_spawn_task, spawn_local, poll_exec, run_wrapper,
      local_spawn_task, cancel; intros E; repeat case_match; simplify_eq/=; done.
Qed.

Lemma action_stack a s s' t : do_action a s = Some s' ->
  match a with Enter t' _ | Leave t' => t' <> t | _ => True end -> stack t s' = stack t s.
Proof.
  unfold do_action. case_bool_decide; [done|]. intros E Ha.
  destruct a as [t0|t0 e|t0|t0 e|t0 e|t0|t0 h|t0 h|t0 e i d|t0 k d|t0]; simpl in E.
  2: { case_bool_decide; simplify_eq. unfold block_on_enter, stack. simpl. by rewrite lookup_insert_ne. }
  2: { unfold block_on_leave in E. destruct (stack t0 s); simplify_eq. unfold stack. simpl.
       by rewrite lookup_insert_ne. }
  all: unfold spawn_task, local_spawn_task, spawn_local, poll_exec, run_wrapper, local_spawn_task,
    cancel in E; repeat case_match; simplify_eq/=; done.
Qed.

Lemma action_owner a s s' t e : reachable s -> do_action a s = Some s' ->
  is_owner_thread t e s = true -> is_owner_thread t e s' = true.
Proof.
  intros Hr Ha Ho. pose proof (action_effect a s s' (reachable_placed s Hr) Ha) as He.
  destruct He as [s' Hex _ _ _|e0| |e0 w _|e0 _ _|e0 i st _|e0 i j _ _ _].
  - unfold is_owner_thread in *. by rewrite Hex.
  - done.
  - by apply is_owner_new.
  - by rewrite is_owner_spawn.
  - done.
  - by rewrite is_owner_set_exec.
  - change (is_owner_thread t e (set_exec e0 i Over s) = true). by rewrite is_owner_set_exec.
Qed.

(** A local task that has not ended is on a thread that has not. *)
Definition locals_ok (s : state) : Prop :=
  forall k x, locals s !! k = Some x -> local_live x = true -> local_thread x ∉ exited s.

Lemma locals_ok_push t j s l : locals_ok s -> t ∉ exited s -> locals s = l ->
  forall k x, (l ++ [mkLocal j t true]) !! k = Some x -> local_live x = true -> local_thread x ∉ exited s.
Proof.
  intros H Ht <- k x [Hk|[_ Hk]]%lookup_app_Some Hx; [by eapply H|].
  apply list_lookup_singleton_Some in Hk as [_ <-]. done.
Qed.

Lemma locals_ok_step a s s' : locals_ok s -> do_action a s = Some s' -> locals_ok s'.
Proof.
  intros H Ha. pose proof (action_exited a s s' Ha) as Hx. revert Ha.
  assert (Hend : forall i, locals_ok (end_local i s)).
  { intros i k x. simpl. rewrite list_lookup_alter. case_decide; subst; [|apply H].
    intros (y & Hy & ->)%fmap_Some. done. }
  unfold do_action. case_bool_decide as Ht; [done|].
  destruct a as [t|t e|t|t e|t e|t|t h|t h|t e i d|t k0 d|t]; simpl in *;
    unfold block_on_leave, spawn_task, local_spawn_task, spawn_local, poll_exec, run_wrapper,
      local_spawn_task, cancel; intros E; repeat case_match; simplify_eq/=; try done;
    try (by apply Hend); try (intros k x; simpl; by apply (locals_ok_push _ _ s)).
  intros k x. simpl. rewrite list_lookup_fmap. intros (y & Hy & ->)%fmap_Some.
  case_bool_decide as Hty; simpl; [done|]. intros Hl. pose proof (H k y Hy Hl). set_solver.
Qed.

Lemma reachable_locals_ok s : reachable s -> locals_ok s.
Proof. induction 1 as [|s1 a s2 _ IH Ha]; [by intros k x ?|by eapply locals_ok_step]. Qed.

Section Threads.
(** The workers [es] and the thread of each. *)
Context (es : list Z) (thr : Z -> thread).
#[local] Abbreviation id e := (Z.to_nat e).

Definition stage_at (e : Z) (s : state) : stage :=
  if decide (thr e ∈ exited s) then Ended
  else match stack (thr e) s with [] => Leaving | _ => Serving end.

(** The thread of a worker enters [block_on] once, in [park_until_shutdown]; tasks do not
    nest another one, which would keep the thread from its other tasks. *)
Definition other_step (a : action) (s : state) : option state :=
  match a with
  | Enter t _ | AsyncStd.Leave t | Exit t =>
      if bool_decide (t ∈ thr <$> es) then None else do_action a s
  | _ => do_action a s
  end.

#[global] Instance async_std : Workers state action channel := {|
  stage_of := stage_at;
  turn := other_step;
  takes e a := bool_decide (thread_of a = thr e);
  leave e := do_action (AsyncStd.Leave (thr e));
  thread_returns e := do_action (Exit (thr e));
  Stopping.channel := shutdown_channel;
  Stopping.shutdown := AsyncStd.shutdown;
  ready := park_returns;
|}.

(** Executor [e] is owned by its thread, which is in one [block_on] at most. *)
Record threads_ok (s : state) : Prop := {
  threads_reachable : reachable s;
  threads_owner : forall e, e ∈ es -> is_owner_thread (thr e) (id e) s = true;
  threads_depth : forall e, e ∈ es -> (length (stack (thr e) s) <= 1)%nat;
}.

Lemma threads_ok_step a s s' : threads_ok s -> do_action a s = Some s' ->
  (forall e, e ∈ es -> (length (stack (thr e) s') <= 1)%nat) -> threads_ok s'.
Proof.
  intros [Hr Ho Hd] Ha Hd'. split; [by econstructor| |done].
  intros e He. eapply action_owner; eauto.
Qed.

(** The end of a [block_on]; no other thread is touched. *)
Lemma leave_stack t s s' : do_action (AsyncStd.Leave t) s = Some s' ->
  t ∉ exited s /\ exists f rest, stack t s = f :: rest /\
    forall t', stack t' s' = if decide (t = t') then rest else stack t' s.
Proof.
  unfold do_action. case_bool_decide as Hx; [done|]. simpl. intros E. split; [done|].
  unfold block_on_leave in E. destruct (stack t s) as [|f rest] eqn:Es; [done|].
  exists f, rest. split; [done|]. intros t'. injection E as <-. by apply stack_insert.
Qed.

Lemma exit_stack t s s' : do_action (Exit t) s = Some s' -> t ∉ exited s /\ stack t s = [].
Proof.
  unfold do_action. case_bool_decide; [done|]. destruct (stack t s) eqn:E; [done|]. discriminate.
Qed.

#[global] Instance async_std_ok : WorkersOk async_std es threads_ok.
Proof.
  split; simpl.
  - intros a s s' Hok Ha.
    assert (Hact : do_action a s = Some s' /\
      forall e, e ∈ es -> match a with Enter t _ | AsyncStd.Leave t | Exit t => t <> thr e | _ => True end).
    { unfold other_step in Ha. destruct a; try done; case_bool_decide as Ht; try done;
        (split; [done|]); intros e0 He ->; by apply Ht, list_elem_of_fmap_2. }
    destruct Hact as [Hact Hne].
    assert (Hst : forall e, e ∈ es -> stack (thr e) s' = stack (thr e) s).
    { intros e He. apply (action_stack a); [done|]. specialize (Hne e He). by destruct a. }
    split.
    + eapply threads_ok_step; [done..|]. intros e He. rewrite (Hst e He). by apply (threads_depth s).
    + intros e He. unfold stage_at. rewrite (Hst e He), (action_exited a s s' Hact).
      specialize (Hne e He). destruct a; try done.
      by destruct (decide (thr e ∈ exited s)), (decide (thr e ∈ {[t]} ∪ exited s)); set_solver.
  - intros e s s' Hok He Ha. destruct (leave_stack _ s s' Ha) as (Hx & f & rest & Hf & Hst).
    pose proof (threads_depth s Hok e He) as Hd. rewrite Hf in Hd. destruct rest; [|simpl in Hd; lia].
    pose proof (action_exited _ s s' Ha) as Hex. simpl in Hex.
    assert (He1 : stage_at e s = Serving).
    { unfold stage_at. by rewrite decide_False, Hf. }
    assert (Hall : forall e', stage_at e' s' = if decide (thr e = thr e') then Leaving else stage_at e' s).
    { intros e'. unfold stage_at. rewrite Hex, Hst. destruct (decide (thr e = thr e')) as [E|]; [|done].
      rewrite <- E. by rewrite decide_False. }
    split_and!.
    + eapply threads_ok_step; [done..|]. intros e' He'. rewrite Hst. case_decide; [simpl; lia|].
      by apply (threads_depth s).
    + done.
    + by rewrite Hall, decide_True.
    + intros e' _. rewrite Hall. case_decide as E; [|done].
      unfold stage_at. rewrite <- E, decide_False, Hf by done. simpl. lia.
  - intros e s s' Hok He Ha. destruct (exit_stack _ s s' Ha) as [Hx Hs].
    pose proof (action_exited _ s s' Ha) as Hex. simpl in Hex.
    assert (Hst : forall t, stack t s' = stack t s) by (intros t; by apply (action_stack _ s s' t Ha)).
    assert (Hall : forall e', stage_at e' s' = if decide (thr e = thr e') then Ended else stage_at e' s).
    { intros e'. unfold stage_at. rewrite Hex, Hst.
      destruct (decide (thr e = thr e')) as [E|Hne]; [by rewrite decide_True by set_solver|].
      destruct (decide (thr e' ∈ exited s)); [by rewrite decide_True by set_solver|].
      by rewrite decide_False by set_solver. }
    split_and!.
    + eapply threads_ok_step; [done..|]. intros e' He'. rewrite Hst. by apply (threads_depth s).
    + unfold stage_at. by rewrite decide_False, Hs.
    + by rewrite Hall, decide_True.
    + intros e' _. rewrite Hall. case_decide; simpl; [lia|done].
  - intros e s _ _ Hst. unfold stage_at in Hst. case_decide as Hx; [done|].
    destruct (stack (thr e) s) as [|f rest] eqn:Es; [done|].
    unfold do_action. rewrite bool_decide_false by done. unfold block_on_leave. rewrite Es. by eexists.
  - intros e s _ _ Hst. unfold stage_at in Hst. case_decide as Hx; [done|].
    destruct (stack (thr e) s) as [|f rest] eqn:Es; [|done].
    unfold do_action. rewrite bool_decide_false, Es by done. by eexists.
  - intros c. unfold park_returns. by rewrite orb_true_r.
Qed.

(** The thread has ended and with it every task on it; a task submitted now is accepted,
    but it never starts. *)
Definition stopped (e : Z) (s : state) : Prop :=
  thr e ∈ exited s /\
  (forall k x, locals s !! k = Some x -> local_thread x = thr e -> local_live x = false) /\
  (forall t, t ∉ exited s -> exists s' h,
     spawn_task t (id e) (length (submitted s)) (submit (id e) s) = (s', Ok h) /\
     forall s'', steps s' s'' -> never_local (length (submitted s)) s'').

Lemma ended_stopped e s : threads_ok s -> e ∈ es -> stage_at e s = Ended -> stopped e s.
Proof.
  intros [Hr Ho _] He Hst. specialize (Ho e He). unfold stage_at in Hst.
  case_decide as Hx; [|by destruct (stack (thr e) s)]. split_and!; [done| |].
  - intros k x Hk Ht. destruct (local_live x) eqn:Hl; [|done].
    pose proof (reachable_locals_ok s Hr k x Hk Hl) as Hn. by rewrite Ht in Hn.
  - intros t Ht. unfold spawn_task. change (is_owner_thread t (id e) (submit (id e) s)) with
      (is_owner_thread t (id e) s).
    destruct (is_owner_thread t (id e) s) eqn:Hot.
    { by rewrite (is_owner_inj t (thr e) _ s Hot Ho) in Ht. }
    unfold spawn. destruct (executor_spawn (id e) _ _) as [i s'] eqn:E. exists s', (Executor (id e) i).
    split; [done|]. intros s'' Hs. eapply (strand_submission s (id e) (thr e)); try done. by rewrite E.
Qed.
End Threads.
End OnAsyncStd.

(** ** Properties *)

(** C24: Dropping a runtime stops its workers, and returns (tokio).  When the last handle
    goes away on a thread that is no worker, then in every interleaving with the
    workers, their tasks and threads that submit or cancel: the destructor and the
    workers it stops take at most four steps per worker and one more between them; as
    long as the destructor has not returned, one of these steps can be taken, so that
    it never blocks for good; and once it has returned, the runtime's flag is cleared
    and, then and ever after, each worker's thread has returned, every task on it is
    gone, and every submission to it is refused. *)
Theorem dropping_stops_every_worker here self_join_panics rt x l s :
  OnTokio.threads_ok (executor <$> workers rt) x ->
  (forall e, here = Some e -> e ∉ executor <$> workers rt) ->
  run OnTokio.tokio here self_join_panics l (begin OnTokio.tokio rt x) = Some s ->
  (endings l <= 4 * length (workers rt) + 1)%nat /\
  (todo s <> [] -> exists a, ending a = true /\
     is_Some (do_event OnTokio.tokio here self_join_panics a s)) /\
  (todo s = [] -> flag s = false /\
     forall w, w ∈ workers rt -> OnTokio.stopped (executor w) (live s)).
Proof.
  intros Hx Hh Hl. destruct (dropping_ends OnTokio.tokio rt
    (OnTokio.threads_ok (executor <$> workers rt)) here self_join_panics x l s Hx Hh Hl) as (Hn & Hp & Ho & He).
  split_and!; [done..|]. intros Htd. destruct (He Htd) as [Hf Hs]. split; [done|]. intros w Hw.
  eapply OnTokio.ended_returned; [done|by apply list_elem_of_fmap_2|by apply Hs].
Qed.

(** C25: The same on async-std, with the difference that a submission to a stopped worker
    is not refused: the destructor returns after a bounded number of steps, of which one
    can always be taken; then and ever after the flag is cleared, every worker's thread
    has ended with all its tasks, and a task submitted to it through a handle somebody
    kept is accepted but never starts. *)
Theorem dropping_stops_async_std here self_join_panics rt thr x l s :
  OnAsyncStd.threads_ok (executor <$> workers rt) thr x ->
  (forall e, here = Some e -> e ∉ executor <$> workers rt) ->
  let A := OnAsyncStd.async_std (executor <$> workers rt) thr in
  run A here self_join_panics l (begin A rt x) = Some s ->
  (endings l <= 4 * length (workers rt) + 1)%nat /\
  (todo s <> [] -> exists a, ending a = true /\ is_Some (do_event A here self_join_panics a s)) /\
  (todo s = [] -> flag s = false /\
     forall w, w ∈ workers rt -> OnAsyncStd.stopped thr (executor w) (live s)).
Proof.
  intros Hx Hh A Hl. destruct (dropping_ends (OnAsyncStd.async_std (executor <$> workers rt) thr) rt
    (OnAsyncStd.threads_ok (executor <$> workers rt) thr) here self_join_panics x l s Hx Hh Hl) as (Hn & Hp & Ho & He).
  split_and!; [done..|]. intros Htd. destruct (He Htd) as [Hf Hs]. split; [done|]. intros w Hw.
  eapply OnAsyncStd.ended_stopped; [done|by apply list_elem_of_fmap_2|by apply Hs].
Qed.

(** *** Two workers on tokio, one task each *)

Definition drop_demo_runtime : ServerRuntimeInner :=
  mkInner [mkWorker 100 0 true true; mkWorker 101 1 true true] true 0.

Definition demo_executor : Tokio.executor :=
  default Tokio.new (Tokio.run_actions [Tokio.SpawnTask; Tokio.RecvCommand; Tokio.Poll 0] Tokio.new).

Definition demo_threads : gmap Z Tokio.executor := {[ 100 := demo_executor; 101 := demo_executor ]}.

Lemma demo_threads_ok : OnTokio.threads_ok (executor <$> workers drop_demo_runtime) demo_threads.
Proof.
  assert (Hr : Tokio.reachable demo_executor).
  { apply (Tokio.run_actions_reachable
      [Tokio.SpawnTask; Tokio.RecvCommand; Tokio.Poll 0] Tokio.new); [constructor|reflexivity]. }
  split.
  - intros e. unfold demo_threads. split.
    + intros [->|[->|[]%elem_of_nil]%elem_of_cons]%elem_of_cons; by eexists.
    + intros [w Hw]. apply lookup_insert_Some in Hw as [[<- _]|[_ Hw]]; [by left|].
      apply lookup_singleton_Some in Hw as [<- _]. right. by left.
  - intros e s Hs. unfold demo_threads in Hs. assert (s = demo_executor) as ->; [|done].
    apply lookup_insert_Some in Hs as [[_ <-]|[_ Hs]]; [done|].
    by apply lookup_singleton_Some in Hs as [_ <-].
Qed.

(** While the first worker is joined, the second one takes a submission that it never
    runs. *)
Definition demo_events : list (event (A := Z * Tokio.action)) :=
  [Drop; Drop; Turn (101, Tokio.SpawnTask); Leave 100; Return 100; Drop; Drop;
   Turn (101, Tokio.Poll 0); Leave 101; Return 101; Drop].

Definition drop_summary (s : system (gmap Z Tokio.executor) Tokio.shutdown_state) :
    bool * bool * nat * list (option (Tokio.phase * list Tokio.task)) :=
  (flag s, panicked s, length (todo s),
   (fun e => (fun x => (Tokio.park x, Tokio.tasks x)) <$> live s !! e) <$> [100; 101]).

Definition demo_begin := begin OnTokio.tokio drop_demo_runtime demo_threads.
Definition demo_stopped := default demo_begin (run OnTokio.tokio None false demo_events demo_begin).

Definition gone_thread : option (Tokio.phase * list Tokio.task) :=
  Some (Tokio.Returned, [Tokio.mkTask (Some 1) Tokio.Gone]).

Lemma dropping_stops_every_worker_witness :
  (endings demo_events = 9 /\ endings demo_events <= 4 * 2 + 1)%nat /\
  drop_summary demo_stopped = (false, false, 0%nat, [gone_thread; gone_thread]) /\
  flag demo_stopped = false /\ OnTokio.stopped 101 (live demo_stopped).
Proof.
  assert (Hl : run OnTokio.tokio None false demo_events demo_begin = Some demo_stopped)
    by (vm_compute; reflexivity).
  destruct (dropping_stops_every_worker None false drop_demo_runtime demo_threads demo_events demo_stopped
    demo_threads_ok ltac:(discriminate) Hl) as (Hb & _ & Hs).
  split; [split; [reflexivity|exact Hb]|]. split; [vm_compute; reflexivity|].
  destruct Hs as [Hf Hx]; [vm_compute; reflexivity|]. split; [exact Hf|].
  apply (Hx (mkWorker 101 1 true true)). right. left.
Defined.

(** The first worker drops the runtime: where joining itself panics, its loop ends
    afterwards; where it blocks, the destructor stands there and the second worker is
    never told to stop. *)
Definition self_events : list (event (A := Z * Tokio.action)) :=
  [Drop; Drop; Drop; Drop; Leave 101; Return 101; Drop; Leave 100; Return 100].

Definition stuck := default demo_begin (run OnTokio.tokio (Some 100) false [Drop; Drop] demo_begin).

Example dropping_on_a_worker_outcomes :
  drop_summary <$> run OnTokio.tokio (Some 100) true self_events demo_begin =
    Some (false, true, 0%nat, [gone_thread; gone_thread]) /\
  todo stuck = [Joined 100; ShutdownSent 101; Joined 101] /\
  drop_step OnTokio.tokio (Some 100) false stuck = None /\
  leave_step OnTokio.tokio (Some 100) 100 stuck = None.
Proof. split; [vm_compute; reflexivity|]. by split_and!. Qed.

Lemma dropping_on_a_worker_witness :
  exists s, run OnTokio.tokio (Some 100) true self_events demo_begin = Some s /\
    panicked s = true /\ OnTokio.stage_at 101 (live s) = Ended.
Proof.
  destruct (run OnTokio.tokio (Some 100) true self_events demo_begin) as [s|] eqn:E.
  2: { exfalso. revert E. vm_compute. discriminate. }
  exists s. split; [done|].
  assert (Htd : todo s = []).
  { assert (H : todo <$> run OnTokio.tokio (Some 100) true self_events demo_begin = Some [])
      by (vm_compute; reflexivity). rewrite E in H. by injection H. }
  destruct (dropping_on_a_worker OnTokio.tokio drop_demo_runtime _ 100 true demo_threads self_events s
    demo_threads_ok ltac:(by left) E Htd) as (_ & Hp & Hx).
  split; [exact Hp|]. apply (Hx (mkWorker 101 1 true true)); [right; left|done].
Defined.

(** *** One worker on async-std *)

(** The thread 1 of executor 0 runs the first of two tasks that thread 0 submitted. *)
Definition async_runtime : ServerRuntimeInner := mkInner [mkWorker 0 1 true true] true 0.
Definition async_thread (e : Z) : AsyncStd.thread := 1%nat.

Lemma async_threads_ok :
  OnAsyncStd.threads_ok (executor <$> workers async_runtime) async_thread AsyncStd.demo.
Proof.
  split; [exact AsyncStd.demo_run_reachable|..]; intros e [->|[]%elem_of_nil]%elem_of_cons;
    [reflexivity|vm_compute; lia].
Qed.

Definition asy := OnAsyncStd.async_std (executor <$> workers async_runtime) async_thread.
Definition async_begin := begin asy async_runtime AsyncStd.demo.
Definition async_events : list (event (A := AsyncStd.action)) :=
  [Drop; Drop; Turn (AsyncStd.SpawnTask 0 0); Turn (AsyncStd.PollLocal 1 0 false); Leave 0; Return 0; Drop;
   Turn (AsyncStd.SpawnTask 0 0)].
Definition async_stopped := default async_begin (run asy None false async_events async_begin).

Lemma dropping_stops_async_std_witness :
  AsyncStd.locals AsyncStd.demo = [AsyncStd.mkLocal 0 1 true] /\
  AsyncStd.locals (live async_stopped) = [AsyncStd.mkLocal 0 1 false] /\
  length (AsyncStd.submitted (live async_stopped)) = 4%nat /\
  flag async_stopped = false /\ OnAsyncStd.stopped async_thread 0 (live async_stopped).
Proof.
  assert (Hl : run asy None false async_events async_begin = Some async_stopped)
    by (vm_compute; reflexivity).
  destruct (dropping_stops_async_std None false async_runtime async_thread AsyncStd.demo async_events
    async_stopped async_threads_ok ltac:(discriminate) Hl) as (_ & _ & Hs).
  split; [vm_compute; reflexivity|]. split; [vm_compute; reflexivity|]. split; [vm_compute; reflexivity|].
  destruct Hs as [Hf Hx]; [vm_compute; reflexivity|]. split; [exact Hf|].
  apply (Hx (mkWorker 0 1 true true)). left.
Defined.
