(* ===== verification/ClosingLoops.v ===== *)
(** * The loops of [Listener] and the tasks of [Closing]

    [Closing] keeps of each loop the points at which it looks at shared state.  Here the
    labelled graph of these points is shown to be what [Listener]'s translation of the
    loops does: every run of every loop, in any world, leaves a log that spells a
    path of the graph, and every edge of the graph is a step of the task in
    [Closing]. *)

From S2P Require Import Prelude Errors Net Effects Schedule Quic Recv Listener Closing.

(** What the points of a loop see of an event. *)
Inductive label :=
| Saw (active : bool)       (* the flags were read *)
| GotPermit | NoPermit
| Answer (ok : bool)        (* a receive, an accept or the own queue answered *)
| Started (ok : bool)       (* a handler *)
| Sent (ok : bool).

#[export] Instance label_eq_dec : EqDecision label.
Proof. solve_decision. Defined.

Definition label_of (e : Listener.event) : option label :=
  match e with
  | Checked b => Some (Saw b)
  | Acquired _ _ => Some GotPermit
  | Refused => Some NoPermit
  | Got _ _ | Accepted _ _ | TookUdp _ | TookTcp _ => Some (Answer true)
  | RecvFailed => Some (Answer false)
  | SpawnedUdp _ _ ok | SpawnedTcp _ _ ok => Some (Started ok)
  | SentUdp _ _ ok | SentTcp _ _ ok | SentRouted _ _ ok => Some (Sent ok)
  | Released _ | StreamClosed _ => None
  end.

(** The edges of each kind of loop; [None] is an edge without an event.  Which worker
    a routing loop has chosen is left open: [Offer 0] stands for every [Offer k]. *)
Definition edges (k : kind) (tcp : bool) (p : pc) : list (option label * pc) :=
  let check (go : pc) := [(Some (Saw true), go); (Some (Saw false), Ended)] in
  let answer (go : pc) :=
    [(Some (Answer true), go); (Some (Answer false), if tcp then Ended else CheckError)] in
  match k with
  | Closing.Listener =>
      match p with
      | Check => check Acquire
      | Acquire => [(Some GotPermit, CheckPermit)]
      | CheckPermit => check Receive
      | Receive => answer CheckReceived
      | CheckError => check Check
      | CheckReceived => (Some (Saw true), if tcp then Spawn else Check) :: check Spawn
      | Spawn => [(Some (Started true), Check); (Some (Started false), Ended)]
      | _ => []
      end
  | Router =>
      match p with
      | Check => check Receive
      | Receive => answer CheckReceived
      | CheckError => check Check
      | CheckReceived => check Route
      | Route => [(None, Ended); (None, Check); (Some NoPermit, Check); (Some GotPermit, Offer 0)]
      | Offer _ => [(Some (Sent true), Check); (Some (Sent false), Ended)]
      | _ => []
      end
  | SocketRouter =>
      match p with
      | Check => check Receive
      | Receive => answer Route
      | CheckError => check Check
      | Route => [(None, Ended); (None, Check); (None, Offer 0)]
      | Offer _ => [(Some (Sent true), Check); (Some (Sent false), Ended)]
      | _ => []
      end
  | Dispatcher =>
      match p with
      | Check => check Receive
      | Receive => [(Some (Answer true), CheckReceived); (None, Ended)]
      | CheckReceived => check Spawn
      | Spawn => [(Some (Started true), Check); (Some (Started false), Ended)]
      | _ => []
      end
  | Callback => []
  end.

Inductive path (k : kind) (tcp : bool) : pc -> list label -> pc -> Prop :=
| path_nil p : path k tcp p [] p
| path_step p o p1 l p2 :
    (o, p1) ∈ edges k tcp p -> path k tcp p1 l p2 -> path k tcp p (option_list o ++ l) p2.

Lemma path_app k tcp p l1 p1 l2 p2 :
  path k tcp p l1 p1 -> path k tcp p1 l2 p2 -> path k tcp p (l1 ++ l2) p2.
Proof.
  induction 1 as [p|p o p0 l p1 Hin _ IH]; [done|]. intros H2. rewrite <- (assoc_L (++)).
  eapply path_step; [done|by apply IH].
Qed.

(** Searching for a path. *)
Fixpoint finds (fuel : nat) (k : kind) (tcp : bool) (p : pc) (l : list label) (q : pc) : bool :=
  match fuel with
  | O => false
  | S fuel =>
      (bool_decide (p = q) && match l with [] => true | _ => false end) ||
      existsb (fun '(o, p1) =>
        match o, l with
        | None, _ => finds fuel k tcp p1 l q
        | Some x, y :: l => bool_decide (x = y) && finds fuel k tcp p1 l q
        | Some _, [] => false
        end) (edges k tcp p)
  end.

Lemma finds_path fuel k tcp p l q : finds fuel k tcp p l q = true -> path k tcp p l q.
Proof.
  revert p l. induction fuel as [|fuel IH]; intros p l; simpl; [done|].
  rewrite orb_true_iff. intros [[Hp Hl]%andb_true_iff|He].
  - apply bool_decide_eq_true in Hp as ->. destruct l; [constructor|done].
  - apply existsb_exists in He as ([o p1] & Hin%list_elem_of_In & Hf).
    destruct o as [x|].
    + destruct l as [|y l]; [done|]. apply andb_true_iff in Hf as [->%bool_decide_eq_true Hf].
      apply (path_step _ _ _ (Some y) p1); auto.
    + apply (path_step _ _ _ None p1); auto.
Qed.

(** Which loop is which kind of task. *)
Definition loop_kind (l : listener_loop) : kind :=
  match l with
  | Listener.NativeUdp _ _ _ _ | QuicBpf _ _ _ _ | Listener.NativeTcp _ _ _ => Closing.Listener
  | SimulatedUdp _ _ _ _ _ | QuicRouted _ _ _ _ | SimulatedTcp _ _ _ _ _ => Router
  | SocketOnly _ _ _ _ _ _ => SocketRouter
  | UdpDispatch _ _ | TcpDispatch _ _ => Dispatcher
  end.
Definition loop_tcp (l : listener_loop) : bool :=
  match l with Listener.NativeTcp _ _ _ | SimulatedTcp _ _ _ _ _ | TcpDispatch _ _ => true | _ => false end.

(** A routing loop is given one queue and one limit per worker. *)
Definition matching (l : listener_loop) : Prop :=
  match l with
  | SimulatedUdp _ _ senders limits _ | QuicRouted _ _ senders limits
  | SimulatedTcp _ _ _ senders limits => length senders = length limits
  | _ => True
  end.

Lemma get_matching {A B} (l1 : list A) (l2 : list B) i x :
  length l1 = length l2 -> get l2 i = Some x -> get l1 i <> None.
Proof.
  unfold get. intros Hl Hx%lookup_lt_Some Hn%lookup_ge_None. lia.
Qed.

Definition word (log : list Listener.event) : list label := omap label_of log.

Section Paths.
Context {W : Type} `{SocketEnv W} `{ListenerEnv W} (le supported : bool).

(** The log of one iteration spells a path from the head of the loop to its head, or
    to its end. *)
Definition on_path {S} (k : kind) (tcp : bool) (c : ctl S) (log : list Listener.event) : Prop :=
  path k tcp Check (word log) (match c with Continue _ => Check | Break => Ended end).

Ltac path_solve :=
  lazymatch goal with
  | Hn : get ?l1 ?i = None, Hs : get ?l2 ?i = Some _, Hm : length ?l1 = length ?l2 |- _ =>
      destruct (get_matching l1 l2 i _ Hm Hs Hn)
  | |- _ =>
      repeat match goal with
      | |- context [is_ok ?r] => is_var r; destruct r
      | |- context [if ?b then _ else _] => is_var b; destruct b
      end;
      apply (finds_path 12); reflexivity
  end.

Lemma iteration_paths l : matching l ->
  match l with
  | Listener.NativeUdp s limit tr st =>
      forall b, wp (udp_listener_iteration le supported s limit tr st b) (on_path (loop_kind l) (loop_tcp l))
  | SimulatedUdp s n senders limits tr =>
      forall b, wp (simulated_udp_iteration le supported s n senders limits tr b) (on_path (loop_kind l) (loop_tcp l))
  | SocketOnly s a n route senders tr =>
      forall b, wp (socket_only_iteration le supported s a n route senders tr b) (on_path (loop_kind l) (loop_tcp l))
  | UdpDispatch r st => forall u, wp (udp_dispatch_iteration r st u) (on_path (loop_kind l) (loop_tcp l))
  | QuicRouted s n senders limits =>
      forall b, wp (quic_routed_iteration s n senders limits b) (on_path (loop_kind l) (loop_tcp l))
  | QuicBpf s n limit st => forall b, wp (quic_bpf_iteration s n limit st b) (on_path (loop_kind l) (loop_tcp l))
  | Listener.NativeTcp s limit st =>
      forall u, wp (tcp_listener_iteration s limit st u) (on_path (loop_kind l) (loop_tcp l))
  | SimulatedTcp s n a senders limits =>
      forall u, wp (simulated_tcp_iteration s n a senders limits u) (on_path (loop_kind l) (loop_tcp l))
  | TcpDispatch r st => forall u, wp (tcp_dispatch_iteration r st u) (on_path (loop_kind l) (loop_tcp l))
  end.
Proof.
  destruct l; simpl; intros Hm b0; iter_unfold; iter_run; unfold on_path, word; simpl; path_solve.
Qed.
End Paths.

(** ** Runs *)

Section Runs.
Context {W : Type} `{SocketEnv W} `{ListenerEnv W} (le supported : bool).

Lemma word_app l1 l2 : word (l1 ++ l2) = word l1 ++ word l2.
Proof. apply omap_app. Qed.

Lemma run_loop_path {S} k tcp fuel (body : S -> prog W Listener.event (ctl S)) s :
  (forall s, wp (body s) (on_path k tcp)) ->
  wp (run_loop fuel body s) (fun finished log =>
    path k tcp Check (word log) (if (finished : bool) then Ended else Check)).
Proof.
  intros Hb. revert s. induction fuel as [|fuel IH]; intros s; simpl; [apply wp_ret; constructor|].
  apply wp_bind. eapply wp_mono; [apply Hb|]. intros [s'|] l Hl; unfold on_path in Hl.
  - eapply wp_mono; [apply IH|]. intros fin l' Hl'. rewrite word_app. by eapply path_app.
  - apply wp_ret. by rewrite app_nil_r.
Qed.

(** C22: What [Closing] assumes of the loops is what the loops do.  The log of every run
    of every loop, in any world and for any number of iterations, spells a path of
    the graph of its kind, from the head of the loop back to it, or to the end if
    the loop has ended. *)
Theorem loops_follow_closing fuel l (w : W) :
  matching l ->
  path (loop_kind l) (loop_tcp l) Check (word (log (run_listener le supported fuel l) w))
    (if value (run_listener le supported fuel l) w then Ended else Check).
Proof.
  intros Hm. pose proof (iteration_paths le supported l Hm) as Hi.
  refine (wp_use (run_listener le supported fuel l)
    (fun finished log => path (loop_kind l) (loop_tcp l) Check (word log)
       (if (finished : bool) then Ended else Check)) w _).
  destruct l; exact (run_loop_path _ _ fuel _ _ Hi).
Qed.
End Runs.

(** ** Every edge is a step of the task *)

Section Steps.
Context (d : deployment) (n : nat) (max : option nat) (capacity : nat).

(** What an edge needs of the shared state; [k] is the worker a routing loop sends to. *)
Definition condition (i k : nat) (p : pc) (o : option label) (s : server) : Prop :=
  match o, p with
  | Some (Saw b), _ => goes_on d n i s = b
  | Some GotPermit, Route => free d n max k s = true
  | Some GotPermit, _ => free d n max (worker_of n i) s = true
  | Some NoPermit, _ => free d n max k s = false
  | Some (Answer true), Receive =>
      if decide (kind_of d n i = Dispatcher) then queue_of i s <> 0%nat
      else exists l, inbox_of i s = true :: l
  | Some (Answer b), _ => exists l, inbox_of i s = b :: l
  | Some (Sent true), _ => receiver_alive k s = true /\ (queue_of k s < capacity)%nat
  | Some (Sent false), _ => receiver_alive k s = false
  | None, Receive => queue_of i s = 0%nat /\ sender_alive n s = false
  | _, _ => True
  end.

(** A point of the graph at worker [k]. *)
Definition at_worker (k : nat) (p : pc) : pc := match p with Offer _ => Offer k | p => p end.

Lemma tasks_finish i s : (i < length (tasks s))%nat -> tasks (finish d n i s) !! i = Some Ended.
Proof.
  intros Hi. unfold finish. destruct (kind_of d n i); simpl; by rewrite list_lookup_insert_eq.
Qed.

Lemma tasks_set_pc i p s : (i < length (tasks s))%nat -> tasks (set_pc i p s) !! i = Some p.
Proof. intros Hi. simpl. by rewrite list_lookup_insert_eq. Qed.

Lemma receive_answer i s b l : inbox_of i s = b :: l -> receive i s = Some (b, set_inbox i l s).
Proof. unfold receive. by intros ->. Qed.

(** Tries an answer of the rest of the system. *)
Ltac step_with c :=
  repeat match goal with
  | H : exists l, _ |- _ => destruct H
  | H : _ /\ _ |- _ => destruct H
  end;
  eexists c, _; split;
  [ simpl; repeat match goal with
      | H : goes_on _ _ _ _ = _ |- _ => rewrite H
      | H : free _ _ _ _ _ = _ |- _ => rewrite H
      | H : inbox_of _ _ = _ |- _ => rewrite (receive_answer _ _ _ _ H)
      | H : receiver_alive _ _ = _ |- _ => rewrite H
      | H : sender_alive _ _ = _ |- _ => rewrite H
      | H : queue_of _ _ = _ |- _ => rewrite H
      | H : kind_of _ _ _ = _ |- _ => rewrite H
      | H : (_ < _)%nat |- _ => rewrite decide_True by exact H
      | H : is_tcp _ = _ |- _ => rewrite H
      end; reflexivity
  | first [by apply tasks_finish | by apply tasks_set_pc ] ].
Ltac step_solve :=
  first [ step_with Go | step_with Fail | step_with Skip
        | match goal with k : nat |- _ => step_with (To k) end ].

(** Every edge of the graph can be taken by the task, whenever the shared state
    gives the answer the edge is labelled with. *)
Theorem edges_are_steps i k p o p' s :
  (k < n)%nat -> (o, p') ∈ edges (kind_of d n i) (is_tcp d) p ->
  tasks s !! i = Some (at_worker k p) -> condition i k p o s ->
  exists c s', task_step d n max capacity c i s = Some s' /\ tasks s' !! i = Some (at_worker k p').
Proof.
  intros Hk He Hp Hcond.
  assert (Hlt : (i < length (tasks s))%nat) by (by eapply lookup_lt_Some).
  unfold task_step. rewrite Hp. unfold edges in He.
  destruct (kind_of d n i) eqn:K; [| | | |by apply elem_of_nil in He];
    destruct p; simpl in He; try (by apply elem_of_nil in He);
    repeat (apply elem_of_cons in He as [He|He]); try (by apply elem_of_nil in He);
    simplify_eq/=; try rewrite decide_False in Hcond by congruence; try rewrite decide_True in Hcond by done;
    destruct (is_tcp d) eqn:T; try (destruct (queue_of i s) eqn:Q; [done|]); step_solve.
Qed.
End Steps.

(** A routing loop in a world that clears its flags after a while. *)
#[local] Existing Instance countdown_sockets.
#[local] Existing Instance countdown_env.

Definition demo_loop : listener_loop := SimulatedTcp 3 1 (SocketAddrV4 [127; 0; 0; 1] 80) [5] [6].

Lemma loops_follow_closing_witness :
  word (log (run_listener true false 9 demo_loop) 3) <> [] /\
  path Router true Check (word (log (run_listener true false 9 demo_loop) 3)) Ended.
Proof.
  split; [vm_compute; discriminate|]. exact (loops_follow_closing true false 9 demo_loop 3 eq_refl).
Defined.
