(* ===== verification/Jobs.v ===== *)
(** * The tasks a server submits: the closures of [src/src/core/udp.rs], [quic.rs] and [tcp.rs]

    Every [serve] function submits closures to the workers' executors.  A [job] is
    such a closure with what it captured; [run_job] is what happens before its
    listener loop starts: the socket is registered with the server, handed to the
    async runtime, and the worker's state is made on the worker's thread. *)

From S2P Require Import Prelude Errors Net Effects Schedule Recv Listener Platform ServerState.

(** The user's code: the state factory, [None] for the [|| ()] of [serve], and the
    handler or socket callback. *)
Record service := mkService { state_factory : option Z; handler : Z }.

Inductive job :=
| UdpListenerJob (socket : fd) (limit : Z) (transparent : bool) (svc : service)
| SocketCallbackJob (socket : fd) (worker_id callback : Z)
| RoutedCallbackJob (socket : RoutedUdpSocket) (worker_id callback : Z)
| UdpDispatchJob (receiver : Z) (svc : service)
| SimulatedUdpJob (socket : fd) (worker_count : Z) (senders limits : list Z) (transparent : bool)
| SocketOnlyJob (socket : fd) (local_addr : SocketAddr) (worker_count : Z)
    (route_packet : bytes -> PacketMeta -> Z -> option Z) (senders : list Z) (transparent : bool)
| QuicRoutedJob (socket : fd) (worker_count : Z) (senders limits : list Z)
| QuicBpfJob (socket : fd) (worker_count limit : Z) (svc : service)
| TcpListenerJob (listener : fd) (limit : Z) (svc : service)
| TcpDispatchJob (receiver : Z) (svc : service)
| SimulatedTcpJob (listener : fd) (worker_count : Z) (addr : SocketAddr) (senders limits : list Z).

(** The descriptors a closure owns. *)
Definition job_fds (j : job) : list fd :=
  match j with
  | UdpListenerJob s _ _ _ | SocketCallbackJob s _ _ | SimulatedUdpJob s _ _ _ _
  | SocketOnlyJob s _ _ _ _ _ | QuicRoutedJob s _ _ _ | QuicBpfJob s _ _ _
  | TcpListenerJob s _ _ | SimulatedTcpJob s _ _ _ _ => [s]
  | RoutedCallbackJob r _ _ => [Recv.sender r]
  | UdpDispatchJob _ _ | TcpDispatchJob _ _ => []
  end.

(** What the body of the closure goes on with: a loop of [Listener.v] with the
    handler it starts, the user's callback, or nothing after an early return. *)
Inductive started :=
| Runs (l : listener_loop) (handler : option Z)
| Calls (callback : Z) (socket : UdpSocketInner) (worker_id : Z)
| Returned.

Inductive job_event :=
| Reg (e : state_event)
| StateMade (factory state : Z).

Class JobEnv (W : Type) := {
  job_state_factory : Z -> W -> Z * W;
  job_tcp_from_std : fd -> W -> io_result Z * W;
}.

(** The events of [m] under another name. *)
Definition lift {W Ev Ev' A} (f : Ev -> Ev') (m : prog W Ev A) : prog W Ev' A := fun w =>
  let '(a, w, l) := m w in (a, w, f <$> l).

Section Jobs.
Context {W : Type} `{StateEnv W} `{JobEnv W}.
#[local] Abbreviation io A := (prog W job_event A).

(** [state_factory()]; [0] stands for the unit state. *)
Definition make_state (svc : service) : io Z :=
  match state_factory svc with
  | None => mret 0
  | Some factory => call (job_state_factory factory) (StateMade factory)
  end.

(** [if task_state.register_listener_socket(&socket).is_err() { return; }] and
    [let Ok(socket) = runtime::udp_socket_from_std(socket).. else { return; }] *)
Definition register_and_convert (thread : Z) (st : UdpServerState) (socket : fd) :
    io (UdpServerState * option UdpSocketInner) :=
  r ← lift Reg (register_listener_socket st thread socket);
  match r.2 with
  | Err _ => _ ← lift Reg (close_fd socket); mret (r.1, None)
  | Ok _ => c ← lift Reg (into_runtime socket); mret (r.1, ok c)
  end.

(** [runtime::tcp_listener_from_std(listener)], which owns the listener. *)
Definition convert_tcp (listener : fd) : io (option Z) :=
  r ← ask (job_tcp_from_std listener);
  match r with
  | Ok l => _ ← emit (Reg (HandedOut listener)); mret (Some l)
  | Err _ => _ ← lift Reg (close_fd listener); mret None
  end.

(** Registration, conversion, and then [k] of the converted socket. *)
Definition with_socket (thread : Z) (st : UdpServerState) (socket : fd)
    (k : UdpSocketInner -> io started) : io (UdpServerState * started) :=
  r ← register_and_convert thread st socket;
  match r.2 with
  | None => mret (r.1, Returned)
  | Some s => x ← k s; mret (r.1, x)
  end.

Definition with_listener (st : UdpServerState) (listener : fd) (k : Z -> io started) :
    io (UdpServerState * started) :=
  r ← convert_tcp listener;
  match r with
  | None => mret (st, Returned)
  | Some l => x ← k l; mret (st, x)
  end.

(** The body of each closure up to its loop, on the thread of its worker. *)
Definition run_job (thread : Z) (st : UdpServerState) (j : job) : io (UdpServerState * started) :=
  match j with
  | UdpListenerJob socket limit tr svc =>
      with_socket thread st socket (fun s =>
        x ← make_state svc; mret (Runs (NativeUdp s limit tr x) (Some (handler svc))))
  | SocketCallbackJob socket worker_id callback =>
      with_socket thread st socket (fun s => mret (Calls callback s worker_id))
  | RoutedCallbackJob socket worker_id callback =>
      mret (st, Calls callback (Routed socket) worker_id)
  | UdpDispatchJob receiver svc =>
      x ← make_state svc; mret (st, Runs (UdpDispatch receiver x) (Some (handler svc)))
  | SimulatedUdpJob socket worker_count senders limits tr =>
      with_socket thread st socket (fun s => mret (Runs (SimulatedUdp s worker_count senders limits tr) None))
  | SocketOnlyJob socket local_addr worker_count route senders tr =>
      c ← lift Reg (into_runtime socket);
      mret (st, match c with
                | Ok s => Runs (SocketOnly s local_addr worker_count route senders tr) None
                | Err _ => Returned
                end)
  | QuicRoutedJob socket worker_count senders limits =>
      with_socket thread st socket (fun s => mret (Runs (QuicRouted s worker_count senders limits) None))
  | QuicBpfJob socket worker_count limit svc =>
      with_socket thread st socket (fun s =>
        x ← make_state svc; mret (Runs (QuicBpf s worker_count limit x) (Some (handler svc))))
  | TcpListenerJob listener limit svc =>
      with_listener st listener (fun l =>
        x ← make_state svc; mret (Runs (NativeTcp l limit x) (Some (handler svc))))
  | TcpDispatchJob receiver svc =>
      x ← make_state svc; mret (st, Runs (TcpDispatch receiver x) (Some (handler svc)))
  | SimulatedTcpJob listener worker_count addr senders limits =>
      with_listener st listener (fun l => mret (Runs (SimulatedTcp l worker_count addr senders limits) None))
  end.
End Jobs.

(** ** What a task does before its loop *)

(** The fields of the state that [serve] itself writes; the tasks, which may run
    while [serve] is still submitting, only add to the listener registries. *)
Definition served (st : UdpServerState) :=
  (ServerState.active st, tasks st, callback_tasks st, close_sockets st).

Definition reg1 (e : job_event) : option state_event := match e with Reg e => Some e | _ => None end.
Definition regs (l : list job_event) : list state_event := omap reg1 l.
Definition state1 (e : job_event) : option (Z * Z) :=
  match e with StateMade f x => Some (f, x) | _ => None end.
(** The states made, with their factories. *)
Definition states (l : list job_event) : list (Z * Z) := omap state1 l.

(** The user's code a closure captured, if its loop starts handlers. *)
Definition job_service (j : job) : option service :=
  match j with
  | UdpListenerJob _ _ _ svc | UdpDispatchJob _ svc | QuicBpfJob _ _ _ svc
  | TcpListenerJob _ _ svc | TcpDispatchJob _ svc => Some svc
  | _ => None
  end.

(** What closure [j] goes on with, given the runtime's number for its socket and
    the worker's state. *)
Definition goes_on (j : job) (n x : Z) : started :=
  match j with
  | UdpListenerJob _ limit tr svc => Runs (NativeUdp (RuntimeSocket n) limit tr x) (Some (handler svc))
  | SocketCallbackJob _ worker_id callback => Calls callback (RuntimeSocket n) worker_id
  | RoutedCallbackJob socket worker_id callback => Calls callback (Routed socket) worker_id
  | UdpDispatchJob receiver svc => Runs (UdpDispatch receiver x) (Some (handler svc))
  | SimulatedUdpJob _ k senders limits tr => Runs (SimulatedUdp (RuntimeSocket n) k senders limits tr) None
  | SocketOnlyJob _ addr k route senders tr =>
      Runs (SocketOnly (RuntimeSocket n) addr k route senders tr) None
  | QuicRoutedJob _ k senders limits => Runs (QuicRouted (RuntimeSocket n) k senders limits) None
  | QuicBpfJob _ k limit svc => Runs (QuicBpf (RuntimeSocket n) k limit x) (Some (handler svc))
  | TcpListenerJob _ limit svc => Runs (NativeTcp n limit x) (Some (handler svc))
  | TcpDispatchJob receiver svc => Runs (TcpDispatch receiver x) (Some (handler svc))
  | SimulatedTcpJob _ k addr senders limits => Runs (SimulatedTcp n k addr senders limits) None
  end.

(** The descriptors it hands to the async runtime. *)
Definition listening_fds (j : job) : list fd :=
  match j with RoutedCallbackJob _ _ _ => [] | _ => job_fds j end.

Definition factory_calls (j : job) (x : Z) : list (Z * Z) :=
  match job_service j with
  | Some svc => match state_factory svc with Some f => [(f, x)] | None => [] end
  | None => []
  end.

Lemma wp_lift {W Ev Ev' A} (f : Ev -> Ev') (m : prog W Ev A) Q :
  wp m (fun a l => Q a (f <$> l)) -> wp (lift f m) Q.
Proof.
  intros H w. specialize (H w). unfold value, log, lift in *. by destruct (m w) as [[a w'] l].
Qed.

Lemma regs_app l1 l2 : regs (l1 ++ l2) = regs l1 ++ regs l2.
Proof. apply omap_app. Qed.
Lemma states_app l1 l2 : states (l1 ++ l2) = states l1 ++ states l2.
Proof. apply omap_app. Qed.
Lemma regs_Reg l : regs (Reg <$> l) = l.
Proof. induction l; simpl; [done|]. by f_equal. Qed.
Lemma states_Reg l : states (Reg <$> l) = [].
Proof. by induction l. Qed.

Section Spec.
Context {W : Type} `{StateEnv W} `{JobEnv W}.

Lemma register_listener_served st thread s :
  wp (register_listener_socket (W := W) st thread s) (fun r _ => served r.1 = served st).
Proof.
  unfold register_listener_socket. apply wp_bind. eapply wp_mono; [apply try_clone_cases|].
  intros [ts|e] l _; [|by apply wp_ret].
  apply wp_bind. eapply wp_mono; [apply try_clone_cases|]. intros [ps|e] l' _.
  2: { apply wp_bind, wp_call. intros []. by apply wp_ret. }
  destruct (lock (thread_sockets st)) as [map|].
  2: { apply wp_bind, wp_call. intros []. apply wp_bind, wp_call. intros []. by apply wp_ret. }
  apply wp_bind. apply wp_mono with (Q := fun _ _ => True).
  { destruct (map !! thread); [by apply wp_call|by apply wp_ret]. }
  intros [] l'' _. cbn [sockets]. destruct (lock (sockets st)); [by apply wp_ret|].
  apply wp_bind, wp_call. intros []. by apply wp_ret.
Qed.

Lemma wp_and {A} (m : prog W job_event A) (P Q : A -> list job_event -> Prop) :
  wp m P -> wp m Q -> wp m (fun a l => P a l /\ Q a l).
Proof. intros HP HQ w. split; [apply HP|apply HQ]. Qed.

Lemma make_state_log svc :
  wp (make_state (W := W) svc) (fun x l => regs l = [] /\
    states l = match state_factory svc with Some f => [(f, x)] | None => [] end).
Proof.
  unfold make_state. destruct (state_factory svc); [by apply wp_call|by apply wp_ret].
Qed.

(** Registering creates and closes clones but hands nothing to the runtime. *)
Lemma register_listener_hands_nothing st thread s :
  wp (register_listener_socket (W := W) st thread s) (fun _ l => each handed1 l = []).
Proof.
  unfold register_listener_socket. apply wp_bind. eapply wp_mono; [apply try_clone_cases|].
  intros [ts|e] l ->; [|by apply wp_ret].
  apply wp_bind. eapply wp_mono; [apply try_clone_cases|]. intros [ps|e] l' ->.
  2: { apply wp_bind, wp_call. intros []. by apply wp_ret. }
  destruct (lock (thread_sockets st)) as [map|].
  2: { apply wp_bind, wp_call. intros []. apply wp_bind, wp_call. intros []. by apply wp_ret. }
  apply wp_bind. apply wp_mono with (Q := fun _ l => each handed1 l = []).
  { destruct (map !! thread); [by apply wp_call|by apply wp_ret]. }
  intros [] l'' E. cbn [sockets]. destruct (lock (sockets st)).
  - apply wp_ret. by rewrite !each_app, E.
  - apply wp_bind, wp_call. intros []. apply wp_ret. by rewrite !each_app, E.
Qed.

(** The three facts about registering together. *)
Lemma register_listener_spec st thread s :
  wp (register_listener_socket (W := W) st thread s) (fun r l =>
    served r.1 = served st /\ each handed1 l = [] /\ accounted st r.1 l).
Proof.
  intros w. split; [|split].
  - apply (register_listener_served st thread s w).
  - apply (register_listener_hands_nothing st thread s w).
  - apply (register_listener_accounted st thread s w).
Qed.

(** What a task with a closure owning [fds] did, before it goes on. *)
Definition settled (fds : list fd) (st st' : UdpServerState) (handed : list fd) (l : list job_event) : Prop :=
  served st' = served st /\ each handed1 (regs l) = handed /\
  each cloned1 (regs l) ++ fds ++ held st ≡ₚ each closed1 (regs l) ++ handed ++ held st'.

Lemma register_and_convert_spec thread st s :
  wp (register_and_convert (W := W) thread st s) (fun r l =>
    states l = [] /\
    match r.2 with
    | Some c => (exists n, c = RuntimeSocket n) /\ settled [s] st r.1 [s] l
    | None => settled [s] st r.1 [] l
    end).
Proof.
  apply wp_bind, wp_lift. eapply wp_mono; [apply register_listener_spec|].
  intros [st' r] l (Hs & Hh & Ha). simpl in *. unfold accounted in Ha. rewrite Hh in Ha.
  destruct r as [[]|e].
  - apply wp_bind, wp_lift. eapply wp_mono; [apply into_runtime_cases|].
    intros c l' [[-> [n ->]]|[-> [e ->]]]; apply wp_ret; simpl;
      rewrite ?app_nil_r, states_app, states_Reg; (split; [done|]).
    + split; [eauto|]. unfold settled. rewrite regs_app, regs_Reg, !each_app, Hh.
      split_and!; [done|done|]. unfold each at 2 4. simpl. rewrite !app_nil_r.
      transitivity (s :: each cloned1 l ++ held st); [solve_Permutation|].
      rewrite Ha. solve_Permutation.
    + unfold settled. rewrite regs_app, regs_Reg, !each_app, Hh.
      split_and!; [done|done|]. unfold each at 2 4. simpl. rewrite !app_nil_r.
      transitivity (s :: each cloned1 l ++ held st); [solve_Permutation|].
      rewrite Ha. solve_Permutation.
  - apply wp_bind, wp_lift, wp_call. intros []. apply wp_ret. simpl.
    rewrite states_app, states_Reg. split; [done|]. unfold settled.
    rewrite regs_app, regs_Reg, !each_app, Hh. split_and!; [done|done|].
    unfold each at 2 4. simpl. rewrite !app_nil_r.
    transitivity (s :: each cloned1 l ++ held st); [solve_Permutation|].
    rewrite Ha. solve_Permutation.
Qed.

(** The two ways a task can begin: it returns before its loop, which only a task
    with a socket of its own does, or it goes on with its loop or callback. *)
Definition begins (st : UdpServerState) (j : job) (r : UdpServerState * started) (l : list job_event) : Prop :=
  (r.2 = Returned /\ listening_fds j <> [] /\ states l = [] /\
   settled (listening_fds j) st r.1 [] l) \/
  (exists n x, r.2 = goes_on j n x /\ states l = factory_calls j x /\
   settled (listening_fds j) st r.1 (listening_fds j) l).

(** The continuation of a closure makes the worker's state and nothing else. *)
Definition continues (j : job) (n : Z) (m : prog W job_event started) : Prop :=
  wp m (fun y l => regs l = [] /\ exists x, y = goes_on j n x /\ states l = factory_calls j x).

Lemma continues_ret j n : job_service j = None -> forall y, y = goes_on j n 0 -> continues j n (mret y).
Proof.
  intros Hj y ->. apply wp_ret. split; [done|]. exists 0. split; [done|].
  unfold factory_calls. by rewrite Hj.
Qed.

Lemma continues_state j n svc k :
  job_service j = Some svc -> (forall x, k x = goes_on j n x) ->
  continues j n (x ← make_state svc; mret (k x)).
Proof.
  intros Hj Hk. apply wp_bind. eapply wp_mono; [apply make_state_log|]. intros x l [Hr Hs].
  apply wp_ret. rewrite app_nil_r. split; [done|]. exists x. split; [done|].
  unfold factory_calls. by rewrite Hj.
Qed.

Lemma settled_app_quiet fds st st' h l1 l2 :
  settled fds st st' h l1 -> regs l2 = [] -> settled fds st st' h (l1 ++ l2).
Proof. unfold settled. intros Hl E. by rewrite regs_app, E, app_nil_r. Qed.

Lemma with_socket_begins j thread st s k :
  listening_fds j = [s] -> (forall n, continues j n (k (RuntimeSocket n))) ->
  wp (with_socket thread st s k) (begins st j).
Proof.
  intros Hj Hk. apply wp_bind. eapply wp_mono; [apply register_and_convert_spec|].
  intros [st' [c|]] l [Hs Hl]; simpl in *.
  - destruct Hl as [[n ->] Hl]. apply wp_bind. eapply wp_mono; [apply Hk|].
    intros y l' (Hr & x & -> & Hx). apply wp_ret. right. exists n, x. rewrite Hj, app_nil_r.
    split; [done|]. split; [by rewrite states_app, Hs|]. by apply settled_app_quiet.
  - apply wp_ret. left. rewrite Hj, app_nil_r. done.
Qed.

Lemma with_listener_begins j st s k :
  listening_fds j = [s] -> (forall n, continues j n (k n)) ->
  wp (with_listener st s k) (begins st j).
Proof.
  intros Hj Hk. apply wp_bind. unfold convert_tcp. apply wp_bind, wp_ask. intros [n|e].
  - apply wp_bind, wp_emit, wp_ret. apply wp_bind. eapply wp_mono; [apply Hk|].
    intros y l (Hr & x & -> & Hx). apply wp_ret. right. exists n, x. rewrite Hj, !app_nil_r.
    split; [done|]. split; [done|]. apply settled_app_quiet; [by repeat split|done].
  - apply wp_bind, wp_lift, wp_call. intros []. apply wp_ret, wp_ret. left. rewrite Hj. by repeat split.
Qed.

Lemma run_job_begins thread st j : wp (run_job (W := W) thread st j) (begins st j).
Proof.
  destruct j; cbn [run_job];
    try (apply with_socket_begins; [done|]; intros n; by (apply continues_ret || apply continues_state));
    try (apply with_listener_begins; [done|]; intros n; by (apply continues_ret || apply continues_state)).
  - apply wp_ret. right. exists 0, 0. by repeat split.
  - apply wp_bind. eapply wp_mono; [apply make_state_log|]. intros x l [Hr Hs]. apply wp_ret.
    right. exists 0, x. rewrite app_nil_r. split_and!; [done|exact Hs|]. unfold settled; simpl; by rewrite Hr.
  - apply wp_bind, wp_lift. eapply wp_mono; [apply into_runtime_cases|].
    intros c l [[-> [n ->]]|[-> [e ->]]]; apply wp_ret; simpl.
    + right. exists n, 0. by repeat split.
    + left. by repeat split.
  - apply wp_bind. eapply wp_mono; [apply make_state_log|]. intros x l [Hr Hs]. apply wp_ret.
    right. exists 0, x. rewrite app_nil_r. split_and!; [done|exact Hs|]. unfold settled; simpl; by rewrite Hr.
Qed.
End Spec.

(** ** Claims *)

Section Claims.
Context {W : Type} `{StateEnv W} `{JobEnv W}.

(** A submitted task either returns before its loop or starts exactly the loop of
    its closure, with the closure's queues and limits, its own socket and a state
    made on its worker: the user's state factory is called once if the loop calls
    handlers and never by the central routing loops.  A task that returns early has
    closed its socket, one that goes on has handed it to the runtime, and in both
    cases no clone is lost: descriptors made and owned are those closed, handed
    over or held by the server's registries.  What [serve] keeps in the state (the
    flag, the task handles, the sockets to close) is never touched. *)
Theorem tasks_start_their_loops thread st j (w : W) :
  begins st j (value (run_job thread st j) w) (log (run_job thread st j) w).
Proof. apply (wp_use (run_job thread st j) (begins st j)), run_job_begins. Qed.
End Claims.
