(* ===== verification/Serve.v ===== *)
(** * Starting a server: [serve], [serve_with_state] and [serve_socket] of [src/src/core/udp.rs], [quic.rs] and [tcp.rs]

    An entry point validates the configuration, binds the workers' sockets or one
    shared socket, submits one task per worker (and one routing task for the
    shared socket), and registers the task handles with the server.  Everything it
    calls is the model of another file; tasks already submitted may run at any
    moment after their submission. *)

From S2P Require Import Prelude Errors Net Effects Schedule Quic Concurrency Config Platform Selector Recv.
From S2P Require Import Listener ServerState ServerRuntime Jobs.
Import TcpState.

(** The calls of [serve] in order: those of the platform layer, the server's
    registries and the runtime, the limits and channels made, and the closures
    handed to an executor, with the handle of the task. *)
Inductive serve_event :=
| Sys (e : sys_event)
| Srv (e : state_event)
| Rt (e : runtime_event)
| LimitMade (max : option Z) (limit : Z)
| ChannelMade (capacity sender receiver : Z)
| Handed (executor task : Z) (j : job).

Class ServeEnv (W : Type) := {
  serve_limit : option Z -> W -> Z * W;
  serve_channel : Z -> W -> (Z * Z) * W;
}.

(** What the tasks submitted so far do to the server's state in the meantime. *)
Class Interference (W St : Type) := others : St -> W -> St * W.

(** The closures of a TCP server capture its flag and not its state. *)
#[export] Instance tcp_interference {W} : Interference W TcpServerState := fun st w => (st, w).

(** Programs that work on the server's state and may fail; the state survives a
    failure, since the submitted tasks share it. *)
Definition serve_m (W St A : Type) : Type := St -> prog W serve_event (St * crate_result A).

Section Monad.
Context {W St : Type}.
#[local] Abbreviation serve_m A := (serve_m W St A).

Definition finish {A} (a : A) : serve_m A := fun st => mret (st, Ok a).
Definition reject {A} (e : Error) : serve_m A := fun st => mret (st, Err e).
Definition of_result {A} (r : crate_result A) : serve_m A := fun st => mret (st, r).

(** [let x = m?; k] *)
Definition and_then {A B} (m : serve_m A) (k : A -> serve_m B) : serve_m B := fun st =>
  r ← m st;
  match r.2 with
  | Ok a => k a r.1
  | Err e => mret (r.1, Err e)
  end.

Definition system {A} (m : prog W sys_event (crate_result A)) : serve_m A := fun st =>
  r ← lift Sys m; mret (st, r).
Definition registry {A} (f : St -> prog W state_event (St * crate_result A)) : serve_m A := fun st =>
  lift Srv (f st).
Definition effect {A} (m : prog W serve_event A) : serve_m A := fun st =>
  a ← m; mret (st, Ok a).
End Monad.

Notation "x ⇐ m ; k" := (and_then m (fun x => k))
  (at level 20, m at level 100, k at level 200) : stdpp_scope.

Definition no_workers : Error := InvalidConfig "worker count must be greater than zero".
Definition no_simulation : Error :=
  UnsupportedPlatformOption "selected runtime requires native reuse-port worker sockets".
Definition FALLBACK_UDP_WORK_QUEUE_CAPACITY : Z := 4096.
Definition FALLBACK_TCP_WORK_QUEUE_CAPACITY : Z := 4096.

(** [runtime::SUPPORTS_USERSPACE_REUSEPORT_SIMULATION] of both runtimes. *)
Definition SUPPORTS_USERSPACE_REUSEPORT_SIMULATION (rt : runtime_feature) : bool :=
  match rt with RuntimeTokio => true | RuntimeAsyncStd => true end.

Section Steps.
Context {W CB St : Type} `{Os W CB} `{StateEnv W} `{RuntimeEnv W} `{ServeEnv W} `{Interference W St}.
#[local] Abbreviation serve_m A := (serve_m W St A).

(** Descriptors owned by local variables of [m]: an early return drops them. *)
Definition owned {A} (v : list fd) (m : serve_m A) : serve_m A := fun st =>
  r ← m st;
  match r.2 with
  | Ok _ => mret r
  | Err _ => _ ← lift Sys (drop_all v); mret r
  end.

(** [ServerRuntime::submit_to_executor] and [submit_to_worker] with a closure: one
    that is not accepted is dropped with what it captured. *)
Definition submit_to_executor (executor : Z) (j : job) : serve_m Z := fun st =>
  r ← lift Rt (ServerRuntime.submit_to_executor executor);
  match r with
  | Ok task => _ ← emit (Handed executor task j); st ← ask (others st); mret (st, Ok task)
  | Err e => _ ← lift Sys (drop_all (job_fds j)); mret (st, Err e)
  end.

Definition submit_to_worker (runtime : ServerRuntimeInner) (worker_id : Z) (j : job) : serve_m Z :=
  match worker runtime worker_id with
  | Ok w => submit_to_executor (executor w) j
  | Err e => owned (job_fds j) (reject e)
  end.

(** [WorkerConcurrencyLimit::new(max)], [worker_limits(worker_count, max)] *)
Definition new_limit (max : option Z) : prog W serve_event Z :=
  call (serve_limit (Limit.new max)) (LimitMade (Limit.new max)).
Fixpoint worker_limits (worker_count : nat) (max : option Z) (acc : list Z) : prog W serve_event (list Z) :=
  match worker_count with
  | O => mret acc
  | S n => l ← new_limit max; worker_limits n max (acc ++ [l])
  end.

(** [udp_work_channel], [tcp_work_channel], [routed_packet_channel]: sender, receiver. *)
Definition channel (capacity : Z) : prog W serve_event (Z * Z) :=
  call (serve_channel capacity) (fun c => ChannelMade capacity c.1 c.2).

(** [let Some(executor) = worker_executors.get(worker_id) else { return Err(..) }] *)
Definition worker_executor (runtime : ServerRuntimeInner) (worker_id : Z) : serve_m Z :=
  of_result (ok_or (InvalidConfig "worker index is out of range")
               (get (worker_executors runtime) worker_id)).

(** [for (worker_id, socket) in sockets.into_iter().enumerate() { body }]: an early
    return drops the sockets not yet reached. *)
Fixpoint each_socket (sockets : list fd) (worker_id : Z) (body : Z -> fd -> serve_m unit) : serve_m unit :=
  match sockets with
  | [] => finish ()
  | socket :: rest =>
      _ ⇐ owned rest (body worker_id socket);
      each_socket rest (worker_id + 1) body
  end.

(** [for worker_id in 0..worker_count]: a channel for every worker, whose receiver
    goes into the worker's closure; the senders, in order. *)
Fixpoint each_worker (n : nat) (worker_id : Z) (runtime : ServerRuntimeInner) (capacity : Z)
    (closure : Z -> Z -> serve_m job) (register : Z -> serve_m unit) (senders : list Z) :
    serve_m (list Z) :=
  match n with
  | O => finish senders
  | S n =>
      c ⇐ effect (channel capacity);
      j ⇐ closure worker_id c.2;
      executor ⇐ owned (job_fds j) (worker_executor runtime worker_id);
      task ⇐ submit_to_executor executor j;
      _ ⇐ register task;
      each_worker n (worker_id + 1) runtime capacity closure register (senders ++ [c.1])
  end.

(** [if sockets.is_empty() { return Err(..) }] *)
Definition nonempty (sockets : list fd) (k : serve_m unit) : serve_m unit :=
  match sockets with [] => reject no_workers | _ => k end.

Definition std_local_addr (s : fd) : serve_m SocketAddr :=
  system (from_io (call (os_local_addr s) (fun r => Did (GetLocalAddr s) (is_ok r)))).

(** [socket.try_clone().map_err(Error::from)] *)
Definition clone_socket (s : fd) : serve_m fd :=
  registry (fun st => r ← try_clone s; mret (st, r)).
End Steps.

(** ** UDP and QUIC servers *)

Section Udp.
Context {W CB : Type} `{Os W CB} `{SelectorOs W} `{StateEnv W} `{RuntimeEnv W} `{ServeEnv W}.
Context `{Interference W UdpServerState}.
(** The build (target, runtime feature, architecture), the fuel of the selector's
    drain loop, and the runtime. *)
Context (t : target) (rt : runtime_feature) (a : arch) (drain_fuel : nat) (runtime : ServerRuntimeInner).
#[local] Abbreviation serve_m A := (serve_m W UdpServerState A).
#[local] Abbreviation config_t := (Udp.UdpServiceConfig CB).

Definition udp_register_task (task : Z) : serve_m unit := registry (fun st => register_task st task).
Definition udp_register_callback_task (task : Z) : serve_m unit :=
  registry (fun st => register_callback_task st task).

(** [uses_transparent_receive(&service_config)] in this build. *)
Definition transparent_receive (config : config_t) : bool :=
  uses_transparent_receive (bool_decide (t = Linux /\ rt = RuntimeTokio)) config.

(** [platform::bind_quic_udp_reuseport_workers]: the selector on Linux only. *)
Definition bind_quic_workers (config : config_t) (workers : Z) :
    prog W sys_event (crate_result (option (list fd))) :=
  match t with
  | Linux => bind_quic_udp_reuseport_workers a drain_fuel config workers
  | Android | Bsd | Windows => mret (Ok None)
  end.

Definition udp_add_reuse_port_listener_with_state (config : config_t) (svc : service) : serve_m unit :=
  sockets ⇐ system (bind_udp_workers t config (worker_count runtime));
  nonempty sockets
    (each_socket sockets 0 (fun worker_id socket =>
       limit ⇐ effect (new_limit (Udp.cfg_max_concurrency_per_worker config));
       task ⇐ submit_to_worker runtime worker_id
                (UdpListenerJob socket limit (transparent_receive config) svc);
       udp_register_task task)).

(** A worker's socket given to the user's callback. *)
Definition submit_callback (callback worker_id : Z) (socket : fd) : serve_m unit :=
  executor ⇐ owned [socket] (worker_executor runtime worker_id);
  task ⇐ submit_to_executor executor (SocketCallbackJob socket worker_id callback);
  udp_register_callback_task task.

Definition udp_add_socket_callback_reuse_port_listener (config : config_t) (callback : Z) : serve_m unit :=
  sockets ⇐ system (bind_udp_workers t config (worker_count runtime));
  nonempty sockets (each_socket sockets 0 (submit_callback callback)).

(** The workers' queues, limits and dispatch tasks of the simulated listeners. *)
Definition udp_dispatchers (config : config_t) (svc : service) : serve_m (list Z * list Z) :=
  limits ⇐ effect (worker_limits (length (worker_executors runtime))
                     (Udp.cfg_max_concurrency_per_worker config) []);
  senders ⇐ each_worker (length (worker_executors runtime)) 0 runtime FALLBACK_UDP_WORK_QUEUE_CAPACITY
              (fun _ receiver => finish (UdpDispatchJob receiver svc)) udp_register_task [];
  finish (limits, senders).

Definition udp_add_simulated_listener_with_state (config : config_t) (svc : service) : serve_m unit :=
  if negb (SUPPORTS_USERSPACE_REUSEPORT_SIMULATION rt) then reject no_simulation
  else
    socket ⇐ system (bind_udp t config);
    queues ⇐ owned [socket] (udp_dispatchers config svc);
    task ⇐ submit_to_worker runtime 0
             (SimulatedUdpJob socket (len (worker_executors runtime)) queues.2 queues.1
                (transparent_receive config));
    udp_register_task task.

(** The closure of worker [worker_id]'s callback: a routed socket around a clone. *)
Definition routed_callback (callback : Z) (socket : fd) (local_addr : SocketAddr)
    (worker_id receiver : Z) : serve_m job :=
  sender ⇐ clone_socket socket;
  finish (RoutedCallbackJob (mkRouted sender receiver local_addr) worker_id callback).

Definition routed_workers (config : config_t) (callback : Z) (socket : fd) :
    serve_m (SocketAddr * list Z) :=
  _ ⇐ registry (fun st => register_close_socket st socket);
  local_addr ⇐ std_local_addr socket;
  if bool_decide (worker_count runtime = 0) then reject no_workers
  else
    senders ⇐ each_worker (Z.to_nat (worker_count runtime)) 0 runtime
                (Udp.routed_packet_channel_capacity config)
                (routed_callback callback socket local_addr) udp_register_callback_task [];
    finish (local_addr, senders).

Definition add_socket_callback_simulated_listener (config : config_t) (callback : Z)
    (route_packet : bytes -> PacketMeta -> Z -> option Z) : serve_m unit :=
  if negb (SUPPORTS_USERSPACE_REUSEPORT_SIMULATION rt) then reject no_simulation
  else
    socket ⇐ system (bind_udp t config);
    queues ⇐ owned [socket] (routed_workers config callback socket);
    task ⇐ submit_to_worker runtime 0
             (SocketOnlyJob socket queues.1 (worker_count runtime) route_packet queues.2
                (transparent_receive config));
    udp_register_task task.

(** *** QUIC *)

Definition add_quic_simulated_listener_with_state (config : config_t) (svc : service) : serve_m unit :=
  if negb (SUPPORTS_USERSPACE_REUSEPORT_SIMULATION rt) then reject no_simulation
  else
    socket ⇐ system (bind_udp t config);
    queues ⇐ owned [socket] (udp_dispatchers config svc);
    task ⇐ submit_to_worker runtime 0
             (QuicRoutedJob socket (len (worker_executors runtime)) queues.2 queues.1);
    udp_register_task task.

Definition add_quic_reuseport_bpf_listener_with_state (config : config_t) (svc : service) : serve_m bool :=
  sockets ⇐ system (bind_quic_workers config (worker_count runtime));
  match sockets with
  | None => finish false
  | Some sockets =>
      _ ⇐ nonempty sockets
            (each_socket sockets 0 (fun worker_id socket =>
               limit ⇐ effect (new_limit (Udp.cfg_max_concurrency_per_worker config));
               task ⇐ submit_to_worker runtime worker_id
                        (QuicBpfJob socket (worker_count runtime) limit svc);
               udp_register_task task));
      finish true
  end.

Definition add_quic_reuseport_listener_with_state (config : config_t) (svc : service) : serve_m unit :=
  started ⇐ add_quic_reuseport_bpf_listener_with_state config svc;
  if (started : bool) then finish () else add_quic_simulated_listener_with_state config svc.

Definition add_quic_routed_listener_with_state (config : config_t) (svc : service) : serve_m unit :=
  if reuse_port_balancing (capabilities t) then add_quic_reuseport_listener_with_state config svc
  else add_quic_simulated_listener_with_state config svc.

Definition add_quic_socket_callback_reuseport_bpf_listener (config : config_t) (callback : Z) : serve_m bool :=
  sockets ⇐ system (bind_quic_workers config (worker_count runtime));
  match sockets with
  | None => finish false
  | Some sockets =>
      _ ⇐ nonempty sockets (each_socket sockets 0 (submit_callback callback));
      finish true
  end.

Definition add_quic_socket_callback_listener (config : config_t) (callback : Z) : serve_m unit :=
  started ⇐ (if reuse_port_balancing (capabilities t)
             then add_quic_socket_callback_reuseport_bpf_listener config callback
             else finish false);
  if (started : bool) then finish ()
  else add_socket_callback_simulated_listener config callback (fun packet _ n => quic_worker_index packet n).

(** *** Entry points

    Each makes a new state and returns it; [serve] is [serve_with_state] with the
    unit state. *)

Definition validated (config : config_t) (k : serve_m unit) :
    prog W serve_event (UdpServerState * crate_result unit) :=
  (_ ⇐ of_result (Udp.validate config);
   _ ⇐ of_result (Udp.validate_routed_packet_channel_capacity config);
   k) ServerState.new.

Definition udp_serve_with_state (config : config_t) (svc : service) :=
  validated config
    (if negb (reuse_port_balancing (capabilities t)) then udp_add_simulated_listener_with_state config svc
     else udp_add_reuse_port_listener_with_state config svc).

Definition udp_serve (config : config_t) (handler : Z) :=
  udp_serve_with_state config (mkService None handler).

Definition udp_serve_socket (config : config_t) (callback : Z) :=
  validated config
    (if negb (reuse_port_balancing (capabilities t))
     then add_socket_callback_simulated_listener config callback
            (fun _ meta n => ok (linux_reuseport_select meta n))
     else udp_add_socket_callback_reuse_port_listener config callback).

Definition quic_serve_with_state (config : config_t) (svc : service) :=
  validated config (add_quic_routed_listener_with_state config svc).

Definition quic_serve (config : config_t) (handler : Z) :=
  quic_serve_with_state config (mkService None handler).

Definition quic_serve_socket (config : config_t) (callback : Z) :=
  validated config (add_quic_socket_callback_listener config callback).
End Udp.

(** ** TCP servers *)

Section Tcp.
Context {W CB : Type} `{Os W CB} `{StateEnv W} `{RuntimeEnv W} `{ServeEnv W}.
Context (t : target) (rt : runtime_feature) (runtime : ServerRuntimeInner).
#[local] Abbreviation serve_m A := (serve_m W TcpServerState A).
#[local] Abbreviation config_t := (Tcp.TcpServiceConfig CB).

Definition tcp_register (task : Z) : serve_m unit := registry (fun st => tcp_register_task st task).

Definition tcp_add_reuse_port_listener_with_state (config : config_t) (svc : service) : serve_m unit :=
  listeners ⇐ system (bind_tcp_workers t config (worker_count runtime));
  nonempty listeners
    (each_socket listeners 0 (fun worker_id listener =>
       limit ⇐ effect (new_limit (Tcp.cfg_max_concurrency_per_worker config));
       task ⇐ submit_to_worker runtime worker_id (TcpListenerJob listener limit svc);
       tcp_register task)).

Definition tcp_dispatchers (config : config_t) (svc : service) (listener : fd) :
    serve_m (SocketAddr * list Z * list Z) :=
  addr ⇐ std_local_addr listener;
  limits ⇐ effect (worker_limits (length (worker_executors runtime))
                     (Tcp.cfg_max_concurrency_per_worker config) []);
  senders ⇐ each_worker (length (worker_executors runtime)) 0 runtime FALLBACK_TCP_WORK_QUEUE_CAPACITY
              (fun _ receiver => finish (TcpDispatchJob receiver svc)) tcp_register [];
  finish (addr, limits, senders).

Definition tcp_add_simulated_listener_with_state (config : config_t) (svc : service) : serve_m unit :=
  if negb (SUPPORTS_USERSPACE_REUSEPORT_SIMULATION rt) then reject no_simulation
  else
    listener ⇐ system (bind_tcp t config);
    queues ⇐ owned [listener] (tcp_dispatchers config svc listener);
    task ⇐ submit_to_worker runtime 0
             (SimulatedTcpJob listener (len (worker_executors runtime)) queues.1.1 queues.2 queues.1.2);
    tcp_register task.

Definition tcp_serve_with_state (config : config_t) (svc : service) :
    prog W serve_event (TcpServerState * crate_result unit) :=
  (_ ⇐ of_result (Tcp.validate config);
   if negb (reuse_port_balancing (capabilities t)) then tcp_add_simulated_listener_with_state config svc
   else tcp_add_reuse_port_listener_with_state config svc) tcp_new.

Definition tcp_serve (config : config_t) (handler : Z) :=
  tcp_serve_with_state config (mkService None handler).
End Tcp.
