(* ===== verification/ServeSpec.v ===== *)
(** * What starting a server does

    Two readings of the programs of [Serve.v].  [balances] counts descriptors: what
    is opened, cloned or owned before is closed, captured by a submitted closure,
    kept by the server or returned.  [succeeds] gives the exact calls of a
    successful start. *)

From S2P Require Import Prelude Errors Net Effects Schedule Quic Concurrency Config Platform Selector Recv.
From S2P Require Import Listener ServerState ServerRuntime Jobs Serve.
Import TcpState.

(** ** The part of a server's state that [serve] writes *)

Record served_view := mkView {
  v_active : bool;
  v_tasks : Mutex (list Z);
  v_callbacks : Mutex (list Z);
  v_kept : Mutex (list fd);
}.

Class Served (St : Type) := view : St -> served_view.

#[export] Instance udp_served : Served UdpServerState := fun st =>
  mkView (ServerState.active st) (tasks st) (callback_tasks st) (close_sockets st).
#[export] Instance tcp_served : Served TcpServerState := fun st =>
  mkView (tcp_active st) (tcp_tasks st) (mkMutex false []) (mkMutex false []).

(** The tasks that run while [serve] is still submitting leave that part alone; for
    the closures of this crate this is [tasks_start_their_loops]. *)
Class Bystanders (W St : Type) `{Interference W St, Served St} : Prop :=
  others_view : forall st w, view (others st w).1 = view st.

#[export] Instance tcp_bystanders {W} : Bystanders W TcpServerState.
Proof. done. Qed.

Definition kept (v : served_view) : list fd := data (v_kept v).

(** ** Reading the log *)

Definition made1 (e : serve_event) : list fd :=
  match e with Sys (Opened s) => [s] | Srv (Cloned _ s) => [s] | _ => [] end.
Definition gone1 (e : serve_event) : list fd :=
  match e with Sys (Platform.Closed s) | Srv (ServerState.Closed s) => [s] | _ => [] end.
Definition given1 (e : serve_event) : list fd := match e with Handed _ _ j => job_fds j | _ => [] end.

Definition across {A} (f : serve_event -> list A) (l : list serve_event) : list A := concat (f <$> l).

Lemma across_app {A} (f : serve_event -> list A) l1 l2 : across f (l1 ++ l2) = across f l1 ++ across f l2.
Proof. unfold across. by rewrite fmap_app, concat_app. Qed.

Lemma across_cons {A} (f : serve_event -> list A) e l : across f (e :: l) = f e ++ across f l.
Proof. done. Qed.

Lemma made_Sys l : across made1 (Sys <$> l) = opened l.
Proof. induction l as [|e l IH]; [done|]. rewrite fmap_cons, across_cons, IH. by destruct e. Qed.
Lemma gone_Sys l : across gone1 (Sys <$> l) = closed l.
Proof. induction l as [|e l IH]; [done|]. rewrite fmap_cons, across_cons, IH. by destruct e. Qed.
Lemma given_Sys l : across given1 (Sys <$> l) = [].
Proof. induction l as [|e l IH]; [done|]. by rewrite fmap_cons, across_cons, IH. Qed.

(** ** Descriptors *)

(** Descriptors [inn] owned at the start, [out] at the end. *)
Definition moves (inn : list fd) (v v' : served_view) (out : list fd) (l : list serve_event) : Prop :=
  across made1 l ++ inn ++ kept v ≡ₚ across gone1 l ++ across given1 l ++ kept v' ++ out.

(** Nothing that was started is taken back: no task is cancelled and the flag stays. *)
Definition uncancelled (e : serve_event) : Prop := forall task, e <> Srv (Cancelled task).
Definition calm (v v' : served_view) (l : list serve_event) : Prop :=
  v_active v' = v_active v /\ Forall uncancelled l.

Definition ledger (inn : list fd) (v v' : served_view) (out : list fd) (l : list serve_event) : Prop :=
  moves inn v v' out l /\ calm v v' l.

Lemma calm_nil v : calm v v [].
Proof. by split. Qed.
Lemma calm_app v1 v2 v3 l1 l2 : calm v1 v2 l1 -> calm v2 v3 l2 -> calm v1 v3 (l1 ++ l2).
Proof. intros [E1 H1] [E2 H2]. split; [congruence|]. by apply Forall_app. Qed.
Lemma calm_Sys v l : calm v v (Sys <$> l).
Proof. split; [done|]. apply Forall_fmap, Forall_forall. done. Qed.

Section Ledger.
Context {W St : Type} `{Served St}.

Definition balances {A} (inn : list fd) (m : serve_m W St A) (out : A -> list fd) : Prop :=
  forall st, wp (m st) (fun r l =>
    ledger inn (view st) (view r.1) (match r.2 with Ok a => out a | Err _ => [] end) l).

Lemma ledger_app inn mid out v1 v2 v3 l1 l2 :
  ledger inn v1 v2 mid l1 -> ledger mid v2 v3 out l2 -> ledger inn v1 v3 out (l1 ++ l2).
Proof.
  unfold ledger, moves. intros [H1 C1] [H2 C2]. split; [|by eapply calm_app]. rewrite !across_app.
  transitivity (across made1 l2 ++ (across made1 l1 ++ inn ++ kept v1)); [solve_Permutation|].
  rewrite H1.
  transitivity (across gone1 l1 ++ across given1 l1 ++ (across made1 l2 ++ mid ++ kept v2)); [solve_Permutation|].
  rewrite H2. solve_Permutation.
Qed.

Lemma ledger_frame F inn v v' out l : ledger inn v v' out l -> ledger (inn ++ F) v v' (out ++ F) l.
Proof.
  intros [Hl Hc]. split; [|exact Hc]. unfold moves in *.
  transitivity ((across made1 l ++ inn ++ kept v) ++ F); [solve_Permutation|].
  rewrite Hl. solve_Permutation.
Qed.

Lemma ledger_perm inn inn' v v' out out' l :
  inn ≡ₚ inn' -> out ≡ₚ out' -> ledger inn v v' out l -> ledger inn' v v' out' l.
Proof. unfold ledger, moves. intros Hi Ho. by rewrite Hi, Ho. Qed.

Lemma ledger_nil inn v : ledger inn v v inn [].
Proof. split; [|apply calm_nil]. unfold moves. simpl. by rewrite (comm (++) inn). Qed.

Lemma bal_then {A B} inn (m : serve_m W St A) (k : A -> serve_m W St B) mid out :
  balances inn m mid -> (forall a, balances (mid a) (k a) out) -> balances inn (and_then m k) out.
Proof.
  intros Hm Hk st. apply wp_bind. eapply wp_mono; [apply Hm|]. intros [st' [a|e]] l Hl; simpl in *.
  - eapply wp_mono; [apply Hk|]. intros r l' Hl'. by eapply ledger_app.
  - apply wp_ret. by rewrite app_nil_r.
Qed.

Lemma bal_finish {A} (a : A) inn out : inn ≡ₚ out a -> balances inn (finish a) out.
Proof. intros Hp st. apply wp_ret. eapply ledger_perm; [reflexivity|exact Hp|]. apply ledger_nil. Qed.

Lemma bal_result {A} (r : crate_result A) : balances [] (of_result r) (fun _ => []).
Proof. intros st. apply wp_ret. destruct r; apply ledger_nil. Qed.

Lemma bal_reject {A} e (out : A -> list fd) : balances [] (reject e) out.
Proof. intros st. apply wp_ret, ledger_nil. Qed.

Lemma bal_system {A} (m : prog W sys_event (crate_result A)) out :
  wp m (fun r l => balanced l (match r with Ok a => out a | Err _ => [] end)) ->
  balances [] (system m) out.
Proof.
  intros Hm st. apply wp_bind, wp_lift. eapply wp_mono; [exact Hm|]. intros r l Hl. apply wp_ret.
  simpl. rewrite app_nil_r. split; [|apply calm_Sys]. unfold moves. rewrite made_Sys, gone_Sys, given_Sys, Hl. simpl.
  solve_Permutation.
Qed.

(** Events that move no descriptor and cancel nothing. *)
Definition still (e : serve_event) : Prop :=
  made1 e = [] /\ gone1 e = [] /\ given1 e = [] /\ uncancelled e.

Lemma ledger_still_kept inn v v' l : kept v' = kept v -> v_active v' = v_active v ->
  Forall still l -> ledger inn v v' inn l.
Proof.
  intros Hv Ha Hl. split.
  2: { split; [done|]. eapply Forall_impl; [exact Hl|]. by intros e (_ & _ & _ & ?). } assert (across made1 l = [] /\ across gone1 l = [] /\ across given1 l = []) as (E1 & E2 & E3).
  { induction Hl as [|e l (E1 & E2 & E3 & _) _ (I1 & I2 & I3)]; [done|].
    by rewrite !across_cons, E1, E2, E3, I1, I2, I3. }
  unfold moves. rewrite E1, E2, E3, Hv. simpl. by rewrite (comm (++) inn).
Qed.
Lemma ledger_still inn v l : Forall still l -> ledger inn v v inn l.
Proof. by apply ledger_still_kept. Qed.

Lemma bal_effect {A} (m : prog W serve_event A) inn :
  wp m (fun _ l => Forall still l) -> balances inn (effect m) (fun _ => inn).
Proof.
  intros Hm st. apply wp_bind. eapply wp_mono; [exact Hm|]. intros a l Hl. apply wp_ret.
  rewrite app_nil_r. by apply ledger_still.
Qed.

(** [owned]: on success the descriptors are still owned, on failure closed. *)
Lemma bal_owned {CB A} `{Os W CB} F inn (m : serve_m W St A) out :
  balances inn m out -> balances (inn ++ F) (owned F m) (fun a => out a ++ F).
Proof.
  intros Hm st. apply wp_bind. eapply wp_mono; [apply Hm|]. intros [st' [a|e]] l Hl; simpl in *.
  - apply wp_ret. rewrite app_nil_r. by apply ledger_frame.
  - apply wp_bind, wp_lift. eapply wp_mono; [apply drop_all_log|]. intros [] l' ->. apply wp_ret.
    simpl. rewrite app_nil_r. apply ledger_app with (mid := F) (v2 := view st').
    + apply (ledger_frame F) in Hl. by rewrite app_nil_l in Hl.
    + split; [|apply calm_Sys]. unfold moves. rewrite made_Sys, gone_Sys, given_Sys, opened_Closed, closed_Closed. simpl.
      by rewrite app_nil_r.
Qed.

Lemma bal_perm {A} inn inn' (m : serve_m W St A) out out' :
  inn ≡ₚ inn' -> (forall a, out a ≡ₚ out' a) -> balances inn m out -> balances inn' m out'.
Proof.
  intros Hi Ho Hm st. eapply wp_mono; [apply Hm|]. intros [st' [a|e]] l Hl; simpl in *;
    (eapply ledger_perm; [exact Hi| |exact Hl]); [apply Ho|done].
Qed.
End Ledger.

Section Steps.
Context {W CB St : Type} `{Os W CB} `{StateEnv W} `{RuntimeEnv W} `{ServeEnv W}.
Context `{Interference W St} `{Served St} `{!Bystanders W St}.

Lemma bal_drop j e : balances (W := W) (St := St) (A := Z) (job_fds j) (owned (CB := CB) (job_fds j) (reject e)) (fun _ => []).
Proof.
  intros st. apply wp_bind, wp_ret. simpl. apply wp_bind, wp_lift.
  eapply wp_mono; [apply drop_all_log|]. intros [] l ->. apply wp_ret. simpl. rewrite app_nil_r.
  split; [|apply calm_Sys]. unfold moves. rewrite made_Sys, gone_Sys, given_Sys, opened_Closed, closed_Closed. simpl.
  by rewrite app_nil_r.
Qed.

(** A submitted closure takes its descriptors along. *)
Lemma bal_submit executor j :
  balances (St := St) (job_fds j) (submit_to_executor (CB := CB) executor j) (fun _ => []).
Proof.
  intros st. apply wp_bind, wp_lift. apply wp_map_err, wp_call. intros [task|e]; simpl.
  - apply wp_bind, wp_emit. apply wp_bind, wp_ask_known. intros w. apply wp_ret. simpl.
    unfold ledger, calm. rewrite others_view. split; [|by repeat constructor].
    unfold moves, across. simpl. rewrite !app_nil_r. solve_Permutation.
  - apply wp_bind, wp_lift. eapply wp_mono; [apply drop_all_log|]. intros [] l ->. apply wp_ret. simpl.
    rewrite app_nil_r. apply (ledger_app (job_fds j) (job_fds j) [] (view st) (view st) (view st) [Rt _]).
    { apply ledger_still. by repeat constructor. }
    split; [|apply calm_Sys]. unfold moves. rewrite made_Sys, gone_Sys, given_Sys, opened_Closed, closed_Closed. simpl.
    by rewrite app_nil_r.
Qed.

Lemma bal_submit_worker runtime worker_id j :
  balances (St := St) (job_fds j) (submit_to_worker (CB := CB) runtime worker_id j) (fun _ => []).
Proof. unfold submit_to_worker. destruct (worker _ _); [apply bal_submit|apply bal_drop]. Qed.

Lemma bal_socket_list sockets i body :
  (forall k s, balances (W := W) (St := St) [s] (body k s) (fun _ => [])) ->
  balances sockets (each_socket (CB := CB) sockets i body) (fun _ => []).
Proof.
  intros Hb. revert i. induction sockets as [|s rest IH]; intros i; simpl; [by apply bal_finish|].
  apply (bal_then _ _ _ (fun _ => rest)); [|intros u; apply IH].
  apply (bal_owned rest [s] _ (fun _ => [])), Hb.
Qed.

Lemma still_new_limit max : wp (new_limit (W := W) max) (fun _ l => Forall still l).
Proof. apply wp_call. intros l. by repeat constructor. Qed.
Lemma still_limits n max acc : wp (worker_limits (W := W) n max acc) (fun _ l => Forall still l).
Proof.
  revert acc. induction n as [|n IH]; intros acc; [by apply wp_ret|].
  apply wp_bind. eapply wp_mono; [apply still_new_limit|]. intros x l Hl.
  eapply wp_mono; [apply IH|]. intros y l' Hl'. by apply Forall_app.
Qed.
Lemma still_channel capacity : wp (channel (W := W) capacity) (fun _ l => Forall still l).
Proof. apply wp_call. intros c. by repeat constructor. Qed.

Lemma bal_executor runtime i : balances (W := W) (St := St) [] (worker_executor runtime i) (fun _ => []).
Proof. apply bal_result. Qed.

Lemma bal_workers n i runtime capacity closure register senders :
  (forall k r, balances (W := W) (St := St) [] (closure k r) job_fds) ->
  (forall task, balances [] (register task) (fun _ => [])) ->
  balances [] (each_worker (CB := CB) n i runtime capacity closure register senders) (fun _ => []).
Proof.
  intros Hc Hr. revert i senders. induction n as [|n IH]; intros i senders; simpl; [by apply bal_finish|].
  eapply bal_then; [apply bal_effect, still_channel|]. intros c.
  eapply bal_then; [apply Hc|]. intros j.
  eapply bal_then; [apply (bal_owned (job_fds j) []), bal_executor|]. intros executor.
  eapply bal_then; [apply bal_submit|]. intros task.
  eapply bal_then; [apply Hr|]. intros u. apply IH.
Qed.

Lemma bal_nonempty sockets k :
  balances (W := W) (St := St) sockets k (fun _ => []) -> balances sockets (nonempty sockets k) (fun _ => []).
Proof. destruct sockets; [intros _; apply bal_reject|done]. Qed.

Lemma bal_local_addr s : balances (St := St) [] (std_local_addr (CB := CB) s) (fun _ => []).
Proof. apply bal_system, wp_map_err, wp_call.
  intros [addr|e]; apply balanced_quiet, quiet_did. Qed.

Lemma bal_clone s : balances (W := W) (St := St) [] (clone_socket s) (fun s' => [s']).
Proof.
  intros st. apply wp_lift, wp_bind. eapply wp_mono; [apply try_clone_cases|].
  intros [s'|e] l ->; apply wp_ret; (split; [|by repeat constructor]);
    unfold moves, across; simpl; solve_Permutation.
Qed.

Lemma bal_bind (t : target) (m : prog W sys_event (crate_result fd)) :
  wp m single -> balances (St := St) [] (system m) (fun s => [s]).
Proof. intros Hm. apply bal_system. eapply wp_mono; [exact Hm|]. intros r l Hl%single_balanced. by destruct r. Qed.
End Steps.

(** *** The entry points *)

Lemma bind_udp_workers_bal {W CB} `{Os W CB} t (config : Udp.UdpServiceConfig CB) n :
  wp (bind_udp_workers t config n) (fun r l => balanced l (match r with Ok v => v | Err _ => [] end)).
Proof.
  eapply wp_mono; [apply (workers_no_leak t (bind_udp t config)), bind_udp_single|].
  by intros [v|e] l [Hl _].
Qed.
Lemma bind_tcp_workers_bal {W CB} `{Os W CB} t (config : Tcp.TcpServiceConfig CB) n :
  wp (bind_tcp_workers t config n) (fun r l => balanced l (match r with Ok v => v | Err _ => [] end)).
Proof.
  eapply wp_mono; [apply (workers_no_leak t (bind_tcp t config)), bind_tcp_single|].
  by intros [v|e] l [Hl _].
Qed.

Section UdpLedger.
Context {W CB : Type} `{Os W CB} `{SelectorOs W} `{StateEnv W} `{RuntimeEnv W} `{ServeEnv W}.
Context `{Interference W UdpServerState} `{!Bystanders W UdpServerState}.
Context (t : target) (rt : runtime_feature) (a : arch) (drain_fuel : nat) (runtime : ServerRuntimeInner).
Implicit Types config : Udp.UdpServiceConfig CB.

Lemma bal_bind_quic config n : 0 <= n ->
  balances (St := UdpServerState) [] (system (bind_quic_workers t a drain_fuel config n)) (fun v => default [] v).
Proof.
  intros Hn. apply bal_system. unfold bind_quic_workers. destruct t; [|apply wp_ret, balanced_quiet, quiet_nil..].
  eapply wp_mono; [by apply (install_cases a drain_fuel config n)|].
  intros r l Hl. apply (install_run_balanced n) in Hl. by destruct r as [[v|]|e].
Qed.

Lemma push_task_still m task message :
  wp (push_task (W := W) m task message) (fun _ l => Forall still (Srv <$> l)).
Proof.
  unfold push_task. destruct (lock m); [by apply wp_ret; constructor|].
  apply wp_bind, wp_call. intros []. apply wp_ret. by repeat constructor.
Qed.

Lemma bal_register task : balances (W := W) [] (udp_register_task task) (fun _ => []).
Proof.
  intros st. apply wp_lift, wp_bind. eapply wp_mono; [apply push_task_still|]. intros [m r] l Hl.
  apply wp_ret. rewrite app_nil_r. simpl. destruct r as [[]|e]; by apply ledger_still_kept.
Qed.
Lemma bal_register_callback task : balances (W := W) [] (udp_register_callback_task task) (fun _ => []).
Proof.
  intros st. apply wp_lift, wp_bind. eapply wp_mono; [apply push_task_still|]. intros [m r] l Hl.
  apply wp_ret. rewrite app_nil_r. simpl. destruct r as [[]|e]; by apply ledger_still_kept.
Qed.
Lemma bal_register_close s :
  balances (W := W) [] (registry (fun st => register_close_socket st s)) (fun _ => []).
Proof.
  intros st. apply wp_lift. unfold register_close_socket.
  destruct (lock (close_sockets st)) as [v|] eqn:Es; [|apply wp_ret, ledger_nil].
  assert (v = data (close_sockets st)) as ->.
  { unfold lock in Es. destruct (poisoned (close_sockets st)); congruence. }
  apply wp_bind. eapply wp_mono; [apply try_clone_cases|].
  intros [s'|e] l ->; apply wp_ret; (split; [|by repeat constructor]);
    unfold moves, across; simpl; [|solve_Permutation].
  unfold kept. simpl. solve_Permutation.
Qed.

Lemma bal_dispatchers config svc :
  balances [] (udp_dispatchers (W := W) runtime config svc) (fun _ => []).
Proof.
  eapply bal_then; [apply bal_effect, still_limits|]. intros limits.
  apply (bal_then _ _ _ (fun _ => [])); [|intros senders; by apply bal_finish].
  apply bal_workers; [|apply bal_register]. intros k r. by apply bal_finish.
Qed.

(** The shared part of the two simulated listeners with dispatch tasks. *)
Lemma bal_simulated {A} config (queues : fd -> serve_m W UdpServerState A) (closure : fd -> A -> job) :
  (forall s, balances [] (queues s) (fun _ => [])) -> (forall s q, job_fds (closure s q) = [s]) ->
  balances [] (socket ⇐ system (bind_udp t config);
               q ⇐ owned (CB := CB) [socket] (queues socket);
               task ⇐ submit_to_worker (CB := CB) runtime 0 (closure socket q);
               udp_register_task task) (fun _ => []).
Proof.
  intros Hq Hj. eapply bal_then; [apply (bal_bind t), bind_udp_single|]. intros s.
  eapply bal_then; [apply (bal_owned [s] []), Hq|]. intros q. simpl. rewrite <- (Hj s q).
  eapply bal_then; [apply bal_submit_worker|]. intros task. apply bal_register.
Qed.

Lemma bal_routed config callback s :
  balances [] (routed_workers runtime config callback s) (fun _ => []).
Proof.
  apply (bal_then _ _ _ (fun _ => [])); [apply bal_register_close|]. intros u.
  eapply bal_then; [apply bal_local_addr|]. intros addr.
  case_bool_decide; [apply bal_reject|].
  apply (bal_then _ _ _ (fun _ => [])); [|intros senders; by apply bal_finish].
  apply bal_workers; [|apply bal_register_callback]. intros k r.
  eapply bal_then; [apply bal_clone|]. intros s'. by apply bal_finish.
Qed.

Lemma bal_socket_callback config callback route :
  balances [] (add_socket_callback_simulated_listener t rt runtime config callback route) (fun _ => []).
Proof.
  unfold add_socket_callback_simulated_listener. case_match; [apply bal_reject|].
  apply (bal_simulated config (routed_workers runtime config callback)
    (fun s q => SocketOnlyJob s q.1 (worker_count runtime) route q.2 (transparent_receive t rt config)));
    [|done]. intros s. apply bal_routed.
Qed.

Lemma bal_quic_simulated config svc :
  balances [] (add_quic_simulated_listener_with_state t rt runtime config svc) (fun _ => []).
Proof.
  unfold add_quic_simulated_listener_with_state. case_match; [apply bal_reject|].
  apply (bal_simulated config (fun _ => udp_dispatchers runtime config svc)
    (fun s q => QuicRoutedJob s (len (worker_executors runtime)) q.2 q.1)); [|done].
  intros s. apply bal_dispatchers.
Qed.

Lemma bal_udp_simulated config svc :
  balances [] (udp_add_simulated_listener_with_state t rt runtime config svc) (fun _ => []).
Proof.
  unfold udp_add_simulated_listener_with_state. case_match; [apply bal_reject|].
  apply (bal_simulated config (fun _ => udp_dispatchers runtime config svc)
    (fun s q => SimulatedUdpJob s (len (worker_executors runtime)) q.2 q.1 (transparent_receive t rt config)));
    [|done]. intros s. apply bal_dispatchers.
Qed.

(** A worker's native socket goes into its closure, by either kind of task. *)
Lemma bal_native_task max k s (closure : Z -> job) :
  (forall x, job_fds (closure x) = [s]) ->
  balances [s] (limit ⇐ effect (new_limit max);
                task ⇐ submit_to_worker (CB := CB) runtime k (closure limit);
                udp_register_task task) (fun _ => []).
Proof.
  intros Hj. eapply bal_then; [apply bal_effect, still_new_limit|]. intros limit. simpl.
  rewrite <- (Hj limit). eapply bal_then; [apply bal_submit_worker|]. intros task. apply bal_register.
Qed.
Lemma bal_callback_task callback k s :
  balances [s] (submit_callback (CB := CB) runtime callback k s) (fun _ => []).
Proof.
  eapply bal_then; [apply (bal_owned [s] []), bal_executor|]. intros executor. simpl.
  eapply bal_then; [apply (bal_submit executor (SocketCallbackJob s k callback))|].
  intros task. apply bal_register_callback.
Qed.

Lemma bal_native config (body : Z -> fd -> serve_m W UdpServerState unit) :
  (forall k s, balances [s] (body k s) (fun _ => [])) ->
  balances [] (sockets ⇐ system (bind_udp_workers t config (worker_count runtime));
               nonempty sockets (each_socket (CB := CB) sockets 0 body)) (fun _ => []).
Proof.
  intros Hb. eapply bal_then; [apply (bal_system (St := UdpServerState) _ (fun v => v)), bind_udp_workers_bal|].
  intros sockets. by apply bal_nonempty, (bal_socket_list (St := UdpServerState)).
Qed.

Lemma bal_bpf config (body : Z -> fd -> serve_m W UdpServerState unit) :
  (forall k s, balances [s] (body k s) (fun _ => [])) ->
  balances [] (sockets ⇐ system (bind_quic_workers t a drain_fuel config (worker_count runtime));
               match sockets with
               | None => finish false
               | Some sockets =>
                   _ ⇐ nonempty sockets (each_socket (CB := CB) sockets 0 body); finish true
               end) (fun _ => []).
Proof.
  intros Hb. eapply bal_then; [apply bal_bind_quic; unfold worker_count; apply len_nonneg|].
  intros [sockets|]; simpl; [|by apply bal_finish].
  apply (bal_then _ _ _ (fun _ => [])); [by apply bal_nonempty, (bal_socket_list (St := UdpServerState))|].
  intros u. by apply bal_finish.
Qed.
End UdpLedger.

(** The entry points of the UDP and the QUIC server. *)
Inductive entry :=
| UdpServe (svc : service)
| UdpServeSocket (callback : Z)
| QuicServe (svc : service)
| QuicServeSocket (callback : Z).

Section Entries.
Context {W CB : Type} `{Os W CB} `{SelectorOs W} `{StateEnv W} `{RuntimeEnv W} `{ServeEnv W}.
Context `{Interference W UdpServerState}.
Context (t : target) (rt : runtime_feature) (a : arch) (drain_fuel : nat) (runtime : ServerRuntimeInner).

Definition enter (e : entry) (config : Udp.UdpServiceConfig CB) :
    prog W serve_event (UdpServerState * crate_result unit) :=
  match e with
  | UdpServe svc => udp_serve_with_state t rt runtime config svc
  | UdpServeSocket callback => udp_serve_socket t rt runtime config callback
  | QuicServe svc => quic_serve_with_state t rt a drain_fuel runtime config svc
  | QuicServeSocket callback => quic_serve_socket t rt a drain_fuel runtime config callback
  end.

(** The part of an entry point after the validation. *)
Definition enter_body (e : entry) (config : Udp.UdpServiceConfig CB) : serve_m W UdpServerState unit :=
  match e with
  | UdpServe svc =>
      if negb (reuse_port_balancing (capabilities t))
      then udp_add_simulated_listener_with_state t rt runtime config svc
      else udp_add_reuse_port_listener_with_state t rt runtime config svc
  | UdpServeSocket callback =>
      if negb (reuse_port_balancing (capabilities t))
      then add_socket_callback_simulated_listener t rt runtime config callback
             (fun _ meta n => ok (linux_reuseport_select meta n))
      else udp_add_socket_callback_reuse_port_listener t runtime config callback
  | QuicServe svc => add_quic_routed_listener_with_state t rt a drain_fuel runtime config svc
  | QuicServeSocket callback => add_quic_socket_callback_listener t rt a drain_fuel runtime config callback
  end.

Lemma enter_cases e config w :
  (Udp.routed_packet_channel_capacity config = 0 /\
   value (enter e config) w =
     (ServerState.new, Err (InvalidConfig "routed packet channel capacity must be greater than zero")) /\
   log (enter e config) w = []) \/
  (Udp.routed_packet_channel_capacity config <> 0 /\
   value (enter e config) w = value (enter_body e config ServerState.new) w /\
   log (enter e config) w = log (enter_body e config ServerState.new) w).
Proof.
  assert (enter e config = validated config (enter_body e config)) as -> by by destruct e.
  unfold validated, and_then, of_result, Udp.validate, Udp.validate_routed_packet_channel_capacity.
  case_bool_decide; [left; by repeat split|right]. split; [done|].
  unfold value, log, mbind, prog_bind, mret, prog_ret. simpl.
  by destruct (enter_body e config ServerState.new w) as [[r w'] l].
Qed.

Context `{!Bystanders W UdpServerState}.

Lemma bal_enter_body e config : balances [] (enter_body e config) (fun _ => []).
Proof.
  destruct e; simpl.
  - case_match; [apply bal_udp_simulated|].
    apply bal_native. intros k s. by apply (bal_native_task runtime).
  - case_match; [apply bal_socket_callback|].
    apply bal_native. intros k s. apply bal_callback_task.
  - unfold add_quic_routed_listener_with_state. case_match; [|apply bal_quic_simulated].
    apply (bal_then _ _ _ (fun _ => [])).
    + apply bal_bpf. intros k s. by apply (bal_native_task runtime).
    + intros [|]; [by apply bal_finish|apply bal_quic_simulated].
  - unfold add_quic_socket_callback_listener. apply (bal_then _ _ _ (fun _ => [])).
    + case_match; [|by apply bal_finish]. apply bal_bpf. intros k s. apply bal_callback_task.
    + intros [|]; [by apply bal_finish|apply bal_socket_callback].
Qed.
End Entries.

Section TcpLedger.
Context {W CB : Type} `{Os W CB} `{StateEnv W} `{RuntimeEnv W} `{ServeEnv W}.
Context (t : target) (rt : runtime_feature) (runtime : ServerRuntimeInner).
Implicit Types config : Tcp.TcpServiceConfig CB.

Lemma bal_tcp_register task : balances (W := W) [] (tcp_register task) (fun _ => []).
Proof.
  intros st. apply wp_lift, wp_bind. eapply wp_mono; [apply push_task_still|]. intros [m r] l Hl.
  apply wp_ret. rewrite app_nil_r. simpl. destruct r as [[]|e]; by apply ledger_still_kept.
Qed.

Lemma bal_tcp_dispatchers config svc s :
  balances [] (tcp_dispatchers runtime config svc s) (fun _ => []).
Proof.
  eapply bal_then; [apply bal_local_addr|]. intros addr.
  eapply bal_then; [apply bal_effect, still_limits|]. intros limits.
  apply (bal_then _ _ _ (fun _ => [])); [|intros senders; by apply bal_finish].
  apply bal_workers; [|apply bal_tcp_register]. intros k r. by apply bal_finish.
Qed.

Lemma bal_tcp_serve config svc :
  wp (tcp_serve_with_state t rt runtime config svc)
    (fun r l => ledger [] (view tcp_new) (view r.1) [] l).
Proof.
  apply wp_bind, wp_ret. simpl. eapply wp_mono.
  - cut (balances [] (if negb (reuse_port_balancing (capabilities t))
      then tcp_add_simulated_listener_with_state t rt runtime config svc
      else tcp_add_reuse_port_listener_with_state t runtime config svc) (fun _ => [])).
    { intros Hb. apply Hb. }
    case_match.
    + unfold tcp_add_simulated_listener_with_state. case_match; [apply bal_reject|].
      eapply bal_then; [apply (bal_bind t), bind_tcp_single|]. intros s.
      eapply bal_then; [apply (bal_owned [s] []), bal_tcp_dispatchers|]. intros q. simpl.
      eapply bal_then; [apply (bal_submit_worker runtime 0 (SimulatedTcpJob s _ _ _ _))|].
      intros task. apply bal_tcp_register.
    + eapply bal_then; [apply (bal_system (St := TcpServerState) _ (fun v => v)), bind_tcp_workers_bal|].
      intros sockets. apply bal_nonempty, bal_socket_list. intros k s.
      eapply bal_then; [apply bal_effect, still_new_limit|]. intros limit.
      eapply bal_then; [apply (bal_submit_worker runtime k (TcpListenerJob s limit svc))|].
      intros task. apply bal_tcp_register.
  - intros [st [[]|e]] l Hl; exact Hl.
Qed.
End TcpLedger.
