(* ===== verification/ServeLog.v ===== *)
(** * The exact calls of a successful start

    [succeeds] relates the answer, the server's state and the log of a program of
    [Serve.v] when it returns [Ok].  The log of a server that started is the log of
    the binding, then one block per worker, then the routing task where there is
    one. *)

From S2P Require Import Prelude Errors Net Effects Schedule Quic Concurrency Config Platform Selector Recv.
From S2P Require Import Listener ServerState ServerRuntime Jobs Serve ServeSpec.
Import TcpState.

(** ** What was placed on a worker *)

(** A task on a worker's executor; [p_own] is what was made for it: its socket, its
    limit, the ends of its channel. *)
Record placed (X : Type) := mkPlaced { p_executor : Z; p_task : Z; p_own : X }.
Arguments mkPlaced {X} p_executor p_task p_own.
Arguments p_executor {X} p.
Arguments p_task {X} p.
Arguments p_own {X} p.

Definition submitted_log (executor task : Z) (j : job) : list serve_event :=
  [Rt (ServerRuntime.Submitted executor true); Handed executor task j].

(** One block per worker, from worker [k] on: what is made for it ([own]), then the
    submission of its closure. *)
Fixpoint workers_log {X} (own : Z -> X -> list serve_event) (closure : Z -> X -> job) (k : Z)
    (ws : list (placed X)) : list serve_event :=
  match ws with
  | [] => []
  | p :: ws =>
      own k (p_own p) ++ submitted_log (p_executor p) (p_task p) (closure k (p_own p)) ++
      workers_log own closure (k + 1) ws
  end.

Definition add_task (v : served_view) (task : Z) : served_view :=
  mkView (v_active v) (set_data (v_tasks v) (data (v_tasks v) ++ [task])) (v_callbacks v) (v_kept v).
Definition add_callback (v : served_view) (task : Z) : served_view :=
  mkView (v_active v) (v_tasks v) (set_data (v_callbacks v) (data (v_callbacks v) ++ [task])) (v_kept v).

(** ** Programs that succeed *)

Section Success.
Context {W St : Type} `{Served St}.

Definition succeeds {A} (m : serve_m W St A)
    (Q : A -> served_view -> served_view -> list serve_event -> Prop) : Prop :=
  forall st, wp (m st) (fun r l => forall a, r.2 = Ok a -> Q a (view st) (view r.1) l).

Lemma suc_then {A B} (m : serve_m W St A) (k : A -> serve_m W St B) P
    (Q : B -> served_view -> served_view -> list serve_event -> Prop) :
  succeeds m P ->
  (forall a, succeeds (k a) (fun b v1 v2 l2 => forall v l1, P a v v1 l1 -> Q b v v2 (l1 ++ l2))) ->
  succeeds (and_then m k) Q.
Proof.
  intros Hm Hk st. apply wp_bind. eapply wp_mono; [apply Hm|]. intros [st' [a|e]] l Hl; simpl in *.
  - eapply wp_mono; [apply Hk|]. intros r l' Hr b Hb. eapply Hr; eauto.
  - by apply wp_ret.
Qed.

Lemma suc_mono {A} (m : serve_m W St A) P (Q : A -> served_view -> served_view -> list serve_event -> Prop) :
  succeeds m P -> (forall a v v' l, P a v v' l -> Q a v v' l) -> succeeds m Q.
Proof. intros Hm HQ st. eapply wp_mono; [apply Hm|]. eauto. Qed.

Lemma suc_true {A} (m : serve_m W St A) : succeeds m (fun _ _ _ _ => True).
Proof. by intros st w. Qed.

Lemma suc_finish {A} (a : A) : succeeds (finish a) (fun b v v' l => b = a /\ v' = v /\ l = []).
Proof. intros st. apply wp_ret. by intros b [= <-]. Qed.

Lemma suc_reject {A} e Q : succeeds (reject (A := A) e) Q.
Proof. intros st. by apply wp_ret. Qed.

Lemma suc_result {A} (r : crate_result A) : succeeds (of_result r) (fun a v v' l => r = Ok a /\ v' = v /\ l = []).
Proof. intros st. by apply wp_ret. Qed.

Lemma suc_system {A} (m : prog W sys_event (crate_result A)) (P : A -> list sys_event -> Prop) :
  wp m (fun r l => forall a, r = Ok a -> P a l) ->
  succeeds (system m) (fun a v v' l => v' = v /\ exists b, l = Sys <$> b /\ P a b).
Proof.
  intros Hm st. apply wp_bind, wp_lift. eapply wp_mono; [exact Hm|]. intros r l Hr. apply wp_ret.
  simpl. intros a ->. rewrite app_nil_r. eauto.
Qed.

Lemma suc_effect {A} (m : prog W serve_event A) P :
  wp m P -> succeeds (effect m) (fun a v v' l => v' = v /\ P a l).
Proof.
  intros Hm st. apply wp_bind. eapply wp_mono; [exact Hm|]. intros a l Hl. apply wp_ret.
  simpl. intros b [= <-]. by rewrite app_nil_r.
Qed.

Lemma suc_owned {CB A} `{Os W CB} F (m : serve_m W St A) Q :
  succeeds m Q -> succeeds (owned F m) Q.
Proof.
  intros Hm st. apply wp_bind. eapply wp_mono; [apply Hm|]. intros [st' [a|e]] l Hl; simpl in *.
  - apply wp_ret. by rewrite app_nil_r.
  - apply wp_bind, wp_lift. eapply wp_mono; [apply drop_all_log|]. intros [] l' _. by apply wp_ret.
Qed.
End Success.

Section Steps.
Context {W CB St : Type} `{Os W CB} `{StateEnv W} `{RuntimeEnv W} `{ServeEnv W}.
Context `{Interference W St} `{Served St} `{!Bystanders W St}.
#[local] Abbreviation suc := (succeeds (W := W) (St := St)).

Lemma suc_submit executor j :
  suc (submit_to_executor (CB := CB) executor j)
    (fun task v v' l => v' = v /\ l = submitted_log executor task j).
Proof.
  intros st. apply wp_bind, wp_lift. apply wp_map_err, wp_call. intros [task|e]; simpl.
  - apply wp_bind, wp_emit. apply wp_bind, wp_ask_known. intros w. apply wp_ret. simpl.
    intros x [= <-]. split; [apply others_view|done].
  - apply wp_bind, wp_lift. eapply wp_mono; [apply drop_all_log|]. intros [] l _. by apply wp_ret.
Qed.

Lemma suc_submit_worker runtime k j :
  suc (submit_to_worker (CB := CB) runtime k j)
    (fun task v v' l => v' = v /\ exists e, get (worker_executors runtime) k = Some e /\
       l = submitted_log e task j).
Proof.
  unfold submit_to_worker, worker, worker_executors, get. rewrite list_lookup_fmap.
  destruct (workers runtime !! Z.to_nat k); simpl.
  - eapply suc_mono; [apply suc_submit|]. intros task v v' l []. eauto.
  - apply suc_owned, suc_reject.
Qed.

Lemma suc_executor runtime k :
  suc (worker_executor runtime k)
    (fun e v v' l => get (worker_executors runtime) k = Some e /\ v' = v /\ l = []).
Proof.
  eapply suc_mono; [apply suc_result|]. intros e v v' l (He & -> & ->). split; [|done].
  destruct (get _ _); simpl in He; congruence.
Qed.

(** A task placed on worker [k] by [body]. *)
Definition placed_on {X} (runtime : ServerRuntimeInner) (k : Z) (own : Z -> X -> list serve_event)
    (closure : Z -> X -> job) (add : served_view -> Z -> served_view) (p : placed X)
    (v v' : served_view) (l : list serve_event) : Prop :=
  get (worker_executors runtime) k = Some (p_executor p) /\ v' = add v (p_task p) /\
  l = own k (p_own p) ++ submitted_log (p_executor p) (p_task p) (closure k (p_own p)).

(** Tasks placed on the workers from [k] on. *)
Definition all_placed {X} (runtime : ServerRuntimeInner) (k : Z) (own : Z -> X -> list serve_event)
    (closure : Z -> X -> job) (add : served_view -> Z -> served_view) (ws : list (placed X))
    (v v' : served_view) (l : list serve_event) : Prop :=
  v' = foldl add v (p_task <$> ws) /\ l = workers_log own closure k ws /\
  forall i p, ws !! i = Some p -> get (worker_executors runtime) (k + Z.of_nat i) = Some (p_executor p).

Lemma all_placed_nil {X} runtime k own (closure : Z -> X -> job) add v :
  all_placed runtime k own closure add [] v v [].
Proof. by split_and!. Qed.

Lemma all_placed_cons {X} runtime k own (closure : Z -> X -> job) add p ws v v1 v2 l1 l2 :
  placed_on runtime k own closure add p v v1 l1 ->
  all_placed runtime (k + 1) own closure add ws v1 v2 l2 ->
  all_placed runtime k own closure add (p :: ws) v v2 (l1 ++ l2).
Proof.
  intros (He & -> & ->) (-> & -> & Hws). split_and!; [done| |].
  - simpl. by rewrite <- !(assoc_L (++)).
  - intros [|i] q Hq; simpl in Hq.
    + injection Hq as <-. by replace (k + Z.of_nat 0) with k by lia.
    + apply Hws in Hq. by replace (k + Z.of_nat (S i)) with (k + 1 + Z.of_nat i) by lia.
Qed.

Lemma suc_each_socket {X} runtime (fd_of : X -> fd) own closure add sockets k body :
  (forall k s, suc (body k s) (fun _ v v' l =>
     exists p : placed X, fd_of (p_own p) = s /\ placed_on runtime k own closure add p v v' l)) ->
  suc (each_socket (CB := CB) sockets k body) (fun _ v v' l =>
    exists ws : list (placed X), (fun p => fd_of (p_own p)) <$> ws = sockets /\
      all_placed runtime k own closure add ws v v' l).
Proof.
  intros Hb. revert k. induction sockets as [|s rest IH]; intros k; simpl.
  - eapply suc_mono; [apply suc_finish|]. intros _ v v' l (_ & -> & ->). exists [].
    split; [done|]. apply all_placed_nil.
  - eapply suc_then; [apply suc_owned, Hb|]. intros u. eapply suc_mono; [apply IH|].
    intros _ v1 v2 l2 (ws & Hws & Hl2) v l1 (p & Hp & Hl1). exists (p :: ws).
    split; [by rewrite fmap_cons, Hp, Hws|]. by eapply all_placed_cons.
Qed.

(** A worker with its channel: [closure] made the rest of its [own] block. *)
Lemma suc_each_worker {X} runtime (sender_of : X -> Z) own closure mk register add n k capacity senders :
  (forall k c, suc (closure k c.2) (fun j v v' l => v' = v /\
     exists x : X, sender_of x = c.1 /\ own k x = ChannelMade capacity c.1 c.2 :: l /\ j = mk k x)) ->
  (forall task, suc (register task) (fun _ v v' l => v' = add v task /\ l = [])) ->
  suc (each_worker (CB := CB) n k runtime capacity closure register senders) (fun r v v' l =>
    exists ws : list (placed X), length ws = n /\
      r = senders ++ ((fun p => sender_of (p_own p)) <$> ws) /\
      all_placed runtime k own mk add ws v v' l).
Proof.
  intros Hc Hr. revert k senders. induction n as [|n IH]; intros k senders; simpl.
  { eapply suc_mono; [apply suc_finish|]. intros r v v' l (-> & -> & ->). exists [].
    rewrite app_nil_r. split_and!; [done|done|apply all_placed_nil]. }
  apply (suc_then _ _ (fun c v v' l => v' = v /\ l = [ChannelMade capacity c.1 c.2])).
  { by apply suc_effect, wp_call. }
  intros c. eapply suc_then; [apply Hc|]. intros j.
  eapply suc_then; [apply suc_owned, suc_executor|]. intros executor.
  eapply suc_then; [apply suc_submit|]. intros task.
  eapply suc_then; [apply Hr|]. intros u. eapply suc_mono; [apply IH|].
  intros r v1 v2 l2 (ws & Hn & -> & Hl2) v l1 [-> ->] v3 l3 [-> ->] v4 l4 (He & -> & ->) v5 l5
    [-> (x & Hx & Ho & ->)] v6 l6 [-> ->].
  exists (mkPlaced executor task x :: ws). simpl. rewrite Hn, Hx, <- (assoc_L (++)).
  split_and!; [done|done|]. simpl.
  match goal with |- all_placed _ _ _ _ _ _ _ _ ?l =>
    replace l with ((own k x ++ submitted_log executor task (mk k x)) ++ l2)
      by (rewrite Ho; simpl; by rewrite <- ?(assoc_L (++))) end.
  eapply all_placed_cons; [|exact Hl2].
  by split_and!.
Qed.
End Steps.

(** ** Deployments

    What a started server consists of: its log, and the part of its state that
    [serve] wrote.  [n] workers, whose executors are [executors]. *)

Definition tasks_view (ts : list Z) : served_view :=
  mkView true (mkMutex false ts) (mkMutex false []) (mkMutex false []).
Definition callbacks_view (main callbacks : list Z) (kept : list fd) : served_view :=
  mkView true (mkMutex false main) (mkMutex false callbacks) (mkMutex false kept).

(** One listener per worker, each with its socket of [sockets] and a limit of its own. *)
Definition native_handlers (executors : list Z) (max : option Z) (closure : fd -> Z -> job)
    (sockets : list fd) (v : served_view) (l : list serve_event) : Prop :=
  exists ws : list (placed (fd * Z)),
    p_executor <$> ws = executors /\ (fun p => (p_own p).1) <$> ws = sockets /\
    v = tasks_view (p_task <$> ws) /\
    l = workers_log (fun _ x => [LimitMade (Limit.new max) x.2]) (fun _ x => closure x.1 x.2) 0 ws.

(** One callback per worker, each with its socket. *)
Definition native_callbacks (executors : list Z) (callback : Z)
    (sockets : list fd) (v : served_view) (l : list serve_event) : Prop :=
  exists ws : list (placed fd),
    p_executor <$> ws = executors /\ p_own <$> ws = sockets /\
    v = callbacks_view [] (p_task <$> ws) [] /\
    l = workers_log (fun _ _ => []) (fun k s => SocketCallbackJob s k callback) 0 ws.

(** A limit for every worker, a dispatch task on every worker with the receiving end
    of its channel, and on worker 0 the routing task with all sending ends and all
    limits, in the order of the workers. *)
Definition dispatched (executors : list Z) (max : option Z) (capacity : Z) (dispatch : Z -> job)
    (main : list Z -> list Z -> job) (v : served_view) (l : list serve_event) : Prop :=
  exists limits (ws : list (placed (Z * Z))) executor0 task,
    p_executor <$> ws = executors /\ length limits = length executors /\
    get executors 0 = Some executor0 /\
    v = tasks_view ((p_task <$> ws) ++ [task]) /\
    l = (LimitMade (Limit.new max) <$> limits) ++
        workers_log (fun _ x => [ChannelMade capacity x.1 x.2]) (fun _ x => dispatch x.2) 0 ws ++
        submitted_log executor0 task (main ((fun p => (p_own p).1) <$> ws) limits).

(** A routed socket for every worker's callback, around a clone of the one socket
    [s] and the receiving end of the worker's channel; the router on worker 0. *)
Definition routed (executors : list Z) (capacity callback : Z)
    (main : SocketAddr -> list Z -> job) (s : fd) (v : served_view) (l : list serve_event) : Prop :=
  exists s' addr (ws : list (placed (Z * Z * fd))) executor0 task,
    p_executor <$> ws = executors /\ get executors 0 = Some executor0 /\
    v = callbacks_view [task] (p_task <$> ws) [s'] /\
    l = [Srv (Cloned s s'); Sys (Did (GetLocalAddr s) true)] ++
        workers_log (fun _ x => [ChannelMade capacity x.1.1 x.1.2; Srv (Cloned s x.2)])
          (fun k x => RoutedCallbackJob (mkRouted x.2 x.1.2 addr) k callback) 0 ws ++
        submitted_log executor0 task (main addr ((fun p => (p_own p).1.1) <$> ws)).

(** A log that starts with system calls described by [P]. *)
Definition after {A} (P : A -> list sys_event -> Prop) (Q : A -> list serve_event -> Prop)
    (l : list serve_event) : Prop :=
  exists a b l', l = (Sys <$> b) ++ l' /\ P a b /\ Q a l'.

Section Deployed.
Context {CB : Type} (t : target) (rt : runtime_feature) (runtime : ServerRuntimeInner).

(** One socket for every worker, and no other descriptor left open. *)
Definition bound_workers (sockets : list fd) (b : list sys_event) : Prop :=
  balanced b sockets /\ len sockets = worker_count runtime.
Definition bound_one (s : fd) (b : list sys_event) : Prop := single (Ok s) b.
(** The kernel selects: a selector for this many workers was attached and every
    worker's probe came back ([install_run]). *)
Definition kernel_selects (sockets : list fd) (b : list sys_event) : Prop :=
  t = Linux /\ install_run (worker_count runtime) (Ok (Some sockets)) b.
(** It does not: not on this system, or the installation was given up. *)
Definition kernel_does_not (_ : unit) (b : list sys_event) : Prop :=
  match t with Linux => install_run (worker_count runtime) (Ok None) b | _ => b = [] end.

Definition deployed (e : entry) (config : Udp.UdpServiceConfig CB) (v : served_view)
    (l : list serve_event) : Prop :=
  let executors := worker_executors runtime in
  let n := worker_count runtime in
  let max := Udp.cfg_max_concurrency_per_worker config in
  let tr := transparent_receive t rt config in
  let capacity := Udp.routed_packet_channel_capacity config in
  match e with
  | UdpServe svc =>
      if reuse_port_balancing (capabilities t)
      then after bound_workers (fun sockets =>
             native_handlers executors max (fun s limit => UdpListenerJob s limit tr svc) sockets v) l
      else after bound_one (fun s =>
             dispatched executors max FALLBACK_UDP_WORK_QUEUE_CAPACITY (fun r => UdpDispatchJob r svc)
               (fun senders limits => SimulatedUdpJob s n senders limits tr) v) l
  | UdpServeSocket callback =>
      if reuse_port_balancing (capabilities t)
      then after bound_workers (fun sockets => native_callbacks executors callback sockets v) l
      else after bound_one (fun s =>
             routed executors capacity callback (fun addr senders =>
               SocketOnlyJob s addr n (fun _ meta n => ok (linux_reuseport_select meta n)) senders tr) s v) l
  | QuicServe svc =>
      after kernel_selects (fun sockets =>
        native_handlers executors max (fun s limit => QuicBpfJob s n limit svc) sockets v) l \/
      after kernel_does_not (fun _ => after bound_one (fun s =>
        dispatched executors max FALLBACK_UDP_WORK_QUEUE_CAPACITY (fun r => UdpDispatchJob r svc)
          (fun senders limits => QuicRoutedJob s n senders limits) v)) l
  | QuicServeSocket callback =>
      after kernel_selects (fun sockets => native_callbacks executors callback sockets v) l \/
      after kernel_does_not (fun _ => after bound_one (fun s =>
        routed executors capacity callback (fun addr senders =>
          SocketOnlyJob s addr n (fun packet _ n => quic_worker_index packet n) senders tr) s v)) l
  end.
End Deployed.

Lemma foldl_add_task ts v :
  foldl add_task v ts = mkView (v_active v) (set_data (v_tasks v) (data (v_tasks v) ++ ts)) (v_callbacks v) (v_kept v).
Proof.
  revert v. induction ts as [|x ts IH]; intros [a [p d] c k]; simpl.
  - unfold set_data. simpl. by rewrite app_nil_r.
  - rewrite IH. unfold add_task, set_data. simpl. by rewrite <- (assoc_L (++)).
Qed.
Lemma foldl_add_callback ts v :
  foldl add_callback v ts = mkView (v_active v) (v_tasks v) (set_data (v_callbacks v) (data (v_callbacks v) ++ ts)) (v_kept v).
Proof.
  revert v. induction ts as [|x ts IH]; intros [a t [p d] k]; simpl.
  - unfold set_data. simpl. by rewrite app_nil_r.
  - rewrite IH. unfold add_callback, set_data. simpl. by rewrite <- (assoc_L (++)).
Qed.

(** A full set of tasks uses every executor once, in order. *)
Lemma all_placed_executors {X} runtime own (closure : Z -> X -> job) add ws v v' l :
  all_placed runtime 0 own closure add ws v v' l ->
  length ws = length (worker_executors runtime) ->
  p_executor <$> ws = worker_executors runtime.
Proof.
  intros (_ & _ & Hws) Hn. apply list_eq_same_length with (n := length ws); [done|by rewrite length_fmap|].
  intros i x y Hi Hx Hy. rewrite list_lookup_fmap in Hx.
  destruct (ws !! i) as [p|] eqn:Hp; [|done]. simpl in Hx. injection Hx as <-.
  apply Hws in Hp. unfold get in Hp. rewrite Z.add_0_l, Nat2Z.id in Hp. congruence.
Qed.

(** ** The parts the servers share, for any state and registration of task handles *)

Section Shared.
Context {W CB St : Type} `{Os W CB} `{StateEnv W} `{RuntimeEnv W} `{ServeEnv W}.
Context `{Interference W St} `{Served St} `{!Bystanders W St}.
Context (runtime : ServerRuntimeInner) (register : Z -> serve_m W St unit).
#[local] Abbreviation suc := (succeeds (W := W) (St := St)).

(** System calls first, then a program whose result starts from an empty state. *)
Lemma suc_after {A} (m : prog W sys_event (crate_result A)) (k : A -> serve_m W St unit)
    (P : A -> list sys_event -> Prop) (Q : A -> served_view -> list serve_event -> Prop) :
  wp m (fun r l => forall x, r = Ok x -> P x l) ->
  (forall x b, P x b -> suc (k x) (fun _ v v' l => v = tasks_view [] -> Q x v' l)) ->
  suc (and_then (system m) k) (fun _ v v' l => v = tasks_view [] -> after P (fun x => Q x v') l).
Proof.
  intros Hm Hk st. apply wp_bind, wp_bind, wp_lift. eapply wp_mono; [exact Hm|]. intros [x|e] b Hb.
  2: { by apply wp_ret, wp_ret. }
  apply wp_ret. simpl. eapply wp_mono; [apply (Hk x b (Hb x eq_refl) st)|]. intros r l Hl u Hu Hv.
  exists x, b, l. rewrite app_nil_r. split_and!; [done|by apply Hb|by eapply Hl].
Qed.

Lemma suc_local_addr s :
  suc (std_local_addr (CB := CB) s) (fun addr v v' l => v' = v /\ l = [Sys (Did (GetLocalAddr s) true)]).
Proof.
  eapply suc_mono; [apply (suc_system _ (fun addr b => b = [Did (GetLocalAddr s) true]))|].
  - apply wp_map_err, wp_call. by intros [addr|e].
  - intros addr v v' l [-> (b & -> & ->)]. done.
Qed.

Lemma executors_length : len (worker_executors runtime) = worker_count runtime.
Proof. unfold worker_count, worker_executors, len. by rewrite length_fmap. Qed.

Lemma suc_nonempty sockets k Q : suc k Q -> suc (nonempty sockets k) Q.
Proof. destruct sockets; [intros _; apply suc_reject|done]. Qed.

Lemma suc_limits max n acc :
  wp (W := W) (worker_limits n max acc) (fun r l => exists limits, length limits = n /\
    r = acc ++ limits /\ l = LimitMade (Limit.new max) <$> limits).
Proof.
  revert acc. induction n as [|n IH]; intros acc; simpl.
  - apply wp_ret. exists []. by rewrite app_nil_r.
  - apply wp_bind, wp_call. intros x. eapply wp_mono; [apply IH|].
    intros r l (limits & Hn & -> & ->). exists (x :: limits). rewrite <- (assoc_L (++)). simpl. by rewrite Hn.
Qed.

Context (Hreg : forall task, suc (register task) (fun _ v v' l => v' = add_task v task /\ l = [])).

Lemma suc_native_task max (closure : fd -> Z -> job) k s :
  suc (limit ⇐ effect (new_limit max);
       task ⇐ submit_to_worker (CB := CB) runtime k (closure s limit);
       register task)
    (fun _ v v' l => exists p : placed (fd * Z), (p_own p).1 = s /\
       placed_on runtime k (fun _ x => [LimitMade (Limit.new max) x.2]) (fun _ x => closure x.1 x.2)
         add_task p v v' l).
Proof.
  apply (suc_then _ _ (fun limit v v' l => v' = v /\ l = [LimitMade (Limit.new max) limit])).
  { by apply suc_effect, wp_call. }
  intros limit. eapply suc_then; [apply suc_submit_worker|]. intros task.
  eapply suc_mono; [apply Hreg|].
  intros u v v1 l [-> ->] v2 l2 (-> & e & He & ->) v3 l3 [-> ->].
  by exists (mkPlaced e task (s, limit)).
Qed.

Lemma suc_native max closure sockets : len sockets = worker_count runtime ->
  suc (nonempty sockets (each_socket (CB := CB) sockets 0 (fun k s =>
         limit ⇐ effect (new_limit max);
         task ⇐ submit_to_worker (CB := CB) runtime k (closure s limit);
         register task)))
    (fun _ v v' l => v = tasks_view [] ->
       native_handlers (worker_executors runtime) max closure sockets v' l).
Proof.
  intros Hlen. apply suc_nonempty. eapply suc_mono.
  { apply (suc_each_socket runtime (fun x : fd * Z => x.1)). intros k s. apply suc_native_task. }
  intros _ v v' l (ws & Hws & Hp) ->. exists ws.
  assert (length ws = length (worker_executors runtime)) as Hn.
  { pose proof executors_length. apply (f_equal length) in Hws. rewrite length_fmap in Hws.
    unfold len in *. lia. }
  split_and!; [by eapply all_placed_executors|done| |].
  - destruct Hp as (-> & _). by rewrite foldl_add_task.
  - by destruct Hp as (_ & -> & _).
Qed.

(** A channel and a dispatch task for every worker. *)
Lemma suc_dispatch_tasks capacity (dispatch : Z -> job) :
  suc (each_worker (CB := CB) (length (worker_executors runtime)) 0 runtime capacity
         (fun _ receiver => finish (dispatch receiver)) register [])
    (fun r v v' l => exists ws : list (placed (Z * Z)),
       r = (fun p => (p_own p).1) <$> ws /\ p_executor <$> ws = worker_executors runtime /\
       v' = foldl add_task v (p_task <$> ws) /\
       l = workers_log (fun _ x => [ChannelMade capacity x.1 x.2]) (fun _ x => dispatch x.2) 0 ws).
Proof.
  eapply suc_mono.
  { apply (suc_each_worker (X := Z * Z) runtime fst
      (fun _ x => [ChannelMade capacity x.1 x.2]) _ (fun _ x => dispatch x.2)); [|exact Hreg].
    intros k c. eapply suc_mono; [apply suc_finish|]. intros j v v' l (-> & -> & ->).
    split; [done|]. by exists c. }
  intros r v v' l (ws & Hn & -> & Hp). exists ws.
  split_and!; [done|by eapply all_placed_executors|by destruct Hp as (-> & _)|by destruct Hp as (_ & -> & _)].
Qed.
End Shared.

Section Pieces.
Context {W CB : Type} `{Os W CB} `{SelectorOs W} `{StateEnv W} `{RuntimeEnv W} `{ServeEnv W}.
Context `{Interference W UdpServerState} `{!Bystanders W UdpServerState}.
Context (t : target) (rt : runtime_feature) (a : arch) (drain_fuel : nat) (runtime : ServerRuntimeInner).
Implicit Types config : Udp.UdpServiceConfig CB.
#[local] Abbreviation suc := (succeeds (W := W) (St := UdpServerState)).

Lemma suc_register task : suc (udp_register_task task) (fun _ v v' l => v' = add_task v task /\ l = []).
Proof.
  intros st. apply wp_lift, wp_bind. unfold push_task, lock. destruct (tasks st) as [p d] eqn:E. simpl.
  destruct p; simpl.
  - apply wp_bind, wp_call. intros []. by apply wp_ret, wp_ret.
  - apply wp_ret, wp_ret. intros u _. split; [|done]. unfold view, udp_served, add_task. simpl. by rewrite E.
Qed.
Lemma suc_register_callback task :
  suc (udp_register_callback_task task) (fun _ v v' l => v' = add_callback v task /\ l = []).
Proof.
  intros st. apply wp_lift, wp_bind. unfold push_task, lock. destruct (callback_tasks st) as [p d] eqn:E. simpl.
  destruct p; simpl.
  - apply wp_bind, wp_call. intros []. by apply wp_ret, wp_ret.
  - apply wp_ret, wp_ret. intros u _. split; [|done]. unfold view, udp_served, add_callback. simpl. by rewrite E.
Qed.
Lemma suc_register_close s :
  suc (registry (fun st => register_close_socket st s)) (fun _ v v' l => exists s',
    v' = mkView (v_active v) (v_tasks v) (v_callbacks v) (set_data (v_kept v) (data (v_kept v) ++ [s'])) /\
    l = [Srv (Cloned s s')]).
Proof.
  intros st. apply wp_lift. unfold register_close_socket, lock. destruct (close_sockets st) as [p d] eqn:E. simpl.
  destruct p; simpl; [by apply wp_ret|].
  apply wp_bind. eapply wp_mono; [apply try_clone_cases|]. intros [s'|e] l ->; apply wp_ret; [|done].
  intros u _. exists s'. split; [|done]. unfold view, udp_served. simpl. by rewrite E.
Qed.

Lemma suc_callback_task callback k s :
  suc (submit_callback (CB := CB) runtime callback k s)
    (fun _ v v' l => exists p : placed fd, p_own p = s /\
       placed_on runtime k (fun _ _ => []) (fun k s => SocketCallbackJob s k callback) add_callback p v v' l).
Proof.
  eapply suc_then; [apply suc_owned, suc_executor|]. intros e.
  eapply suc_then; [apply suc_submit|]. intros task. eapply suc_mono; [apply suc_register_callback|].
  intros u v v1 l [-> ->] v2 l2 [-> ->] v3 l3 (He & -> & ->). by exists (mkPlaced e task s).
Qed.

Lemma suc_callbacks callback sockets : len sockets = worker_count runtime ->
  suc (nonempty sockets (each_socket (CB := CB) sockets 0 (submit_callback (CB := CB) runtime callback)))
    (fun _ v v' l => v = tasks_view [] ->
       native_callbacks (worker_executors runtime) callback sockets v' l).
Proof.
  intros Hlen. apply suc_nonempty. eapply suc_mono.
  { apply (suc_each_socket runtime (fun x : fd => x)). intros k s. apply suc_callback_task. }
  intros _ v v' l (ws & Hws & Hp) ->. exists ws.
  assert (length ws = length (worker_executors runtime)) as Hn.
  { pose proof (executors_length runtime). apply (f_equal length) in Hws. rewrite length_fmap in Hws.
    unfold len in *. lia. }
  split_and!; [by eapply all_placed_executors|done| |].
  - destruct Hp as (-> & _). by rewrite foldl_add_callback.
  - by destruct Hp as (_ & -> & _).
Qed.

(** Limits and dispatch tasks. *)
Lemma suc_dispatchers config svc :
  suc (udp_dispatchers runtime config svc) (fun q v v' l => exists limits (ws : list (placed (Z * Z))),
    q = (limits, (fun p => (p_own p).1) <$> ws) /\
    length limits = length (worker_executors runtime) /\ p_executor <$> ws = worker_executors runtime /\
    v' = foldl add_task v (p_task <$> ws) /\
    l = (LimitMade (Limit.new (Udp.cfg_max_concurrency_per_worker config)) <$> limits) ++
        workers_log (fun _ x => [ChannelMade FALLBACK_UDP_WORK_QUEUE_CAPACITY x.1 x.2])
          (fun _ x => UdpDispatchJob x.2 svc) 0 ws).
Proof.
  eapply suc_then; [apply suc_effect, suc_limits|]. intros limits.
  eapply suc_then; [apply suc_dispatch_tasks, suc_register|]. intros senders.
  eapply suc_mono; [apply suc_finish|].
  intros q v v' l (-> & -> & ->) v2 l2 (ws & -> & Hex & -> & ->) v3 l3 (-> & limits' & Hl & -> & ->).
  exists limits', ws. by rewrite app_nil_r.
Qed.

(** The routing task after them. *)
Lemma suc_dispatched config svc s (main : list Z -> list Z -> job) :
  suc (queues ⇐ owned (CB := CB) [s] (udp_dispatchers runtime config svc);
       task ⇐ submit_to_worker (CB := CB) runtime 0 (main queues.2 queues.1);
       udp_register_task task)
    (fun _ v v' l => v = tasks_view [] ->
       dispatched (worker_executors runtime) (Udp.cfg_max_concurrency_per_worker config)
         FALLBACK_UDP_WORK_QUEUE_CAPACITY (fun r => UdpDispatchJob r svc) main v' l).
Proof.
  eapply suc_then; [apply suc_owned, suc_dispatchers|]. intros q.
  eapply suc_then; [apply suc_submit_worker|]. intros task. eapply suc_mono; [apply suc_register|].
  intros _ v v1 l [-> ->] v2 l2 (-> & e & He & ->) v3 l3 (limits & ws & -> & Hn & Hex & -> & ->) ->.
  exists limits, ws, e, task. split_and!; [done|done|done| |].
  - by rewrite foldl_add_task.
  - by rewrite app_nil_r, <- (assoc_L (++)).
Qed.

(** A clone for [close], then a routed socket per worker. *)
Lemma suc_routed_workers config callback s :
  suc (routed_workers runtime config callback s) (fun q v v' l => exists s' addr (ws : list (placed (Z * Z * fd))),
    q = (addr, (fun p => (p_own p).1.1) <$> ws) /\ p_executor <$> ws = worker_executors runtime /\
    (v = tasks_view [] -> v' = callbacks_view [] (p_task <$> ws) [s']) /\
    l = [Srv (Cloned s s'); Sys (Did (GetLocalAddr s) true)] ++
        workers_log (fun _ x => [ChannelMade (Udp.routed_packet_channel_capacity config) x.1.1 x.1.2;
                                 Srv (Cloned s x.2)])
          (fun k x => RoutedCallbackJob (mkRouted x.2 x.1.2 addr) k callback) 0 ws).
Proof.
  eapply suc_then; [apply suc_register_close|]. intros u.
  eapply suc_then; [apply suc_local_addr|]. intros addr. case_bool_decide; [apply suc_reject|].
  eapply suc_then.
  { apply (suc_each_worker (X := Z * Z * fd) runtime (fun x => x.1.1)
      (fun _ x => [ChannelMade (Udp.routed_packet_channel_capacity config) x.1.1 x.1.2; Srv (Cloned s x.2)]) _
      (fun k x => RoutedCallbackJob (mkRouted x.2 x.1.2 addr) k callback)).
    - intros k c. apply (suc_then _ _ (fun s' v v' l => v' = v /\ l = [Srv (Cloned s s')])).
      { intros st. apply wp_lift, wp_bind. eapply wp_mono; [apply try_clone_cases|].
        intros [s'|e] l ->; apply wp_ret; [|done]. by intros x [= <-]. }
      intros s'. eapply suc_mono; [apply suc_finish|]. intros j v v' l (-> & -> & ->) v2 l2 [-> ->].
      split; [done|]. by exists (c, s').
    - apply suc_register_callback. }
  intros senders. eapply suc_mono; [apply suc_finish|].
  intros q v v' l (-> & -> & ->) v2 l2 (ws & Hn & -> & Hp) v3 l3 [-> ->] v4 l4 (s' & -> & ->).
  exists s', addr, ws. split_and!; [done| | |].
  - eapply all_placed_executors; [done|]. pose proof (executors_length runtime). unfold len in *. lia.
  - intros ->. destruct Hp as (-> & _). by rewrite foldl_add_callback.
  - destruct Hp as (_ & -> & _). by rewrite app_nil_r.
Qed.

Lemma suc_routed config callback s (main : SocketAddr -> list Z -> job) :
  suc (queues ⇐ owned (CB := CB) [s] (routed_workers runtime config callback s);
       task ⇐ submit_to_worker (CB := CB) runtime 0 (main queues.1 queues.2);
       udp_register_task task)
    (fun _ v v' l => v = tasks_view [] ->
       routed (worker_executors runtime) (Udp.routed_packet_channel_capacity config) callback main s v' l).
Proof.
  eapply suc_then; [apply suc_owned, suc_routed_workers|]. intros q.
  eapply suc_then; [apply suc_submit_worker|]. intros task. eapply suc_mono; [apply suc_register|].
  intros _ v v1 l [-> ->] v2 l2 (-> & e & He & ->) v3 l3 (s' & addr & ws & -> & Hex & Hv & ->) Hv3.
  exists s', addr, ws, e, task. split_and!; [done|done| |].
  - by rewrite (Hv Hv3).
  - by rewrite app_nil_r, <- !(assoc_L (++)).
Qed.
End Pieces.

Section Compose.
Context {W CB : Type} `{Os W CB} `{SelectorOs W} `{StateEnv W} `{RuntimeEnv W} `{ServeEnv W}.
Context `{Interference W UdpServerState} `{!Bystanders W UdpServerState}.
Context (t : target) (rt : runtime_feature) (a : arch) (drain_fuel : nat) (runtime : ServerRuntimeInner).
Implicit Types config : Udp.UdpServiceConfig CB.
#[local] Abbreviation suc := (succeeds (W := W) (St := UdpServerState)).

Lemma bind_udp_one config : wp (bind_udp (W := W) t config) (fun r l => forall s, r = Ok s -> bound_one s l).
Proof. eapply wp_mono; [apply bind_udp_single|]. intros r l Hl s ->. exact Hl. Qed.

Lemma bind_udp_all config : reuse_port_balancing (capabilities t) = true ->
  wp (bind_udp_workers (W := W) t config (worker_count runtime))
    (fun r l => forall v, r = Ok v -> bound_workers runtime v l).
Proof.
  intros Ht. eapply wp_mono; [apply (workers_no_leak t (bind_udp t config)), bind_udp_single|].
  intros r l [Hb Hn] v ->. split; [exact Hb|]. specialize (Hn v eq_refl). rewrite Ht in Hn.
  unfold worker_count, len in *. lia.
Qed.

Lemma kernel_selects_len sockets b : kernel_selects t runtime sockets b -> len sockets = worker_count runtime.
Proof.
  intros [_ Hrun]. remember (Ok (Some sockets)) as r eqn:Er. destruct Hrun; try discriminate. by injection Er as ->.
Qed.

(** The native part of a QUIC server, with either kind of task. *)
Lemma suc_bpf config (body : Z -> fd -> serve_m W UdpServerState unit) Q :
  (forall sockets, len sockets = worker_count runtime ->
     suc (nonempty sockets (each_socket (CB := CB) sockets 0 body))
       (fun _ v v' l => v = tasks_view [] -> Q sockets v' l)) ->
  suc (sockets ⇐ system (bind_quic_workers t a drain_fuel config (worker_count runtime));
       match sockets with
       | None => finish false
       | Some sockets => _ ⇐ nonempty sockets (each_socket (CB := CB) sockets 0 body); finish true
       end)
    (fun b v v' l => if (b : bool)
       then v = tasks_view [] -> after (kernel_selects t runtime) (fun sockets => Q sockets v') l
       else v' = v /\ exists b, l = Sys <$> b /\ kernel_does_not t runtime () b).
Proof.
  intros Hbody. eapply suc_then.
  { apply (suc_system _ (fun r b => match r with
      | Some sockets => kernel_selects t runtime sockets b
      | None => kernel_does_not t runtime () b end)).
    unfold bind_quic_workers, kernel_selects, kernel_does_not.
    destruct t; [|by apply wp_ret; intros x [= <-]..].
    eapply wp_mono; [apply (install_cases a drain_fuel config); unfold worker_count; apply len_nonneg|].
    intros r l Hl [sockets|] ->; [by split|exact Hl]. }
  intros [sockets|].
  - destruct (decide (len sockets = worker_count runtime)) as [Hlen|Hlen].
    + eapply suc_then; [by apply Hbody|]. intros u. eapply suc_mono; [apply suc_finish|].
      intros r v v' l (-> & -> & ->) v2 l2 Hq v3 l3 [-> (b & -> & Hb)] Hv.
      exists sockets, b, l2. rewrite app_nil_r. split_and!; [done|done|by apply Hq].
    + eapply suc_mono; [apply suc_true|]. intros r v v' l _ v2 l2 [_ (b2 & _ & Hb%kernel_selects_len)].
      contradiction.
  - eapply suc_mono; [apply suc_finish|]. intros r v v' l (-> & -> & ->) v2 l2 [-> (b & -> & Hb)].
    split; [done|]. exists b. by rewrite app_nil_r.
Qed.

(** QUIC falls back to the shared socket when the kernel does not select. *)
Lemma suc_fallback (native : serve_m W UdpServerState bool) (shared : serve_m W UdpServerState unit) QN QS :
  suc native (fun b v v' l => if (b : bool) then v = tasks_view [] -> QN v' l
     else v' = v /\ exists b, l = Sys <$> b /\ kernel_does_not t runtime () b) ->
  suc shared (fun _ v v' l => v = tasks_view [] -> QS v' l) ->
  suc (started ⇐ native; if (started : bool) then finish () else shared)
    (fun _ v v' l => v = tasks_view [] ->
       QN v' l \/ after (kernel_does_not t runtime) (fun _ => QS v') l).
Proof.
  intros Hn Hs. eapply suc_then; [exact Hn|]. intros [|].
  - eapply suc_mono; [apply suc_finish|]. intros u v v' l (_ & -> & ->) v2 l2 Hq Hv.
    left. rewrite app_nil_r. by apply Hq.
  - eapply suc_mono; [exact Hs|]. intros u v v' l Hq v2 l2 [-> (b & -> & Hb)] Hv.
    right. exists (), b, l. split_and!; [done|done|by apply Hq].
Qed.

Lemma no_balancing_no_kernel : reuse_port_balancing (capabilities t) = false -> kernel_does_not t runtime () [].
Proof. by destruct t. Qed.

Lemma suc_no_kernel : reuse_port_balancing (capabilities t) = false ->
  forall QN : served_view -> list serve_event -> Prop, suc (finish false) (fun b v v' l =>
    if (b : bool) then v = tasks_view [] -> QN v' l
    else v' = v /\ exists b, l = Sys <$> b /\ kernel_does_not t runtime () b).
Proof.
  intros Ht QN. eapply suc_mono; [apply suc_finish|]. intros b v v' l (-> & -> & ->).
  split; [done|]. exists []. split; [done|]. by apply no_balancing_no_kernel.
Qed.

Lemma suc_quic_shared config svc :
  suc (add_quic_simulated_listener_with_state t rt runtime config svc)
    (fun _ v v' l => v = tasks_view [] -> after bound_one (fun s =>
       dispatched (worker_executors runtime) (Udp.cfg_max_concurrency_per_worker config)
         FALLBACK_UDP_WORK_QUEUE_CAPACITY (fun r => UdpDispatchJob r svc)
         (fun senders limits => QuicRoutedJob s (worker_count runtime) senders limits) v') l).
Proof.
  unfold add_quic_simulated_listener_with_state. case_match; [apply suc_reject|].
  apply suc_after; [apply bind_udp_one|]. intros s b _. rewrite (executors_length runtime).
  apply (suc_dispatched runtime config svc s (fun senders limits => QuicRoutedJob s _ senders limits)).
Qed.

Lemma suc_routed_shared config callback route :
  suc (add_socket_callback_simulated_listener t rt runtime config callback route)
    (fun _ v v' l => v = tasks_view [] -> after bound_one (fun s =>
       routed (worker_executors runtime) (Udp.routed_packet_channel_capacity config) callback
         (fun addr senders => SocketOnlyJob s addr (worker_count runtime) route senders
            (transparent_receive t rt config)) s v') l).
Proof.
  unfold add_socket_callback_simulated_listener. case_match; [apply suc_reject|].
  apply suc_after; [apply bind_udp_one|]. intros s b _.
  apply (suc_routed runtime config callback s (fun addr senders => SocketOnlyJob s addr _ route senders _)).
Qed.

Lemma suc_enter_body e config :
  suc (enter_body t rt a drain_fuel runtime e config)
    (fun _ v v' l => v = tasks_view [] -> deployed t rt runtime e config v' l).
Proof.
  destruct e as [svc|callback|svc|callback]; cbn [enter_body deployed].
  - destruct (reuse_port_balancing (capabilities t)) eqn:Ht; cbn [negb].
    + apply suc_after; [by apply bind_udp_all|]. intros v b [_ Hn].
      apply (suc_native runtime udp_register_task suc_register _ (fun s limit => UdpListenerJob s limit _ svc) v Hn).
    + unfold udp_add_simulated_listener_with_state. case_match; [apply suc_reject|].
      apply suc_after; [apply bind_udp_one|]. intros s b _. rewrite (executors_length runtime).
      apply (suc_dispatched runtime config svc s (fun senders limits => SimulatedUdpJob s _ senders limits _)).
  - destruct (reuse_port_balancing (capabilities t)) eqn:Ht; cbn [negb]; [|apply suc_routed_shared].
    apply suc_after; [by apply bind_udp_all|]. intros v b [_ Hn]. apply (suc_callbacks runtime callback v Hn).
  - unfold add_quic_routed_listener_with_state.
    destruct (reuse_port_balancing (capabilities t)) eqn:Ht.
    + apply suc_fallback; [|apply suc_quic_shared]. apply suc_bpf. intros v Hn.
      apply (suc_native runtime udp_register_task suc_register _ (fun s limit => QuicBpfJob s _ limit svc) v Hn).
    + eapply suc_mono; [apply suc_quic_shared|]. intros u v v' l Hq Hv. right.
      exists (), [], l. split_and!; [done|by apply no_balancing_no_kernel|by apply Hq].
  - unfold add_quic_socket_callback_listener. apply suc_fallback; [|apply suc_routed_shared].
    destruct (reuse_port_balancing (capabilities t)) eqn:Ht; [|by apply suc_no_kernel].
    apply suc_bpf. intros v Hn. apply (suc_callbacks runtime callback v Hn).
Qed.
End Compose.
