(* ===== verification/ServeClaims.v ===== *)
(** * Starting servers: the theorems

    Which tasks with which sockets, limits and queues a started UDP, QUIC or TCP
    server consists of, where every descriptor is after [serve] returned, and what
    a failed [serve] leaves behind; at the end a concrete world they are applied
    to.  The tasks that may run while [serve] is submitting are those of [Jobs.v]. *)

From S2P Require Import Prelude Errors Net Effects Schedule Quic Concurrency Config Platform Bpf Selector Recv.
From S2P Require Import Listener ServerState ServerRuntime Jobs Serve ServeSpec ServeLog.
Import TcpState.

(** ** The tasks in the meantime

    Any schedule of submitted closures, each up to its loop on some thread. *)

Fixpoint run_tasks {W} `{StateEnv W} `{JobEnv W} (js : list (Z * job)) (st : UdpServerState) :
    prog W job_event (UdpServerState * list started) :=
  match js with
  | [] => mret (st, [])
  | (thread, j) :: js =>
      r ← run_job thread st j;
      rs ← run_tasks js r.1;
      mret (rs.1, r.2 :: rs.2)
  end.

Definition task_interference {W} `{StateEnv W} `{JobEnv W} (schedule : W -> list (Z * job)) :
    Interference W UdpServerState :=
  fun st w => ((value (run_tasks (schedule w) st) w).1, (run_tasks (schedule w) st w).1.2).

Lemma run_tasks_served {W} `{StateEnv W} `{JobEnv W} js st :
  wp (W := W) (run_tasks js st) (fun r _ => view r.1 = view st).
Proof.
  revert st. induction js as [|[thread j] js IH]; intros st; simpl; [by apply wp_ret|].
  apply wp_bind. eapply wp_mono; [apply run_job_begins|]. intros r l Hb.
  apply wp_bind. eapply wp_mono; [apply IH|]. intros rs l' Hrs. apply wp_ret. simpl. rewrite Hrs.
  assert (served r.1 = served st) as E by (destruct Hb as [(_ & _ & _ & [? _])|(? & ? & _ & _ & [? _])]; done).
  unfold served in E. unfold view, udp_served. by injection E as -> -> -> ->.
Qed.

Lemma task_bystanders {W} `{StateEnv W} `{JobEnv W} (schedule : W -> list (Z * job)) :
  @Bystanders W UdpServerState (task_interference schedule) udp_served.
Proof. intros st w. apply (run_tasks_served (schedule w) st w). Qed.

(** *** The sockets of the workers' threads *)

(** The socket a task registers for its thread. *)
Definition registers (j : job) : option fd :=
  match j with
  | UdpListenerJob s _ _ _ | SocketCallbackJob s _ _ | SimulatedUdpJob s _ _ _ _
  | QuicRoutedJob s _ _ _ | QuicBpfJob s _ _ _ => Some s
  | _ => None
  end.

(** A clone of it is now the socket of the thread. *)
Definition registered (thread : Z) (j : job) (st st' : UdpServerState) (l : list job_event) : Prop :=
  poisoned (thread_sockets st') = poisoned (thread_sockets st) /\
  match registers j with
  | Some s => exists s', Reg (Cloned s s') ∈ l /\
      data (thread_sockets st') = <[thread := s']> (data (thread_sockets st))
  | None => data (thread_sockets st') = data (thread_sockets st)
  end.

Section Threads.
Context {W : Type} `{StateEnv W} `{JobEnv W}.

Lemma register_listener_thread st thread s :
  wp (register_listener_socket (W := W) st thread s) (fun r l => r.2 = Ok () ->
    poisoned (thread_sockets r.1) = poisoned (thread_sockets st) /\
    exists s', Cloned s s' ∈ l /\ data (thread_sockets r.1) = <[thread := s']> (data (thread_sockets st))).
Proof.
  unfold register_listener_socket. apply wp_bind. eapply wp_mono; [apply try_clone_cases|].
  intros [ts|e] l ->; [|by apply wp_ret].
  apply wp_bind. eapply wp_mono; [apply try_clone_cases|]. intros [ps|e] l' ->.
  2: { apply wp_bind, wp_call. intros []. by apply wp_ret. }
  unfold lock. destruct (poisoned (thread_sockets st)) eqn:Ep.
  { apply wp_bind, wp_call. intros []. apply wp_bind, wp_call. intros []. by apply wp_ret. }
  apply wp_bind. apply wp_mono with (Q := fun _ _ => True).
  { destruct (data (thread_sockets st) !! thread); [by apply wp_call|by apply wp_ret]. }
  intros [] l'' _. cbn [sockets]. destruct (poisoned (sockets st)).
  - apply wp_bind, wp_call. intros []. by apply wp_ret.
  - apply wp_ret. intros _. split; [exact Ep|]. exists ts. split; [set_solver|done].
Qed.

Lemma run_job_registered thread st j :
  wp (run_job (W := W) thread st j) (fun r l => r.2 <> Returned -> registered thread j st r.1 l).
Proof.
  assert (forall s k, wp (with_socket (W := W) thread st s k) (fun r l => r.2 <> Returned ->
    poisoned (thread_sockets r.1) = poisoned (thread_sockets st) /\
    exists s', Reg (Cloned s s') ∈ l /\
      data (thread_sockets r.1) = <[thread := s']> (data (thread_sockets st)))) as Hs.
  { intros s k. apply wp_bind, wp_bind, wp_lift. eapply wp_mono; [apply register_listener_thread|].
    intros [st' [[]|e]] l Hl; simpl in *.
    - destruct Hl as (Hp & s' & Hin & Hd); [done|].
      apply wp_bind, wp_lift. intros w1. apply wp_ret. simpl. destruct (ok _).
      + apply wp_bind. intros w2. apply wp_ret. simpl. intros _. split; [done|]. exists s'.
        split; [|done]. rewrite <- !(assoc_L (++)). apply elem_of_app. left.
        apply list_elem_of_fmap. by exists (Cloned s s').
      + by apply wp_ret.
    - apply wp_bind, wp_lift, wp_call. intros []. by apply wp_ret, wp_ret. }
  assert (forall s k, wp (with_listener (W := W) st s k) (fun r _ =>
    thread_sockets r.1 = thread_sockets st)) as Hl.
  { intros s k. apply wp_bind. intros w1. destruct (value (convert_tcp s) w1); [|by apply wp_ret].
    apply wp_bind. intros w2. by apply wp_ret. }
  unfold registered. destruct j; cbn [run_job registers]; try apply Hs;
    try (eapply wp_mono; [apply Hl|]; intros r l ->; done).
  - by apply wp_ret.
  - apply wp_bind. intros w1. by apply wp_ret.
  - apply wp_bind. intros w1. by apply wp_ret.
  - apply wp_bind. intros w1. by apply wp_ret.
Qed.

(** The invariant of running the tasks one after the other. *)
Lemma run_tasks_registered js st :
  wp (run_tasks (W := W) js st) (fun r l => NoDup js.*1 -> Returned ∉ r.2 ->
    poisoned (thread_sockets r.1) = poisoned (thread_sockets st) /\
    (forall thread, thread ∉ js.*1 ->
       data (thread_sockets r.1) !! thread = data (thread_sockets st) !! thread) /\
    (forall thread j s, (thread, j) ∈ js -> registers j = Some s ->
       exists s', Reg (Cloned s s') ∈ l /\ data (thread_sockets r.1) !! thread = Some s')).
Proof.
  revert st. induction js as [|[thread j] js IH]; intros st; simpl.
  { apply wp_ret. intros _ _. split_and!; [done|done|]. intros ? ? ? Hin. by apply elem_of_nil in Hin. }
  apply wp_bind. eapply wp_mono; [apply run_job_registered|]. intros r l Hr.
  apply wp_bind. eapply wp_mono; [apply IH|]. intros rs l' Hrs. apply wp_ret. simpl.
  intros [Hout Hnd]%NoDup_cons [Hne Hnin]%not_elem_of_cons. destruct (Hrs Hnd Hnin) as (Hp & Hk & Hin).
  destruct (Hr (not_eq_sym Hne)) as [Hp1 Hd]. rewrite app_nil_r.
  split_and!; [congruence| |].
  - intros x [Hx Hxs]%not_elem_of_cons. rewrite (Hk x Hxs). destruct (registers j).
    + destruct Hd as (s' & _ & ->). by rewrite lookup_insert_ne.
    + by rewrite Hd.
  - intros x k s [[= -> ->]|Hx]%elem_of_cons Hs.
    + rewrite Hs in Hd. destruct Hd as (s' & He & Hd). exists s'. split; [set_solver|].
      rewrite (Hk thread Hout), Hd. apply lookup_insert_eq.
    + destruct (Hin x k s Hx Hs) as (s' & He & Hl). exists s'. split; [set_solver|done].
Qed.

Lemma listener_socket_clones st thread s :
  poisoned (thread_sockets st) = false -> data (thread_sockets st) !! thread = Some s ->
  wp (listener_socket (W := W) st thread) (fun _ l =>
    forall e, head l = Some e -> exists s', e = Cloned s s').
Proof.
  intros Hp Hd. unfold listener_socket, lock. rewrite Hp. destruct (negb _); [by apply wp_ret|].
  rewrite Hd. apply wp_bind. eapply wp_mono; [apply try_clone_cases|]. intros [s'|e] l ->.
  - apply wp_bind. intros w. apply wp_ret. simpl. intros e [= <-]. eauto.
  - by apply wp_ret.
Qed.

(** C31: After the tasks of a server have begun, in any order, each worker's thread
    finds its own socket: if no task returned early and the threads are distinct,
    the thread registry holds for every thread a clone of the socket that its task
    listens on, and a call of [listener_socket] on that thread clones that one --
    not the socket of another worker. *)
Theorem worker_threads_find_their_sockets js st (w : W) :
  let r := value (run_tasks js st) w in
  NoDup js.*1 -> poisoned (thread_sockets st) = false -> Returned ∉ r.2 ->
  forall thread j s, (thread, j) ∈ js -> registers j = Some s ->
    exists s', Reg (Cloned s s') ∈ log (run_tasks js st) w /\
      data (thread_sockets r.1) !! thread = Some s' /\
      forall w' e, head (log (listener_socket r.1 thread) w') = Some e -> exists s'', e = Cloned s' s''.
Proof.
  intros r Hnd Hp Hret thread j s Hin Hs.
  destruct (run_tasks_registered js st w Hnd Hret) as (Hp' & _ & Hall).
  destruct (Hall thread j s Hin Hs) as (s' & He & Hl). exists s'. split_and!; [done|done|].
  intros w' e. apply (listener_socket_clones r.1 thread s'); [|done]. unfold r. by rewrite Hp'.
Qed.
End Threads.

(** ** Claims *)

Section Udp.
Context {W CB : Type} `{Os W CB} `{SelectorOs W} `{StateEnv W} `{RuntimeEnv W} `{ServeEnv W}.
Context `{Interference W UdpServerState} `{!Bystanders W UdpServerState}.
Context (t : target) (rt : runtime_feature) (a : arch) (drain_fuel : nat) (runtime : ServerRuntimeInner).

(** C15: What a started UDP or QUIC server consists of, call by call.  Where the
    platform balances, worker [i] got socket [i] in its own task on executor [i],
    with a concurrency limit of its own made from the configuration; no other
    descriptor stays open.  Otherwise one socket is shared: every worker has a
    dispatch task (or the user's callback with a routed socket) at the receiving
    end of its own channel, and worker 0 has the routing task with the sending
    ends in the order of the workers.  A QUIC server uses the workers' sockets
    exactly if the kernel selector for that number of workers was attached and all
    probes came back, else the shared socket.  Every task is registered, handler
    and routing tasks where [close] cancels them, callbacks where it does not. *)
Theorem serve_deploys (e : entry) (config : Udp.UdpServiceConfig CB) (w : W) :
  (value (enter t rt a drain_fuel runtime e config) w).2 = Ok () ->
  deployed t rt runtime e config (view (value (enter t rt a drain_fuel runtime e config) w).1)
    (log (enter t rt a drain_fuel runtime e config) w).
Proof.
  destruct (enter_cases t rt a drain_fuel runtime e config w) as [(_ & -> & ->)|(_ & -> & ->)]; [done|].
  intros Hok. by apply (suc_enter_body t rt a drain_fuel runtime e config ServerState.new w ()).
Qed.

(** C16: No descriptor is lost by [serve], on any path.  Those opened or cloned are
    those closed again, those captured by a submitted task, and the clone kept in
    the server for [close]; on an error the sockets of the workers not reached and
    a closure the executor refused have been dropped. *)
Theorem serve_accounts_for_descriptors (e : entry) (config : Udp.UdpServiceConfig CB) (w : W) :
  let r := value (enter t rt a drain_fuel runtime e config) w in
  let l := log (enter t rt a drain_fuel runtime e config) w in
  across made1 l ≡ₚ across gone1 l ++ across given1 l ++ data (close_sockets r.1).
Proof.
  destruct (enter_cases t rt a drain_fuel runtime e config w) as [(_ & -> & ->)|(_ & -> & ->)]; [done|].
  destruct (bal_enter_body t rt a drain_fuel runtime e config ServerState.new w) as [Hm _].
  unfold moves, kept in Hm. simpl in Hm. rewrite app_nil_r in Hm.
  destruct (value _ w) as [st [u|err]]; simpl in *; by rewrite app_nil_r in Hm.
Qed.

(** C36: [serve] validates first and never takes anything back.  A zero channel
    capacity is refused before any call is made.  Whatever happens later, the
    server's flag is still set and no task has been cancelled when [serve]
    returns, so a [serve] that fails after its first submission leaves the tasks
    it submitted running, with no server object to close them. *)
Theorem serve_takes_nothing_back (e : entry) (config : Udp.UdpServiceConfig CB) (w : W) :
  let r := value (enter t rt a drain_fuel runtime e config) w in
  let l := log (enter t rt a drain_fuel runtime e config) w in
  (Udp.routed_packet_channel_capacity config = 0 ->
     l = [] /\ r.2 = Err (InvalidConfig "routed packet channel capacity must be greater than zero")) /\
  ServerState.active r.1 = true /\ Forall uncancelled l.
Proof.
  destruct (enter_cases t rt a drain_fuel runtime e config w) as [(_ & -> & ->)|(Hc & -> & ->)].
  { by repeat split. }
  split; [done|].
  destruct (bal_enter_body t rt a drain_fuel runtime e config ServerState.new w) as [_ [Ha Hl]].
  by split.
Qed.
End Udp.

Section Tcp.
Context {W CB : Type} `{Os W CB} `{StateEnv W} `{RuntimeEnv W} `{ServeEnv W}.
Context (t : target) (rt : runtime_feature) (runtime : ServerRuntimeInner).
Implicit Types config : Tcp.TcpServiceConfig CB.
#[local] Abbreviation suc := (succeeds (W := W) (St := TcpServerState)).

(** What a started TCP server consists of; the shared listener's address is read
    before anything is submitted. *)
Definition tcp_deployed (svc : service) config (v : served_view) (l : list serve_event) : Prop :=
  let executors := worker_executors runtime in
  let max := Tcp.cfg_max_concurrency_per_worker config in
  if reuse_port_balancing (capabilities t)
  then after (bound_workers runtime) (fun listeners =>
         native_handlers executors max (fun s limit => TcpListenerJob s limit svc) listeners v) l
  else after bound_one (fun s l => exists addr l',
         l = Sys (Did (GetLocalAddr s) true) :: l' /\
         dispatched executors max FALLBACK_TCP_WORK_QUEUE_CAPACITY (fun r => TcpDispatchJob r svc)
           (fun senders limits => SimulatedTcpJob s (worker_count runtime) addr senders limits) v l') l.

Lemma suc_tcp_register task : suc (tcp_register task) (fun _ v v' l => v' = add_task v task /\ l = []).
Proof.
  intros st. apply wp_lift, wp_bind. unfold push_task, lock. destruct (tcp_tasks st) as [p d] eqn:E. simpl.
  destruct p; simpl.
  - apply wp_bind, wp_call. intros []. by apply wp_ret, wp_ret.
  - apply wp_ret, wp_ret. intros u _. split; [|done]. unfold view, tcp_served, add_task. simpl. by rewrite E.
Qed.

Lemma suc_tcp_dispatchers config svc s :
  suc (tcp_dispatchers runtime config svc s) (fun q v v' l => exists addr limits (ws : list (placed (Z * Z))),
    q = (addr, limits, (fun p => (p_own p).1) <$> ws) /\
    length limits = length (worker_executors runtime) /\ p_executor <$> ws = worker_executors runtime /\
    v' = foldl add_task v (p_task <$> ws) /\
    l = Sys (Did (GetLocalAddr s) true) ::
        (LimitMade (Limit.new (Tcp.cfg_max_concurrency_per_worker config)) <$> limits) ++
        workers_log (fun _ x => [ChannelMade FALLBACK_TCP_WORK_QUEUE_CAPACITY x.1 x.2])
          (fun _ x => TcpDispatchJob x.2 svc) 0 ws).
Proof.
  apply (suc_then _ _ (fun addr v v' l => v' = v /\ l = [Sys (Did (GetLocalAddr s) true)])).
  { apply suc_local_addr. }
  intros addr. eapply suc_then; [apply suc_effect, suc_limits|]. intros limits.
  eapply suc_then; [apply suc_dispatch_tasks, suc_tcp_register|]. intros senders.
  eapply suc_mono; [apply suc_finish|].
  intros q v v' l (-> & -> & ->) v2 l2 (ws & -> & Hex & -> & ->) v3 l3 (-> & limits' & Hl & -> & ->)
    v4 l4 [-> ->].
  exists addr, limits', ws. by rewrite app_nil_r.
Qed.

Lemma suc_tcp_serve config svc :
  suc (if negb (reuse_port_balancing (capabilities t))
       then tcp_add_simulated_listener_with_state t rt runtime config svc
       else tcp_add_reuse_port_listener_with_state t runtime config svc)
    (fun _ v v' l => v = tasks_view [] -> tcp_deployed svc config v' l).
Proof.
  unfold tcp_deployed. destruct (reuse_port_balancing (capabilities t)) eqn:Ht; cbn [negb].
  - apply suc_after.
    + eapply wp_mono; [apply (workers_no_leak t (bind_tcp t config)), bind_tcp_single|].
      intros r l [Hb Hn] v ->. split; [exact Hb|]. specialize (Hn v eq_refl). rewrite Ht in Hn.
      unfold worker_count, len in *. lia.
    + intros v b [_ Hn].
      apply (suc_native runtime tcp_register suc_tcp_register _ (fun s limit => TcpListenerJob s limit svc) v Hn).
  - unfold tcp_add_simulated_listener_with_state. case_match; [apply suc_reject|].
    apply suc_after.
    { eapply wp_mono; [apply bind_tcp_single|]. intros r l Hl s ->. exact Hl. }
    intros s b _. eapply suc_then; [apply suc_owned, suc_tcp_dispatchers|]. intros q.
    eapply suc_then; [apply suc_submit_worker|]. intros task. eapply suc_mono; [apply suc_tcp_register|].
    intros _ v v1 l [-> ->] v2 l2 (-> & e & He & ->) v3 l3 (addr & limits & ws & -> & Hn & Hex & -> & ->) ->.
    exists addr. eexists. split; [done|]. exists limits, ws, e, task. split_and!; [done|done|done| |].
    + by rewrite foldl_add_task.
    + rewrite (executors_length runtime), app_nil_r. symmetry. apply (assoc_L (++)).
Qed.

(** C30: What a started TCP server consists of, call by call: where the platform
    balances, one listener per worker in its own task on its executor, with its own
    limit; otherwise one listener, whose accepting task on worker 0 has the sending
    ends of the channels of the workers' dispatch tasks in order, a limit per
    worker, and the listener's address.  All tasks are registered, in order.  On
    every path, failed ones too, each descriptor opened is closed again or in a
    submitted task, the flag stays set and no task is cancelled. *)
Theorem tcp_serve_deploys config svc (w : W) :
  let r := value (tcp_serve_with_state t rt runtime config svc) w in
  let l := log (tcp_serve_with_state t rt runtime config svc) w in
  (r.2 = Ok () -> tcp_deployed svc config (view r.1) l) /\
  across made1 l ≡ₚ across gone1 l ++ across given1 l /\
  tcp_active r.1 = true /\ Forall uncancelled l.
Proof.
  destruct (bal_tcp_serve t rt runtime config svc w) as [Hm [Ha Hl]].
  assert (wp (tcp_serve_with_state t rt runtime config svc) (fun r l =>
    r.2 = Ok () -> tcp_deployed svc config (view r.1) l)) as Hd.
  { apply wp_bind, wp_ret. simpl. eapply wp_mono; [apply suc_tcp_serve|]. intros r l Hr Hok. by eapply Hr. }
  split_and!; [apply (Hd w)| |done|done].
  unfold moves, kept in Hm. simpl in Hm. by rewrite !app_nil_r in Hm.
Qed.
End Tcp.

(** ** A concrete world

    The kernel of [Selector.v], which numbers everything from [k_next]; executor 101
    refuses tasks.  While [serve] submits, a dispatch task and a listener task of
    another worker may begin. *)
#[local] Existing Instances kernel_os kernel_selector.

#[local] Abbreviation fresh w := (k_next w, k_update w (k_next w + 1) (k_group w) (k_queue w) (k_now w)) (only parsing).

#[local] Instance kernel_state : StateEnv kernel := {|
  st_local_addr _ w := (Ok any_addr, w);
  st_bind _ w := let '(s, w) := fresh w in (Ok s, w);
  st_send_to _ b _ w := (Ok (len b), w);
  st_shutdown _ w := (Ok (), w);
  st_try_clone _ w := let '(s, w) := fresh w in (Ok s, w);
  st_close _ w := ((), w);
  st_cancel _ w := ((), w);
  st_drop_task _ w := ((), w);
  st_from_std s w := (Ok s, w);
  st_time_seed w := (7, w);
|}.
#[local] Instance kernel_runtime : RuntimeEnv kernel := {|
  rt_num_cpus w := (2, w);
  rt_spawn_thread _ w := let '(s, w) := fresh w in (Ok s, w);
  rt_receive_executor t w := (Some (100 + t), w);
  rt_shutdown _ w := ((), w);
  rt_join _ w := ((), w);
  rt_spawn_task e w :=
    if e =? 101 then (Err (Io.mkError Io.BrokenPipe EmptyString), w)
    else let '(s, w) := fresh w in (Ok s, w);
|}.
#[local] Instance kernel_serve : ServeEnv kernel := {|
  serve_limit _ w := fresh w;
  serve_channel _ w := let '(s, w) := fresh w in ((s, 1000 + s), w);
|}.
#[local] Instance kernel_jobs : JobEnv kernel := {|
  job_state_factory _ w := fresh w;
  job_tcp_from_std s w := (Ok s, w);
|}.
#[local] Instance kernel_tasks : Interference kernel UdpServerState :=
  task_interference (fun _ => [(7, UdpDispatchJob 50 (mkService (Some 1) 2));
                               (8, UdpListenerJob 60 61 false (mkService None 2))]).
#[local] Instance kernel_bystanders : Bystanders kernel UdpServerState.
Proof. apply task_bystanders. Defined.

Definition three_workers : ServerRuntimeInner :=
  mkInner [mkWorker 102 1 true true; mkWorker 103 2 true true; mkWorker 104 3 true true] true 0.
(** The second executor has stopped. *)
Definition broken_workers : ServerRuntimeInner :=
  mkInner [mkWorker 102 1 true true; mkWorker 101 2 true true; mkWorker 104 3 true true] true 0.

(** The two starts below. *)
Definition quic_start : prog kernel serve_event (UdpServerState * crate_result unit) :=
  enter Linux RuntimeTokio X86_64 8 three_workers (QuicServe (mkService (Some 1) 2)) (Udp.new any_addr).
Definition broken_start : prog kernel serve_event (UdpServerState * crate_result unit) :=
  enter Linux RuntimeTokio X86_64 8 broken_workers (UdpServe (mkService None 2)) (Udp.new any_addr).

(** On Linux with the classic selector the QUIC server gets the workers' sockets. *)
Lemma serve_deploys_witness :
  deployed (CB := unit) Linux RuntimeTokio three_workers (QuicServe (mkService (Some 1) 2)) (Udp.new any_addr)
    (view (value quic_start good_kernel).1) (log quic_start good_kernel) /\
  ((fun e => match e with Handed e _ (QuicBpfJob s n _ _) => [(e, s, n)] | _ => [] end) <$> log quic_start good_kernel)
    ≫= id = [(102, 3, 3); (103, 4, 3); (104, 5, 3)].
Proof.
  split; [|vm_compute; reflexivity]. unfold quic_start.
  apply (serve_deploys Linux RuntimeTokio X86_64 8 three_workers (QuicServe (mkService (Some 1) 2))
           (Udp.new any_addr) good_kernel).
  vm_compute. reflexivity.
Defined.

(** A failed start of a UDP server: the socket of the second worker was dropped with
    its closure and the third one's with the rest. *)
Lemma serve_accounts_for_descriptors_witness :
  across made1 (log broken_start good_kernel) ≡ₚ
    across gone1 (log broken_start good_kernel) ++ across given1 (log broken_start good_kernel) ++
    data (close_sockets (value broken_start good_kernel).1) /\
  across gone1 (log broken_start good_kernel) = [4; 5] /\ across given1 (log broken_start good_kernel) = [3].
Proof.
  split; [|vm_compute; auto]. unfold broken_start.
  exact (serve_accounts_for_descriptors Linux RuntimeTokio X86_64 8 broken_workers
           (UdpServe (mkService None 2)) (Udp.new any_addr) good_kernel).
Defined.

(** The same failed start leaves the task of the first worker running. *)
Lemma serve_takes_nothing_back_witness :
  is_ok (value broken_start good_kernel).2 = false /\
  ServerState.active (value broken_start good_kernel).1 = true /\ Forall uncancelled (log broken_start good_kernel) /\
  (exists l1 executor task j l2, log broken_start good_kernel = l1 ++ Handed executor task j :: l2).
Proof.
  pose proof (serve_takes_nothing_back Linux RuntimeTokio X86_64 8 broken_workers
           (UdpServe (mkService None 2)) (Udp.new any_addr) good_kernel) as (_ & Ha & Hl).
  split; [vm_compute; reflexivity|]. split; [exact Ha|]. split; [exact Hl|].
  exists (take 17 (log broken_start good_kernel)). do 4 eexists. vm_compute. reflexivity.
Defined.

(** Two tasks on their threads; thread 2 finds a clone of socket 21. *)
Lemma worker_threads_find_their_sockets_witness :
  exists s', data (thread_sockets (value (run_tasks
      [(1, UdpListenerJob 20 30 false (mkService None 2)); (2, UdpListenerJob 21 31 false (mkService None 2))]
      ServerState.new) good_kernel).1) !! 2 = Some s'.
Proof.
  destruct (worker_threads_find_their_sockets
    [(1, UdpListenerJob 20 30 false (mkService None 2)); (2, UdpListenerJob 21 31 false (mkService None 2))]
    ServerState.new good_kernel) with (thread := 2) (j := UdpListenerJob 21 31 false (mkService None 2)) (s := 21)
    as (s' & _ & Hs & _).
  - vm_compute. rewrite !NoDup_cons. split_and!; [set_solver|set_solver|apply NoDup_nil_2].
  - reflexivity.
  - vm_compute. intros Hin. repeat (apply elem_of_cons in Hin as [Hin|Hin]; [discriminate|]).
    by apply elem_of_nil in Hin.
  - set_solver.
  - reflexivity.
  - exists s'. exact Hs.
Defined.
